(* ===== verification/_CoqProject ===== *)
-Q . S2P
Prelude.v
Text.v
Logger.v
BinaryProtocol.v
PublicHeader.v
RespParser.v
AckSet.v
Lmdb.v
Storage.v
Signing.v
Streams.v
Keystore.v
Keygen.v
Metrics.v
Floats.v
Broker.v
Scrape.v
Session.v
Programs.v
System.v
Order.v
Firmware.v
Clients.v
Calls.v
Refine.v
Network.v
NetLogic.v
Late.v
ExactlyOnce.v
Examples.v
Tools.v
Benchmarks.v
EndToEnd.v
Program.v
