(* ===== verification/Prelude.v ===== *)
(** * MetricMQ: a verification library

    MetricMQ is a TCP message broker with topics, for devices and services. A
    connection speaks either a binary framing or RESP; the broker relays what
    is published to the subscribers, stores it in LMDB, and tracks
    acknowledgements per client; Ed25519 signatures guard the topics under
    ["secure/"]. This library models the broker, its client library, the device
    sketches and the tools as executable definitions and proves what makes them
    correct. Paths below are relative to the repository's root.

    ** Parts and files

    - [Prelude.v]: bytes, machine integers, [std::string] operations that can
      throw, record update, the state-and-exception monad [act] in which
      stateful code is written, with the tactics and lemmas all files share.
    - [Text.v]: [std::to_string], [std::stoll], [std::stoull], [toupper], the
      byte order of [memcmp].
    - [Logger.v] (Module [Logger]): [src/logger.cpp] and the macros of
      [include/metricmq/logger.hpp], over an interface of spdlog.
    - [BinaryProtocol.v]: [src/binary_protocol.{hpp,cpp}]. [BinaryFrame] and its
      constructors, the integer codecs byte by byte, [serialize], [parse].
    - [PublicHeader.v]: the second declaration of frames that client programs
      compile against, [include/metricmq/binary_protocol.hpp].
    - [RespParser.v] (Module [Resp]): [src/resp_parser.{hpp,cpp}].
    - [AckSet.v] (Module [Acks]): [BoundedAckSet] of [src/broker.hpp].
    - [Lmdb.v]: the interface of the LMDB calls: operations ([LmdbOps]), the
      laws the code relies on ([LmdbLaws]: documented behaviour of calls that
      succeed; any call may fail, as when the map is full), and two engines on
      finite maps that implement it, one of which runs full.
    - [Storage.v] (Module [Storage]): [src/storage/LmdbStorage.cpp], every
      method call by call over that interface.
    - [Signing.v], [Keystore.v]: [src/crypto/signing.cpp] over the interface
      [Sodium] with [SodiumLaws], and [src/crypto/keystore.cpp].
    - [Streams.v], [Keygen.v]: formatted output of [std::ostream], and
      [tools/keygen.cpp] with what it prints and writes.
    - [Metrics.v]: [src/metrics.cpp] and [src/metrics_server.cpp]. [Floats.v]: the
      arithmetic on [double] and the text C++ makes of a [double].
    - [Broker.v] (Module [Broker]): [src/broker.cpp]; one action per method,
      and what a run of the process does to the database.
    - [Scrape.v] (Module [Scrape]): the calls of the metrics again, as operations
      on relaxed atomics and a mutex, with the threads that count and the
      threads of the HTTP server that export.
    - [Session.v] (Module [Session]): [src/session.cpp]; the receive loop, the
      handlers of both protocols, cleanup, and the loop of [send].
    - [Programs.v], [System.v]: the same handlers as sequences of steps, cut
      where the code takes and releases its locks and where it writes to a
      socket, and all threads of the broker together: one per session and the
      accept loop, in any interleaving, with key administration and
      [Broker::stop]. The broker's mutex has an owner for whom the others wait;
      a write waits for the peer, is taken in part or fails. [Order.v] compares
      what two subscribers are sent in such an interleaving.
    - [Firmware.v] (Modules [Esp32], [Esp8266], [PlatformIO]): the sketches
      [wokwi/metricmq-esp32-demo], [metricmq-wokwi-esp8266] and
      [metricmq-platformio-test].
    - [Clients.v] (Module [Clients]): [src/pubsub.cpp], [src/binary_pubsub.cpp],
      [src/queue.cpp]; each method as a function to the trace of its effects.
    - [Calls.v] (Module [Calls]): the same methods, with constructors and
      destructors, as interaction trees: programs that ask the operating system
      for one thing at a time. [Refine.v] relates the two descriptions.
    - [Network.v]: processes of several threads, each a program of [Calls],
      beside the broker with its sessions ([reaches]: under every schedule;
      [run]: under an eager one, for evaluation). [NetLogic.v] is the logic for
      such processes, [Late.v] what it gives for a subscriber that comes after
      the messages.
    - [ExactlyOnce.v]: [examples/exactly_once_test.cpp]. [Examples.v]: the other
      client programs of [examples/].
    - [Tools.v]: the size estimates of [benchmark/protocol_benchmark.cpp], and
      the programs [examples/signed_publish_test.cpp] and
      [examples/crypto_demo.cpp].
    - [Benchmarks.v] (Modules [Persistence], [Latency]): the bodies of
      [benchmark/persistence_benchmark.cpp], [latency_benchmark.cpp],
      [throughput_benchmark.cpp], [throughput.cpp] and [protocol_benchmark.cpp].
    - [EndToEnd.v]: the parts put together, from a publisher's call to a
      subscriber's callback, on both protocols and across them.
    - [Program.v] (Modules [Main], [Wire]): [src/main.cpp] with its signal
      handler and the parts it starts, and two threads writing to one socket.

    ** How the model corresponds to the code

    - Data. A [std::string] is a list of bytes, an integer is a [Z] whose
      wrap-around is written out ([u16], [u32], [u64], [i32]), a struct is a record
      with the source's field names, an unordered map or set is [gmap] or
      [gset] (where the order of iteration shows, it is a parameter:
      [HashOrder]).
    - Errors. A function that can throw or loop returns an [outcome]: [Ret],
      [Throw] or [Diverge]. Early returns are branches in the source's order.
    - State. A method is an action of [act]: it takes the object and returns the
      object and an outcome, and the object keeps what was changed before a
      throw. The broker's state contains the metrics singleton, and an
      [outbox] that records, per session and in order, the arguments of the
      calls of [Session::send]: what the code asks to be sent. What reaches the
      socket is a prefix of each ([Session.send_loop]), and when ([System.Send])
      is up to the peer. A session's state stands beside the broker's and the
      key store's.
    - Inputs. What the operating system reports is an argument: the packets
      [recv] returns, the results of [socket], [accept] and [send], the clock.
    - Concurrency. In [Broker.step] the calls of several sessions are a sequence
      of steps, in any order, each call as one step. [System.step] is finer: a
      step takes or releases the broker's mutex, does the work under it, makes
      one access to shared state without it, or is one [::send]; a call to the
      key store is one step for each time it takes the store's lock. [publish]
      keeps the mutex over its sends; that it updates the metrics after them and
      not before is the one order that is not kept, and nothing there reads
      them. Run alone on sockets that take everything the steps do what the
      functions of [Session] do ([Programs.alone_is_sequential]). A thread's
      program is safe when each of its steps is, given the shared invariant at
      that moment, what it holds and nothing else ([System.wp]); so the proofs
      of the handlers do not mention the other threads.
    - Client processes. In [Network.step] the threads of a client process take
      turns with the broker; a step is one call of a thread to the operating
      system or one access to a shared variable, or what the broker does with
      what one [recv] returned. Sockets deliver bytes in order; a [recv] of a
      client returns what is there, up to its size, and blocks while there is
      nothing and the connection stands. A sleep may last any time. A write to a
      connection the broker has closed may raise SIGPIPE, which kills the
      process; the broker's own writes are taken here.

    ** What the theorems show

    - The wire. [parse] and [serialize] of both protocols are inverse to each
      other within the protocol's limits; [parse] returns on every input, and
      the binary one equals a declarative reading of the header.
    - Sessions. No input makes a session hang or throw, the broker's invariant
      survives it, and a session that ends leaves nothing behind
      ([session_run_safe]); the cut of the stream into packets is irrelevant
      ([chunking_irrelevant]); secure topics are only published to with a valid
      signature on the binary protocol ([secure_topic_protected]), and not
      guarded on RESP ([resp_publish_reaches_callback]).
    - Threads. In every interleaving before the storage is closed the broker's
      invariant holds, no step ends the process but a write that raises SIGPIPE,
      and nobody is in a deadlock: who cannot go on waits for a socket, or for
      the mutex of one who can or who waits for a socket ([concurrent_safe]).
      That last case is real: while the owner of the mutex writes to a peer that
      does not read, nothing under the mutex changes and every thread that comes
      to it stays there ([unread_socket_stalls]). When the writes of the owner
      and its own are taken, a request finishes ([requests_finish]) and a silent
      connection is reclaimed ([idle_session_reclaimed]). Subscribers with the
      same subscriptions are sent the same messages in the same order, since
      [publish] sends under the broker's lock ([subscribers_agree]). Two races,
      from every reachable state: closing the storage under a replay
      ([stop_race_crashes]) and removing a key between its two checks
      ([scope_check_races]); and partial writes by two threads to one socket
      ([sends_can_tear]).
    - Broker. The invariant of all reachable states ([reachable_safe]), exact
      delivery of one publish and of any history ([publish_delivers],
      [subscriber_stream]; subscriptions are literal topics but for ["#"]), ACKs
      and their restart ([ack_recorded], [ack_survives_restart]) and
      persistence ([publish_persisted]), both when the engine takes the write
      and when it does not, retention over one run of the process on any
      database ([retention_exact]), the connection limit ([accept_loop_admits]).
    - Storage. Atomicity under failing calls, exactness of the sweeps, ACK round
      trip and isolation of clients; the refinement to finite maps is [m_save],
      [m_sweep] and [m_last]. [saved_record_decodes], [load_range_stops],
      [load_acks_collision] and [replay_sends_nothing] state where the storage
      format defeats its purpose: the separator that is never stored, the
      decimal keys in string order, the colon in a client name.
    - Keys and signatures. Revocation, freshness of identifiers, exactness of
      verification, the hexadecimal codecs.
    - Metrics. The exported histogram and the per-topic gauges are what was
      recorded, the sum to the microsecond ([exported_sum_exact]); [reset] leaves
      the histograms ([reset_keeps_histograms]). While sessions count, a
      response of the HTTP server never falls behind an earlier one of the same
      thread, although the atomics are relaxed ([scrapes_monotone]); a single
      one may contradict itself ([scrape_can_tear]). When every load of a thread
      reads the newest value, its memory operations are the functions of
      [Metrics] ([tasks_refine_metrics]), and the broker makes no others
      ([broker_reports]).
    - Clients and end to end. No input makes a client method hang in a parser
      or throw ([clients_return]); a stream is handed to the callbacks exactly;
      a published message, signed or not, binary or RESP, arrives at the
      callback of every other subscriber of its protocol, once for the topic
      and once more for ["#"]; a subscriber of the other protocol is deaf from
      there on ([mixed_protocols_deafen]); a task that is pushed arrives at
      every consumer of the queue, so a queue does not distribute work
      ([task_reaches_every_consumer]). The interactive programs of the library
      perform what its traces say ([subscribe_fed] and the other lemmas of
      [Refine]).
    - Client processes under every schedule. A subscription returns only when
      its connection is gone, and a subscriber that comes after the messages
      hears none of them; so test 2 of the exactly-once tests waits forever,
      unless SIGPIPE kills it ([test2_waits_forever]), test 4 never passes ([test4_never_passes]), the
      persistence example never reports success
      ([persistence_test_never_succeeds]) and the end-to-end latency benchmark
      never measures ([end_to_end_never_ends]). The tests that subscribe before
      they publish pass in an evaluated run ([live_subscribers_pass]).
    - Logger. A second [init] replaces the logger and leaves it unregistered
      ([second_init_replaces]); a log that cannot be opened is followed as a
      null pointer ([unopened_log_crashes]).
    - The process. What [main] comes to, by what the system grants it
      ([startup_outcomes]); how the main thread and the handler, which sleeps
      in the middle of [Broker::stop], end it after a signal ([shutdown_live],
      [main_exit_code]; what the session threads can do to it meanwhile is in
      [stop_race_crashes]); a signal that comes before the broker exists is lost
      ([early_signal_lost]).
    - Devices and tools. No sketch publishes more often than every ten seconds
      across clock wrap-arounds ([devices_rate_limited]); the ESP8266 sketch
      writes correct RESP ([esp8266_speaks_resp]), while nothing the ESP32
      sketch sends is ever published ([esp32_readings_lost]), since its frames
      lack the sequence field. The key generator's header file reads back to
      the keys ([keygen_header_reads_back]), but all its keys get the same
      identifier ([keygen_ids_collide]). The benchmark's sizes are exact
      ([wire_sizes_exact]), while its read benchmarks on the storage read
      nothing ([read_benchmarks_read_nothing]).

    ** Fuel and bounds

    Loops that are not structural take fuel, and are called with enough of it:
    the RESP parser with the length of its buffer ([resp_parse_equation] shows
    the source's recursive equation, [resp_parse_returns] that it returns), the
    draining loops with the length of the buffer since each round consumes a
    byte ([session_run_safe], [clients_return]), a cursor walk with the number
    of entries ([cursor_walk]), decimal digits with the binary logarithm. The
    trees of [Calls] are infinite and need none; [rg] is indexed by a number of
    calls, and the theorems hold for every number. The fuel of [Network.run] is
    only for evaluated runs, each of which is an execution ([run_reached]).
    [Scrape.small] bounds the operations of a run by [2 ^ 64], where the counters
    would wrap.

    ** What is not modelled

    The socket calls beyond their results, the log lines of the components, the
    scheduler of the operating system, what a signal handler breaks by logging
    and destroying objects in it, Poco's HTTP server, LMDB, libsodium and spdlog
    (interfaces), Arduino's libraries and [MetricMQ.h] of the PlatformIO sketch
    (inputs and effects), memory exhaustion, destruction of the broker at exit,
    text on the serial consoles. Of the benchmarks: the registration with Google
    Benchmark, whose arguments and iteration counts are parameters, and what it
    computes and prints itself. Of memory orders: only those of the metrics are
    modelled, in [Scrape]; elsewhere shared state is under locks, or an access
    is a step of [System]. The public headers beside those named above only declare what is modelled, and
    the files of the Prometheus exporter are empty. *)

From stdpp Require Export base list gmap sets strings sorting relations.
From Stdlib Require Export ZArith Lia.
From Stdlib Require Import Ascii.

Global Open Scope Z_scope.

(** ** Bytes and strings

    A [std::string] is a list of bytes; a byte is an [ascii]. *)

Abbreviation char := ascii.
Abbreviation bytes := (list ascii).

Declare Scope metricmq_scope.
Delimit Scope metricmq_scope with mq.
Global Open Scope metricmq_scope.

(** A string literal of the source, as bytes. *)
Definition lit (s : string) : bytes := String.list_ascii_of_string s.

(** [static_cast<uint8_t>(c)] *)
Definition char_code (c : char) : Z := Z.of_N (N_of_ascii c).

(** [static_cast<char>(z)]: the low eight bits. *)
Definition char_of (z : Z) : char := ascii_of_N (Z.to_N (z mod 256)).

(** [s.size()] *)
Abbreviation zlen s := (Z.of_nat (length s)).

(** Unsigned wrap-around at the widths the code uses. *)
Definition u16 (z : Z) : Z := z mod 2 ^ 16.
Definition u32 (z : Z) : Z := z mod 2 ^ 32.
Definition u64 (z : Z) : Z := z mod 2 ^ 64.

(** Conversion to a 32-bit [int]. *)
Definition i32 (z : Z) : Z := (z + 2 ^ 31) mod 2 ^ 32 - 2 ^ 31.

(** [static_cast<int64_t>] of an integer, and the int64 range. *)
Definition INT64_MIN : Z := - 2 ^ 63.
Definition INT64_MAX : Z := 2 ^ 63 - 1.

(** ** Outcomes

    A C++ call returns a value, throws, or does not return. [Diverge] stands
    for a loop that exhausted the fuel of its model; each component proves
    that it does not occur. *)
Inductive outcome (A : Type) : Type :=
| Ret (a : A)
| Throw (msg : string)
| Diverge.
Arguments Ret {A} a.
Arguments Throw {A} msg.
Arguments Diverge {A}.

Definition obind {A B} (m : outcome A) (k : A → outcome B) : outcome B :=
  match m with
  | Ret a => k a
  | Throw e => Throw e
  | Diverge => Diverge
  end.

Notation "'let!' x ':=' m 'in' k" := (obind m (λ x, k))
  (at level 10, x binder, m at level 100, k at level 200) : metricmq_scope.

(** [m] returned, as a boolean test and as a value. *)
Definition is_ret {A} (m : outcome A) : bool :=
  match m with Ret _ => true | _ => false end.

Lemma obind_ret {A B} (m : outcome A) (k : A → outcome B) b :
  obind m k = Ret b ↔ ∃ a, m = Ret a ∧ k a = Ret b.
Proof. destruct m; simpl; split; try (intros (? & ? & ?)); try done; [eauto|congruence]. Qed.

(** ** Reading strings *)

(** [s\[i\]], out of range being undefined behaviour. *)
Definition char_at (s : bytes) (i : nat) : outcome char :=
  match s !! i with
  | Some c => Ret c
  | None => Throw "index out of range"
  end.

(** [s.substr(pos, n)] and [s.substr(pos)] throw when [pos] is past the end. *)
Definition substr (s : bytes) (pos n : nat) : outcome bytes :=
  if Nat.leb pos (length s) then Ret (take n (drop pos s))
  else Throw "std::out_of_range".

Definition substr_from (s : bytes) (pos : nat) : outcome bytes :=
  if Nat.leb pos (length s) then Ret (drop pos s)
  else Throw "std::out_of_range".

(** [s.starts_with(p)] *)
Fixpoint starts_with (s p : bytes) {struct p} : bool :=
  match p, s with
  | [], _ => true
  | _, [] => false
  | a :: p', b :: s' => bool_decide (a = b) && starts_with s' p'
  end.

(** [s.find(pat)]: the first position at which [pat] occurs. *)
Fixpoint find_first (pat s : bytes) : option nat :=
  if starts_with s pat then Some 0%nat
  else match s with
       | [] => None
       | _ :: s' => S <$> find_first pat s'
       end.

(** [s.find(pat, start)] *)
Definition str_find (pat s : bytes) (start : nat) : option nat :=
  if Nat.leb start (length s)
  then (λ i, (start + i)%nat) <$> find_first pat (drop start s)
  else None.

(** [s.rfind(c)]: the last position of a character. *)
Fixpoint rfind (c : char) (s : bytes) : option nat :=
  match s with
  | [] => None
  | a :: s' =>
      match rfind c s' with
      | Some i => Some (S i)
      | None => if bool_decide (a = c) then Some 0%nat else None
      end
  end.

(** ** Record update

    [r <| f := v |>] is [r] with its field [f] assigned, and [r <| f ::= g |>]
    with [g] applied to the field. A record declares its fields once, as the
    eta expansion of its constructor; the setter of a field is derived. *)
Class Fields (R : Type) := fields_eta : R → R.

Class Setter {R T} (f : R → T) := mkSetter { set_field : (T → T) → R → R }.
Arguments set_field {R T} f {_} _ _ /.

Ltac derive_setter :=
  lazymatch goal with
  | |- @Setter ?R ?T ?f =>
      let e := constr:(_ : Fields R) in
      let e := eval hnf in e in
      lazymatch e with
      | context [f] =>
          lazymatch eval pattern f in e with
          | ?F _ => let s := eval cbv beta in (λ (g : T → T) (r : R), F (λ r, g (f r)) r) in exact (mkSetter _ _ f s)
          end
      end
  end.
#[export] Hint Extern 1 (Setter _) => derive_setter : typeclass_instances.

Notation "r <| f := v |>" := (set_field f (λ _, v) r)
  (at level 12, f at next level, left associativity, format "r  <| f  :=  v |>") : metricmq_scope.
Notation "r <| f ::= g |>" := (set_field f g r)
  (at level 12, f at next level, left associativity, format "r  <| f  ::=  g |>") : metricmq_scope.

(** ** Actions

    A method that changes the state and may throw: the changes made before the
    exception stay. The sequencing notation is that of stdpp. *)
Definition act (S A : Type) : Type := S → S * outcome A.

#[export] Instance act_ret {S} : MRet (act S) := λ A a s, (s, Ret a).
#[export] Instance act_bind {S} : MBind (act S) := λ A B k m s,
  match m s with
  | (s', Ret a) => k a s'
  | (s', Throw e) => (s', Throw e)
  | (s', Diverge) => (s', Diverge)
  end.

(** Read the state, change it, run a computation that does not change it. *)
Definition gets {S A} (f : S → A) : act S A := λ s, (s, Ret (f s)).
Definition modify {S} (f : S → S) : act S unit := λ s, (f s, Ret tt).
Definition liftO {S A} (m : outcome A) : act S A := λ s, (s, m).

(** [for (x : l) f(x)] *)
Fixpoint for_each {S A} (l : list A) (f : A → act S unit) : act S unit :=
  match l with
  | [] => mret tt
  | x :: l' => _ ← f x; for_each l' f
  end.

(** An action on a part of the state. *)
Definition on_part {S T A} (get : S → T) (put : T → S → S) (m : act T A) : act S A := λ s,
  let '(t, r) := m (get s) in (put t s, r).

(** *** What an action leaves alone, whatever its outcome *)

Definition preserves {S A X} (f : S → X) (m : act S A) : Prop := ∀ s, f (fst (m s)) = f s.

Lemma preserves_ret {S A X} (f : S → X) (a : A) : preserves f (mret a : act S A).
Proof. done. Qed.
Lemma preserves_gets {S A X} (f : S → X) (g : S → A) : preserves f (gets g).
Proof. done. Qed.
Lemma preserves_liftO {S A X} (f : S → X) (m : outcome A) : preserves f (liftO m : act S A).
Proof. done. Qed.
Lemma preserves_modify {S X} (f : S → X) (g : S → S) : (∀ s, f (g s) = f s) → preserves f (modify g).
Proof. done. Qed.
Lemma preserves_bind {S A B X} (f : S → X) (m : act S A) (k : A → act S B) :
  preserves f m → (∀ a, preserves f (k a)) → preserves f (m ≫= k).
Proof.
  intros Hm Hk s. specialize (Hm s). unfold mbind, act_bind. destruct (m s) as [s' []]; try done.
  rewrite Hk. exact Hm.
Qed.
Lemma preserves_for_each {S A X} (f : S → X) (l : list A) (g : A → act S unit) :
  (∀ x, preserves f (g x)) → preserves f (for_each l g).
Proof. intros Hg. induction l; simpl; [done|by apply preserves_bind]. Qed.
Lemma preserves_on_part {S T A X} (f : S → X) (get : S → T) (put : T → S → S) (h : T → X) (m : act T A) :
  (∀ t s, f (put t s) = h t) → (∀ s, f s = h (get s)) → preserves h m → preserves f (on_part get put m).
Proof.
  intros Hp Hg Hm s. specialize (Hm (get s)). unfold on_part. destruct (m (get s)) as [t r]. simpl in *.
  by rewrite Hp, Hg.
Qed.

Ltac preserve_step :=
  lazymatch goal with
  | |- preserves _ (_ ≫= _) => apply preserves_bind; [|intros ?]
  | |- preserves _ (for_each _ _) => apply preserves_for_each; intros ?
  | |- preserves _ (modify _) => apply preserves_modify; intros ?; try done
  | |- preserves _ (match ?y with _ => _ end) => destruct y
  | |- preserves _ (gets _) => apply preserves_gets
  | |- preserves _ (liftO _) => apply preserves_liftO
  | |- preserves _ (mret _) => apply preserves_ret
  end.

(** *** Actions that commute with a change of state they do not look at *)

Definition commutes {S A} (g : S → S) (m : act S A) : Prop :=
  ∀ s, m (g s) = (g (fst (m s)), snd (m s)).

Lemma commutes_ret {S A} (g : S → S) (a : A) : commutes g (mret a : act S A).
Proof. done. Qed.
Lemma commutes_gets {S A} (g : S → S) (f : S → A) : (∀ s, f (g s) = f s) → commutes g (gets f).
Proof. intros Hf s. unfold gets. by rewrite Hf. Qed.
Lemma commutes_liftO {S A} (g : S → S) (m : outcome A) : commutes g (liftO m : act S A).
Proof. done. Qed.
Lemma commutes_modify {S} (g h : S → S) : (∀ s, h (g s) = g (h s)) → commutes g (modify h).
Proof. intros Hh s. unfold modify. by rewrite Hh. Qed.
Lemma commutes_bind {S A B} (g : S → S) (m : act S A) (k : A → act S B) :
  commutes g m → (∀ a, commutes g (k a)) → commutes g (m ≫= k).
Proof.
  intros Hm Hk s. specialize (Hm s). unfold mbind, act_bind. rewrite Hm.
  destruct (m s) as [s' []]; simpl; [apply Hk|done..].
Qed.
Lemma commutes_for_each {S A} (g : S → S) (l : list A) (f : A → act S unit) :
  (∀ x, commutes g (f x)) → commutes g (for_each l f).
Proof. intros Hf. induction l; simpl; [done|by apply commutes_bind]. Qed.
Lemma commutes_on_part {S T A} (g : S → S) (get : S → T) (put : T → S → S) (m : act T A) :
  (∀ s, get (g s) = get s) → (∀ t s, put t (g s) = g (put t s)) → commutes g (on_part get put m).
Proof.
  intros Hg Hp s. unfold on_part. rewrite Hg. destruct (m (get s)) as [t r]. simpl. by rewrite Hp.
Qed.

Ltac commute_step :=
  lazymatch goal with
  | |- commutes _ (_ ≫= _) => apply commutes_bind; [|intros ?]
  | |- commutes _ (for_each _ _) => apply commutes_for_each; intros ?
  | |- commutes _ (modify _) => apply commutes_modify; intros ?; try done
  | |- commutes _ (match ?y with _ => _ end) => destruct y
  | |- commutes _ (gets _) => apply commutes_gets; intros ?; try done
  | |- commutes _ (liftO _) => apply commutes_liftO
  | |- commutes _ (mret _) => apply commutes_ret
  | |- commutes _ (on_part _ _ _) => apply commutes_on_part; intros; try done
  end.

(** ** Automation *)

Create HintDb mq.

(** Case analysis on the scrutinee of an [if] or a [match]. *)
Ltac break_match :=
  match goal with
  | |- context [match ?x with _ => _ end] => destruct x eqn:?
  end.
Ltac break_match_hyp H :=
  match type of H with
  | context [match ?x with _ => _ end] => destruct x eqn:?
  end.

(** Boolean tests of the code become the propositions they decide. *)
Ltac reflect_bools :=
  repeat match goal with
  | H : (_ && _)%bool = true |- _ => apply andb_true_iff in H as [? ?]
  | H : (_ || _)%bool = false |- _ => apply orb_false_iff in H as [? ?]
  | H : negb _ = true |- _ => apply negb_true_iff in H
  | H : negb _ = false |- _ => apply negb_false_iff in H
  | H : (_ <? _) = true |- _ => apply Z.ltb_lt in H
  | H : (_ <? _) = false |- _ => apply Z.ltb_ge in H
  | H : (_ <=? _) = true |- _ => apply Z.leb_le in H
  | H : (_ <=? _) = false |- _ => apply Z.leb_gt in H
  | H : (_ =? _) = true |- _ => apply Z.eqb_eq in H
  | H : (_ =? _) = false |- _ => apply Z.eqb_neq in H
  | H : Nat.leb _ _ = true |- _ => apply Nat.leb_le in H
  | H : Nat.leb _ _ = false |- _ => apply Nat.leb_gt in H
  | H : bool_decide _ = true |- _ => apply bool_decide_eq_true in H
  | H : bool_decide _ = false |- _ => apply bool_decide_eq_false in H
  end.

(** Linear arithmetic with division and remainder by constants. *)
Ltac dlia := Z.to_euclidean_division_equations; lia.

(** Decide the integer test the goal branches on by arithmetic. *)
Ltac zbranch :=
  match goal with
  | |- context [?a <? ?b] =>
      first [rewrite (proj2 (Z.ltb_lt a b)) by lia | rewrite (proj2 (Z.ltb_ge a b)) by lia]
  | |- context [?a <=? ?b] =>
      first [rewrite (proj2 (Z.leb_le a b)) by lia | rewrite (proj2 (Z.leb_gt a b)) by lia]
  | |- context [?a =? ?b] =>
      first [rewrite (proj2 (Z.eqb_eq a b)) by lia | rewrite (proj2 (Z.eqb_neq a b)) by lia]
  | |- context [Nat.leb ?a ?b] =>
      first [rewrite (proj2 (Nat.leb_le a b)) by lia | rewrite (proj2 (Nat.leb_gt a b)) by lia]
  end.

(** ** Characters *)

Lemma char_code_range c : 0 ≤ char_code c < 256.
Proof.
  unfold char_code. pose proof (N_ascii_bounded c).
  split; [apply N2Z.is_nonneg|]. change 256 with (Z.of_N 256). lia.
Qed.

Lemma char_code_of z : char_code (char_of z) = z mod 256.
Proof.
  unfold char_code, char_of.
  pose proof (Z.mod_pos_bound z 256 eq_refl).
  rewrite N_ascii_embedding; lia.
Qed.

Lemma char_of_code c : char_of (char_code c) = c.
Proof.
  unfold char_of. rewrite Z.mod_small by apply char_code_range.
  unfold char_code. rewrite N2Z.id. apply ascii_N_embedding.
Qed.

Lemma char_code_inj c d : char_code c = char_code d → c = d.
Proof. intros H. by rewrite <-(char_of_code c), <-(char_of_code d), H. Qed.

Lemma char_of_mod z : char_of (z mod 256) = char_of z.
Proof. unfold char_of. by rewrite Z.mod_mod. Qed.

Lemma char_of_eq z w : z mod 256 = w mod 256 → char_of z = char_of w.
Proof. unfold char_of. by intros ->. Qed.

(** ** Unsigned arithmetic *)

Lemma u16_range z : 0 ≤ u16 z < 2 ^ 16.
Proof. by apply Z.mod_pos_bound. Qed.
Lemma u32_range z : 0 ≤ u32 z < 2 ^ 32.
Proof. by apply Z.mod_pos_bound. Qed.
Lemma u64_range z : 0 ≤ u64 z < 2 ^ 64.
Proof. by apply Z.mod_pos_bound. Qed.
Lemma u16_small z : 0 ≤ z < 2 ^ 16 → u16 z = z.
Proof. apply Z.mod_small. Qed.
Lemma u32_small z : 0 ≤ z < 2 ^ 32 → u32 z = z.
Proof. apply Z.mod_small. Qed.
Lemma u64_small z : 0 ≤ z < 2 ^ 64 → u64 z = z.
Proof. apply Z.mod_small. Qed.

Lemma i32_add a b : i32 (i32 a + b) = i32 (a + b).
Proof.
  unfold i32. f_equal. replace ((a + 2 ^ 31) mod 2 ^ 32 - 2 ^ 31 + b + 2 ^ 31) with ((a + 2 ^ 31) mod 2 ^ 32 + b) by lia.
  rewrite Z.add_mod_idemp_l by done. f_equal. lia.
Qed.
Lemma i32_small z : - 2 ^ 31 ≤ z < 2 ^ 31 → i32 z = z.
Proof. intros Hz. unfold i32. rewrite Z.mod_small; lia. Qed.

Lemma max_if a b : (if a <? b then b else a) = Z.max a b.
Proof. destruct (a <? b) eqn:E; reflect_bools; lia. Qed.

#[export] Hint Resolve char_code_range u16_range u32_range u64_range : mq.

(** The bit operations of the codecs, as arithmetic. *)
Lemma land_ff z : Z.land z 0xFF = z mod 256.
Proof. change 0xFF with (Z.ones 8). by rewrite Z.land_ones. Qed.

Lemma lor_shiftl a b n :
  0 ≤ n → 0 ≤ b < 2 ^ n → Z.lor (Z.shiftl a n) b = a * 2 ^ n + b.
Proof.
  intros Hn Hb. rewrite Z.shiftl_mul_pow2 by done.
  symmetry. rewrite <-Z.lxor_lor; [rewrite <-Z.add_nocarry_lxor; [done|]|];
    apply Z.bits_inj'; intros k Hk; rewrite Z.land_spec, Z.bits_0;
    destruct (decide (k < n)).
  1,3: by rewrite Z.mul_pow2_bits_low by lia.
  all: rewrite (Z.testbit_eqb b) by lia;
    rewrite (Z.div_small b); [by rewrite andb_false_r|];
    split; [lia|]; eapply Z.lt_le_trans; [apply Hb|]; apply Z.pow_le_mono_r; lia.
Qed.

(** ** Lists *)

Lemma filter_id {A} (P : A → Prop) `{∀ x, Decision (P x)} (l : list A) : (∀ x, x ∈ l → P x) → filter P l = l.
Proof.
  induction l as [|x l IH]; intros HP; [done|].
  rewrite filter_cons_True, IH; [done|intros y Hy; apply HP; by right|apply HP; by left].
Qed.

Lemma filter_none {A} (f : A → bool) l : (∀ x, x ∈ l → f x = false) → List.filter f l = [].
Proof.
  induction l as [|x l IH]; intros Hf; simpl; [done|]. rewrite (Hf x) by by left.
  apply IH. intros y Hy. apply Hf. by right.
Qed.

Lemma foldr_max_elem (l : list Z) z x : x ∈ l → x ≤ foldr Z.max z l.
Proof. induction 1; simpl; lia. Qed.

(** Dropping the one occurrence of an element. *)
Lemma length_filter_ne {A} `{EqDecision A} (l : list A) a :
  NoDup l → a ∈ l → length l = S (length (filter (λ x, x ≠ a) l)).
Proof.
  intros Hn Ha. apply list_elem_of_split in Ha as (l1 & l2 & ->).
  apply NoDup_app in Hn as (_ & Hd & [Hn2 _]%NoDup_cons).
  rewrite filter_app, filter_cons_False, !length_app, !filter_id by (try tauto; set_solver).
  simpl. lia.
Qed.

#[export] Instance foldr_add_proper : Proper ((≡ₚ) ==> (=)) (foldr Z.add 0).
Proof. intros l l' Hl. induction Hl; simpl; lia. Qed.

Lemma take_drop_app {A} (l1 l2 : list A) n :
  n = length l1 → take n (l1 ++ l2) = l1 ∧ drop n (l1 ++ l2) = l2.
Proof. intros ->. by rewrite take_app_length, drop_app_length. Qed.

Lemma drop_app_at {A} (l1 l2 : list A) n :
  n = length l1 → drop n (l1 ++ l2) = l2.
Proof. intros ->. apply drop_app_length. Qed.

Lemma take_app_at {A} (l1 l2 : list A) n :
  n = length l1 → take n (l1 ++ l2) = l1.
Proof. intros ->. apply take_app_length. Qed.

(** ** Prefixes and searches *)

Lemma starts_with_spec s p : starts_with s p = true ↔ p `prefix_of` s.
Proof.
  revert s. induction p as [|a p IH]; intros s; simpl.
  - split; [intros _; apply prefix_nil|done].
  - destruct s as [|b s].
    + split; [done|]. by intros ?%prefix_nil_inv.
    + rewrite andb_true_iff, bool_decide_eq_true, IH. split.
      * intros [-> ?]. by apply prefix_cons.
      * intros H. split; [by eapply prefix_cons_inv_1|by eapply prefix_cons_inv_2].
Qed.

Lemma starts_with_app p s : starts_with (p ++ s) p = true.
Proof. apply starts_with_spec. by exists s. Qed.

Lemma starts_with_app_mono s p t : starts_with s p = true → starts_with (s ++ t) p = true.
Proof. rewrite !starts_with_spec. apply prefix_app_r. Qed.

Lemma starts_with_app_long s p t :
  (length p ≤ length s)%nat → starts_with (s ++ t) p = starts_with s p.
Proof.
  revert s. induction p as [|a p IH]; intros [|b s]; simpl; try done; try lia.
  intros. rewrite IH by lia. done.
Qed.

Lemma starts_with_take s p :
  bool_decide (take (length p) s = p) = starts_with s p.
Proof.
  apply eq_bool_prop_intro. rewrite bool_decide_spec, Is_true_true, starts_with_spec.
  split.
  - intros <-. apply prefix_take.
  - intros [t ->]. by rewrite take_app_length.
Qed.

Lemma find_first_Some pat s i :
  find_first pat s = Some i ↔
  (i ≤ length s)%nat ∧ starts_with (drop i s) pat = true ∧
  (∀ j, (j < i)%nat → starts_with (drop j s) pat = false).
Proof.
  revert i. induction s as [|a s IH]; intros i.
  - simpl. destruct (starts_with [] pat) eqn:E; split.
    + intros [= <-]. repeat split; [done|done|intros; lia].
    + intros (? & ? & _). f_equal. simpl in *. lia.
    + done.
    + rewrite drop_nil. intros (_ & ? & _). congruence.
  - change (find_first pat (a :: s)) with
      (if starts_with (a :: s) pat then Some 0%nat else S <$> find_first pat s).
    destruct (starts_with (a :: s) pat) eqn:E; split.
    + intros [= <-]. repeat split; [lia|done|intros; lia].
    + intros (_ & _ & H). destruct i as [|i]; [done|].
      specialize (H 0%nat ltac:(lia)). rewrite drop_0 in H. congruence.
    + rewrite fmap_Some. intros (k & Hk & ->). apply IH in Hk as (? & ? & Hm).
      repeat split; [simpl; lia|done|]. intros [|j] ?; [done|]. apply Hm. lia.
    + intros (Hl & Hd & Hm). destruct i as [|i]; [simpl in Hd; congruence|].
      rewrite fmap_Some. exists i. split; [|done]. apply IH. simpl in *.
      repeat split; [lia|done|]. intros j ?. apply (Hm (S j)). lia.
Qed.

(** Appending bytes does not move an occurrence that was already found. *)
Lemma find_first_app pat s t i :
  find_first pat s = Some i → find_first pat (s ++ t) = Some i.
Proof.
  rewrite !find_first_Some. intros (Hl & Hd & Hm).
  assert (length pat ≤ length (drop i s))%nat.
  { apply starts_with_spec in Hd as [u Hu]. rewrite Hu, length_app. lia. }
  rewrite length_drop in *.
  repeat split.
  - rewrite length_app. lia.
  - rewrite drop_app_le by done. by apply starts_with_app_mono.
  - intros j Hj. rewrite drop_app_le by lia. rewrite starts_with_app_long; [auto|].
    rewrite length_drop. lia.
Qed.

Lemma find_first_bound pat s i :
  find_first pat s = Some i → (i + length pat ≤ length s)%nat.
Proof.
  rewrite find_first_Some. intros (Hl & Hd & _).
  apply starts_with_spec in Hd as [u Hu].
  assert (length (drop i s) = length pat + length u)%nat by (rewrite Hu, length_app; done).
  rewrite length_drop in *. lia.
Qed.

Lemma str_find_bound pat s start i :
  str_find pat s start = Some i → (start ≤ i ∧ i + length pat ≤ length s)%nat.
Proof.
  unfold str_find. destruct (Nat.leb start (length s)) eqn:E; [|done].
  rewrite fmap_Some. intros (k & Hk & ->). apply find_first_bound in Hk.
  rewrite length_drop in Hk. reflect_bools. lia.
Qed.

Lemma str_find_app pat s t start i :
  str_find pat s start = Some i → str_find pat (s ++ t) start = Some i.
Proof.
  unfold str_find. destruct (Nat.leb start (length s)) eqn:E; [|done]. reflect_bools.
  rewrite fmap_Some. intros (k & Hk & ->). rewrite length_app. zbranch.
  rewrite drop_app_le by done. by rewrite (find_first_app _ _ _ _ Hk).
Qed.

(** Where a one-character pattern occurs. *)
Lemma find_first_char_app (c : char) s t :
  c ∉ s → find_first [c] (s ++ c :: t) = Some (length s).
Proof.
  intros Hc. induction s as [|a s IH]; simpl.
  - by rewrite bool_decide_true.
  - apply not_elem_of_cons in Hc as [Hne Hs]. rewrite bool_decide_false by done.
    simpl. by rewrite IH.
Qed.

Lemma find_first_char_None (c : char) s : c ∉ s → find_first [c] s = None.
Proof.
  intros Hc. induction s as [|a s IH]; simpl; [done|].
  apply not_elem_of_cons in Hc as [Hne Hs]. rewrite bool_decide_false by done.
  simpl. by rewrite IH.
Qed.

Lemma substr_ret s pos n r :
  substr s pos n = Ret r ↔ (pos ≤ length s)%nat ∧ r = take n (drop pos s).
Proof.
  unfold substr. destruct (Nat.leb pos (length s)) eqn:E; reflect_bools; [|split; [done|lia]].
  split; [intros [= <-]; auto|by intros [_ ->]].
Qed.

Lemma substr_from_ret s pos r :
  substr_from s pos = Ret r ↔ (pos ≤ length s)%nat ∧ r = drop pos s.
Proof.
  unfold substr_from. destruct (Nat.leb pos (length s)) eqn:E; reflect_bools; [|split; [done|lia]].
  split; [intros [= <-]; auto|by intros [_ ->]].
Qed.
