(* ===== verification/Text.v ===== *)
(** * Text: the standard-library conversions the broker relies on

    Decimal printing ([std::to_string], [operator<<] on integers), the
    [std::stoll]/[std::stoull] readers with their leading blanks, sign, trailing
    garbage and range errors, [::toupper], and the byte order of LMDB keys
    ([memcmp], then length). *)

From S2P Require Import Prelude.
From Stdlib Require Import Ascii.

(** ** Decimal printing *)

Definition digit (d : Z) : char := char_of (48 + d).

(** Digits of [n], most significant first. The fuel is one more than the
    number of bits of [n], and every step divides by ten. *)
Fixpoint dec_loop (fuel : nat) (n : Z) (acc : bytes) : bytes :=
  match fuel with
  | O => acc
  | S f => if n <? 10 then digit n :: acc
           else dec_loop f (n / 10) (digit (n mod 10) :: acc)
  end.

Definition dec_digits (n : Z) : bytes := dec_loop (S (Z.to_nat (Z.log2 n))) n [].

(** [std::to_string] of an integer. *)
Definition to_string (z : Z) : bytes :=
  if z <? 0 then char_of 45 :: dec_digits (- z) else dec_digits z.

(** ** Decimal reading *)

Definition is_digit (c : char) : bool := (48 <=? char_code c) && (char_code c <=? 57).
Definition is_space (c : char) : bool :=
  (char_code c =? 32) || ((9 <=? char_code c) && (char_code c <=? 13)).

Fixpoint drop_spaces (s : bytes) : bytes :=
  match s with
  | c :: s' => if is_space c then drop_spaces s' else s
  | [] => []
  end.

Fixpoint take_digits (s : bytes) : bytes :=
  match s with
  | c :: s' => if is_digit c then c :: take_digits s' else []
  | [] => []
  end.

Definition dec_value (ds : bytes) : Z :=
  fold_left (λ acc c, acc * 10 + (char_code c - 48)) ds 0.

(** The sign and magnitude [strtoll]/[strtoull] read, if any digit is there. *)
Definition strto (s : bytes) : option (bool * Z) :=
  let s1 := drop_spaces s in
  let '(neg, s2) :=
    match s1 with
    | c :: s' => if char_code c =? 45 then (true, s')
                 else if char_code c =? 43 then (false, s')
                 else (false, s1)
    | [] => (false, s1)
    end in
  match take_digits s2 with
  | [] => None
  | ds => Some (neg, dec_value ds)
  end.

(** [std::stoll]: [None] stands for [invalid_argument] or [out_of_range]. *)
Definition stoll (s : bytes) : option Z :=
  match strto s with
  | None => None
  | Some (neg, m) =>
      let v := if neg then - m else m in
      if (INT64_MIN <=? v) && (v <=? INT64_MAX) then Some v else None
  end.

(** [std::stoull]: a minus sign negates modulo [2^64]. *)
Definition stoull (s : bytes) : option Z :=
  match strto s with
  | None => None
  | Some (neg, m) =>
      if m <=? 2 ^ 64 - 1 then Some (if neg then u64 (- m) else m) else None
  end.

(** [::toupper] in the C locale. *)
Definition toupper (c : char) : char :=
  if (97 <=? char_code c) && (char_code c <=? 122) then char_of (char_code c - 32) else c.

(** ** Key order *)

Fixpoint lex_leb (a b : bytes) : bool :=
  match a, b with
  | [], _ => true
  | _ :: _, [] => false
  | x :: a', y :: b' =>
      if char_code x <? char_code y then true
      else if char_code y <? char_code x then false
      else lex_leb a' b'
  end.

Definition lex_le (a b : bytes) : Prop := lex_leb a b = true.
Definition lex_lt (a b : bytes) : Prop := lex_le a b ∧ a ≠ b.

#[export] Instance lex_le_dec : RelDecision lex_le.
Proof. intros a b. unfold lex_le. apply _. Defined.
#[export] Instance lex_lt_dec : RelDecision lex_lt.
Proof. intros a b. unfold lex_lt. apply _. Defined.

Lemma lex_leb_refl a : lex_leb a a = true.
Proof. induction a as [|x a IH]; simpl; [done|]. by rewrite Z.ltb_irrefl. Qed.

Lemma lex_leb_cons_eq x a b : lex_leb (x :: a) (x :: b) = lex_leb a b.
Proof. simpl. by rewrite Z.ltb_irrefl. Qed.

Lemma lex_leb_app p a b : lex_leb (p ++ a) (p ++ b) = lex_leb a b.
Proof. induction p as [|x p IH]; [done|]. simpl app. by rewrite lex_leb_cons_eq. Qed.

Lemma lex_leb_total a b : lex_leb a b = true ∨ lex_leb b a = true.
Proof.
  revert b. induction a as [|x a IH]; intros [|y b]; simpl; auto.
  destruct (char_code x <? char_code y) eqn:?, (char_code y <? char_code x) eqn:?; auto.
Qed.

Lemma lex_leb_antisym a b : lex_leb a b = true → lex_leb b a = true → a = b.
Proof.
  revert b. induction a as [|x a IH]; intros [|y b]; simpl; try done.
  destruct (char_code x <? char_code y) eqn:?, (char_code y <? char_code x) eqn:?;
    intros H1 H2; try discriminate; reflect_bools; [lia|].
  f_equal; [apply char_code_inj; lia|auto].
Qed.

Lemma lex_leb_trans a b c : lex_leb a b = true → lex_leb b c = true → lex_leb a c = true.
Proof.
  revert b c. induction a as [|x a IH]; intros [|y b] [|z c]; simpl; try done.
  intros H1 H2.
  repeat case_match; reflect_bools; try done; try lia. eauto.
Qed.

#[export] Instance lex_le_preorder : PreOrder lex_le.
Proof. split; [intros a; apply lex_leb_refl|intros a b c; apply lex_leb_trans]. Qed.
#[export] Instance lex_le_antisymm : AntiSymm (=) lex_le.
Proof. intros a b. apply lex_leb_antisym. Qed.
#[export] Instance lex_le_total : Total lex_le.
Proof. intros a b. apply lex_leb_total. Qed.

Lemma lex_lt_not_le a b : lex_lt a b ↔ ¬ lex_le b a.
Proof.
  split.
  - intros [Hle Hne] Hba. apply Hne. by apply (anti_symm lex_le).
  - intros H. split; [by destruct (total lex_le a b)|]. intros ->. by apply H.
Qed.

(** Keys sharing a prefix compare by what follows it. *)
Lemma lex_le_app p a b : lex_le (p ++ a) (p ++ b) ↔ lex_le a b.
Proof. unfold lex_le. by rewrite lex_leb_app. Qed.

Lemma lex_le_prefix p a : lex_le p (p ++ a).
Proof. unfold lex_le. rewrite <-(app_nil_r p) at 1. by rewrite lex_leb_app. Qed.

(** ** Digits *)

Lemma digit_code d : 0 ≤ d < 10 → char_code (digit d) = 48 + d.
Proof. intros. unfold digit. rewrite char_code_of. apply Z.mod_small. lia. Qed.

Lemma digit_is_digit d : 0 ≤ d < 10 → is_digit (digit d) = true.
Proof. intros. unfold is_digit. rewrite digit_code by done. lia. Qed.

Lemma dec_value_snoc ds c : dec_value (ds ++ [c]) = dec_value ds * 10 + (char_code c - 48).
Proof. unfold dec_value. by rewrite fold_left_app. Qed.

Lemma fold_dec_acc ds a :
  fold_left (λ acc c, acc * 10 + (char_code c - 48)) ds a
  = a * 10 ^ zlen ds + dec_value ds.
Proof.
  revert a. induction ds as [|c ds IH] using rev_ind; intros a; [cbn; lia|].
  rewrite dec_value_snoc, fold_left_app, length_app, IH. simpl.
  rewrite Nat2Z.inj_add, Z.pow_add_r by lia. lia.
Qed.

Lemma dec_value_cons c ds :
  dec_value (c :: ds) = (char_code c - 48) * 10 ^ zlen ds + dec_value ds.
Proof. unfold dec_value at 1. simpl fold_left. by rewrite fold_dec_acc. Qed.

Lemma dec_value_range ds :
  Forall (λ c, is_digit c = true) ds → 0 ≤ dec_value ds < 10 ^ zlen ds.
Proof.
  induction ds as [|c ds IH]; [cbn; lia|]. rewrite Forall_cons. intros [Hc Hds].
  rewrite dec_value_cons. specialize (IH Hds). unfold is_digit in Hc. reflect_bools.
  rewrite length_cons, Nat2Z.inj_succ, Z.pow_succ_r by lia. nia.
Qed.

(** What the printing loop produces: digits, at least one, of the right value,
    without a leading zero unless the number is zero. *)
Lemma dec_loop_spec fuel n acc :
  0 ≤ n < 2 ^ Z.of_nat fuel → (0 < fuel)%nat →
  ∃ c ds, dec_loop fuel n acc = (c :: ds) ++ acc ∧
    Forall (λ c, is_digit c = true) (c :: ds) ∧ dec_value (c :: ds) = n ∧
    (char_code c = 48 → n = 0 ∧ ds = []).
Proof.
  revert n acc. induction fuel as [|f IH]; intros n acc Hn Hf; [lia|].
  simpl. destruct (n <? 10) eqn:E; reflect_bools.
  - exists (digit n), []. repeat split.
    + constructor; [apply digit_is_digit; lia|done].
    + rewrite dec_value_cons, digit_code by lia. cbn. lia.
    + match goal with H : char_code (digit n) = 48 |- _ => rewrite digit_code in H by lia; lia end.
  - assert (n mod 10 = n - 10 * (n / 10)) by dlia.
    assert (0 ≤ n mod 10 < 10) by dlia.
    rewrite Nat2Z.inj_succ, Z.pow_succ_r in Hn by lia.
    assert (0 < f)%nat by (destruct f; [cbn in Hn; lia|lia]).
    destruct (IH (n / 10) (digit (n mod 10) :: acc)) as (c & ds & Hl & Hd & Hv & Hz);
      [dlia|done|].
    exists c, (ds ++ [digit (n mod 10)]). rewrite Hl. repeat split.
    + simpl. by rewrite <-app_assoc.
    + change (c :: ds ++ [digit (n mod 10)]) with ((c :: ds) ++ [digit (n mod 10)]).
      apply Forall_app. split; [done|]. by repeat constructor; apply digit_is_digit.
    + change (c :: ds ++ [digit (n mod 10)]) with ((c :: ds) ++ [digit (n mod 10)]).
      rewrite dec_value_snoc, Hv, digit_code by done. lia.
    + destruct (Hz ltac:(done)). lia.
    + destruct (Hz ltac:(done)). lia.
Qed.

Lemma dec_digits_spec n :
  0 ≤ n →
  ∃ c ds, dec_digits n = c :: ds ∧ Forall (λ c, is_digit c = true) (c :: ds) ∧
    dec_value (c :: ds) = n ∧ (char_code c = 48 → n = 0 ∧ ds = []).
Proof.
  intros Hn.
  destruct (dec_loop_spec (S (Z.to_nat (Z.log2 n))) n []) as (c & ds & Hl & H); [|lia|].
  - split; [done|]. rewrite Nat2Z.inj_succ, Z2Nat.id by apply Z.log2_nonneg.
    destruct (decide (n = 0)) as [->|]; [done|]. apply Z.log2_spec. lia.
  - exists c, ds. by rewrite app_nil_r in Hl.
Qed.

(** ** Round trips *)

Lemma take_digits_app ds r :
  Forall (λ c, is_digit c = true) ds →
  match r with [] => True | c :: _ => is_digit c = false end →
  take_digits (ds ++ r) = ds.
Proof.
  intros Hds Hr. induction Hds as [|c ds Hc _ IH]; simpl.
  - destruct r as [|c r]; [done|]. simpl. by rewrite Hr.
  - by rewrite Hc, IH.
Qed.

Lemma digit_not_special c :
  is_digit c = true → is_space c = false ∧ (char_code c =? 45) = false ∧ (char_code c =? 43) = false.
Proof. unfold is_digit, is_space. lia. Qed.

Lemma strto_dec n r :
  0 ≤ n → match r with [] => True | c :: _ => is_digit c = false end →
  strto (dec_digits n ++ r) = Some (false, n).
Proof.
  intros Hn Hr. destruct (dec_digits_spec n Hn) as (c & ds & -> & Hd & Hv & _).
  pose proof Hd as Hd'. apply Forall_cons in Hd' as [Hc _].
  destruct (digit_not_special c Hc) as (H1 & H2 & H3).
  unfold strto. simpl. rewrite H1, H2, H3.
  rewrite app_comm_cons, take_digits_app by done. by rewrite Hv.
Qed.

Lemma strto_neg_dec n r :
  0 ≤ n → match r with [] => True | c :: _ => is_digit c = false end →
  strto (char_of 45 :: dec_digits n ++ r) = Some (true, n).
Proof.
  intros Hn Hr. destruct (dec_digits_spec n Hn) as (c & ds & -> & Hd & Hv & _).
  unfold strto. cbn [drop_spaces]. change (is_space (char_of 45)) with false.
  cbn iota. change (char_code (char_of 45) =? 45) with true. cbn iota.
  rewrite take_digits_app by done. by rewrite Hv.
Qed.

Lemma stoll_to_string z :
  INT64_MIN ≤ z ≤ INT64_MAX → stoll (to_string z) = Some z.
Proof.
  intros Hz. unfold stoll, to_string. destruct (z <? 0) eqn:E; reflect_bools.
  - rewrite <-(app_nil_r (dec_digits (- z))), strto_neg_dec by (done || lia).
    rewrite Z.opp_involutive. by do 2 zbranch.
  - rewrite <-(app_nil_r (dec_digits z)), strto_dec by (done || lia). by do 2 zbranch.
Qed.

Lemma stoull_to_string z r :
  0 ≤ z < 2 ^ 64 → match r with [] => True | c :: _ => is_digit c = false end →
  stoull (to_string z ++ r) = Some z.
Proof.
  intros Hz Hr. unfold stoull, to_string. zbranch. rewrite strto_dec by (done || lia).
  by zbranch.
Qed.

Lemma to_string_inj z w : 0 ≤ z < 2 ^ 64 → 0 ≤ w < 2 ^ 64 → to_string z = to_string w → z = w.
Proof.
  intros Hz Hw E. pose proof (stoull_to_string z [] Hz I) as H1.
  rewrite app_nil_r, E in H1. pose proof (stoull_to_string w [] Hw I) as H2.
  rewrite app_nil_r in H2. congruence.
Qed.

Lemma to_string_digits z :
  0 ≤ z → Forall (λ c, is_digit c = true) (to_string z) ∧ to_string z ≠ [].
Proof.
  intros Hz. unfold to_string. zbranch.
  by destruct (dec_digits_spec z Hz) as (c & ds & -> & ? & _).
Qed.

Lemma to_string_value z : 0 ≤ z → dec_value (to_string z) = z.
Proof.
  intros Hz. unfold to_string. zbranch.
  by destruct (dec_digits_spec z Hz) as (c & ds & -> & ? & ? & _).
Qed.

(** ** Lexicographic order of decimals

    Numbers with the same number of digits compare as their keys do. *)
Lemma lex_le_dec_value a b :
  length a = length b →
  Forall (λ c, is_digit c = true) a → Forall (λ c, is_digit c = true) b →
  lex_le a b ↔ dec_value a ≤ dec_value b.
Proof.
  unfold lex_le. revert b. induction a as [|x a IH]; intros [|y b]; simpl length; try done.
  intros Hl Ha Hb. injection Hl as Hl.
  apply Forall_cons in Ha as [Hx Ha], Hb as [Hy Hb].
  rewrite !dec_value_cons, <-Hl. simpl lex_leb.
  pose proof (dec_value_range a Ha). pose proof (dec_value_range b Hb) as Hrb.
  rewrite <-Hl in Hrb. unfold is_digit in Hx, Hy. reflect_bools.
  destruct (char_code x <? char_code y) eqn:?; [reflect_bools; split; [nia|done]|].
  destruct (char_code y <? char_code x) eqn:?; [reflect_bools; split; [done|nia]|].
  reflect_bools. replace (char_code y) with (char_code x) by lia. rewrite IH by done. nia.
Qed.

Lemma to_string_lex_le z w :
  0 ≤ z → 0 ≤ w → length (to_string z) = length (to_string w) →
  lex_le (to_string z) (to_string w) ↔ z ≤ w.
Proof.
  intros Hz Hw Hl. rewrite lex_le_dec_value by (try done; by apply to_string_digits).
  by rewrite !to_string_value.
Qed.

(** Numbers of at least one and no more than [k] digits. *)
Lemma to_string_length z k :
  0 ≤ z < 10 ^ Z.of_nat k → (0 < k)%nat → (length (to_string z) ≤ k)%nat.
Proof.
  intros Hz Hk. unfold to_string. zbranch.
  destruct (dec_digits_spec z ltac:(lia)) as (c & ds & -> & Hd & Hv & Hc).
  destruct (decide (char_code c = 48)) as [E|E].
  - destruct (Hc E) as [_ ->]. simpl. lia.
  - apply Forall_cons in Hd as [Hc' Hd]. pose proof (dec_value_range ds Hd).
    rewrite dec_value_cons in Hv. unfold is_digit in Hc'. reflect_bools.
    destruct (decide (length (c :: ds) ≤ k)%nat) as [|Hgt]; [done|exfalso].
    simpl in Hgt. assert (10 ^ Z.of_nat k ≤ 10 ^ zlen ds) by (apply Z.pow_le_mono_r; lia).
    nia.
Qed.

(** Against a longer key only its prefix of the same length counts. *)
Lemma lex_le_app_r a b c : length a = length b → lex_le a (b ++ c) ↔ lex_le a b.
Proof.
  unfold lex_le. revert b. induction a as [|x a IH]; intros [|y b]; simpl; try done.
  intros [= Hl]. repeat (case_match; [done|]). auto.
Qed.

Lemma take_digits_all s : Forall (λ c, is_digit c = true) (take_digits s).
Proof. induction s as [|c s IH]; simpl; [constructor|]. destruct (is_digit c) eqn:E; auto. Qed.

Lemma stoull_range s v : stoull s = Some v → 0 ≤ v < 2 ^ 64.
Proof.
  unfold stoull, strto. destruct (match drop_spaces s with [] => _ | _ => _ end) as [neg s2].
  pose proof (take_digits_all s2) as Hd. destruct (take_digits s2) as [|c ds] eqn:E; [done|].
  pose proof (dec_value_range _ Hd). destruct (_ <=? _) eqn:El; [|done]. reflect_bools.
  intros [= <-]. destruct neg; [apply u64_range|lia].
Qed.
