(* ===== verification/Logger.v ===== *)
(** * Logger: [src/logger.cpp] and [include/metricmq/logger.hpp]

    The set-up of the log and the macros. spdlog is a parameter: the class
    [Spdlog] has the calls the code makes, and [SpdlogLaws] what its
    documentation says of the registry. Whether the directory can be created
    and the file opened are answers of the file system. *)

From S2P Require Import Prelude Text.

(** ** spdlog *)

Inductive level := trace | debug | info | warn | err | critical | off.
#[global] Instance level_eq_dec : EqDecision level.
Proof. solve_decision. Defined.

(** [spdlog::level::to_string_view] *)
Definition level_name (l : level) : bytes :=
  match l with
  | trace => lit "trace" | debug => lit "debug" | info => lit "info" | warn => lit "warning"
  | err => lit "error" | critical => lit "critical" | off => lit "off"
  end.

(** A sink with its level and its pattern. *)
Inductive sink :=
| stdout_color_sink (lvl : level) (pattern : bytes)
| rotating_file_sink (file : bytes) (max_size : Z) (max_files : nat) (lvl : level) (pattern : bytes).

Class Spdlog (logger registry : Type) := {
  new_logger : bytes → list sink → logger;
  set_level : level → logger → logger;
  flush_on : level → logger → logger;
  log : level → bytes → logger → logger;
  register_logger : logger → registry → option registry;      (* [None]: it throws [spdlog_ex] *)
}.

(** "Register a logger; throws if a logger with its name is registered." *)
Class SpdlogLaws (logger registry : Type) `{Spdlog logger registry} := {
  name : logger → bytes;
  registered : registry → bytes → bool;
  name_new n s : name (new_logger n s) = n;
  name_set_level l x : name (set_level l x) = name x;
  name_flush_on l x : name (flush_on l x) = name x;
  register_taken x r : registered r (name x) = true → register_logger x r = None;
  register_free x r : registered r (name x) = false →
    ∃ r', register_logger x r = Some r' ∧ registered r' (name x) = true;
}.

Module Logger.
Section logger.
Context `{Spdlog logger registry}.

(** The class's static member, spdlog's registry and the error output. *)
Record State := mkState {
  logger_ : option logger;
  loggers : registry;
  cerr : list bytes;
}.
#[global] Instance State_fields : Fields State := λ s, mkState (logger_ s) (loggers s) (cerr s).

(** What the file system answers: [create_directories] succeeds, the log file
    can be opened. *)
Record answers := mkAnswers { dirs_ok : bool; file_ok : bool }.

(** [log_path.has_parent_path()] *)
Definition has_parent_path (path : bytes) : bool := bool_decide (char_of 47 ∈ path).

Definition ten_mb : Z := 1024 * 1024 * 10.

Definition console_sink : sink :=
  stdout_color_sink info (lit "[%Y-%m-%d %H:%M:%S.%e] [%^%l%$] %v").
Definition file_sink (log_file : bytes) : sink :=
  rotating_file_sink log_file ten_mb 3 trace (lit "[%Y-%m-%d %H:%M:%S.%e] [%l] [thread %t] %v").

(** The logger that [init] makes. *)
Definition configured (log_file : bytes) (lvl : level) : logger :=
  flush_on warn (set_level lvl (new_logger (lit "metricmq") [console_sink; file_sink log_file])).

Definition rule : bytes := lit "━━━━━━━━━━━━━━━━━━━━━━━━━━━━━━━━━━━━━━━━━━━━━━".
Definition banner (log_file : bytes) (lvl : level) : list bytes :=
  [rule; lit "MetricMQ Logger Initialized"; lit "Log file: " ++ log_file; lit "Log level: " ++ level_name lvl; rule].

(** The handler of [spdlog_ex]; [what] is the exception's text. *)
Definition failed (what : bytes) (s : State) : State :=
  s <| cerr ::= λ l, l ++ [lit "Log initialization failed: " ++ what] |>.

(** [Logger::init]; [what] are the texts of the two exceptions spdlog may throw. *)
Definition init (what_open what_taken : bytes) (ans : answers) (log_file : bytes) (lvl : level)
    : act State unit := λ s,
  if has_parent_path log_file && negb (dirs_ok ans) then (s, Throw "std::filesystem::filesystem_error")
  else if negb (file_ok ans) then (failed what_open s, Ret tt)
  else
    let l := configured log_file lvl in
    let s := s <| logger_ := Some l |> in
    match register_logger l (loggers s) with
    | None => (failed what_taken s, Ret tt)
    | Some r => (mkState (Some (fold_left (λ l text, log info text l) (banner log_file lvl) l)) r (cerr s), Ret tt)
    end.

(** [Logger::get]; the defaults are those of the header. *)
Definition get (what_open what_taken : bytes) (ans : answers) : act State (option logger) := λ s,
  match logger_ s with
  | Some l => (s, Ret (Some l))
  | None => (_ ← init what_open what_taken ans (lit "logs/metricmq.log") info; gets logger_) s
  end.

(** The macros, [Logger::get()->info(...)] and the like; a null pointer is
    followed. *)
Definition LOG (what_open what_taken : bytes) (ans : answers) (lvl : level) (text : bytes) : act State unit :=
  l ← get what_open what_taken ans;
  match l with
  | Some l => modify (λ s, s <| logger_ := Some (log lvl text l) |>)
  | None => λ s, (s, Throw "null pointer")
  end.

(** ** What the set-up guarantees *)

Context `{!SpdlogLaws logger registry}.
Context (what_open what_taken : bytes).
Abbreviation start := (init what_open what_taken).
Abbreviation line := (LOG what_open what_taken).

Definition all_well : answers := mkAnswers true true.

Lemma configured_name log_file lvl : name (configured log_file lvl) = lit "metricmq".
Proof. unfold configured. by rewrite name_flush_on, name_set_level, name_new. Qed.

(** The first call sets the logger up, and nothing is reported. *)
Lemma init_first s log_file lvl :
  registered (loggers s) (lit "metricmq") = false →
  ∃ r, start all_well log_file lvl s =
      (mkState (Some (fold_left (λ l text, log info text l) (banner log_file lvl) (configured log_file lvl))) r (cerr s), Ret tt) ∧
    registered r (lit "metricmq") = true.
Proof.
  intros Hr. unfold init. rewrite andb_false_r. cbn [negb file_ok all_well].
  destruct (register_free (configured log_file lvl) (loggers s)) as (r & E & Hr'); rewrite configured_name in *; [done|].
  exists r. split; [|done]. change (loggers (s <| logger_ := _ |>)) with (loggers s). by rewrite E.
Qed.

(** [Logger::init] is not idempotent: a second call replaces the logger by
    one with its own level and file before spdlog refuses the name, reports a
    failure on the error output, and leaves the new logger in use and out of
    the registry. The header says that subsequent calls are ignored. *)
Theorem second_init_replaces s file1 lvl1 file2 lvl2 :
  registered (loggers s) (lit "metricmq") = false →
  let s1 := fst (start all_well file1 lvl1 s) in
  let s2 := fst (start all_well file2 lvl2 s1) in
  cerr s1 = cerr s ∧
  logger_ s2 = Some (configured file2 lvl2) ∧ loggers s2 = loggers s1 ∧
  cerr s2 = cerr s ++ [lit "Log initialization failed: " ++ what_taken].
Proof.
  intros Hr s1 s2. destruct (init_first s file1 lvl1 Hr) as (r & E & Hr'). unfold s2, s1. rewrite E. cbn [fst].
  unfold init. rewrite andb_false_r. cbn [negb file_ok all_well].
  rewrite register_taken by by rewrite configured_name. done.
Qed.

(** When the log file cannot be opened, the first line logged follows a null
    pointer: [Logger::get] sets the logger up with the defaults, the set-up
    fails with a message, and the pointer it returns is null. When the
    directory cannot be created, the exception reaches the caller. *)
Theorem unopened_log_crashes s lvl text :
  logger_ s = None →
  line (mkAnswers true false) lvl text s = (failed what_open s, Throw "null pointer") ∧
  line (mkAnswers false true) lvl text s = (s, Throw "std::filesystem::filesystem_error").
Proof.
  assert (Hp : has_parent_path (lit "logs/metricmq.log") = true) by by vm_compute.
  intros Hn. unfold LOG, get, mbind, act_bind. rewrite Hn. unfold init. rewrite Hp. cbn. by rewrite Hn.
Qed.

(** Once a logger is there, every line goes to it. *)
Lemma log_goes_on s l ans lvl text :
  logger_ s = Some l → line ans lvl text s = (s <| logger_ := Some (log lvl text l) |>, Ret tt).
Proof. intros Hl. unfold LOG, get, mbind, act_bind. by rewrite Hl. Qed.
End logger.

(** ** Witnesses *)

(** A logger that keeps its lines, and a registry of names. *)
Record ToyLogger := mkToy { toy_name : bytes; toy_sinks : list sink; toy_level : level; toy_flush : level; toy_lines : list bytes }.

#[local] Instance ToySpdlog : Spdlog ToyLogger (list bytes) := {|
  new_logger n s := mkToy n s info off [];
  set_level l x := mkToy (toy_name x) (toy_sinks x) l (toy_flush x) (toy_lines x);
  flush_on l x := mkToy (toy_name x) (toy_sinks x) (toy_level x) l (toy_lines x);
  log l text x := mkToy (toy_name x) (toy_sinks x) (toy_level x) (toy_flush x) (toy_lines x ++ [text]);
  register_logger x r := if bool_decide (toy_name x ∈ r) then None else Some (toy_name x :: r);
|}.

#[local] Instance ToySpdlogLaws : SpdlogLaws ToyLogger (list bytes).
Proof.
  refine {| name := toy_name; registered r n := bool_decide (n ∈ r) |}; try done.
  - intros x r Hx. cbn. by rewrite Hx.
  - intros x r Hx. cbn. rewrite Hx. eexists. split; [done|]. apply bool_decide_true. by left.
Defined.

Definition nothing_yet : State (logger := ToyLogger) (registry := list bytes) := mkState None [] [].

Lemma second_init_replaces_witness :
  toy_level <$> logger_ (fst (init (lit "open") (lit "taken") all_well (lit "b.log") trace
    (fst (init (lit "open") (lit "taken") all_well (lit "a.log") debug nothing_yet)))) = Some trace.
Proof.
  destruct (second_init_replaces (lit "open") (lit "taken") nothing_yet (lit "a.log") debug (lit "b.log") trace)
    as (_ & -> & _); [vm_compute; reflexivity|]. reflexivity.
Defined.

Lemma unopened_log_crashes_witness :
  snd (LOG (lit "open") (lit "taken") (mkAnswers true false) info (lit "Starting broker run loop") nothing_yet) =
    Throw "null pointer".
Proof.
  destruct (unopened_log_crashes (lit "open") (lit "taken") nothing_yet info (lit "Starting broker run loop"))
    as [-> _]; [reflexivity|]. reflexivity.
Defined.
End Logger.
