(* ===== verification/BinaryProtocol.v ===== *)
(** * BinaryProtocol: the native framing of [src/binary_protocol.hpp]/[.cpp]

    Frames, their factories, the big-endian field codecs, [serialize] and
    [parse]. The codecs are shown equal to a generic big-endian codec, and the
    theorems are the round trip in both directions, the safety of the reads
    (no throw, no out-of-range access), the size limits and the stability of
    [parse] when more bytes arrive. *)

From S2P Require Import Prelude.

(** ** Commands and frames *)

Definition BINARY_PROTOCOL_VERSION : Z := 1.

(** [enum class BinaryCommand : uint8_t]. An object of that type can hold any
    byte: [CMD_UNNAMED b] stands for a byte that names no enumerator. *)
Inductive BinaryCommand :=
| CMD_SUBSCRIBE | CMD_UNSUBSCRIBE | CMD_PUBLISH | CMD_MESSAGE | CMD_ACK
| CMD_PING | CMD_PONG | CMD_ERROR | CMD_SIGNED_PUBLISH | CMD_SIGNED_MESSAGE
| CMD_UNNAMED (b : Z).

#[export] Instance BinaryCommand_eq_dec : EqDecision BinaryCommand.
Proof. solve_decision. Defined.

Definition command_byte (c : BinaryCommand) : Z :=
  match c with
  | CMD_SUBSCRIBE => 0x01 | CMD_UNSUBSCRIBE => 0x02 | CMD_PUBLISH => 0x03
  | CMD_MESSAGE => 0x04 | CMD_ACK => 0x05 | CMD_PING => 0x06 | CMD_PONG => 0x07
  | CMD_ERROR => 0x08 | CMD_SIGNED_PUBLISH => 0x10 | CMD_SIGNED_MESSAGE => 0x11
  | CMD_UNNAMED b => b
  end.

Definition named_commands : list BinaryCommand :=
  [CMD_SUBSCRIBE; CMD_UNSUBSCRIBE; CMD_PUBLISH; CMD_MESSAGE; CMD_ACK; CMD_PING;
   CMD_PONG; CMD_ERROR; CMD_SIGNED_PUBLISH; CMD_SIGNED_MESSAGE].

(** [static_cast<BinaryCommand>(b)] *)
Definition command_of_byte (b : Z) : BinaryCommand :=
  default (CMD_UNNAMED b) (List.find (λ c, command_byte c =? b) named_commands).

Definition SIGNATURE_SIZE : nat := 64.
Definition KEY_ID_SIZE : nat := 4.

Record BinaryFrame := mkFrame {
  version : Z;
  command : BinaryCommand;
  sequence : Z;
  topic : bytes;
  payload : bytes;
  signature : bytes;   (* std::array<uint8_t, 64> *)
  key_id : Z;
  is_signed : bool
}.

#[export] Instance BinaryFrame_eq_dec : EqDecision BinaryFrame.
Proof. solve_decision. Defined.

Definition zero_signature : bytes := replicate SIGNATURE_SIZE (char_of 0).

(** [BinaryFrame()] *)
Definition default_frame : BinaryFrame :=
  mkFrame BINARY_PROTOCOL_VERSION CMD_PING 0 [] [] zero_signature 0 false.

Definition frame_subscribe (t : bytes) (seq : Z) : BinaryFrame :=
  mkFrame BINARY_PROTOCOL_VERSION CMD_SUBSCRIBE seq t [] zero_signature 0 false.
Definition frame_unsubscribe (t : bytes) (seq : Z) : BinaryFrame :=
  mkFrame BINARY_PROTOCOL_VERSION CMD_UNSUBSCRIBE seq t [] zero_signature 0 false.
Definition frame_publish (t p : bytes) (seq : Z) : BinaryFrame :=
  mkFrame BINARY_PROTOCOL_VERSION CMD_PUBLISH seq t p zero_signature 0 false.
Definition frame_message (t p : bytes) (seq : Z) : BinaryFrame :=
  mkFrame BINARY_PROTOCOL_VERSION CMD_MESSAGE seq t p zero_signature 0 false.
Definition frame_ack (seq : Z) : BinaryFrame :=
  mkFrame BINARY_PROTOCOL_VERSION CMD_ACK seq [] [] zero_signature 0 false.
Definition frame_ping : BinaryFrame := default_frame.
Definition frame_pong : BinaryFrame :=
  mkFrame BINARY_PROTOCOL_VERSION CMD_PONG 0 [] [] zero_signature 0 false.
Definition frame_error (msg : bytes) : BinaryFrame :=
  mkFrame BINARY_PROTOCOL_VERSION CMD_ERROR 0 [] msg zero_signature 0 false.
Definition frame_signed_publish (t p sig : bytes) (kid seq : Z) : BinaryFrame :=
  mkFrame BINARY_PROTOCOL_VERSION CMD_SIGNED_PUBLISH seq t p sig kid true.
Definition frame_signed_message (t p sig : bytes) (kid seq : Z) : BinaryFrame :=
  mkFrame BINARY_PROTOCOL_VERSION CMD_SIGNED_MESSAGE seq t p sig kid true.

(** ** Field codecs *)

Definition writeUint16 (buffer : bytes) (value : Z) : bytes :=
  buffer ++ [char_of (Z.land (Z.shiftr value 8) 0xFF);
             char_of (Z.land value 0xFF)].

Definition writeUint32 (buffer : bytes) (value : Z) : bytes :=
  buffer ++ [char_of (Z.land (Z.shiftr value 24) 0xFF);
             char_of (Z.land (Z.shiftr value 16) 0xFF);
             char_of (Z.land (Z.shiftr value 8) 0xFF);
             char_of (Z.land value 0xFF)].

Definition writeUint64 (buffer : bytes) (value : Z) : bytes :=
  buffer ++ [char_of (Z.land (Z.shiftr value 56) 0xFF);
             char_of (Z.land (Z.shiftr value 48) 0xFF);
             char_of (Z.land (Z.shiftr value 40) 0xFF);
             char_of (Z.land (Z.shiftr value 32) 0xFF);
             char_of (Z.land (Z.shiftr value 24) 0xFF);
             char_of (Z.land (Z.shiftr value 16) 0xFF);
             char_of (Z.land (Z.shiftr value 8) 0xFF);
             char_of (Z.land value 0xFF)].

(** [static_cast<uint8_t>(buffer\[i\])] *)
Definition byte_at (buffer : bytes) (i : nat) : outcome Z :=
  let! c := char_at buffer i in Ret (char_code c).

Definition readUint16 (buffer : bytes) (offset : nat) : outcome Z :=
  if zlen buffer <? Z.of_nat offset + 2 then Throw "Buffer underflow reading uint16"
  else
    let! b0 := byte_at buffer offset in
    let! b1 := byte_at buffer (offset + 1) in
    Ret (Z.lor (Z.shiftl b0 8) b1).

Definition readUint32 (buffer : bytes) (offset : nat) : outcome Z :=
  if zlen buffer <? Z.of_nat offset + 4 then Throw "Buffer underflow reading uint32"
  else
    let! b0 := byte_at buffer offset in
    let! b1 := byte_at buffer (offset + 1) in
    let! b2 := byte_at buffer (offset + 2) in
    let! b3 := byte_at buffer (offset + 3) in
    Ret (Z.lor (Z.lor (Z.lor (Z.shiftl b0 24) (Z.shiftl b1 16)) (Z.shiftl b2 8)) b3).

Definition readUint64 (buffer : bytes) (offset : nat) : outcome Z :=
  if zlen buffer <? Z.of_nat offset + 8 then Throw "Buffer underflow reading uint64"
  else
    let! b0 := byte_at buffer offset in
    let! b1 := byte_at buffer (offset + 1) in
    let! b2 := byte_at buffer (offset + 2) in
    let! b3 := byte_at buffer (offset + 3) in
    let! b4 := byte_at buffer (offset + 4) in
    let! b5 := byte_at buffer (offset + 5) in
    let! b6 := byte_at buffer (offset + 6) in
    let! b7 := byte_at buffer (offset + 7) in
    Ret (Z.lor (Z.lor (Z.lor (Z.lor (Z.lor (Z.lor (Z.lor
          (Z.shiftl b0 56) (Z.shiftl b1 48)) (Z.shiftl b2 40)) (Z.shiftl b3 32))
          (Z.shiftl b4 24)) (Z.shiftl b5 16)) (Z.shiftl b6 8)) b7).

(** ** Serialization and parsing *)

Definition MIN_FRAME_SIZE : Z := 16.
Definition MAX_TOPIC_LEN : Z := 256.
Definition MAX_PAYLOAD_LEN : Z := 16 * 1024 * 1024.

Definition calculateFrameSize (t p : bytes) : Z := MIN_FRAME_SIZE + zlen t + zlen p.

Definition serialize (frame : BinaryFrame) : bytes :=
  let buffer := [] ++ [char_of (version frame)] in
  let buffer := buffer ++ [char_of (command_byte (command frame))] in
  let buffer := writeUint64 buffer (sequence frame) in
  let buffer := writeUint16 buffer (u16 (zlen (topic frame))) in
  let buffer := writeUint32 buffer (u32 (zlen (payload frame))) in
  let buffer := buffer ++ topic frame in
  let buffer := buffer ++ payload frame in
  if is_signed frame then
    let buffer := buffer ++ signature frame in
    writeUint32 buffer (key_id frame)
  else buffer.

(** [std::memcpy(dst, buffer.data() + offset, n)]: reading past the end of the
    buffer is undefined behaviour. *)
Definition memcpy_from (buffer : bytes) (offset n : nat) : outcome bytes :=
  if Nat.leb (offset + n) (length buffer) then Ret (take n (drop offset buffer))
  else Throw "memcpy past the end".

Definition is_signed_command (c : BinaryCommand) : bool :=
  bool_decide (c = CMD_SIGNED_PUBLISH) || bool_decide (c = CMD_SIGNED_MESSAGE).

Definition parse (buffer : bytes) : outcome (option (BinaryFrame * nat)) :=
  if zlen buffer <? MIN_FRAME_SIZE then Ret None else
  let! v := byte_at buffer 0 in
  if negb (v =? BINARY_PROTOCOL_VERSION) then Ret None else
  let! cb := byte_at buffer 1 in
  let cmd := command_of_byte cb in
  let! seq := readUint64 buffer 2 in
  let! topic_len := readUint16 buffer 10 in
  let! payload_len := readUint32 buffer 12 in
  if MAX_TOPIC_LEN <? topic_len then Ret None else
  if MAX_PAYLOAD_LEN <? payload_len then Ret None else
  let is_signed_cmd := is_signed_command cmd in
  let sig_size := if is_signed_cmd then Z.of_nat SIGNATURE_SIZE + Z.of_nat KEY_ID_SIZE else 0 in
  let total_size := MIN_FRAME_SIZE + topic_len + payload_len + sig_size in
  if zlen buffer <? total_size then Ret None else
  let offset := 16%nat in
  let! t := if 0 <? topic_len then substr buffer offset (Z.to_nat topic_len) else Ret [] in
  let offset := (offset + Z.to_nat topic_len)%nat in
  let! p := if 0 <? payload_len then substr buffer offset (Z.to_nat payload_len) else Ret [] in
  let offset := (offset + Z.to_nat payload_len)%nat in
  if is_signed_cmd then
    let! sig := memcpy_from buffer offset SIGNATURE_SIZE in
    let offset := (offset + SIGNATURE_SIZE)%nat in
    let! kid := readUint32 buffer offset in
    Ret (Some (mkFrame v cmd seq t p sig kid true, Z.to_nat total_size))
  else
    Ret (Some (mkFrame v cmd seq t p zero_signature 0 false, Z.to_nat total_size)).

(** ** Specification

    A generic big-endian codec, and the frame a buffer starts with, read field
    by field. *)

Fixpoint be_encode (n : nat) (v : Z) : bytes :=
  match n with
  | O => []
  | S m => char_of (v / 256 ^ Z.of_nat m) :: be_encode m v
  end.

Definition be_decode (l : bytes) : Z := fold_left (λ acc c, acc * 256 + char_code c) l 0.

Definition field (buffer : bytes) (offset n : nat) : Z := be_decode (take n (drop offset buffer)).

Definition field_command (buffer : bytes) : BinaryCommand := command_of_byte (field buffer 1 1).

Definition trailer_size (c : BinaryCommand) : Z :=
  if is_signed_command c then Z.of_nat SIGNATURE_SIZE + Z.of_nat KEY_ID_SIZE else 0.

Definition frame_size (buffer : bytes) : Z :=
  MIN_FRAME_SIZE + field buffer 10 2 + field buffer 12 4 + trailer_size (field_command buffer).

Definition frame_complete (buffer : bytes) : bool :=
  (MIN_FRAME_SIZE <=? zlen buffer) && (field buffer 0 1 =? BINARY_PROTOCOL_VERSION) &&
  (field buffer 10 2 <=? MAX_TOPIC_LEN) && (field buffer 12 4 <=? MAX_PAYLOAD_LEN) &&
  (frame_size buffer <=? zlen buffer).

Definition frame_ref (buffer : bytes) : BinaryFrame :=
  let tl := Z.to_nat (field buffer 10 2) in
  let pl := Z.to_nat (field buffer 12 4) in
  let sgn := is_signed_command (field_command buffer) in
  mkFrame (field buffer 0 1) (field_command buffer) (field buffer 2 8)
    (take tl (drop 16 buffer)) (take pl (drop (16 + tl) buffer))
    (if sgn then take SIGNATURE_SIZE (drop (16 + tl + pl) buffer) else zero_signature)
    (if sgn then field buffer (16 + tl + pl + SIGNATURE_SIZE) KEY_ID_SIZE else 0) sgn.

Definition parse_ref (buffer : bytes) : option (BinaryFrame * nat) :=
  if frame_complete buffer then Some (frame_ref buffer, Z.to_nat (frame_size buffer)) else None.

(** A frame within the limits of the protocol: what [serialize] can carry. *)
Definition frame_wf (f : BinaryFrame) : bool :=
  (version f =? BINARY_PROTOCOL_VERSION) &&
  bool_decide (command_of_byte (command_byte (command f)) = command f) &&
  (0 <=? command_byte (command f)) && (command_byte (command f) <? 256) &&
  (0 <=? sequence f) && (sequence f <? 2 ^ 64) &&
  (zlen (topic f) <=? MAX_TOPIC_LEN) && (zlen (payload f) <=? MAX_PAYLOAD_LEN) &&
  bool_decide (is_signed f = is_signed_command (command f)) &&
  (if is_signed f
   then bool_decide (length (signature f) = SIGNATURE_SIZE) && (0 <=? key_id f) && (key_id f <? 2 ^ 32)
   else bool_decide (signature f = zero_signature) && (key_id f =? 0)).

(** ** The generic codec *)

Lemma length_be_encode n v : length (be_encode n v) = n.
Proof. induction n; simpl; auto. Qed.

Lemma be_decode_acc l a :
  fold_left (λ acc c, acc * 256 + char_code c) l a = a * 256 ^ zlen l + be_decode l.
Proof.
  unfold be_decode. revert a. induction l as [|c l IH] using rev_ind; intros a; [cbn; lia|].
  rewrite !fold_left_app, length_app, IH. cbn [fold_left length].
  rewrite Nat2Z.inj_add, Z.pow_add_r by lia. lia.
Qed.

Lemma be_decode_cons c l : be_decode (c :: l) = char_code c * 256 ^ zlen l + be_decode l.
Proof. unfold be_decode at 1. cbn [fold_left]. rewrite be_decode_acc. lia. Qed.

Lemma be_decode_range l : 0 ≤ be_decode l < 256 ^ zlen l.
Proof.
  induction l as [|c l IH]; [cbn; lia|]. rewrite be_decode_cons.
  pose proof (char_code_range c).
  rewrite length_cons, Nat2Z.inj_succ, Z.pow_succ_r by lia. nia.
Qed.

Lemma be_decode_encode n v : be_decode (be_encode n v) = v mod 256 ^ Z.of_nat n.
Proof.
  induction n as [|n IH]; [cbn; by rewrite Z.mod_1_r|]. cbn [be_encode].
  rewrite be_decode_cons, length_be_encode, char_code_of, IH.
  rewrite Nat2Z.inj_succ, Z.pow_succ_r by lia.
  rewrite (Z.mul_comm 256), Z.rem_mul_r by lia. lia.
Qed.

Lemma be_encode_high n v q : be_encode n (q * 256 ^ Z.of_nat n + v) = be_encode n v.
Proof.
  revert q. induction n as [|n IH]; intros q; [done|]. cbn [be_encode].
  assert (0 < 256 ^ Z.of_nat n) by (apply Z.pow_pos_nonneg; lia).
  replace (q * 256 ^ Z.of_nat (S n) + v) with (q * 256 * 256 ^ Z.of_nat n + v)
    by (rewrite Nat2Z.inj_succ, Z.pow_succ_r by lia; lia).
  f_equal; [|apply IH]. apply char_of_eq.
  rewrite Z.div_add_l by lia. rewrite Z.add_comm. apply Z.mod_add. lia.
Qed.

Lemma be_encode_decode l : be_encode (length l) (be_decode l) = l.
Proof.
  induction l as [|c l IH]; [done|]. rewrite be_decode_cons. cbn [length be_encode].
  rewrite be_encode_high, IH. f_equal.
  rewrite Z.div_add_l by (apply Z.pow_nonzero; lia).
  rewrite Z.div_small by apply be_decode_range. rewrite Z.add_0_r. apply char_of_code.
Qed.

(** ** The unrolled codecs are the generic one *)

Lemma char_of_shift v k : 0 ≤ k → char_of (Z.land (Z.shiftr v k) 0xFF) = char_of (v / 2 ^ k).
Proof. intros. rewrite land_ff, char_of_mod, Z.shiftr_div_pow2 by done. done. Qed.

Lemma writeUint16_be b v : writeUint16 b v = b ++ be_encode 2 v.
Proof. unfold writeUint16. rewrite !char_of_shift, land_ff, char_of_mod by lia. simpl. by rewrite Z.div_1_r. Qed.
Lemma writeUint32_be b v : writeUint32 b v = b ++ be_encode 4 v.
Proof. unfold writeUint32. rewrite !char_of_shift, land_ff, char_of_mod by lia. simpl. by rewrite Z.div_1_r. Qed.
Lemma writeUint64_be b v : writeUint64 b v = b ++ be_encode 8 v.
Proof. unfold writeUint64. rewrite !char_of_shift, land_ff, char_of_mod by lia. simpl. by rewrite Z.div_1_r. Qed.

Lemma byte_at_ret buffer i :
  (i < length buffer)%nat → byte_at buffer i = Ret (field buffer i 1).
Proof.
  intros Hi. unfold byte_at, char_at, field.
  destruct (lookup_lt_is_Some_2 buffer i Hi) as [c Hc]. rewrite Hc.
  rewrite (drop_S buffer c i) by done. reflexivity.
Qed.

Lemma field_range buffer i n : 0 ≤ field buffer i n < 256 ^ Z.of_nat n.
Proof.
  unfold field. pose proof (be_decode_range (take n (drop i buffer))) as [H1 H2].
  split; [done|]. eapply Z.lt_le_trans; [done|]. apply Z.pow_le_mono_r; [lia|].
  rewrite length_take. lia.
Qed.

Lemma field_S buffer i n :
  (i + S n ≤ length buffer)%nat →
  field buffer i (S n) = field buffer i 1 * 256 ^ Z.of_nat n + field buffer (i + 1) n.
Proof.
  intros Hi. unfold field.
  destruct (lookup_lt_is_Some_2 buffer i ltac:(lia)) as [c Hc].
  rewrite (drop_S buffer c i) by done. simpl take. rewrite be_decode_cons.
  rewrite Nat.add_1_r, length_take, length_drop, Nat.min_l by lia. unfold be_decode at 2.
  cbn [take fold_left]. rewrite take_0. simpl. lia.
Qed.

(** Each read is the field it names; outside the buffer it throws. *)
Ltac read_bytes :=
  repeat (rewrite byte_at_ret by lia; cbn [obind]);
  repeat match goal with
  | |- context [field ?b ?i 1] =>
      lazymatch goal with
      | _ : 0 ≤ field b i 1 < 256 ^ Z.of_nat 1 |- _ => fail
      | _ => pose proof (field_range b i 1)
      end
  end;
  change (256 ^ Z.of_nat 1) with 256 in *.

Lemma readUint16_ret buffer i :
  (i + 2 ≤ length buffer)%nat → readUint16 buffer i = Ret (field buffer i 2).
Proof.
  intros Hi. unfold readUint16. zbranch. read_bytes. f_equal.
  rewrite (field_S buffer i 1) by lia. rewrite lor_shiftl by lia. done.
Qed.

Lemma readUint32_ret buffer i :
  (i + 4 ≤ length buffer)%nat → readUint32 buffer i = Ret (field buffer i 4).
Proof.
  intros Hi. unfold readUint32. zbranch. read_bytes. f_equal.
  rewrite (field_S buffer i 3), (field_S buffer (i + 1) 2), (field_S buffer (i + 1 + 1) 1) by lia.
  replace (i + 1 + 1)%nat with (i + 2)%nat by lia. replace (i + 2 + 1)%nat with (i + 3)%nat by lia.
  rewrite <-!Z.lor_assoc.
  rewrite (lor_shiftl _ _ 8), (lor_shiftl _ _ 16), (lor_shiftl _ _ 24) by lia. lia.
Qed.

Lemma readUint64_ret buffer i :
  (i + 8 ≤ length buffer)%nat → readUint64 buffer i = Ret (field buffer i 8).
Proof.
  intros Hi. unfold readUint64. zbranch. read_bytes. f_equal.
  rewrite (field_S buffer i 7), (field_S buffer (i + 1) 6), (field_S buffer (i + 1 + 1) 5),
    (field_S buffer (i + 1 + 1 + 1) 4), (field_S buffer (i + 1 + 1 + 1 + 1) 3),
    (field_S buffer (i + 1 + 1 + 1 + 1 + 1) 2), (field_S buffer (i + 1 + 1 + 1 + 1 + 1 + 1) 1) by lia.
  rewrite <-!Nat.add_assoc. cbn [Nat.add].
  rewrite <-!Z.lor_assoc.
  rewrite (lor_shiftl _ _ 8), (lor_shiftl _ _ 16), (lor_shiftl _ _ 24), (lor_shiftl _ _ 32),
    (lor_shiftl _ _ 40), (lor_shiftl _ _ 48), (lor_shiftl _ _ 56) by lia. lia.
Qed.

Lemma substr_or_empty (buffer : bytes) (pos : nat) (n : Z) :
  0 ≤ n → (pos ≤ length buffer)%nat →
  (if 0 <? n then substr buffer pos (Z.to_nat n) else Ret []) =
  Ret (take (Z.to_nat n) (drop pos buffer)).
Proof.
  intros Hn Hp. unfold substr. destruct (0 <? n) eqn:E; reflect_bools.
  - by zbranch.
  - by replace n with 0 by lia.
Qed.

(** The unrolled reads of the source, on any buffer and offset: the big-endian
    value of the slice when it is inside the buffer, and the documented
    exception otherwise. *)
Lemma readUint_spec buffer i :
  readUint16 buffer i = (if decide (i + 2 ≤ length buffer)%nat then Ret (field buffer i 2)
                         else Throw "Buffer underflow reading uint16") ∧
  readUint32 buffer i = (if decide (i + 4 ≤ length buffer)%nat then Ret (field buffer i 4)
                         else Throw "Buffer underflow reading uint32") ∧
  readUint64 buffer i = (if decide (i + 8 ≤ length buffer)%nat then Ret (field buffer i 8)
                         else Throw "Buffer underflow reading uint64").
Proof.
  repeat split; case_decide;
    auto using readUint16_ret, readUint32_ret, readUint64_ret;
    unfold readUint16, readUint32, readUint64; by zbranch.
Qed.

Lemma parse_is_ref buffer : parse buffer = Ret (parse_ref buffer).
Proof.
  unfold parse, parse_ref, frame_complete, frame_size, trailer_size, MIN_FRAME_SIZE.
  destruct (zlen buffer <? 16) eqn:E16; reflect_bools; [by zbranch|].
  rewrite (proj2 (Z.leb_le 16 (zlen buffer))) by lia.
  rewrite !byte_at_ret, readUint64_ret, readUint16_ret, readUint32_ret by lia. cbn [obind].
  fold (field_command buffer).
  destruct (field buffer 0 1 =? BINARY_PROTOCOL_VERSION) eqn:EV; [|done]. cbn [negb andb].
  pose proof (field_range buffer 10 2). pose proof (field_range buffer 12 4).
  destruct (MAX_TOPIC_LEN <? field buffer 10 2) eqn:ET; reflect_bools; [by zbranch|].
  rewrite (proj2 (Z.leb_le (field buffer 10 2) _)) by done.
  destruct (MAX_PAYLOAD_LEN <? field buffer 12 4) eqn:EP; reflect_bools; [by zbranch|].
  rewrite (proj2 (Z.leb_le (field buffer 12 4) _)) by done. cbn [andb].
  set (total := 16 + field buffer 10 2 + field buffer 12 4 + _).
  assert (Htot : total = frame_size buffer) by done.
  destruct (zlen buffer <? total) eqn:EB; reflect_bools; [by zbranch|]. zbranch.
  assert (16 + field buffer 10 2 + field buffer 12 4 +
    (if is_signed_command (field_command buffer) then 68 else 0) ≤ zlen buffer) as Hlen
    by (unfold total, SIGNATURE_SIZE, KEY_ID_SIZE in EB; destruct (is_signed_command _); lia).
  clearbody total. subst total. unfold frame_ref.
  rewrite !substr_or_empty by (destruct (is_signed_command _); lia). cbn [obind].
  destruct (is_signed_command (field_command buffer)); [|done].
  unfold memcpy_from, SIGNATURE_SIZE in *. zbranch. cbn [obind].
  rewrite readUint32_ret by lia. done.
Qed.

(** The layout of a serialized frame. *)
Definition header (f : BinaryFrame) : bytes :=
  [char_of (version f); char_of (command_byte (command f))] ++ be_encode 8 (sequence f) ++
  be_encode 2 (u16 (zlen (topic f))) ++ be_encode 4 (u32 (zlen (payload f))).

Definition trailer (f : BinaryFrame) : bytes :=
  if is_signed f then signature f ++ be_encode 4 (key_id f) else [].

Lemma serialize_layout f : serialize f = header f ++ topic f ++ payload f ++ trailer f.
Proof.
  unfold serialize, header, trailer.
  rewrite !writeUint64_be, !writeUint16_be, !writeUint32_be.
  destruct (is_signed f); rewrite ?app_nil_r, <-!app_assoc; done.
Qed.

Lemma length_header f : length (header f) = 16%nat.
Proof. unfold header. rewrite !length_app, !length_be_encode. done. Qed.

(** A slice of a concatenation. *)
Lemma field_at (l : bytes) (a x b : bytes) i n :
  l = a ++ x ++ b → i = length a → n = length x → field l i n = be_decode x.
Proof. intros -> -> ->. unfold field. by rewrite drop_app_length, take_app_length. Qed.

Lemma be_decode_char z : be_decode [char_of z] = z mod 256.
Proof. rewrite be_decode_cons, char_code_of. cbn. lia. Qed.

Lemma header_fields f rest :
  field (header f ++ rest) 0 1 = version f mod 256 ∧
  field (header f ++ rest) 1 1 = command_byte (command f) mod 256 ∧
  field (header f ++ rest) 2 8 = u64 (sequence f) ∧
  field (header f ++ rest) 10 2 = u16 (zlen (topic f)) ∧
  field (header f ++ rest) 12 4 = u32 (zlen (payload f)).
Proof.
  set (v := char_of (version f)). set (c := char_of (command_byte (command f))).
  set (s8 := be_encode 8 (sequence f)). set (t2 := be_encode 2 (u16 (zlen (topic f)))).
  set (p4 := be_encode 4 (u32 (zlen (payload f)))).
  assert (Hh : header f ++ rest = [v; c] ++ s8 ++ t2 ++ p4 ++ rest)
    by (unfold header; by rewrite <-!app_assoc).
  assert (length s8 = 8 ∧ length t2 = 2 ∧ length p4 = 4)%nat as (? & ? & ?)
    by (unfold s8, t2, p4; by rewrite !length_be_encode).
  rewrite Hh. repeat split.
  - rewrite (field_at _ [] [v] ([c] ++ s8 ++ t2 ++ p4 ++ rest)) by done. apply be_decode_char.
  - rewrite (field_at _ [v] [c] (s8 ++ t2 ++ p4 ++ rest)) by done. apply be_decode_char.
  - rewrite (field_at _ [v; c] s8 (t2 ++ p4 ++ rest)) by done. apply be_decode_encode.
  - rewrite (field_at _ ([v; c] ++ s8) t2 (p4 ++ rest)) by (rewrite <-?app_assoc, ?length_app; auto with lia).
    unfold t2. rewrite be_decode_encode. apply Z.mod_small. apply u16_range.
  - rewrite (field_at _ ([v; c] ++ s8 ++ t2) p4 rest) by (rewrite <-?app_assoc, ?length_app; auto with lia).
    unfold p4. rewrite be_decode_encode. apply Z.mod_small. apply u32_range.
Qed.

Record FrameWf (f : BinaryFrame) : Prop := {
  wf_version : version f = BINARY_PROTOCOL_VERSION;
  wf_command : command_of_byte (command_byte (command f)) = command f;
  wf_command_byte : 0 ≤ command_byte (command f) < 256;
  wf_sequence : 0 ≤ sequence f < 2 ^ 64;
  wf_topic : zlen (topic f) ≤ MAX_TOPIC_LEN;
  wf_payload : zlen (payload f) ≤ MAX_PAYLOAD_LEN;
  wf_signed : is_signed f = is_signed_command (command f);
  wf_signature : is_signed f = true → length (signature f) = SIGNATURE_SIZE ∧ 0 ≤ key_id f < 2 ^ 32;
  wf_unsigned : is_signed f = false → signature f = zero_signature ∧ key_id f = 0
}.

Lemma frame_wf_spec f : frame_wf f = true ↔ FrameWf f.
Proof.
  unfold frame_wf. split.
  - intros H. reflect_bools. destruct (is_signed f) eqn:E; reflect_bools; split; auto; congruence || lia.
  - intros []. rewrite !andb_true_iff, !bool_decide_eq_true, !Z.eqb_eq, !Z.leb_le, !Z.ltb_lt.
    repeat split; try lia; auto.
    destruct (is_signed f); rewrite !andb_true_iff, !bool_decide_eq_true.
    + rewrite Z.leb_le, Z.ltb_lt. destruct wf_signature0; auto. lia.
    + rewrite Z.eqb_eq. auto.
Qed.

Lemma length_trailer f :
  FrameWf f → zlen (trailer f) = trailer_size (command f).
Proof.
  intros Hf. unfold trailer, trailer_size. rewrite <-(wf_signed f Hf).
  destruct (is_signed f) eqn:E; [|done].
  destruct (wf_signature f Hf E) as [Hs _]. rewrite length_app, length_be_encode, Hs. done.
Qed.

Lemma length_serialize f :
  FrameWf f → zlen (serialize f) = calculateFrameSize (topic f) (payload f) + trailer_size (command f).
Proof.
  intros Hf. rewrite serialize_layout, !length_app, length_header.
  pose proof (length_trailer f Hf). unfold calculateFrameSize, MIN_FRAME_SIZE. lia.
Qed.

(** The variable-length parts of a serialized frame, by offset. *)
Lemma serialize_slices f rest :
  drop 16 (serialize f ++ rest) = topic f ++ payload f ++ trailer f ++ rest ∧
  drop (16 + length (topic f)) (serialize f ++ rest) = payload f ++ trailer f ++ rest ∧
  drop (16 + length (topic f) + length (payload f)) (serialize f ++ rest) = trailer f ++ rest.
Proof.
  rewrite serialize_layout, <-!app_assoc. pose proof (length_header f) as Hh.
  split; [|split].
  - by rewrite (drop_app_at (header f)) by lia.
  - by rewrite <-drop_drop, (drop_app_at (header f)), drop_app_length by lia.
  - by rewrite <-!drop_drop, (drop_app_at (header f)), !drop_app_length by lia.
Qed.

Lemma trailer_fields f rest :
  FrameWf f →
  (if is_signed f then take SIGNATURE_SIZE (trailer f ++ rest) else zero_signature) = signature f ∧
  (if is_signed f then field (trailer f ++ rest) SIGNATURE_SIZE KEY_ID_SIZE else 0) = key_id f.
Proof.
  intros Hf. unfold trailer. destruct (is_signed f) eqn:E.
  - destruct (wf_signature f Hf E) as [Hl Hk]. rewrite <-app_assoc, take_app_at by done.
    rewrite (field_at _ (signature f) (be_encode 4 (key_id f)) rest)
      by (rewrite ?length_be_encode; done).
    by rewrite be_decode_encode, Z.mod_small.
  - destruct (wf_unsigned f Hf E). done.
Qed.

Lemma field_drop l i j n : field (drop i l) j n = field l (i + j) n.
Proof. unfold field. by rewrite drop_drop. Qed.

(** What the header of a serialized frame decodes to. *)
Lemma serialize_header f rest :
  FrameWf f →
  field (serialize f ++ rest) 0 1 = version f ∧
  field_command (serialize f ++ rest) = command f ∧
  field (serialize f ++ rest) 2 8 = sequence f ∧
  field (serialize f ++ rest) 10 2 = zlen (topic f) ∧
  field (serialize f ++ rest) 12 4 = zlen (payload f).
Proof.
  intros Hf.
  assert (Hs : serialize f ++ rest = header f ++ topic f ++ payload f ++ trailer f ++ rest)
    by (rewrite serialize_layout; by rewrite <-!app_assoc).
  rewrite Hs. destruct (header_fields f (topic f ++ payload f ++ trailer f ++ rest)) as (Hv & Hc & Hq & Ht & Hp).
  pose proof (wf_topic f Hf). pose proof (wf_payload f Hf).
  unfold MAX_TOPIC_LEN, MAX_PAYLOAD_LEN in *.
  unfold field_command. rewrite Hv, Hc, Hq, Ht, Hp, (wf_version f Hf).
  rewrite (Z.mod_small (command_byte _)) by apply (wf_command_byte f Hf).
  rewrite u64_small, u16_small, u32_small by (apply (wf_sequence f Hf) || lia).
  by rewrite (wf_command f Hf).
Qed.

Lemma parse_ref_serialize f rest :
  FrameWf f → parse_ref (serialize f ++ rest) = Some (f, length (serialize f)).
Proof.
  intros Hf. pose proof (length_serialize f Hf) as Hlen.
  destruct (serialize_header f rest Hf) as (Hv & Hc & Hq & Ht & Hp).
  destruct (serialize_slices f rest) as (St & Sp & Sr).
  destruct (trailer_fields f rest Hf) as (Hsig & Hkid).
  assert (0 ≤ trailer_size (command f)) by (unfold trailer_size; destruct (is_signed_command _); lia).
  unfold parse_ref, frame_complete, frame_ref, frame_size.
  rewrite Hv, Hc, Hq, Ht, Hp, !Nat2Z.id, (wf_version f Hf).
  pose proof (wf_topic f Hf). pose proof (wf_payload f Hf). unfold calculateFrameSize in Hlen.
  rewrite length_app. unfold MIN_FRAME_SIZE in *. rewrite Z.eqb_refl.
  repeat (zbranch; cbn [andb]). rewrite <-Hlen, Nat2Z.id. do 2 f_equal.
  rewrite <-field_drop, St, Sp, Sr, !take_app_length, <-(wf_signed f Hf), Hsig, Hkid.
  rewrite <-(wf_version f Hf). by destruct f.
Qed.

(** ** Parsing back *)

Lemma command_of_byte_byte b : command_byte (command_of_byte b) = b.
Proof.
  unfold command_of_byte. destruct (List.find _ _) as [c|] eqn:E; [|done].
  apply find_some in E as [_ E]. by apply Z.eqb_eq in E.
Qed.

Lemma be_encode_field l i n :
  (i + n ≤ length l)%nat → be_encode n (field l i n) = take n (drop i l).
Proof.
  intros H. unfold field.
  replace n with (length (take n (drop i l))) at 1 by (rewrite length_take, length_drop; lia).
  apply be_encode_decode.
Qed.

Lemma char_of_field l i : (i + 1 ≤ length l)%nat → [char_of (field l i 1)] = take 1 (drop i l).
Proof.
  intros H. rewrite <-be_encode_field by done. cbn. by rewrite Z.div_1_r.
Qed.

Lemma frame_complete_bounds buffer :
  frame_complete buffer = true →
  (16 ≤ length buffer)%nat ∧ field buffer 0 1 = 1 ∧
  0 ≤ field buffer 10 2 ≤ MAX_TOPIC_LEN ∧ 0 ≤ field buffer 12 4 ≤ MAX_PAYLOAD_LEN ∧
  frame_size buffer ≤ zlen buffer ∧
  frame_size buffer = 16 + field buffer 10 2 + field buffer 12 4 +
    (if is_signed_command (field_command buffer) then 68 else 0).
Proof.
  unfold frame_complete, MIN_FRAME_SIZE, BINARY_PROTOCOL_VERSION. intros H. reflect_bools.
  pose proof (field_range buffer 10 2). pose proof (field_range buffer 12 4).
  repeat split; try lia.
Qed.

Lemma frame_ref_wf buffer : frame_complete buffer = true → FrameWf (frame_ref buffer).
Proof.
  intros H. destruct (frame_complete_bounds _ H) as (? & ? & ? & ? & ? & Hsz).
  split; unfold frame_ref; simpl; try done.
  - unfold field_command. by rewrite command_of_byte_byte.
  - unfold field_command. rewrite command_of_byte_byte. apply field_range.
  - apply field_range.
  - rewrite length_take. lia.
  - rewrite length_take. lia.
  - intros E. rewrite E in *. split; [rewrite length_take, length_drop; unfold SIGNATURE_SIZE; lia|].
    apply field_range.
  - intros E. by rewrite E.
Qed.

Lemma header_frame_ref buffer :
  frame_complete buffer = true → header (frame_ref buffer) = take 16 buffer.
Proof.
  intros H. destruct (frame_complete_bounds _ H) as (? & Hv & ? & ? & ? & Hsz).
  pose proof (field_range buffer 10 2). pose proof (field_range buffer 12 4).
  unfold header, frame_ref; cbn [version command sequence topic payload].
  unfold field_command at 1. rewrite command_of_byte_byte.
  rewrite !length_take, !length_drop.
  rewrite Nat.min_l, Z2Nat.id, u16_small by (destruct (is_signed_command _); lia).
  rewrite Nat.min_l, Z2Nat.id, u32_small by (destruct (is_signed_command _); lia).
  change [char_of (field buffer 0 1); char_of (field buffer 1 1)] with
    ([char_of (field buffer 0 1)] ++ [char_of (field buffer 1 1)]).
  rewrite !char_of_field, !be_encode_field by lia. rewrite drop_0, !app_assoc.
  by do 4 (rewrite take_take_drop; cbn [Nat.add]).
Qed.

Lemma serialize_frame_ref buffer :
  frame_complete buffer = true →
  serialize (frame_ref buffer) = take (Z.to_nat (frame_size buffer)) buffer.
Proof.
  intros H. rewrite serialize_layout, header_frame_ref by done.
  destruct (frame_complete_bounds _ H) as (? & Hv & ? & ? & ? & Hsz). rewrite Hsz in *.
  unfold trailer, frame_ref; cbn [topic payload signature key_id is_signed].
  set (tl := Z.to_nat (field buffer 10 2)). set (pl := Z.to_nat (field buffer 12 4)).
  rewrite !app_assoc, !take_take_drop.
  destruct (is_signed_command (field_command buffer)).
  - rewrite be_encode_field by (unfold SIGNATURE_SIZE, KEY_ID_SIZE in *; lia).
    rewrite app_assoc, !take_take_drop. f_equal. unfold SIGNATURE_SIZE, KEY_ID_SIZE. lia.
  - rewrite app_nil_r. f_equal. lia.
Qed.

(** Bytes that follow a complete frame do not change how it reads. *)
Lemma field_app l r i n : (i + n ≤ length l)%nat → field (l ++ r) i n = field l i n.
Proof.
  intros H. unfold field. rewrite drop_app_le by lia.
  by rewrite take_app_le by (rewrite length_drop; lia).
Qed.

Lemma parse_ref_app buffer r f n :
  parse_ref buffer = Some (f, n) → parse_ref (buffer ++ r) = Some (f, n).
Proof.
  unfold parse_ref at 1. destruct (frame_complete buffer) eqn:H; [|done]. intros [= <- <-].
  assert (Hb : buffer ++ r =
    serialize (frame_ref buffer) ++ drop (Z.to_nat (frame_size buffer)) buffer ++ r)
    by (rewrite serialize_frame_ref, app_assoc, take_drop; done).
  rewrite Hb, parse_ref_serialize, serialize_frame_ref by auto using frame_ref_wf.
  destruct (frame_complete_bounds _ H) as (? & ? & ? & ? & ? & ?).
  do 2 f_equal. rewrite length_take. lia.
Qed.

(** ** Theorems *)

(** C16: Round trip: a frame within the protocol's limits, serialized and followed by
    arbitrary bytes, parses back to itself and consumes exactly its own bytes. *)
Theorem parse_serialize f rest :
  frame_wf f = true →
  parse (serialize f ++ rest) = Ret (Some (f, length (serialize f))).
Proof. rewrite frame_wf_spec, parse_is_ref. intros. by rewrite parse_ref_serialize. Qed.

Lemma parse_serialize_witness :
  let f := frame_signed_publish (lit "secure/t") (lit "21.5") (replicate 64 (char_of 7)) 9 42 in
  frame_wf f = true ∧
  parse (serialize f ++ lit "next") = Ret (Some (f, 96%nat)).
Proof.
  split; [vm_compute; reflexivity|].
  exact (parse_serialize
    (frame_signed_publish (lit "secure/t") (lit "21.5") (replicate 64 (char_of 7)) 9 42)
    (lit "next") ltac:(vm_compute; reflexivity)).
Defined.

(** Canonicity: a frame [parse] returns is within the limits, its consumed
    length is between 16 and the buffer's, and serializing it gives back
    exactly the bytes consumed. *)
Theorem parse_canonical buffer f n :
  parse buffer = Ret (Some (f, n)) →
  frame_wf f = true ∧ (16 ≤ n ≤ length buffer)%nat ∧ serialize f = take n buffer.
Proof.
  rewrite parse_is_ref. unfold parse_ref. destruct (frame_complete buffer) eqn:H; [|done].
  intros [= <- <-]. destruct (frame_complete_bounds _ H) as (? & ? & ? & ? & ? & Hs).
  split; [by apply frame_wf_spec, frame_ref_wf|]. split; [|by apply serialize_frame_ref].
  rewrite Hs in *. destruct (is_signed_command _); lia.
Qed.

Lemma parse_canonical_witness :
  serialize (frame_ack 7) = take 16 (serialize (frame_ack 7) ++ [char_of 1]).
Proof.
  apply (parse_canonical (serialize (frame_ack 7) ++ [char_of 1]) (frame_ack 7) 16).
  vm_compute. reflexivity.
Defined.

(** C17: Safety and meaning of [parse] on every input: it returns (no exception, no
    read outside the buffer) the frame the header describes when the header is
    acceptable and the frame complete, and nothing otherwise. *)
Theorem parse_total buffer : parse buffer = Ret (parse_ref buffer).
Proof. apply parse_is_ref. Qed.

(** Stability: a frame that was complete still parses the same, with the same
    consumed length, after more bytes arrive. *)
Theorem parse_extend buffer r f n :
  parse buffer = Ret (Some (f, n)) → parse (buffer ++ r) = Ret (Some (f, n)).
Proof. rewrite !parse_is_ref. intros [= H]. by rewrite (parse_ref_app _ r _ _ H). Qed.

Lemma parse_extend_witness :
  parse (serialize frame_pong ++ lit "abc") = Ret (Some (frame_pong, 16%nat)).
Proof. apply (parse_extend (serialize frame_pong) (lit "abc")). vm_compute. reflexivity. Defined.

(** The size of a serialized frame, and that it fits the length fields. *)
Theorem serialize_size f :
  frame_wf f = true →
  zlen (serialize f) =
    calculateFrameSize (topic f) (payload f) + (if is_signed f then 68 else 0) ∧
  16 ≤ zlen (serialize f) ≤ 16 + MAX_TOPIC_LEN + MAX_PAYLOAD_LEN + 68.
Proof.
  rewrite frame_wf_spec. intros Hf. rewrite length_serialize by done.
  pose proof (wf_topic f Hf). pose proof (wf_payload f Hf).
  unfold trailer_size, calculateFrameSize, MIN_FRAME_SIZE, SIGNATURE_SIZE, KEY_ID_SIZE.
  rewrite <-(wf_signed f Hf). destruct (is_signed f); lia.
Qed.

Lemma serialize_size_witness : zlen (serialize (frame_publish (lit "t") (lit "22") 1)) = 19.
Proof. apply (serialize_size (frame_publish (lit "t") (lit "22") 1)). vm_compute. reflexivity. Defined.
