(* ===== verification/PublicHeader.v ===== *)
(** * PublicHeader: [include/metricmq/binary_protocol.hpp]

    The header that client programs compile against declares the frame and its
    factories a second time; the library is compiled from
    [src/binary_protocol.hpp]. Both describe one type in memory, so they have
    to agree. Here a command is the byte an [enum class : uint8_t] object
    holds. *)

From S2P Require Import Prelude BinaryProtocol.

Module PublicHeader.

Definition BINARY_PROTOCOL_VERSION : Z := 1.

Definition CMD_SUBSCRIBE : Z := 0x01.
Definition CMD_UNSUBSCRIBE : Z := 0x02.
Definition CMD_PUBLISH : Z := 0x03.
Definition CMD_MESSAGE : Z := 0x04.
Definition CMD_ACK : Z := 0x05.
Definition CMD_PING : Z := 0x06.
Definition CMD_PONG : Z := 0x07.
Definition CMD_ERROR : Z := 0x08.
Definition CMD_SIGNED_PUBLISH : Z := 0x10.
Definition CMD_SIGNED_MESSAGE : Z := 0x11.

Definition SIGNATURE_SIZE : nat := 64.
Definition KEY_ID_SIZE : nat := 4.

Record BinaryFrame := mkFrame {
  version : Z;
  command : Z;
  sequence : Z;
  topic : bytes;
  payload : bytes;
  signature : bytes;
  key_id : Z;
  is_signed : bool;
}.
#[global] Instance BinaryFrame_fields : Fields BinaryFrame := λ f,
  mkFrame (version f) (command f) (sequence f) (topic f) (payload f) (signature f) (key_id f) (is_signed f).

(** [BinaryFrame()], with the initializers of the members. *)
Definition default_frame : BinaryFrame :=
  mkFrame BINARY_PROTOCOL_VERSION CMD_PING 0 [] [] (replicate 64 (char_of 0)) 0 false.

(** ** Factories: a default frame, assigned field by field *)

Definition subscribe (t : bytes) (seq : Z) : BinaryFrame :=
  default_frame <| command := CMD_SUBSCRIBE |> <| topic := t |> <| sequence := seq |>.
Definition unsubscribe (t : bytes) (seq : Z) : BinaryFrame :=
  default_frame <| command := CMD_UNSUBSCRIBE |> <| topic := t |> <| sequence := seq |>.
Definition publish (t p : bytes) (seq : Z) : BinaryFrame :=
  default_frame <| command := CMD_PUBLISH |> <| topic := t |> <| payload := p |> <| sequence := seq |>.
Definition message (t p : bytes) (seq : Z) : BinaryFrame :=
  default_frame <| command := CMD_MESSAGE |> <| topic := t |> <| payload := p |> <| sequence := seq |>.
Definition ack (seq : Z) : BinaryFrame := default_frame <| command := CMD_ACK |> <| sequence := seq |>.
Definition ping : BinaryFrame := default_frame <| command := CMD_PING |>.
Definition pong : BinaryFrame := default_frame <| command := CMD_PONG |>.
Definition error (msg : bytes) : BinaryFrame := default_frame <| command := CMD_ERROR |> <| payload := msg |>.
Definition signed_publish (t p sig : bytes) (kid seq : Z) : BinaryFrame :=
  default_frame <| command := CMD_SIGNED_PUBLISH |> <| topic := t |> <| payload := p |>
    <| signature := sig |> <| key_id := kid |> <| is_signed := true |> <| sequence := seq |>.
Definition signed_message (t p sig : bytes) (kid seq : Z) : BinaryFrame :=
  default_frame <| command := CMD_SIGNED_MESSAGE |> <| topic := t |> <| payload := p |>
    <| signature := sig |> <| key_id := kid |> <| is_signed := true |> <| sequence := seq |>.

Definition MIN_FRAME_SIZE : Z := 16.
Definition calculateFrameSize (t p : bytes) : Z := MIN_FRAME_SIZE + zlen t + zlen p.

(** ** The library's view of the same object *)

Definition library (f : BinaryFrame) : BinaryProtocol.BinaryFrame :=
  BinaryProtocol.mkFrame (version f) (command_of_byte (command f)) (sequence f) (topic f) (payload f)
    (signature f) (key_id f) (is_signed f).

(** The two headers describe the same frames: the library sees no two objects of
    the public type as one, what each public factory builds is what the
    library's own factory builds, and the public size is that of the bytes the
    library sends, less the 68 of a signed frame's trailer. *)
Theorem public_header_agrees :
  (∀ f g, library f = library g → f = g) ∧
  (∀ t s, library (subscribe t s) = frame_subscribe t s ∧ library (unsubscribe t s) = frame_unsubscribe t s) ∧
  (∀ t p s, library (publish t p s) = frame_publish t p s ∧ library (message t p s) = frame_message t p s) ∧
  (∀ s, library (ack s) = frame_ack s) ∧
  library ping = frame_ping ∧ library pong = frame_pong ∧ (∀ m, library (error m) = frame_error m) ∧
  (∀ t p sig k s, library (signed_publish t p sig k s) = frame_signed_publish t p sig k s ∧
    library (signed_message t p sig k s) = frame_signed_message t p sig k s) ∧
  (∀ f, length (signature f) = SIGNATURE_SIZE →
    zlen (serialize (library f)) = calculateFrameSize (topic f) (payload f) + if is_signed f then 68 else 0).
Proof.
  split; [|do 7 (split; [by repeat intros ?|])].
  - intros f g E. injection E as Ev Ec Es Et Ep Eg Ek Ei.
    apply (f_equal command_byte) in Ec. rewrite !command_of_byte_byte in Ec.
    destruct f, g. cbn in *. congruence.
  - intros f Hs. rewrite serialize_layout, !length_app, length_header. unfold trailer, calculateFrameSize, MIN_FRAME_SIZE.
    cbn [library BinaryProtocol.topic BinaryProtocol.payload BinaryProtocol.is_signed BinaryProtocol.signature BinaryProtocol.key_id].
    destruct (is_signed f); [rewrite length_app, length_be_encode, Hs|]; cbn; lia.
Qed.
End PublicHeader.
