(* ===== verification/RespParser.v ===== *)
(** * RespParser: the Redis text protocol of [src/resp_parser.hpp]/[.cpp]

    The value type with its discriminator and variant kept apart as in the
    source, [parse] with its recursion over nested arrays, [serialize] and
    [makeArray]. *)

From S2P Require Import Prelude Text.

Module Resp.

(** ** Values *)

Inductive RespType := SimpleString | Error | Integer | BulkString | Array | Null.

#[export] Instance RespType_eq_dec : EqDecision RespType.
Proof. solve_decision. Defined.

(** [std::variant<std::string, int64_t, RespArray, std::monostate>] *)
Inductive RespVariant (V : Type) :=
| VString (s : bytes)
| VInt (n : Z)
| VArray (arr : list V)
| VMonostate.
Arguments VString {V} s.
Arguments VInt {V} n.
Arguments VArray {V} arr.
Arguments VMonostate {V}.

Inductive RespValue := mkRespValue (type : RespType) (value : RespVariant RespValue).

Definition type (v : RespValue) : RespType := let 'mkRespValue t _ := v in t.
Definition value (v : RespValue) : RespVariant RespValue := let 'mkRespValue _ x := v in x.

Definition simpleString (str : bytes) : RespValue := mkRespValue SimpleString (VString str).
Definition error (msg : bytes) : RespValue := mkRespValue Error (VString msg).
Definition integer (num : Z) : RespValue := mkRespValue Integer (VInt num).
Definition bulkString (str : bytes) : RespValue := mkRespValue BulkString (VString str).
Definition array (arr : list RespValue) : RespValue := mkRespValue Array (VArray arr).
Definition null : RespValue := mkRespValue Null VMonostate.

Definition isArray (v : RespValue) : bool := bool_decide (type v = Array).
Definition isString (v : RespValue) : bool := bool_decide (type v = BulkString) || bool_decide (type v = SimpleString).
Definition isError (v : RespValue) : bool := bool_decide (type v = Error).
Definition isInteger (v : RespValue) : bool := bool_decide (type v = Integer).
Definition isNull (v : RespValue) : bool := bool_decide (type v = Null).

Definition asString (v : RespValue) : bytes :=
  match value v with VString s => s | _ => [] end.
Definition asInteger (v : RespValue) : Z :=
  match value v with VInt n => n | _ => 0 end.
Definition asArray (v : RespValue) : list RespValue :=
  match value v with VArray a => a | _ => [] end.

(** ** Parsing *)

Definition crlf : bytes := [char_of 13; char_of 10].

Definition findCRLF (buffer : bytes) (start : nat) : option nat := str_find crlf buffer start.

Definition MAX_BULK_LEN : Z := 16 * 1024 * 1024.
Definition MAX_ARRAY_COUNT : Z := 10000.

(** The element loop of an array: [parse] on the suffix at [offset], [n] times. *)
Fixpoint parse_elems (parse : bytes → outcome (option (RespValue * nat)))
    (buffer : bytes) (n offset : nat) (arr : list RespValue)
    : outcome (option (RespValue * nat)) :=
  match n with
  | O => Ret (Some (array arr, offset))
  | S n' =>
      let! sub := substr_from buffer offset in
      let! elem := parse sub in
      match elem with
      | None => Ret None
      | Some (v, used) => parse_elems parse buffer n' (offset + used) (arr ++ [v])
      end
  end.

Definition parse_body (parse : bytes → outcome (option (RespValue * nat)))
    (buffer : bytes) : outcome (option (RespValue * nat)) :=
  match buffer with
  | [] => Ret None
  | type_char :: _ =>
      let pos := 1%nat in
      if char_code type_char =? 43 then                                   (* '+' *)
        match findCRLF buffer pos with
        | None => Ret None
        | Some e =>
            let! str := substr buffer pos (e - pos) in
            Ret (Some (simpleString str, (e + 2)%nat))
        end
      else if char_code type_char =? 45 then                              (* '-' *)
        match findCRLF buffer pos with
        | None => Ret None
        | Some e =>
            let! err := substr buffer pos (e - pos) in
            Ret (Some (error err, (e + 2)%nat))
        end
      else if char_code type_char =? 58 then                              (* ':' *)
        match findCRLF buffer pos with
        | None => Ret None
        | Some e =>
            let! num_str := substr buffer pos (e - pos) in
            match stoll num_str with
            | None => Ret None
            | Some num => Ret (Some (integer num, (e + 2)%nat))
            end
        end
      else if char_code type_char =? 36 then                              (* '$' *)
        match findCRLF buffer pos with
        | None => Ret None
        | Some e =>
            let! len_str := substr buffer pos (e - pos) in
            match stoll len_str with
            | None => Ret None
            | Some len =>
                if len =? -1 then Ret (Some (null, (e + 2)%nat))
                else if (len <? 0) || (MAX_BULK_LEN <? len) then Ret None
                else
                  let data_start := (e + 2)%nat in
                  if zlen buffer <? Z.of_nat data_start + len + 2 then Ret None
                  else
                    let! str := substr buffer data_start (Z.to_nat len) in
                    Ret (Some (bulkString str, (data_start + Z.to_nat len + 2)%nat))
            end
        end
      else if char_code type_char =? 42 then                              (* '*' *)
        match findCRLF buffer pos with
        | None => Ret None
        | Some e =>
            let! count_str := substr buffer pos (e - pos) in
            match stoll count_str with
            | None => Ret None
            | Some count =>
                if count =? -1 then Ret (Some (null, (e + 2)%nat))
                else if (count <? 0) || (MAX_ARRAY_COUNT <? count) then Ret None
                else parse_elems parse buffer (Z.to_nat count) (e + 2) []
            end
        end
      else Ret None
  end.

(** [parse] recurses on strictly shorter suffixes: one more unit of fuel than
    the buffer has bytes is enough ([resp_parse_equation]). *)
Fixpoint parse_fuel (fuel : nat) (buffer : bytes) : outcome (option (RespValue * nat)) :=
  match fuel with
  | O => Diverge
  | S f => parse_body (parse_fuel f) buffer
  end.

Definition parse (buffer : bytes) : outcome (option (RespValue * nat)) :=
  parse_fuel (S (length buffer)) buffer.

(** ** Serialization *)

Fixpoint serialize (v : RespValue) : bytes :=
  match type v with
  | SimpleString => char_of 43 :: asString v ++ crlf
  | Error => char_of 45 :: asString v ++ crlf
  | Integer => char_of 58 :: to_string (asInteger v) ++ crlf
  | BulkString => char_of 36 :: to_string (zlen (asString v)) ++ crlf ++ asString v ++ crlf
  | Array =>
      match v with
      | mkRespValue _ (VArray arr) =>
          char_of 42 :: to_string (zlen arr) ++ crlf ++ concat (map serialize arr)
      | _ => char_of 42 :: to_string 0 ++ crlf
      end
  | Null => lit "$-1" ++ crlf
  end.

Definition makeArray (strings : list bytes) : RespValue := array (map bulkString strings).

(** ** Well-formed values: what a round trip preserves *)

Fixpoint resp_wf (v : RespValue) : bool :=
  match v with
  | mkRespValue SimpleString (VString s) => bool_decide (find_first crlf s = None)
  | mkRespValue Error (VString s) => bool_decide (find_first crlf s = None)
  | mkRespValue Integer (VInt n) => (INT64_MIN <=? n) && (n <=? INT64_MAX)
  | mkRespValue BulkString (VString s) => zlen s <=? MAX_BULK_LEN
  | mkRespValue Array (VArray arr) => (zlen arr <=? MAX_ARRAY_COUNT) && forallb resp_wf arr
  | mkRespValue Null VMonostate => true
  | _ => false
  end.

(** Structural induction through the nested arrays. *)
Section resp_ind.
Variable P : RespValue → Prop.
Hypothesis Hleaf : ∀ t x, (∀ arr, x ≠ VArray arr) → P (mkRespValue t x).
Hypothesis Harr : ∀ t arr, Forall P arr → P (mkRespValue t (VArray arr)).

Fixpoint RespValue_nested_ind (v : RespValue) : P v :=
  match v with
  | mkRespValue t (VArray arr) =>
      Harr t arr ((fix all l : Forall P l :=
        match l with
        | [] => Forall_nil_2 P
        | y :: l' => Forall_cons_2 P y l' (RespValue_nested_ind y) (all l')
        end) arr)
  | mkRespValue t (VString s) => Hleaf t (VString s) ltac:(discriminate)
  | mkRespValue t (VInt n) => Hleaf t (VInt n) ltac:(discriminate)
  | mkRespValue t VMonostate => Hleaf t VMonostate ltac:(discriminate)
  end.
End resp_ind.

(** ** The non-recursive part of [parse]

    Reading the type byte and the first line either settles the result or
    starts the element loop of an array. *)
Inductive head := Done (r : option (RespValue * nat)) | Elems (n offset : nat).

Definition line_at (buffer : bytes) : option (bytes * nat) :=
  match findCRLF buffer 1 with
  | Some e => Some (take (e - 1) (drop 1 buffer), (e + 2)%nat)
  | None => None
  end.

Definition parse_head (buffer : bytes) : head :=
  match buffer, line_at buffer with
  | c :: _, Some (line, next) =>
      if char_code c =? 43 then Done (Some (simpleString line, next))
      else if char_code c =? 45 then Done (Some (error line, next))
      else if char_code c =? 58 then
        match stoll line with None => Done None | Some n => Done (Some (integer n, next)) end
      else if char_code c =? 36 then
        match stoll line with
        | None => Done None
        | Some len =>
            if len =? -1 then Done (Some (null, next))
            else if (len <? 0) || (MAX_BULK_LEN <? len) then Done None
            else if zlen buffer <? Z.of_nat next + len + 2 then Done None
            else Done (Some (bulkString (take (Z.to_nat len) (drop next buffer)),
                             (next + Z.to_nat len + 2)%nat))
        end
      else if char_code c =? 42 then
        match stoll line with
        | None => Done None
        | Some count =>
            if count =? -1 then Done (Some (null, next))
            else if (count <? 0) || (MAX_ARRAY_COUNT <? count) then Done None
            else Elems (Z.to_nat count) next
        end
      else Done None
  | _, _ => Done None
  end.

Lemma line_at_bounds buffer line next :
  line_at buffer = Some (line, next) → (3 ≤ next ≤ length buffer)%nat.
Proof.
  unfold line_at. destruct (findCRLF buffer 1) as [e|] eqn:E; [|done]. intros [= <- <-].
  apply str_find_bound in E. simpl in E. lia.
Qed.

Lemma line_at_app buffer r line next :
  line_at buffer = Some (line, next) → line_at (buffer ++ r) = Some (line, next).
Proof.
  unfold line_at. destruct (findCRLF buffer 1) as [e|] eqn:E; [|done]. intros [= <- <-].
  pose proof (str_find_bound _ _ _ _ E) as Hb. simpl in Hb.
  unfold findCRLF in *. rewrite (str_find_app _ _ _ _ _ E).
  rewrite drop_app_le, take_app_le by (rewrite ?length_drop; lia). done.
Qed.

Lemma parse_body_head p buffer :
  parse_body p buffer =
  match parse_head buffer with
  | Done r => Ret r
  | Elems n offset => parse_elems p buffer n offset []
  end.
Proof.
  destruct buffer as [|c s]; [done|]. unfold parse_body, parse_head, line_at.
  destruct (findCRLF (c :: s) 1) as [e|] eqn:E; [|by repeat case_match].
  pose proof (str_find_bound _ _ _ _ E) as Hb. unfold crlf in Hb. cbn [length] in Hb.
  assert (Hsub : substr (c :: s) 1 (e - 1) = Ret (take (e - 1) (drop 1 (c :: s))))
    by (apply substr_ret; split; [cbn [length]; lia|done]).
  rewrite Hsub. cbn [obind].
  repeat (case_match; try done).
  rewrite (proj2 (substr_ret (c :: s) (e + 2) _ (take (Z.to_nat z) (drop (e + 2) (c :: s)))));
    [done|]. split; [reflect_bools; lia|done].
Qed.

(** Case analysis of the head: the branches of the type byte. *)
Ltac head_cases buffer :=
  unfold parse_head;
  destruct buffer as [|c s]; [try done|];
  destruct (line_at _) as [[? ?]|] eqn:?; [|try done].

Lemma parse_head_bounds buffer :
  match parse_head buffer with
  | Done (Some (_, n)) => (3 ≤ n ≤ length buffer)%nat
  | Done None => True
  | Elems _ offset => (3 ≤ offset ≤ length buffer)%nat
  end.
Proof.
  head_cases buffer. pose proof (line_at_bounds _ _ _ ltac:(eassumption)).
  repeat case_match; simplify_eq; try done; reflect_bools; lia.
Qed.

Lemma parse_head_app buffer r :
  match parse_head buffer with
  | Done None => True
  | h => parse_head (buffer ++ r) = h
  end.
Proof.
  head_cases buffer.
  match goal with H : line_at _ = Some _ |- _ =>
    pose proof (line_at_bounds _ _ _ H); pose proof (line_at_app _ r _ _ H) as Hl end.
  rewrite <-app_comm_cons in *. rewrite Hl. clear Hl.
  repeat (case_match; simplify_eq; try done); reflect_bools;
    rewrite app_comm_cons, length_app in *; try lia.
  rewrite drop_app_le by lia. rewrite take_app_le by (rewrite length_drop; lia). done.
Qed.

(** ** Termination and safety *)

(** [p] returns on [b], consuming a part of it. *)
Definition reads (p : bytes → outcome (option (RespValue * nat))) (b : bytes) : Prop :=
  ∃ r, p b = Ret r ∧ ∀ v k, r = Some (v, k) → (3 ≤ k ≤ length b)%nat.

Lemma parse_elems_reads p buffer n offset arr :
  (∀ b, (length b < length buffer)%nat → reads p b) →
  (1 ≤ offset ≤ length buffer)%nat →
  ∃ r, parse_elems p buffer n offset arr = Ret r ∧
       ∀ v k, r = Some (v, k) → (offset ≤ k ≤ length buffer)%nat.
Proof.
  intros Hp. revert offset arr. induction n as [|n IH]; intros offset arr Ho; simpl.
  - eexists; split; [done|]. intros v k [= <- <-]. lia.
  - rewrite (proj2 (substr_from_ret _ _ _) (conj (proj2 Ho) eq_refl)). cbn [obind].
    destruct (Hp (drop offset buffer)) as ([[v k]|] & Hr & Hk); [rewrite length_drop; lia| |].
    + rewrite Hr. cbn [obind]. specialize (Hk _ _ eq_refl). rewrite length_drop in Hk.
      destruct (IH (offset + k)%nat (arr ++ [v])) as (r & Hr' & Hk'); [lia|].
      exists r. split; [done|]. intros v' k' E. specialize (Hk' _ _ E). lia.
    + rewrite Hr. eexists; split; [done|]. done.
Qed.

Lemma parse_fuel_reads fuel buffer : (length buffer < fuel)%nat → reads (parse_fuel fuel) buffer.
Proof.
  revert buffer. induction fuel as [|f IH]; intros buffer Hf; [lia|].
  unfold reads. simpl. rewrite parse_body_head. pose proof (parse_head_bounds buffer) as Hb.
  destruct (parse_head buffer) as [[[v k]|]|n offset].
  - eexists; split; [done|]. by intros ?? [= <- <-].
  - eexists; split; [done|]. done.
  - destruct (parse_elems_reads (parse_fuel f) buffer n offset []) as (r & Hr & Hk).
    + intros b Hlt. apply IH. lia.
    + lia.
    + exists r. split; [done|]. intros v k E. specialize (Hk _ _ E). lia.
Qed.

Lemma parse_elems_cong p q buffer n offset arr :
  (∀ b, (length b < length buffer)%nat → p b = q b) → (1 ≤ offset)%nat →
  parse_elems p buffer n offset arr = parse_elems q buffer n offset arr.
Proof.
  intros Hpq. revert offset arr. induction n as [|n IH]; intros offset arr Ho; simpl; [done|].
  destruct (substr_from buffer offset) as [sub| |] eqn:E; [|done..]. cbn [obind].
  apply substr_from_ret in E as [Hle ->].
  destruct buffer as [|c s]; [simpl in Hle; lia|].
  rewrite Hpq by (rewrite length_drop; simpl; lia).
  destruct (q _) as [[[v k]|]| |]; try done. cbn [obind]. apply IH. lia.
Qed.

Lemma parse_fuel_irrel f1 f2 buffer :
  (length buffer < f1)%nat → (length buffer < f2)%nat →
  parse_fuel f1 buffer = parse_fuel f2 buffer.
Proof.
  revert f2 buffer. induction f1 as [|f1 IH]; intros [|f2] buffer H1 H2; [lia..|].
  simpl. rewrite !parse_body_head. pose proof (parse_head_bounds buffer) as Hb.
  destruct (parse_head buffer) as [|n offset]; [done|].
  apply parse_elems_cong; [|lia]. intros b Hlt. apply IH; lia.
Qed.

(** The recursive equation of the source. *)
Lemma parse_unfold buffer : parse buffer = parse_body parse buffer.
Proof.
  unfold parse at 1. simpl parse_fuel at 1. rewrite !parse_body_head.
  pose proof (parse_head_bounds buffer) as Hb.
  destruct (parse_head buffer) as [|n offset]; [done|].
  apply parse_elems_cong; [|lia]. intros b Hlt. unfold parse. apply parse_fuel_irrel; lia.
Qed.

Lemma parse_reads buffer : reads parse buffer.
Proof. apply (parse_fuel_reads (S (length buffer)) buffer). lia. Qed.

(** ** Stability under extension *)

Lemma parse_elems_app p buffer r n offset arr x :
  (∀ b, (length b < length buffer)%nat → ∀ y, p b = Ret (Some y) → p (b ++ r) = Ret (Some y)) →
  (1 ≤ offset)%nat →
  parse_elems p buffer n offset arr = Ret (Some x) →
  parse_elems p (buffer ++ r) n offset arr = Ret (Some x).
Proof.
  intros Hp. revert offset arr. induction n as [|n IH]; intros offset arr Ho; simpl; [done|].
  destruct (substr_from buffer offset) as [sub| |] eqn:E; [|done..]. cbn [obind].
  apply substr_from_ret in E as [Hle ->].
  assert (substr_from (buffer ++ r) offset = Ret (drop offset (buffer ++ r))) as ->
    by (apply substr_from_ret; rewrite length_app; split; [lia|done]).
  cbn [obind]. rewrite drop_app_le by done.
  destruct (p (drop offset buffer)) as [[[v k]|]| |] eqn:E; try done. cbn [obind].
  destruct buffer as [|c s]; [simpl in Hle; lia|].
  rewrite (Hp (drop offset (c :: s)) ltac:(rewrite length_drop; simpl; lia) _ E). cbn [obind]. apply IH. lia.
Qed.

Lemma parse_app buffer r x :
  parse buffer = Ret (Some x) → parse (buffer ++ r) = Ret (Some x).
Proof.
  remember (length buffer) as m eqn:Hm. revert buffer Hm x.
  induction (lt_wf m) as [m _ IH]. intros buffer -> x.
  rewrite !parse_unfold, !parse_body_head.
  pose proof (parse_head_bounds buffer) as Hb. pose proof (parse_head_app buffer r) as Ha.
  destruct (parse_head buffer) as [[]|n offset]; [by rewrite Ha|done|]. rewrite Ha.
  apply parse_elems_app; [|lia]. intros b Hlt y. by apply (IH (length b)).
Qed.

(** ** Round trip *)

Lemma find_first_crlf_app s r :
  find_first crlf s = None → find_first crlf (s ++ crlf ++ r) = Some (length s).
Proof.
  induction s as [|a s IH]; intros H; [done|].
  change (find_first crlf (a :: s)) with
    (if starts_with (a :: s) crlf then Some 0%nat else S <$> find_first crlf s) in H.
  destruct (starts_with (a :: s) crlf) eqn:E; [done|].
  destruct (find_first crlf s) eqn:E2; [done|].
  change (find_first crlf ((a :: s) ++ crlf ++ r)) with
    (if starts_with (a :: s ++ crlf ++ r) crlf then Some 0%nat
     else S <$> find_first crlf (s ++ crlf ++ r)).
  rewrite IH by done. destruct (starts_with (a :: s ++ crlf ++ r) crlf) eqn:E3; [|done].
  exfalso. destruct s as [|b s]; simpl in *; [|congruence].
  by rewrite andb_false_r in E3.
Qed.

Lemma find_first_crlf_none s : char_of 13 ∉ s → find_first crlf s = None.
Proof.
  induction s as [|a s IH]; intros H; [done|].
  apply not_elem_of_cons in H as [Hne Hs].
  change (find_first crlf (a :: s)) with
    (if starts_with (a :: s) crlf then Some 0%nat else S <$> find_first crlf s).
  rewrite IH by done. simpl. by rewrite bool_decide_false.
Qed.

Lemma line_at_crlf c line r :
  find_first crlf line = None →
  line_at (c :: line ++ crlf ++ r) = Some (line, (length line + 3)%nat).
Proof.
  intros H. unfold line_at, findCRLF, str_find. simpl length. zbranch. cbn [drop].
  rewrite drop_0, find_first_crlf_app by done. cbn [fmap option_fmap option_map].
  replace (1 + length line - 1)%nat with (length line) by lia.
  rewrite take_app_length. f_equal. f_equal. lia.
Qed.

Lemma to_string_no_crlf z : find_first crlf (to_string z) = None.
Proof.
  apply find_first_crlf_none. intros Hin.
  assert (Hd : ∀ n, 0 ≤ n → char_of 13 ∉ dec_digits n).
  { intros n Hn Hi. destruct (dec_digits_spec n Hn) as (c & ds & E & Hf & _).
    rewrite E in Hi. rewrite Forall_forall in Hf.
    apply Hf in Hi. vm_compute in Hi. done. }
  unfold to_string in Hin. destruct (z <? 0) eqn:E; reflect_bools.
  - apply elem_of_cons in Hin as [Heq|Hin]; [by vm_compute in Heq|]. apply (Hd (- z)); [lia|done].
  - by apply (Hd z).
Qed.

Lemma length_line c s : length (c :: s ++ crlf) = (length s + 3)%nat.
Proof. rewrite length_cons, length_app. change (length crlf) with 2%nat. lia. Qed.

(** How the head of each kind of serialized value reads. *)
Lemma parse_head_string s r :
  find_first crlf s = None →
  parse_head (serialize (simpleString s) ++ r) = Done (Some (simpleString s, length (serialize (simpleString s)))) ∧
  parse_head (serialize (error s) ++ r) = Done (Some (error s, length (serialize (error s)))).
Proof.
  intros Hs. unfold parse_head, simpleString, error. cbn [serialize type asString value app].
  rewrite <-!app_assoc, !line_at_crlf, !length_line by done. done.
Qed.

Lemma parse_head_int n r :
  INT64_MIN ≤ n ≤ INT64_MAX →
  parse_head (serialize (integer n) ++ r) = Done (Some (integer n, length (serialize (integer n)))).
Proof.
  intros Hn. unfold parse_head, integer. cbn [serialize type asInteger value app].
  rewrite <-!app_assoc, !line_at_crlf, length_line, stoll_to_string by (done || apply to_string_no_crlf).
  done.
Qed.

Lemma parse_head_bulk s r :
  zlen s ≤ MAX_BULK_LEN →
  parse_head (serialize (bulkString s) ++ r) =
  Done (Some (bulkString s, length (serialize (bulkString s)))).
Proof.
  intros Hs. unfold bulkString. cbn [serialize type asString value].
  set (L := to_string (zlen s)). pose proof (length_line (char_of 36) L) as HL.
  assert (Hl : (char_of 36 :: L ++ crlf ++ s ++ crlf) ++ r = (char_of 36 :: L ++ crlf) ++ s ++ crlf ++ r)
    by (by rewrite <-?app_comm_cons, <-!app_assoc).
  assert (Hline : line_at (char_of 36 :: (L ++ crlf) ++ s ++ crlf ++ r) = Some (L, (length L + 3)%nat))
    by (rewrite <-app_assoc; apply line_at_crlf, to_string_no_crlf).
  rewrite Hl, <-app_comm_cons. unfold parse_head. rewrite Hline.
  change (char_code (char_of 36)) with 36. cbn [Z.eqb Pos.eqb].
  unfold MAX_BULK_LEN in *. unfold L at 1.
  rewrite stoll_to_string by (unfold INT64_MIN, INT64_MAX; lia).
  do 3 zbranch. cbn [orb]. rewrite app_comm_cons.
  rewrite (length_app _ (s ++ _)), HL, (length_app s), (length_app crlf).
  change (length crlf) with 2%nat. zbranch.
  rewrite drop_app_at, Nat2Z.id, take_app_length by lia. do 3 f_equal.
  rewrite length_cons, !length_app. change (length crlf) with 2%nat. lia.
Qed.

Lemma parse_head_array arr r :
  zlen arr ≤ MAX_ARRAY_COUNT →
  parse_head (serialize (array arr) ++ r) = Elems (length arr) (length (to_string (zlen arr)) + 3).
Proof.
  intros Ha. unfold array. cbn [serialize type app].
  rewrite <-!app_assoc. unfold parse_head. rewrite line_at_crlf by apply to_string_no_crlf.
  change (char_code (char_of 42)) with 42. cbn [Z.eqb Pos.eqb].
  unfold MAX_ARRAY_COUNT in *. rewrite stoll_to_string by (unfold INT64_MIN, INT64_MAX; lia).
  do 3 zbranch. cbn [orb]. by rewrite Nat2Z.id.
Qed.

Lemma parse_elems_concat buffer pre arr acc r :
  buffer = pre ++ concat (map serialize arr) ++ r → (1 ≤ length pre)%nat →
  Forall (λ v, ∀ t, parse (serialize v ++ t) = Ret (Some (v, length (serialize v)))) arr →
  parse_elems parse buffer (length arr) (length pre) acc =
  Ret (Some (array (acc ++ arr), (length pre + length (concat (map serialize arr)))%nat)).
Proof.
  intros -> Hpre Harr. revert pre acc Hpre.
  induction Harr as [|v arr Hv _ IH]; intros pre acc Hpre; simpl.
  - by rewrite app_nil_r, Nat.add_0_r.
  - assert (substr_from (pre ++ (serialize v ++ concat (map serialize arr)) ++ r) (length pre)
      = Ret (serialize v ++ concat (map serialize arr) ++ r)) as ->.
    { apply substr_from_ret. rewrite length_app, drop_app_length, <-app_assoc. split; [lia|done]. }
    cbn [obind]. rewrite Hv. cbn [obind].
    rewrite <-length_app, <-app_assoc, app_assoc, IH by (rewrite length_app; lia).
    rewrite <-app_assoc, !length_app. do 3 f_equal. lia.
Qed.

Lemma parse_serialize_value v r :
  resp_wf v = true → parse (serialize v ++ r) = Ret (Some (v, length (serialize v))).
Proof.
  revert r. induction v as [t x Hx|t arr IH] using RespValue_nested_ind; intros r Hwf;
    rewrite parse_unfold, parse_body_head.
  - destruct t, x as [s|n|arr|]; cbn [resp_wf] in Hwf; try done; try (by destruct (Hx arr));
      reflect_bools.
    + fold (simpleString s). by rewrite (proj1 (parse_head_string s r Hwf)).
    + fold (error s). by rewrite (proj2 (parse_head_string s r Hwf)).
    + fold (integer n). by rewrite (parse_head_int n r).
    + fold (bulkString s). by rewrite (parse_head_bulk s r Hwf).
  - destruct t; try done. cbn [resp_wf] in Hwf. apply andb_true_iff in Hwf as [Hc Hall].
    apply Z.leb_le in Hc. fold (array arr). rewrite (parse_head_array arr r Hc).
    pose proof (length_line (char_of 42) (to_string (zlen arr))) as HL. rewrite <-HL.
    unfold array at 1 3. cbn [serialize type]. rewrite (parse_elems_concat _ _ arr _ r).
    + rewrite <-length_app, <-app_comm_cons, <-app_assoc. done.
    + by rewrite <-?app_comm_cons, <-!app_assoc.
    + lia.
    + rewrite forallb_forall in Hall. rewrite Forall_forall in *. intros v Hin t.
      apply IH; [done|]. apply Hall. by apply list_elem_of_In.
Qed.

(** ** Theorems *)

(** [parse] satisfies the recursive equation of the source: the fuel of the
    model is never exhausted, and every nested array is read by [parse] itself. *)
Theorem resp_parse_equation buffer : parse buffer = parse_body parse buffer.
Proof. apply parse_unfold. Qed.

(** C27: On every input [parse] returns (no throw, no divergence), and what it
    consumes is between 3 bytes and the whole buffer. *)
Theorem resp_parse_returns buffer :
  ∃ r, parse buffer = Ret r ∧
    match r with Some (_, n) => (3 ≤ n ≤ length buffer)%nat | None => True end.
Proof.
  destruct (parse_reads buffer) as (r & Hr & Hk). exists r. split; [done|].
  destruct r as [[v n]|]; [by eapply Hk|done].
Qed.

(** C28: Round trip: every value whose strings and counts are within the protocol's
    limits, nested arrays included, parses back to itself and consumes exactly
    the bytes it was serialized to. *)
Theorem resp_parse_serialize v rest :
  resp_wf v = true → parse (serialize v ++ rest) = Ret (Some (v, length (serialize v))).
Proof. apply parse_serialize_value. Qed.

Lemma resp_parse_serialize_witness :
  parse (serialize (array [bulkString (lit "PUBLISH"); integer (-5); array [null; simpleString (lit "ok")]])
         ++ lit "*1") =
  Ret (Some (array [bulkString (lit "PUBLISH"); integer (-5); array [null; simpleString (lit "ok")]], 36%nat)).
Proof.
  exact (resp_parse_serialize
    (array [bulkString (lit "PUBLISH"); integer (-5); array [null; simpleString (lit "ok")]])
    (lit "*1") ltac:(vm_compute; reflexivity)).
Defined.

(** A value that was complete parses the same after more bytes arrive. *)
Theorem resp_parse_extend buffer r v n :
  parse buffer = Ret (Some (v, n)) → parse (buffer ++ r) = Ret (Some (v, n)).
Proof. apply parse_app. Qed.

Lemma resp_parse_extend_witness :
  parse ((lit "+OK" ++ crlf) ++ lit "*2") = Ret (Some (simpleString (lit "OK"), 5%nat)).
Proof. apply (resp_parse_extend (lit "+OK" ++ crlf) (lit "*2")). vm_compute. reflexivity. Defined.

End Resp.
