(* ===== verification/AckSet.v ===== *)
(** * AckSet: the bounded per-client ACK set of [src/broker.hpp]

    [BoundedAckSet] keeps a FIFO of sequence numbers beside a hash set used
    for membership, and the highest number ever inserted. The specification is
    a plain window over the insertion history. *)

From S2P Require Import Prelude.

Module Acks.

Definition MAX : Z := 10000.

Record BoundedAckSet := mkAcks {
  order_ : list Z;      (* std::deque, front = oldest *)
  lookup_ : gset Z;     (* std::unordered_set *)
  max_seq_ : Z
}.

Definition empty_acks : BoundedAckSet := mkAcks [] ∅ 0.

Definition insert (seq : Z) (s : BoundedAckSet) : BoundedAckSet :=
  if bool_decide (seq ∈ lookup_ s) then s
  else
    let '(o, l) :=
      if MAX <=? zlen (order_ s) then
        match order_ s with
        | front :: rest => (rest, lookup_ s ∖ {[front]})
        | [] => (order_ s, lookup_ s)
        end
      else (order_ s, lookup_ s) in
    mkAcks (o ++ [seq]) ({[seq]} ∪ l)
           (if max_seq_ s <? seq then seq else max_seq_ s).

Definition contains (s : BoundedAckSet) (seq : Z) : bool := bool_decide (seq ∈ lookup_ s).
Definition max_seq (s : BoundedAckSet) : Z := max_seq_ s.
Definition is_empty (s : BoundedAckSet) : bool := bool_decide (lookup_ s = ∅).

(** [for (uint64_t seq : seqs) acks.insert(seq)] *)
Definition insert_all (seqs : list Z) (s : BoundedAckSet) : BoundedAckSet :=
  fold_left (λ acc seq, insert seq acc) seqs s.

(** ** Specification: a window of the most recent distinct insertions *)

Definition window_insert (seq : Z) (w : list Z) : list Z :=
  if bool_decide (seq ∈ w) then w
  else if MAX <=? zlen w then tail w ++ [seq] else w ++ [seq].

Record acks_inv (s : BoundedAckSet) : Prop := {
  inv_lookup : lookup_ s = list_to_set (order_ s);
  inv_nodup : NoDup (order_ s);
  inv_bound : zlen (order_ s) ≤ MAX;
  inv_max : ∀ x, x ∈ order_ s → x ≤ max_seq_ s;
  inv_pos : 0 ≤ max_seq_ s
}.

Lemma empty_inv : acks_inv empty_acks.
Proof. split; simpl; try done; [constructor|set_solver]. Qed.

Lemma lookup_order s x : acks_inv s → x ∈ lookup_ s ↔ x ∈ order_ s.
Proof. intros H. rewrite (inv_lookup s H). set_solver. Qed.

Lemma insert_order seq s :
  acks_inv s → order_ (insert seq s) = window_insert seq (order_ s).
Proof.
  intros H. unfold insert, window_insert.
  rewrite (bool_decide_ext (seq ∈ lookup_ s) (seq ∈ order_ s)) by by apply lookup_order.
  case_bool_decide; [done|]. destruct (MAX <=? _); [|done].
  by destruct (order_ s).
Qed.

Lemma insert_inv seq s : acks_inv s → acks_inv (insert seq s).
Proof.
  intros H. unfold insert. case_bool_decide as Hin; [done|].
  rewrite lookup_order in Hin by done. destruct H as [Hl Hn Hb Hm Hp].
  assert (Hmax : ∀ o, (∀ x, x ∈ o → x ∈ order_ s) → ∀ x, x ∈ o ++ [seq] → x ≤ Z.max (max_seq_ s) seq).
  { intros o Ho x [Hx|Hx%list_elem_of_singleton]%elem_of_app; [|lia]. specialize (Hm x (Ho x Hx)). lia. }
  destruct (MAX <=? zlen (order_ s)) eqn:E; reflect_bools.
  - destruct (order_ s) as [|front rest] eqn:Eo; [unfold MAX in E; simpl in E; lia|].
    apply NoDup_cons in Hn as [Hf Hn]. apply not_elem_of_cons in Hin as [Hne Hin].
    split; cbn [order_ lookup_ max_seq_]; rewrite ?max_if; try lia.
    + rewrite Hl, list_to_set_app_L. simpl. set_solver.
    + apply NoDup_app. split; [done|]. split; [set_solver|apply NoDup_singleton].
    + rewrite length_app. simpl in *. lia.
    + apply Hmax. set_solver.
  - split; cbn [order_ lookup_ max_seq_]; rewrite ?max_if; try lia.
    + rewrite Hl, list_to_set_app_L. simpl. set_solver.
    + apply NoDup_app. split; [done|]. split; [set_solver|apply NoDup_singleton].
    + rewrite length_app. simpl. lia.
    + by apply Hmax.
Qed.

Lemma insert_all_inv seqs s : acks_inv s → acks_inv (insert_all seqs s).
Proof.
  unfold insert_all. revert s. induction seqs as [|x seqs IH]; intros s H; simpl; [done|].
  by apply IH, insert_inv.
Qed.

Lemma insert_all_order seqs s :
  acks_inv s → order_ (insert_all seqs s) = fold_left (λ w seq, window_insert seq w) seqs (order_ s).
Proof.
  unfold insert_all. revert s. induction seqs as [|x seqs IH]; intros s H; simpl; [done|].
  rewrite IH by by apply insert_inv. by rewrite insert_order.
Qed.

Lemma insert_max seq s : max_seq_ (insert seq s) = Z.max (max_seq_ s) seq ∨
  (seq ∈ lookup_ s ∧ max_seq_ (insert seq s) = max_seq_ s).
Proof.
  unfold insert. case_bool_decide; [by right|left]. destruct (MAX <=? _), (order_ s); apply max_if.
Qed.

Lemma insert_max_inv seq s :
  acks_inv s → max_seq_ (insert seq s) = Z.max (max_seq_ s) seq.
Proof.
  intros H. destruct (insert_max seq s) as [->|[Hin ->]]; [done|].
  rewrite lookup_order in Hin by done. pose proof (inv_max s H seq Hin). lia.
Qed.

Lemma insert_all_max seqs s :
  acks_inv s → max_seq_ (insert_all seqs s) = foldr Z.max (max_seq_ s) seqs.
Proof.
  unfold insert_all. revert s. induction seqs as [|x seqs IH]; intros s H; simpl; [done|].
  rewrite IH by by apply insert_inv. rewrite insert_max_inv by done.
  clear. induction seqs as [|y seqs IH]; simpl; lia.
Qed.

(** While the number of distinct entries stays within the bound, membership is
    exactly the union of what was there and what was inserted. *)
Lemma insert_all_lookup seqs s :
  acks_inv s →
  Z.of_nat (size (lookup_ s ∪ list_to_set seqs)) ≤ MAX →
  lookup_ (insert_all seqs s) = lookup_ s ∪ list_to_set seqs.
Proof.
  unfold insert_all. revert s. induction seqs as [|x seqs IH]; intros s H Hs; simpl.
  - set_solver.
  - assert (Hi : lookup_ (insert x s) = {[x]} ∪ lookup_ s).
    { unfold insert. case_bool_decide as Hin; [set_solver|].
      destruct (MAX <=? zlen (order_ s)) eqn:E; reflect_bools; [|done].
      exfalso. assert (size (lookup_ s) = length (order_ s)) as Hsz
        by (rewrite (inv_lookup s H); apply size_list_to_set, (inv_nodup s H)).
      assert (size ({[x]} ∪ lookup_ s) ≤ size (lookup_ s ∪ list_to_set (x :: seqs)))%nat
        by (apply subseteq_size; simpl; set_solver).
      rewrite size_union, size_singleton in * by set_solver. lia. }
    rewrite IH; [rewrite Hi; set_solver|by apply insert_inv|].
    rewrite Hi. simpl in Hs. by replace ({[x]} ∪ lookup_ s ∪ list_to_set seqs)
      with (lookup_ s ∪ ({[x]} ∪ list_to_set seqs)) by set_solver.
Qed.

Lemma insert_lookup_self seq s : seq ∈ lookup_ (insert seq s).
Proof.
  unfold insert. case_bool_decide; [done|].
  destruct (MAX <=? _), (order_ s); simpl; set_solver.
Qed.

(** Inserting anything leaves the set non-empty. *)
Lemma insert_all_nonempty seqs s : is_empty (insert_all seqs s) = true → seqs = [].
Proof.
  unfold is_empty. intros H. reflect_bools. destruct seqs as [|x seqs] using rev_ind; [done|].
  unfold insert_all in H. rewrite fold_left_app in H. simpl in H.
  pose proof (insert_lookup_self x (fold_left (λ acc seq, insert seq acc) seqs s)) as Hx.
  rewrite H in Hx. set_solver.
Qed.

(** Below the bound an insertion evicts nothing. *)
Lemma insert_contains n s m :
  zlen (order_ s) < MAX → contains (insert n s) m = bool_decide (m = n) || contains s m.
Proof.
  intros Hlt. assert (Hl : ∀ x, x ∈ lookup_ (insert n s) ↔ x = n ∨ x ∈ lookup_ s).
  { intros x. unfold insert. case_bool_decide; [naive_solver|]. zbranch. cbn [lookup_]. set_solver. }
  unfold contains. rewrite (bool_decide_ext _ _ (Hl m)). by rewrite bool_decide_or.
Qed.

(** ** Theorems *)

(** C32: Invariant and refinement: from the empty set, after any sequence of
    insertions, the hash set holds exactly the FIFO's entries, the FIFO has no
    duplicate and at most [MAX] entries, and it is the window the specification
    computes from the same insertions; [contains] answers membership in it. *)
Theorem acks_refine_window seqs :
  let s := insert_all seqs empty_acks in
  let w := fold_left (λ w seq, window_insert seq w) seqs [] in
  acks_inv s ∧ order_ s = w ∧ (∀ x, contains s x = bool_decide (x ∈ w)).
Proof.
  simpl. set (s := insert_all seqs empty_acks).
  assert (Hs : acks_inv s) by apply insert_all_inv, empty_inv.
  assert (Ho : order_ s = fold_left (λ w seq, window_insert seq w) seqs [])
    by apply (insert_all_order seqs empty_acks), empty_inv.
  split; [done|]. split; [done|]. intros x. unfold contains. rewrite <-Ho.
  apply bool_decide_ext. by apply lookup_order.
Qed.

(** Content and high-water mark: with at most [MAX] distinct numbers inserted,
    nothing is lost and nothing else is there; [max_seq] is the maximum of all
    insertions, evicted ones included. *)
Theorem acks_complete seqs :
  let s := insert_all seqs empty_acks in
  max_seq s = foldr Z.max 0 seqs ∧
  (Z.of_nat (size (list_to_set seqs : gset Z)) ≤ MAX → ∀ x, contains s x = bool_decide (x ∈ seqs)).
Proof.
  simpl. split; [apply (insert_all_max seqs empty_acks), empty_inv|].
  intros Hs x. unfold contains. rewrite insert_all_lookup.
  - apply bool_decide_ext. simpl. set_solver.
  - apply empty_inv.
  - simpl. by rewrite union_empty_l_L.
Qed.

Lemma acks_complete_witness :
  contains (insert_all [7; 3; 7; 9] empty_acks) 3 = true ∧
  contains (insert_all [7; 3; 7; 9] empty_acks) 4 = false.
Proof.
  pose proof (proj2 (acks_complete [7; 3; 7; 9]) ltac:(vm_compute; discriminate)) as H.
  split; [rewrite (H 3)|rewrite (H 4)]; vm_compute; reflexivity.
Defined.

(** Eviction: inserting a new number into a full set forgets exactly the
    oldest entry and keeps every other one. *)
Theorem acks_evict_oldest s front rest seq :
  acks_inv s → order_ s = front :: rest → zlen (order_ s) = MAX → seq ∉ order_ s →
  let s' := insert seq s in
  order_ s' = rest ++ [seq] ∧ contains s' front = false ∧
  (∀ x, x ∈ rest → contains s' x = true) ∧ contains s' seq = true.
Proof.
  intros Hinv Eo Hlen Hnew. simpl.
  assert (Ho := insert_order seq _ Hinv). unfold window_insert in Ho.
  rewrite bool_decide_false, Hlen, Z.leb_refl, Eo in Ho by done. simpl in Ho.
  assert (Hc : ∀ x, contains (insert seq s) x = bool_decide (x ∈ rest ++ [seq])).
  { intros x. unfold contains. apply bool_decide_ext.
    rewrite lookup_order by by apply insert_inv. by rewrite Ho. }
  pose proof (inv_nodup _ Hinv) as Hn. rewrite Eo in Hn, Hnew. apply NoDup_cons in Hn as [Hf _].
  split; [done|]. rewrite !Hc. split; [|split].
  - apply bool_decide_eq_false. set_solver.
  - intros x Hx. rewrite Hc. apply bool_decide_eq_true. set_solver.
  - apply bool_decide_eq_true. set_solver.
Qed.

(** A full set: the first ten thousand sequence numbers. *)
Definition full_acks : BoundedAckSet :=
  mkAcks (seqZ 1 10000) (list_to_set (seqZ 1 10000)) 10000.

Lemma full_acks_inv : acks_inv full_acks.
Proof.
  split; cbn [order_ lookup_ max_seq_ full_acks]; [done|apply NoDup_seqZ| | |lia].
  - rewrite length_seqZ. unfold MAX. lia.
  - intros x. rewrite elem_of_seqZ. lia.
Qed.

Lemma full_acks_order :
  order_ full_acks = 1 :: seqZ 2 9999 ∧ zlen (order_ full_acks) = MAX ∧ 10001 ∉ order_ full_acks.
Proof.
  cbn [order_ full_acks]. split; [apply (seqZ_cons 1 10000); lia|].
  rewrite length_seqZ, elem_of_seqZ. unfold MAX. lia.
Qed.

Lemma acks_evict_oldest_witness :
  order_ (insert 10001 full_acks) = seqZ 2 9999 ++ [10001] ∧
  contains (insert 10001 full_acks) 1 = false.
Proof.
  destruct (acks_evict_oldest full_acks 1 (seqZ 2 9999) 10001 full_acks_inv
    (proj1 full_acks_order) (proj1 (proj2 full_acks_order)) (proj2 (proj2 full_acks_order)))
    as (H1 & H2 & _).
  exact (conj H1 H2).
Defined.

End Acks.
