(* ===== verification/Lmdb.v ===== *)
(** * Lmdb: the key-value engine the storage layer calls

    LMDB is not part of the repository: its calls are the operations of the
    class [LmdbOps], what the code relies on is [LmdbLaws] (the documented
    behaviour of a successful call on the keys it accepts: snapshot reads, put, delete, atomic commit,
    and a cursor that visits keys in [memcmp] order). Every call may fail: a
    full map, a full disk or an I/O error are answers like others. [MemLmdb]
    and [BoundedLmdb] implement the interface on finite maps, the second with a
    full-map error. *)

From S2P Require Import Prelude Text.

Abbreviation entry := (bytes * bytes)%type.

(** ** Operations

    A call that returns a non-zero code is [None] (or [false]). A cursor is its
    current key; [mdb_cursor_next] moves to the next greater key. *)
Class LmdbOps (env txn : Type) := {
  mdb_env_create : bool;
  mdb_env_open : bytes → option env;
  mdb_dbi_open : txn → option txn;
  mdb_txn_begin : env → bool → option txn;          (* the flag is MDB_RDONLY *)
  mdb_txn_commit : env → txn → option env;
  mdb_get : txn → bytes → option bytes;
  mdb_put : txn → bytes → bytes → option txn;
  mdb_del : txn → bytes → option txn;
  mdb_cursor_open : txn → bool;
  mdb_cursor_set_range : txn → bytes → option entry; (* MDB_SET_RANGE *)
  mdb_cursor_next : txn → bytes → option entry;      (* MDB_NEXT *)
  mdb_stat_entries : txn → nat                       (* ms_entries *)
}.

(** The least entry of [m] whose key satisfies [P], if there is one. *)
Definition least_from (P : bytes → Prop) (m : gmap bytes bytes) (r : option entry) : Prop :=
  match r with
  | Some (k, v) => m !! k = Some v ∧ P k ∧ ∀ k', is_Some (m !! k') → P k' → lex_le k k'
  | None => ∀ k', is_Some (m !! k') → ¬ P k'
  end.

(** Keys LMDB accepts: between 1 and [MDB_MAXKEYSIZE] bytes. *)
Definition MDB_MAXKEYSIZE : nat := 511.
Definition legal_key (k : bytes) : bool :=
  Nat.leb 1 (length k) && Nat.leb (length k) MDB_MAXKEYSIZE.

Class LmdbLaws (env txn : Type) `{LmdbOps env txn} := {
  env_view : env → gmap bytes bytes;
  txn_view : txn → gmap bytes bytes;
  dbi_open_view t t' : mdb_dbi_open t = Some t' → txn_view t' = txn_view t;
  begin_view e ro t : mdb_txn_begin e ro = Some t → txn_view t = env_view e;
  commit_view e t e' : mdb_txn_commit e t = Some e' → env_view e' = txn_view t;
  get_view t k : legal_key k = true → mdb_get t k = txn_view t !! k;
  put_view t k v t' : mdb_put t k v = Some t' → txn_view t' = <[k := v]> (txn_view t);
  del_view t k t' : mdb_del t k = Some t' → txn_view t' = delete k (txn_view t);
  set_range_view t k : k ≠ [] → least_from (lex_le k) (txn_view t) (mdb_cursor_set_range t k);
  next_view t k : least_from (lex_lt k) (txn_view t) (mdb_cursor_next t k);
  stat_view t : mdb_stat_entries t = size (txn_view t)
}.

(** ** Walking a cursor

    [while (rc == 0) { body; rc = mdb_cursor_get(cursor, NEXT); }], where the
    body says whether to go on. *)
Fixpoint cursor_loop `{LmdbOps env txn} {S : Type} (fuel : nat) (t : txn)
    (cur : option entry) (body : S → entry → outcome (S * bool)) (s : S) : outcome S :=
  match cur with
  | None => Ret s
  | Some e =>
      match fuel with
      | O => Diverge
      | Datatypes.S f =>
          let! r := body s e in
          if snd r then cursor_loop f t (mdb_cursor_next t (fst e)) body (fst r)
          else Ret (fst r)
      end
  end.

(** The same body over a list of entries. *)
Fixpoint scan {S : Type} (l : list entry) (body : S → entry → outcome (S * bool)) (s : S)
    : outcome S :=
  match l with
  | [] => Ret s
  | e :: l' =>
      let! r := body s e in
      if snd r then scan l' body (fst r) else Ret (fst r)
  end.

(** ** Entries in key order *)

Definition entry_le (a b : entry) : Prop := lex_le (fst a) (fst b).
#[export] Instance entry_le_dec : RelDecision entry_le.
Proof. intros a b. unfold entry_le. apply _. Defined.
#[export] Instance entry_le_total : Total entry_le.
Proof. intros a b. apply (total lex_le). Qed.
#[export] Instance entry_le_trans : Transitive entry_le.
Proof. intros a b c. apply (transitivity (R := lex_le)). Qed.

Definition sorted_entries (m : gmap bytes bytes) : list entry :=
  merge_sort entry_le (map_to_list m).

Definition entries_from (k : bytes) (m : gmap bytes bytes) : list entry :=
  filter (λ e, lex_le k (fst e)) (sorted_entries m).

Lemma elem_of_sorted_entries m k v : (k, v) ∈ sorted_entries m ↔ m !! k = Some v.
Proof.
  unfold sorted_entries. rewrite (merge_sort_Permutation entry_le). apply elem_of_map_to_list.
Qed.

Lemma elem_of_entries_from k m e :
  e ∈ entries_from k m ↔ m !! fst e = Some (snd e) ∧ lex_le k (fst e).
Proof.
  unfold entries_from. rewrite list_elem_of_filter. destruct e as [x v].
  rewrite elem_of_sorted_entries. simpl. tauto.
Qed.

Definition strictly_sorted : list entry → Prop := StronglySorted (λ a b, lex_lt (fst a) (fst b)).

Lemma StronglySorted_strict l :
  StronglySorted entry_le l → NoDup (l.*1) → strictly_sorted l.
Proof.
  unfold strictly_sorted. induction 1 as [|a l Hl IH Ha]; intros Hn; [constructor|].
  apply NoDup_cons in Hn as [Hni Hn]. constructor; [auto|].
  rewrite Forall_forall in *. intros b Hb. split; [by apply Ha|].
  intros E. apply Hni. rewrite E. by apply list_elem_of_fmap_2.
Qed.

Lemma StronglySorted_filter {A} (R : A → A → Prop) (P : A → Prop) `{∀ x, Decision (P x)} l :
  StronglySorted R l → StronglySorted R (filter P l).
Proof.
  induction 1 as [|a l Hl IH Ha]; [constructor|]. rewrite filter_cons.
  case_decide; [|done]. constructor; [done|].
  rewrite Forall_forall in *. intros b [_ Hb]%list_elem_of_filter. auto.
Qed.

Lemma sorted_entries_strict m : strictly_sorted (sorted_entries m).
Proof.
  apply StronglySorted_strict; [by apply StronglySorted_merge_sort; apply _|].
  unfold sorted_entries. rewrite (merge_sort_Permutation entry_le). apply NoDup_fst_map_to_list.
Qed.

Lemma entries_from_strict k m : strictly_sorted (entries_from k m).
Proof. apply StronglySorted_filter, sorted_entries_strict. Qed.

Lemma entries_from_length k m : (length (entries_from k m) ≤ size m)%nat.
Proof.
  unfold entries_from. etrans; [apply length_filter|]. unfold sorted_entries.
  by rewrite (merge_sort_Permutation entry_le), length_map_to_list.
Qed.

(** ** A cursor walk is a scan of the sorted entries *)

Section walk.
Context `{LmdbLaws env txn}.

Lemma cursor_loop_list {S} (l : list entry) (P : bytes → Prop) fuel t cur
    (body : S → entry → outcome (S * bool)) s :
  (∀ a b, P a → lex_lt a b → P b) →
  strictly_sorted l →
  (∀ e, e ∈ l ↔ txn_view t !! fst e = Some (snd e) ∧ P (fst e)) →
  least_from P (txn_view t) cur → (length l ≤ fuel)%nat →
  cursor_loop fuel t cur body s = scan l body s.
Proof.
  intros HP Hsort Hl Hcur Hf. revert P fuel cur s HP Hl Hcur Hf.
  induction Hsort as [|e l Hsort IH He]; intros P fuel cur s HP Hl Hcur Hf.
  - destruct cur as [[k v]|]; [|by destruct fuel]. destruct Hcur as (Hk & HPk & _).
    assert ((k, v) ∈ @nil entry) as ?%elem_of_nil by by apply Hl. done.
  - assert (cur = Some e) as ->.
    { destruct (proj1 (Hl e)) as [Hm HPe]; [by constructor|].
      destruct cur as [[k v]|]; [|destruct (Hcur (fst e)); eauto].
      destruct Hcur as (Hk & HPk & Hmin). specialize (Hmin (fst e) ltac:(eauto) HPe).
      assert ((k, v) ∈ e :: l) as [->|Hin]%elem_of_cons by by apply Hl; auto. { done. }
      rewrite Forall_forall in He. apply He in Hin. exfalso.
      apply lex_lt_not_le in Hin. by apply Hin. }
    destruct fuel as [|fuel]; [simpl in Hf; lia|]. simpl.
    destruct (body s e) as [[s' go]| |]; [|done..]. simpl. destruct go; [|done].
    apply (IH (lex_lt (fst e))).
    + intros a b [Ha Hne] [Hb Hne']. split; [by etrans|]. intros E. subst b.
      apply Hne. by apply (anti_symm lex_le).
    + intros x. rewrite Forall_forall in He. split.
      * intros Hx. split; [|by apply He]. by apply Hl; constructor.
      * intros [Hx Hlt]. assert (x ∈ e :: l) as [->|?]%elem_of_cons; [|by destruct Hlt|done].
        apply Hl. split; [done|]. eapply HP; [|done]. by apply (Hl e); constructor.
    + apply next_view.
    + simpl in Hf. lia.
Qed.

(** The walk the storage layer makes: position at the first key not below
    [k], then step. One unit of fuel per entry of the database is enough. *)
Lemma cursor_walk {S} t k (body : S → entry → outcome (S * bool)) s :
  k ≠ [] →
  cursor_loop (mdb_stat_entries t) t (mdb_cursor_set_range t k) body s =
  scan (entries_from k (txn_view t)) body s.
Proof.
  intros Hk. apply (cursor_loop_list _ (lex_le k)).
  - intros a b Ha [Hb _]. by etrans.
  - apply entries_from_strict.
  - intros e. apply elem_of_entries_from.
  - by apply set_range_view.
  - rewrite stat_view. apply entries_from_length.
Qed.
End walk.

(** ** Reference implementations *)

Lemma least_head (P : bytes → Prop) `{∀ k, Decision (P k)} m :
  least_from P m (head (filter (λ e, P (fst e)) (sorted_entries m))).
Proof.
  pose proof (StronglySorted_filter _ (λ e, P (fst e)) _ (sorted_entries_strict m)) as Hs.
  assert (Hl : ∀ e, e ∈ filter (λ e, P (fst e)) (sorted_entries m) ↔ m !! fst e = Some (snd e) ∧ P (fst e)).
  { intros [k v]. rewrite list_elem_of_filter, elem_of_sorted_entries. simpl. tauto. }
  destruct (filter _ _) as [|[k v] l]; simpl.
  - intros k [v Hv] HP. assert ((k, v) ∈ @nil entry) as ?%elem_of_nil by by apply Hl. done.
  - destruct (proj1 (Hl (k, v))) as [Hk HP]; [by constructor|].
    repeat split; [done|done|]. intros k' [v' Hv'] HP'.
    assert ((k', v') ∈ (k, v) :: l) as [[= -> ->]|Hin]%elem_of_cons by (by apply Hl); [done|].
    inversion Hs as [|? ? _ HF]; subst. rewrite Forall_forall in HF.
    by destruct (HF _ Hin).
Qed.

(** An unbounded in-memory engine. *)
Abbreviation MemLmdb := (gmap bytes bytes).

#[export] Instance mem_ops : LmdbOps MemLmdb MemLmdb := {
  mdb_env_create := true;
  mdb_env_open _ := Some ∅;
  mdb_dbi_open t := Some t;
  mdb_txn_begin e _ := Some e;
  mdb_txn_commit _ t := Some t;
  mdb_get t k := t !! k;
  mdb_put t k v := if legal_key k then Some (<[k := v]> t) else None;
  mdb_del t k := match t !! k with Some _ => Some (delete k t) | None => None end;
  mdb_cursor_open _ := true;
  mdb_cursor_set_range t k := head (entries_from k t);
  mdb_cursor_next t k := head (filter (λ e, lex_lt k (fst e)) (sorted_entries t));
  mdb_stat_entries t := size t
}.

#[export] Instance mem_laws : LmdbLaws MemLmdb MemLmdb.
Proof.
  refine (Build_LmdbLaws MemLmdb MemLmdb mem_ops (λ e, e) (λ t, t) _ _ _ _ _ _ _ _ _).
  - by intros t t' [= ->].
  - by intros e ro t [= ->].
  - by intros e t e' [= ->].
  - done.
  - intros t k v t'. simpl. by destruct (legal_key k); intros; simplify_eq.
  - intros t k t'. simpl. by destruct (lookup k t); intros; simplify_eq.
  - intros t k _. apply least_head.
  - intros t k. apply least_head.
  - done.
Defined.

(** The same engine with a map of [cap] entries: a put of a new key into a full
    map fails, as [MDB_MAP_FULL]. *)
Record BoundedLmdb := mkBounded { bounded_data : gmap bytes bytes; bounded_cap : nat }.

#[export] Instance bounded_ops : LmdbOps BoundedLmdb BoundedLmdb := {
  mdb_env_create := true;
  mdb_env_open _ := Some (mkBounded ∅ 0);
  mdb_dbi_open t := Some t;
  mdb_txn_begin e _ := Some e;
  mdb_txn_commit _ t := Some t;
  mdb_get t k := bounded_data t !! k;
  mdb_put t k v :=
    if legal_key k &&
       (bool_decide (is_Some (bounded_data t !! k)) ||
        Nat.leb (Datatypes.S (size (bounded_data t))) (bounded_cap t))
    then Some (mkBounded (<[k := v]> (bounded_data t)) (bounded_cap t)) else None;
  mdb_del t k :=
    match bounded_data t !! k with
    | Some _ => Some (mkBounded (delete k (bounded_data t)) (bounded_cap t))
    | None => None
    end;
  mdb_cursor_open _ := true;
  mdb_cursor_set_range t k := head (entries_from k (bounded_data t));
  mdb_cursor_next t k := head (filter (λ e, lex_lt k (fst e)) (sorted_entries (bounded_data t)));
  mdb_stat_entries t := size (bounded_data t)
}.

#[export] Instance bounded_laws : LmdbLaws BoundedLmdb BoundedLmdb.
Proof.
  refine (Build_LmdbLaws BoundedLmdb BoundedLmdb bounded_ops bounded_data bounded_data _ _ _ _ _ _ _ _ _).
  - by intros t t' [= ->].
  - by intros e ro t [= ->].
  - by intros e t e' [= ->].
  - done.
  - intros t k v t'. simpl. by destruct (legal_key k && _); intros; simplify_eq.
  - intros t k t'. simpl. by destruct (bounded_data t !! k); intros; simplify_eq.
  - intros t k _. apply least_head.
  - intros t k. apply least_head.
  - done.
Defined.
