(* ===== verification/Storage.v ===== *)
(** * Storage: [src/storage/LmdbStorage.cpp]

    Every method of [LmdbStorage], call by call over the interface of
    [Lmdb.v], with its early returns, the two cursor loops that read, the two
    that collect keys to delete, and the exceptions of [std::stoull] where the
    source does not catch them. A specification on finite maps and the
    refinement between the two follow. *)

From S2P Require Import Prelude Text BinaryProtocol Lmdb.

Module Storage.

(** ** Representation *)

(** The eight bytes of a [uint64_t] in memory (little endian). *)
Definition u64_bytes (v : Z) : bytes := reverse (be_encode 8 v).
Definition u64_of_bytes (l : bytes) : Z := be_decode (reverse l).

(** A string literal used as a [const char *] ends at its first NUL. *)
Fixpoint c_str (s : bytes) : bytes :=
  match s with
  | [] => []
  | c :: s' => if char_code c =? 0 then [] else c :: c_str s'
  end.

Definition NUL : char := char_of 0.
Definition COLON : char := char_of 58.

Definition last_key : bytes := lit "last_seq".
Definition msg_prefix : bytes := lit "msg:".
Definition ack_prefix : bytes := lit "ack:".

(** ["msg:" + std::to_string(seq)] *)
Definition msg_key (seq : Z) : bytes := msg_prefix ++ to_string seq.

(** [topic + "\x00" + payload] *)
Definition msg_data (topic payload : bytes) : bytes := topic ++ c_str [NUL] ++ payload.

(** ["ack:" + client_id + ":"] and the key of one ACK. *)
Definition ack_client_prefix (client_id : bytes) : bytes := ack_prefix ++ client_id ++ [COLON].
Definition ack_key (client_id : bytes) (seq : Z) : bytes :=
  ack_client_prefix client_id ++ to_string seq.

(** A message as [load_range] returns it: sequence, topic, payload. *)
Definition stored : Type := Z * bytes * bytes.

(** ** Loop bodies *)

Definition load_range_body (to : Z) (acc : list stored) (e : entry)
    : outcome (list stored * bool) :=
  let '(key, data) := e in
  if negb (bool_decide (take 4 key = msg_prefix)) then Ret (acc, true)
  else
    match stoull (drop 4 key) with
    | None => Throw "std::stoull"
    | Some seq_id =>
        if to <? seq_id then Ret (acc, false)
        else
          match find_first [NUL] data with
          | Some sep => Ret (acc ++ [(seq_id, take sep data, drop (sep + 1) data)], true)
          | None => Ret (acc, true)
          end
    end.

Definition load_acks_body (prefix : bytes) (acks : gset Z) (e : entry)
    : outcome (gset Z * bool) :=
  let key := fst e in
  if negb (bool_decide (take (length prefix) key = prefix)) then Ret (acks, false)
  else
    match stoull (drop (length prefix) key) with
    | Some seq => Ret ({[seq]} ∪ acks, true)
    | None => Ret (acks, true)
    end.

Definition compact_body (max_seq : Z) (to_delete : list bytes) (e : entry)
    : outcome (list bytes * bool) :=
  let k := fst e in
  if (zlen k <? 4) || negb (bool_decide (take 4 k = msg_prefix)) then Ret (to_delete, false)
  else
    match stoull (drop 4 k) with
    | Some seq => Ret (if seq <=? max_seq then to_delete ++ [k] else to_delete, true)
    | None => Ret (to_delete, true)
    end.

Definition purge_body (max_seq : Z) (to_delete : list bytes) (e : entry)
    : outcome (list bytes * bool) :=
  let k := fst e in
  if (zlen k <? 4) || negb (bool_decide (take 4 k = ack_prefix)) then Ret (to_delete, false)
  else
    match rfind COLON k with
    | Some last_colon =>
        if Nat.leb last_colon 3 then Ret (to_delete, true)
        else
          match stoull (drop (last_colon + 1) k) with
          | Some seq => Ret (if seq <=? max_seq then to_delete ++ [k] else to_delete, true)
          | None => Ret (to_delete, true)
          end
    | None => Ret (to_delete, true)
    end.

(** ** Methods *)

Section methods.
Context `{LmdbOps env txn}.

(** [LmdbStorage(db_path)] *)
Definition open_storage (db_path : bytes) : outcome env :=
  if negb mdb_env_create then Throw "Failed to create LMDB environment" else
  match mdb_env_open db_path with
  | None => Throw "Failed to open LMDB environment"
  | Some e =>
      match mdb_txn_begin e false with
      | None => Throw "Failed to begin transaction"
      | Some t =>
          match mdb_dbi_open t with
          | None => Throw "Failed to open database"
          | Some t' =>
              match mdb_txn_commit e t' with
              | None => Throw "Failed to commit init transaction"
              | Some e' => Ret e'
              end
          end
      end
  end.

(** The parameter [seq] is not used by the source either. *)
Definition save (e : env) (seq : Z) (topic payload : bytes) : env :=
  match mdb_txn_begin e false with
  | None => e
  | Some t =>
      let next_seq :=
        match mdb_get t last_key with
        | Some val => if zlen val =? 8 then u64 (u64_of_bytes val + 1) else 1
        | None => 1
        end in
      match mdb_put t (msg_key next_seq) (msg_data topic payload) with
      | None => e
      | Some t1 =>
          match mdb_put t1 last_key (u64_bytes next_seq) with
          | None => e
          | Some t2 => default e (mdb_txn_commit e t2)
          end
      end
  end.

Definition load_range (e : env) (from to : Z) : outcome (list stored) :=
  match mdb_txn_begin e true with
  | None => Ret []
  | Some t =>
      if negb (mdb_cursor_open t) then Ret []
      else cursor_loop (mdb_stat_entries t) t (mdb_cursor_set_range t (msg_key from))
             (load_range_body to) []
  end.

Definition get_last_seq (e : env) : Z :=
  match mdb_txn_begin e true with
  | None => 0
  | Some t =>
      match mdb_get t last_key with
      | Some val => if zlen val =? 8 then u64_of_bytes val else 0
      | None => 0
      end
  end.

Definition save_ack (e : env) (client_id : bytes) (sequence : Z) : env :=
  match mdb_txn_begin e false with
  | None => e
  | Some t =>
      match mdb_put t (ack_key client_id sequence) (lit "1") with
      | None => e
      | Some t1 => default e (mdb_txn_commit e t1)
      end
  end.

Definition load_acks (e : env) (client_id : bytes) : outcome (gset Z) :=
  match mdb_txn_begin e true with
  | None => Ret ∅
  | Some t =>
      if negb (mdb_cursor_open t) then Ret ∅
      else
        let prefix := ack_client_prefix client_id in
        cursor_loop (mdb_stat_entries t) t (mdb_cursor_set_range t prefix)
          (load_acks_body prefix) ∅
  end.

(** [mdb_del] of each collected key; a failure is ignored. *)
Definition delete_keys (t : txn) (ks : list bytes) : txn :=
  fold_left (λ t k, default t (mdb_del t k)) ks t.

(** The shape [compact] and [purge_old_acks] share: collect, delete, commit. *)
Definition sweep (e : env) (max_seq : Z) (prefix : bytes)
    (body : Z → list bytes → entry → outcome (list bytes * bool)) : outcome env :=
  if max_seq =? 0 then Ret e else
  match mdb_txn_begin e false with
  | None => Ret e
  | Some t =>
      if negb (mdb_cursor_open t) then Ret e
      else
        let! to_delete := cursor_loop (mdb_stat_entries t) t (mdb_cursor_set_range t prefix)
                            (body max_seq) [] in
        Ret (default e (mdb_txn_commit e (delete_keys t to_delete)))
  end.

Definition compact (e : env) (max_seq_to_delete : Z) : outcome env :=
  sweep e max_seq_to_delete msg_prefix compact_body.

Definition purge_old_acks (e : env) (max_seq_to_delete : Z) : outcome env :=
  sweep e max_seq_to_delete ack_prefix purge_body.

(** ** Which calls succeeded

    The methods return nothing: whether [mdb_put] hit a full map or the commit
    an I/O error shows only in these, which repeat the calls of a method and
    answer whether all of them returned 0. *)

Definition save_ok (e : env) (topic payload : bytes) : bool :=
  match mdb_txn_begin e false with
  | None => false
  | Some t =>
      let next_seq :=
        match mdb_get t last_key with
        | Some val => if zlen val =? 8 then u64 (u64_of_bytes val + 1) else 1
        | None => 1
        end in
      match mdb_put t (msg_key next_seq) (msg_data topic payload) with
      | None => false
      | Some t1 =>
          match mdb_put t1 last_key (u64_bytes next_seq) with
          | None => false
          | Some t2 => bool_decide (is_Some (mdb_txn_commit e t2))
          end
      end
  end.

Definition ack_ok (e : env) (client_id : bytes) (sequence : Z) : bool :=
  match mdb_txn_begin e false with
  | None => false
  | Some t =>
      match mdb_put t (ack_key client_id sequence) (lit "1") with
      | None => false
      | Some t1 => bool_decide (is_Some (mdb_txn_commit e t1))
      end
  end.

(** A read transaction with its cursor. *)
Definition readable (e : env) : bool :=
  match mdb_txn_begin e true with Some t => mdb_cursor_open t | None => false end.

Fixpoint deletes_ok (t : txn) (ks : list bytes) : bool :=
  match ks with
  | [] => true
  | k :: ks => match mdb_del t k with Some t' => deletes_ok t' ks | None => false end
  end.

Definition sweep_ok (e : env) (max_seq : Z) (prefix : bytes)
    (body : Z → list bytes → entry → outcome (list bytes * bool)) : bool :=
  match mdb_txn_begin e false with
  | None => false
  | Some t =>
      mdb_cursor_open t &&
      match cursor_loop (mdb_stat_entries t) t (mdb_cursor_set_range t prefix) (body max_seq) [] with
      | Ret ks => deletes_ok t ks && bool_decide (is_Some (mdb_txn_commit e (delete_keys t ks)))
      | _ => false
      end
  end.

Definition compact_ok (e : env) (max_seq : Z) : bool := sweep_ok e max_seq msg_prefix compact_body.
Definition purge_ok (e : env) (max_seq : Z) : bool := sweep_ok e max_seq ack_prefix purge_body.
End methods.

(** ** Specification on finite maps *)

Definition m_last (m : gmap bytes bytes) : Z :=
  match m !! last_key with
  | Some val => if zlen val =? 8 then u64_of_bytes val else 0
  | None => 0
  end.

Definition m_next (m : gmap bytes bytes) : Z :=
  match m !! last_key with
  | Some val => if zlen val =? 8 then u64 (u64_of_bytes val + 1) else 1
  | None => 1
  end.

(** One message and the counter, both or none. *)
Definition m_save (m : gmap bytes bytes) (topic payload : bytes) : gmap bytes bytes :=
  <[last_key := u64_bytes (m_next m)]> (<[msg_key (m_next m) := msg_data topic payload]> m).

(** The sequence number in a message key, and in an ACK key (after the last
    colon, which must come after the prefix). *)
Definition msg_seq (k : bytes) : option Z :=
  if starts_with k msg_prefix then stoull (drop 4 k) else None.

Definition ack_seq (k : bytes) : option Z :=
  if starts_with k ack_prefix then
    match rfind COLON k with
    | Some i => if Nat.leb i 3 then None else stoull (drop (i + 1) k)
    | None => None
    end
  else None.

Definition ack_seq_of (client_id k : bytes) : option Z :=
  if starts_with k (ack_client_prefix client_id)
  then stoull (drop (length (ack_client_prefix client_id)) k) else None.

Definition doomed (f : bytes → option Z) (max_seq : Z) (k : bytes) : bool :=
  match f k with Some s => s <=? max_seq | None => false end.

(** Deletion of the records at or below a threshold. *)
Definition m_sweep (f : bytes → option Z) (max_seq : Z) (m : gmap bytes bytes) : gmap bytes bytes :=
  filter (λ kv, doomed f max_seq (fst kv) = false) m.

(** How [load_range] reads one record. *)
Definition decode_record (seq : Z) (data : bytes) : list stored :=
  match find_first [NUL] data with
  | Some sep => [(seq, take sep data, drop (sep + 1) data)]
  | None => []
  end.

(** Every key was written by this layer. *)
Definition key_wf (k : bytes) : Prop :=
  k = last_key ∨ (∃ n, 0 ≤ n < 2 ^ 64 ∧ k = msg_key n) ∨
  (∃ c n, 0 ≤ n < 2 ^ 64 ∧ k = ack_key c n).

Definition store_wf (m : gmap bytes bytes) : Prop :=
  (∀ k, is_Some (m !! k) → key_wf k) ∧
  (∀ v, m !! last_key = Some v → length v = 8%nat).

(** ** Fields of keys and records *)

Lemma u64_bytes_roundtrip v : 0 ≤ v < 2 ^ 64 → u64_of_bytes (u64_bytes v) = v.
Proof.
  intros Hv. unfold u64_of_bytes, u64_bytes.
  rewrite reverse_involutive, be_decode_encode. by apply Z.mod_small.
Qed.

Lemma u64_bytes_length v : length (u64_bytes v) = 8%nat.
Proof. unfold u64_bytes. by rewrite length_reverse, length_be_encode. Qed.

Lemma u64_of_bytes_range l : length l = 8%nat → 0 ≤ u64_of_bytes l < 2 ^ 64.
Proof.
  intros Hl. unfold u64_of_bytes. pose proof (be_decode_range (reverse l)) as Hr.
  rewrite length_reverse, Hl in Hr. done.
Qed.

Lemma take4_prefix p k : length p = 4%nat → bool_decide (take 4 k = p) = starts_with k p.
Proof. intros <-. apply starts_with_take. Qed.

Lemma msg_seq_key n : 0 ≤ n < 2 ^ 64 → msg_seq (msg_key n) = Some n.
Proof.
  intros Hn. unfold msg_seq, msg_key. rewrite starts_with_app.
  change 4%nat with (length msg_prefix). rewrite drop_app_length.
  rewrite <-(app_nil_r (to_string n)). by apply stoull_to_string.
Qed.

Lemma msg_key_inj n k : 0 ≤ n < 2 ^ 64 → 0 ≤ k < 2 ^ 64 → msg_key n = msg_key k → n = k.
Proof. intros Hn Hk E%app_inv_head. by apply to_string_inj. Qed.

Lemma rfind_app_digits s ds :
  Forall (λ c, is_digit c = true) ds → rfind COLON (s ++ COLON :: ds) = Some (length s).
Proof.
  intros Hd. assert (Hn : rfind COLON ds = None).
  { induction Hd as [|c ds Hc _ IH]; [done|]. simpl. rewrite IH.
    rewrite bool_decide_false; [done|]. intros ->. by vm_compute in Hc. }
  induction s as [|a s IH]; simpl; [by rewrite Hn|]. by rewrite IH.
Qed.

Lemma ack_seq_key c n : 0 ≤ n < 2 ^ 64 → ack_seq (ack_key c n) = Some n.
Proof.
  intros Hn. unfold ack_seq, ack_key, ack_client_prefix.
  rewrite <-!app_assoc, starts_with_app. simpl ([COLON] ++ _). rewrite app_assoc.
  destruct (to_string_digits n) as [Hd _]; [lia|]. rewrite rfind_app_digits by done.
  rewrite length_app. change (length ack_prefix) with 4%nat. zbranch.
  replace (4 + length c + 1)%nat with (length ((ack_prefix ++ c) ++ [COLON]))
    by (rewrite !length_app; change (length ack_prefix) with 4%nat; simpl; lia).
  change (COLON :: to_string n) with ([COLON] ++ to_string n).
  rewrite app_assoc, drop_app_length, <-(app_nil_r (to_string n)). by apply stoull_to_string.
Qed.

Lemma ack_seq_of_key c n : 0 ≤ n < 2 ^ 64 → ack_seq_of c (ack_key c n) = Some n.
Proof.
  intros Hn. unfold ack_seq_of, ack_key. rewrite starts_with_app, drop_app_length.
  rewrite <-(app_nil_r (to_string n)). by apply stoull_to_string.
Qed.

(** The three kinds of keys are disjoint. *)
Lemma msg_key_not_last n : msg_key n ≠ last_key.
Proof. intros E%(f_equal (take 1)). discriminate E. Qed.
Lemma ack_key_not_last c n : ack_key c n ≠ last_key.
Proof. intros E%(f_equal (take 1)). discriminate E. Qed.
Lemma ack_key_not_msg c n k : ack_key c n ≠ msg_key k.
Proof. intros E%(f_equal (take 1)). discriminate E. Qed.
Lemma msg_seq_ack c n : msg_seq (ack_key c n) = None.
Proof. reflexivity. Qed.
Lemma ack_seq_msg n : ack_seq (msg_key n) = None.
Proof. reflexivity. Qed.

#[local] Hint Resolve msg_key_not_last ack_key_not_last ack_key_not_msg : mq.

(** ** Scanning the keys with a prefix

    In key order the keys that extend a prefix are contiguous, and the first of
    the keys not below the prefix: a loop that stops at the first key without
    the prefix has seen them all. *)

Lemma lex_prefix_convex p a b :
  lex_le p a → lex_le a b → starts_with b p = true → starts_with a p = true.
Proof.
  unfold lex_le. revert a b. induction p as [|c p IH]; intros a b H1 H2 H3; [done|].
  destruct b as [|y b]; [done|]. destruct a as [|x a]; [done|]. simpl in *.
  apply andb_true_iff in H3 as [<-%bool_decide_eq_true H3].
  destruct (char_code c <? char_code x) eqn:E1.
  { by rewrite (proj2 (Z.ltb_ge (char_code x) (char_code c))) in H2 by (reflect_bools; lia). }
  destruct (char_code x <? char_code c) eqn:E2; [done|]. reflect_bools.
  assert (x = c) as -> by (apply char_code_inj; lia). rewrite bool_decide_true by done. simpl. eauto.
Qed.

Lemma scan_prefix {S} p m (f : S → entry → S) (body : S → entry → outcome (S * bool)) s :
  (∀ s e, body s e = if starts_with (fst e) p then Ret (f s e, true) else Ret (s, false)) →
  scan (entries_from p m) body s =
  Ret (fold_left f (filter (λ e, starts_with (fst e) p = true) (entries_from p m)) s).
Proof.
  intros Hbody. assert (Hge : Forall (λ e, lex_le p (fst e)) (entries_from p m)).
  { apply Forall_forall. intros e. rewrite elem_of_entries_from. tauto. }
  pose proof (entries_from_strict p m) as Hs. revert s.
  induction Hs as [|e l Hs IH He]; intros s; [done|].
  apply Forall_cons in Hge as [Hpe Hge]. simpl. rewrite Hbody, filter_cons.
  destruct (starts_with (fst e) p) eqn:E; cbn [obind fst snd].
  - rewrite IH, decide_True by done. done.
  - rewrite decide_False by congruence.
    assert (filter (λ e, starts_with (fst e) p = true) l = []) as ->; [|done].
    rewrite Forall_forall in He. clear IH Hs Hge Hbody.
    induction l as [|e' l IHl]; [done|]. rewrite filter_cons, decide_False; [apply IHl; set_solver|].
    intros Hp. destruct (He e') as [Hle _]; [set_solver|].
    by rewrite (lex_prefix_convex p (fst e) (fst e')) in E.
Qed.

(** What a collecting loop collects. *)
Lemma fold_collect (g : bytes → bool) (l : list entry) acc :
  fold_left (λ acc e, if g (fst e) then acc ++ [fst e] else acc) l acc =
  acc ++ filter (λ k, g k = true) (fst <$> l : list bytes).
Proof.
  revert acc. induction l as [|e l IH]; intros acc; simpl; [by rewrite app_nil_r|].
  rewrite IH, filter_cons. destruct (g (fst e)); [|by rewrite decide_False].
  by rewrite decide_True, <-app_assoc.
Qed.

(** The keys a collecting loop over the prefix [p] returns. *)
Definition swept (f : bytes → option Z) (p : bytes) (max_seq : Z) (m : gmap bytes bytes) : list bytes :=
  filter (λ k, doomed f max_seq k = true)
    (fst <$> filter (λ e : entry, starts_with (fst e) p = true) (entries_from p m)).

Lemma elem_of_swept f p max_seq m k :
  (∀ k, is_Some (f k) → starts_with k p = true) →
  k ∈ swept f p max_seq m ↔ is_Some (m !! k) ∧ doomed f max_seq k = true.
Proof.
  intros Hf. unfold swept. rewrite list_elem_of_filter, list_elem_of_fmap. split.
  - intros [Hd (e & -> & [_ He]%list_elem_of_filter)].
    apply elem_of_entries_from in He as [He _]. eauto.
  - intros [[v Hv] Hd]. split; [done|]. exists (k, v). split; [done|].
    assert (Hp : starts_with k p = true).
    { apply Hf. unfold doomed in Hd. destruct (f k); [eauto|done]. }
    apply list_elem_of_filter. split; [done|]. apply elem_of_entries_from. split; [done|].
    apply starts_with_spec in Hp as [r ->]. apply lex_le_prefix.
Qed.

Lemma scan_compact max_seq m :
  scan (entries_from msg_prefix m) (compact_body max_seq) [] =
  Ret (swept msg_seq msg_prefix max_seq m).
Proof.
  rewrite (scan_prefix msg_prefix m
    (λ acc e, if doomed msg_seq max_seq (fst e) then acc ++ [fst e] else acc)).
  - by rewrite fold_collect.
  - intros acc [k v]. unfold compact_body, doomed, msg_seq. cbn [fst].
    rewrite take4_prefix by done. destruct (starts_with k msg_prefix) eqn:E.
    + apply starts_with_spec in E as [r ->]. rewrite length_app.
      change (length msg_prefix) with 4%nat. zbranch. simpl negb. cbn [orb].
      by destruct (stoull _) as [s|]; [destruct (s <=? max_seq)|].
    + simpl. by rewrite orb_true_r.
Qed.

Lemma scan_purge max_seq m :
  scan (entries_from ack_prefix m) (purge_body max_seq) [] =
  Ret (swept ack_seq ack_prefix max_seq m).
Proof.
  rewrite (scan_prefix ack_prefix m
    (λ acc e, if doomed ack_seq max_seq (fst e) then acc ++ [fst e] else acc)).
  - by rewrite fold_collect.
  - intros acc [k v]. unfold purge_body, doomed, ack_seq. cbn [fst].
    rewrite take4_prefix by done. destruct (starts_with k ack_prefix) eqn:E.
    + apply starts_with_spec in E as [r ->]. rewrite length_app.
      change (length ack_prefix) with 4%nat. zbranch. simpl negb. cbn [orb].
      destruct (rfind COLON _) as [i|]; [|done]. destruct (Nat.leb i 3); [done|].
      by destruct (stoull _) as [s|]; [destruct (s <=? max_seq)|].
    + simpl. by rewrite orb_true_r.
Qed.

Lemma scan_load_acks c m :
  ∃ acks, scan (entries_from (ack_client_prefix c) m) (load_acks_body (ack_client_prefix c)) ∅ = Ret acks ∧
    ∀ x, x ∈ acks ↔ ∃ k, is_Some (m !! k) ∧ ack_seq_of c k = Some x.
Proof.
  set (p := ack_client_prefix c).
  set (f := λ (acks : gset Z) (e : entry),
    match ack_seq_of c (fst e) with Some s => {[s]} ∪ acks | None => acks end).
  eexists. split.
  { apply (scan_prefix p m f). intros acks [k v]. unfold load_acks_body, f, ack_seq_of. cbn [fst].
    rewrite starts_with_take. fold p. destruct (starts_with k p); [|done]. simpl. by destruct (stoull _). }
  assert (Hfold : ∀ l acks x, x ∈ fold_left f l acks ↔ x ∈ acks ∨ ∃ e, e ∈ l ∧ ack_seq_of c (fst e) = Some x).
  { induction l as [|e l IH]; intros acks x; simpl; [set_solver|]. rewrite IH. unfold f at 1.
    destruct (ack_seq_of c (fst e)) eqn:E; set_solver. }
  intros x. rewrite Hfold. split.
  - intros [?|(e & [_ He]%list_elem_of_filter & Hx)]; [set_solver|].
    apply elem_of_entries_from in He as [He _]. eauto.
  - intros (k & [v Hv] & Hx). right. exists (k, v). split; [|done].
    assert (Hp : starts_with k p = true)
      by (unfold ack_seq_of in Hx; fold p in Hx; by destruct (starts_with k p)).
    apply list_elem_of_filter. split; [done|]. apply elem_of_entries_from. split; [done|].
    apply starts_with_spec in Hp as [r ->]. apply lex_le_prefix.
Qed.

(** ** Well-formed stores *)

Lemma store_wf_empty : store_wf ∅.
Proof. split; intros ?; [intros [? ?]|intros ?]; by rewrite ?lookup_empty in *. Qed.

Lemma store_wf_insert (m : gmap bytes bytes) k v :
  store_wf m → key_wf k → (k = last_key → length v = 8%nat) → store_wf (<[k := v]> m).
Proof.
  intros [Hk Hv] Hwf Hlen. split.
  - intros k'. rewrite lookup_insert. case_decide; [by subst|apply Hk].
  - intros v'. rewrite lookup_insert. case_decide; [intros [= <-]; auto|apply Hv].
Qed.

Lemma store_wf_subset (m m' : gmap bytes bytes) :
  store_wf m → (∀ k, m' !! k = m !! k ∨ m' !! k = None) → store_wf m'.
Proof.
  intros [Hk Hv] Hs. split.
  - intros k [v E]. apply Hk. destruct (Hs k) as [E'|E']; rewrite E' in E; [eauto|done].
  - intros v E. apply Hv. destruct (Hs last_key) as [E'|E']; rewrite E' in E; done.
Qed.

Lemma m_next_range m : store_wf m → 0 ≤ m_next m < 2 ^ 64.
Proof.
  intros [_ Hv]. unfold m_next. destruct (m !! last_key) as [v|] eqn:E; [|lia].
  destruct (zlen v =? 8); [apply u64_range|lia].
Qed.

Lemma m_save_wf m t p : store_wf m → store_wf (m_save m t p).
Proof.
  intros Hwf. pose proof (m_next_range m Hwf). unfold m_save.
  apply store_wf_insert; [apply store_wf_insert|by left|intros _; apply u64_bytes_length].
  - done.
  - right; left. eauto.
  - intros E. by apply msg_key_not_last in E.
Qed.

Lemma store_wf_ack (m : gmap bytes bytes) c n v : store_wf m → 0 ≤ n < 2 ^ 64 → store_wf (<[ack_key c n := v]> m).
Proof.
  intros Hwf Hn. apply store_wf_insert; [done| |intros E; by apply ack_key_not_last in E].
  right; right. eauto.
Qed.

Lemma m_last_range m : store_wf m → 0 ≤ m_last m < 2 ^ 64.
Proof.
  intros [_ Hv]. unfold m_last. destruct (m !! last_key) as [v|] eqn:E; [|lia].
  specialize (Hv v eq_refl). rewrite Hv. simpl. by apply u64_of_bytes_range.
Qed.

Lemma m_next_last m : store_wf m → m_next m = u64 (m_last m + 1).
Proof.
  intros [_ Hv]. unfold m_next, m_last. destruct (m !! last_key) as [v|] eqn:E; [|done].
  by rewrite (Hv v eq_refl).
Qed.

Lemma m_last_save m t p : store_wf m → m_last (m_save m t p) = m_next m.
Proof.
  intros Hwf. unfold m_last, m_save. rewrite lookup_insert_eq, u64_bytes_length. simpl.
  by apply u64_bytes_roundtrip, m_next_range.
Qed.

Lemma m_last_other (m : gmap bytes bytes) k v : k ≠ last_key → m_last (<[k := v]> m) = m_last m.
Proof. intros Hk. unfold m_last. by rewrite lookup_insert_ne. Qed.

Lemma m_sweep_lookup f mx m k :
  m_sweep f mx m !! k = if doomed f mx k then None else m !! k.
Proof.
  unfold m_sweep. destruct (doomed f mx k) eqn:E.
  - apply map_lookup_filter_None. right. intros v _ Hd. simpl in Hd. congruence.
  - destruct (m !! k) as [v|] eqn:Ek.
    + by apply map_lookup_filter_Some.
    + apply map_lookup_filter_None. by left.
Qed.

(** ** Refinement: whatever the engine answers *)

Section laws.
Context `{LmdbLaws env txn}.

Lemma save_cases e seq topic payload :
  env_view (save e seq topic payload) = env_view e ∨
  env_view (save e seq topic payload) = m_save (env_view e) topic payload.
Proof.
  unfold save. destruct (mdb_txn_begin e false) as [t|] eqn:Et; [|by left].
  apply begin_view in Et. rewrite get_view, Et by done. fold (m_next (env_view e)).
  destruct (mdb_put t _ _) as [t1|] eqn:E1; [|by left].
  destruct (mdb_put t1 _ _) as [t2|] eqn:E2; [|by left].
  destruct (mdb_txn_commit e t2) as [e'|] eqn:E3; [|by left]. right. simpl.
  by rewrite (commit_view _ _ _ E3), (put_view _ _ _ _ E2), (put_view _ _ _ _ E1), Et.
Qed.

Lemma save_ack_cases e c n :
  env_view (save_ack e c n) = env_view e ∨
  env_view (save_ack e c n) = <[ack_key c n := lit "1"]> (env_view e).
Proof.
  unfold save_ack. destruct (mdb_txn_begin e false) as [t|] eqn:Et; [|by left].
  destruct (mdb_put t _ _) as [t1|] eqn:E1; [|by left].
  destruct (mdb_txn_commit e t1) as [e'|] eqn:E3; [|by left]. right. simpl.
  by rewrite (commit_view _ _ _ E3), (put_view _ _ _ _ E1), (begin_view _ _ _ Et).
Qed.

Lemma delete_keys_cases t ks k :
  txn_view (delete_keys t ks) !! k = txn_view t !! k ∨
  (k ∈ ks ∧ txn_view (delete_keys t ks) !! k = None).
Proof.
  unfold delete_keys. revert t. induction ks as [|x ks IH]; intros t; simpl; [by left|].
  destruct (IH (default t (mdb_del t x))) as [E|[Hk E]]; [|by right; split; [constructor|]].
  destruct (mdb_del t x) as [t'|] eqn:Ed; simpl in *; [|by left]. rewrite E.
  rewrite (del_view _ _ _ Ed), lookup_delete. case_decide; [|by left].
  right. subst. split; [by constructor|done].
Qed.

Lemma save_cases_wf e seq topic payload :
  store_wf (env_view e) →
  (env_view (save e seq topic payload) = env_view e ∨
   env_view (save e seq topic payload) = m_save (env_view e) topic payload) ∧
  store_wf (env_view (save e seq topic payload)).
Proof.
  intros Hwf. destruct (save_cases e seq topic payload) as [E|E]; rewrite E; auto using m_save_wf.
Qed.

(** Both sweeps return, and delete nothing but records at or below the threshold. *)
Lemma sweep_cases e mx p body f :
  p ≠ [] →
  (∀ m, scan (entries_from p m) (body mx) [] = Ret (swept f p mx m)) →
  (∀ k, is_Some (f k) → starts_with k p = true) →
  ∃ e', sweep e mx p body = Ret e' ∧
    ∀ k, env_view e' !! k = env_view e !! k ∨ (doomed f mx k = true ∧ env_view e' !! k = None).
Proof.
  intros Hp Hscan Hf. unfold sweep. destruct (mx =? 0); [eauto|].
  destruct (mdb_txn_begin e false) as [t|] eqn:Et; [|eauto].
  destruct (mdb_cursor_open t); [|eauto]. simpl negb. cbn iota.
  rewrite cursor_walk, Hscan by done. cbn [obind]. eexists. split; [done|]. intros k.
  destruct (mdb_txn_commit _ _) as [e'|] eqn:Ec; [|by left]. simpl.
  rewrite (commit_view _ _ _ Ec), <-(begin_view _ _ _ Et).
  destruct (delete_keys_cases t (swept f p mx (txn_view t)) k) as [E|[Hk E]]; [by left|].
  right. by apply elem_of_swept in Hk as [_ ?].
Qed.

Lemma msg_seq_prefix k : is_Some (msg_seq k) → starts_with k msg_prefix = true.
Proof. unfold msg_seq. destruct (starts_with _ _); [done|]. by intros [? ?]. Qed.
Lemma ack_seq_prefix k : is_Some (ack_seq k) → starts_with k ack_prefix = true.
Proof. unfold ack_seq. destruct (starts_with _ _); [done|]. by intros [? ?]. Qed.

(** Reads see the committed map. *)
Lemma get_last_seq_cases e :
  get_last_seq e = m_last (env_view e) ∨ (mdb_txn_begin e true = None ∧ get_last_seq e = 0).
Proof.
  unfold get_last_seq. destruct (mdb_txn_begin e true) as [t|] eqn:Et; [left|by right].
  by rewrite get_view, (begin_view _ _ _ Et) by done.
Qed.

Lemma load_range_cases e from to :
  load_range e from to = Ret [] ∨
  load_range e from to = scan (entries_from (msg_key from) (env_view e)) (load_range_body to) [].
Proof.
  unfold load_range. destruct (mdb_txn_begin e true) as [t|] eqn:Et; [|by left].
  destruct (mdb_cursor_open t); [|by left]. simpl negb. cbn iota. right.
  by rewrite cursor_walk, (begin_view _ _ _ Et) by done.
Qed.
End laws.

(** ** Refinement: what a method that succeeds does to the map *)

Section successes.
Context `{LmdbLaws env txn}.

Lemma save_view e seq topic payload :
  save_ok e topic payload = true → env_view (save e seq topic payload) = m_save (env_view e) topic payload.
Proof.
  unfold save_ok, save. destruct (mdb_txn_begin e false) as [t|] eqn:Et; [|done].
  apply begin_view in Et. rewrite get_view, Et by done. fold (m_next (env_view e)).
  destruct (mdb_put t _ _) as [t1|] eqn:E1; [|done]. destruct (mdb_put t1 _ _) as [t2|] eqn:E2; [|done].
  intros [e' E3]%bool_decide_eq_true. rewrite E3. simpl.
  by rewrite (commit_view _ _ _ E3), (put_view _ _ _ _ E2), (put_view _ _ _ _ E1), Et.
Qed.

(** A [save] of which a call failed leaves the environment as it was. *)
Lemma save_failed e seq topic payload : save_ok e topic payload = false → save e seq topic payload = e.
Proof.
  unfold save_ok, save. destruct (mdb_txn_begin e false) as [t|]; [|done]. cbv zeta.
  destruct (mdb_put t _ _) as [t1|]; [|done]. destruct (mdb_put t1 _ _) as [t2|]; [|done].
  intros Hn%bool_decide_eq_false. destruct (mdb_txn_commit e t2); [|done]. destruct Hn. by eexists.
Qed.

Lemma get_last_seq_view e : readable e = true → get_last_seq e = m_last (env_view e).
Proof.
  destruct (get_last_seq_cases e) as [|[E _]]; [done|]. unfold readable. by rewrite E.
Qed.

Lemma save_ack_view e c n :
  ack_ok e c n = true → env_view (save_ack e c n) = <[ack_key c n := lit "1"]> (env_view e).
Proof.
  unfold ack_ok, save_ack. destruct (mdb_txn_begin e false) as [t|] eqn:Et; [|done].
  destruct (mdb_put t _ _) as [t1|] eqn:E1; [|done].
  intros [e' E3]%bool_decide_eq_true. rewrite E3. simpl.
  by rewrite (commit_view _ _ _ E3), (put_view _ _ _ _ E1), (begin_view _ _ _ Et).
Qed.

Lemma save_ack_failed e c n : ack_ok e c n = false → save_ack e c n = e.
Proof.
  unfold ack_ok, save_ack. destruct (mdb_txn_begin e false) as [t|]; [|done].
  destruct (mdb_put t _ _) as [t1|]; [|done].
  intros Hn%bool_decide_eq_false. destruct (mdb_txn_commit e t1); [|done]. destruct Hn. by eexists.
Qed.

Lemma load_range_view e from to :
  readable e = true →
  load_range e from to = scan (entries_from (msg_key from) (env_view e)) (load_range_body to) [].
Proof.
  unfold readable, load_range. destruct (mdb_txn_begin e true) as [t|] eqn:Et; [|done]. intros ->. simpl negb. cbn iota.
  by rewrite cursor_walk, (begin_view _ _ _ Et) by done.
Qed.

Lemma load_acks_view e c :
  readable e = true →
  ∃ acks, load_acks e c = Ret acks ∧
    ∀ x, x ∈ acks ↔ ∃ k, is_Some (env_view e !! k) ∧ ack_seq_of c k = Some x.
Proof.
  unfold readable, load_acks. destruct (mdb_txn_begin e true) as [t|] eqn:Et; [|done]. intros ->. simpl negb. cbn iota.
  rewrite cursor_walk, (begin_view _ _ _ Et) by done. apply scan_load_acks.
Qed.

Lemma delete_keys_view t ks k :
  deletes_ok t ks = true →
  txn_view (delete_keys t ks) !! k = if decide (k ∈ ks) then None else txn_view t !! k.
Proof.
  unfold delete_keys. revert t. induction ks as [|x ks IH]; intros t; [done|]. cbn [fold_left deletes_ok].
  destruct (mdb_del t x) as [t'|] eqn:Ed; [|done]. intros Hok. simpl default.
  rewrite (IH t' Hok), (del_view _ _ _ Ed), lookup_delete.
  repeat case_decide; try done; set_solver.
Qed.

Lemma sweep_view e mx p body f :
  p ≠ [] →
  (∀ m, scan (entries_from p m) (body mx) [] = Ret (swept f p mx m)) →
  (∀ k, is_Some (f k) → starts_with k p = true) → mx ≠ 0 → sweep_ok e mx p body = true →
  ∃ e', sweep e mx p body = Ret e' ∧ env_view e' = m_sweep f mx (env_view e).
Proof.
  intros Hp Hscan Hf Hmx. unfold sweep_ok, sweep. zbranch.
  destruct (mdb_txn_begin e false) as [t|] eqn:Et; [|done]. destruct (mdb_cursor_open t); [|done]. cbn [andb negb].
  rewrite cursor_walk, Hscan by done. cbn [obind].
  intros [Hd [e' Ec]%bool_decide_eq_true]%andb_true_iff. rewrite Ec.
  exists e'. split; [done|]. rewrite (commit_view _ _ _ Ec). apply map_eq. intros k.
  rewrite delete_keys_view, m_sweep_lookup, <-(begin_view _ _ _ Et) by done.
  destruct (txn_view t !! k) eqn:E, (doomed f mx k) eqn:Ed; case_decide as Hin; try done.
  - destruct Hin. apply elem_of_swept; eauto.
  - apply elem_of_swept in Hin as [_ ?]; [congruence|done].
Qed.
End successes.

(** ** Reading a range *)

Fixpoint read_until (to : Z) (l : list entry) : list stored :=
  match l with
  | [] => []
  | (k, v) :: l' =>
      match msg_seq k with
      | Some s => if to <? s then [] else decode_record s v ++ read_until to l'
      | None => read_until to l'
      end
  end.

(** Nothing but messages lies at or above a message key. *)
Lemma key_wf_above k n : key_wf k → lex_le (msg_key n) k → ∃ j, 0 ≤ j < 2 ^ 64 ∧ k = msg_key j.
Proof.
  intros [->|[(j & Hj & ->)|(c & j & _ & ->)]] Hle; [|eauto|]; exfalso;
    unfold lex_le in Hle; by vm_compute in Hle.
Qed.

Lemma entries_from_msgs m n :
  store_wf m → Forall (λ e, ∃ j, 0 ≤ j < 2 ^ 64 ∧ fst e = msg_key j) (entries_from (msg_key n) m).
Proof.
  intros [Hk _]. apply Forall_forall. intros e [He Hle]%elem_of_entries_from.
  eapply key_wf_above; [|done]. eauto.
Qed.

Lemma scan_load_range to l acc :
  Forall (λ e, ∃ j, 0 ≤ j < 2 ^ 64 ∧ fst e = msg_key j) l →
  scan l (load_range_body to) acc = Ret (acc ++ read_until to l).
Proof.
  intros Hl. revert acc. induction Hl as [|[k v] l (j & Hj & E) _ IH]; intros acc; simpl.
  { by rewrite app_nil_r. }
  simpl in E. subst k. pose proof (msg_seq_key j Hj) as Hs. rewrite Hs.
  unfold msg_seq in Hs. destruct (starts_with (msg_key j) msg_prefix) eqn:Ep; [|done].
  rewrite take4_prefix, Ep, Hs by done. cbn [negb].
  destruct (to <? j); cbn [obind fst snd]; [by rewrite app_nil_r|].
  unfold decode_record. destruct (find_first [NUL] v); cbn [obind fst snd]; rewrite IH; [|done].
  by rewrite <-app_assoc.
Qed.

Lemma elem_of_decode_record x n v : x ∈ decode_record n v ↔ decode_record n v = [x].
Proof. unfold decode_record. destruct (find_first _ _); set_solver. Qed.

(** With increasing sequence numbers, reading up to [to] keeps exactly the
    records at or below it. *)
Lemma read_until_sorted to l :
  Forall (λ e, ∃ j, 0 ≤ j < 2 ^ 64 ∧ fst e = msg_key j) l →
  StronglySorted (λ a b : entry, ∀ i j, msg_seq (fst a) = Some i → msg_seq (fst b) = Some j → i < j) l →
  StronglySorted (λ a b : stored, a.1.1 < b.1.1) (read_until to l) ∧
  (∀ n t p, (n, t, p) ∈ read_until to l ↔
    n ≤ to ∧ ∃ v, (msg_key n, v) ∈ l ∧ 0 ≤ n < 2 ^ 64 ∧ decode_record n v = [(n, t, p)]).
Proof.
  intros Hl Hs. induction Hs as [|[k v] l Hs IH Hlt].
  { split; [constructor|]. intros n t p. simpl. rewrite elem_of_nil.
    split; [done|]. intros (_ & ? & ?%elem_of_nil & _). done. }
  apply Forall_cons in Hl as [(j & Hj & E) Hl]. simpl in E. subst k.
  destruct (IH Hl) as [IHs IHe]. simpl. rewrite (msg_seq_key j Hj).
  rewrite Forall_forall in Hlt, Hl.
  assert (Hgt : ∀ n w, 0 ≤ n < 2 ^ 64 → (msg_key n, w) ∈ l → j < n).
  { intros n w Hn Hin. apply (Hlt _ Hin j n); by apply msg_seq_key. }
  destruct (to <? j) eqn:E; reflect_bools.
  - split; [constructor|]. intros n t p. rewrite elem_of_nil. split; [done|].
    intros (Hn & w & [Ep|Hin]%elem_of_cons & Hr & _).
    + apply pair_equal_spec in Ep as [Ek _]. apply msg_key_inj in Ek; [lia|done..].
    + specialize (Hgt _ _ Hr Hin). lia.
  - split.
    + assert (Hall : Forall (λ b : stored, j < b.1.1) (read_until to l)).
      { apply Forall_forall. intros [[n t] p] (_ & w & Hin & Hr & _)%IHe. simpl. eauto. }
      unfold decode_record. destruct (find_first _ _); simpl; [by constructor|done].
    + intros n t p. rewrite elem_of_app, IHe. split.
      * intros [Hd|(Hn & w & Hin & Hr & Hd)]; [|split; [done|]; exists w; by rewrite elem_of_cons; auto].
        pose proof Hd as Hd'. apply elem_of_decode_record in Hd'.
        assert (n = j) as -> by (unfold decode_record in Hd; destruct (find_first _ _); set_solver).
        split; [done|]. exists v. by rewrite elem_of_cons; auto.
      * intros (Hn & w & [Ep|Hin]%elem_of_cons & Hr & Hd); [|right; eauto].
        apply pair_equal_spec in Ep as [Ek ->]. apply msg_key_inj in Ek; [|done..]. subst n. left. by apply elem_of_decode_record.
Qed.

(** ** Theorems *)

(** C30: [save] is atomic whatever the engine answers: either nothing changes, or
    the message and the counter are both written; a store written by this
    layer stays one. *)
Theorem save_atomic `{LmdbLaws env txn} (e : env) seq topic payload :
  store_wf (env_view e) →
  (env_view (save e seq topic payload) = env_view e ∨
   env_view (save e seq topic payload) = m_save (env_view e) topic payload) ∧
  store_wf (env_view (save e seq topic payload)).
Proof. apply save_cases_wf. Qed.

(** A full map: the message fits, the counter does not, and the transaction is dropped. *)
Lemma save_atomic_witness :
  let e := mkBounded ∅ 1 in
  env_view (save e 1 (lit "t") (lit "p")) = env_view e ∧ store_wf (env_view (save e 1 (lit "t") (lit "p"))).
Proof.
  destruct (save_atomic (mkBounded ∅ 1) 1 (lit "t") (lit "p")) as [_ Hw]; [apply store_wf_empty|].
  split; [vm_compute; reflexivity|exact Hw].
Defined.

(** When its calls succeed a saved message is stored under the next sequence
    number, which [get_last_seq] then returns; every other message and every
    ACK is untouched. *)
Theorem save_next `{LmdbLaws env txn} (e : env) seq topic payload :
  store_wf (env_view e) → save_ok e topic payload = true →
  readable e = true → readable (save e seq topic payload) = true →
  let n := u64 (get_last_seq e + 1) in
  get_last_seq (save e seq topic payload) = n ∧
  env_view (save e seq topic payload) !! msg_key n = Some (msg_data topic payload) ∧
  (∀ k, k ≠ last_key → k ≠ msg_key n →
    env_view (save e seq topic payload) !! k = env_view e !! k).
Proof.
  intros Hwf Hok Hr Hr'. simpl. rewrite !get_last_seq_view, save_view, <-m_next_last by done.
  split; [by apply m_last_save|]. unfold m_save. split.
  - rewrite lookup_insert_ne by (intros E; symmetry in E; by apply msg_key_not_last in E).
    apply lookup_insert_eq.
  - intros k Hk1 Hk2. by rewrite !lookup_insert_ne.
Qed.

Lemma save_next_witness :
  get_last_seq (save (save (∅ : MemLmdb) 0 (lit "a") (lit "x")) 0 (lit "b") (lit "y")) = 2.
Proof.
  pose proof (proj1 (save_next (save (∅ : MemLmdb) 0 (lit "a") (lit "x")) 0 (lit "b") (lit "y")
    (proj2 (save_cases_wf ∅ 0 (lit "a") (lit "x") store_wf_empty)) eq_refl eq_refl eq_refl)) as Hn.
  rewrite Hn. vm_compute. reflexivity.
Defined.

(** [compact] keeps exactly the records it should: when its calls succeed,
    every [msg:] record with a sequence at or below the threshold is
    gone, and everything else is as before. *)
Theorem compact_exact `{LmdbLaws env txn} (e : env) mx :
  mx ≠ 0 → compact_ok e mx = true →
  ∃ e', compact e mx = Ret e' ∧
    ∀ k, env_view e' !! k = if doomed msg_seq mx k then None else env_view e !! k.
Proof.
  intros Hmx Hok. destruct (sweep_view e mx msg_prefix compact_body msg_seq) as (e' & Hs & Hv);
    auto using scan_compact, msg_seq_prefix.
  exists e'. split; [done|]. intros k. rewrite Hv. apply m_sweep_lookup.
Qed.

Lemma compact_exact_witness :
  ∃ e', compact ({[msg_key 3 := lit "x"; msg_key 12 := lit "y"; last_key := u64_bytes 12]} : MemLmdb) 9 = Ret e' ∧
    env_view e' !! msg_key 3 = None ∧ env_view e' !! msg_key 12 = Some (lit "y").
Proof.
  destruct (compact_exact ({[msg_key 3 := lit "x"; msg_key 12 := lit "y"; last_key := u64_bytes 12]} : MemLmdb) 9)
    as (e' & H1 & H2); [discriminate|vm_compute; reflexivity|].
  exists e'. split; [exact H1|]. rewrite !H2. split; vm_compute; reflexivity.
Defined.

(** [purge_old_acks] likewise deletes exactly the ACK records, of any client,
    whose sequence is at or below the threshold. *)
Theorem purge_exact `{LmdbLaws env txn} (e : env) mx :
  mx ≠ 0 → purge_ok e mx = true →
  ∃ e', purge_old_acks e mx = Ret e' ∧
    (∀ k, env_view e' !! k = if doomed ack_seq mx k then None else env_view e !! k) ∧
    (∀ c n, 0 ≤ n < 2 ^ 64 → n ≤ mx → env_view e' !! ack_key c n = None) ∧
    (∀ c n, 0 ≤ n < 2 ^ 64 → mx < n → env_view e' !! ack_key c n = env_view e !! ack_key c n).
Proof.
  intros Hmx Hok. destruct (sweep_view e mx ack_prefix purge_body ack_seq) as (e' & Hs & Hv);
    auto using scan_purge, ack_seq_prefix.
  assert (Hall : ∀ k, env_view e' !! k = if doomed ack_seq mx k then None else env_view e !! k)
    by (intros k; rewrite Hv; apply m_sweep_lookup).
  exists e'. split; [done|]. split; [done|].
  split; intros c n Hn Hc; rewrite Hall; unfold doomed; rewrite ack_seq_key by done; by zbranch.
Qed.

Lemma purge_exact_witness :
  ∃ e', purge_old_acks ({[ack_key (lit "c") 3 := lit "1"; ack_key (lit "c") 12 := lit "1"]} : MemLmdb) 9 = Ret e' ∧
    env_view e' !! ack_key (lit "c") 3 = None ∧ env_view e' !! ack_key (lit "c") 12 = Some (lit "1").
Proof.
  destruct (purge_exact ({[ack_key (lit "c") 3 := lit "1"; ack_key (lit "c") 12 := lit "1"]} : MemLmdb) 9)
    as (e' & H1 & _ & H2 & H3); [discriminate|vm_compute; reflexivity|].
  exists e'. split; [exact H1|]. split; [apply H2; lia|]. rewrite (H3 (lit "c") 12) by lia. vm_compute. reflexivity.
Defined.

(** C31: Neither sweep ever deletes a record above its threshold, or one of the
    other kind, even when individual deletions or the commit fail. *)
Theorem sweeps_safe `{LmdbLaws env txn} (e : env) mx :
  (∃ e', compact e mx = Ret e' ∧
    ∀ k, doomed msg_seq mx k = false → env_view e' !! k = env_view e !! k) ∧
  (∃ e', purge_old_acks e mx = Ret e' ∧
    ∀ k, doomed ack_seq mx k = false → env_view e' !! k = env_view e !! k).
Proof.
  split.
  - destruct (sweep_cases e mx msg_prefix compact_body msg_seq) as (e' & Hs & Hv);
      auto using scan_compact, msg_seq_prefix.
    exists e'. split; [done|]. intros k Hk. destruct (Hv k) as [|[? _]]; congruence.
  - destruct (sweep_cases e mx ack_prefix purge_body ack_seq) as (e' & Hs & Hv);
      auto using scan_purge, ack_seq_prefix.
    exists e'. split; [done|]. intros k Hk. destruct (Hv k) as [|[? _]]; congruence.
Qed.

Lemma sweeps_safe_witness :
  ∃ e', compact (mkBounded {[msg_key 3 := lit "x"; ack_key (lit "c") 2 := lit "1"]} 2) 9 = Ret e' ∧
    env_view e' !! ack_key (lit "c") 2 = Some (lit "1").
Proof.
  destruct (sweeps_safe (mkBounded {[msg_key 3 := lit "x"; ack_key (lit "c") 2 := lit "1"]} 2) 9)
    as [(e' & H1 & H2) _].
  exists e'. split; [exact H1|]. rewrite H2; vm_compute; reflexivity.
Defined.

(** An ACK that was saved is loaded, for its client, when the calls succeed; and
    what [load_acks] returns is exactly the numbers under the client's prefix. *)
Theorem ack_roundtrip `{LmdbLaws env txn} (e : env) c n :
  0 ≤ n < 2 ^ 64 → ack_ok e c n = true → readable (save_ack e c n) = true →
  ∃ acks, load_acks (save_ack e c n) c = Ret acks ∧ n ∈ acks ∧
    (∀ x, x ∈ acks ↔ ∃ k, is_Some (env_view (save_ack e c n) !! k) ∧ ack_seq_of c k = Some x).
Proof.
  intros Hn Hk Hr. destruct (load_acks_view (save_ack e c n) c Hr) as (acks & Hl & Hx).
  exists acks. split; [done|]. split; [|done]. apply Hx. exists (ack_key c n).
  rewrite save_ack_view, lookup_insert_eq by done. split; [eauto|by apply ack_seq_of_key].
Qed.

Lemma ack_roundtrip_witness :
  ∃ acks, load_acks (save_ack (∅ : MemLmdb) (lit "sub-1") 42) (lit "sub-1") = Ret acks ∧ 42 ∈ acks.
Proof.
  destruct (ack_roundtrip (∅ : MemLmdb) (lit "sub-1") 42) as (acks & H1 & H2 & _);
    [lia|vm_compute; reflexivity..|].
  exists acks. exact (conj H1 H2).
Defined.

Lemma colon_split (c d a b : bytes) :
  COLON ∉ c → COLON ∉ d → c ++ [COLON] ++ a = d ++ [COLON] ++ b → c = d ∧ a = b.
Proof.
  revert d. induction c as [|x c IH]; intros [|y d] Hc Hd E; simplify_eq/=; try done.
  - set_solver.
  - set_solver.
  - destruct (IH d) as [-> ->]; [set_solver..|done|done].
Qed.

Lemma ack_seq_of_own c d n x :
  COLON ∉ c → COLON ∉ d → 0 ≤ n < 2 ^ 64 → ack_seq_of c (ack_key d n) = Some x → c = d ∧ x = n.
Proof.
  intros Hc Hd Hn. unfold ack_seq_of. destruct (starts_with _ _) eqn:E; [|done].
  apply starts_with_spec in E as [r E]. rewrite E, drop_app_length. intros Hx.
  unfold ack_key, ack_client_prefix in E. rewrite <-!app_assoc in E.
  apply app_inv_head, colon_split in E as [-> <-]; [|done..].
  rewrite <-(app_nil_r (to_string n)), stoull_to_string in Hx by done. naive_solver.
Qed.

(** Client names without a colon do not interfere: in a store whose ACK keys
    all carry such names, [load_acks] returns exactly the client's own ACKs. *)
Theorem load_acks_isolated `{LmdbLaws env txn} (e : env) c :
  readable e = true → COLON ∉ c →
  (∀ k, is_Some (env_view e !! k) → starts_with k ack_prefix = true →
    ∃ d n, (COLON ∉ d) ∧ 0 ≤ n < 2 ^ 64 ∧ k = ack_key d n) →
  ∃ acks, load_acks e c = Ret acks ∧
    ∀ n, 0 ≤ n < 2 ^ 64 → (n ∈ acks ↔ is_Some (env_view e !! ack_key c n)).
Proof.
  intros Hr Hc Hkeys. destruct (load_acks_view e c Hr) as (acks & Hl & Hx).
  exists acks. split; [done|]. intros n Hn. rewrite Hx. split.
  - intros (k & Hk & Hs). destruct (Hkeys k Hk) as (d & j & Hd & Hj & ->).
    { unfold ack_seq_of in Hs. destruct (starts_with k _) eqn:E; [|done].
      apply starts_with_spec in E as [r ->]. unfold ack_client_prefix.
      rewrite <-!app_assoc. apply starts_with_app. }
    by apply ack_seq_of_own in Hs as [-> ->].
  - intros Hk. exists (ack_key c n). split; [done|]. by apply ack_seq_of_key.
Qed.

Lemma load_acks_isolated_witness :
  ∃ acks, load_acks (save_ack (save_ack (∅ : MemLmdb) (lit "a") 5) (lit "b") 6) (lit "a") = Ret acks ∧
    (5 ∈ acks) ∧ (6 ∉ acks).
Proof.
  destruct (load_acks_isolated (save_ack (save_ack (∅ : MemLmdb) (lit "a") 5) (lit "b") 6) (lit "a"))
    as (acks & H1 & H2).
  - reflexivity.
  - apply (bool_decide_unpack (COLON ∉ lit "a")). vm_compute. exact I.
  - intros k Hk _. rewrite !save_ack_view in Hk by (vm_compute; reflexivity).
    change (env_view (∅ : MemLmdb)) with (∅ : gmap bytes bytes) in Hk.
    rewrite !lookup_insert_is_Some', lookup_empty in Hk.
    destruct Hk as [<-|[<-|[? ?]]]; [exists (lit "b"), 6|exists (lit "a"), 5|done];
      (split; [eapply (bool_decide_eq_true_1 (_ ∉ _)); vm_compute; reflexivity|split; [lia|reflexivity]]).
  - exists acks. split; [exact H1|]. rewrite !H2 by lia.
    split; [|intros [? Hn]; revert Hn]; vm_compute; [eauto|discriminate].
Defined.

(** A colon in a client name does interfere: an ACK by the client named
    ["c:a"], for any number, reads back as the ACK of [a] by the client [c]. *)
Theorem load_acks_collision `{LmdbLaws env txn} (e : env) c a n :
  0 ≤ a < 2 ^ 64 → 0 ≤ n < 2 ^ 64 →
  ack_ok e (c ++ [COLON] ++ to_string a) n = true → readable (save_ack e (c ++ [COLON] ++ to_string a) n) = true →
  ∃ acks, load_acks (save_ack e (c ++ [COLON] ++ to_string a) n) c = Ret acks ∧ a ∈ acks.
Proof.
  intros Ha Hn Hk Hr. destruct (load_acks_view (save_ack e (c ++ [COLON] ++ to_string a) n) c Hr) as (acks & Hl & Hx).
  exists acks. split; [done|]. apply Hx. exists (ack_key (c ++ [COLON] ++ to_string a) n).
  rewrite save_ack_view, lookup_insert_eq by done. split; [eauto|].
  unfold ack_seq_of, ack_key.
  replace (ack_client_prefix (c ++ [COLON] ++ to_string a) ++ to_string n)
    with (ack_client_prefix c ++ to_string a ++ COLON :: to_string n)
    by (unfold ack_client_prefix; by rewrite <-!app_assoc).
  rewrite starts_with_app, drop_app_length. by apply stoull_to_string.
Qed.

Lemma load_acks_collision_witness :
  ∃ acks, load_acks (save_ack (∅ : MemLmdb) (lit "a:7") 99) (lit "a") = Ret acks ∧ 7 ∈ acks.
Proof.
  apply (load_acks_collision (∅ : MemLmdb) (lit "a") 7 99); first [lia | vm_compute; reflexivity].
Defined.

(** ** What a range read returns *)

(** The record of [n] is read when no record between the start key and its own
    key, in the order of the keys, has a number above [to]. *)
Lemma read_until_elem to l :
  Forall (λ e, ∃ j, 0 ≤ j < 2 ^ 64 ∧ fst e = msg_key j) l → strictly_sorted l →
  ∀ n t p, (n, t, p) ∈ read_until to l ↔
    ∃ v, (msg_key n, v) ∈ l ∧ 0 ≤ n < 2 ^ 64 ∧ decode_record n v = [(n, t, p)] ∧
      (∀ j w, 0 ≤ j < 2 ^ 64 → (msg_key j, w) ∈ l → lex_le (msg_key j) (msg_key n) → j ≤ to).
Proof.
  intros Hl Hs. induction Hs as [|[k v] l Hs IH Hlt]; intros n t p; simpl.
  { split; [by intros ?%elem_of_nil|]. intros (v & ?%elem_of_nil & _). done. }
  apply Forall_cons in Hl as [(j & Hj & E) Hl]. simpl in E. subst k.
  rewrite (msg_seq_key j Hj). rewrite Forall_forall in Hlt.
  assert (Hfirst : ∀ i w, (msg_key i, w) ∈ l → lex_le (msg_key j) (msg_key i) ∧ msg_key i ≠ msg_key j).
  { intros i w [Hle Hne]%Hlt. simpl in *. auto. }
  destruct (to <? j) eqn:Ej; reflect_bools.
  { split; [by intros ?%elem_of_nil|]. intros (w & Hin & Hn & _ & Hle). exfalso.
    assert (j ≤ to); [|lia]. apply (Hle j v); [done|by left|].
    apply elem_of_cons in Hin as [E|Hin]; [|by eapply Hfirst].
    apply pair_equal_spec in E as [-> _]. reflexivity. }
  rewrite elem_of_app, IH by done. split.
  - intros [Hd|(w & Hin & Hn & Hd & Hle)].
    + assert (n = j) as -> by (unfold decode_record in Hd; destruct (find_first _ _); set_solver).
      apply elem_of_decode_record in Hd.
      exists v. split; [by left|]. do 2 (split; [done|]). intros i w Hi Hin Hle.
      apply elem_of_cons in Hin as [E|Hin].
      { apply pair_equal_spec in E as [E _]. apply msg_key_inj in E; [lia|done..]. }
      destruct (Hfirst i w Hin) as [Hge Hne]. by destruct Hne; apply (anti_symm lex_le).
    + exists w. split; [by right|]. do 2 (split; [done|]). intros i x Hi Hin' Hle'.
      apply elem_of_cons in Hin' as [E|Hin']; [|by eapply Hle].
      apply pair_equal_spec in E as [E _]. apply msg_key_inj in E; [lia|done..].
  - intros (w & Hin & Hn & Hd & Hle). apply elem_of_cons in Hin as [E|Hin].
    + left. apply pair_equal_spec in E as [E ->]. apply msg_key_inj in E as ->; [|done..].
      by apply elem_of_decode_record.
    + right. exists w. do 3 (split; [done|]). intros i x Hi Hin'. apply (Hle i x Hi). by right.
Qed.

Lemma load_range_elem `{LmdbLaws env txn} (e : env) from to :
  store_wf (env_view e) → readable e = true →
  ∃ l, load_range e from to = Ret l ∧
    l = read_until to (entries_from (msg_key from) (env_view e)) ∧
    (∀ n t p, (n, t, p) ∈ l ↔
      lex_le (msg_key from) (msg_key n) ∧
      ∃ v, env_view e !! msg_key n = Some v ∧ 0 ≤ n < 2 ^ 64 ∧ decode_record n v = [(n, t, p)] ∧
        (∀ j, 0 ≤ j < 2 ^ 64 → is_Some (env_view e !! msg_key j) →
          lex_le (msg_key from) (msg_key j) → lex_le (msg_key j) (msg_key n) → j ≤ to)).
Proof.
  intros Hwf Hr. rewrite load_range_view by done. pose proof (entries_from_msgs _ from Hwf) as Hm.
  rewrite (scan_load_range _ _ _ Hm). eexists; split; [done|]. split; [done|].
  intros n t p. simpl app. rewrite read_until_elem by (try done; apply entries_from_strict).
  setoid_rewrite elem_of_entries_from. simpl. split.
  - intros (v & [Hv Hle] & Hn & Hd & Hall). split; [done|]. exists v.
    do 3 (split; [done|]). intros j Hj [w Hw] ??. by apply (Hall j w).
  - intros [Hle (v & Hv & Hn & Hd & Hall)]. exists v. do 3 (split; [done|]).
    intros j w Hj [Hw ?] ?. apply Hall; eauto.
Qed.

Lemma StronglySorted_impl_in {A} (R R' : A → A → Prop) l :
  (∀ a b, a ∈ l → b ∈ l → R a b → R' a b) → StronglySorted R l → StronglySorted R' l.
Proof.
  intros HR Hs. induction Hs as [|a l Hs IH Ha]; constructor.
  - apply IH. intros x y ??. apply HR; by right.
  - rewrite Forall_forall in *. intros x Hx. apply HR; [by left|by right|auto].
Qed.

(** When the stored messages have numbers with as many digits as [from],
    [load_range] returns exactly the decodable records with a number in
    [from..to], in ascending order of their numbers. *)
Theorem load_range_exact `{LmdbLaws env txn} (e : env) from to :
  store_wf (env_view e) → readable e = true → 0 ≤ from →
  (∀ n, 0 ≤ n < 2 ^ 64 → is_Some (env_view e !! msg_key n) →
    length (to_string n) = length (to_string from)) →
  ∃ l, load_range e from to = Ret l ∧
    StronglySorted (λ a b : stored, a.1.1 < b.1.1) l ∧
    (∀ n t p, (n, t, p) ∈ l ↔ from ≤ n ≤ to ∧ n < 2 ^ 64 ∧
      ∃ v, env_view e !! msg_key n = Some v ∧ decode_record n v = [(n, t, p)]).
Proof.
  intros Hwf Hrd Hf Hd. destruct (load_range_elem e from to Hwf Hrd) as (l & Hl & -> & _).
  assert (Hle : ∀ n, 0 ≤ n < 2 ^ 64 → is_Some (env_view e !! msg_key n) →
    lex_le (msg_key from) (msg_key n) ↔ from ≤ n).
  { intros n Hn Hs. unfold msg_key. rewrite lex_le_app. apply to_string_lex_le; [lia..|].
    symmetry. auto. }
  destruct (read_until_sorted to (entries_from (msg_key from) (env_view e))) as [Hs Hx];
    [by apply entries_from_msgs| |].
  - eapply StronglySorted_impl_in; [|apply entries_from_strict].
    pose proof (entries_from_msgs _ from Hwf) as Hm. rewrite Forall_forall in Hm.
    intros [k v] [k' v'] Hk Hk' Hlt.
    destruct (Hm _ Hk) as (i & Hi & E), (Hm _ Hk') as (j & Hj & E'). simpl in *. subst k k'.
    intros i' j'. rewrite !msg_seq_key by done. intros [= <-] [= <-].
    apply elem_of_entries_from in Hk as [Hk _], Hk' as [Hk' _]. simpl in *.
    destruct Hlt as [Hlt Hne]. unfold msg_key in Hlt, Hne. rewrite lex_le_app in Hlt.
    apply to_string_lex_le in Hlt; [|lia|lia|etrans; [|symmetry]; apply Hd; eauto].
    destruct (decide (i = j)) as [->|]; [done|lia].
  - eexists; split; [done|]. split; [done|]. intros n t p. rewrite Hx.
    setoid_rewrite elem_of_entries_from. simpl. split.
    + intros (Hn & v & [Hv Hfn] & Hr & Hdec). apply Hle in Hfn; eauto 10 with lia.
    + intros (Hn & Hr & v & Hv & Hdec). split; [lia|]. exists v.
      split; [split; [done|apply Hle; eauto; lia]|]. split; [lia|done].
Qed.

(** A store of two messages, both with one-digit numbers. *)
Definition two_messages : MemLmdb :=
  <[msg_key 7 := lit "b" ++ [NUL] ++ lit "y"]> {[msg_key 3 := lit "a" ++ [NUL] ++ lit "x"]}.

Lemma two_messages_keys k : is_Some (env_view two_messages !! k) → k = msg_key 7 ∨ k = msg_key 3.
Proof.
  change (env_view two_messages) with (two_messages : gmap bytes bytes). unfold two_messages.
  intros [<-|[v [<- _]%lookup_singleton_Some]]%lookup_insert_is_Some'; auto.
Qed.

Lemma two_messages_wf : store_wf (env_view two_messages).
Proof.
  split.
  - intros k [->| ->]%two_messages_keys; right; left; eexists; (split; [|done]); lia.
  - intros v Hv. by vm_compute in Hv.
Qed.

Lemma load_range_exact_witness :
  ∃ l, load_range two_messages 2 5 = Ret l ∧ (3, lit "a", lit "x") ∈ l.
Proof.
  destruct (load_range_exact two_messages 2 5) as (l & Hl & _ & Hx); [|reflexivity|..].
  - exact two_messages_wf.
  - lia.
  - intros n Hn [E|E]%two_messages_keys; apply msg_key_inj in E as ->; try lia; reflexivity.
  - exists l. split; [exact Hl|]. apply Hx. repeat (split; [lia|]). eexists. split; reflexivity.
Defined.

(** ** Two consequences of the representation *)

Lemma find_first_nul_app (s r : bytes) :
  NUL ∉ s → find_first [NUL] (s ++ r) = Nat.add (length s) <$> find_first [NUL] r.
Proof.
  induction s as [|c s IH]; intros Hs; simpl.
  { by destruct (find_first [NUL] r). }
  rewrite bool_decide_false by set_solver. simpl. rewrite IH by set_solver.
  by destruct (find_first [NUL] r).
Qed.

Lemma decode_msg_data seq topic payload :
  (NUL ∉ topic) →
  decode_record seq (msg_data topic payload) =
    match find_first [NUL] payload with
    | Some i => [(seq, topic ++ take i payload, drop (i + 1) payload)]
    | None => []
    end.
Proof.
  intros Ht. unfold decode_record, msg_data.
  change (c_str [NUL]) with ([] : bytes). simpl app.
  rewrite find_first_nul_app by done. destruct (find_first [NUL] payload) as [i|]; simpl; [|done].
  rewrite take_app_add, <-Nat.add_assoc, drop_app_add. done.
Qed.

(** Of a record whose payload does not start with NUL, the topic read back is
    longer than the one saved. *)
Lemma decode_msg_data_topic seq topic payload n t p :
  (NUL ∉ topic) → head payload ≠ Some NUL →
  decode_record seq (msg_data topic payload) = [(n, t, p)] → ∃ r, r ≠ [] ∧ t = topic ++ r.
Proof.
  intros Ht Hp. rewrite decode_msg_data by done. destruct (find_first [NUL] payload) as [i|] eqn:E; [|done].
  intros [= _ <- _]. exists (take i payload). split; [|done].
  destruct payload as [|c payload]; [done|]. destruct i; [|done].
  simpl in E. simpl in Hp. case_bool_decide as Ec; [by subst|]. simpl in E.
  by destruct (find_first [NUL] payload).
Qed.

(** The literal ["\x00"] between topic and payload is an empty C string, so no
    separator is stored: what [load_range] decodes from a saved message is cut
    at the first NUL of the payload, and a payload without NUL is skipped. *)
Theorem saved_record_decodes seq topic payload :
  (NUL ∉ topic) →
  decode_record seq (msg_data topic payload) =
    match find_first [NUL] payload with
    | Some i => [(seq, topic ++ take i payload, drop (i + 1) payload)]
    | None => []
    end.
Proof. apply decode_msg_data. Qed.

Lemma saved_record_decodes_witness :
  decode_record 1 (msg_data (lit "sensors") (lit "21.5")) = [].
Proof.
  rewrite (saved_record_decodes 1 (lit "sensors") (lit "21.5"));
    [|eapply (bool_decide_eq_true_1 (_ ∉ _)); vm_compute; reflexivity].
  vm_compute. reflexivity.
Defined.

(** The numbers up to 100000 whose key sorts below [msg:100001]. *)
Lemma below_100001 n :
  0 ≤ n ≤ 100000 → lex_le (msg_key n) (msg_key 100001) →
  n ∈ [0; 1; 10; 100; 1000; 10000; 100000].
Proof.
  intros Hn Hlt. unfold msg_key in Hlt. rewrite lex_le_app in Hlt.
  pose proof (to_string_length n 6 ltac:(lia) ltac:(lia)) as Hlen.
  assert (Hlow : ∀ k, (0 < k)%nat → length (to_string n) = S k → 10 ^ Z.of_nat k ≤ n).
  { intros k Hk E. destruct (decide (n < 10 ^ Z.of_nat k)); [|lia].
    pose proof (to_string_length n k ltac:(lia) Hk). lia. }
  assert (Hup : ∀ m r, 0 ≤ m → to_string 100001 = to_string m ++ r →
    length (to_string n) = length (to_string m) → n ≤ m).
  { intros m r Hm E El. rewrite E, lex_le_app_r in Hlt by done. by apply to_string_lex_le; [lia..|]. }
  destruct (to_string_digits n) as [_ Hne]; [lia|].
  destruct (length (to_string n)) as [|[|[|[|[|[|[|?]]]]]]] eqn:E; [by destruct (to_string n)|..|lia].
  - specialize (Hup 1 (lit "00001") ltac:(lia) eq_refl eq_refl).
    assert (n = 0 ∨ n = 1) as [-> | ->] by lia; set_solver.
  - specialize (Hup 10 (lit "0001") ltac:(lia) eq_refl eq_refl). specialize (Hlow 1%nat).
    assert (n = 10) as -> by lia. set_solver.
  - specialize (Hup 100 (lit "001") ltac:(lia) eq_refl eq_refl). specialize (Hlow 2%nat).
    assert (n = 100) as -> by lia. set_solver.
  - specialize (Hup 1000 (lit "01") ltac:(lia) eq_refl eq_refl). specialize (Hlow 3%nat).
    assert (n = 1000) as -> by lia. set_solver.
  - specialize (Hup 10000 (lit "1") ltac:(lia) eq_refl eq_refl). specialize (Hlow 4%nat).
    assert (n = 10000) as -> by lia. set_solver.
  - specialize (Hlow 5%nat). assert (n = 100000) as -> by lia. set_solver.
Qed.

(** Keys are ordered as strings, so the read stops at the first key above [to]
    in that order. Once message 100001 is stored, the read that replays
    history to a new subscriber, [load_range(0, 100000)], returns none of the
    messages but those numbered with a power of ten (or 0). *)
Theorem load_range_stops `{LmdbLaws env txn} (e : env) :
  store_wf (env_view e) → is_Some (env_view e !! msg_key 100001) →
  ∃ l, load_range e 0 100000 = Ret l ∧
    ∀ n t p, (n, t, p) ∈ l → n ∈ [0; 1; 10; 100; 1000; 10000; 100000].
Proof.
  intros Hwf Hs. destruct (readable e) eqn:Hr.
  2: { exists []. split; [|by intros n t p ?%elem_of_nil]. unfold readable, load_range in *.
       destruct (mdb_txn_begin e true); [by rewrite Hr|done]. }
  destruct (load_range_elem e 0 100000 Hwf Hr) as (l & Hl & _ & Hx). exists l. split; [done|]. intros n t p (Hle & v & Hv & Hn & _ & Hall)%Hx.
  assert (n ≤ 100000) by (apply Hall; eauto; reflexivity).
  apply below_100001; [lia|]. destruct (total lex_le (msg_key n) (msg_key 100001)) as [|Hgt]; [done|].
  assert (100001 ≤ 100000); [|lia]. by apply Hall.
Qed.

(** A store in which the message after the replay window is present. *)
Definition past_window : MemLmdb :=
  <[msg_key 100001 := lit "b" ++ [NUL] ++ lit "y"]> {[msg_key 99 := lit "a" ++ [NUL] ++ lit "x"]}.

Lemma past_window_wf : store_wf (env_view past_window).
Proof.
  change (env_view past_window) with (past_window : gmap bytes bytes). split.
  - intros k. unfold past_window.
    intros [<-|[v [<- _]%lookup_singleton_Some]]%lookup_insert_is_Some';
      right; left; eexists; (split; [|done]); lia.
  - intros v Hv. by vm_compute in Hv.
Qed.

Lemma load_range_stops_witness :
  ∃ l, load_range past_window 0 100000 = Ret l ∧
    ∀ n t p, (n, t, p) ∈ l → n ≠ 99.
Proof.
  destruct (load_range_stops past_window) as (l & Hl & Hx).
  - exact past_window_wf.
  - vm_compute. eauto.
  - exists l. split; [exact Hl|]. intros n t p Hin ->. apply Hx in Hin.
    revert Hin. apply (bool_decide_eq_true_1 (_ ∉ _)). vm_compute. reflexivity.
Defined.

(** ** What the broker relies on, whatever the engine answers *)

Section client.
Context `{LmdbLaws env txn}.

Lemma load_range_returns e from to :
  store_wf (env_view e) →
  ∃ l, load_range e from to = Ret l ∧
    (l = [] ∨ l = read_until to (entries_from (msg_key from) (env_view e))).
Proof.
  intros Hwf. destruct (load_range_cases e from to) as [->| ->]; [by eauto|].
  rewrite scan_load_range by by apply entries_from_msgs. eauto.
Qed.

(** What a range read returns are records of the database. *)
Lemma load_range_records e from to :
  store_wf (env_view e) →
  ∃ l, load_range e from to = Ret l ∧
    ∀ n t p, (n, t, p) ∈ l → ∃ v, env_view e !! msg_key n = Some v ∧ 0 ≤ n < 2 ^ 64 ∧ decode_record n v = [(n, t, p)].
Proof.
  intros Hwf. destruct (load_range_returns e from to Hwf) as (l & Hl & Hcase). exists l. split; [done|].
  intros n t p Hin. destruct Hcase as [->| ->]; [by apply elem_of_nil in Hin|].
  apply read_until_elem in Hin as (v & Hv & Hn & Hd & _); [|by apply entries_from_msgs|apply entries_from_strict].
  apply elem_of_entries_from in Hv as [Hv _]. by exists v.
Qed.

Lemma load_acks_returns e c : ∃ acks, load_acks e c = Ret acks ∧ ∀ x, x ∈ acks → 0 ≤ x < 2 ^ 64.
Proof.
  unfold load_acks. destruct (mdb_txn_begin e true) as [t|] eqn:Et; [|by exists ∅; set_solver].
  destruct (mdb_cursor_open t); [|by exists ∅; set_solver]. simpl negb. cbn iota.
  rewrite cursor_walk by done. destruct (scan_load_acks c (txn_view t)) as (acks & -> & Hx).
  exists acks. split; [done|]. intros x (k & _ & Hs)%Hx. unfold ack_seq_of in Hs.
  destruct (starts_with _ _); [|done]. by eapply stoull_range.
Qed.

Lemma sweep_submap (e e' : env) f mx :
  (∀ k, env_view e' !! k = env_view e !! k ∨ (doomed f mx k = true ∧ env_view e' !! k = None)) →
  store_wf (env_view e) → store_wf (env_view e').
Proof.
  intros Hv Hwf. apply (store_wf_subset _ _ Hwf). intros k. destruct (Hv k) as [|[_ ?]]; auto.
Qed.

Lemma compact_returns e mx :
  ∃ e', compact e mx = Ret e' ∧ (store_wf (env_view e) → store_wf (env_view e')).
Proof.
  destruct (sweep_cases e mx msg_prefix compact_body msg_seq) as (e' & Hs & Hv);
    auto using scan_compact, msg_seq_prefix. exists e'. split; [done|]. by eapply sweep_submap.
Qed.

Lemma purge_returns e mx :
  ∃ e', purge_old_acks e mx = Ret e' ∧ (store_wf (env_view e) → store_wf (env_view e')).
Proof.
  destruct (sweep_cases e mx ack_prefix purge_body ack_seq) as (e' & Hs & Hv);
    auto using scan_purge, ack_seq_prefix. exists e'. split; [done|]. by eapply sweep_submap.
Qed.

Lemma save_ack_wf e c n :
  0 ≤ n < 2 ^ 64 → store_wf (env_view e) → store_wf (env_view (save_ack e c n)).
Proof. intros Hn Hwf. destruct (save_ack_cases e c n) as [->| ->]; auto using store_wf_ack. Qed.

Lemma get_last_seq_range e : store_wf (env_view e) → 0 ≤ get_last_seq e < 2 ^ 64.
Proof. intros Hwf. destruct (get_last_seq_cases e) as [->|[_ ->]]; [by apply m_last_range|lia]. Qed.
End client.

End Storage.
