(* ===== verification/Signing.v ===== *)
(** * Signing: [src/crypto/signing.cpp]

    The wrappers over libsodium, with the library as an interface, and the
    hexadecimal codec of public keys and signatures. *)

From S2P Require Import Prelude.

(** ** libsodium

    The calls the code makes; [0] is success. [crypto_sign_keypair] is a
    function of the randomness it draws. *)
Class Sodium := {
  sodium_init : Z;
  crypto_sign_keypair : bytes → bytes * bytes;
  crypto_sign_seed_keypair : bytes → bytes * bytes;
  crypto_sign_detached : bytes → bytes → bytes;
  crypto_sign_verify_detached : bytes → bytes → bytes → Z;
  sodium_memzero : bytes → bytes;
}.

(** What its documentation states of them: the sizes of the results, and that
    a signature made with a secret key verifies under its public key. *)
Class SodiumLaws `{Sodium} := {
  keypair_sizes seed : length (fst (crypto_sign_seed_keypair seed)) = 32%nat ∧
                       length (snd (crypto_sign_seed_keypair seed)) = 64%nat;
  signature_size msg sk : length (crypto_sign_detached msg sk) = 64%nat;
  signature_verifies seed msg :
    crypto_sign_verify_detached
      (crypto_sign_detached msg (snd (crypto_sign_seed_keypair seed)))
      msg (fst (crypto_sign_seed_keypair seed)) = 0;
  random_keypair_sizes rnd : length (fst (crypto_sign_keypair rnd)) = 32%nat ∧
                             length (snd (crypto_sign_keypair rnd)) = 64%nat;
  random_signature_verifies rnd msg :
    crypto_sign_verify_detached
      (crypto_sign_detached msg (snd (crypto_sign_keypair rnd)))
      msg (fst (crypto_sign_keypair rnd)) = 0;
  memzero_zeroes buf : sodium_memzero buf = replicate (length buf) (char_of 0);
}.

Module Signing.

Definition PUBLIC_KEY_SIZE : nat := 32.
Definition SECRET_KEY_SIZE : nat := 64.
Definition SIGNATURE_SIZE : nat := 64.

Record KeyPair := mkKeyPair { kp_public_key : bytes; kp_secret_key : bytes; kp_key_id : Z }.

Section wrappers.
Context `{Sodium}.

(** [init]: the flag [g_initialized] and the result. *)
Definition init (g_initialized : bool) : bool * bool :=
  if g_initialized then (true, true)
  else if sodium_init <? 0 then (false, false)
  else (true, true).

Definition is_initialized (g_initialized : bool) : bool := g_initialized.

Definition generate_keypair (rnd : bytes) : KeyPair :=
  let '(pk, sk) := crypto_sign_keypair rnd in mkKeyPair pk sk 0.

Definition generate_keypair_from_seed (seed : bytes) : KeyPair :=
  let '(pk, sk) := crypto_sign_seed_keypair seed in mkKeyPair pk sk 0.

Definition sign (message secret_key : bytes) : bytes := crypto_sign_detached message secret_key.

Definition verify (message signature public_key : bytes) : bool :=
  crypto_sign_verify_detached signature message public_key =? 0.

(** [secure_zero(ptr, size)] and the template over a container. *)
Definition secure_zero (container : bytes) : bytes := sodium_memzero container.
End wrappers.

(** A signature made with the secret half verifies under the public half. *)
Lemma own_signature_verifies `{SodiumLaws} seed message :
  verify message (sign message (kp_secret_key (generate_keypair_from_seed seed)))
    (kp_public_key (generate_keypair_from_seed seed)) = true.
Proof.
  pose proof (signature_verifies seed message) as Hv. unfold verify, sign, generate_keypair_from_seed.
  destruct (crypto_sign_seed_keypair seed) as [pk sk]. by apply Z.eqb_eq.
Qed.

Lemma random_key_verifies `{SodiumLaws} rnd message :
  verify message (sign message (kp_secret_key (generate_keypair rnd)))
    (kp_public_key (generate_keypair rnd)) = true.
Proof.
  pose proof (random_signature_verifies rnd message) as Hv. unfold verify, sign, generate_keypair.
  destruct (crypto_sign_keypair rnd) as [pk sk]. by apply Z.eqb_eq.
Qed.

Lemma generate_keypair_sizes `{SodiumLaws} rnd :
  length (kp_public_key (generate_keypair rnd)) = 32%nat ∧
  length (kp_secret_key (generate_keypair rnd)) = 64%nat.
Proof.
  pose proof (random_keypair_sizes rnd). unfold generate_keypair.
  by destruct (crypto_sign_keypair rnd).
Qed.

(** ** Hexadecimal *)

(** A digit as the stream inserter writes it (lower case). *)
Definition hex_digit (d : Z) : char := char_of (if d <? 10 then 48 + d else 87 + d).

(** [oss << std::hex << z] for a byte [z]: no leading zero. *)
Definition hex_int (z : Z) : bytes :=
  if z <? 16 then [hex_digit z] else [hex_digit (z / 16); hex_digit (z mod 16)].

(** [std::setw(2)] with the fill character ['0']. *)
Definition pad2 (s : bytes) : bytes := replicate (2 - length s) (char_of 48) ++ s.

Definition to_hex (key : bytes) : bytes :=
  concat ((λ byte, pad2 (hex_int (char_code byte))) <$> key).

Definition hex_char_to_nibble (c : char) : option Z :=
  let c := char_code c in
  if (48 <=? c) && (c <=? 57) then Some (c - 48)
  else if (97 <=? c) && (c <=? 102) then Some (c - 97 + 10)
  else if (65 <=? c) && (c <=? 70) then Some (c - 65 + 10)
  else None.

(** The loop of both decoders, over the remaining pairs of characters. *)
Fixpoint from_hex_loop (hex : bytes) : option bytes :=
  match hex with
  | h :: l :: rest =>
      match hex_char_to_nibble h, hex_char_to_nibble l with
      | Some high, Some low =>
          (λ bs, char_of (Z.lor (Z.shiftl high 4) low) :: bs) <$> from_hex_loop rest
      | _, _ => None
      end
  | _ => Some []
  end.

Definition public_key_from_hex (hex : bytes) : option bytes :=
  if Nat.eqb (length hex) (PUBLIC_KEY_SIZE * 2) then from_hex_loop hex else None.

Definition signature_from_hex (hex : bytes) : option bytes :=
  if Nat.eqb (length hex) (SIGNATURE_SIZE * 2) then from_hex_loop hex else None.

(** ** Lemmas *)

(** A digit of a number, with its case for letters: what a decoder accepts. *)
Definition lower (c : char) : char :=
  if (65 <=? char_code c) && (char_code c <=? 70) then char_of (char_code c + 32) else c.

Lemma all_chars (P : char → bool) :
  forallb (λ n, P (char_of (Z.of_nat n))) (seq 0 256) = true → ∀ c, P c = true.
Proof.
  intros H c. rewrite forallb_forall in H. pose proof (char_code_range c).
  specialize (H (Z.to_nat (char_code c))). rewrite Z2Nat.id, char_of_code in H by lia.
  apply H, in_seq. lia.
Qed.

Lemma nibble_range c d : hex_char_to_nibble c = Some d → 0 ≤ d < 16.
Proof. unfold hex_char_to_nibble. repeat break_match; reflect_bools; intros [= <-]; lia. Qed.

Lemma nibble_digit d : 0 ≤ d < 16 → hex_char_to_nibble (hex_digit d) = Some d.
Proof.
  intros Hd.
  assert (Hall : forallb (λ n, bool_decide (hex_char_to_nibble (hex_digit (Z.of_nat n)) = Some (Z.of_nat n)))
    (seq 0 16) = true) by (vm_compute; reflexivity).
  rewrite forallb_forall in Hall. specialize (Hall (Z.to_nat d)). rewrite Z2Nat.id in Hall by lia.
  apply (bool_decide_eq_true_1 (_ = _)), Hall, in_seq. lia.
Qed.

(** The character a nibble is written back with. *)
Definition digit_back (c : char) : bool :=
  match hex_char_to_nibble c with
  | Some d => bool_decide (hex_digit d = lower c)
  | None => true
  end.

Lemma digit_nibble c d : hex_char_to_nibble c = Some d → hex_digit d = lower c.
Proof.
  intros H. assert (Hall : digit_back c = true).
  { revert c H. intros c _. apply all_chars. vm_compute. reflexivity. }
  unfold digit_back in Hall. rewrite H in Hall. by reflect_bools.
Qed.

Lemma pad2_hex z : 0 ≤ z < 256 → pad2 (hex_int z) = [hex_digit (z / 16); hex_digit (z mod 16)].
Proof.
  intros Hz. unfold hex_int. destruct (z <? 16) eqn:E; reflect_bools; [|done].
  rewrite Z.div_small, Z.mod_small by lia. done.
Qed.

Lemma nibbles_byte h l : 0 ≤ h < 16 → 0 ≤ l < 16 → Z.lor (Z.shiftl h 4) l = h * 16 + l.
Proof. intros. by rewrite lor_shiftl by lia. Qed.

Lemma to_hex_cons b key :
  to_hex (b :: key) =
    hex_digit (char_code b / 16) :: hex_digit (char_code b mod 16) :: to_hex key.
Proof.
  unfold to_hex. rewrite fmap_cons. cbn [concat]. by rewrite pad2_hex by apply char_code_range.
Qed.

Lemma from_hex_to_hex_app key r :
  from_hex_loop (to_hex key ++ r) = app key <$> from_hex_loop r.
Proof.
  induction key as [|b key IH].
  { change (to_hex [] ++ r) with r. by destruct (from_hex_loop r). }
  pose proof (char_code_range b). rewrite to_hex_cons. cbn [app from_hex_loop]. rewrite IH.
  rewrite !nibble_digit by dlia. rewrite nibbles_byte by dlia.
  rewrite Z.mul_comm, <-Z.div_mod by lia. rewrite char_of_code.
  by destruct (from_hex_loop r).
Qed.

Lemma length_to_hex key : length (to_hex key) = (2 * length key)%nat.
Proof. induction key as [|b key IH]; [done|]. rewrite to_hex_cons. simpl. lia. Qed.

Lemma to_hex_from_hex hex bs :
  from_hex_loop hex = Some bs → Nat.even (length hex) = true → to_hex bs = lower <$> hex.
Proof.
  revert bs. induction hex as [hex IH] using (induction_ltof1 _ (@length char)).
  unfold ltof in IH. intros bs. destruct hex as [|h [|l rest]]; simpl; [by intros [= <-]|done|].
  destruct (hex_char_to_nibble h) as [dh|] eqn:Eh; [|done].
  destruct (hex_char_to_nibble l) as [dl|] eqn:El; [|done].
  destruct (from_hex_loop rest) as [r|] eqn:Er; [|done]. intros [= <-] He.
  pose proof (nibble_range _ _ Eh). pose proof (nibble_range _ _ El).
  rewrite nibbles_byte by done. rewrite to_hex_cons, char_code_of, Z.mod_small by lia.
  replace ((dh * 16 + dl) / 16) with dh by dlia.
  replace ((dh * 16 + dl) mod 16) with dl by dlia.
  rewrite (digit_nibble _ _ Eh), (digit_nibble _ _ El). do 2 f_equal.
  apply (IH rest); simpl; [lia|done|done].
Qed.

Lemma from_hex_length hex bs :
  from_hex_loop hex = Some bs → length bs = Nat.div2 (length hex).
Proof.
  revert bs. induction hex as [hex IH] using (induction_ltof1 _ (@length char)).
  unfold ltof in IH. intros bs. destruct hex as [|h [|l rest]]; simpl; [by intros [= <-]..|].
  destruct (hex_char_to_nibble h), (hex_char_to_nibble l); try done.
  destruct (from_hex_loop rest) as [r|] eqn:Er; [|done]. intros [= <-]. simpl. f_equal.
  apply IH; [simpl; lia|done].
Qed.

(** ** Theorems *)

(** The hexadecimal codec of public keys is exact in both directions: every
    32-byte key is read back from its text; and a text the decoder accepts is,
    up to the case of its letters, the text of the 32-byte key it returns. *)
Theorem public_key_hex_roundtrip :
  (∀ key, length key = PUBLIC_KEY_SIZE → public_key_from_hex (to_hex key) = Some key) ∧
  (∀ hex key, public_key_from_hex hex = Some key →
    length key = PUBLIC_KEY_SIZE ∧ to_hex key = lower <$> hex).
Proof.
  unfold public_key_from_hex. split.
  - intros key Hk. rewrite length_to_hex, Hk. simpl Nat.eqb. cbn iota.
    rewrite <-(app_nil_r (to_hex key)), from_hex_to_hex_app. simpl. by rewrite app_nil_r.
  - intros hex key. destruct (Nat.eqb _ _) eqn:E; [|done]. apply Nat.eqb_eq in E.
    intros H. split; [rewrite (from_hex_length _ _ H), E; done|].
    apply to_hex_from_hex; [done|]. by rewrite E.
Qed.

(** The same for signatures, which are 64 bytes. *)
Theorem signature_hex_roundtrip :
  (∀ sig, length sig = SIGNATURE_SIZE → signature_from_hex (to_hex sig) = Some sig) ∧
  (∀ hex sig, signature_from_hex hex = Some sig →
    length sig = SIGNATURE_SIZE ∧ to_hex sig = lower <$> hex).
Proof.
  unfold signature_from_hex. split.
  - intros key Hk. rewrite length_to_hex, Hk. simpl Nat.eqb. cbn iota.
    rewrite <-(app_nil_r (to_hex key)), from_hex_to_hex_app. simpl. by rewrite app_nil_r.
  - intros hex key. destruct (Nat.eqb _ _) eqn:E; [|done]. apply Nat.eqb_eq in E.
    intros H. split; [rewrite (from_hex_length _ _ H), E; done|].
    apply to_hex_from_hex; [done|]. by rewrite E.
Qed.

End Signing.

(** ** An instance

    A scheme that satisfies the laws: the signature is the public key followed
    by the low bytes of the message, padded to 64 bytes. *)
Definition toy_digest (msg : bytes) : bytes := take 32 (msg ++ replicate 32 (char_of 0)).
Definition toy_pad (s : bytes) : bytes := take 32 (s ++ replicate 32 (char_of 0)).

#[local] Instance ToySodium : Sodium := {|
  sodium_init := 0;
  crypto_sign_keypair rnd := (toy_pad rnd, toy_pad rnd ++ toy_pad rnd);
  sodium_memzero buf := replicate (length buf) (char_of 0);
  crypto_sign_seed_keypair seed := (toy_pad seed, toy_pad seed ++ toy_pad seed);
  crypto_sign_detached msg sk := toy_pad sk ++ toy_digest msg;
  crypto_sign_verify_detached sig msg pk :=
    if bool_decide (sig = toy_pad pk ++ toy_digest msg) then 0 else -1;
|}.

Lemma toy_pad_length s : length (toy_pad s) = 32%nat.
Proof. unfold toy_pad. rewrite length_take, length_app, length_replicate. lia. Qed.
Lemma toy_pad_app s r : toy_pad (toy_pad s ++ r) = toy_pad s.
Proof.
  unfold toy_pad at 1. rewrite <-app_assoc, take_app_at; [done|by rewrite toy_pad_length].
Qed.

#[local] Instance ToySodiumLaws : SodiumLaws.
Proof.
  assert (Hv : ∀ seed msg, (if bool_decide (toy_pad (toy_pad seed ++ toy_pad seed) ++ toy_digest msg =
      toy_pad (toy_pad seed) ++ toy_digest msg) then 0 else -1) = 0).
  { intros seed msg. rewrite toy_pad_app, bool_decide_true; [done|].
    f_equal. rewrite <-(app_nil_r (toy_pad seed)) at 2. by rewrite toy_pad_app. }
  split; simpl; auto.
  - intros seed. by rewrite length_app, !toy_pad_length.
  - intros msg sk. rewrite length_app, toy_pad_length. unfold toy_digest.
    rewrite length_take, length_app, length_replicate. lia.
  - intros rnd. by rewrite length_app, !toy_pad_length.
Qed.
