(* ===== verification/Streams.v ===== *)
(** * Streams: formatted output of [std::ostream]

    The state of a stream that matters for the tools: the text written, the
    base, the width of the next insertion and the fill character. A program's
    output is a list of insertions. *)

From S2P Require Import Prelude Text Signing.

(** The double quote, and the end of a line. *)
Definition QUOTE : bytes := [char_of 34].
Definition NL : bytes := [char_of 10].

(** A 32-bit number in base sixteen, as [String(n, HEX)] and [std::hex] write
    it: lower case, no leading zeros. Eight digits are fuel enough. *)
Fixpoint hex_loop (fuel : nat) (n : Z) (acc : bytes) : bytes :=
  match fuel with
  | O => acc
  | S f => if n <? 16 then Signing.hex_digit n :: acc
           else hex_loop f (n / 16) (Signing.hex_digit (n mod 16) :: acc)
  end.
Definition hex_string (n : Z) : bytes := hex_loop 8 n [].

Lemma hex_loop_length f n acc : (length (hex_loop f n acc) ≤ f + length acc)%nat.
Proof.
  revert n acc. induction f as [|f IH]; intros n acc; simpl; [done|].
  case_match; simpl; [lia|]. etrans; [apply IH|]. simpl. lia.
Qed.

Lemma hex_string_byte z : 0 ≤ z < 256 → hex_string z = Signing.hex_int z.
Proof.
  intros Hz. unfold hex_string, Signing.hex_int. cbn [hex_loop].
  destruct (z <? 16) eqn:E; reflect_bools; [done|]. rewrite (proj2 (Z.ltb_lt (z / 16) 16)) by dlia. done.
Qed.

(** ** Streams *)

Record ostream := mkStream {
  text : bytes;
  hex_base : bool;
  width : nat;
  fill : char;
}.

Definition fresh : ostream := mkStream [] false 0 (char_of 32).

Inductive insertion :=
| Str (s : bytes)
| Int (z : Z)
| Hex
| Dec
| SetW (n : nat)
| SetFill (c : char).

(** A field is padded on the left to the width, which is then reset. *)
Definition put_field (s : bytes) (o : ostream) : ostream :=
  mkStream (text o ++ replicate (width o - length s) (fill o) ++ s) (hex_base o) 0 (fill o).

(** [o << i] *)
Definition insert (i : insertion) (o : ostream) : ostream :=
  match i with
  | Str s => put_field s o
  | Int z => put_field (if hex_base o then hex_string (u32 z) else to_string z) o
  | Hex => mkStream (text o) true (width o) (fill o)
  | Dec => mkStream (text o) false (width o) (fill o)
  | SetW n => mkStream (text o) (hex_base o) n (fill o)
  | SetFill c => mkStream (text o) (hex_base o) (width o) c
  end.

Definition insert_all (l : list insertion) (o : ostream) : ostream := fold_left (λ o i, insert i o) l o.

(** What a fresh stream holds after the insertions. *)
Definition rendered (l : list insertion) : bytes := text (insert_all l fresh).

(** A line of text. *)
Definition line (s : string) : list insertion := [Str (lit s ++ NL)].

(** ** Streams with no pending width *)

Abbreviation clean t b f := (mkStream t b 0 f).

Lemma insert_all_app l1 l2 o : insert_all (l1 ++ l2) o = insert_all l2 (insert_all l1 o).
Proof. apply fold_left_app. Qed.

Lemma insert_all_nil o : insert_all [] o = o.
Proof. done. Qed.
Lemma insert_str s l t b f : insert_all (Str s :: l) (clean t b f) = insert_all l (clean (t ++ s) b f).
Proof. done. Qed.
Lemma insert_str_any s l o :
  insert_all (Str s :: l) o =
  insert_all l (clean (text o ++ replicate (width o - length s) (fill o) ++ s) (hex_base o) (fill o)).
Proof. done. Qed.
Lemma insert_int z l t f :
  insert_all (Int z :: l) (clean t false f) = insert_all l (clean (t ++ to_string z) false f).
Proof. done. Qed.
Lemma insert_dec l t b f : insert_all (Dec :: l) (clean t b f) = insert_all l (clean t false f).
Proof. done. Qed.

Lemma optional_str (x : bool) s t b f :
  insert_all (if x then [Str s] else []) (clean t b f) = clean (t ++ if x then s else []) b f.
Proof. destruct x; [by rewrite insert_str|by rewrite app_nil_r]. Qed.

Create Rewrite HintDb streams.
#[export] Hint Rewrite insert_str insert_int insert_dec insert_all_nil insert_all_app : streams.
