(* ===== verification/Keystore.v ===== *)
(** * Keystore: [src/crypto/keystore.cpp]

    The registry of trusted keys: every method of [TrustedKeyStore], then
    histories of calls and what holds of them. The wall clock is an argument
    of the methods that read it. *)

From S2P Require Import Prelude Signing.

Module Keystore.

Record TrustedKey := mkKey {
  public_key : bytes;
  key_id : Z;
  device_name : bytes;
  allowed_topics : bytes;
  enabled : bool;
  registered_at : Z;
  last_used : Z;
}.

Record TrustedKeyStore := mkStore {
  keys_ : gmap Z TrustedKey;
  next_key_id_ : Z;
}.

(** A new store. *)
Definition new_store : TrustedKeyStore := mkStore ∅ 1.

Definition UINT32_MAX : Z := 2 ^ 32 - 1.

(** ** Methods *)

(** [register_key(public_key, ...)]: the identifier is chosen by the store. *)
Definition register_key_auto (now : Z) (s : TrustedKeyStore) (pk name topics : bytes)
    : TrustedKeyStore * Z :=
  let id := next_key_id_ s in
  let tk := mkKey pk id name topics true now 0 in
  (mkStore (<[id := tk]> (keys_ s)) (u32 (next_key_id_ s + 1)), id).

(** [register_key(key_id, public_key, ...)] *)
Definition register_key (now : Z) (s : TrustedKeyStore) (id : Z) (pk name topics : bytes)
    : TrustedKeyStore * bool :=
  if bool_decide (is_Some (keys_ s !! id)) then (s, false)
  else
    let tk := mkKey pk id name topics true now 0 in
    (mkStore (<[id := tk]> (keys_ s))
       (if next_key_id_ s <=? id then u32 (id + 1) else next_key_id_ s), true).

Definition get_key (s : TrustedKeyStore) (id : Z) : option bytes :=
  match keys_ s !! id with
  | Some k => if negb (enabled k) then None else Some (public_key k)
  | None => None
  end.

Definition get_key_info (s : TrustedKeyStore) (id : Z) : option TrustedKey := keys_ s !! id.

Definition is_trusted (s : TrustedKeyStore) (id : Z) : bool :=
  match keys_ s !! id with Some k => enabled k | None => false end.

Definition set_last_used (now : Z) (k : TrustedKey) : TrustedKey :=
  mkKey (public_key k) (key_id k) (device_name k) (allowed_topics k) (enabled k)
    (registered_at k) now.

Definition touch (now : Z) (s : TrustedKeyStore) (id : Z) : TrustedKeyStore :=
  match keys_ s !! id with
  | Some k => mkStore (<[id := set_last_used now k]> (keys_ s)) (next_key_id_ s)
  | None => s
  end.

Definition verify_with_key `{Sodium} (now : Z) (s : TrustedKeyStore) (id : Z)
    (message signature : bytes) : TrustedKeyStore * bool :=
  match keys_ s !! id with
  | None => (s, false)
  | Some k =>
      if negb (enabled k) then (s, false)
      else
        let valid := Signing.verify message signature (public_key k) in
        (if valid then touch now s id else s, valid)
  end.

Definition with_enabled (b : bool) (k : TrustedKey) : TrustedKey :=
  mkKey (public_key k) (key_id k) (device_name k) (allowed_topics k) b
    (registered_at k) (last_used k).

Definition set_enabled (s : TrustedKeyStore) (id : Z) (b : bool) : TrustedKeyStore * bool :=
  match keys_ s !! id with
  | None => (s, false)
  | Some k => (mkStore (<[id := with_enabled b k]> (keys_ s)) (next_key_id_ s), true)
  end.

Definition remove_key (s : TrustedKeyStore) (id : Z) : TrustedKeyStore * bool :=
  (mkStore (delete id (keys_ s)) (next_key_id_ s), bool_decide (is_Some (keys_ s !! id))).

(** The order of an [unordered_map] is not specified; this is one order. *)
Definition get_all_key_ids (s : TrustedKeyStore) : list Z := (map_to_list (keys_ s)).*1.

Definition count (s : TrustedKeyStore) : Z := Z.of_nat (size (keys_ s)).

Definition clear (s : TrustedKeyStore) : TrustedKeyStore := mkStore ∅ 1.

(** ** Histories *)

(** A call, with its arguments and the time at which it runs. *)
Inductive call :=
| RegisterAuto (now : Z) (pk name topics : bytes)
| Register (now : Z) (id : Z) (pk name topics : bytes)
| Verify (now : Z) (id : Z) (message signature : bytes)
| SetEnabled (id : Z) (b : bool)
| Remove (id : Z)
| Clear
| Touch (now : Z) (id : Z).

Section histories.
Context `{Sodium}.

Definition apply_call (s : TrustedKeyStore) (c : call) : TrustedKeyStore :=
  match c with
  | RegisterAuto now pk name topics => fst (register_key_auto now s pk name topics)
  | Register now id pk name topics => fst (register_key now s id pk name topics)
  | Verify now id msg sig => fst (verify_with_key now s id msg sig)
  | SetEnabled id b => fst (set_enabled s id b)
  | Remove id => fst (remove_key s id)
  | Clear => clear s
  | Touch now id => touch now s id
  end.

Definition apply_calls (s : TrustedKeyStore) (cs : list call) : TrustedKeyStore :=
  fold_left apply_call cs s.

(** The identifiers callers pass to [register_key] are at most [M]. *)
Definition ids_below (M : Z) (c : call) : Prop :=
  match c with Register _ id _ _ _ => 0 ≤ id ≤ M | _ => True end.

(** Every key is filed under its own identifier, below the next one. *)
Definition store_inv (s : TrustedKeyStore) : Prop :=
  1 ≤ next_key_id_ s ≤ UINT32_MAX ∧
  ∀ id k, keys_ s !! id = Some k → key_id k = id ∧ 0 ≤ id < next_key_id_ s.

Lemma new_store_inv : store_inv new_store.
Proof. split; [unfold UINT32_MAX; simpl; lia|]. intros id k. simpl. by rewrite lookup_empty. Qed.

Lemma store_inv_insert s id k n :
  store_inv s → key_id k = id → 0 ≤ id < n → next_key_id_ s ≤ n ≤ UINT32_MAX →
  store_inv (mkStore (<[id := k]> (keys_ s)) n).
Proof.
  intros [Hn Hk] Hid Hr Hn'. split; simpl; [lia|]. intros id' k'.
  destruct (decide (id = id')) as [->|Hne].
  - rewrite lookup_insert_eq. intros [= <-]. lia.
  - rewrite lookup_insert_ne by done. intros [? ?]%Hk. lia.
Qed.

Lemma touch_inv now s id : store_inv s → store_inv (touch now s id) ∧ next_key_id_ (touch now s id) = next_key_id_ s.
Proof.
  intros Hi. unfold touch. destruct (keys_ s !! id) as [k|] eqn:E; [|done].
  split; [|done]. destruct Hi as [Hn Hk]. destruct (Hk _ _ E). by apply store_inv_insert; [|simpl; lia..].
Qed.

(** One call moves the next identifier up by at most one, or to the registered
    identifier plus one. *)
Lemma apply_call_inv M s c B :
  store_inv s → ids_below M c → next_key_id_ s ≤ B → M < B → B + 1 ≤ UINT32_MAX →
  store_inv (apply_call s c) ∧ next_key_id_ (apply_call s c) ≤ B + 1.
Proof.
  intros Hi Hc Hb HM HB. pose proof Hi as [Hn Hk].
  assert (Hw : ∀ z, 0 ≤ z ≤ UINT32_MAX → u32 z = z) by (intros; apply u32_small; unfold UINT32_MAX in *; lia).
  destruct c as [now pk name topics|now id pk name topics|now id msg sig|id b|id| |now id]; simpl.
  - rewrite Hw by lia. split; [|lia]. apply store_inv_insert; simpl; auto; lia.
  - unfold register_key. case_bool_decide; simpl; [split; [done|lia]|]. simpl in Hc.
    destruct (next_key_id_ s <=? id) eqn:E; reflect_bools; [rewrite Hw by lia|];
      (split; [|lia]); apply store_inv_insert; simpl; auto; lia.
  - unfold verify_with_key. destruct (keys_ s !! id) as [k|]; [|split; [done|simpl; lia]].
    destruct (negb (enabled k)); [split; [done|simpl; lia]|]. simpl.
    destruct (Signing.verify _ _ _); [|split; [done|lia]].
    destruct (touch_inv now s id Hi) as [? ->]. split; [done|lia].
  - unfold set_enabled. destruct (keys_ s !! id) as [k|] eqn:E; simpl; [|split; [done|lia]].
    destruct (Hk _ _ E). split; [|lia]. apply store_inv_insert; simpl; auto; lia.
  - split; [|lia]. split; simpl; [done|]. intros id' k' [_ ?]%lookup_delete_Some. auto.
  - split; [|lia]. apply new_store_inv.
  - destruct (touch_inv now s id Hi) as [? ->]. split; [done|lia].
Qed.

Lemma apply_calls_inv M cs s B :
  store_inv s → Forall (ids_below M) cs → next_key_id_ s ≤ B → M < B →
  B + Z.of_nat (length cs) ≤ UINT32_MAX →
  store_inv (apply_calls s cs) ∧ next_key_id_ (apply_calls s cs) ≤ B + Z.of_nat (length cs).
Proof.
  intros Hi Hcs. revert s B Hi. induction Hcs as [|c cs Hc _ IH]; intros s B Hi Hb HM HB; simpl in *.
  { split; [done|lia]. }
  destruct (apply_call_inv M s c B) as [Hi' Hb']; try done; [lia|].
  destruct (IH (apply_call s c) (B + 1)) as [? ?]; try done; try lia. split; [done|]. unfold apply_calls in *. lia.
Qed.

(** ** Theorems *)

(** From a new store, after any history of calls whose explicit identifiers
    stay at or below [M], with room for the calls in 32 bits: every key is
    filed under its own identifier, and automatic registration issues an
    identifier that is not in use, adds that key, enabled, and no other. *)
Theorem auto_register_fresh M cs now pk name topics :
  Forall (ids_below M) cs → 0 ≤ M → M + 1 + Z.of_nat (length cs) ≤ UINT32_MAX →
  let s := apply_calls new_store cs in
  let '(s', id) := register_key_auto now s pk name topics in
  (∀ i k, keys_ s !! i = Some k → key_id k = i) ∧
  get_key_info s id = None ∧
  get_key s' id = Some pk ∧
  (∀ i, i ≠ id → get_key_info s' i = get_key_info s i) ∧
  count s' = count s + 1.
Proof.
  intros Hcs HM Hroom s.
  destruct (apply_calls_inv M cs new_store (M + 1) new_store_inv Hcs) as [[Hn Hk] _]; [simpl; lia..|].
  fold s in Hn, Hk. simpl.
  assert (Hfree : keys_ s !! next_key_id_ s = None).
  { destruct (keys_ s !! next_key_id_ s) eqn:E; [|done]. apply Hk in E. lia. }
  split; [intros i k Hi; by apply Hk|]. split; [done|]. unfold get_key, get_key_info, count. simpl.
  rewrite lookup_insert_eq. split; [done|]. split; [intros i Hi; by rewrite lookup_insert_ne by done|].
  rewrite map_size_insert_None by done. lia.
Qed.

(** Calls that could make a revoked key usable again: re-enabling it, or
    freeing its identifier. *)
Definition keeps_revoked (id : Z) (c : call) : Prop :=
  match c with
  | SetEnabled i b => i ≠ id ∨ b = false
  | Remove i => i ≠ id
  | Clear => False
  | _ => True
  end.

Definition revoked (s : TrustedKeyStore) (id : Z) : Prop :=
  ∃ k, keys_ s !! id = Some k ∧ enabled k = false.

Lemma revoked_insert s id i k n :
  revoked s id → (i ≠ id ∨ enabled k = false) → revoked (mkStore (<[i := k]> (keys_ s)) n) id.
Proof.
  intros (k0 & Hk & He) Hor. destruct (decide (i = id)) as [->|Hne].
  - exists k. simpl. rewrite lookup_insert_eq. naive_solver.
  - exists k0. simpl. by rewrite lookup_insert_ne.
Qed.

Lemma touch_revoked now s i id : revoked s id → revoked (touch now s i) id.
Proof.
  intros Hr. unfold touch. destruct (keys_ s !! i) as [k|] eqn:E; [|done].
  apply revoked_insert; [done|]. destruct (decide (i = id)) as [->|]; [|auto].
  destruct Hr as (k0 & Hk & He). simplify_eq. auto.
Qed.

Lemma apply_call_revoked s c id :
  store_inv s → revoked s id → keeps_revoked id c → revoked (apply_call s c) id.
Proof.
  intros [Hn Hk] Hr Hc.
  assert (Hnext : next_key_id_ s ≠ id) by (destruct Hr as (k & [_ ?]%Hk & _); lia).
  destruct c as [now pk name topics|now i pk name topics|now i msg sig|i b|i| |now i]; simpl in *.
  - apply revoked_insert; auto.
  - unfold register_key. case_bool_decide as Hi; [done|]. apply revoked_insert; [done|].
    left. intros ->. destruct Hr as (k & Hkk & _). eauto.
  - unfold verify_with_key. destruct (keys_ s !! i) as [k|]; [|done].
    destruct (negb (enabled k)); [done|]. simpl. destruct (Signing.verify _ _ _); [|done].
    by apply touch_revoked.
  - unfold set_enabled. destruct (keys_ s !! i) as [k|] eqn:E; [|done]. simpl.
    apply revoked_insert; [done|]. naive_solver.
  - destruct Hr as (k & Hkk & He). exists k. simpl. by rewrite lookup_delete_ne.
  - done.
  - by apply touch_revoked.
Qed.

Lemma apply_calls_revoked M cs s id B :
  store_inv s → Forall (ids_below M) cs → Forall (keeps_revoked id) cs →
  next_key_id_ s ≤ B → M < B → B + Z.of_nat (length cs) ≤ UINT32_MAX →
  revoked s id → revoked (apply_calls s cs) id.
Proof.
  intros Hi Hcs. revert s B Hi. induction Hcs as [|c cs Hc _ IH]; intros s B Hi Hkr Hb HM HB Hr; [done|].
  apply Forall_cons in Hkr as [Hk Hkr]. simpl in *.
  destruct (apply_call_inv M s c B) as [Hi' Hb']; try done; [lia|].
  apply (IH (apply_call s c) (B + 1)); try done; try lia. by apply apply_call_revoked.
Qed.

Lemma verify_revoked now s id msg sig :
  revoked s id → verify_with_key now s id msg sig = (s, false) ∧ get_key s id = None ∧ is_trusted s id = false.
Proof.
  intros (k & Hk & He). unfold verify_with_key, get_key, is_trusted. by rewrite Hk, He.
Qed.

(** C29: Revocation holds: once a known key is disabled, no history of calls that
    does not enable it again or free its identifier makes it usable: no
    signature verifies with it, it is not handed out and it is not trusted. The
    identifiers registered explicitly are at most [M], and [M], 2 and the number
    of calls come to at most [2^32 - 1] together; beyond that the counter of
    automatic identifiers wraps around and a registration may overwrite the
    disabled key ([auto_register_overwrites]). *)
Theorem revocation_holds M cs1 cs2 id :
  Forall (ids_below M) cs1 → Forall (ids_below M) cs2 → Forall (keeps_revoked id) cs2 →
  0 ≤ M → M + 2 + Z.of_nat (length cs1) + Z.of_nat (length cs2) ≤ UINT32_MAX →
  let s1 := apply_calls new_store cs1 in
  is_Some (get_key_info s1 id) →
  let s2 := apply_calls (fst (set_enabled s1 id false)) cs2 in
  (∀ now msg sig, verify_with_key now s2 id msg sig = (s2, false)) ∧
  get_key s2 id = None ∧ is_trusted s2 id = false ∧ is_Some (get_key_info s2 id).
Proof.
  intros H1 H2 Hk HM Hroom s1 [k Hid] s2.
  destruct (apply_calls_inv M cs1 new_store (M + 1) new_store_inv H1) as [Hi Hb]; [simpl; lia..|].
  fold s1 in Hi, Hb. unfold get_key_info in Hid.
  destruct (apply_call_inv M s1 (SetEnabled id false) (M + 1 + Z.of_nat (length cs1))) as [Hi' Hb'];
    [done|done|lia|lia|lia|]. simpl in Hi', Hb'.
  assert (Hr : revoked s2 id).
  { apply (apply_calls_revoked M _ _ _ (M + 2 + Z.of_nat (length cs1))); try done; [lia..|].
    unfold set_enabled. rewrite Hid. eexists. simpl. rewrite lookup_insert_eq. done. }
  split; [intros; by apply verify_revoked|].
  destruct (verify_revoked 0 s2 id [] [] Hr) as (_ & ? & ?). split; [done|]. split; [done|].
  destruct Hr as (k' & ? & _). eauto.
Qed.

(** [verify_with_key] answers [true] exactly when the key is registered,
    enabled, and the signature verifies under it; the only change it makes to
    the store is the [last_used] stamp of that key, on success. *)
Theorem verify_with_key_exact now s id msg sig :
  let '(s', ok) := verify_with_key now s id msg sig in
  (ok = true ↔ ∃ k, get_key_info s id = Some k ∧ enabled k = true ∧
                   Signing.verify msg sig (public_key k) = true) ∧
  next_key_id_ s' = next_key_id_ s ∧
  (∀ i, get_key_info s' i =
    if ok && bool_decide (i = id) then set_last_used now <$> get_key_info s i else get_key_info s i).
Proof.
  unfold verify_with_key, get_key_info.
  destruct (keys_ s !! id) as [k|] eqn:E; [|split; [naive_solver|done]].
  destruct (enabled k) eqn:He; simpl; [|split; [split; [done|naive_solver]|done]].
  destruct (Signing.verify msg sig (public_key k)) eqn:Ev; [|split; [split; [done|naive_solver]|done]].
  split; [naive_solver|]. unfold touch. rewrite E. simpl. split; [done|]. intros i.
  case_bool_decide as Hi; [subst; by rewrite lookup_insert_eq, E|by rewrite lookup_insert_ne].
Qed.
End histories.

(** ** Witnesses *)

#[local] Existing Instance ToySodium.

Lemma auto_register_fresh_witness :
  get_key (fst (register_key_auto 9 (apply_calls new_store
    [RegisterAuto 1 (lit "A") [] (lit "*"); Register 2 7 (lit "B") [] []; Remove 1])
      (lit "C") [] [])) 8 = Some (lit "C").
Proof.
  pose proof (auto_register_fresh 7
    [RegisterAuto 1 (lit "A") [] (lit "*"); Register 2 7 (lit "B") [] []; Remove 1] 9 (lit "C") [] [])
    as H.
  destruct H as (_ & _ & H & _).
  - repeat constructor; simpl; lia.
  - lia.
  - vm_compute. discriminate.
  - exact H.
Defined.

Lemma revocation_holds_witness :
  verify_with_key 5 (apply_calls (fst (set_enabled (apply_calls new_store
      [RegisterAuto 1 (lit "A") [] (lit "*")]) 1 false)) [Register 3 1 (lit "B") [] []; Touch 4 1])
    1 (lit "m") (lit "s") =
  (apply_calls (fst (set_enabled (apply_calls new_store
      [RegisterAuto 1 (lit "A") [] (lit "*")]) 1 false)) [Register 3 1 (lit "B") [] []; Touch 4 1], false).
Proof.
  apply (revocation_holds 7 [RegisterAuto 1 (lit "A") [] (lit "*")]
    [Register 3 1 (lit "B") [] []; Touch 4 1] 1).
  - repeat constructor; simpl; lia.
  - repeat constructor; simpl; lia.
  - repeat constructor; simpl; lia.
  - lia.
  - vm_compute. discriminate.
  - vm_compute. eauto.
Defined.

(** Without the bound on identifiers the counter wraps: a key registered under
    the largest identifier sets it to zero, and the second automatic
    registration after that overwrites the key filed under 1. *)
Theorem auto_register_overwrites now a b c d t0 t1 t2 t3 :
  let s1 := fst (register_key_auto now new_store a t0 t1) in
  let s2 := fst (register_key now s1 UINT32_MAX b t0 t1) in
  let s3 := fst (register_key_auto now s2 c t0 t1) in
  let '(s4, id) := register_key_auto now s3 d t2 t3 in
  get_key s3 1 = Some a ∧ id = 1 ∧ get_key s4 1 = Some d.
Proof. repeat split; reflexivity. Qed.

End Keystore.
