(* ===== verification/Keygen.v ===== *)
(** * Keygen: [tools/keygen.cpp]

    The key generator as a function of its arguments, the randomness libsodium
    draws, the time and whether the header file can be opened: what it prints,
    the header it writes and its exit code. The theorems read the header back
    as C. *)

From S2P Require Import Prelude Text Signing Streams Keystore.

Module Keygen.

(** ** The arrays *)

(** [out << "0x" << std::hex << std::setw(2) << std::setfill('0') << static_cast<int>(key\[i\])] *)
Definition byte_items (c : char) : list insertion :=
  [Str (lit "0x"); Hex; SetW 2; SetFill (char_of 48); Int (char_code c)].

(** Twelve bytes to a line; [n] is the size of the [std::array]. *)
Definition array_items (n : nat) (key : bytes) : list insertion :=
  concat (imap (λ i c,
    (if Nat.eqb (i mod 12) 0 then [Str (lit "    ")] else []) ++
    byte_items c ++
    (if Nat.ltb i (n - 1) then [Str (lit ", ")] else []) ++
    (if Nat.eqb ((i + 1) mod 12) 0 then [Str NL] else [])) key) ++
  (if Nat.eqb (n mod 12) 0 then [] else [Str NL]).

(** The one-line form of the registration code. *)
Definition inline_items (n : nat) (key : bytes) : list insertion :=
  concat (imap (λ i c, byte_items c ++ (if Nat.ltb i (n - 1) then [Str (lit ",")] else [])) key).

(** ** The output *)

Definition banner : list insertion := [Str (lit "=== MetricMQ Ed25519 Key Generator ===" ++ NL ++ NL)].

Definition summary (device_name allowed_topics : bytes) (key_id : Z) (pk : bytes) : list insertion :=
  [Str (lit "Device Name:    "); Str device_name; Str NL;
   Str (lit "Allowed Topics: "); Str allowed_topics; Str NL;
   Str (lit "Key ID:         "); Int key_id; Str NL;
   Str (lit "Public Key:     "); Str (Signing.to_hex pk); Str (NL ++ NL)].

Definition device_lines (device_name allowed_topics : bytes) (key_id : Z) : list insertion :=
  [Str (lit "// Device: "); Str device_name; Str (lit " | Key ID: "); Int key_id; Str NL;
   Str (lit "// Allowed topics: "); Str allowed_topics; Str NL].

Definition sketch_arrays (device_name allowed_topics : bytes) (key_id : Z) (sk pk : bytes) : list insertion :=
  [Str (lit "// ===== PASTE INTO YOUR ARDUINO SKETCH =====" ++ NL ++ NL)] ++
  device_lines device_name allowed_topics key_id ++
  [Str (lit "const uint32_t DEVICE_KEY_ID = "); Int key_id; Str (lit ";" ++ NL ++ NL);
   Str (lit "// Ed25519 SECRET key (64 bytes) — keep private!" ++ NL);
   Str (lit "const uint8_t DEVICE_SECRET_KEY[64] = {" ++ NL)] ++
  array_items Signing.SECRET_KEY_SIZE sk ++
  [Str (lit "};" ++ NL ++ NL);
   Str (lit "// Ed25519 PUBLIC key (32 bytes) — share freely" ++ NL);
   Str (lit "const uint8_t DEVICE_PUBLIC_KEY[32] = {" ++ NL)] ++
  array_items Signing.PUBLIC_KEY_SIZE pk ++
  [Str (lit "};" ++ NL ++ NL); Str (lit "// ===== END OF KEYS =====" ++ NL ++ NL)].

Definition registration (device_name allowed_topics : bytes) (key_id : Z) (pk : bytes) : list insertion :=
  [Dec;
   Str (lit "// ===== PASTE INTO BROKER STARTUP / REGISTRATOR =====" ++ NL);
   Str (lit "// auto& ks = metricmq::crypto::get_global_keystore();" ++ NL);
   Str (lit "// metricmq::crypto::PublicKey pk = {")] ++
  inline_items Signing.PUBLIC_KEY_SIZE pk ++
  [Str (lit "};" ++ NL); Dec;
   Str (lit "// ks.register_key("); Int key_id; Str (lit ", pk, " ++ QUOTE); Str device_name;
   Str (QUOTE ++ lit ", " ++ QUOTE); Str allowed_topics; Str (QUOTE ++ lit ");" ++ NL ++ NL)].

(** The header file, up to the first array and whole. *)
Definition header_start (device_name allowed_topics : bytes) (key_id : Z) : list insertion :=
  [Str (lit "// Auto-generated by metricmq-keygen" ++ NL)] ++
  device_lines device_name allowed_topics key_id ++
  [Str NL; Str (lit "#pragma once" ++ NL ++ NL);
   Str (lit "const uint32_t DEVICE_KEY_ID = "); Int key_id; Str (lit ";" ++ NL ++ NL);
   Str (lit "const uint8_t DEVICE_SECRET_KEY[64] = {" ++ NL)].
Definition header_items (device_name allowed_topics : bytes) (key_id : Z) (sk pk : bytes) : list insertion :=
  header_start device_name allowed_topics key_id ++
  array_items Signing.SECRET_KEY_SIZE sk ++
  [Str (lit "};" ++ NL ++ NL); Str (lit "const uint8_t DEVICE_PUBLIC_KEY[32] = {" ++ NL)] ++
  array_items Signing.PUBLIC_KEY_SIZE pk ++
  [Str (lit "};" ++ NL)].

Record result := mkResult {
  stdout : bytes;
  stderr : bytes;
  file : option (bytes * bytes);        (* the name and the text *)
  wiped : bytes;                        (* the secret key in memory at the end *)
  exit_code : Z;
}.

Definition main `{Sodium} (args : list bytes) (now : Z) (rnd : bytes) (is_open : bool) : result :=
  let device_name := default (lit "esp32_device") (args !! 0%nat) in
  let allowed_topics := default (lit "*") (args !! 1%nat) in
  if negb (snd (Signing.init false)) then
    mkResult (rendered banner)
      (rendered [Str (lit "ERROR: Failed to initialize crypto (libsodium)" ++ NL)]) None [] 1
  else
    let keypair := Signing.generate_keypair rnd in
    let pk := Signing.kp_public_key keypair in
    let sk := Signing.kp_secret_key keypair in
    let key_id := snd (Keystore.register_key_auto now Keystore.new_store pk device_name allowed_topics) in
    let filename := device_name ++ lit "_keys.h" in
    let test_msg := lit "test_topic" ++ lit "test_payload" in
    let ok := Signing.verify test_msg (Signing.sign test_msg sk) pk in
    mkResult
      (rendered (banner ++ summary device_name allowed_topics key_id pk ++
         sketch_arrays device_name allowed_topics key_id sk pk ++
         registration device_name allowed_topics key_id pk ++
         (if is_open then [Str (lit "Keys saved to: "); Str filename; Str NL] else []) ++
         [Str (lit "Self-test: "); Str (if ok then lit "PASSED" else lit "FAILED"); Str NL]))
      []
      (if is_open
       then Some (filename, rendered (header_items device_name allowed_topics key_id sk pk)) else None)
      (Signing.secure_zero sk) 0.

(** ** Reading C *)

(** The text without its [//] comments. *)
Fixpoint code (in_comment : bool) (s : bytes) : bytes :=
  match s with
  | [] => []
  | c :: r =>
      if in_comment then (if bool_decide ([c] = NL) then c :: code false r else code true r)
      else if starts_with s (lit "//") then code true r
      else c :: code false r
  end.

(** The byte constants [0xhh] of an initializer. *)
Fixpoint constants (s : bytes) : bytes :=
  match s with
  | a :: ((x :: h :: l :: r) as s') =>
      if bool_decide ([a; x] = lit "0x") then
        match Signing.hex_char_to_nibble h, Signing.hex_char_to_nibble l with
        | Some high, Some low => char_of (high * 16 + low) :: constants r
        | _, _ => constants s'
        end
      else constants s'
  | _ => []
  end.

(** The brace initializers with what precedes each: [None] outside braces. *)
Fixpoint initializers (before : bytes) (body : option bytes) (s : bytes) : list (bytes * bytes) :=
  match s with
  | [] => []
  | c :: r =>
      match body with
      | None => if bool_decide ([c] = lit "{") then initializers before (Some []) r
                else initializers (before ++ [c]) None r
      | Some b => if bool_decide ([c] = lit "}") then (before, constants b) :: initializers [] None r
                  else initializers before (Some (b ++ [c])) r
      end
  end.

Definition read_header (s : bytes) : list (bytes * bytes) := initializers [] None (code false s).

(** ** The text of the arrays *)

(** Entry [i] of an array of [n], as insertions and as text. *)
Definition entry_items (n i : nat) (c : char) : list insertion :=
  (if Nat.eqb (i mod 12) 0 then [Str (lit "    ")] else []) ++
  byte_items c ++
  (if Nat.ltb i (n - 1) then [Str (lit ", ")] else []) ++
  (if Nat.eqb ((i + 1) mod 12) 0 then [Str NL] else []).

Definition entry (n i : nat) (c : char) : bytes :=
  (if Nat.eqb (i mod 12) 0 then lit "    " else []) ++
  (lit "0x" ++ [Signing.hex_digit (char_code c / 16); Signing.hex_digit (char_code c mod 16)]) ++
  (if Nat.ltb i (n - 1) then lit ", " else []) ++
  (if Nat.eqb ((i + 1) mod 12) 0 then NL else []).

Fixpoint entries (n i : nat) (key : bytes) : bytes :=
  match key with [] => [] | c :: key' => entry n i c ++ entries n (S i) key' end.

Definition array_text (n : nat) (key : bytes) : bytes :=
  entries n 0 key ++ (if Nat.eqb (n mod 12) 0 then [] else NL).

Lemma byte_field c t b f :
  insert_all (byte_items c) (clean t b f) =
  clean (t ++ lit "0x" ++ [Signing.hex_digit (char_code c / 16); Signing.hex_digit (char_code c mod 16)])
    true (char_of 48).
Proof.
  pose proof (char_code_range c) as Hc. unfold byte_items, insert_all.
  cbn [fold_left insert put_field text hex_base width fill]. unfold put_field. cbn [text hex_base width fill].
  rewrite u32_small, hex_string_byte by lia.
  pose proof (Signing.pad2_hex _ Hc) as Hp. unfold Signing.pad2 in Hp. rewrite Hp.
  f_equal. by rewrite <-!app_assoc.
Qed.

Lemma entry_field n i c t b f :
  insert_all (entry_items n i c) (clean t b f) = clean (t ++ entry n i c) true (char_of 48).
Proof.
  unfold entry_items, entry. by rewrite !insert_all_app, optional_str, byte_field, !optional_str, <-!app_assoc.
Qed.

Lemma entries_field n key k t b f :
  key ≠ [] →
  insert_all (concat (imap (λ i, entry_items n (k + i)) key)) (clean t b f) =
  clean (t ++ entries n k key) true (char_of 48).
Proof.
  revert k t b f. induction key as [|c key IH]; intros k t b f Hne; [done|].
  cbn [imap concat entries]. rewrite insert_all_app, Nat.add_0_r, entry_field.
  rewrite (imap_ext (_ ∘ S) (λ i, entry_items n (S k + i)) key) by (intros; simpl; f_equal; lia).
  destruct key as [|c' key]; [cbn; by rewrite app_nil_r|]. rewrite IH by done. by rewrite <-app_assoc.
Qed.

Lemma array_field n key t b f :
  key ≠ [] →
  insert_all (array_items n key) (clean t b f) = clean (t ++ array_text n key) true (char_of 48).
Proof.
  intros Hne. unfold array_items, array_text. rewrite insert_all_app.
  change (imap _ key) with (imap (λ i, entry_items n (0 + i)) key). rewrite (entries_field n key 0) by done.
  destruct (Nat.eqb (n mod 12) 0); [by rewrite app_nil_r|].
  by rewrite (optional_str true), <-app_assoc.
Qed.

(** ** Reading it back *)

Lemma constants_short s : (length s ≤ 3)%nat → constants s = [].
Proof. by do 4 (destruct s as [|? s]; [done|]); simpl; intros; lia. Qed.

Lemma constants_skip c s : [c] ≠ lit "0" → constants (c :: s) = constants s.
Proof.
  intros Hc. destruct (decide (length s ≤ 2)%nat).
  { rewrite !constants_short; [done|lia|simpl; lia]. }
  do 3 (destruct s as [|? s]; [simpl in *; lia|]).
  cbn [constants]. rewrite bool_decide_false; [done|]. intros [= ->]. by apply Hc.
Qed.

Lemma constants_byte c s :
  constants (lit "0x" ++ [Signing.hex_digit (char_code c / 16); Signing.hex_digit (char_code c mod 16)] ++ s) =
  c :: constants s.
Proof.
  pose proof (char_code_range c). cbn [lit String.list_ascii_of_string app constants].
  rewrite bool_decide_true by done. rewrite !Signing.nibble_digit by dlia.
  f_equal. rewrite <-(char_of_code c) at 3. f_equal. dlia.
Qed.

Lemma constants_entry n i c s : constants (entry n i c ++ s) = c :: constants s.
Proof.
  unfold entry. rewrite <-!app_assoc.
  assert (Hpre : ∀ x r, constants ((if x : bool then lit "    " else []) ++ r) = constants r).
  { intros [] r; [|done]. cbn [lit String.list_ascii_of_string app]. by rewrite !constants_skip. }
  rewrite Hpre, constants_byte. f_equal.
  destruct (Nat.ltb _ _), (Nat.eqb _ _); cbn [lit NL String.list_ascii_of_string app]; by rewrite ?constants_skip.
Qed.

Lemma constants_array n key : constants (array_text n key) = key.
Proof.
  assert (Hk : ∀ k r, constants r = [] → constants (entries n k key ++ r) = key).
  { induction key as [|c key IH]; intros k r Hr; [done|].
    cbn [entries]. rewrite <-app_assoc, constants_entry. f_equal. by apply IH. }
  apply Hk. by destruct (Nat.eqb _ _).
Qed.

(** The characters of an array. *)
Lemma hex_digit_not d c : 0 ≤ d < 16 → Signing.hex_char_to_nibble c = None → Signing.hex_digit d ≠ c.
Proof. intros Hd Hc <-. by rewrite Signing.nibble_digit in Hc. Qed.

Lemma array_chars n key c :
  c ∈ array_text n key → c ∈ (lit " 0x," ++ NL) ∨ is_Some (Signing.hex_char_to_nibble c).
Proof.
  intros Hc. unfold array_text in Hc. apply elem_of_app in Hc as [Hc|Hc].
  2: { left. destruct (Nat.eqb _ _); [by apply not_elem_of_nil in Hc|]. set_solver. }
  revert Hc. generalize 0%nat. induction key as [|b key IH]; intros k; cbn [entries]; [set_solver|].
  intros [Hc|Hc]%elem_of_app; [|by apply (IH (S k))]. pose proof (char_code_range b).
  unfold entry in Hc. rewrite !elem_of_app in Hc.
  destruct Hc as [Hc|[[Hc|Hc]|[Hc|Hc]]].
  - left. destruct (Nat.eqb _ _); set_solver.
  - left. set_solver.
  - right. apply elem_of_cons in Hc as [->|Hc]; [|apply list_elem_of_singleton in Hc as ->];
      rewrite Signing.nibble_digit by dlia; by eexists.
  - left. destruct (Nat.ltb _ _); set_solver.
  - left. destruct (Nat.eqb _ _); set_solver.
Qed.

Lemma code_comment s r : char_of 10 ∉ s → code true (s ++ NL ++ r) = NL ++ code false r.
Proof.
  intros Hs. induction s as [|c s IH]; [done|]. apply not_elem_of_cons in Hs as [Hc Hs].
  cbn [app code]. rewrite bool_decide_false; [by apply IH|]. by intros [= ->].
Qed.

Lemma code_plain s r : char_of 47 ∉ s → code false (s ++ r) = s ++ code false r.
Proof.
  intros Hs. induction s as [|c s IH]; [done|]. apply not_elem_of_cons in Hs as [Hc Hs].
  cbn [app code]. change (starts_with (c :: s ++ r) (lit "//")) with
    (bool_decide (char_of 47 = c) && starts_with (s ++ r) (lit "/")).
  rewrite bool_decide_false by done. cbn [andb]. by rewrite IH.
Qed.

Lemma initializers_head a s before :
  char_of 123 ∉ a →
  initializers before None (a ++ lit "{" ++ s) = initializers (before ++ a) (Some []) s.
Proof.
  revert before. induction a as [|c a IH]; intros before Ha; [by rewrite app_nil_r|].
  apply not_elem_of_cons in Ha as [Hc Ha]. cbn [app initializers].
  rewrite bool_decide_false by (by intros [= ->]). etrans; [by apply (IH (before ++ [c]))|].
  by rewrite <-app_assoc.
Qed.

Lemma initializers_body b s before body :
  char_of 125 ∉ b →
  initializers before (Some body) (b ++ lit "}" ++ s) =
    (before, constants (body ++ b)) :: initializers [] None s.
Proof.
  revert body. induction b as [|c b IH]; intros body Hb; [by rewrite app_nil_r|].
  apply not_elem_of_cons in Hb as [Hc Hb]. cbn [app initializers].
  rewrite bool_decide_false by (by intros [= ->]). etrans; [by apply (IH (body ++ [c]))|].
  by rewrite <-app_assoc.
Qed.

(** What stands before the two arrays: blank lines where the comments were, the
    pragma, the key identifier and the declaration; and the second declaration. *)
Definition before_secret (key_id : Z) : bytes :=
  NL ++ NL ++ NL ++ NL ++ lit "#pragma once" ++ NL ++ NL ++
  lit "const uint32_t DEVICE_KEY_ID = " ++ to_string key_id ++ lit ";" ++ NL ++ NL ++
  lit "const uint8_t DEVICE_SECRET_KEY[64] = ".
Definition before_public : bytes := lit ";" ++ NL ++ NL ++ lit "const uint8_t DEVICE_PUBLIC_KEY[32] = ".

(** The header in the order in which the reader meets its parts. *)
Definition header_text (name topics : bytes) (sk pk : bytes) : bytes :=
  lit "/" ++ (lit "/ Auto-generated by metricmq-keygen") ++ NL ++
  lit "/" ++ (lit "/ Device: " ++ name ++ lit " | Key ID: 1") ++ NL ++
  lit "/" ++ (lit "/ Allowed topics: " ++ topics) ++ NL ++
  (drop 3 (before_secret 1) ++ lit "{" ++ (NL ++ array_text 64 sk) ++ lit "}" ++
   before_public ++ lit "{" ++ (NL ++ array_text 32 pk) ++ lit "}" ++ lit ";" ++ NL).

Lemma header_rendered name topics sk pk :
  sk ≠ [] → pk ≠ [] → rendered (header_items name topics 1 sk pk) = header_text name topics sk pk.
Proof.
  intros Hs Hp. unfold rendered, header_items, header_start, device_lines.
  change fresh with (clean [] false (char_of 32)). autorewrite with streams.
  rewrite array_field by done. autorewrite with streams. rewrite array_field by done. autorewrite with streams.
  cbn [text]. unfold header_text. change (to_string 1) with (lit "1"). rewrite <-!app_assoc. reflexivity.
Qed.

Lemma code_line s r : char_of 10 ∉ s → code false (lit "/" ++ (lit "/" ++ s) ++ NL ++ r) = NL ++ code false r.
Proof.
  intros Hs. rewrite <-code_comment with (s := lit "/" ++ s); [done|].
  apply not_elem_of_cons. split; [discriminate|done].
Qed.

Lemma array_avoids n key c :
  Signing.hex_char_to_nibble c = None → c ∉ (lit " 0x," ++ NL) → c ∉ NL ++ array_text n key.
Proof.
  intros Hn Hc [Hin|Hin]%elem_of_app; [set_solver|].
  apply array_chars in Hin as [?|[? Hs]]; [done|congruence].
Qed.

(** Membership of a character in a concrete text, by evaluation. *)
Ltac absent := apply (bool_decide_unpack (_ ∉ _)); vm_compute; exact I.

Lemma read_header_text name topics sk pk :
  char_of 10 ∉ name → char_of 10 ∉ topics →
  read_header (header_text name topics sk pk) = [(before_secret 1, sk); (before_public, pk)].
Proof.
  intros Hname Htopics. unfold read_header, header_text.
  rewrite (code_line (lit " Auto-generated by metricmq-keygen")) by absent.
  rewrite (code_line (lit " Device: " ++ name ++ lit " | Key ID: 1")).
  2: { rewrite !not_elem_of_app. repeat split; [absent|done|absent]. }
  rewrite (code_line (lit " Allowed topics: " ++ topics)).
  2: { rewrite not_elem_of_app. split; [absent|done]. }
  assert (Hs : ∀ n key, char_of 47 ∉ NL ++ array_text n key) by (intros; apply array_avoids; [done|absent]).
  assert (Hb : ∀ n key, char_of 125 ∉ NL ++ array_text n key) by (intros; apply array_avoids; [done|absent]).
  rewrite !code_plain by first [apply Hs | absent].
  change (NL ++ NL ++ NL ++ drop 3 (before_secret 1) ++ ?r) with (before_secret 1 ++ r).
  rewrite initializers_head, initializers_body by first [apply Hb | absent].
  rewrite initializers_head, initializers_body by first [apply Hb | absent].
  assert (Hc : ∀ n key, constants ([] ++ NL ++ array_text n key) = key).
  { intros n key. etrans; [by apply (constants_skip (char_of 10))|apply constants_array]. }
  by rewrite !Hc.
Qed.

Lemma self_test_suffix l v o :
  (lit "Self-test: " ++ v ++ NL) `suffix_of` text (insert_all (l ++ [Str (lit "Self-test: "); Str v; Str NL]) o).
Proof.
  rewrite insert_all_app, insert_str_any. autorewrite with streams. cbn [text].
  rewrite <-!app_assoc. by do 2 apply suffix_app_r.
Qed.

(** The arguments, or their defaults. *)
Definition device_name_of (args : list bytes) : bytes := default (lit "esp32_device") (args !! 0%nat).
Definition allowed_topics_of (args : list bytes) : bytes := default (lit "*") (args !! 1%nat).

(** The line that registers the key, as the comment gives it. *)
Definition registration_line (args : list bytes) : bytes :=
  lit "// ks.register_key(1, pk, " ++ QUOTE ++ device_name_of args ++ QUOTE ++ lit ", " ++ QUOTE ++
  allowed_topics_of args ++ QUOTE ++ lit ");" ++ NL.

(** Insertions only ever append. *)
Lemma insert_all_prefix l o : text o `prefix_of` text (insert_all l o).
Proof.
  revert o. induction l as [|i l IH]; intros o; [done|]. change (insert_all (i :: l) o) with (insert_all l (insert i o)).
  etrans; [|apply IH]. destruct i; cbn [insert text put_field]; try done; by apply prefix_app_r.
Qed.

Lemma registration_prints l1 l2 args pk :
  ∃ pre post, rendered (l1 ++ registration (device_name_of args) (allowed_topics_of args) 1 pk ++ l2) =
    pre ++ registration_line args ++ post.
Proof.
  unfold rendered, registration. rewrite !insert_all_app, (insert_str_any (lit "};" ++ NL)).
  autorewrite with streams. match goal with |- context [insert_all l2 ?o] => destruct (insert_all_prefix l2 o) as [post ->] end.
  cbn [text]. unfold registration_line. change (to_string 1) with (lit "1").
  match goal with |- context [?t ++ lit "// ks.register_key("] => exists t, (NL ++ post) end.
  rewrite <-!app_assoc. reflexivity.
Qed.

(** ** Theorems *)

Section theorems.
Context `{SodiumLaws}.

(** The generated header is usable: read as C, comments dropped, it declares
    key identifier 1 and two arrays whose initializers are byte for byte the
    generated secret and public key; the self-test passes, the exit code is 0
    and the secret key is wiped from memory. Names with a newline would end the
    comment they are printed in. *)
Theorem keygen_header_reads_back args now rnd :
  0 ≤ sodium_init →
  char_of 10 ∉ device_name_of args → char_of 10 ∉ allowed_topics_of args →
  let r := main args now rnd true in
  let keypair := Signing.generate_keypair rnd in
  exit_code r = 0 ∧
  (∃ t, file r = Some (device_name_of args ++ lit "_keys.h", t) ∧
    read_header t = [(before_secret 1, Signing.kp_secret_key keypair);
                     (before_public, Signing.kp_public_key keypair)]) ∧
  (lit "Self-test: PASSED" ++ NL) `suffix_of` stdout r ∧
  wiped r = replicate 64 (char_of 0).
Proof.
  intros Hi Hn Ht r keypair. subst r. unfold main, Signing.init. rewrite (proj2 (Z.ltb_ge _ _)) by done.
  cbn [snd negb]. fold keypair (device_name_of args) (allowed_topics_of args).
  destruct (Signing.generate_keypair_sizes rnd) as [Hpk Hsk]. fold keypair in Hpk, Hsk.
  split; [done|]. split; [|split].
  - eexists. split; [done|]. cbn [Keystore.register_key_auto snd].
    change (Keystore.next_key_id_ Keystore.new_store) with 1.
    rewrite header_rendered by (intros E; rewrite E in *; done). by apply read_header_text.
  - cbn [stdout]. unfold keypair. rewrite Signing.random_key_verifies.
    rewrite !app_assoc. apply (self_test_suffix _ (lit "PASSED")).
  - cbn [wiped]. unfold Signing.secure_zero. by rewrite memzero_zeroes, Hsk.
Qed.

(** Every run of the tool hands out key identifier 1: the registration lines of
    two runs collide. Executed in a broker without that identifier, the second
    is refused, and whatever the second device signs is checked against the
    key of the first. *)
Theorem keygen_ids_collide args args' now rnd rnd' is_open t t' ks :
  0 ≤ sodium_init → Keystore.keys_ ks !! 1 = None →
  let pk := Signing.kp_public_key (Signing.generate_keypair rnd) in
  let pk' := Signing.kp_public_key (Signing.generate_keypair rnd') in
  let ks1 := fst (Keystore.register_key t ks 1 pk (device_name_of args) (allowed_topics_of args)) in
  (∀ a r, ∃ pre post, stdout (main a now r is_open) = pre ++ registration_line a ++ post) ∧
  Keystore.register_key t' ks1 1 pk' (device_name_of args') (allowed_topics_of args') = (ks1, false) ∧
  (∀ msg sig, snd (Keystore.verify_with_key t' ks1 1 msg sig) = Signing.verify msg sig pk).
Proof.
  intros Hi Hk pk pk' ks1.
  assert (Hks : Keystore.keys_ ks1 !! 1 =
    Some (Keystore.mkKey pk 1 (device_name_of args) (allowed_topics_of args) true t 0)).
  { subst ks1. unfold Keystore.register_key. rewrite Hk, bool_decide_false by (by intros [? ?]).
    simpl. by rewrite lookup_insert_eq. }
  split; [|split].
  - intros a r. unfold main, Signing.init. rewrite (proj2 (Z.ltb_ge _ _)) by done.
    cbn [snd negb stdout]. rewrite !(app_assoc _ _ (registration _ _ _ _ ++ _)).
    apply registration_prints.
  - unfold Keystore.register_key. by rewrite bool_decide_true by (rewrite Hks; by eexists).
  - intros msg sig. unfold Keystore.verify_with_key. by rewrite Hks.
Qed.
End theorems.

(** ** Witnesses *)

#[local] Existing Instance ToySodium.
#[local] Existing Instance ToySodiumLaws.

Lemma keygen_header_reads_back_witness : exit_code (main [lit "node_1"; lit "sensors/*"] 7 (lit "r") true) = 0.
Proof.
  apply (keygen_header_reads_back [lit "node_1"; lit "sensors/*"] 7 (lit "r")).
  - discriminate.
  - apply (bool_decide_unpack (_ ∉ _)). vm_compute. exact I.
  - apply (bool_decide_unpack (_ ∉ _)). vm_compute. exact I.
Defined.

Lemma keygen_ids_collide_witness :
  snd (Keystore.register_key 9
    (fst (Keystore.register_key 8 Keystore.new_store 1 (Signing.kp_public_key (Signing.generate_keypair (lit "r")))
      (lit "a") (lit "*"))) 1 (Signing.kp_public_key (Signing.generate_keypair (lit "s"))) (lit "b") (lit "*")) = false.
Proof.
  destruct (keygen_ids_collide [lit "a"] [lit "b"] 7 (lit "r") (lit "s") true 8 9 Keystore.new_store) as (_ & E & _).
  - discriminate.
  - reflexivity.
  - exact (f_equal snd E).
Defined.

End Keygen.
