(* ===== verification/Metrics.v ===== *)
(** * Metrics: [src/metrics.cpp] and [src/metrics_server.cpp]

    The counters, gauges, latency histograms and per-topic maps, the text they
    are exported as, and the dispatch of the HTTP endpoint. *)

From S2P Require Import Prelude Text.
From Stdlib Require Import SpecFloat.

Module Metrics.

Record LatencyHistogram := mkHist {
  h_count : Z;
  h_sum_us : Z;
  bucket_lt_100us : Z;
  bucket_lt_500us : Z;
  bucket_lt_1ms : Z;
  bucket_lt_5ms : Z;
  bucket_lt_10ms : Z;
  bucket_lt_50ms : Z;
  bucket_lt_100ms : Z;
  bucket_inf : Z;
}.
#[global] Instance LatencyHistogram_fields : Fields LatencyHistogram := λ h,
  mkHist (h_count h) (h_sum_us h) (bucket_lt_100us h) (bucket_lt_500us h) (bucket_lt_1ms h)
    (bucket_lt_5ms h) (bucket_lt_10ms h) (bucket_lt_50ms h) (bucket_lt_100ms h) (bucket_inf h).

Definition empty_hist : LatencyHistogram := mkHist 0 0 0 0 0 0 0 0 0 0.

Record Metrics := mkMetrics {
  messages_published_total_ : Z;
  messages_delivered_total_ : Z;
  subscriptions_total_ : Z;
  unsubscriptions_total_ : Z;
  connections_total_ : Z;
  disconnections_total_ : Z;
  acks_total_ : Z;
  errors_total_ : Z;
  active_connections_ : Z;
  active_subscribers_ : Z;
  topic_count_ : Z;
  publish_latency_ : LatencyHistogram;
  delivery_latency_ : LatencyHistogram;
  topic_messages_ : gmap bytes Z;
  topic_subscribers_ : gmap bytes Z;
}.
#[global] Instance Metrics_fields : Fields Metrics := λ m,
  mkMetrics (messages_published_total_ m) (messages_delivered_total_ m) (subscriptions_total_ m)
    (unsubscriptions_total_ m) (connections_total_ m) (disconnections_total_ m) (acks_total_ m)
    (errors_total_ m) (active_connections_ m) (active_subscribers_ m) (topic_count_ m)
    (publish_latency_ m) (delivery_latency_ m) (topic_messages_ m) (topic_subscribers_ m).

Definition new_metrics : Metrics := mkMetrics 0 0 0 0 0 0 0 0 0 0 0 empty_hist empty_hist ∅ ∅.

(** [fetch_add(1)] on an [atomic<uint64_t>]. *)
Definition fetch_add (z : Z) : Z := u64 (z + 1).

(** ** Counters and gauges *)

Definition incrementPublished (m : Metrics) : Metrics := m <| messages_published_total_ ::= fetch_add |>.
Definition incrementDelivered (m : Metrics) : Metrics := m <| messages_delivered_total_ ::= fetch_add |>.
Definition incrementSubscriptions (m : Metrics) : Metrics := m <| subscriptions_total_ ::= fetch_add |>.
Definition incrementUnsubscriptions (m : Metrics) : Metrics := m <| unsubscriptions_total_ ::= fetch_add |>.
Definition incrementConnections (m : Metrics) : Metrics := m <| connections_total_ ::= fetch_add |>.
Definition incrementDisconnections (m : Metrics) : Metrics := m <| disconnections_total_ ::= fetch_add |>.
Definition incrementAcks (m : Metrics) : Metrics := m <| acks_total_ ::= fetch_add |>.
Definition incrementErrors (m : Metrics) : Metrics := m <| errors_total_ ::= fetch_add |>.

Definition setActiveConnections (c : Z) (m : Metrics) : Metrics := m <| active_connections_ := c |>.
Definition setActiveSubscribers (c : Z) (m : Metrics) : Metrics := m <| active_subscribers_ := c |>.
Definition setTopicCount (c : Z) (m : Metrics) : Metrics := m <| topic_count_ := c |>.

(** ** Histograms *)

Definition recordLatency (latency_us : Z) (h : LatencyHistogram) : LatencyHistogram :=
  let h := h <| h_count ::= fetch_add |> <| h_sum_us ::= λ s, u64 (s + latency_us) |> in
  if latency_us <? 100 then h <| bucket_lt_100us ::= fetch_add |>
  else if latency_us <? 500 then h <| bucket_lt_500us ::= fetch_add |>
  else if latency_us <? 1000 then h <| bucket_lt_1ms ::= fetch_add |>
  else if latency_us <? 5000 then h <| bucket_lt_5ms ::= fetch_add |>
  else if latency_us <? 10000 then h <| bucket_lt_10ms ::= fetch_add |>
  else if latency_us <? 50000 then h <| bucket_lt_50ms ::= fetch_add |>
  else if latency_us <? 100000 then h <| bucket_lt_100ms ::= fetch_add |>
  else h <| bucket_inf ::= fetch_add |>.

Definition recordPublishLatency (l : Z) (m : Metrics) : Metrics := m <| publish_latency_ ::= recordLatency l |>.
Definition recordDeliveryLatency (l : Z) (m : Metrics) : Metrics := m <| delivery_latency_ ::= recordLatency l |>.

(** ** Per-topic maps *)

Definition incrementTopicMessages (topic : bytes) (m : Metrics) : Metrics :=
  m <| topic_messages_ ::= λ t, <[topic := u64 (default 0 (t !! topic) + 1)]> t |>.

Definition incrementTopicSubscribers (topic : bytes) (m : Metrics) : Metrics :=
  m <| topic_subscribers_ ::= λ t, <[topic := default 0 (t !! topic) + 1]> t |>.

Definition decrementTopicSubscribers (topic : bytes) (m : Metrics) : Metrics :=
  match topic_subscribers_ m !! topic with
  | Some v =>
      if v - 1 <=? 0 then m <| topic_subscribers_ ::= delete topic |>
      else m <| topic_subscribers_ ::= <[topic := v - 1]> |>
  | None => m
  end.

Definition reset (m : Metrics) : Metrics :=
  m <| messages_published_total_ := 0 |> <| messages_delivered_total_ := 0 |>
    <| subscriptions_total_ := 0 |> <| unsubscriptions_total_ := 0 |>
    <| connections_total_ := 0 |> <| disconnections_total_ := 0 |>
    <| acks_total_ := 0 |> <| errors_total_ := 0 |>
    <| active_connections_ := 0 |> <| active_subscribers_ := 0 |> <| topic_count_ := 0 |>
    <| topic_messages_ := ∅ |> <| topic_subscribers_ := ∅ |>.

(** ** Text *)

Definition NL : bytes := [char_of 10].
Definition QUOTE : bytes := [char_of 34].

(** A [double] in fixed notation with six decimals: the exact value of the
    binary64 number, rounded to even on ties. *)
Definition round_even (num den : Z) : Z :=
  let q := num / den in
  let r := num mod den in
  if 2 * r <? den then q
  else if den <? 2 * r then q + 1
  else if Z.even q then q else q + 1.

Definition micros_of (f : spec_float) : Z :=
  match f with
  | S754_finite _ m e =>
      if 0 <=? e then Z.pos m * 2 ^ e * 1000000
      else round_even (Z.pos m * 1000000) (2 ^ (- e))
  | _ => 0
  end.

Definition fixed6 (f : spec_float) : bytes :=
  let u := micros_of f in
  let frac := to_string (u mod 1000000) in
  to_string (u / 1000000) ++ lit "." ++ replicate (6 - length frac) (char_of 48) ++ frac.

(** [sum / 1000000.0] for a [uint64_t] [sum], in binary64. *)
Definition seconds (sum : Z) : spec_float :=
  SFdiv 53 1024 (binary_normalize 53 1024 sum 0 false) (binary_normalize 53 1024 1000000 0 false).

(** One cumulative bucket line. *)
Definition bucket_line (name : bytes) (le : bytes) (cumulative : Z) : bytes :=
  name ++ lit "_bucket{le=" ++ QUOTE ++ le ++ QUOTE ++ lit "} " ++ to_string cumulative ++ NL.

Definition exportHistogram (name help : bytes) (h : LatencyHistogram) : bytes :=
  let c1 := u64 (0 + bucket_lt_100us h) in
  let c2 := u64 (c1 + bucket_lt_500us h) in
  let c3 := u64 (c2 + bucket_lt_1ms h) in
  let c4 := u64 (c3 + bucket_lt_5ms h) in
  let c5 := u64 (c4 + bucket_lt_10ms h) in
  let c6 := u64 (c5 + bucket_lt_50ms h) in
  let c7 := u64 (c6 + bucket_lt_100ms h) in
  let c8 := u64 (c7 + bucket_inf h) in
  lit "# HELP " ++ name ++ lit " " ++ help ++ NL ++
  lit "# TYPE " ++ name ++ lit " histogram" ++ NL ++
  bucket_line name (lit "0.0001") c1 ++
  bucket_line name (lit "0.0005") c2 ++
  bucket_line name (lit "0.001") c3 ++
  bucket_line name (lit "0.005") c4 ++
  bucket_line name (lit "0.01") c5 ++
  bucket_line name (lit "0.05") c6 ++
  bucket_line name (lit "0.1") c7 ++
  bucket_line name (lit "+Inf") c8 ++
  name ++ lit "_sum " ++ fixed6 (seconds (h_sum_us h)) ++ NL ++
  name ++ lit "_count " ++ to_string (h_count h) ++ NL.

(** A metric with its two comment lines. *)
Definition scalar (name help type : string) (v : Z) : bytes :=
  lit "# HELP " ++ lit name ++ lit " " ++ lit help ++ NL ++
  lit "# TYPE " ++ lit name ++ lit " " ++ lit type ++ NL ++
  lit name ++ lit " " ++ to_string v ++ NL ++ NL.

(** A [std::map] is iterated in the order of its keys. *)
Definition topic_le {A} (a b : bytes * A) : Prop := lex_le (fst a) (fst b).
#[global] Instance topic_le_dec {A} : RelDecision (@topic_le A).
Proof. intros a b. unfold topic_le. apply _. Defined.
Definition in_order {A} (t : gmap bytes A) : list (bytes * A) := merge_sort topic_le (map_to_list t).

Definition topic_line (name : string) (e : bytes * Z) : bytes :=
  lit name ++ lit "{topic=" ++ QUOTE ++ fst e ++ QUOTE ++ lit "} " ++ to_string (snd e) ++ NL.

Definition topic_section (name help type : string) (t : gmap bytes Z) : bytes :=
  if bool_decide (t = ∅) then []
  else
    lit "# HELP " ++ lit name ++ lit " " ++ lit help ++ NL ++
    lit "# TYPE " ++ lit name ++ lit " " ++ lit type ++ NL ++
    concat (topic_line name <$> in_order t) ++ NL.

Definition exportPrometheus (m : Metrics) : bytes :=
  scalar "metricmq_messages_published_total" "Total number of messages published" "counter"
    (messages_published_total_ m) ++
  scalar "metricmq_messages_delivered_total" "Total number of messages delivered to subscribers" "counter"
    (messages_delivered_total_ m) ++
  scalar "metricmq_subscriptions_total" "Total number of subscriptions" "counter" (subscriptions_total_ m) ++
  scalar "metricmq_unsubscriptions_total" "Total number of unsubscriptions" "counter"
    (unsubscriptions_total_ m) ++
  scalar "metricmq_connections_total" "Total number of client connections" "counter" (connections_total_ m) ++
  scalar "metricmq_disconnections_total" "Total number of client disconnections" "counter"
    (disconnections_total_ m) ++
  scalar "metricmq_acks_total" "Total number of message acknowledgements" "counter" (acks_total_ m) ++
  scalar "metricmq_errors_total" "Total number of errors" "counter" (errors_total_ m) ++
  scalar "metricmq_active_connections" "Current number of active connections" "gauge" (active_connections_ m) ++
  scalar "metricmq_active_subscribers" "Current number of active subscribers" "gauge" (active_subscribers_ m) ++
  scalar "metricmq_topics" "Current number of topics with subscribers" "gauge" (topic_count_ m) ++
  exportHistogram (lit "metricmq_publish_latency_seconds") (lit "Publish operation latency in seconds")
    (publish_latency_ m) ++ NL ++
  exportHistogram (lit "metricmq_delivery_latency_seconds") (lit "Message delivery latency in seconds")
    (delivery_latency_ m) ++ NL ++
  topic_section "metricmq_topic_messages_total" "Messages published per topic" "counter" (topic_messages_ m) ++
  topic_section "metricmq_topic_subscribers" "Current subscribers per topic" "gauge" (topic_subscribers_ m).

(** ** The HTTP endpoint ([metrics_server.cpp]) *)

Record response := mkResponse { status : Z; content_type : bytes; content_length : Z; body : bytes }.

(** [handleRequest]; a response that is not given a body has none. *)
Definition handleRequest (method : bytes) (m : Metrics) : response :=
  if negb (bool_decide (method = lit "GET")) then mkResponse 405 [] 0 []
  else
    let metrics := exportPrometheus m in
    mkResponse 200 (lit "text/plain; version=0.0.4") (zlen metrics) metrics.

(** [createRequestHandler]: whether a handler is made for the URI. *)
Definition createRequestHandler (uri : bytes) : bool :=
  bool_decide (uri = lit "/metrics") || bool_decide (uri = lit "/metrics/").

(** [MetricsServer]: its port, and whether it holds a server and runs. *)
Record MetricsServer := mkServer { port_ : Z; server_ : bool; running_ : bool }.

Definition new_MetricsServer (port : Z) : MetricsServer := mkServer port false false.

(** [start]; [socket] is whether the port could be opened, an exception being
    passed on to the caller with the state unchanged. *)
Definition start (socket : bool) (s : MetricsServer) : outcome MetricsServer :=
  if running_ s then Ret s
  else if socket then Ret (mkServer (port_ s) true true)
  else Throw "Poco::Exception".

Definition stop (s : MetricsServer) : MetricsServer :=
  if negb (running_ s) then s else mkServer (port_ s) false false.

Definition isRunning (s : MetricsServer) : bool := running_ s.

(** What becomes of the listening socket: [~MetricsServer] stops the server. *)
Definition destroy_MetricsServer (s : MetricsServer) : bool := server_ (stop s).

(** A caller's sequence of calls, which catches the exception as [main] does. *)
Inductive server_call := Start (socket : bool) | Stop.
Definition serve_call (s : MetricsServer) (c : server_call) : MetricsServer :=
  match c with
  | Start socket => match start socket s with Ret s' => s' | _ => s end
  | Stop => stop s
  end.

(** Whatever was called, the server is held exactly while it runs, so that the
    destructor leaves no socket open. *)
Lemma server_released port cs :
  let s := fold_left serve_call cs (new_MetricsServer port) in
  server_ s = isRunning s ∧ port_ s = port ∧ destroy_MetricsServer s = false.
Proof.
  cbn zeta. rewrite <-(rev_involutive cs). induction (rev cs) as [|c l IH]; [done|]. cbn [rev].
  rewrite fold_left_app. cbn [fold_left]. set (s := fold_left _ _ _) in *. clearbody s.
  destruct s as [p sv ru]. cbn in IH. destruct IH as (-> & -> & _).
  unfold isRunning, destroy_MetricsServer. destruct c as [[]|], ru; done.
Qed.

(** The gauges a departure from a topic leaves alone. *)
Lemma decrement_active_connections t m :
  active_connections_ (decrementTopicSubscribers t m) = active_connections_ m.
Proof. unfold decrementTopicSubscribers. by repeat case_match. Qed.
Lemma decrement_active_subscribers t m :
  active_subscribers_ (decrementTopicSubscribers t m) = active_subscribers_ m.
Proof. unfold decrementTopicSubscribers. by repeat case_match. Qed.
Lemma decrement_topic_count t m : topic_count_ (decrementTopicSubscribers t m) = topic_count_ m.
Proof. unfold decrementTopicSubscribers. by repeat case_match. Qed.
Create Rewrite HintDb metrics.
#[global] Hint Rewrite decrement_active_connections decrement_active_subscribers decrement_topic_count : metrics.

(** ** What a histogram counts *)

Definition num (P : Z → bool) (ls : list Z) : Z := Z.of_nat (length (List.filter P ls)).
Definition total (ls : list Z) : Z := foldr Z.add 0 ls.
Definition record_all (ls : list Z) : LatencyHistogram :=
  fold_left (λ h l, recordLatency l h) ls empty_hist.

(** The exported text, from the numbers it states. *)
Definition histogram_text (name help : bytes) (below : Z → Z) (count sum : Z) : bytes :=
  lit "# HELP " ++ name ++ lit " " ++ help ++ NL ++
  lit "# TYPE " ++ name ++ lit " histogram" ++ NL ++
  bucket_line name (lit "0.0001") (below 100) ++
  bucket_line name (lit "0.0005") (below 500) ++
  bucket_line name (lit "0.001") (below 1000) ++
  bucket_line name (lit "0.005") (below 5000) ++
  bucket_line name (lit "0.01") (below 10000) ++
  bucket_line name (lit "0.05") (below 50000) ++
  bucket_line name (lit "0.1") (below 100000) ++
  bucket_line name (lit "+Inf") count ++
  name ++ lit "_sum " ++ fixed6 (seconds sum) ++ NL ++
  name ++ lit "_count " ++ to_string count ++ NL.

Lemma u64_add_l a b : u64 (u64 a + b) = u64 (a + b).
Proof. apply Zplus_mod_idemp_l. Qed.
Lemma u64_add_r a b : u64 (a + u64 b) = u64 (a + b).
Proof. apply Zplus_mod_idemp_r. Qed.

Lemma num_snoc P ls l : num P (ls ++ [l]) = num P ls + (if P l then 1 else 0).
Proof.
  unfold num. rewrite List.filter_app, length_app. simpl. destruct (P l); simpl; lia.
Qed.

Lemma total_snoc ls l : total (ls ++ [l]) = total ls + l.
Proof. unfold total. rewrite foldr_app. simpl. induction ls; simpl in *; lia. Qed.

(** Latencies of one bucket: at least [lo] and below [hi]. *)
Definition within (lo hi l : Z) : bool := (lo <=? l) && (l <? hi).

Lemma num_within lo hi ls :
  lo ≤ hi → num (λ l, l <? lo) ls + num (within lo hi) ls = num (λ l, l <? hi) ls.
Proof.
  intros Hle. induction ls as [|l ls IH] using rev_ind; [done|].
  rewrite !num_snoc, <-IH. unfold within.
  destruct (l <? lo) eqn:?, (lo <=? l) eqn:?, (l <? hi) eqn:?; reflect_bools; simpl; lia.
Qed.

Lemma num_above lo ls : num (λ l, l <? lo) ls + num (λ l, lo <=? l) ls = Z.of_nat (length ls).
Proof.
  induction ls as [|l ls IH] using rev_ind; [done|]. rewrite !num_snoc, length_app. simpl.
  destruct (l <? lo) eqn:?, (lo <=? l) eqn:?; reflect_bools; lia.
Qed.

Lemma num_u64 P ls l :
  u64 (num P (ls ++ [l])) = if P l then fetch_add (u64 (num P ls)) else u64 (num P ls).
Proof.
  rewrite num_snoc. unfold fetch_add. rewrite u64_add_l. destruct (P l); [done|].
  by rewrite Z.add_0_r.
Qed.

Lemma record_all_spec ls :
  record_all ls = mkHist (u64 (Z.of_nat (length ls))) (u64 (total ls))
    (u64 (num (λ l, l <? 100) ls)) (u64 (num (within 100 500) ls)) (u64 (num (within 500 1000) ls))
    (u64 (num (within 1000 5000) ls)) (u64 (num (within 5000 10000) ls))
    (u64 (num (within 10000 50000) ls)) (u64 (num (within 50000 100000) ls))
    (u64 (num (λ l, 100000 <=? l) ls)).
Proof.
  induction ls as [|l ls IH] using rev_ind; [done|].
  unfold record_all in *. rewrite fold_left_app. cbn [fold_left]. rewrite IH.
  rewrite !num_u64, total_snoc, length_app, Nat2Z.inj_add.
  unfold recordLatency, within.
  repeat match goal with
  | |- context [l <? ?b] => destruct (l <? b) eqn:?
  end; reflect_bools; try lia; repeat zbranch; unfold fetch_add; simpl;
    by rewrite !u64_add_l.
Qed.

(** ** Theorems *)

(** The exported histogram states what was recorded, up to the 64-bit wrap of
    the counters: the line of each bound is the number of latencies below it,
    the [+Inf] line and the count line are both the number of latencies, and
    the sum line is their sum. *)
Theorem histogram_export name help ls :
  exportHistogram name help (record_all ls) =
    histogram_text name help (λ b, u64 (num (λ l, l <? b) ls))
      (u64 (Z.of_nat (length ls))) (u64 (total ls)).
Proof.
  rewrite record_all_spec. unfold exportHistogram, histogram_text. cbn -[num within total lit].
  rewrite !u64_add_r, !u64_add_l, Z.add_0_l.
  rewrite !num_within by lia. by rewrite num_above.
Qed.

(** Arrivals ([true]) and departures ([false]) at topics. *)
Definition topic_event (topic : bytes) (arrive : bool) (m : Metrics) : Metrics :=
  if arrive then incrementTopicSubscribers topic m else decrementTopicSubscribers topic m.
Definition topic_events (m : Metrics) (es : list (bytes * bool)) : Metrics :=
  fold_left (λ m e, topic_event e.1 e.2 m) es m.
Definition gauge (es : list (bytes * bool)) (topic : bytes) : Z :=
  fold_left (λ v (e : bytes * bool), if bool_decide (e.1 = topic) then if e.2 then v + 1 else Z.max 0 (v - 1) else v)
    es 0.

Lemma topic_event_lookup topic b m t :
  (∀ t v, topic_subscribers_ m !! t = Some v → 0 < v) →
  topic_subscribers_ (topic_event topic b m) !! t =
    (let v := default 0 (topic_subscribers_ m !! t) in
     let v' := if bool_decide (topic = t) then if b then v + 1 else Z.max 0 (v - 1) else v in
     if 0 <? v' then Some v' else None).
Proof.
  intros Hpos. pose proof (Hpos t) as Ht. pose proof (Hpos topic) as Htopic.
  case_bool_decide as Heq; [subst t|].
  - destruct b; simpl; unfold decrementTopicSubscribers.
    + rewrite lookup_insert_eq. destruct (topic_subscribers_ m !! topic) eqn:E; simpl; [|done].
      specialize (Ht _ eq_refl). by zbranch.
    + destruct (topic_subscribers_ m !! topic) as [v|] eqn:E; [|by rewrite E].
      specialize (Ht _ eq_refl). cbn [default]. destruct (v - 1 <=? 0) eqn:Ev; reflect_bools; simpl.
      * rewrite lookup_delete_eq. by zbranch.
      * rewrite lookup_insert_eq, Z.max_r by lia. by zbranch.
  - assert (Hsame : topic_subscribers_ (topic_event topic b m) !! t = topic_subscribers_ m !! t).
    { unfold topic_event, decrementTopicSubscribers. destruct b; simpl; [by rewrite lookup_insert_ne|].
      destruct (topic_subscribers_ m !! topic); [|done]. destruct (_ <=? _); simpl;
        [by rewrite lookup_delete_ne|by rewrite lookup_insert_ne]. }
    rewrite Hsame. destruct (topic_subscribers_ m !! t) as [v|] eqn:E; [|done].
    specialize (Ht _ eq_refl). simpl. by zbranch.
Qed.

(** The per-topic gauge counts subscribers: over any sequence of arrivals
    ([true]) and departures ([false]) at a topic, its value follows the
    counter that does not go below zero, no topic is listed with a
    non-positive value, and other topics are not touched. *)
Theorem topic_gauge_exact es topic :
  topic_subscribers_ (topic_events new_metrics es) !! topic =
    if 0 <? gauge es topic then Some (gauge es topic) else None.
Proof.
  revert topic. induction es as [|[t b] es IH] using rev_ind; intros topic; [by simpl; rewrite lookup_empty|].
  unfold topic_events, gauge in *. rewrite !fold_left_app. cbn [fold_left fst snd].
  rewrite topic_event_lookup.
  - rewrite IH. set (g := fold_left _ es 0). cbv zeta.
    destruct (0 <? g) eqn:E; simpl; reflect_bools; [done|].
    assert (g = 0) as ->; [|done]. assert (0 ≤ g); [|lia].
    subst g. clear. induction es as [|[t b] es IH] using rev_ind; simpl; [done|].
    rewrite fold_left_app. simpl. case_bool_decide; [destruct b|]; lia.
  - intros t' v. rewrite IH. destruct (0 <? _) eqn:E; intros [= <-]. by reflect_bools.
Qed.

(** [reset] zeroes the counters, the gauges and the maps, but not the latency
    histograms: they are exported unchanged afterwards. *)
Theorem reset_keeps_histograms m :
  reset m = new_metrics <| publish_latency_ := publish_latency_ m |>
                        <| delivery_latency_ := delivery_latency_ m |>.
Proof. reflexivity. Qed.

(** [s] occurs in [t]. *)
Definition occurs (s t : bytes) : Prop := ∃ pre post, t = pre ++ s ++ post.

Lemma occurs_refl s : occurs s s.
Proof. exists [], []. by rewrite app_nil_r. Qed.
Lemma occurs_app_r s a t : occurs s t → occurs s (a ++ t).
Proof. intros (pre & post & ->). exists (a ++ pre), post. by rewrite <-app_assoc. Qed.
Lemma occurs_app_l s t a : occurs s t → occurs s (t ++ a).
Proof. intros (pre & post & ->). exists pre, (post ++ a). by rewrite <-!app_assoc. Qed.
Lemma occurs_concat s (l : list bytes) : s ∈ l → occurs s (concat l).
Proof.
  induction l as [|x l IH]; [by intros ?%elem_of_nil|]. cbn [concat].
  intros [->|H]%elem_of_cons; [apply occurs_app_l, occurs_refl|apply occurs_app_r; auto].
Qed.

Lemma topic_section_line name help type t topic c :
  t !! topic = Some c → occurs (topic_line name (topic, c)) (topic_section name help type t).
Proof.
  intros Hc. unfold topic_section.
  rewrite bool_decide_false by (intros E; by rewrite E, lookup_empty in Hc).
  do 10 apply occurs_app_r. apply occurs_app_l, occurs_concat, list_elem_of_fmap_2.
  unfold in_order. rewrite (merge_sort_Permutation topic_le). by apply elem_of_map_to_list.
Qed.

(** Every topic is exported with its count, on a line of its own, in the text
    that answers [GET /metrics]. The topic is copied as it is, so one that
    contains a line feed adds lines of its choice to the text. *)
Theorem export_topic_line m topic c :
  topic_messages_ m !! topic = Some c →
  occurs (lit "metricmq_topic_messages_total" ++ lit "{topic=" ++ QUOTE ++ topic ++ QUOTE ++
          lit "} " ++ to_string c ++ NL) (body (handleRequest (lit "GET") m)).
Proof.
  intros Hc. unfold handleRequest. rewrite bool_decide_true by done. cbn [negb body].
  unfold exportPrometheus. do 15 apply occurs_app_r. apply occurs_app_l.
  exact (topic_section_line _ _ _ _ _ _ Hc).
Qed.

Lemma export_topic_line_witness :
  occurs (lit "metricmq_topic_messages_total" ++ lit "{topic=" ++ QUOTE ++ lit "t" ++ QUOTE ++ lit "} " ++ lit "1" ++ NL)
    (body (handleRequest (lit "GET") (incrementTopicMessages (lit "t") new_metrics))).
Proof.
  exact (export_topic_line (incrementTopicMessages (lit "t") new_metrics) (lit "t") 1
    ltac:(vm_compute; reflexivity)).
Defined.

End Metrics.
