(* ===== verification/Floats.v ===== *)
(** * Floats: the numbers the program prints

    Arithmetic on [double] is that of [SpecFloat] at 53 bits of precision. The
    first part bounds the error of a division; the second is the text C++ makes
    of a [double]. *)

From S2P Require Import Prelude Text Metrics.
From Stdlib Require Import SpecFloat.

Module Floats.

(** ** The error of a division *)

Lemma digits2_pos_log2 p : Z.pos (digits2_pos p) = Z.log2 (Z.pos p) + 1.
Proof.
  induction p as [p IH|p IH|]; [..|done]; cbn [digits2_pos]; rewrite Pos2Z.inj_succ, IH.
  - rewrite (Pos2Z.inj_xI p), Z.log2_succ_double by lia. lia.
  - rewrite (Pos2Z.inj_xO p), Z.log2_double by lia. lia.
Qed.

Lemma Zdigits2_range n k : 0 ≤ k → 2 ^ k ≤ n < 2 ^ (k + 1) → Zdigits2 n = k + 1.
Proof.
  intros Hk Hn. assert (0 < n) by (pose proof (Z.pow_pos_nonneg 2 k); lia).
  destruct n as [|p|p]; try lia. cbn [Zdigits2]. rewrite digits2_pos_log2. f_equal.
  apply Z.log2_unique; [done|]. by replace (Z.succ k) with (k + 1) by lia.
Qed.

Lemma fexp_normal e : -1021 ≤ e → fexp 53 1024 e = e - 53.
Proof. intros. unfold fexp, emin. lia. Qed.

(** A location says where a fraction [r / d] lies. *)
Definition located (l : location) (r d : Z) : Prop :=
  0 ≤ r < d ∧
  match l with
  | loc_Exact => r = 0
  | loc_Inexact c => 0 < r ∧ (2 * r ?= d) = c
  end.

Lemma new_location_spec r d : Z.even d = true → 0 ≤ r < d → located (new_location d r) r d.
Proof.
  intros Hd Hr. unfold new_location. rewrite Hd. unfold new_location_even.
  destruct (Z.eqb_spec r 0); (split; [done|]); [done|]. split; [lia|done].
Qed.

(** Rounding to the nearest is off by half a unit at most. *)
Lemma round_located m l r d : located l r d → 2 * Z.abs (round_nearest_even m l * d - (m * d + r)) ≤ d.
Proof.
  intros [Hr Hl]. destruct l as [|[]]; cbn [round_nearest_even].
  - subst r. lia.
  - destruct Hl as [? ?%Z.compare_eq]. destruct (Z.even m); lia.
  - destruct Hl as [? Hc]. rewrite Z.compare_lt_iff in Hc. lia.
  - destruct Hl as [? Hc]. rewrite Z.compare_gt_iff in Hc. lia.
Qed.

(** One more bit moves into the fraction. *)
Lemma shr_1_located q l r d : 0 ≤ q → located l r d →
  let mrs := shr_1 (shr_record_of_loc q l) in
  shr_m mrs = q / 2 ∧ located (loc_of_shr_record mrs) ((q mod 2) * d + r) (2 * d).
Proof.
  intros Hq [Hr Hl]. cbn zeta.
  assert (E : shr_1 (shr_record_of_loc q l) =
    {| shr_m := q / 2; shr_r := Z.odd q; shr_s := match l with loc_Exact => false | _ => true end |}).
  { rewrite <-Z.div2_div. destruct l as [|[]], q as [|[]|]; try done; lia. }
  rewrite E. split; [done|]. pose proof (Zmod_odd q) as Hm.
  destruct l as [|c]; [subst r|destruct Hl as [? _]]; destruct (Z.odd q); rewrite Hm; cbn [loc_of_shr_record];
    (split; [lia|]); try (split; [lia|]); try lia;
    first [by apply Z.compare_eq_iff; lia|by apply Z.compare_lt_iff; lia|by apply Z.compare_gt_iff; lia].
Qed.

(** The mantissa is shifted to 53 bits. *)
Lemma shr_bits m e l k :
  -1000 ≤ e → 0 ≤ k ≤ 1 → 2 ^ (52 + k) ≤ m < 2 ^ (53 + k) →
  shr_fexp 53 1024 m e l = (if k =? 0 then shr_record_of_loc m l else shr_1 (shr_record_of_loc m l), e + k).
Proof.
  intros He Hk Hm. unfold shr_fexp. rewrite (Zdigits2_range m (52 + k)); [|lia|by replace (52 + k + 1) with (53 + k) by lia].
  rewrite fexp_normal by lia. replace (52 + k + 1 + e - 53 - e) with k by lia.
  assert (k = 0 ∨ k = 1) as [->| ->] by lia; cbn; [by rewrite Z.add_0_r|done].
Qed.

(** The second shift, after a carry: it loses nothing. *)
Lemma normalized m e :
  -1000 ≤ e ≤ 900 → 2 ^ 52 ≤ m ≤ 2 ^ 53 →
  ∃ p e', (let '(mrs, e') := shr_fexp 53 1024 m e loc_Exact in
    match shr_m mrs with
    | Z0 => S754_zero false
    | Zpos m => if Z.leb e' (1024 - 53) then S754_finite false m e' else S754_infinity false
    | _ => S754_nan
    end) = S754_finite false p e' ∧ e ≤ e' ≤ e + 1 ∧ m = Z.pos p * 2 ^ (e' - e).
Proof.
  intros He Hm. destruct (decide (m = 2 ^ 53)) as [->|].
  - exists (2 ^ 52)%positive, (e + 1). rewrite (shr_bits _ e loc_Exact 1) by (cbn; lia). cbn [Z.eqb].
    change (shr_m _) with (2 ^ 52). cbn [Z.pow]. rewrite (proj2 (Z.leb_le _ _)) by lia.
    split; [done|]. split; [lia|]. by replace (e + 1 - e) with 1 by lia.
  - rewrite (shr_bits _ e loc_Exact 0) by (cbn; lia). cbn [Z.eqb shr_record_of_loc shr_m].
    destruct m as [|p|p]; try lia. exists p, (e + 0). rewrite (proj2 (Z.leb_le _ _)) by lia.
    split; [done|]. split; [lia|]. replace (e + 0 - e) with 0 by lia. cbn. lia.
Qed.

(** The first shift, with what it leaves behind. *)
Lemma first_shift q l r d k :
  located l r d → k = 0 ∨ k = 1 → 2 ^ (52 + k) ≤ q < 2 ^ (53 + k) →
  let mrs := if k =? 0 then shr_record_of_loc q l else shr_1 (shr_record_of_loc q l) in
  ∃ r', located (loc_of_shr_record mrs) r' (2 ^ k * d) ∧ q * d + r = shr_m mrs * (2 ^ k * d) + r' ∧
    2 ^ 52 ≤ shr_m mrs < 2 ^ 53.
Proof.
  intros Hl [->| ->] Hq; cbn [Z.eqb]; cbn zeta.
  - exists r. replace (loc_of_shr_record _) with l by (by destruct l as [|[]]).
    replace (shr_m _) with q by (by destruct l as [|[]]). split; [by rewrite Z.mul_1_l|]. cbn in *. lia.
  - destruct (shr_1_located q l r d) as [-> Hloc]; [lia|done|]. exists (q mod 2 * d + r). split; [done|].
    pose proof (Z.div_mod q 2 ltac:(lia)). cbn in *. split; [nia|]. split; [apply Z.div_le_lower_bound|apply Z.div_lt_upper_bound]; lia.
Qed.

(** Rounding a quotient of 53 or 54 bits: the relative error is at most half a
    unit in the last place. *)
Lemma round_aux_spec n d e :
  Z.even d = true → 0 < d → -1000 ≤ e ≤ 800 → 2 ^ 52 * d ≤ n < 2 ^ 54 * d →
  ∃ p e', binary_round_aux 53 1024 false (n / d) e (new_location d (n mod d)) = S754_finite false p e' ∧
    e ≤ e' ≤ e + 2 ∧ 2 ^ 53 * Z.abs (Z.pos p * 2 ^ (e' - e) * d - n) ≤ n.
Proof.
  intros Hev Hd He Hn. pose proof (Z.div_mod n d ltac:(lia)) as Hdm. pose proof (Z.mod_pos_bound n d Hd) as Hr.
  pose proof (new_location_spec _ _ Hev Hr) as Hloc. set (q := n / d) in *. set (r := n mod d) in *.
  assert (Hq : 2 ^ 52 ≤ q < 2 ^ 54) by nia.
  set (k := if q <? 2 ^ 53 then 0 else 1).
  assert (Hk : (k = 0 ∨ k = 1) ∧ 2 ^ (52 + k) ≤ q < 2 ^ (53 + k))
    by (unfold k; destruct (Z.ltb_spec q (2 ^ 53)); cbn in *; lia).
  destruct Hk as [Hk Hqk]. unfold binary_round_aux. rewrite (shr_bits q e _ k) by lia.
  destruct (first_shift q _ r d k Hloc Hk Hqk) as (r' & Hl' & E & Hm). cbn zeta in Hl', E, Hm.
  set (mrs := if k =? 0 then _ else _) in *. clearbody mrs k.
  pose proof (round_located (shr_m mrs) _ _ _ Hl') as Herr.
  set (M := round_nearest_even _ _) in *.
  assert (HM : 2 ^ 52 ≤ M ≤ 2 ^ 53) by (unfold M; destruct (loc_of_shr_record mrs) as [|[]]; cbn [round_nearest_even]; repeat case_match; lia).
  destruct (normalized M (e + k)) as (p & e' & Ef & He' & EM); [lia|exact HM|]. exists p, e'.
  split; [exact Ef|]. split; [lia|]. rewrite EM in Herr.
  replace (e' - e) with (e' - (e + k) + k) by lia. rewrite Z.pow_add_r by lia.
  assert (Hn' : n = shr_m mrs * (2 ^ k * d) + r') by lia. destruct Hl' as [Hr' _].
  replace (Z.pos p * (2 ^ (e' - (e + k)) * 2 ^ k) * d) with (Z.pos p * 2 ^ (e' - (e + k)) * (2 ^ k * d)) by ring.
  set (X := Z.pos p * 2 ^ (e' - (e + k))) in *. set (dd := 2 ^ k * d) in *. rewrite Hn'.
  assert (2 ^ 52 * dd ≤ shr_m mrs * dd) by (apply Z.mul_le_mono_nonneg_r; lia).
  set (a := X * dd) in *. set (b := shr_m mrs * dd) in *. clearbody a b dd. clear - Herr Hr' H. lia.
Qed.

Lemma iter_xO p k : Z.pos (Pos.iter xO p k) = Z.pos p * 2 ^ Z.pos k.
Proof.
  induction k as [|k IH] using Pos.peano_ind; [cbn; lia|].
  rewrite Pos.iter_succ, Pos2Z.inj_xO, IH, Pos2Z.inj_succ, Z.pow_succ_r by lia. lia.
Qed.

(** An integer below [2 ^ 53] is a [double]. *)
Lemma of_integer p :
  Z.pos p < 2 ^ 53 →
  let d := Z.log2 (Z.pos p) + 1 in
  ∃ m, binary_normalize 53 1024 (Z.pos p) 0 false = S754_finite false m (d - 53) ∧ Z.pos m = Z.pos p * 2 ^ (53 - d) ∧
    2 ^ 52 ≤ Z.pos m < 2 ^ 53.
Proof.
  intros Hp d. pose proof (Z.log2_nonneg (Z.pos p)). pose proof (Z.log2_spec (Z.pos p) ltac:(lia)) as Hspec.
  assert (Hd : 1 ≤ d ≤ 53) by (pose proof (proj1 (Z.log2_lt_pow2 (Z.pos p) 53 ltac:(lia)) Hp); lia).
  unfold binary_normalize, binary_round. rewrite digits2_pos_log2. fold d. rewrite fexp_normal by lia.
  replace (d + 0 - 53) with (d - 53) by lia.
  assert (∃ m, shl_align p 0 (d - 53) = (m, d - 53) ∧ Z.pos m = Z.pos p * 2 ^ (53 - d)) as (m & -> & Em).
  { unfold shl_align. destruct (d - 53 - 0) eqn:E; [|lia|].
    - exists p. replace (d - 53) with 0 by lia. replace (53 - d) with 0 by lia. split; [done|lia].
    - eexists. split; [done|]. rewrite iter_xO. by replace (53 - d) with (Z.pos p0) by lia. }
  assert (Hm : 2 ^ 52 ≤ Z.pos m < 2 ^ 53).
  { rewrite Em. replace (Z.succ (Z.log2 (Z.pos p))) with d in Hspec by lia.
    replace (Z.log2 (Z.pos p)) with (d - 1) in Hspec by lia.
    replace (2 ^ 52) with (2 ^ (d - 1) * 2 ^ (53 - d)) by (rewrite <-Z.pow_add_r by lia; f_equal; lia).
    replace (2 ^ 53) with (2 ^ d * 2 ^ (53 - d)) by (rewrite <-Z.pow_add_r by lia; f_equal; lia).
    pose proof (Z.pow_pos_nonneg 2 (53 - d) ltac:(lia) ltac:(lia)). nia. }
  exists m. split; [|done]. unfold binary_round_aux.
  rewrite (shr_bits _ _ _ 0) by (cbn in *; lia). cbn [Z.eqb shr_record_of_loc shr_m loc_of_shr_record round_nearest_even].
  rewrite (shr_bits _ _ _ 0) by (cbn in *; lia). cbn [Z.eqb shr_record_of_loc shr_m].
  rewrite (proj2 (Z.leb_le _ _)) by lia. f_equal. lia.
Qed.

(** Two integers divided. *)
Lemma div_spec a b :
  0 < a < 2 ^ 53 → 0 < b < 2 ^ 52 →
  ∃ p e, SFdiv 53 1024 (binary_normalize 53 1024 a 0 false) (binary_normalize 53 1024 b 0 false) = S754_finite false p e ∧
    -106 ≤ e ≤ 2 ∧ 2 ^ 53 * Z.abs (Z.pos p * b * 2 ^ (e + 106) - a * 2 ^ 106) ≤ a * 2 ^ 106.
Proof.
  intros Ha Hb. destruct a as [|a|a], b as [|b|b]; try lia.
  destruct (of_integer a) as (m1 & -> & E1 & H1); [lia|]. destruct (of_integer b) as (m2 & -> & E2 & H2); [lia|].
  pose proof (Z.log2_nonneg (Z.pos a)). pose proof (Z.log2_nonneg (Z.pos b)).
  pose proof (proj1 (Z.log2_lt_pow2 (Z.pos a) 53 ltac:(lia)) (proj2 Ha)).
  pose proof (proj1 (Z.log2_lt_pow2 (Z.pos b) 52 ltac:(lia)) (proj2 Hb)).
  set (d1 := Z.log2 (Z.pos a) + 1) in *. set (d2 := Z.log2 (Z.pos b) + 1) in *.
  assert (Hev : Z.even (Z.pos m2) = true).
  { rewrite E2. replace (53 - d2) with (Z.succ (52 - d2)) by lia. rewrite Z.pow_succ_r, Z.even_mul, Z.even_mul by lia.
    by rewrite orb_true_r. }
  unfold SFdiv, SFdiv_core_binary. rewrite (Zdigits2_range _ 52), (Zdigits2_range (Z.pos m2) 52) by (cbn in *; lia).
  rewrite fexp_normal, Z.min_l by lia. replace (d1 - 53 - (d2 - 53) - _) with 53 by lia. cbn match.
  rewrite Z.shiftl_mul_pow2 by lia. rewrite (surjective_pairing (Z.div_eucl _ _)).
  change (fst (Z.div_eucl ?x ?y)) with (x / y). change (snd (Z.div_eucl ?x ?y)) with (x mod y). cbn [xorb].
  destruct (round_aux_spec (Z.pos m1 * 2 ^ 53) (Z.pos m2) (52 + 1 + (d1 - 53) - (52 + 1 + (d2 - 53)) - 53)) as (p & e & Ef & He & Herr);
    [done|lia|lia|cbn in *; lia|].
  exists p, e. split; [exact Ef|]. split; [lia|].
  replace (2 ^ 106) with (2 ^ d1 * 2 ^ (106 - d1)) by (rewrite <-Z.pow_add_r by lia; f_equal; lia).
  replace (2 ^ (e + 106)) with (2 ^ d1 * 2 ^ (e + 106 - d1)) by (rewrite <-Z.pow_add_r by lia; f_equal; lia).
  assert (X1 : Z.pos m1 * 2 ^ 53 = Z.pos a * 2 ^ (106 - d1)) by (rewrite E1, <-Z.mul_assoc, <-Z.pow_add_r by lia; do 2 f_equal; lia).
  assert (X2 : Z.pos p * 2 ^ (e - (52 + 1 + (d1 - 53) - (52 + 1 + (d2 - 53)) - 53)) * Z.pos m2 = Z.pos p * Z.pos b * 2 ^ (e + 106 - d1)).
  { rewrite E2. transitivity (Z.pos p * Z.pos b * (2 ^ (e - (52 + 1 + (d1 - 53) - (52 + 1 + (d2 - 53)) - 53)) * 2 ^ (53 - d2))); [ring|].
    rewrite <-Z.pow_add_r by lia. do 2 f_equal. lia. }
  rewrite X1, X2 in Herr. pose proof (Z.pow_pos_nonneg 2 d1 ltac:(lia) ltac:(lia)) as Hd1.
  set (A := Z.pos a * 2 ^ (106 - d1)) in *. set (P := Z.pos p * Z.pos b * 2 ^ (e + 106 - d1)) in *.
  replace (Z.pos p * Z.pos b * _ - _) with (2 ^ d1 * (P - A)) by (unfold P, A; ring).
  replace (Z.pos a * _) with (2 ^ d1 * A) by (unfold A; ring).
  rewrite Z.abs_mul, (Z.abs_eq (2 ^ d1)) by lia. rewrite Z.mul_assoc, (Z.mul_comm (2 ^ 53)), <-Z.mul_assoc.
  apply Z.mul_le_mono_nonneg_l; lia.
Qed.

(** ** Six decimals *)

Lemma round_even_near num den k : 0 < den → 2 * Z.abs (num - k * den) < den → Metrics.round_even num den = k.
Proof.
  intros Hd Hn. unfold Metrics.round_even. pose proof (Z.div_mod num den ltac:(lia)) as E.
  pose proof (Z.mod_pos_bound num den Hd). set (q := num / den) in *. set (r := num mod den) in *.
  clearbody q r. assert (-2 < q - k) by nia. assert (q - k < 1) by nia.
  assert (q = k ∨ q = k - 1) as [-> | ->] by lia.
  - by rewrite (proj2 (Z.ltb_lt _ _)) by lia.
  - rewrite (proj2 (Z.ltb_ge _ _)), (proj2 (Z.ltb_lt _ _)) by lia. lia.
Qed.

Lemma micros_of_seconds sum : 0 ≤ sum < 2 ^ 52 → Metrics.micros_of (Metrics.seconds sum) = sum.
Proof.
  intros Hs. destruct (decide (sum = 0)) as [->|]; [done|]. unfold Metrics.seconds.
  destruct (div_spec sum 1000000) as (p & e & -> & He & Herr); [lia|lia|]. cbn [Metrics.micros_of].
  destruct (Z.leb_spec 0 e).
  - rewrite Z.pow_add_r in Herr by lia. set (x := 2 ^ e) in *. change (2 ^ 106) with (2 ^ 53 * 2 ^ 53) in Herr. nia.
  - pose proof (Z.pow_pos_nonneg 2 (- e) ltac:(lia) ltac:(lia)). apply round_even_near; [lia|].
    replace (2 ^ 106) with (2 ^ (- e) * 2 ^ (e + 106)) in Herr by (rewrite <-Z.pow_add_r by lia; f_equal; lia).
    pose proof (Z.pow_pos_nonneg 2 (e + 106) ltac:(lia) ltac:(lia)). set (y := 2 ^ (e + 106)) in *.
    replace (Z.pos p * 1000000 * y - _) with (y * (Z.pos p * 1000000 - sum * 2 ^ (- e))) in Herr by ring.
    rewrite Z.abs_mul, (Z.abs_eq y) in Herr by lia. set (D := Z.abs _) in *. set (z := 2 ^ (- e)) in *.
    assert (y * (2 ^ 53 * D) ≤ y * (sum * z)) as Hle by lia. apply Z.mul_le_mono_pos_l in Hle; [|done].
    assert (sum * z < 2 ^ 52 * z) by (apply Z.mul_lt_mono_pos_r; lia). lia.
Qed.

Lemma dec_value_app a b : dec_value (a ++ b) = dec_value a * 10 ^ zlen b + dec_value b.
Proof. unfold dec_value at 1. rewrite fold_left_app. fold (dec_value a). apply fold_dec_acc. Qed.

Lemma dec_value_zeros n ds : dec_value (replicate n (char_of 48) ++ ds) = dec_value ds.
Proof. induction n as [|n IH]; [done|]. cbn [replicate app]. rewrite dec_value_cons, IH. reflexivity. Qed.

(** The line of the sum, with the digits before and after the point. *)
Definition sum_line (name whole frac : bytes) : bytes := name ++ lit "_sum " ++ whole ++ lit "." ++ frac ++ Metrics.NL.

(** C33: The line [name_sum] of the Prometheus text is exact: the latencies add up to
    less than [2 ^ 52] microseconds, 142 years, and the digits printed, with the
    point removed, are their sum in microseconds. The quotient [sum / 1000000.0]
    is rounded once as a [double] and again to six decimals. *)
Theorem exported_sum_exact name help ls :
  0 ≤ Metrics.total ls < 2 ^ 52 →
  ∃ whole frac,
    Metrics.occurs (sum_line name whole frac)
      (Metrics.exportHistogram name help (Metrics.record_all ls)) ∧
    Forall (λ c, is_digit c = true) (whole ++ frac) ∧ length frac = 6%nat ∧
    dec_value (whole ++ frac) = Metrics.total ls.
Proof.
  intros Ht. set (sum := Metrics.total ls) in *. pose proof (Z.div_mod sum 1000000 ltac:(lia)) as E.
  pose proof (Z.mod_pos_bound sum 1000000 ltac:(lia)) as Hm. assert (0 ≤ sum / 1000000) by (apply Z.div_pos; lia).
  set (frac := to_string (sum mod 1000000)). assert (Hf : (length frac ≤ 6)%nat) by (apply to_string_length; cbn; lia).
  exists (to_string (sum / 1000000)), (replicate (6 - length frac) (char_of 48) ++ frac). split; [|split; [|split]].
  - rewrite Metrics.record_all_spec. fold sum. rewrite (u64_small sum) by lia. unfold Metrics.exportHistogram.
    do 17 apply Metrics.occurs_app_r. cbn [Metrics.h_sum_us]. unfold Metrics.fixed6. rewrite micros_of_seconds by done.
    fold frac. unfold sum_line. rewrite <-!app_assoc. exists [], (name ++ lit "_count " ++ to_string (u64 (zlen ls)) ++ Metrics.NL).
    rewrite <-!app_assoc. reflexivity.
  - apply Forall_app. split; [by apply to_string_digits|]. apply Forall_app. split; [by apply Forall_replicate|].
    apply to_string_digits. lia.
  - rewrite length_app, length_replicate. lia.
  - rewrite dec_value_app, dec_value_zeros, length_app, length_replicate, to_string_value by done.
    replace (6 - length frac + length frac)%nat with 6%nat by lia. change (10 ^ Z.of_nat 6) with 1000000.
    unfold frac. rewrite to_string_value by lia. lia.
Qed.

Lemma exported_sum_exact_witness :
  ∃ whole frac,
    Metrics.occurs (sum_line (lit "x") whole frac)
      (Metrics.exportHistogram (lit "x") [] (Metrics.record_all [1500000; 250; 33])) ∧
    Forall (λ c, is_digit c = true) (whole ++ frac) ∧ length frac = 6%nat ∧
    dec_value (whole ++ frac) = Metrics.total [1500000; 250; 33].
Proof. apply (exported_sum_exact (lit "x") [] [1500000; 250; 33]). by vm_compute. Defined.

(** Beyond the precision of a [double] two sums print alike. *)
Example sum_beyond_precision :
  Metrics.fixed6 (Metrics.seconds (2 ^ 53 + 1)) = Metrics.fixed6 (Metrics.seconds (2 ^ 53)).
Proof. vm_compute. reflexivity. Qed.

(** ** Text of a number *)

Definition double (n : Z) : spec_float := binary_normalize 53 1024 n 0 false.
Definition divide : spec_float → spec_float → spec_float := SFdiv 53 1024.
Definition times : spec_float → spec_float → spec_float := SFmul 53 1024.
Definition minus : spec_float → spec_float → spec_float := SFsub 53 1024.

(** The absolute value, as a fraction. *)
Definition fraction (m : positive) (e : Z) : Z * Z :=
  if 0 <=? e then (Z.pos m * 2 ^ e, 1) else (Z.pos m, 2 ^ (- e)).

(** A fraction times a power of ten, to the nearest integer. *)
Definition scaled (v : Z * Z) (k : Z) : Z :=
  if 0 <=? k then Metrics.round_even (v.1 * 10 ^ k) v.2 else Metrics.round_even v.1 (v.2 * 10 ^ (- k)).

Definition sign (s : bool) : bytes := if s then lit "-" else [].

(** [width] digits of [n], with leading zeros. *)
Definition padded (width : nat) (n : Z) : bytes :=
  replicate (width - length (to_string n)) (char_of 48) ++ to_string n.

(** [n] over [10 ^ k]. *)
Definition point (k : nat) (n : Z) : bytes :=
  to_string (n / 10 ^ Z.of_nat k) ++
  match k with O => [] | _ => lit "." ++ padded k (n mod 10 ^ Z.of_nat k) end.

(** [%.kf]; the sign of a NaN is not kept. *)
Definition fixed (k : nat) (f : spec_float) : bytes :=
  match f with
  | S754_zero s => sign s ++ point k 0
  | S754_infinity s => sign s ++ lit "inf"
  | S754_nan => lit "nan"
  | S754_finite s m e => sign s ++ point k (scaled (fraction m e) (Z.of_nat k))
  end.

(** The decimal exponent of a positive fraction. *)
Definition exponent10 (v : Z * Z) : Z :=
  default 0 (List.find (λ x, if 0 <=? x then v.2 * 10 ^ x <=? v.1 else v.2 <=? v.1 * 10 ^ (- x))
    ((λ i, 308 - Z.of_nat i) <$> seq 0 633)).

(** Trailing zeros of a fraction go, and a point with nothing after it. *)
Fixpoint drop_zeros (ds : bytes) : bytes :=
  match ds with
  | c :: ds => if bool_decide (c = char_of 48) then drop_zeros ds else c :: ds
  | [] => []
  end.
Definition fraction_part (ds : bytes) : bytes :=
  match rev (drop_zeros (rev ds)) with [] => [] | ds => lit "." ++ ds end.

(** [%g], which is how a stream prints a [double]: six significant digits. *)
Definition general (f : spec_float) : bytes :=
  match f with
  | S754_zero s => sign s ++ lit "0"
  | S754_infinity s => sign s ++ lit "inf"
  | S754_nan => lit "nan"
  | S754_finite s m e =>
      let v := fraction m e in
      let x := exponent10 v in
      let d := scaled v (5 - x) in
      let '(d, x) := if d =? 10 ^ 6 then (10 ^ 5, x + 1) else (d, x) in
      sign s ++
      if (-4 <=? x) && (x <? 6) then
        let k := 5 - x in
        to_string (d / 10 ^ k) ++ fraction_part (padded (Z.to_nat k) (d mod 10 ^ k))
      else
        to_string (d / 10 ^ 5) ++ fraction_part (padded 5 (d mod 10 ^ 5)) ++ lit "e" ++
        (if x <? 0 then lit "-" else lit "+") ++ padded 2 (Z.abs x)
  end.

(** [static_cast<uint64_t>]: towards zero; [None] where the result is
    undefined. *)
Definition to_uint64 (f : spec_float) : option Z :=
  match f with
  | S754_zero _ => Some 0
  | S754_infinity _ | S754_nan => None
  | S754_finite s m e =>
      let t := (fraction m e).1 / (fraction m e).2 in
      let t := if s then - t else t in
      if (0 <=? t) && (t <? 2 ^ 64) then Some t else None
  end.

Example general_third : general (divide (double 1) (double 3)) = lit "0.333333".
Proof. vm_compute. reflexivity. Qed.
Example general_small : general (divide (double 1) (double 30000000)) = lit "3.33333e-08".
Proof. vm_compute. reflexivity. Qed.
Example general_large : general (double 123456789) = lit "1.23457e+08".
Proof. vm_compute. reflexivity. Qed.
Example general_carry : general (double 9999999) = lit "1e+07".
Proof. vm_compute. reflexivity. Qed.
Example general_percent : general (times (minus (divide (double 7) (double 4)) (double 1)) (double 100)) = lit "75".
Proof. vm_compute. reflexivity. Qed.
Example fixed_half : fixed 0 (divide (double 5) (double 2)) = lit "2".
Proof. vm_compute. reflexivity. Qed.
Example fixed_negative : fixed 2 (divide (double (-1)) (double 8)) = lit "-0.12".
Proof. vm_compute. reflexivity. Qed.
End Floats.
