(* ===== verification/Broker.v ===== *)
(** * Broker: [src/broker.cpp] and [src/broker.hpp]

    The state shared by all sessions and every method that reads or changes
    it, as one action per critical section of the broker's mutex. The calls of
    [Session::send] are recorded per session, in order, in [outbox]; what the
    kernel makes of a call, which may wait, take part of the data or fail, is in
    [Session.send_loop] and, with the threads it holds up, in [System]. *)

From S2P Require Import Prelude Text BinaryProtocol AckSet Lmdb Storage Metrics.

(** The order in which a hash set of numbers is iterated is not specified. *)
Class HashOrder := {
  hash_order : gset Z → list Z;
  hash_order_perm S : hash_order S ≡ₚ elements S;
}.

Module Broker.

Definition MAX_STORED_MESSAGES : Z := 100000.
Definition COMPACT_EVERY : Z := 1000.
Definition MAX_CONNECTIONS : Z := 1000.

(** A [Session*]. *)
Abbreviation sid := Z.

Record Broker (env : Type) := mkBroker {
  persistence_ : option env;
  sessions_ : list sid;
  topic_subscribers_ : gmap bytes (gset sid);
  client_acks_ : gmap bytes Acks.BoundedAckSet;
  last_ack_seq_ : gmap bytes Z;
  client_sessions_ : gmap bytes sid;
  current_sequence_ : Z;
  publish_count_ : Z;
  active_connections_ : Z;
  shutdown_requested_ : bool;
  server_fd_ : Z;
  metrics : Metrics.Metrics;           (* the process-wide singleton *)
  outbox : gmap sid (list bytes);      (* the arguments of Session::send *)
}.
Arguments mkBroker {env}.
Arguments persistence_ {env} _.
Arguments sessions_ {env} _.
Arguments topic_subscribers_ {env} _.
Arguments client_acks_ {env} _.
Arguments last_ack_seq_ {env} _.
Arguments client_sessions_ {env} _.
Arguments current_sequence_ {env} _.
Arguments publish_count_ {env} _.
Arguments active_connections_ {env} _.
Arguments shutdown_requested_ {env} _.
Arguments server_fd_ {env} _.
Arguments metrics {env} _.
Arguments outbox {env} _.

#[global] Instance Broker_fields env : Fields (Broker env) := λ b,
  mkBroker (persistence_ b) (sessions_ b) (topic_subscribers_ b) (client_acks_ b) (last_ack_seq_ b)
    (client_sessions_ b) (current_sequence_ b) (publish_count_ b) (active_connections_ b)
    (shutdown_requested_ b) (server_fd_ b) (metrics b) (outbox b).

(** The call [session->send(data)]: its argument, for that session. *)
Definition sent (o : gmap sid (list bytes)) (s : sid) : list bytes := default [] (o !! s).
Definition push (s : sid) (data : bytes) (o : gmap sid (list bytes)) : gmap sid (list bytes) :=
  <[s := sent o s ++ [data]]> o.

(** [for (auto* session : subscribers) session->send(payload)]; each session
    has its own socket, so the order of the hash set does not matter. *)
Definition push_all (S : gset sid) (data : bytes) (o : gmap sid (list bytes)) : gmap sid (list bytes) :=
  fold_left (λ o s, push s data o) (elements S) o.

(** The subscribers of a topic; none when the topic is not in the map. *)
Definition subscribers {env} (b : Broker env) (topic : bytes) : gset sid :=
  default ∅ (topic_subscribers_ b !! topic).

Section methods.
Context `{LmdbOps env txn} `{HashOrder}.

Abbreviation action A := (act (Broker env) A).

Definition send (s : sid) (data : bytes) : action unit := modify (λ b, b <| outbox ::= push s data |>).

Definition update_metrics (f : Metrics.Metrics → Metrics.Metrics) : action unit :=
  modify (λ b, b <| metrics ::= f |>).

(** [Broker(port)], on the environment that opening the database gave. *)
Definition new_broker (e : env) : Broker env :=
  mkBroker (Some e) [] ∅ ∅ ∅ ∅ (Storage.get_last_seq e) 0 0 false (-1) Metrics.new_metrics ∅.

(** The total is accumulated in an [int]. *)
Definition countTotalSubscribers (b : Broker env) : Z :=
  fold_left (λ count kv, i32 (count + Z.of_nat (size (snd kv)))) (map_to_list (topic_subscribers_ b)) 0.

Definition replayMessages (session : sid) (topic : bytes) (from_seq : Z) : action unit :=
  p ← gets persistence_;
  match p with
  | None => mret tt
  | Some e =>
      messages ← liftO (Storage.load_range e from_seq (u64 (from_seq + MAX_STORED_MESSAGES)));
      for_each messages (λ '(seq, msg_topic, msg_payload),
        if bool_decide (msg_topic = topic) then send session msg_payload else mret tt)
  end.

(** The block of [subscribe] that holds the mutex. *)
Definition subscribe_locked (session : sid) (topic : bytes) : action unit :=
  _ ← modify (λ b, b <| topic_subscribers_ ::= <[topic := {[session]} ∪ subscribers b topic]> |>);
  _ ← update_metrics Metrics.incrementSubscriptions;
  _ ← update_metrics (Metrics.incrementTopicSubscribers topic);
  _ ← modify (λ b, b <| metrics ::= Metrics.setActiveSubscribers (countTotalSubscribers b) |>);
  modify (λ b, b <| metrics ::= Metrics.setTopicCount (Z.of_nat (size (topic_subscribers_ b))) |>).

Definition subscribe (session : sid) (topic : bytes) : action unit :=
  _ ← subscribe_locked session topic;
  replayMessages session topic 0.

Definition unsubscribe (session : sid) (topic : bytes) : action unit :=
  it ← gets (λ b, topic_subscribers_ b !! topic : option (gset sid));
  match it with
  | None => mret tt
  | Some subs =>
      let subs := subs ∖ {[session]} in
      _ ← modify (λ b, b <| topic_subscribers_ ::= <[topic := subs]> |>);
      _ ← update_metrics Metrics.incrementUnsubscriptions;
      _ ← update_metrics (Metrics.decrementTopicSubscribers topic);
      _ ← modify (λ b, b <| metrics ::= Metrics.setActiveSubscribers (countTotalSubscribers b) |>);
      if bool_decide (subs = ∅) then
        _ ← modify (λ b, b <| topic_subscribers_ ::= delete topic |>);
        modify (λ b, b <| metrics ::= Metrics.setTopicCount (Z.of_nat (size (topic_subscribers_ b))) |>)
      else mret tt
  end.

Definition runCompactionIfDue : action unit :=
  p ← gets persistence_;
  cur ← gets current_sequence_;
  match p with
  | None => mret tt
  | Some e =>
      if cur <=? MAX_STORED_MESSAGES then mret tt
      else
        let threshold := cur - MAX_STORED_MESSAGES in
        e1 ← liftO (Storage.compact e threshold);
        _ ← modify (λ b, b <| persistence_ := Some e1 |>);
        e2 ← liftO (Storage.purge_old_acks e1 threshold);
        modify (λ b, b <| persistence_ := Some e2 |>)
  end.

(** [latency_us] is what the clock measures over the call. *)
Definition publish (latency_us : Z) (topic payload : bytes) : action Z :=
  _ ← modify (λ b, b <| current_sequence_ ::= λ n, u64 (n + 1) |>);
  seq ← gets current_sequence_;
  _ ← modify (λ b, b <| persistence_ ::= fmap (λ e, Storage.save e seq topic payload) |>);
  _ ← modify (λ b, b <| publish_count_ ::= λ n, u64 (n + 1) |>);
  count ← gets publish_count_;
  _ ← (if count mod COMPACT_EVERY =? 0 then runCompactionIfDue else mret tt);
  subs ← gets (λ b, subscribers b topic);
  _ ← modify (λ b, b <| outbox ::= push_all subs payload |>);
  wildcard ← gets (λ b, subscribers b (lit "#"));
  _ ← modify (λ b, b <| outbox ::= push_all wildcard payload |>);
  _ ← update_metrics Metrics.incrementPublished;
  _ ← update_metrics (Metrics.incrementTopicMessages topic);
  _ ← update_metrics Metrics.incrementDelivered;
  _ ← update_metrics (Metrics.recordPublishLatency latency_us);
  mret seq.

Definition removeSession (session : sid) : action unit :=
  _ ← modify (λ b, b <| topic_subscribers_ ::= fmap (λ subs, subs ∖ {[session]}) |>);
  _ ← modify (λ b, b <| topic_subscribers_ ::= filter (λ kv, snd kv ≠ ∅) |>);
  _ ← modify (λ b, b <| sessions_ ::= filter (λ s, s ≠ session) |>);
  _ ← modify (λ b, b <| active_connections_ ::= λ n, u64 (n - 1) |>);
  _ ← update_metrics Metrics.incrementDisconnections;
  _ ← modify (λ b, b <| metrics ::= Metrics.setActiveConnections (Z.of_nat (length (sessions_ b))) |>);
  _ ← modify (λ b, b <| metrics ::= Metrics.setActiveSubscribers (countTotalSubscribers b) |>);
  modify (λ b, b <| metrics ::= Metrics.setTopicCount (Z.of_nat (size (topic_subscribers_ b))) |>).

Definition handleAck (client_id : bytes) (sequence : Z) : action unit :=
  _ ← modify (λ b, b <| client_acks_ ::=
         <[client_id := Acks.insert sequence (default Acks.empty_acks (client_acks_ b !! client_id))]> |>);
  last ← gets (λ b, default 0 (last_ack_seq_ b !! client_id));
  _ ← modify (λ b, b <| last_ack_seq_ ::=
         <[client_id := if last <? sequence then sequence else last]> |>);
  _ ← modify (λ b, b <| persistence_ ::= fmap (λ e, Storage.save_ack e client_id sequence) |>);
  update_metrics Metrics.incrementAcks.

Definition getLastSequence (b : Broker env) : Z := current_sequence_ b.

Definition getLastAck (b : Broker env) (client_id : bytes) : Z :=
  match last_ack_seq_ b !! client_id with Some n => n | None => 0 end.

Definition isAcked (b : Broker env) (client_id : bytes) (sequence : Z) : bool :=
  match client_acks_ b !! client_id with
  | Some acks => Acks.contains acks sequence
  | None => false
  end.

Definition registerClient (client_id : bytes) (session : sid) : action unit :=
  _ ← modify (λ b, b <| client_sessions_ ::= <[client_id := session]> |>);
  p ← gets persistence_;
  match p with
  | None => mret tt
  | Some e =>
      acks ← liftO (Storage.load_acks e client_id);
      bounded ← gets (λ b, Acks.insert_all (hash_order acks)
                             (default Acks.empty_acks (client_acks_ b !! client_id)));
      _ ← modify (λ b, b <| client_acks_ ::= <[client_id := bounded]> |>);
      if negb (Acks.is_empty bounded)
      then modify (λ b, b <| last_ack_seq_ ::= <[client_id := Acks.max_seq bounded]> |>)
      else mret tt
  end.

Definition unregisterClient (client_id : bytes) : action unit :=
  modify (λ b, b <| client_sessions_ ::= delete client_id |>).

Definition replayMessagesForClient (session : sid) (topic client_id : bytes) : action unit :=
  last_ack ← gets (λ b, getLastAck b client_id);
  p ← gets persistence_;
  match p with
  | None => mret tt
  | Some e =>
      messages ← liftO (Storage.load_range e (u64 (last_ack + 1)) (u64 (last_ack + MAX_STORED_MESSAGES)));
      for_each messages (λ '(seq, msg_topic, msg_payload),
        acked ← gets (λ b, isAcked b client_id seq);
        if bool_decide (msg_topic = topic) && negb acked then send session msg_payload else mret tt)
  end.

(** ** The accept loop *)

(** What [select] and [accept] report in one turn of the loop; a connection
    comes with the session made for it. *)
Inductive accept_event :=
| SelectError
| SelectTimeout
| AcceptFailed
| Connected (session : sid).

(** The body of the loop after [accept] succeeded. *)
Definition accept_client (session : sid) : action unit :=
  n ← gets active_connections_;
  if MAX_CONNECTIONS <=? n then mret tt
  else
    _ ← modify (λ b, b <| sessions_ ::= λ l, l ++ [session] |>);
    _ ← modify (λ b, b <| active_connections_ ::= λ n, u64 (n + 1) |>);
    _ ← update_metrics Metrics.incrementConnections;
    modify (λ b, b <| metrics ::= Metrics.setActiveConnections (Z.of_nat (length (sessions_ b))) |>).

Fixpoint accept_loop (evs : list accept_event) : action unit :=
  stopped ← gets shutdown_requested_;
  if stopped : bool then mret tt
  else
    match evs with
    | [] => mret tt
    | SelectError :: _ => mret tt
    | SelectTimeout :: evs' => accept_loop evs'
    | AcceptFailed :: evs' => accept_loop evs'
    | Connected s :: evs' => _ ← accept_client s; accept_loop evs'
    end.

(** [run]: the results of [socket], [bind] and [listen], then the loop. *)
Definition run (socket bind listen : Z) (evs : list accept_event) : action unit :=
  if socket <? 0 then mret tt
  else if bind <? 0 then mret tt
  else if listen <? 0 then mret tt
  else
    _ ← modify (λ b, b <| server_fd_ := socket |>);
    accept_loop evs.

(** [stop] up to its sleep of 500 ms, and after it. *)
Definition stop_accepting : action unit :=
  _ ← modify (λ b, b <| shutdown_requested_ := true |>);
  fd ← gets server_fd_;
  if negb (fd =? -1) then modify (λ b, b <| server_fd_ := -1 |>) else mret tt.

Definition close_persistence : action unit := modify (λ b, b <| persistence_ := None |>).

Definition stop : action unit :=
  _ ← stop_accepting;
  close_persistence.
End methods.

(** ** Delivery *)

Lemma sent_push s d o s' : sent (push s d o) s' = if bool_decide (s' = s) then sent o s ++ [d] else sent o s'.
Proof.
  unfold sent, push. case_bool_decide as E; [subst; by rewrite lookup_insert_eq|by rewrite lookup_insert_ne].
Qed.

Lemma sent_push_all S d o s :
  sent (push_all S d o) s = sent o s ++ (if bool_decide (s ∈ S) then [d] else []).
Proof.
  unfold push_all. rewrite (bool_decide_ext (s ∈ S) (s ∈ elements S)) by (symmetry; apply elem_of_elements).
  pose proof (NoDup_elements S) as Hn. revert o.
  induction (elements S) as [|x l IH]; intros o; simpl; [by rewrite app_nil_r|].
  apply NoDup_cons in Hn as [Hx Hn]. rewrite IH, sent_push by done.
  repeat case_bool_decide; subst; rewrite ?app_nil_r; try done; exfalso; set_solver.
Qed.

(** Several payloads to one session. *)
Definition deliver (s : sid) (l : list bytes) (o : gmap sid (list bytes)) : gmap sid (list bytes) :=
  fold_left (λ o d, push s d o) l o.

Lemma sent_deliver s l o s' : sent (deliver s l o) s' = sent o s' ++ (if bool_decide (s' = s) then l else []).
Proof.
  unfold deliver. revert o. induction l as [|d l IH]; intros o; simpl.
  { case_bool_decide; by rewrite app_nil_r. }
  rewrite IH, sent_push. case_bool_decide; [subst|done]. by rewrite <-app_assoc.
Qed.

(** ** What is counted per topic *)

Section counts.
Context `{LmdbOps env txn} `{HashOrder}.

(** The number of publishes per topic, as the metrics keep it. *)
Definition topic_counts (b : Broker env) : gmap bytes Z := Metrics.topic_messages_ (metrics b).

Lemma decrement_topic_messages t m :
  Metrics.topic_messages_ (Metrics.decrementTopicSubscribers t m) = Metrics.topic_messages_ m.
Proof. unfold Metrics.decrementTopicSubscribers. by repeat case_match. Qed.

Lemma subscribe_counts s t : preserves topic_counts (subscribe s t).
Proof. unfold subscribe, subscribe_locked, update_metrics, replayMessages, send. repeat preserve_step. Qed.

Lemma unsubscribe_counts s t : preserves topic_counts (unsubscribe s t).
Proof.
  unfold unsubscribe, update_metrics. repeat preserve_step.
  unfold topic_counts. simpl. apply decrement_topic_messages.
Qed.

Lemma registerClient_counts c s : preserves topic_counts (registerClient c s).
Proof. unfold registerClient. repeat preserve_step. Qed.

Lemma handleAck_counts c n : preserves topic_counts (handleAck c n).
Proof. unfold handleAck, update_metrics. repeat preserve_step. Qed.

Lemma replayMessagesForClient_counts s t c : preserves topic_counts (replayMessagesForClient s t c).
Proof. unfold replayMessagesForClient, send. repeat preserve_step. Qed.

(** The ACK state, which subscriptions and publishes leave alone. *)
Definition ack_state (b : Broker env) : gmap bytes Acks.BoundedAckSet * gmap bytes Z :=
  (client_acks_ b, last_ack_seq_ b).

Lemma subscribe_ack_state s t : preserves ack_state (subscribe s t).
Proof. unfold subscribe, subscribe_locked, update_metrics, replayMessages, send. repeat preserve_step. Qed.
Lemma unsubscribe_ack_state s t : preserves ack_state (unsubscribe s t).
Proof. unfold unsubscribe, update_metrics. repeat preserve_step. Qed.
Lemma publish_ack_state lat t p : preserves ack_state (publish lat t p).
Proof. unfold publish, runCompactionIfDue, update_metrics. repeat preserve_step. Qed.

(** A publish is counted for its own topic only. *)
Lemma publish_counts lat t p t' :
  t' ≠ t → preserves (λ b, topic_counts b !! t') (publish lat t p).
Proof.
  intros Ht. unfold publish, runCompactionIfDue, update_metrics. repeat preserve_step.
  unfold topic_counts. simpl. by rewrite lookup_insert_ne.
Qed.
End counts.

(** ** Equations of the methods *)

Section equations.
Context `{LmdbOps env txn} `{HashOrder}.
Implicit Types b : Broker env.

Lemma for_each_ext {S A} (l : list A) (f g : A → act S unit) s :
  (∀ x s, f x s = g x s) → for_each l f s = for_each l g s.
Proof.
  intros Hfg. revert s. induction l as [|x l IH]; intros s; simpl; [done|].
  unfold mbind, act_bind. rewrite Hfg. destruct (g x s) as [s' []]; auto.
Qed.

(** A loop that sends the payloads of the records that pass a test the sends
    do not affect. *)
Lemma for_each_send {A} (l : list A) (P : Broker env → A → bool) (pay : A → bytes) s b :
  (∀ b x o, P (b <| outbox := o |>) x = P b x) →
  for_each l (λ x, p ← gets (λ b, P b x); if p : bool then send s (pay x) else mret tt) b =
    (b <| outbox ::= deliver s (pay <$> List.filter (P b) l) |>, Ret tt).
Proof.
  intros HP. revert b. induction l as [|x l IH]; intros b; simpl; [by destruct b|].
  unfold mbind, act_bind. simpl. destruct (P b x) eqn:E; simpl; unfold mbind, act_bind; simpl.
  - rewrite IH. simpl. erewrite (filter_ext (P _) (P b)); [done|]. intros y. apply HP.
  - by rewrite IH.
Qed.

(** The payloads a replay sends: those of the records with the topic. *)
Definition replayed (topic : bytes) (l : list Storage.stored) : list bytes :=
  snd <$> List.filter (λ m : Storage.stored, bool_decide (m.1.2 = topic)) l.

Lemma replayMessages_eq b s topic from e l :
  persistence_ b = Some e →
  Storage.load_range e from (u64 (from + MAX_STORED_MESSAGES)) = Ret l →
  replayMessages s topic from b = (b <| outbox ::= deliver s (replayed topic l) |>, Ret tt).
Proof.
  intros Hp Hl. unfold replayMessages, mbind, act_bind, gets, liftO. rewrite Hp, Hl.
  erewrite for_each_ext; [apply (for_each_send l (λ _ m, bool_decide (m.1.2 = topic)) snd); done|].
  by intros [[? ?] ?] ?.
Qed.

Lemma replayMessagesForClient_eq b s topic c e l :
  persistence_ b = Some e →
  Storage.load_range e (u64 (getLastAck b c + 1)) (u64 (getLastAck b c + MAX_STORED_MESSAGES)) = Ret l →
  replayMessagesForClient s topic c b =
    (b <| outbox ::= deliver s (snd <$> List.filter (λ m : Storage.stored,
        bool_decide (m.1.2 = topic) && negb (isAcked b c m.1.1)) l) |>, Ret tt).
Proof.
  intros Hp Hl. unfold replayMessagesForClient, mbind at 1 2 3, act_bind, gets at 1 2, liftO. rewrite Hp, Hl.
  erewrite for_each_ext;
    [apply (for_each_send l (λ b m, bool_decide (m.1.2 = topic) && negb (isAcked b c m.1.1)) snd); done|].
  by intros [[? ?] ?] ?.
Qed.
End equations.

(** ** Invariant *)

Section invariant.
Context `{LmdbLaws env txn} `{HashOrder}.
Implicit Types b : Broker env.

Record broker_inv b : Prop := {
  bi_topics : ∀ t S, topic_subscribers_ b !! t = Some S → S ≠ ∅;
  bi_live : ∀ t s, s ∈ subscribers b t → s ∈ sessions_ b;
  bi_nodup : NoDup (sessions_ b);
  bi_cap : Z.of_nat (length (sessions_ b)) ≤ MAX_CONNECTIONS;
  bi_conn : active_connections_ b = Z.of_nat (length (sessions_ b));
  bi_gauge_conn : Metrics.active_connections_ (metrics b) = Z.of_nat (length (sessions_ b));
  bi_gauge_subs : Metrics.active_subscribers_ (metrics b) = countTotalSubscribers b;
  bi_gauge_topics : Metrics.topic_count_ (metrics b) = Z.of_nat (size (topic_subscribers_ b));
  bi_acks : ∀ c a, client_acks_ b !! c = Some a → Acks.acks_inv a;
  bi_last : ∀ c, getLastAck b c = Acks.max_seq (default Acks.empty_acks (client_acks_ b !! c));
  bi_seq : 0 ≤ current_sequence_ b < 2 ^ 64;
  bi_store : ∀ e, persistence_ b = Some e → Storage.store_wf (env_view e);
}.

Lemma outbox_inv b o : broker_inv b → broker_inv (b <| outbox := o |>).
Proof. intros []. by split. Qed.

Lemma replayMessages_inv b s topic from :
  broker_inv b → ∃ l, replayMessages s topic from b = (b <| outbox ::= deliver s l |>, Ret tt).
Proof.
  intros Hi. destruct (persistence_ b) as [e|] eqn:Hp.
  - destruct (Storage.load_range_returns e from (u64 (from + MAX_STORED_MESSAGES))) as (l & Hl & _);
      [by eapply bi_store|]. eexists. by eapply replayMessages_eq.
  - exists []. unfold replayMessages, mbind, act_bind, gets. rewrite Hp. by destruct b.
Qed.

Lemma replayMessagesForClient_inv b s topic c :
  broker_inv b → ∃ l, replayMessagesForClient s topic c b = (b <| outbox ::= deliver s l |>, Ret tt).
Proof.
  intros Hi. destruct (persistence_ b) as [e|] eqn:Hp.
  - destruct (Storage.load_range_returns e (u64 (getLastAck b c + 1))
      (u64 (getLastAck b c + MAX_STORED_MESSAGES))) as (l & Hl & _);
      [by eapply bi_store|]. eexists. by eapply replayMessagesForClient_eq.
  - exists []. unfold replayMessagesForClient, mbind, act_bind, gets. rewrite Hp. by destruct b.
Qed.

Lemma subscribers_insert b t t' S :
  subscribers (b <| topic_subscribers_ ::= <[t := S]> |>) t' = if bool_decide (t' = t) then S else subscribers b t'.
Proof.
  unfold subscribers. simpl. case_bool_decide as E; [subst; by rewrite lookup_insert_eq|by rewrite lookup_insert_ne].
Qed.

Lemma subscribe_locked_inv b s topic :
  broker_inv b → s ∈ sessions_ b →
  let b' := fst (subscribe_locked s topic b) in
  subscribe_locked s topic b = (b', Ret tt) ∧ broker_inv b' ∧
  topic_subscribers_ b' = <[topic := {[s]} ∪ subscribers b topic]> (topic_subscribers_ b) ∧
  outbox b' = outbox b ∧ persistence_ b' = persistence_ b.
Proof.
  intros Hi Hs. split; [done|]. split; [|done]. destruct Hi. split; simpl; auto.
  - intros t S. rewrite lookup_insert_Some. intros [[<- <-]|[_ ?]]; [set_solver|eauto].
  - intros t x. pose proof (subscribers_insert b topic t ({[s]} ∪ subscribers b topic)) as E.
    unfold subscribers in *. simpl in *. rewrite E.
    case_bool_decide; [|eauto]. intros [->%elem_of_singleton|?]%elem_of_union; eauto.
Qed.

(** The total of [countTotalSubscribers], on the map: the number of
    subscriptions, as an [int]. *)
Definition total_subs (m : gmap bytes (gset sid)) : Z :=
  foldr Z.add 0 ((λ kv : bytes * gset sid, Z.of_nat (size (snd kv))) <$> map_to_list m).

Lemma countTotal_total b : countTotalSubscribers b = i32 (total_subs (topic_subscribers_ b)).
Proof.
  unfold countTotalSubscribers, total_subs.
  enough (Hl : ∀ (l : list (bytes * gset sid)) z,
    fold_left (λ count kv, i32 (count + Z.of_nat (size (snd kv)))) l (i32 z) =
    i32 (z + foldr Z.add 0 ((λ kv, Z.of_nat (size (snd kv))) <$> l))) by apply (Hl _ 0).
  induction l as [|kv l IH]; intros z; [cbn; by rewrite Z.add_0_r|].
  rewrite fmap_cons. cbn [fold_left foldr]. rewrite i32_add, IH. f_equal. lia.
Qed.

Lemma total_subs_insert m t S :
  m !! t = None → total_subs (<[t := S]> m) = Z.of_nat (size S) + total_subs m.
Proof. intros Ht. unfold total_subs. by rewrite (map_to_list_insert m t S Ht), fmap_cons. Qed.

Lemma unsubscribe_inv b s topic :
  broker_inv b →
  let b' := fst (unsubscribe s topic b) in
  unsubscribe s topic b = (b', Ret tt) ∧ broker_inv b' ∧ outbox b' = outbox b ∧
  sessions_ b' = sessions_ b ∧
  (∀ t, subscribers b' t = if bool_decide (t = topic) then subscribers b t ∖ {[s]} else subscribers b t).
Proof.
  intros Hi. unfold unsubscribe, mbind, act_bind, gets. simpl.
  destruct (topic_subscribers_ b !! topic) as [S|] eqn:E.
  2:{ simpl. do 4 (split; [done|]). intros t. case_bool_decide; [subst|done].
      unfold subscribers. rewrite E. simpl. set_solver. }
  assert (Hsub : subscribers b topic = S) by (unfold subscribers; by rewrite E).
  case_bool_decide as He; simpl; (split; [done|]).
  - assert (Hs : ∀ t, default ∅ (delete topic (<[topic := S ∖ {[s]}]> (topic_subscribers_ b)) !! t) =
      if bool_decide (t = topic) then subscribers b t ∖ {[s]} else subscribers b t).
    { intros t. case_bool_decide as Ht; [rewrite Ht, lookup_delete_eq, Hsub; by rewrite He|].
      by rewrite lookup_delete_ne, lookup_insert_ne by done. }
    split; [|by auto]. destruct Hi. split; simpl; autorewrite with metrics; auto.
    + intros t S'. rewrite lookup_delete_Some, lookup_insert_Some. naive_solver.
    + intros t x. unfold subscribers at 1. simpl. rewrite Hs. case_bool_decide; set_solver.
    + rewrite !countTotal_total. cbn. f_equal. rewrite delete_insert_eq, <-insert_delete_eq, total_subs_insert, He by apply lookup_delete_eq.
      by rewrite size_empty.
  - assert (Hs : ∀ t, default ∅ ((<[topic := S ∖ {[s]}]> (topic_subscribers_ b)) !! t) =
      if bool_decide (t = topic) then subscribers b t ∖ {[s]} else subscribers b t).
    { intros t. case_bool_decide as Ht; [by rewrite Ht, lookup_insert_eq, Hsub|].
      by rewrite lookup_insert_ne by done. }
    split; [|by auto]. destruct Hi. split; simpl; autorewrite with metrics; auto.
    + intros t S'. rewrite lookup_insert_Some. naive_solver.
    + intros t x. unfold subscribers at 1. simpl. rewrite Hs. case_bool_decide; set_solver.
    + by rewrite map_size_insert_Some by eauto.
Qed.

Lemma removeSession_inv b s :
  broker_inv b → s ∈ sessions_ b →
  let b' := fst (removeSession s b) in
  removeSession s b = (b', Ret tt) ∧ broker_inv b' ∧ outbox b' = outbox b ∧
  (s ∉ sessions_ b') ∧ (∀ t, subscribers b' t = subscribers b t ∖ {[s]}).
Proof.
  intros Hi Hs. split; [done|].
  assert (Hsub : ∀ t, subscribers (fst (removeSession s b)) t = subscribers b t ∖ {[s]}).
  { intros t. unfold subscribers. simpl. destruct (topic_subscribers_ b !! t) as [S|] eqn:E; simpl.
    - destruct (decide (S ∖ {[s]} = ∅)) as [He|He].
      + rewrite (proj2 (map_lookup_filter_None _ _ _)); [by rewrite He|].
        right. intros S'. rewrite lookup_fmap, E. simpl. naive_solver.
      + rewrite (proj2 (map_lookup_filter_Some _ _ t (S ∖ {[s]}))); [done|].
        by rewrite lookup_fmap, E.
    - rewrite (proj2 (map_lookup_filter_None _ _ _)); [set_solver|]. left. by rewrite lookup_fmap, E. }
  assert (Hlen : Z.of_nat (length (filter (λ x, x ≠ s) (sessions_ b))) = Z.of_nat (length (sessions_ b)) - 1).
  { pose proof (length_filter_ne (sessions_ b) s (bi_nodup _ Hi) Hs). lia. }
  split; [|split; [done|]; split; [|done]].
  - destruct Hi. split; auto.
    + intros t S. simpl. rewrite map_lookup_filter_Some. by intros [_ ?].
    + intros t x. rewrite Hsub. simpl. rewrite list_elem_of_filter. set_solver.
    + simpl. by apply NoDup_filter.
    + simpl. rewrite Hlen. lia.
    + simpl. rewrite Hlen, bi_conn0. apply u64_small.
      unfold MAX_CONNECTIONS in *. destruct (sessions_ b); [by apply elem_of_nil in Hs|simpl in *; lia].
  - simpl. rewrite list_elem_of_filter. naive_solver.
Qed.

Lemma persistence_inv b p :
  broker_inv b → (∀ e, p = Some e → Storage.store_wf (env_view e)) → broker_inv (b <| persistence_ := p |>).
Proof. intros [] Hp. split; simpl; auto. Qed.

Lemma runCompactionIfDue_inv b :
  broker_inv b → ∃ p, runCompactionIfDue b = (b <| persistence_ := p |>, Ret tt) ∧
    (∀ e, p = Some e → Storage.store_wf (env_view e)) ∧ (persistence_ b = None → p = None).
Proof.
  intros Hi. unfold runCompactionIfDue, mbind, act_bind, gets, liftO.
  destruct (persistence_ b) as [e|] eqn:Hp.
  2:{ exists None. split; [|done]. rewrite <-Hp. by destruct b. }
  pose proof (bi_store _ Hi _ Hp) as Hwf. destruct (current_sequence_ b <=? MAX_STORED_MESSAGES).
  { exists (Some e). split; [rewrite <-Hp; by destruct b|]. split; [by intros ? [= <-]|done]. }
  destruct (Storage.compact_returns e (current_sequence_ b - MAX_STORED_MESSAGES)) as (e1 & -> & Hw1).
  destruct (Storage.purge_returns e1 (current_sequence_ b - MAX_STORED_MESSAGES)) as (e2 & -> & Hw2).
  exists (Some e2). split; [done|]. split; [|done]. intros ? [= <-]. auto.
Qed.

(** The state of [publish] when the compaction is due, and at its end. *)
Definition published (latency : Z) (topic payload : bytes) (b : Broker env) (p : option env) : Broker env :=
  b <| current_sequence_ := u64 (current_sequence_ b + 1) |>
    <| publish_count_ := u64 (publish_count_ b + 1) |>
    <| persistence_ := p |>
    <| outbox := push_all (subscribers b (lit "#")) payload (push_all (subscribers b topic) payload (outbox b)) |>
    <| metrics := Metrics.recordPublishLatency latency (Metrics.incrementDelivered
         (Metrics.incrementTopicMessages topic (Metrics.incrementPublished (metrics b)))) |>.

Definition saved (topic payload : bytes) (b : Broker env) : Broker env :=
  b <| current_sequence_ := u64 (current_sequence_ b + 1) |>
    <| persistence_ ::= fmap (λ e, Storage.save e (u64 (current_sequence_ b + 1)) topic payload) |>
    <| publish_count_ := u64 (publish_count_ b + 1) |>.

Lemma saved_inv topic payload b : broker_inv b → broker_inv (saved topic payload b).
Proof.
  intros []. split; simpl; auto; [apply u64_range|].
  intros e. destruct (persistence_ b) as [e0|]; [|done]. intros [= <-].
  by apply Storage.save_cases_wf, bi_store0.
Qed.

Lemma publish_eq latency topic payload b p :
  (if publish_count_ (saved topic payload b) mod COMPACT_EVERY =? 0
   then runCompactionIfDue (saved topic payload b) else (saved topic payload b, Ret tt)) =
    (saved topic payload b <| persistence_ := p |>, Ret tt) →
  publish latency topic payload b = (published latency topic payload b p, Ret (u64 (current_sequence_ b + 1))).
Proof.
  intros Hc.
  assert (E : publish latency topic payload b =
    mbind (M := act (Broker env)) (λ _ : unit, λ s : Broker env, (s <| outbox := push_all (subscribers s (lit "#")) payload
                            (push_all (subscribers s topic) payload (outbox s)) |>
             <| metrics := Metrics.recordPublishLatency latency (Metrics.incrementDelivered
                  (Metrics.incrementTopicMessages topic (Metrics.incrementPublished (metrics s)))) |>,
           Ret (u64 (current_sequence_ b + 1))))
      (λ s, if publish_count_ s mod COMPACT_EVERY =? 0 then runCompactionIfDue s else (s, Ret tt))
      (saved topic payload b)).
  { unfold publish, mbind, act_bind, gets, modify. cbn [fst snd].
    change (b <|current_sequence_ ::= λ n, u64 (n + 1)|> <|persistence_ ::= _|>
      <|publish_count_ ::= λ n, u64 (n + 1)|>) with (saved topic payload b).
    by destruct (publish_count_ (saved topic payload b) mod COMPACT_EVERY =? 0). }
  rewrite E. unfold mbind, act_bind. rewrite Hc. reflexivity.
Qed.

Lemma publish_inv latency topic payload b :
  broker_inv b →
  ∃ p, publish latency topic payload b =
         (published latency topic payload b p, Ret (u64 (current_sequence_ b + 1))) ∧
       broker_inv (published latency topic payload b p) ∧ (persistence_ b = None → p = None).
Proof.
  intros Hi. pose proof (saved_inv topic payload b Hi) as Hs.
  assert (Hpub : ∀ p, (∀ e, p = Some e → Storage.store_wf (env_view e)) →
    broker_inv (published latency topic payload b p)).
  { intros p Hp. destruct Hi. split; simpl; auto. apply u64_range. }
  destruct (publish_count_ (saved topic payload b) mod COMPACT_EVERY =? 0) eqn:Ec.
  - destruct (runCompactionIfDue_inv _ Hs) as (p & Hr & Hw & Hn). exists p. split; [|split; [auto|]].
    + apply publish_eq. by rewrite Ec.
    + intros Hb. apply Hn. simpl. by rewrite Hb.
  - exists (persistence_ (saved topic payload b)). split; [|split; [apply Hpub, (bi_store _ Hs)|simpl; by intros ->]].
    apply publish_eq. rewrite Ec. by destruct b.
Qed.

Lemma getLastAck_insert b c c' n :
  getLastAck (b <| last_ack_seq_ ::= <[c := n]> |>) c' = if bool_decide (c' = c) then n else getLastAck b c'.
Proof.
  unfold getLastAck. simpl. case_bool_decide as E; [subst; by rewrite lookup_insert_eq|by rewrite lookup_insert_ne].
Qed.

(** The ACK set of a client, empty when there is none. *)
Definition acks_of b (c : bytes) : Acks.BoundedAckSet := default Acks.empty_acks (client_acks_ b !! c).

Lemma acks_of_inv b c : broker_inv b → Acks.acks_inv (acks_of b c).
Proof.
  intros Hi. unfold acks_of. destruct (client_acks_ b !! c) eqn:E; simpl; [by eapply bi_acks|apply Acks.empty_inv].
Qed.

Lemma getLastAck_acks_of b c : broker_inv b → getLastAck b c = Acks.max_seq (acks_of b c).
Proof. intros Hi. apply (bi_last _ Hi). Qed.

Lemma isAcked_acks_of b c n : isAcked b c n = Acks.contains (acks_of b c) n.
Proof. unfold isAcked, acks_of. by destruct (client_acks_ b !! c). Qed.

(** Replacing the ACK set of a client, with the cached maximum. *)
Lemma acks_update_inv b c a :
  broker_inv b → Acks.acks_inv a →
  broker_inv (b <| client_acks_ ::= <[c := a]> |> <| last_ack_seq_ ::= <[c := Acks.max_seq a]> |>).
Proof.
  intros [] Ha. split; simpl; auto.
  - intros c' a'. rewrite lookup_insert_Some. naive_solver.
  - intros c'. specialize (bi_last0 c'). unfold getLastAck in *. simpl.
    destruct (decide (c = c')) as [->|]; [by rewrite !lookup_insert_eq|by rewrite !lookup_insert_ne].
Qed.

Lemma handleAck_inv b c n :
  broker_inv b → 0 ≤ n < 2 ^ 64 →
  let b' := fst (handleAck c n b) in
  handleAck c n b = (b', Ret tt) ∧ broker_inv b' ∧
  client_acks_ b' = <[c := Acks.insert n (acks_of b c)]> (client_acks_ b) ∧
  getLastAck b' c = Z.max (getLastAck b c) n ∧
  persistence_ b' = (λ e, Storage.save_ack e c n) <$> persistence_ b.
Proof.
  intros Hi Hn. split; [done|].
  pose proof (Acks.insert_max_inv n (acks_of b c) (acks_of_inv b c Hi)) as Hmax.
  pose proof (bi_last _ Hi c) as Hlast. fold (acks_of b c) in Hlast. unfold getLastAck in Hlast.
  assert (Hd : default 0 (last_ack_seq_ b !! c) = Acks.max_seq (acks_of b c)).
  { rewrite <-Hlast. by destruct (last_ack_seq_ b !! c). }
  split; [|split; [done|split; [|done]]].
  - pose proof (acks_update_inv b c (Acks.insert n (acks_of b c)) Hi
      (Acks.insert_inv _ _ (acks_of_inv b c Hi))) as Hi'.
    destruct Hi' as [? ? ? ? ? ? ? ? Hacks' Hlast' ? ?].
    split; auto.
    + intros c'. rewrite <-Hlast'. unfold getLastAck. simpl. do 2 f_equal.
      rewrite max_if, Hd. unfold Acks.max_seq in *. by rewrite Hmax.
    + simpl. intros e. destruct (persistence_ b) as [e0|] eqn:E; [|done]. intros [= <-].
      apply Storage.save_ack_wf; [done|]. by eapply bi_store.
  - unfold getLastAck. simpl. rewrite lookup_insert_eq, max_if. by destruct (last_ack_seq_ b !! c).
Qed.

Lemma registerClient_inv b c s :
  broker_inv b →
  ∃ acks, let b' := fst (registerClient c s b) in
  registerClient c s b = (b', Ret tt) ∧ broker_inv b' ∧
  acks_of b' c = Acks.insert_all acks (acks_of b c) ∧
  client_sessions_ b' !! c = Some s ∧ sessions_ b' = sessions_ b ∧ persistence_ b' = persistence_ b ∧
  current_sequence_ b' = current_sequence_ b ∧
  (∀ e, persistence_ b = Some e → ∃ S, Storage.load_acks e c = Ret S ∧ acks = hash_order S).
Proof.
  intros Hi. unfold registerClient, mbind, act_bind, gets, modify, liftO. simpl.
  destruct (persistence_ b) as [e|] eqn:Hp.
  2:{ exists []. simpl. split; [done|]. split; [by destruct Hi|]. split; [done|].
      split; [apply lookup_insert_eq|done]. }
  destruct (Storage.load_acks_returns e c) as (S & Hl & Hr). rewrite Hl. simpl.
  fold (acks_of b c). set (a := Acks.insert_all (hash_order S) (acks_of b c)).
  assert (Ha : Acks.acks_inv a) by (by apply Acks.insert_all_inv, acks_of_inv).
  exists (hash_order S). pose proof (acks_update_inv b c a Hi Ha) as Hi'.
  destruct (Acks.is_empty a) eqn:Ee; simpl; (split; [done|]); (split; [|split; [|split; [|split; [done|split; [done|split; [done|]]]]]]);
    try (unfold acks_of; simpl; by rewrite lookup_insert_eq); try apply lookup_insert_eq;
    try (intros ? [= <-]; by eauto).
  - assert (Haa : a = acks_of b c) by (unfold a; by rewrite (Acks.insert_all_nonempty _ _ Ee)).
    destruct Hi' as [? ? ? ? ? ? ? ? Hacks' Hlast' ? Hst']. split; auto; [|intros ? [= <-]; by apply Hst'].
    intros c'. destruct Hi. etrans; [|apply (Hlast' c')]. unfold getLastAck. simpl.
    destruct (decide (c = c')) as [<-|]; [|by rewrite lookup_insert_ne].
    rewrite lookup_insert_eq, Haa. apply bi_last0.
  - destruct Hi' as [? ? ? ? ? ? ? ? ? ? ? Hst']. split; auto. intros ? [= <-]. by apply Hst'.
Qed.

Lemma accept_client_inv b s :
  broker_inv b → s ∉ sessions_ b →
  let b' := fst (accept_client s b) in
  accept_client s b = (b', Ret tt) ∧ broker_inv b' ∧
  sessions_ b' = (if MAX_CONNECTIONS <=? Z.of_nat (length (sessions_ b)) then sessions_ b
                  else sessions_ b ++ [s]).
Proof.
  intros Hi Hs. unfold accept_client, mbind, act_bind, gets. simpl. rewrite (bi_conn _ Hi).
  destruct (MAX_CONNECTIONS <=? _) eqn:E; [done|]. reflect_bools. simpl. split; [done|].
  split; [|done]. assert (length (sessions_ b ++ [s]) = S (length (sessions_ b))) as Hlen
    by (rewrite length_app; simpl; lia).
  destruct Hi. split; simpl; auto; rewrite ?Hlen.
  - intros t x Hx. apply elem_of_app. left. by eapply bi_live0.
  - apply NoDup_app. split; [done|]. split; [|apply NoDup_singleton]. set_solver.
  - lia.
  - rewrite bi_conn0, u64_small; unfold MAX_CONNECTIONS in *; lia.
Qed.

Lemma new_broker_inv e : Storage.store_wf (env_view e) → broker_inv (new_broker e).
Proof.
  intros Hwf. split; cbn [new_broker topic_subscribers_ sessions_ client_acks_ persistence_ metrics
    active_connections_ current_sequence_]; try done.
  - constructor.
  - by apply Storage.get_last_seq_range.
  - by intros ? [= <-].
Qed.

(** ** Histories *)

(** One call of a method that changes the state, by a session or by the accept
    loop. *)
Inductive op :=
| OpAccept (s : sid)
| OpSubscribe (s : sid) (topic : bytes)
| OpUnsubscribe (s : sid) (topic : bytes)
| OpPublish (latency : Z) (topic payload : bytes)
| OpAck (c : bytes) (n : Z)
| OpRegister (c : bytes) (s : sid)
| OpUnregister (c : bytes)
| OpReplay (s : sid) (topic c : bytes)
| OpRemove (s : sid)
| OpStop.

Definition perform (o : op) : act (Broker env) unit :=
  match o with
  | OpAccept s => accept_client s
  | OpSubscribe s topic => subscribe s topic
  | OpUnsubscribe s topic => unsubscribe s topic
  | OpPublish latency topic payload => _ ← publish latency topic payload; mret tt
  | OpAck c n => handleAck c n
  | OpRegister c s => registerClient c s
  | OpUnregister c => unregisterClient c
  | OpReplay s topic c => replayMessagesForClient s topic c
  | OpRemove s => removeSession s
  | OpStop => stop
  end.

(** Sessions are connected once, call while they are connected, and are removed
    once; sequence numbers are [uint64_t]. *)
Definition allowed b (o : op) : Prop :=
  match o with
  | OpAccept s => s ∉ sessions_ b
  | OpSubscribe s _ | OpUnsubscribe s _ | OpRegister _ s | OpReplay s _ _ | OpRemove s => s ∈ sessions_ b
  | OpAck _ n => 0 ≤ n < 2 ^ 64
  | OpPublish _ _ _ | OpUnregister _ | OpStop => True
  end.

Inductive step : relation (Broker env) :=
| step_op b o : allowed b o → step b (fst (perform o b)).

Lemma subscribe_inv b s topic :
  broker_inv b → s ∈ sessions_ b →
  ∃ b' l, subscribe s topic b = (b', Ret tt) ∧ broker_inv b' ∧
    outbox b' = deliver s l (outbox b) ∧ sessions_ b' = sessions_ b ∧
    (∀ t, subscribers b' t = if bool_decide (t = topic) then {[s]} ∪ subscribers b t else subscribers b t).
Proof.
  intros Hi Hs. destruct (subscribe_locked_inv b s topic Hi Hs) as (He & Hi' & Ht & Ho & _).
  destruct (replayMessages_inv (fst (subscribe_locked s topic b)) s topic 0 Hi') as (l & Hl).
  eexists _, l. unfold subscribe, mbind, act_bind. rewrite He, Hl. split; [done|].
  split; [by apply outbox_inv|]. split; [done|]. split; [done|].
  intros t. unfold subscribers at 1. cbn [topic_subscribers_ set_field]. rewrite Ht.
  case_bool_decide as E; [subst; by rewrite lookup_insert_eq|by rewrite lookup_insert_ne].
Qed.

Lemma perform_inv b o :
  broker_inv b → allowed b o → snd (perform o b) = Ret tt ∧ broker_inv (fst (perform o b)).
Proof.
  intros Hi Ha. destruct o as [s|s t|s t|lat t p|c n|c s|c|s t c|s|]; simpl in Ha; cbn [perform].
  - destruct (accept_client_inv b s Hi Ha) as (E & ? & _). by rewrite E.
  - destruct (subscribe_inv b s t Hi Ha) as (b' & l & E & ? & _). by rewrite E.
  - destruct (unsubscribe_inv b s t Hi) as (E & ? & _). by rewrite E.
  - destruct (publish_inv lat t p b Hi) as (q & E & ? & _). unfold mbind, act_bind. by rewrite E.
  - destruct (handleAck_inv b c n Hi Ha) as (E & ? & _). by rewrite E.
  - destruct (registerClient_inv b c s Hi) as (acks & E & ? & _). by rewrite E.
  - simpl. split; [done|]. by destruct Hi.
  - destruct (replayMessagesForClient_inv b s t c Hi) as (l & E). rewrite E. split; [done|]. by apply outbox_inv.
  - destruct (removeSession_inv b s Hi Ha) as (E & ? & _). by rewrite E.
  - unfold stop, stop_accepting, close_persistence, mbind, act_bind, gets, modify. simpl. destruct (server_fd_ b =? -1); simpl;
      (split; [done|]); destruct Hi; by split.
Qed.

(** A sequence of calls, each one allowed when it comes. *)
Definition perform_all (ops : list op) (b : Broker env) : Broker env :=
  fold_left (λ b o, fst (perform o b)) ops b.

Fixpoint allowed_all (ops : list op) (b : Broker env) : Prop :=
  match ops with
  | [] => True
  | o :: ops' => allowed b o ∧ allowed_all ops' (fst (perform o b))
  end.

(** The call is made by session [s], for its subscriptions. *)
Definition concerns (s : sid) (o : op) : Prop :=
  match o with
  | OpSubscribe s' _ | OpUnsubscribe s' _ | OpReplay s' _ _ | OpRemove s' => s' = s
  | _ => False
  end.

(** What a call sends to a session subscribed to the topics [subs]. *)
Definition stream (subs : bytes → bool) (o : op) : list bytes :=
  match o with
  | OpPublish _ topic payload =>
      (if subs topic then [payload] else []) ++ (if subs (lit "#") then [payload] else [])
  | _ => []
  end.

Definition subscribed b (s : sid) (t : bytes) : bool := bool_decide (s ∈ subscribers b t).

Lemma published_sent lat t p b q s :
  sent (outbox (published lat t p b q)) s =
    sent (outbox b) s ++ (if subscribed b s t then [p] else []) ++ (if subscribed b s (lit "#") then [p] else []).
Proof. unfold published. simpl. by rewrite !sent_push_all, <-app_assoc. Qed.

Lemma perform_other b o s :
  broker_inv b → allowed b o → ¬ concerns s o →
  (∀ t, subscribed (fst (perform o b)) s t = subscribed b s t) ∧
  sent (outbox (fst (perform o b))) s = sent (outbox b) s ++ stream (subscribed b s) o.
Proof.
  intros Hi Ha Hc. destruct o as [x|x t|x t|lat t p|c n|c x|c|x t c|x|]; simpl in Ha, Hc;
    cbn [perform stream]; rewrite ?app_nil_r.
  - unfold accept_client, mbind, act_bind, gets. by destruct (_ <=? _).
  - destruct (subscribe_inv b x t Hi Ha) as (b' & l & E & _ & Ho & _ & Hsub). rewrite E. cbn [fst].
    rewrite Ho, sent_deliver, bool_decide_false, app_nil_r by congruence. split; [|done].
    intros t'. apply bool_decide_ext. rewrite Hsub. case_bool_decide; set_solver.
  - destruct (unsubscribe_inv b x t Hi) as (E & _ & Ho & _ & Hsub). rewrite Ho. split; [|done].
    intros t'. apply bool_decide_ext. rewrite Hsub. case_bool_decide; set_solver.
  - destruct (publish_inv lat t p b Hi) as (q & E & _). unfold mbind, act_bind. rewrite E. cbn [fst].
    split; [done|]. apply published_sent.
  - done.
  - destruct (registerClient_inv b c x Hi) as (acks & E & _).
    unfold registerClient, mbind, act_bind, gets, modify, liftO. simpl.
    destruct (persistence_ b); [|done]. destruct (Storage.load_acks _ _); try done. simpl.
    by destruct (Acks.is_empty _).
  - done.
  - destruct (replayMessagesForClient_inv b x t c Hi) as (l & E). rewrite E. cbn [fst].
    split; [done|]. simpl. by rewrite sent_deliver, bool_decide_false, app_nil_r by congruence.
  - destruct (removeSession_inv b x Hi Ha) as (E & _ & Ho & _ & Hsub). rewrite Ho. split; [|done].
    intros t'. apply bool_decide_ext. rewrite Hsub. set_solver.
  - unfold stop, stop_accepting, close_persistence, mbind, act_bind, gets, modify. simpl. by destruct (server_fd_ b =? -1).
Qed.

(** Calls other than a publish leave the counters and every record but ACKs. *)
Lemma perform_frame b o :
  broker_inv b → allowed b o → (∀ lat t p, o ≠ OpPublish lat t p) →
  let b' := fst (perform o b) in
  current_sequence_ b' = current_sequence_ b ∧ publish_count_ b' = publish_count_ b ∧
  (∀ e', persistence_ b' = Some e' → ∃ e, persistence_ b = Some e ∧
    ∀ k, (∀ c n, k ≠ Storage.ack_key c n) → env_view e' !! k = env_view e !! k).
Proof.
  intros Hi Ha Hnp. destruct o as [x|x t|x t|lat t p|c n|c x|c|x t c|x|]; simpl in Ha; cbn [perform].
  - unfold accept_client, mbind, act_bind, gets. destruct (_ <=? _); eauto.
  - destruct (subscribe_locked_inv b x t Hi Ha) as (E & Hi' & _).
    destruct (replayMessages_inv _ x t 0 Hi') as (l & El).
    unfold subscribe, mbind, act_bind. rewrite E, El. simpl. eauto.
  - unfold unsubscribe, mbind, act_bind, gets, modify. simpl.
    destruct (topic_subscribers_ b !! t); [|eauto]. destruct (bool_decide _); simpl; eauto.
  - by destruct (Hnp lat t p).
  - simpl. do 2 (split; [done|]). intros e'. destruct (persistence_ b) as [e|] eqn:Hp; [|done].
    intros [= <-]. exists e. split; [done|]. intros k Hk.
    destruct (Storage.save_ack_cases e c n) as [->| ->]; [done|]. by rewrite lookup_insert_ne by done.
  - unfold registerClient, mbind, act_bind, gets, modify, liftO. simpl.
    destruct (persistence_ b) as [e|] eqn:Hp; simpl; rewrite ?Hp; [|eauto].
    destruct (Storage.load_acks _ _); simpl; rewrite ?Hp; eauto.
    destruct (Acks.is_empty _); simpl; rewrite ?Hp; eauto.
  - simpl. eauto.
  - destruct (replayMessagesForClient_inv b x t c Hi) as (l & E). rewrite E. simpl. eauto.
  - simpl. eauto.
  - unfold stop, stop_accepting, close_persistence, mbind, act_bind, gets, modify. simpl. by destruct (server_fd_ b =? -1).
Qed.

Lemma perform_all_inv ops b : broker_inv b → allowed_all ops b → broker_inv (perform_all ops b).
Proof.
  revert b. induction ops as [|o ops IH]; intros b Hi Ha; [done|]. destruct Ha as [Ha Has].
  apply IH; [by apply perform_inv|done].
Qed.

(** Only the accept loop and the end of a session change the session list. *)
Lemma perform_sessions b o :
  broker_inv b → allowed b o → (∀ s, o ≠ OpAccept s) → (∀ s, o ≠ OpRemove s) →
  sessions_ (fst (perform o b)) = sessions_ b.
Proof.
  intros Hi Ha Hna Hnr. destruct o as [x|x t|x t|lat t p|c n|c x|c|x t c|x|]; simpl in Ha; cbn [perform].
  - by destruct (Hna x).
  - destruct (subscribe_inv b x t Hi Ha) as (b' & l & E & _ & _ & Hs & _). by rewrite E.
  - by destruct (unsubscribe_inv b x t Hi) as (_ & _ & _ & Hs & _).
  - destruct (publish_inv lat t p b Hi) as (q & Eq & _). unfold mbind, act_bind. by rewrite Eq.
  - done.
  - by destruct (registerClient_inv b c x Hi) as (acks & _ & _ & _ & _ & Hs & _).
  - done.
  - destruct (replayMessagesForClient_inv b x t c Hi) as (l & E). by rewrite E.
  - by destruct (Hnr x).
  - unfold stop, stop_accepting, close_persistence, mbind, act_bind, gets, modify. simpl. by destruct (server_fd_ b =? -1).
Qed.

(** The connections the loop sees before [select] fails. *)
Fixpoint connections (evs : list accept_event) : list sid :=
  match evs with
  | [] | SelectError :: _ => []
  | SelectTimeout :: evs' | AcceptFailed :: evs' => connections evs'
  | Connected s :: evs' => s :: connections evs'
  end.

(** ** Theorems, whatever the storage engine answers *)

(** C4: Every reachable state is safe: topics without subscribers are dropped, no
    subscriber set holds a session that was removed, sessions are listed once,
    the connection counter is the number of sessions and at most
    [MAX_CONNECTIONS], the gauges of connections, subscribers and topics are the
    real counts (that of subscribers as the 32-bit number the code makes of it;
    the gauge per topic goes stale when a session ends), every ACK set is sound
    with its cached maximum, and the next call returns without an exception. *)
Theorem reachable_safe e b :
  Storage.store_wf (env_view e) → rtc step (new_broker e) b →
  broker_inv b ∧ ∀ o, allowed b o → snd (perform o b) = Ret tt.
Proof.
  intros Hwf Hr. assert (Hi : broker_inv b).
  { revert Hr. generalize (new_broker_inv e Hwf). generalize (new_broker e). clear Hwf.
    intros b0 Hb0 Hr. induction Hr as [|b1 b2 b3 [b o Ha] _ IH]; [done|].
    apply IH. by apply perform_inv. }
  split; [done|]. intros o Ha. by apply perform_inv.
Qed.

(** C7: [publish] returns the next sequence number and sends the payload to each
    session once if it subscribes to the topic and once more if it subscribes
    to ["#"], and to no other: but for ["#"] a subscription is a literal topic,
    so that one to ["sensors/*"], ["sensors/+/x"] or ["sensors/#"] is sent
    nothing that is published to ["sensors/1/x"]. Subscriptions and ACKs are not
    changed. *)
Theorem publish_delivers b latency topic payload :
  broker_inv b →
  let '(b', r) := publish latency topic payload b in
  r = Ret (u64 (current_sequence_ b + 1)) ∧
  getLastSequence b' = u64 (current_sequence_ b + 1) ∧
  (∀ s, sent (outbox b') s = sent (outbox b) s ++
     (if bool_decide (s ∈ subscribers b topic) then [payload] else []) ++
     (if bool_decide (s ∈ subscribers b (lit "#")) then [payload] else [])) ∧
  topic_subscribers_ b' = topic_subscribers_ b ∧ client_acks_ b' = client_acks_ b.
Proof.
  intros Hi. destruct (publish_inv latency topic payload b Hi) as (q & -> & _).
  do 2 (split; [done|]). split; [|done]. intros s. apply published_sent.
Qed.

(** C8: A subscriber's stream: over any sequence of calls by others, a session is
    sent exactly the payloads published to the topics it subscribes to, taken
    literally, and, when it subscribes to ["#"], every payload once more, in the
    order of the publishes, and stays subscribed. *)
Theorem subscriber_stream b ops s :
  broker_inv b → allowed_all ops b → Forall (λ o, ¬ concerns s o) ops →
  sent (outbox (perform_all ops b)) s =
    sent (outbox b) s ++ concat (stream (subscribed b s) <$> ops) ∧
  (∀ t, subscribed (perform_all ops b) s t = subscribed b s t).
Proof.
  intros Hi Ha Hc. revert b Hi Ha. induction Hc as [|o ops Ho _ IH]; intros b Hi Ha.
  { simpl. by rewrite app_nil_r. }
  destruct Ha as [Ha Has]. destruct (perform_inv b o Hi Ha) as [_ Hi'].
  destruct (perform_other b o s Hi Ha Ho) as [Hs Hsent].
  destruct (IH _ Hi' Has) as [E1 E2]. unfold perform_all in *. cbn [fold_left].
  split; [|intros t; by rewrite E2, Hs]. rewrite E1, Hsent, fmap_cons, <-app_assoc.
  cbn [concat]. do 3 f_equal. apply list_fmap_ext. intros i o' _.
  destruct o'; try done. cbn [stream]. by rewrite !Hs.
Qed.

(** [handleAck] acknowledges: afterwards the number is acknowledged for the
    client and the client's last ACK is the larger of the old one and it;
    below the bound of the ACK set nothing else changes for the client, and
    nothing at all for other clients. *)
Theorem ack_recorded b c n :
  broker_inv b → 0 ≤ n < 2 ^ 64 →
  let '(b', r) := handleAck c n b in
  r = Ret tt ∧ isAcked b' c n = true ∧ getLastAck b' c = Z.max (getLastAck b c) n ∧
  (zlen (Acks.order_ (acks_of b c)) < Acks.MAX →
    ∀ m, isAcked b' c m = bool_decide (m = n) || isAcked b c m) ∧
  (∀ c', c' ≠ c → getLastAck b' c' = getLastAck b c' ∧ ∀ m, isAcked b' c' m = isAcked b c' m).
Proof.
  intros Hi Hn. destruct (handleAck_inv b c n Hi Hn) as (E & Hi' & Ha & Hl & _).
  rewrite E. set (b' := fst _) in *. split; [done|].
  assert (Hacks : acks_of b' c = Acks.insert n (acks_of b c)) by (unfold acks_of at 1; by rewrite Ha, lookup_insert_eq).
  split; [|split; [done|split]].
  - rewrite isAcked_acks_of, Hacks. unfold Acks.contains. rewrite bool_decide_true by apply Acks.insert_lookup_self. done.
  - intros Hlt m. rewrite !isAcked_acks_of, Hacks. by apply Acks.insert_contains.
  - intros c' Hc. split.
    + rewrite !bi_last by done. by rewrite Ha, lookup_insert_ne.
    + intros m. unfold isAcked. by rewrite Ha, lookup_insert_ne.
Qed.

(** C34: The accept loop admits connections in order, up to the limit: with no
    session leaving meanwhile it lists exactly the first ones that fit under
    [MAX_CONNECTIONS], and none once a shutdown was requested. *)
Theorem accept_loop_admits b evs :
  broker_inv b → NoDup (sessions_ b ++ connections evs) →
  let '(b', r) := accept_loop evs b in
  r = Ret tt ∧ broker_inv b' ∧
  sessions_ b' = sessions_ b ++
    (if shutdown_requested_ b then []
     else take (Z.to_nat MAX_CONNECTIONS - length (sessions_ b)) (connections evs)).
Proof.
  revert b. induction evs as [|ev evs IH]; intros b Hi Hnd; cbn [accept_loop];
    unfold mbind, act_bind, gets; destruct (shutdown_requested_ b) eqn:Es;
    try (rewrite app_nil_r; done);
    [cbn [connections]; by rewrite take_nil, app_nil_r|].
  destruct ev as [| | |s]; cbn [connections] in *.
  - by rewrite take_nil, app_nil_r.
  - specialize (IH b Hi Hnd). by rewrite Es in IH.
  - specialize (IH b Hi Hnd). by rewrite Es in IH.
  - assert (Hs : s ∉ sessions_ b).
    { intros Hin. apply NoDup_app in Hnd as (_ & Hd & _). apply (Hd s Hin). by left. }
    destruct (accept_client_inv b s Hi Hs) as (E & Hi' & Hl).
    assert (Hsd : shutdown_requested_ (fst (accept_client s b)) = false).
    { unfold accept_client, mbind, act_bind, gets.
      destruct (MAX_CONNECTIONS <=? active_connections_ b); exact Es. }
    rewrite E. specialize (IH _ Hi'). rewrite Hsd, Hl in IH. pose proof (bi_cap _ Hi) as Hcap.
    destruct (MAX_CONNECTIONS <=? _) eqn:Ec; reflect_bools.
    + replace (Z.to_nat MAX_CONNECTIONS - length (sessions_ b))%nat with 0%nat in * by lia.
      apply IH. apply NoDup_app in Hnd as (? & Hd & [? ?]%NoDup_cons). apply NoDup_app.
      split; [done|]. split; [|done]. intros x Hx Hx'. apply (Hd x Hx). by right.
    + destruct (Z.to_nat MAX_CONNECTIONS - length (sessions_ b))%nat as [|k] eqn:Ek; [lia|].
      rewrite length_app in IH. cbn [length] in IH.
      replace (Z.to_nat MAX_CONNECTIONS - (length (sessions_ b) + 1))%nat with k in IH by lia.
      cbn [take]. rewrite <-!app_assoc in IH. by apply IH.
Qed.
End invariant.

(** ** The broker and its database *)

Section database.
Context `{LmdbLaws env txn} `{HashOrder}.
Implicit Types b : Broker env.

(** The records a compaction at [seq] may delete, and the database after one of
    which every call succeeded. *)
Definition expired (seq : Z) (k : bytes) : Prop :=
  MAX_STORED_MESSAGES < seq ∧
  (Storage.doomed Storage.msg_seq (seq - MAX_STORED_MESSAGES) k = true ∨
   Storage.doomed Storage.ack_seq (seq - MAX_STORED_MESSAGES) k = true).

Definition m_compact (seq : Z) (m : gmap bytes bytes) : gmap bytes bytes :=
  if seq <=? MAX_STORED_MESSAGES then m
  else Storage.m_sweep Storage.ack_seq (seq - MAX_STORED_MESSAGES)
         (Storage.m_sweep Storage.msg_seq (seq - MAX_STORED_MESSAGES) m).

Definition compaction_ok (e : env) (seq : Z) : bool :=
  if seq <=? MAX_STORED_MESSAGES then true
  else Storage.compact_ok e (seq - MAX_STORED_MESSAGES) &&
    match Storage.compact e (seq - MAX_STORED_MESSAGES) with
    | Ret e1 => Storage.purge_ok e1 (seq - MAX_STORED_MESSAGES)
    | _ => false
    end.

Lemma compaction_store b e :
  persistence_ b = Some e →
  ∃ e', runCompactionIfDue b = (b <| persistence_ := Some e' |>, Ret tt) ∧
    (∀ k, env_view e' !! k = env_view e !! k ∨ (expired (current_sequence_ b) k ∧ env_view e' !! k = None)) ∧
    (compaction_ok e (current_sequence_ b) = true → env_view e' = m_compact (current_sequence_ b) (env_view e)).
Proof.
  intros Hp. unfold runCompactionIfDue, compaction_ok, m_compact, expired, mbind, act_bind, gets, liftO. rewrite Hp.
  destruct (current_sequence_ b <=? MAX_STORED_MESSAGES) eqn:Es; reflect_bools.
  { exists e. split; [rewrite <-Hp; by destruct b|]. split; [by left|done]. }
  set (th := current_sequence_ b - MAX_STORED_MESSAGES).
  destruct (Storage.sweep_cases e th Storage.msg_prefix Storage.compact_body Storage.msg_seq) as (e1 & E1 & Hk1);
    auto using Storage.scan_compact, Storage.msg_seq_prefix.
  destruct (Storage.sweep_cases e1 th Storage.ack_prefix Storage.purge_body Storage.ack_seq) as (e2 & E2 & Hk2);
    auto using Storage.scan_purge, Storage.ack_seq_prefix.
  unfold Storage.compact, Storage.purge_old_acks. rewrite E1. cbn [fst snd]. rewrite E2. exists e2.
  split; [done|]. split.
  - intros k. destruct (Hk2 k) as [->|[? ?]]; [|by auto]. destruct (Hk1 k) as [|[? ?]]; auto.
  - intros [Hc Hd]%andb_true_iff. unfold Storage.compact_ok, Storage.purge_ok in *.
    destruct (Storage.sweep_view e th Storage.msg_prefix Storage.compact_body Storage.msg_seq) as (e1' & E1' & V1);
      auto using Storage.scan_compact, Storage.msg_seq_prefix; [lia|].
    destruct (Storage.sweep_view e1 th Storage.ack_prefix Storage.purge_body Storage.ack_seq) as (e2' & E2' & V2);
      auto using Storage.scan_purge, Storage.ack_seq_prefix; [lia|].
    rewrite E1 in E1'. rewrite E2 in E2'. injection E1' as <-. injection E2' as <-. by rewrite V2, V1.
Qed.

(** Whether every call of a publish to the engine succeeds, and the database
    after a publish numbered [seq], the [count]-th of the process, of which
    they did. *)
Definition publish_ok b (topic payload : bytes) : bool :=
  match persistence_ b with
  | None => true
  | Some e =>
      let seq := u64 (current_sequence_ b + 1) in
      Storage.save_ok e topic payload &&
      (if u64 (publish_count_ b + 1) mod COMPACT_EVERY =? 0
       then compaction_ok (Storage.save e seq topic payload) seq else true)
  end.

Definition m_publish (count seq : Z) (m : gmap bytes bytes) (topic payload : bytes) : gmap bytes bytes :=
  if count mod COMPACT_EVERY =? 0 then m_compact seq (Storage.m_save m topic payload)
  else Storage.m_save m topic payload.

Lemma publish_store b e latency topic payload :
  broker_inv b → persistence_ b = Some e →
  let seq := u64 (current_sequence_ b + 1) in
  ∃ e', publish latency topic payload b = (published latency topic payload b (Some e'), Ret seq) ∧
    (∀ k, env_view e' !! k = env_view (Storage.save e seq topic payload) !! k ∨
          (expired seq k ∧ env_view e' !! k = None)) ∧
    (publish_ok b topic payload = true →
       env_view e' = m_publish (u64 (publish_count_ b + 1)) seq (env_view e) topic payload).
Proof.
  intros Hi Hp seq. set (e1 := Storage.save e seq topic payload).
  assert (Hp1 : persistence_ (saved topic payload b) = Some e1) by (unfold saved; simpl; by rewrite Hp).
  unfold publish_ok, m_publish. rewrite Hp. cbv zeta. fold seq e1.
  change (u64 (publish_count_ b + 1)) with (publish_count_ (saved topic payload b)).
  destruct (publish_count_ (saved topic payload b) mod COMPACT_EVERY =? 0) eqn:Ec.
  - destruct (compaction_store (saved topic payload b) e1 Hp1) as (e' & E & Hk & Hv). exists e'.
    split; [apply publish_eq; by rewrite Ec|]. split; [exact Hk|]. intros [Hs Hc]%andb_true_iff.
    rewrite Hv by done. f_equal. by apply Storage.save_view.
  - exists e1. split; [apply publish_eq; rewrite Ec, <-Hp1; by destruct b|]. split; [by left|].
    rewrite andb_true_r. apply Storage.save_view.
Qed.

(** The counter of the database is the broker's. *)
Definition in_sync b : Prop := ∀ e, persistence_ b = Some e → Storage.m_last (env_view e) = current_sequence_ b.

Lemma m_last_ext (m m' : gmap bytes bytes) :
  m !! Storage.last_key = m' !! Storage.last_key → Storage.m_last m = Storage.m_last m'.
Proof. unfold Storage.m_last. by intros ->. Qed.

Lemma m_last_publish count seq m topic payload :
  Storage.store_wf m →
  Storage.m_last (m_publish count seq m topic payload) = u64 (Storage.m_last m + 1).
Proof.
  intros Hwf. rewrite <-Storage.m_next_last, <-(Storage.m_last_save m topic payload) by done. apply m_last_ext.
  unfold m_publish, m_compact. destruct (_ =? _); [|done]. destruct (_ <=? _); [done|].
  by rewrite !Storage.m_sweep_lookup.
Qed.

Lemma op_publish_dec (o : op) :
  (∃ lat t p, o = OpPublish lat t p) ∨ (∀ lat t p, o ≠ OpPublish lat t p).
Proof. destruct o; naive_solver. Qed.

Lemma publish_op_view b lat t p e' :
  broker_inv b → publish_ok b t p = true → persistence_ (fst (perform (OpPublish lat t p) b)) = Some e' →
  ∃ e, persistence_ b = Some e ∧
    env_view e' = m_publish (u64 (publish_count_ b + 1)) (u64 (current_sequence_ b + 1)) (env_view e) t p.
Proof.
  intros Hi Hok. cbn [perform]. unfold mbind, act_bind. destruct (persistence_ b) as [e|] eqn:Hp.
  - destruct (publish_store b e lat t p Hi Hp) as (e1 & E1 & _ & Hv). rewrite E1. simpl. intros [= <-]. eauto.
  - destruct (publish_inv lat t p b Hi) as (q & Eq & _ & Hq). rewrite Eq. simpl. by rewrite (Hq Hp).
Qed.

Lemma publish_op_counts b lat t p :
  broker_inv b →
  current_sequence_ (fst (perform (OpPublish lat t p) b)) = u64 (current_sequence_ b + 1) ∧
  publish_count_ (fst (perform (OpPublish lat t p) b)) = u64 (publish_count_ b + 1).
Proof.
  intros Hi. cbn [perform]. destruct (publish_inv lat t p b Hi) as (q & Eq & _).
  unfold mbind, act_bind. by rewrite Eq.
Qed.

(** The calls to the engine on which the counters depend succeed. *)
Definition storage_ok b (o : op) : bool :=
  match o with OpPublish _ t p => publish_ok b t p | _ => true end.

Lemma perform_sync b o :
  broker_inv b → allowed b o → storage_ok b o = true → in_sync b → in_sync (fst (perform o b)).
Proof.
  intros Hi Ha Hok Hs e' He'. destruct (op_publish_dec o) as [(lat & t & p & ->)|Hn].
  - destruct (publish_op_view b lat t p e' Hi Hok He') as (e & Hp & ->).
    destruct (publish_op_counts b lat t p Hi) as [-> _].
    rewrite m_last_publish by by eapply bi_store. by rewrite Hs.
  - destruct (perform_frame b o Hi Ha Hn) as (-> & _ & Hv). destruct (Hv e' He') as (e & Hp & Hk).
    rewrite <-(Hs e Hp). apply m_last_ext, Hk. intros c n E. by apply (Storage.ack_key_not_last c n).
Qed.

(** ** Theorems on persistence *)

(** C20: [publish] always returns its sequence number, whatever becomes of the
    storage. From a state in which the database counts as the broker does
    (as it does after start-up, until a [save] fails): if all calls of [save]
    succeed, the message is in the database under its number when the call
    returns, also when the call ran a compaction and whether or not that one
    succeeded, and a broker restarted on it numbers on from there; if one
    fails (the map is full), no record has been added, nobody is told, and a
    restarted broker hands the same number out again. *)
Theorem publish_persisted b e latency topic payload :
  broker_inv b → in_sync b → persistence_ b = Some e →
  let seq := u64 (current_sequence_ b + 1) in
  let '(b', r) := publish latency topic payload b in
  r = Ret seq ∧ ∃ e', persistence_ b' = Some e' ∧
    (Storage.save_ok e topic payload = true →
       env_view e' !! Storage.msg_key seq = Some (Storage.msg_data topic payload) ∧
       (Storage.readable e' = true → getLastSequence (new_broker e') = seq)) ∧
    (Storage.save_ok e topic payload = false →
       (∀ k v, env_view e' !! k = Some v → env_view e !! k = Some v) ∧
       (Storage.readable e' = true → getLastSequence (new_broker e') = current_sequence_ b)).
Proof.
  intros Hi Hs Hp seq. destruct (publish_store b e latency topic payload Hi Hp) as (e' & E & Hk & _).
  rewrite E. split; [done|]. exists e'. split; [done|]. fold seq in Hk.
  pose proof (bi_store _ Hi _ Hp) as Hwf.
  assert (Hnext : Storage.m_next (env_view e) = seq) by by rewrite Storage.m_next_last, (Hs e Hp).
  assert (Hlast : env_view e' !! Storage.last_key = env_view (Storage.save e seq topic payload) !! Storage.last_key).
  { destruct (Hk Storage.last_key) as [|[[_ [Hd|Hd]] _]]; [done|by vm_compute in Hd..]. }
  unfold getLastSequence. cbn [current_sequence_ new_broker].
  split; intros Hok; [rewrite (Storage.save_view e seq) in Hk, Hlast by done|rewrite Storage.save_failed in Hk, Hlast by done].
  - split.
    + assert (Hm : Storage.m_save (env_view e) topic payload !! Storage.msg_key seq = Some (Storage.msg_data topic payload)).
      { unfold Storage.m_save. rewrite Hnext, lookup_insert_ne by (symmetry; apply Storage.msg_key_not_last).
        apply lookup_insert_eq. }
      destruct (Hk (Storage.msg_key seq)) as [->|[[Hgt Hd] _]]; [done|]. exfalso. unfold Storage.doomed in Hd.
      rewrite Storage.ack_seq_msg, Storage.msg_seq_key in Hd by apply u64_range.
      unfold MAX_STORED_MESSAGES in *. destruct Hd as [Hd|Hd]; [apply Z.leb_le in Hd; lia|done].
    + intros Hr. rewrite Storage.get_last_seq_view by done. rewrite (m_last_ext _ _ Hlast).
      by rewrite Storage.m_last_save, Hnext.
  - split.
    + intros k v Hv. destruct (Hk k) as [<-|[_ Hn]]; [done|congruence].
    + intros Hr. rewrite Storage.get_last_seq_view by done. by rewrite (m_last_ext _ _ Hlast), (Hs e Hp).
Qed.

(** What the database holds after [cnt] publishes of a process that started on
    a database whose last message was [L] and whose messages were [old]. *)
Definition retained (old : Z → Prop) (L cnt k : Z) : Prop :=
  (old k ∨ L < k ≤ L + cnt) ∧
  (COMPACT_EVERY ≤ cnt → L + cnt / COMPACT_EVERY * COMPACT_EVERY - MAX_STORED_MESSAGES < k).

(** The messages of a database are numbered from 1 to its counter. *)
Definition numbered (m : gmap bytes bytes) : Prop :=
  ∀ k, 0 ≤ k < 2 ^ 64 → is_Some (m !! Storage.msg_key k) → 1 ≤ k ≤ Storage.m_last m.

Definition retention_inv (old : Z → Prop) (L n : Z) b : Prop :=
  broker_inv b ∧ in_sync b ∧ current_sequence_ b = L + publish_count_ b ∧ 0 ≤ publish_count_ b ≤ n ∧
  ∀ e, persistence_ b = Some e → ∀ k, 0 ≤ k < 2 ^ 64 →
    (is_Some (env_view e !! Storage.msg_key k) ↔ retained old L (publish_count_ b) k).

Lemma m_publish_msgs count seq m topic payload k :
  Storage.store_wf m → Storage.m_next m = seq → 0 ≤ k < 2 ^ 64 →
  is_Some (m_publish count seq m topic payload !! Storage.msg_key k) ↔
    ((k = seq ∨ is_Some (m !! Storage.msg_key k)) ∧
     (count mod COMPACT_EVERY = 0 → MAX_STORED_MESSAGES < seq → seq - MAX_STORED_MESSAGES < k)).
Proof.
  intros Hwf Hnext Hk. pose proof (Storage.m_next_range m Hwf) as Hr.
  assert (Hm : is_Some (Storage.m_save m topic payload !! Storage.msg_key k) ↔
    k = seq ∨ is_Some (m !! Storage.msg_key k)).
  { unfold Storage.m_save. rewrite Hnext in *. rewrite lookup_insert_is_Some', lookup_insert_is_Some'.
    split.
    - intros [E|[E|?]]; [by destruct (Storage.msg_key_not_last k)| |by right].
      left. by apply Storage.msg_key_inj in E.
    - intros [->|?]; auto. }
  unfold m_publish, m_compact. destruct (count mod COMPACT_EVERY =? 0) eqn:Ec; reflect_bools.
  2: { rewrite Hm. split; [|tauto]. intros ?. split; [done|]. lia. }
  destruct (seq <=? MAX_STORED_MESSAGES) eqn:Es; reflect_bools.
  { rewrite Hm. split; [|tauto]. intros ?. split; [done|]. lia. }
  rewrite !Storage.m_sweep_lookup. unfold Storage.doomed. rewrite Storage.ack_seq_msg, Storage.msg_seq_key by done.
  destruct (k <=? seq - MAX_STORED_MESSAGES) eqn:Ek; reflect_bools.
  - split; [by intros []|]. intros [_ Hlt]. exfalso. lia.
  - rewrite Hm. split; [|tauto]. intros ?. split; [done|]. lia.
Qed.

Lemma retained_step (old : Z → Prop) L cnt k :
  0 ≤ L → 0 ≤ cnt → (old k → 1 ≤ k ≤ L) →
  ((k = L + cnt + 1 ∨ retained old L cnt k) ∧
    ((cnt + 1) mod COMPACT_EVERY = 0 → MAX_STORED_MESSAGES < L + cnt + 1 → L + cnt + 1 - MAX_STORED_MESSAGES < k)) ↔
  retained old L (cnt + 1) k.
Proof.
  unfold retained, COMPACT_EVERY, MAX_STORED_MESSAGES. intros HL Hc Hold.
  assert (Hpos : old k ∨ L < k ≤ L + cnt → 1 ≤ k) by (intros [?%Hold|?]; lia).
  destruct (decide ((cnt + 1) mod 1000 = 0)) as [Hz|Hnz].
  - assert (E : (cnt + 1) / 1000 * 1000 = cnt + 1) by dlia. rewrite E.
    assert (cnt / 1000 * 1000 ≤ cnt) by dlia. split.
    + intros [[->|[Ho Hlim]] Hn]; specialize (Hn Hz); [split; [right; lia|lia]|]. specialize (Hpos Ho).
      split; [destruct Ho; [by left|right; lia]|]. destruct (decide (100000 < L + cnt + 1)) as [Hgt|?]; [specialize (Hn Hgt)|]; lia.
    + intros [Ho Hlim]. split; [|intros _ _; assert (1000 ≤ cnt + 1) by dlia; lia].
      destruct (decide (k = L + cnt + 1)); [by left|right]. split; [destruct Ho; [by left|right; lia]|].
      intros ?. assert (1000 ≤ cnt + 1) by lia. lia.
  - assert (E : (cnt + 1) / 1000 = cnt / 1000) by dlia. rewrite E. assert (cnt ≠ 999) by (by intros ->).
    assert (cnt / 1000 * 1000 ≤ cnt) by dlia. split.
    + intros [[->|[Ho Hlim]] _]; [split; [right; lia|lia]|]. split; [destruct Ho; [by left|right; lia]|].
      intros ?. apply Hlim. lia.
    + intros [Ho Hlim]. split; [|done].
      destruct (decide (k = L + cnt + 1)); [by left|right]. split; [destruct Ho; [by left|right; lia]|].
      intros ?. apply Hlim. lia.
Qed.

(** A call of which the engine answers every call with success. *)
Inductive sound_step : relation (Broker env) :=
| sound_op b o : allowed b o → storage_ok b o = true → sound_step b (fst (perform o b)).

Lemma retention_step old L n b o :
  0 ≤ L → (∀ k, old k → 1 ≤ k ≤ L) →
  retention_inv old L n b → allowed b o → storage_ok b o = true → L + n + 1 < 2 ^ 64 →
  retention_inv old L (n + 1) (fst (perform o b)).
Proof.
  intros HL Hold (Hi & Hs & Hcount & Hle & Hret) Ha Hok Hn. destruct (perform_inv b o Hi Ha) as [_ Hi'].
  pose proof (perform_sync b o Hi Ha Hok Hs) as Hs'.
  split; [done|]. split; [done|].
  destruct (op_publish_dec o) as [(lat & t & p & ->)|Hnp].
  - destruct (publish_op_counts b lat t p Hi) as [E1 E2]. rewrite E1, E2, Hcount, !u64_small by lia.
    split; [lia|]. split; [lia|]. intros e' He' k Hk.
    destruct (publish_op_view b lat t p e' Hi Hok He') as (e & Hp & Hv).
    pose proof (bi_store _ Hi _ Hp) as Hwf.
    rewrite Hv, Hcount, !u64_small, m_publish_msgs, (Hret e Hp k Hk); try done; try lia.
    2:{ rewrite Storage.m_next_last, (Hs e Hp), u64_small by (try done; lia). lia. }
    apply retained_step; [done|lia|apply Hold].
  - destruct (perform_frame b o Hi Ha Hnp) as (-> & -> & Hv). split; [done|]. split; [lia|].
    intros e' He' k Hk. destruct (Hv e' He') as (e & Hp & Hkeys).
    rewrite Hkeys, (Hret e Hp k Hk); [done|]. intros c j E. by apply (Storage.ack_key_not_msg c j k).
Qed.

(** C21: Retention, over one run of the process on any database whose messages are
    numbered 1 to its counter [L] (an empty one, or one an earlier run left),
    as long as no call to the engine fails and the numbers stay below [2^64]:
    after [cnt] publishes the messages kept are exactly the earlier ones and
    those numbered [L+1] to [L+cnt], less those at or below the threshold of
    the last compaction. The first compaction comes with the thousandth
    publish of the run: until then everything is kept, however much that is;
    from then on at least the last 100 000 and fewer than 101 000. The database
    is again one on which the next run can start. *)
Theorem retention_exact e n b e' :
  Storage.store_wf (env_view e) → Storage.readable e = true → numbered (env_view e) →
  nsteps sound_step n (new_broker e) b →
  let L := Storage.m_last (env_view e) in
  let old k := is_Some (env_view e !! Storage.msg_key k) in
  L + Z.of_nat n < 2 ^ 64 → persistence_ b = Some e' →
  (∀ k, 0 ≤ k < 2 ^ 64 → (is_Some (env_view e' !! Storage.msg_key k) ↔ retained (λ k, 0 ≤ k < 2 ^ 64 ∧ old k) L (publish_count_ b) k)) ∧
  Storage.m_last (env_view e') = L + publish_count_ b ∧ Storage.store_wf (env_view e') ∧ numbered (env_view e').
Proof.
  intros He Hr Hnum Hsteps L old Hn Hp. pose proof (Storage.m_last_range _ He) as HL. fold L in HL.
  set (old' := λ k, 0 ≤ k < 2 ^ 64 ∧ old k). assert (Hold : ∀ k, old' k → 1 ≤ k ≤ L) by (intros k [? ?]; by apply Hnum).
  assert (Hinv : retention_inv old' L (Z.of_nat n) b).
  { clear Hp. assert (Hzero : retention_inv old' L (Z.of_nat 0) (new_broker e)).
    { assert (Hz : Storage.get_last_seq e = L) by by apply Storage.get_last_seq_view.
      split; [by apply new_broker_inv|]. simpl. rewrite Hz.
      split; [intros ? [= <-]; simpl; by rewrite Hz|]. split; [lia|]. split; [lia|].
      intros ? [= <-] k Hk. unfold retained, old', old, COMPACT_EVERY. split; [|intros [[[_ ?]|?] _]; [done|lia]].
      intros Hs. split; [by left|lia]. }
    revert Hsteps Hzero. generalize (new_broker e).
    assert (Hgen : ∀ m b0, nsteps sound_step n b0 b → retention_inv old' L (Z.of_nat m) b0 → L + Z.of_nat (m + n) < 2 ^ 64 →
      retention_inv old' L (Z.of_nat (m + n)) b).
    { clear Hn. intros m b0 Hst. revert m. induction Hst as [b0|n b0 b1 b2 [b3 o Ha Hok] _ IH]; intros m Hm Hlt.
      { by rewrite Nat.add_0_r. }
      replace (m + S n)%nat with (S m + n)%nat in * by lia. apply IH; [|lia].
      rewrite Nat2Z.inj_succ. apply retention_step; [lia|done..|lia]. }
    intros b0 Hst Hm. by apply (Hgen 0%nat b0). }
  destruct Hinv as (Hi & Hs & Hcount & Hle & Hret). split; [by apply Hret|].
  assert (Hl : Storage.m_last (env_view e') = L + publish_count_ b) by (by rewrite (Hs e' Hp)).
  split; [done|]. split; [by apply (bi_store _ Hi)|]. intros k Hk Hk'. apply (Hret e' Hp k Hk) in Hk' as [[?%Hold|?] _]; lia.
Qed.

(** A broker restarted on a database that an ACK was saved to. *)
Lemma restored_ack e c n s :
  Storage.store_wf (env_view e) → 0 ≤ n < 2 ^ 64 → Storage.ack_ok e c n = true →
  Storage.readable (Storage.save_ack e c n) = true →
  ∃ S, Storage.load_acks (Storage.save_ack e c n) c = Ret S ∧
    let '(b2, r) := registerClient c s (new_broker (Storage.save_ack e c n)) in
    r = Ret tt ∧ n ≤ getLastAck b2 c ∧ (Z.of_nat (size S) ≤ Acks.MAX → isAcked b2 c n = true).
Proof.
  intros Hwf0 Hn Hk Hr. destruct (Storage.load_acks_view _ c Hr) as (S & HS & Hx). exists S. split; [done|].
  assert (Hin : n ∈ S).
  { apply Hx. exists (Storage.ack_key c n). rewrite Storage.save_ack_view, lookup_insert_eq by done.
    split; [eauto|by apply Storage.ack_seq_of_key]. }
  assert (Hwf : Storage.store_wf (env_view (Storage.save_ack e c n))) by (by apply Storage.save_ack_wf).
  destruct (registerClient_inv _ c s (new_broker_inv _ Hwf)) as (acks & E & Hi2 & Ha & _ & _ & _ & _ & Hl).
  rewrite E. split; [done|].
  destruct (Hl _ eq_refl) as (S2 & HS2 & ->). rewrite HS in HS2. injection HS2 as <-.
  assert (Hno : n ∈ hash_order S) by (rewrite hash_order_perm; by apply elem_of_elements).
  change (acks_of (new_broker (Storage.save_ack e c n)) c) with Acks.empty_acks in Ha. split.
  - rewrite (getLastAck_acks_of _ _ Hi2), Ha. unfold Acks.max_seq.
    rewrite Acks.insert_all_max by apply Acks.empty_inv. by apply foldr_max_elem.
  - intros Hsize. rewrite isAcked_acks_of, Ha. unfold Acks.contains. apply bool_decide_true.
    rewrite Acks.insert_all_lookup.
    + set_solver.
    + apply Acks.empty_inv.
    + simpl. rewrite union_empty_l_L.
      replace (list_to_set (hash_order S) : gset Z) with S; [done|].
      apply set_eq. intros x. by rewrite elem_of_list_to_set, hash_order_perm, elem_of_elements.
Qed.

(** C19: An ACK outlives the process when the engine takes it: after [handleAck]
    the ACK is known in memory in any case. If a call to the engine failed, the
    database is as it was, and nobody is told; if none did, a broker restarted
    on it that can read it knows the ACK once the client registers again, as
    long as the client has no more ACKs in the database than the in-memory set
    holds, and the client's last ACK is at least that number in any case. *)
Theorem ack_survives_restart b e c n s :
  broker_inv b → persistence_ b = Some e → 0 ≤ n < 2 ^ 64 →
  let b1 := fst (handleAck c n b) in
  isAcked b1 c n = true ∧
  (Storage.ack_ok e c n = false → persistence_ b1 = Some e) ∧
  (Storage.ack_ok e c n = true → ∃ e1, persistence_ b1 = Some e1 ∧
     (Storage.readable e1 = true → ∃ S, Storage.load_acks e1 c = Ret S ∧
        let '(b2, r) := registerClient c s (new_broker e1) in
        r = Ret tt ∧ n ≤ getLastAck b2 c ∧ (Z.of_nat (size S) ≤ Acks.MAX → isAcked b2 c n = true))).
Proof.
  intros Hi Hp Hn b1. destruct (handleAck_inv b c n Hi Hn) as (_ & Hi1 & Ha1 & _ & Hpe). fold b1 in Hi1, Ha1, Hpe.
  rewrite Hp in Hpe. cbn [fmap option_fmap option_map] in Hpe. split; [|split].
  - rewrite isAcked_acks_of. unfold acks_of at 1. rewrite Ha1, lookup_insert_eq. unfold Acks.contains.
    rewrite bool_decide_true by apply Acks.insert_lookup_self. done.
  - intros Hk. by rewrite Hpe, Storage.save_ack_failed.
  - intros Hk. eexists. split; [exact Hpe|]. intros Hr. apply restored_ack; [by apply (bi_store _ Hi)|done..].
Qed.

(** Every message record is a topic followed by a payload that does not start
    with NUL, as every publish of a session writes it. *)
Definition records_by_sessions (m : gmap bytes bytes) (topics : bytes → Prop) : Prop :=
  ∀ n v, m !! Storage.msg_key n = Some v →
    ∃ t p, topics t ∧ (Storage.NUL ∉ t) ∧ head p ≠ Some Storage.NUL ∧ v = Storage.msg_data t p.

(** No record of such a store decodes to the topic. *)
Lemma no_record_matches e from to topic topics :
  Storage.store_wf (env_view e) → records_by_sessions (env_view e) topics →
  (∀ t r, topics t → topic = t ++ r → r = []) →
  ∃ l, Storage.load_range e from to = Ret l ∧
    ∀ f, List.filter (λ m : Storage.stored, bool_decide (m.1.2 = topic) && f m) l = [].
Proof.
  intros Hwf Hrec Hpre. destruct (Storage.load_range_records e from to Hwf) as (l & Hl & Hx).
  exists l. split; [done|]. intros f. apply filter_none. intros [[n mt] mp] Hin. cbn.
  apply andb_false_iff. left. apply bool_decide_false. intros ->.
  apply Hx in Hin as (v & Hv & _ & Hd). destruct (Hrec _ _ Hv) as (t & p & Ht & Hnul & Hhd & ->).
  destruct (Storage.decode_msg_data_topic _ _ _ _ _ _ Hnul Hhd Hd) as (r & Hr & ->). by apply Hr, (Hpre t).
Qed.

Lemma deliver_nothing b s : b <| outbox ::= deliver s [] |> = b.
Proof. by destruct b. Qed.

(** So a subscription and a client's replay send nothing. *)
Lemma subscribe_silent b e s topic topics :
  broker_inv b → persistence_ b = Some e → s ∈ sessions_ b →
  records_by_sessions (env_view e) topics → (∀ t r, topics t → topic = t ++ r → r = []) →
  subscribe s topic b = subscribe_locked s topic b.
Proof.
  intros Hi Hp Hs Hrec Hpre. destruct (subscribe_locked_inv b s topic Hi Hs) as (E & _ & _ & _ & Hp').
  rewrite Hp in Hp'. unfold subscribe, mbind, act_bind. rewrite E.
  destruct (no_record_matches e 0 (u64 (0 + MAX_STORED_MESSAGES)) topic topics (bi_store _ Hi _ Hp) Hrec Hpre)
    as (l & Hl & Hf).
  rewrite (replayMessages_eq _ s topic 0 e l Hp' Hl). unfold replayed.
  specialize (Hf (λ _, true)). erewrite filter_ext in Hf; [rewrite Hf|by intros; cbn; rewrite andb_true_r].
  cbn [fmap list_fmap]. by rewrite deliver_nothing.
Qed.

Lemma replayForClient_silent b e s topic c topics :
  broker_inv b → persistence_ b = Some e →
  records_by_sessions (env_view e) topics → (∀ t r, topics t → topic = t ++ r → r = []) →
  replayMessagesForClient s topic c b = (b, Ret tt).
Proof.
  intros Hi Hp Hrec Hpre.
  destruct (no_record_matches e (u64 (getLastAck b c + 1)) (u64 (getLastAck b c + MAX_STORED_MESSAGES)) topic topics
    (bi_store _ Hi _ Hp) Hrec Hpre) as (l & Hl & Hf).
  rewrite (replayMessagesForClient_eq b s topic c e l Hp Hl), Hf. cbn [fmap list_fmap]. by rewrite deliver_nothing.
Qed.

(** Replay does not find stored messages: when no stored topic is a proper
    prefix of the one subscribed to, a new subscriber is sent nothing, however
    many messages of its topic are stored. *)
Theorem replay_sends_nothing b e s topic topics :
  broker_inv b → persistence_ b = Some e → s ∈ sessions_ b →
  records_by_sessions (env_view e) topics →
  (∀ t r, topics t → topic = t ++ r → r = []) →
  sent (outbox (fst (subscribe s topic b))) s = sent (outbox b) s.
Proof. intros. by erewrite subscribe_silent. Qed.
End database.

(** ** Witnesses *)

#[local] Instance ElementsOrder : HashOrder :=
  {| hash_order := elements; hash_order_perm S := reflexivity (elements S) |}.

(** One session, subscribed to one topic, on an empty in-memory database. *)
Definition demo : Broker MemLmdb :=
  perform_all [OpAccept 1; OpSubscribe 1 (lit "t")] (new_broker (∅ : MemLmdb)).

Lemma empty_broker_inv : broker_inv (new_broker (∅ : MemLmdb)).
Proof. apply new_broker_inv, Storage.store_wf_empty. Qed.

Lemma demo_allowed : allowed_all [OpAccept 1; OpSubscribe 1 (lit "t")] (new_broker (∅ : MemLmdb)).
Proof.
  split; [by apply not_elem_of_nil|]. split; [|done]. vm_compute. left.
Qed.

Lemma demo_inv : broker_inv demo.
Proof. apply perform_all_inv; [exact empty_broker_inv|exact demo_allowed]. Qed.

Lemma reachable_safe_witness :
  snd (perform (OpAccept 2) (fst (perform (OpAccept 1) (new_broker (∅ : MemLmdb))))) = Ret tt.
Proof.
  apply (reachable_safe (∅ : MemLmdb) (fst (perform (OpAccept 1) (new_broker (∅ : MemLmdb))))).
  - exact Storage.store_wf_empty.
  - apply rtc_once, step_op. apply not_elem_of_nil.
  - apply (bool_decide_unpack (2 ∉ _)). vm_compute. exact I.
Defined.

Lemma publish_delivers_witness :
  sent (outbox (fst (publish 5 (lit "t") (lit "hello") demo))) 1 = [lit "hello"].
Proof.
  pose proof (publish_delivers demo 5 (lit "t") (lit "hello") demo_inv) as Hd.
  destruct (publish 5 (lit "t") (lit "hello") demo) as [b' r].
  destruct Hd as (_ & _ & Hs & _). cbn [fst]. rewrite Hs. vm_compute. reflexivity.
Defined.

Lemma subscriber_stream_witness :
  sent (outbox (perform_all [OpAccept 2; OpPublish 5 (lit "t") (lit "a"); OpPublish 5 (lit "u") (lit "b");
    OpSubscribe 2 (lit "t"); OpPublish 5 (lit "t") (lit "c")] demo)) 1 = [lit "a"; lit "c"].
Proof.
  destruct (subscriber_stream demo [OpAccept 2; OpPublish 5 (lit "t") (lit "a"); OpPublish 5 (lit "u") (lit "b");
    OpSubscribe 2 (lit "t"); OpPublish 5 (lit "t") (lit "c")] 1) as [H _].
  - exact demo_inv.
  - split; [apply (bool_decide_unpack (2 ∉ _)); vm_compute; exact I|].
    split; [exact I|]. split; [exact I|]. split; [|split; exact I]. 
    apply (bool_decide_unpack (2 ∈ _)). vm_compute. exact I.
  - repeat constructor; simpl; lia.
  - rewrite H. vm_compute. reflexivity.
Defined.

Lemma ack_recorded_witness : isAcked (fst (handleAck (lit "c") 7 demo)) (lit "c") 7 = true.
Proof.
  pose proof (ack_recorded demo (lit "c") 7 demo_inv ltac:(lia)) as H.
  destruct (handleAck (lit "c") 7 demo) as [b' r]. exact (proj1 (proj2 H)).
Defined.

Lemma accept_loop_admits_witness :
  sessions_ (fst (accept_loop [Connected 5; SelectTimeout; Connected 6] demo)) = [1; 5; 6].
Proof.
  pose proof (accept_loop_admits demo [Connected 5; SelectTimeout; Connected 6] demo_inv) as H.
  destruct (accept_loop [Connected 5; SelectTimeout; Connected 6] demo) as [b' r].
  destruct H as (_ & _ & H); [|cbn [fst]; rewrite H; vm_compute; reflexivity].
  apply (bool_decide_unpack (NoDup _)). vm_compute. exact I.
Defined.

Lemma demo_sync : in_sync demo.
Proof. intros e [= <-]. vm_compute. reflexivity. Qed.

Lemma publish_persisted_witness :
  ∃ e', persistence_ (fst (publish 5 (lit "t") (lit "hello") demo)) = Some e' ∧
    getLastSequence (new_broker e') = 1.
Proof.
  pose proof (publish_persisted demo (∅ : MemLmdb) 5 (lit "t") (lit "hello") demo_inv demo_sync eq_refl) as Hd.
  destruct (publish 5 (lit "t") (lit "hello") demo) as [b' r] eqn:E.
  destruct Hd as (_ & e' & Hp & Hok & _). exists e'. split; [exact Hp|].
  assert (Hr : Storage.readable e' = true) by reflexivity.
  rewrite (proj2 (Hok ltac:(vm_compute; reflexivity)) Hr). vm_compute. reflexivity.
Defined.

Lemma retention_exact_witness :
  is_Some (env_view (Storage.save (∅ : MemLmdb) 1 (lit "t") (lit "x")) !! Storage.msg_key 1).
Proof.
  destruct (retention_exact (∅ : MemLmdb) 1
    (fst (perform (OpPublish 5 (lit "t") (lit "x")) (new_broker (∅ : MemLmdb))))
    (Storage.save (∅ : MemLmdb) 1 (lit "t") (lit "x"))) as [Hk _].
  - exact Storage.store_wf_empty.
  - reflexivity.
  - intros k _ [v Hv]. vm_compute in Hv. discriminate.
  - apply nsteps_once, sound_op; [exact I|vm_compute; reflexivity].
  - vm_compute. reflexivity.
  - reflexivity.
  - apply Hk; [lia|]. split; [right|]; vm_compute; [split; [reflexivity|discriminate]|]. intros Hc. by destruct Hc.
Defined.

Lemma ack_survives_restart_witness :
  isAcked (fst (registerClient (lit "c") 1 (new_broker (Storage.save_ack (∅ : MemLmdb) (lit "c") 7)))) (lit "c") 7
    = true.
Proof.
  destruct (ack_survives_restart demo (∅ : MemLmdb) (lit "c") 7 1 demo_inv eq_refl ltac:(lia)) as (_ & _ & H).
  destruct (H ltac:(vm_compute; reflexivity)) as (e1 & Hp & H1). clear H.
  assert (He : e1 = Storage.save_ack (∅ : MemLmdb) (lit "c") 7) by (symmetry; exact (inj Some _ _ Hp)). clear Hp. subst e1.
  destruct (H1 ltac:(vm_compute; reflexivity)) as (S0 & HS & H2).
  assert (Hsize : Z.of_nat (size S0) ≤ Acks.MAX).
  { assert (E : S0 = {[7]}); [|rewrite E; vm_compute; discriminate].
    transitivity (match Storage.load_acks (Storage.save_ack (∅ : MemLmdb) (lit "c") 7) (lit "c") with Ret S0 => S0 | _ => ∅ end).
    - by rewrite HS.
    - vm_compute. reflexivity. }
  destruct (registerClient _ _ _) as [b2 r]. destruct H2 as (_ & _ & H2). exact (H2 Hsize).
Defined.

(** A database with one message, and a broker with a session on it. *)
Definition one_message : MemLmdb := Storage.save (∅ : MemLmdb) 1 (lit "t") (lit "hello").

Definition late : Broker MemLmdb := fst (perform (OpAccept 1) (new_broker one_message)).

Lemma one_message_view : env_view one_message = Storage.m_save ∅ (lit "t") (lit "hello").
Proof.
  assert (Hok : Storage.save_ok (∅ : MemLmdb) (lit "t") (lit "hello") = true) by (vm_compute; reflexivity).
  exact (Storage.save_view (∅ : MemLmdb) 1 _ _ Hok).
Qed.

Lemma late_inv : broker_inv late.
Proof.
  apply perform_inv; [|apply not_elem_of_nil]. apply new_broker_inv. rewrite one_message_view.
  apply Storage.m_save_wf, Storage.store_wf_empty.
Qed.

Lemma one_message_records : records_by_sessions (env_view one_message) (eq (lit "t")).
Proof.
  intros n v. rewrite one_message_view. unfold Storage.m_save.
  rewrite lookup_insert_Some, lookup_insert_Some, lookup_empty.
  intros [[E _]|[_ [[_ <-]|[_ ?]]]]; [by destruct (Storage.msg_key_not_last n)| |done].
  exists (lit "t"), (lit "hello"). split; [done|].
  split; [by apply (bool_decide_unpack (_ ∉ _)); vm_compute|done].
Qed.

Lemma replay_sends_nothing_witness : sent (outbox (fst (subscribe 1 (lit "t") late))) 1 = [].
Proof.
  rewrite (replay_sends_nothing late one_message 1 (lit "t") (eq (lit "t"))).
  - vm_compute. reflexivity.
  - exact late_inv.
  - reflexivity.
  - left.
  - exact one_message_records.
  - intros t r <- E. apply (f_equal length) in E. rewrite length_app in E. destruct r; [done|simpl in E; lia].
Defined.

End Broker.
