(* ===== verification/Scrape.v ===== *)
(** * Scrape: the metrics under relaxed atomics

    [Broker] and [Metrics] treat a call of the metrics as one step. In the
    program each counter is a [std::atomic] accessed with
    [memory_order_relaxed], the per-topic maps are guarded by [topic_mutex_],
    and the threads of the HTTP server read while the threads of the sessions
    write. Here the calls are sequences of memory operations, and the memory is
    that of relaxed atomics: a cell keeps all its values in modification order,
    and a load returns any of them that is not older than what the thread has
    seen of the cell. Read-modify-write operations take the newest value;
    stores, which the broker makes under its own mutex, append. The
    synchronization through that mutex is left out, which only allows more
    executions. *)

From S2P Require Import Prelude Text Lmdb Storage Metrics Broker.

Module Scrape.

(** ** Cells *)

Inductive series := publish_latency_ | delivery_latency_.
Inductive slot :=
| count | sum_us
| bucket_lt_100us | bucket_lt_500us | bucket_lt_1ms | bucket_lt_5ms
| bucket_lt_10ms | bucket_lt_50ms | bucket_lt_100ms | bucket_inf.

Inductive cell :=
| messages_published_total_ | messages_delivered_total_ | subscriptions_total_ | unsubscriptions_total_
| connections_total_ | disconnections_total_ | acks_total_ | errors_total_
| active_connections_ | active_subscribers_ | topic_count_
| latency (s : series) (x : slot).

#[global] Instance series_eq_dec : EqDecision series.
Proof. solve_decision. Defined.
#[global] Instance slot_eq_dec : EqDecision slot.
Proof. solve_decision. Defined.
#[global] Instance cell_eq_dec : EqDecision cell.
Proof. solve_decision. Defined.

(** Cells that are only ever incremented by one. *)
Definition counter (c : cell) : bool :=
  match c with
  | active_connections_ | active_subscribers_ | topic_count_ | latency _ sum_us => false
  | _ => true
  end.

Definition slot_of (x : slot) (h : Metrics.LatencyHistogram) : Z :=
  match x with
  | count => Metrics.h_count h | sum_us => Metrics.h_sum_us h
  | bucket_lt_100us => Metrics.bucket_lt_100us h | bucket_lt_500us => Metrics.bucket_lt_500us h
  | bucket_lt_1ms => Metrics.bucket_lt_1ms h | bucket_lt_5ms => Metrics.bucket_lt_5ms h
  | bucket_lt_10ms => Metrics.bucket_lt_10ms h | bucket_lt_50ms => Metrics.bucket_lt_50ms h
  | bucket_lt_100ms => Metrics.bucket_lt_100ms h | bucket_inf => Metrics.bucket_inf h
  end.

Definition get (c : cell) (m : Metrics.Metrics) : Z :=
  match c with
  | messages_published_total_ => Metrics.messages_published_total_ m
  | messages_delivered_total_ => Metrics.messages_delivered_total_ m
  | subscriptions_total_ => Metrics.subscriptions_total_ m
  | unsubscriptions_total_ => Metrics.unsubscriptions_total_ m
  | connections_total_ => Metrics.connections_total_ m
  | disconnections_total_ => Metrics.disconnections_total_ m
  | acks_total_ => Metrics.acks_total_ m
  | errors_total_ => Metrics.errors_total_ m
  | active_connections_ => Metrics.active_connections_ m
  | active_subscribers_ => Metrics.active_subscribers_ m
  | topic_count_ => Metrics.topic_count_ m
  | latency publish_latency_ x => slot_of x (Metrics.publish_latency_ m)
  | latency delivery_latency_ x => slot_of x (Metrics.delivery_latency_ m)
  end.

(** The two maps that [topic_mutex_] guards. *)
Record topics := mkTopics {
  topic_messages_ : gmap bytes Z;
  topic_subscribers_ : gmap bytes Z;
}.

(** ** Programs of memory operations *)

Inductive code (A : Type) : Type :=
| Done (a : A)
| Load (c : cell) (k : Z → code A)
| FetchAdd (c : cell) (n : Z) (k : code A)
| Store (c : cell) (n : Z) (k : code A)
| Locked {B : Type} (f : topics → topics * B) (k : B → code A)     (* a critical section of [topic_mutex_] *)
| Respond (body : bytes) (k : code A).                             (* the HTTP response *)
Arguments Done {A} a.
Arguments Load {A} c k.
Arguments FetchAdd {A} c n k.
Arguments Store {A} c n k.
Arguments Locked {A B} f k.
Arguments Respond {A} body k.

Fixpoint code_bind {A B} (p : code A) (f : A → code B) : code B :=
  match p with
  | Done a => f a
  | Load c k => Load c (λ v, code_bind (k v) f)
  | FetchAdd c n k => FetchAdd c n (code_bind k f)
  | Store c n k => Store c n (code_bind k f)
  | Locked g k => Locked g (λ b, code_bind (k b) f)
  | Respond b k => Respond b (code_bind k f)
  end.
#[export] Instance code_ret : MRet code := @Done.
#[export] Instance code_mbind : MBind code := λ A B f p, code_bind p f.

Definition load (c : cell) : code Z := Load c Done.
Definition fetch_add (c : cell) (n : Z) : code unit := FetchAdd c n (Done tt).
Definition store (c : cell) (n : Z) : code unit := Store c n (Done tt).
Definition locked {B} (f : topics → topics * B) : code B := Locked f Done.
Definition respond (body : bytes) : code unit := Respond body (Done tt).

(** ** The methods of [Metrics] *)

Definition incrementPublished : code unit := fetch_add messages_published_total_ 1.
Definition incrementDelivered : code unit := fetch_add messages_delivered_total_ 1.
Definition incrementSubscriptions : code unit := fetch_add subscriptions_total_ 1.
Definition incrementUnsubscriptions : code unit := fetch_add unsubscriptions_total_ 1.
Definition incrementConnections : code unit := fetch_add connections_total_ 1.
Definition incrementDisconnections : code unit := fetch_add disconnections_total_ 1.
Definition incrementAcks : code unit := fetch_add acks_total_ 1.
Definition incrementErrors : code unit := fetch_add errors_total_ 1.
Definition setActiveConnections (n : Z) : code unit := store active_connections_ n.
Definition setActiveSubscribers (n : Z) : code unit := store active_subscribers_ n.
Definition setTopicCount (n : Z) : code unit := store topic_count_ n.

Definition recordLatency (s : series) (latency_us : Z) : code unit :=
  _ ← fetch_add (latency s count) 1;
  _ ← fetch_add (latency s sum_us) latency_us;
  if latency_us <? 100 then fetch_add (latency s bucket_lt_100us) 1
  else if latency_us <? 500 then fetch_add (latency s bucket_lt_500us) 1
  else if latency_us <? 1000 then fetch_add (latency s bucket_lt_1ms) 1
  else if latency_us <? 5000 then fetch_add (latency s bucket_lt_5ms) 1
  else if latency_us <? 10000 then fetch_add (latency s bucket_lt_10ms) 1
  else if latency_us <? 50000 then fetch_add (latency s bucket_lt_50ms) 1
  else if latency_us <? 100000 then fetch_add (latency s bucket_lt_100ms) 1
  else fetch_add (latency s bucket_inf) 1.

Definition recordPublishLatency (latency_us : Z) : code unit := recordLatency publish_latency_ latency_us.
Definition recordDeliveryLatency (latency_us : Z) : code unit := recordLatency delivery_latency_ latency_us.

Definition incrementTopicMessages (topic : bytes) : code unit := locked (λ t,
  (mkTopics (<[topic := u64 (default 0 (topic_messages_ t !! topic) + 1)]> (topic_messages_ t))
     (topic_subscribers_ t), tt)).

Definition incrementTopicSubscribers (topic : bytes) : code unit := locked (λ t,
  (mkTopics (topic_messages_ t)
     (<[topic := default 0 (topic_subscribers_ t !! topic) + 1]> (topic_subscribers_ t)), tt)).

Definition decrementTopicSubscribers (topic : bytes) : code unit := locked (λ t,
  match topic_subscribers_ t !! topic with
  | Some v =>
      (mkTopics (topic_messages_ t)
         (if v - 1 <=? 0 then delete topic (topic_subscribers_ t)
          else <[topic := v - 1]> (topic_subscribers_ t)), tt)
  | None => (t, tt)
  end).

(** The loads of [exportHistogram], in its order. *)
Definition exportHistogram (name help : bytes) (s : series) : code bytes :=
  n ← load (latency s count);
  sum ← load (latency s sum_us);
  b1 ← load (latency s bucket_lt_100us);
  b2 ← load (latency s bucket_lt_500us);
  b3 ← load (latency s bucket_lt_1ms);
  b4 ← load (latency s bucket_lt_5ms);
  b5 ← load (latency s bucket_lt_10ms);
  b6 ← load (latency s bucket_lt_50ms);
  b7 ← load (latency s bucket_lt_100ms);
  b8 ← load (latency s bucket_inf);
  mret (Metrics.exportHistogram name help (Metrics.mkHist n sum b1 b2 b3 b4 b5 b6 b7 b8)).

Definition exportPrometheus : code bytes :=
  v ← load messages_published_total_;
  let oss := Metrics.scalar "metricmq_messages_published_total" "Total number of messages published" "counter" v in
  v ← load messages_delivered_total_;
  let oss := oss ++ Metrics.scalar "metricmq_messages_delivered_total"
    "Total number of messages delivered to subscribers" "counter" v in
  v ← load subscriptions_total_;
  let oss := oss ++ Metrics.scalar "metricmq_subscriptions_total" "Total number of subscriptions" "counter" v in
  v ← load unsubscriptions_total_;
  let oss := oss ++ Metrics.scalar "metricmq_unsubscriptions_total" "Total number of unsubscriptions" "counter" v in
  v ← load connections_total_;
  let oss := oss ++ Metrics.scalar "metricmq_connections_total" "Total number of client connections" "counter" v in
  v ← load disconnections_total_;
  let oss := oss ++ Metrics.scalar "metricmq_disconnections_total" "Total number of client disconnections" "counter" v in
  v ← load acks_total_;
  let oss := oss ++ Metrics.scalar "metricmq_acks_total" "Total number of message acknowledgements" "counter" v in
  v ← load errors_total_;
  let oss := oss ++ Metrics.scalar "metricmq_errors_total" "Total number of errors" "counter" v in
  v ← load active_connections_;
  let oss := oss ++ Metrics.scalar "metricmq_active_connections" "Current number of active connections" "gauge" v in
  v ← load active_subscribers_;
  let oss := oss ++ Metrics.scalar "metricmq_active_subscribers" "Current number of active subscribers" "gauge" v in
  v ← load topic_count_;
  let oss := oss ++ Metrics.scalar "metricmq_topics" "Current number of topics with subscribers" "gauge" v in
  text ← exportHistogram (lit "metricmq_publish_latency_seconds") (lit "Publish operation latency in seconds")
    publish_latency_;
  let oss := oss ++ text ++ Metrics.NL in
  text ← exportHistogram (lit "metricmq_delivery_latency_seconds") (lit "Message delivery latency in seconds")
    delivery_latency_;
  let oss := oss ++ text ++ Metrics.NL in
  locked (λ t, (t, oss ++
    Metrics.topic_section "metricmq_topic_messages_total" "Messages published per topic" "counter" (topic_messages_ t) ++
    Metrics.topic_section "metricmq_topic_subscribers" "Current subscribers per topic" "gauge" (topic_subscribers_ t))).

(** [MetricsHandler::handleRequest] for a [GET]. *)
Definition handleRequest : code unit :=
  metrics ← exportPrometheus;
  respond metrics.

(** ** What the broker reports *)

(** The calls each method of [src/broker.cpp] makes; the numbers it passes are
    arguments. *)
Definition subscribe (topic : bytes) (subscribers topics : Z) : code unit :=
  _ ← incrementSubscriptions;
  _ ← incrementTopicSubscribers topic;
  _ ← setActiveSubscribers subscribers;
  setTopicCount topics.

Definition unsubscribe (topic : bytes) (subscribers : Z) (erased : option Z) : code unit :=
  _ ← incrementUnsubscriptions;
  _ ← decrementTopicSubscribers topic;
  _ ← setActiveSubscribers subscribers;
  match erased with Some topics => setTopicCount topics | None => mret tt end.

Definition publish (topic : bytes) (latency_us : Z) : code unit :=
  _ ← incrementPublished;
  _ ← incrementTopicMessages topic;
  _ ← incrementDelivered;
  recordPublishLatency latency_us.

Definition removeSession (sessions subscribers topics : Z) : code unit :=
  _ ← incrementDisconnections;
  _ ← setActiveConnections sessions;
  _ ← setActiveSubscribers subscribers;
  setTopicCount topics.

Definition accept (sessions : Z) : code unit :=
  _ ← incrementConnections;
  setActiveConnections sessions.

Definition handleAck : code unit := incrementAcks.

(** One thing a thread does. *)
Inductive task :=
| Subscribe (topic : bytes) (subscribers topics : Z)
| Unsubscribe (topic : bytes) (subscribers : Z) (erased : option Z)
| Publish (topic : bytes) (latency_us : Z)
| RemoveSession (sessions subscribers topics : Z)
| Accept (sessions : Z)
| HandleAck
| Get.                                            (* a request to the HTTP server *)

Definition perform (t : task) : code unit :=
  match t with
  | Subscribe topic s n => subscribe topic s n
  | Unsubscribe topic s e => unsubscribe topic s e
  | Publish topic l => publish topic l
  | RemoveSession n s t => removeSession n s t
  | Accept n => accept n
  | HandleAck => handleAck
  | Get => handleRequest
  end.

Fixpoint perform_all (ts : list task) : code unit :=
  match ts with
  | [] => mret tt
  | t :: ts => _ ← perform t; perform_all ts
  end.

(** ** The machine *)

Definition view := cell → nat.
#[global] Instance view_insert : Insert cell nat view := λ c n v c', if decide (c' = c) then n else v c'.
Definition join (v w : view) : view := λ c, (v c `max` w c)%nat.

Record thread := mkThread { seen : view; rest : code unit; sent : list bytes }.

Record machine := mkMachine {
  history : cell → list Z;         (* modification order *)
  maps : topics;
  released : view;                 (* what the last owner of [topic_mutex_] had seen *)
  threads : gmap nat thread;
}.

Definition newest (l : list Z) : Z := default 0 (last l).
Definition append (c : cell) (v : Z) (h : cell → list Z) : cell → list Z :=
  λ c', if decide (c' = c) then h c ++ [v] else h c'.

(** A step of the thread [i]; a load returns the value at the position [pos]. *)
Definition step (i pos : nat) (σ : machine) : option machine :=
  match threads σ !! i with
  | None => None
  | Some (mkThread v k out) =>
      let continue h t r v k out := Some (mkMachine h t r (<[i := mkThread v k out]> (threads σ))) in
      let h := history σ in
      match k with
      | Done _ => None
      | Load c k =>
          if bool_decide (v c ≤ pos)%nat then
            match h c !! pos with
            | Some x => continue h (maps σ) (released σ) (<[c := pos]> v) (k x) out
            | None => None
            end
          else None
      | FetchAdd c n k =>
          continue (append c (u64 (newest (h c) + n)) h) (maps σ) (released σ) (<[c := length (h c)]> v) k out
      | Store c n k => continue (append c n h) (maps σ) (released σ) (<[c := length (h c)]> v) k out
      | Locked f k =>
          let v := join v (released σ) in
          continue h (fst (f (maps σ))) v v (k (snd (f (maps σ)))) out
      | Respond body k => continue h (maps σ) (released σ) v k (out ++ [body])
      end
  end.

Inductive reaches (σ : machine) : machine → Prop :=
| reaches_here : reaches σ σ
| reaches_step σ1 σ2 i pos : reaches σ σ1 → step i pos σ1 = Some σ2 → reaches σ σ2.

(** The process at its start, with what its threads are going to do. *)
Definition start (work : gmap nat (list task)) : machine :=
  mkMachine (λ _, [0]) (mkTopics ∅ ∅) (λ _, O) ((λ ts, mkThread (λ _, O) (perform_all ts) []) <$> work).

(** A list of steps, for evaluation. *)
Fixpoint run (ls : list (nat * nat)) (σ : machine) : option machine :=
  match ls with
  | [] => Some σ
  | (i, pos) :: ls => match step i pos σ with Some σ => run ls σ | None => None end
  end.

(** ** Reasoning about a thread

    What a thread has seen, a bound from below on the messages per topic, the
    numbers it has answered with, and whether it is between the two counts of a
    publish. *)
Record know := mkKnow {
  between : bool;
  vw : view;
  low : gmap bytes Z;
  past : list Metrics.Metrics;
}.

Definition view_le (v w : view) : Prop := ∀ c, (v c ≤ w c)%nat.
Definition messages_le (s t : gmap bytes Z) : Prop := ∀ x, default 0 (s !! x) ≤ default 0 (t !! x).
Definition total (t : gmap bytes Z) : Z := map_fold (λ _ v acc, v + acc) 0 t.

(** [m2] may be answered after [m1]. *)
Definition follows (m1 m2 : Metrics.Metrics) : Prop :=
  (∀ c, counter c = true → get c m1 ≤ get c m2) ∧
  messages_le (Metrics.topic_messages_ m1) (Metrics.topic_messages_ m2) ∧
  total (Metrics.topic_messages_ m1) ≤ Metrics.messages_published_total_ m2.

(** What has been answered is covered by what the thread knows. *)
Definition covered (v : view) (t : gmap bytes Z) (m : Metrics.Metrics) : Prop :=
  (∀ c, counter c = true → get c m ≤ Z.of_nat (v c)) ∧
  messages_le (Metrics.topic_messages_ m) t ∧
  total (Metrics.topic_messages_ m) ≤ Z.of_nat (v messages_published_total_).

(** A critical section that counts one message more, or none. *)
Definition counts_one {B} (f : topics → topics * B) : Prop :=
  ∃ topic, ∀ s, topic_messages_ (fst (f s)) =
    <[topic := u64 (default 0 (topic_messages_ s !! topic) + 1)]> (topic_messages_ s).
Definition counts_none {B} (f : topics → topics * B) : Prop :=
  ∀ s, topic_messages_ (fst (f s)) = topic_messages_ s.

Fixpoint wp {A} (p : code A) (Q : A → know → Prop) (κ : know) : Prop :=
  match p with
  | Done a => Q a κ
  | Load c k =>
      between κ = false ∧
      ∀ x v, view_le (vw κ) v → (counter c = true → Z.of_nat (vw κ c) ≤ x ≤ Z.of_nat (v c)) →
        wp (k x) Q (mkKnow false v (low κ) (past κ))
  | FetchAdd c n k =>
      between κ = false ∧ (counter c = true → n = 1) ∧
      ∀ v, view_le (vw κ) v → wp k Q (mkKnow (bool_decide (c = messages_published_total_)) v (low κ) (past κ))
  | Store c n k =>
      between κ = false ∧ counter c = false ∧
      ∀ v, view_le (vw κ) v → wp k Q (mkKnow false v (low κ) (past κ))
  | Locked f k =>
      (if between κ then counts_one f else counts_none f) ∧
      ∀ s v, view_le (vw κ) v → messages_le (low κ) (topic_messages_ s) →
        total (topic_messages_ s) ≤ Z.of_nat (v messages_published_total_) →
        wp (k (snd (f s))) Q (mkKnow false v (topic_messages_ s) (past κ))
  | Respond b k =>
      between κ = false ∧
      ∃ m, b = Metrics.exportPrometheus m ∧ covered (vw κ) (low κ) m ∧ Forall (λ m', follows m' m) (past κ) ∧
        wp k Q (mkKnow false (vw κ) (low κ) (past κ ++ [m]))
  end.

Lemma code_wp_mono {A} (p : code A) (Q Q' : A → know → Prop) κ :
  (∀ a κ, Q a κ → Q' a κ) → wp p Q κ → wp p Q' κ.
Proof.
  intros HQ. revert κ. induction p; intros κ; cbn [wp]; [by auto|..].
  - intros [? H']. split; [done|]. eauto.
  - intros (? & ? & ?). eauto 6.
  - intros (? & ? & ?). eauto 6.
  - intros [? H']. split; [done|]. intros. eauto.
  - intros (? & m & ? & ? & ? & ?). split; [done|]. exists m. eauto 6.
Qed.

Lemma code_wp_bind {A B} (p : code A) (f : A → code B) Q κ :
  wp p (λ a κ, wp (f a) Q κ) κ → wp (p ≫= f) Q κ.
Proof.
  change (p ≫= f) with (code_bind p f). revert κ. induction p; intros κ; cbn [code_bind wp]; [done|..].
  - intros [? H']. split; [done|]. eauto.
  - intros (? & ? & ?). eauto 6.
  - intros (? & ? & ?). eauto 6.
  - intros [? H']. split; [done|]. intros. eauto.
  - intros (? & m & ? & ? & ? & ?). split; [done|]. exists m. eauto 6.
Qed.

#[global] Instance view_le_preorder : PreOrder view_le.
Proof. split; [intros v c; reflexivity|]. intros u v w Huv Hvw c. etrans; [apply Huv|apply Hvw]. Qed.
#[global] Instance messages_le_preorder : PreOrder messages_le.
Proof. split; [intros v c; reflexivity|]. intros u v w Huv Hvw c. etrans; [apply Huv|apply Hvw]. Qed.

Lemma covered_mono v w s t m : view_le v w → messages_le s t → covered v s m → covered w t m.
Proof.
  intros Hv Ht (Hc & Hm & Hp). split; [|split].
  - intros c Hcc. specialize (Hc c Hcc). specialize (Hv c). lia.
  - by etrans.
  - specialize (Hv messages_published_total_). lia.
Qed.

Lemma covered_later v w s t ms :
  view_le v w → messages_le s t → Forall (covered v s) ms → Forall (covered w t) ms.
Proof. intros Hv Ht Hms. eapply Forall_impl; [exact Hms|]. intros m. by apply covered_mono. Qed.

(** A thread between two tasks. *)
Definition ready (κ : know) : Prop := between κ = false ∧ Forall (covered (vw κ) (low κ)) (past κ).

Lemma ready_mono κ v t : view_le (vw κ) v → messages_le (low κ) t → ready κ → ready (mkKnow false v t (past κ)).
Proof. intros Hv Ht [_ H']. split; [done|]. by eapply covered_later. Qed.

(** *** The tasks *)

Lemma wp_add c n Q κ :
  between κ = false → (counter c = true → n = 1) →
  (∀ v, view_le (vw κ) v → Q tt (mkKnow (bool_decide (c = messages_published_total_)) v (low κ) (past κ))) →
  wp (fetch_add c n) Q κ.
Proof. done. Qed.

(** An operation that is not the first count of a publish keeps a thread ready. *)
Lemma ready_add c n κ :
  implb (counter c) (n =? 1) = true → c ≠ messages_published_total_ → ready κ → wp (fetch_add c n) (λ _, ready) κ.
Proof.
  intros Hn Hc Hr. apply wp_add; [apply Hr|intros E; rewrite E in Hn; by apply Z.eqb_eq|]. intros v Hv. rewrite bool_decide_false by done.
  by apply ready_mono.
Qed.

Lemma ready_store c n κ : counter c = false → ready κ → wp (store c n) (λ _, ready) κ.
Proof. intros Hc Hr. split; [apply Hr|]. split; [done|]. intros v Hv. by apply ready_mono. Qed.

Lemma ready_locked {B} (f : topics → topics * B) κ : counts_none f → ready κ → wp (locked f) (λ _, ready) κ.
Proof.
  intros Hf Hr. cbn. destruct Hr as [E Hr]. rewrite E. split; [done|]. intros s v Hv Hs _.
  by apply ready_mono.
Qed.

Lemma ready_bind {A B} (p : code A) (f : A → code B) κ :
  ready κ → (ready κ → wp p (λ _, ready) κ) → (∀ a κ, ready κ → wp (f a) (λ _, ready) κ) →
  wp (p ≫= f) (λ _, ready) κ.
Proof. intros Hr Hp Hf. apply code_wp_bind. eapply code_wp_mono; [|by apply Hp]. auto. Qed.

Create HintDb ready discriminated.
#[local] Hint Resolve ready_add ready_store ready_locked : ready.
#[local] Hint Extern 1 (counts_none _) => intros s; cbn; repeat case_match; done : ready.
#[local] Hint Extern 1 (_ = _) => done : ready.
#[local] Hint Extern 1 (_ ≠ _) => done : ready.
#[local] Hint Extern 1 (wp (mret _) _ _) => done : ready.

Ltac ready_steps :=
  repeat match goal with
  | |- wp (if ?b then _ else _) _ _ => destruct b
  | |- wp (match ?o with _ => _ end) _ _ => destruct o
  | |- wp (_ ≫= _) _ _ => apply ready_bind; [done|intros _|intros ? ? ?]
  end; eauto with ready.

Lemma recordLatency_ready s l κ : ready κ → wp (recordLatency s l) (λ _, ready) κ.
Proof. intros Hr. unfold recordLatency. ready_steps. Qed.

Lemma publish_ready topic l κ : ready κ → wp (publish topic l) (λ _, ready) κ.
Proof.
  intros Hr. unfold publish. apply code_wp_bind. apply wp_add; [apply Hr|done|]. intros v Hv.
  rewrite bool_decide_true by done. apply code_wp_bind. split; [by exists topic|].
  intros s v' Hv' Hs _. cbn [wp]. apply ready_bind; [|intros; ready_steps|].
  - apply (ready_mono κ); [by etrans|done|done].
  - intros [] κ' Hr'. by apply recordLatency_ready.
Qed.

(** *** An export *)

(** Since [κ0] the thread has loaded [l]. *)
Definition loaded (κ0 κ : know) (l : list (cell * Z)) : Prop :=
  between κ = false ∧ low κ = low κ0 ∧ past κ = past κ0 ∧ view_le (vw κ0) (vw κ) ∧
  Forall (λ cx, counter cx.1 = true → Z.of_nat (vw κ0 cx.1) ≤ cx.2 ≤ Z.of_nat (vw κ cx.1)) l.

Lemma wp_load {A} κ0 κ l c (k : Z → code A) Q :
  loaded κ0 κ l → (∀ x κ, loaded κ0 κ ((c, x) :: l) → wp (k x) Q κ) → wp (load c ≫= k) Q κ.
Proof.
  intros (Hb & Hl & Hp & Hv & HF) Hk. split; [done|]. intros x v Hle Hx. apply Hk.
  split; [done|]. split; [done|]. split; [done|]. split; [by etrans|]. constructor.
  - intros Hc. specialize (Hx Hc). specialize (Hv c). cbn. lia.
  - eapply Forall_impl; [exact HF|]. intros [c' x'] H' Hc. specialize (H' Hc). specialize (Hle c'). cbn in *. lia.
Qed.

Lemma wp_exportHistogram name help s κ0 κ l Q :
  loaded κ0 κ l →
  (∀ n sum b1 b2 b3 b4 b5 b6 b7 b8 κ,
    loaded κ0 κ ([(latency s bucket_inf, b8); (latency s bucket_lt_100ms, b7); (latency s bucket_lt_50ms, b6);
      (latency s bucket_lt_10ms, b5); (latency s bucket_lt_5ms, b4); (latency s bucket_lt_1ms, b3);
      (latency s bucket_lt_500us, b2); (latency s bucket_lt_100us, b1); (latency s sum_us, sum);
      (latency s count, n)] ++ l) →
    Q (Metrics.exportHistogram name help (Metrics.mkHist n sum b1 b2 b3 b4 b5 b6 b7 b8)) κ) →
  wp (exportHistogram name help s) Q κ.
Proof.
  intros Hl HQ. unfold exportHistogram.
  do 10 (eapply wp_load; [eassumption|]; clear Hl; intros ? ? Hl). by apply HQ.
Qed.

(** Loads of every cell make numbers that may be answered next. *)
Lemma loaded_covers κ0 κ l m t :
  ready κ0 → loaded κ0 κ l → (∀ c, counter c = true → (c, get c m) ∈ l) →
  Metrics.topic_messages_ m = t → messages_le (low κ0) t → total t ≤ Z.of_nat (vw κ messages_published_total_) →
  covered (vw κ) t m ∧ Forall (λ m', follows m' m) (past κ0).
Proof.
  intros [_ Hr] (_ & _ & _ & Hv & HF) Hall <- Hlow Ht.
  assert (Hget : ∀ c, counter c = true → Z.of_nat (vw κ0 c) ≤ get c m ≤ Z.of_nat (vw κ c)).
  { intros c Hc. rewrite Forall_forall in HF. by apply (HF _ (Hall c Hc)). }
  split.
  - split; [|by split]. intros c Hc. by apply Hget.
  - eapply Forall_impl; [exact Hr|]. intros m' (Hc & Hm & Hp). split; [|split].
    + intros c Hcc. specialize (Hc c Hcc). specialize (Hget c Hcc). lia.
    + by etrans.
    + specialize (Hget messages_published_total_ eq_refl). cbn in Hget. lia.
Qed.

Lemma loaded_later κ0 κ l v :
  loaded κ0 κ l → view_le (vw κ) v → loaded κ0 (mkKnow false v (low κ) (past κ)) l.
Proof.
  intros (Hb & Hl & Hp & Hv & HF) Hle. repeat (split; [first [done|by etrans]|]).
  eapply Forall_impl; [exact HF|]. intros [c' x'] H' Hc. specialize (H' Hc). specialize (Hle c'). cbn in *. lia.
Qed.

Lemma handleRequest_ready κ : ready κ → wp handleRequest (λ _, ready) κ.
Proof.
  intros Hr. unfold handleRequest. apply code_wp_bind. unfold exportPrometheus.
  assert (Hl : loaded κ κ []) by (destruct Hr; by repeat split).
  do 11 (eapply wp_load; [eassumption|]; clear Hl; intros ? ? Hl).
  apply code_wp_bind. eapply wp_exportHistogram; [eassumption|]. clear Hl. intros n sum b1 b2 b3 b4 b5 b6 b7 b8 ? Hl.
  apply code_wp_bind. eapply wp_exportHistogram; [eassumption|]. clear Hl. intros n' sum' b1' b2' b3' b4' b5' b6' b7' b8' κ' Hl.
  cbn [wp locked respond]. destruct (id Hl) as (E & El & Ep & _). rewrite E. split; [done|]. intros s v Hle Hlow Ht.
  rewrite El in Hlow. apply (loaded_later _ _ _ v) in Hl; [|done].
  set (m := Metrics.mkMetrics x x0 x1 x2 x3 x4 x5 x6 x7 x8 x9 (Metrics.mkHist n sum b1 b2 b3 b4 b5 b6 b7 b8)
    (Metrics.mkHist n' sum' b1' b2' b3' b4' b5' b6' b7' b8') (topic_messages_ s) (topic_subscribers_ s)).
  destruct (loaded_covers _ _ _ m (topic_messages_ s) Hr Hl) as [Hc Hf]; [|done..|].
  { intros c Hcc. destruct c as [| | | | | | | | | | |[] []]; try done; by repeat constructor. }
  split; [done|]. exists m. split; [|split; [done|split; [by rewrite Ep|]]].
  - unfold Metrics.exportPrometheus. by rewrite <-!app_assoc.
  - split; [done|]. rewrite Ep. apply Forall_app. split; [|by constructor].
    apply (ready_mono κ v (topic_messages_ s)); [|done|done]. by destruct Hl as (_ & _ & _ & Hl & _).
Qed.

Lemma perform_ready t κ : ready κ → wp (perform t) (λ _, ready) κ.
Proof.
  intros Hr. destruct t; cbn [perform].
  3: by apply publish_ready.
  6: by apply handleRequest_ready.
  all: unfold subscribe, unsubscribe, removeSession, accept, handleAck; ready_steps.
Qed.

Lemma perform_all_ready ts κ : ready κ → wp (perform_all ts) (λ _, ready) κ.
Proof.
  revert κ. induction ts as [|t ts IH]; intros κ Hr; [done|].
  apply ready_bind; [done|intros _; by apply perform_ready|]. intros _. apply IH.
Qed.

(** ** The invariant of the machine *)

(** Messages per topic, counted together. *)
Lemma total_insert t x n : total (<[x := n]> t) = total t - default 0 (t !! x) + n.
Proof.
  assert (Hi : ∀ (t : gmap bytes Z), t !! x = None → total (<[x := n]> t) = n + total t).
  { intros t' Ht. unfold total. rewrite map_fold_insert_L; [done| |done]. intros; lia. }
  destruct (t !! x) as [o|] eqn:Ht; cbn.
  - rewrite <-insert_delete_eq, Hi by apply lookup_delete_eq.
    unfold total at 2. rewrite (map_fold_delete_L _ _ x o t); [fold (total (delete x t)); lia| |done]. intros; lia.
  - rewrite Hi by done. lia.
Qed.

Lemma total_nonneg t : map_Forall (λ _ v, 0 ≤ v) t → 0 ≤ total t.
Proof.
  unfold total. induction t as [|x v t Hx IH] using map_ind; [done|]. intros Ht.
  rewrite map_fold_insert_L; [|intros; lia|done]. apply map_Forall_insert in Ht as [? Ht]; [|done].
  specialize (IH Ht). lia.
Qed.

Lemma total_lookup t x : map_Forall (λ _ v, 0 ≤ v) t → 0 ≤ default 0 (t !! x) ≤ total t.
Proof.
  intros Ht. destruct (t !! x) as [v|] eqn:Hx; cbn; [|split; [done|by apply total_nonneg]].
  pose proof (total_insert t x 0) as E. rewrite Hx in E. cbn in E.
  assert (0 ≤ total (<[x := 0]> t)) by (apply total_nonneg; apply map_Forall_insert_2; done).
  pose proof (Ht x v Hx). cbn in *. lia.
Qed.

(** Distinct positions up to [n] are at most [n]. *)
Lemma size_positions (D : gset nat) n : (∀ d, d ∈ D → (1 ≤ d ≤ n)%nat) → (size D ≤ n)%nat.
Proof.
  intros HD. rewrite <-(size_set_seq (C := gset nat) 1 n). apply subseteq_size.
  intros d Hd. apply elem_of_set_seq. specialize (HD d Hd). lia.
Qed.

Abbreviation published := messages_published_total_.

(** [pend]: the threads between the two counts of a publish; [D]: the positions,
    in the history of the first count, of the publishes that made the second. *)
Record counted (σ : machine) (pend D : gset nat) : Prop := {
  counted_nonneg : map_Forall (λ _ v, 0 ≤ v) (topic_messages_ (maps σ));
  counted_total : total (topic_messages_ (maps σ)) = Z.of_nat (size D);
  counted_released d : d ∈ D → (1 ≤ d ≤ released σ published)%nat;
  counted_pending i : i ∈ pend →
    ∃ th, threads σ !! i = Some th ∧ (1 ≤ seen th published)%nat ∧ (seen th published ∉ D);
  counted_distinct i j th th' : i ∈ pend → j ∈ pend → i ≠ j →
    threads σ !! i = Some th → threads σ !! j = Some th' → seen th published ≠ seen th' published;
}.

Definition thread_inv (σ : machine) (pending : bool) (th : thread) : Prop :=
  (∀ c, (seen th c < length (history σ c))%nat) ∧
  ∃ t ms, sent th = Metrics.exportPrometheus <$> ms ∧ StronglySorted follows ms ∧
    Forall (covered (seen th) t) ms ∧ messages_le t (topic_messages_ (maps σ)) ∧
    wp (rest th) (λ _ _, True) (mkKnow pending (seen th) t ms).

Record inv (σ : machine) : Prop := {
  inv_counter c j x : counter c = true → history σ c !! j = Some x → x = Z.of_nat j;
  inv_released c : (released σ c < length (history σ c))%nat;
  inv_threads : ∃ pend D, counted σ pend D ∧
    ∀ i th, threads σ !! i = Some th → thread_inv σ (bool_decide (i ∈ pend)) th;
}.

(** Fewer operations than a [uint64_t] counts. *)
Definition small (σ : machine) : Prop := ∀ c, Z.of_nat (length (history σ c)) ≤ 2 ^ 64.

Lemma memory_start_inv work : inv (start work).
Proof.
  split.
  - intros c [|[|j]] x _; cbn; first [done|by intros [= <-]].
  - intros c. cbn. lia.
  - exists ∅, ∅. split; [constructor; [apply map_Forall_empty|done|set_solver..]|]. intros i th. unfold start; cbn. rewrite lookup_fmap.
    destruct (work !! i) as [ts|]; [|done]. cbn. intros [= <-]. split; [intros c; cbn; lia|].
    exists ∅, []. split; [done|]. split; [constructor|]. split; [constructor|]. split; [done|]. cbn [rest seen].
    eapply code_wp_mono; [|apply perform_all_ready]; [done|]. by split.
Qed.

(** *** Steps *)

Lemma insert_view_eq (v : view) c n : (<[c := n]> v) c = n.
Proof. unfold insert, view_insert. by rewrite decide_True. Qed.
Lemma insert_view_ne (v : view) c c' n : c' ≠ c → (<[c := n]> v) c' = v c'.
Proof. intros. unfold insert, view_insert. by rewrite decide_False. Qed.
Lemma insert_view_le (v : view) c n : (v c ≤ n)%nat → view_le v (<[c := n]> v).
Proof.
  intros Hn c'. destruct (decide (c' = c)) as [->|]; [by rewrite insert_view_eq|by rewrite insert_view_ne].
Qed.
Lemma join_le_l v w : view_le v (join v w).
Proof. intros c. unfold join. lia. Qed.

Lemma length_append c x h c' : length (append c x h c') = (length (h c') + if decide (c' = c) then 1 else 0)%nat.
Proof. unfold append. destruct (decide _) as [->|]; [rewrite length_app; cbn; lia|lia]. Qed.

(** The other threads do not notice. *)
Lemma threads_update σ σ' i th' (pend pend' : gset nat) :
  threads σ' = <[i := th']> (threads σ) →
  (∀ c, (length (history σ c) ≤ length (history σ' c))%nat) →
  messages_le (topic_messages_ (maps σ)) (topic_messages_ (maps σ')) →
  (∀ j, j ≠ i → j ∈ pend ↔ j ∈ pend') →
  (∀ j th, threads σ !! j = Some th → thread_inv σ (bool_decide (j ∈ pend)) th) →
  thread_inv σ' (bool_decide (i ∈ pend')) th' →
  ∀ j th, threads σ' !! j = Some th → thread_inv σ' (bool_decide (j ∈ pend')) th.
Proof.
  intros Et Hh Hm Hp Hold Hnew j th. rewrite Et. destruct (decide (j = i)) as [->|Hne].
  - rewrite lookup_insert_eq. by intros [= <-].
  - rewrite lookup_insert_ne by done. intros Hj. destruct (Hold _ _ Hj) as (Hs & t & ms & Ho & Hso & Hcv & Hl & Hw).
    split; [intros c; specialize (Hs c); specialize (Hh c); lia|]. exists t, ms. split; [done|]. split; [done|]. split; [done|].
    split; [by etrans|]. by rewrite <-(bool_decide_ext (j ∈ pend) (j ∈ pend')) by auto.
Qed.

(** A step that is no part of a count of messages. *)
Lemma counted_other σ σ' i th' pend D :
  counted σ pend D → i ∉ pend → threads σ' = <[i := th']> (threads σ) →
  topic_messages_ (maps σ') = topic_messages_ (maps σ) → (released σ published ≤ released σ' published)%nat →
  counted σ' pend D.
Proof.
  intros [Hn Ht Hr Hp Hd] Hi Et Em Hrel. constructor; rewrite ?Em; try done.
  - intros d Hd'. specialize (Hr d Hd'). lia.
  - intros j Hj. rewrite Et, lookup_insert_ne by set_solver. auto.
  - intros j j' th th'' Hj Hj' Hne. rewrite Et, !lookup_insert_ne by set_solver. eauto.
Qed.

(** The first count of a publish. *)
Lemma counted_first σ σ' i th' pend D :
  counted σ pend D → (∀ c, (released σ c < length (history σ c))%nat) →
  (∀ j th, threads σ !! j = Some th → (seen th published < length (history σ published))%nat) →
  i ∉ pend → threads σ' = <[i := th']> (threads σ) → seen th' published = length (history σ published) →
  topic_messages_ (maps σ') = topic_messages_ (maps σ) → released σ' = released σ →
  counted σ' ({[ i ]} ∪ pend) D.
Proof.
  intros [Hn Ht Hr Hp Hd] Hrel Hseen Hi Et Es Em Er. specialize (Hrel published).
  constructor; rewrite ?Em, ?Er; try done.
  - intros j [->%elem_of_singleton|Hj]%elem_of_union.
    + exists th'. rewrite Et, lookup_insert_eq, Es. split; [done|]. split; [lia|]. intros Hin. specialize (Hr _ Hin). lia.
    + rewrite Et, lookup_insert_ne by set_solver. auto.
  - assert (Hne : ∀ j th, j ≠ i → threads σ' !! j = Some th → seen th' published ≠ seen th published).
    { intros j th Hj. rewrite Et, lookup_insert_ne by done. intros Hl. specialize (Hseen _ _ Hl). lia. }
    assert (Hown : ∀ th, threads σ' !! i = Some th → th = th') by (intros th; rewrite Et, lookup_insert_eq; by intros [= <-]).
    intros j j' th th'' Hj Hj' Hjj Hl Hl'.
    destruct (decide (j = i)) as [->|]; [rewrite (Hown _ Hl); by eapply Hne; eauto|].
    destruct (decide (j' = i)) as [->|]; [rewrite (Hown _ Hl'); apply not_eq_sym; by eapply Hne; eauto|].
    rewrite Et, lookup_insert_ne in Hl, Hl' by done. eapply (Hd j j'); set_solver.
Qed.

(** The second count, in the critical section. *)
Lemma counted_second σ σ' i th th' pend D topic :
  counted σ pend D → small σ → (∀ c, (released σ c < length (history σ c))%nat) →
  threads σ !! i = Some th → (seen th published < length (history σ published))%nat → i ∈ pend →
  threads σ' = <[i := th']> (threads σ) → released σ' = join (seen th) (released σ) →
  topic_messages_ (maps σ') =
    <[topic := u64 (default 0 (topic_messages_ (maps σ) !! topic) + 1)]> (topic_messages_ (maps σ)) →
  counted σ' (pend ∖ {[ i ]}) ({[ seen th published ]} ∪ D) ∧
  messages_le (topic_messages_ (maps σ)) (topic_messages_ (maps σ')).
Proof.
  intros [Hn Ht Hr Hp Hd] Hsm Hrel Hi Hlt Hpi Et Er Em. specialize (Hrel published). specialize (Hsm published).
  destruct (Hp i Hpi) as (th0 & Hi0 & Hpos & Hnew). rewrite Hi in Hi0. injection Hi0 as <-.
  assert (Hsz : size ({[ seen th published ]} ∪ D) = S (size D)) by (rewrite size_union, size_singleton by set_solver; done).
  assert (Hin : ∀ d, d ∈ ({[ seen th published ]} ∪ D) → (1 ≤ d ≤ seen th published `max` released σ published)%nat).
  { intros d [->%elem_of_singleton|Hd']%elem_of_union; [|specialize (Hr d Hd')]; lia. }
  pose proof (size_positions _ _ Hin) as Hle. pose proof (total_lookup _ topic Hn) as Hl.
  assert (E : u64 (default 0 (topic_messages_ (maps σ) !! topic) + 1) = default 0 (topic_messages_ (maps σ) !! topic) + 1)
    by (apply u64_small; lia).
  rewrite E in Em. split.
  - constructor; rewrite ?Em, ?Er.
    + apply map_Forall_insert_2; [lia|done].
    + rewrite total_insert, Ht, Hsz. lia.
    + exact Hin.
    + intros j [Hj Hji]%elem_of_difference. rewrite elem_of_singleton in Hji.
      rewrite Et, lookup_insert_ne by done. destruct (Hp j Hj) as (th1 & Hj1 & ? & ?). exists th1. split; [done|].
      split; [done|]. pose proof (Hd j i th1 th Hj Hpi Hji Hj1 Hi). set_solver.
    + intros j j' th1 th2 [Hj ?]%elem_of_difference [Hj' ?]%elem_of_difference Hne.
      rewrite Et, !lookup_insert_ne by set_solver. eauto.
  - rewrite Em. intros x. destruct (decide (x = topic)) as [->|]; [rewrite lookup_insert_eq; cbn; lia|by rewrite lookup_insert_ne].
Qed.

(** What the thread that takes the step brings along. *)
Lemma thread_at σ i th :
  inv σ → threads σ !! i = Some th →
  ∃ pend D, counted σ pend D ∧ (∀ j th, threads σ !! j = Some th → thread_inv σ (bool_decide (j ∈ pend)) th) ∧
    thread_inv σ (bool_decide (i ∈ pend)) th.
Proof. intros [_ _ (pend & D & Hc & Hall)] Hi. exists pend, D. auto. Qed.

Lemma released_total σ pend D : counted σ pend D → total (topic_messages_ (maps σ)) ≤ Z.of_nat (released σ published).
Proof. intros [_ Ht Hr _ _]. rewrite Ht. pose proof (size_positions _ _ Hr). lia. Qed.

Lemma load_inv σ i pos v c k out x :
  inv σ → threads σ !! i = Some (mkThread v (Load c k) out) → (v c ≤ pos)%nat → history σ c !! pos = Some x →
  inv (mkMachine (history σ) (maps σ) (released σ) (<[i := mkThread (<[c := pos]> v) (k x) out]> (threads σ))).
Proof.
  intros Hinv Hi Hpos Hx. destruct (thread_at _ _ _ Hinv Hi) as (pend & D & Hc & Hall & Hs & t & ms & Ho & Hso & Hcv & Hl & Hb & Hw).
  apply bool_decide_eq_false in Hb as Hip. constructor; [apply Hinv|apply Hinv|]. exists pend, D. split.
  - eapply counted_other; [exact Hc|done|done|done|done].
  - eapply (threads_update σ); [done|done|done|done|done|]. split.
    + intros c'. cbn [seen history]. destruct (decide (c' = c)) as [->|]; [|rewrite insert_view_ne by done; apply Hs].
      rewrite insert_view_eq. by eapply lookup_lt_Some.
    + exists t, ms. split; [done|]. split; [done|]. split; [by eapply covered_later; [apply insert_view_le|..]|].
      split; [done|]. cbn [rest seen]. rewrite bool_decide_false by done.
      apply Hw; [by apply insert_view_le|]. intros Hcc. cbn [vw seen]. rewrite insert_view_eq, (inv_counter _ Hinv c pos x Hcc Hx). lia.
Qed.

Lemma append_counter σ c y c' j x :
  inv σ → (counter c = true → y = Z.of_nat (length (history σ c))) → counter c' = true →
  append c y (history σ) c' !! j = Some x → x = Z.of_nat j.
Proof.
  intros Hinv Hy Hc'. unfold append. destruct (decide (c' = c)) as [->|]; [|by apply inv_counter].
  intros [Hx|[Hj Hx]]%lookup_app_Some; [by eapply inv_counter|].
  destruct (j - length (history σ c))%nat eqn:E; [|done]. injection Hx as <-. rewrite Hy by done. f_equal. lia.
Qed.

(** An update of a cell, by [fetch_add] or [store]. *)
Lemma update_inv σ i v c y k0 k out (first : bool) :
  inv σ → threads σ !! i = Some (mkThread v k0 out) →
  (counter c = true → y = Z.of_nat (length (history σ c))) → first = bool_decide (c = published) →
  (∀ κ, wp k0 (λ _ _, True) κ → between κ = false ∧
    ∀ v, view_le (vw κ) v → wp k (λ _ _, True) (mkKnow first v (low κ) (past κ))) →
  inv (mkMachine (append c y (history σ)) (maps σ) (released σ)
    (<[i := mkThread (<[c := length (history σ c)]> v) k out]> (threads σ))).
Proof.
  intros Hinv Hi Hy Hfirst Hwp.
  destruct (thread_at _ _ _ Hinv Hi) as (pend & D & Hc & Hall & Hs & t & ms & Ho & Hso & Hcv & Hl & Hw).
  apply Hwp in Hw as [Hb Hw]. apply bool_decide_eq_false in Hb as Hip. cbn in Hs.
  assert (Hlen : ∀ c', (length (history σ c') ≤ length (append c y (history σ) c'))%nat)
    by (intros c'; rewrite length_append; lia).
  assert (Hnew : ∀ c', ((<[c := length (history σ c)]> v) c' < length (append c y (history σ) c'))%nat).
  { intros c'. rewrite length_append. destruct (decide (c' = c)) as [->|]; [rewrite insert_view_eq|rewrite insert_view_ne by done; specialize (Hs c')]; lia. }
  constructor.
  - intros c' j x Hc'. by apply append_counter.
  - intros c'. cbn [released history]. pose proof (inv_released _ Hinv c'). specialize (Hlen c'). lia.
  - exists (if first then {[ i ]} ∪ pend else pend), D. split.
    + destruct first; [|by eapply (counted_other σ)].
      symmetry in Hfirst. apply bool_decide_eq_true in Hfirst as ->.
      eapply (counted_first σ); try done; [apply Hinv|]. intros j th Hj. apply (proj1 (Hall j th Hj)).
    + eapply (threads_update σ _ _ _ pend); [done|done|done|destruct first; set_solver|exact Hall|]. split; [exact Hnew|].
      assert (Hup : view_le v (<[c := length (history σ c)]> v)) by (apply insert_view_le; specialize (Hs c); lia).
      exists t, ms. split; [done|]. split; [done|]. split; [by eapply covered_later|]. split; [done|].
      replace (bool_decide _) with first by (destruct first; symmetry; [apply bool_decide_true; set_solver|by apply bool_decide_false]).
      by apply Hw.
Qed.

Lemma locked_inv {B} σ i v (f : topics → topics * B) k out :
  inv σ → small σ → threads σ !! i = Some (mkThread v (Locked f k) out) →
  inv (mkMachine (history σ) (fst (f (maps σ))) (join v (released σ))
    (<[i := mkThread (join v (released σ)) (k (snd (f (maps σ)))) out]> (threads σ))).
Proof.
  intros Hinv Hsm Hi.
  destruct (thread_at _ _ _ Hinv Hi) as (pend & D & Hc & Hall & Hs & t & ms & Ho & Hso & Hcv & Hl & Hf & Hw). cbn in Hs, Hf.
  assert (Hlen : ∀ c, (join v (released σ) c < length (history σ c))%nat).
  { intros c. pose proof (inv_released _ Hinv c). specialize (Hs c). unfold join. lia. }
  specialize (Hw (maps σ) (join v (released σ)) (join_le_l _ _) Hl).
  assert (Htot : total (topic_messages_ (maps σ)) ≤ Z.of_nat (join v (released σ) published)).
  { pose proof (released_total _ _ _ Hc). unfold join. lia. }
  set (σ' := mkMachine _ _ _ _).
  assert (∃ pend' D', counted σ' pend' D' ∧ (i ∉ pend') ∧ (∀ j, j ≠ i → j ∈ pend ↔ j ∈ pend') ∧
    messages_le (topic_messages_ (maps σ)) (topic_messages_ (maps σ'))) as (pend' & D' & Hc' & Hi' & Hp' & Hm').
  { destruct (bool_decide_reflect (i ∈ pend)) as [Hip|Hip].
    - destruct Hf as [topic Hf].
      destruct (counted_second σ σ' i _ (mkThread (join v (released σ)) (k (snd (f (maps σ)))) out) pend D topic
        Hc Hsm (inv_released _ Hinv) Hi (Hs published) Hip eq_refl eq_refl (Hf (maps σ))) as [??].
      eexists _, _. split; [done|]. set_solver.
    - exists pend, D. split; [|split; [done|split; [done|cbn; by rewrite Hf]]].
      eapply (counted_other σ); [done|done|done|apply Hf|cbn; unfold join; lia]. }
  constructor; [apply Hinv|exact Hlen|]. exists pend', D'. split; [done|].
  eapply (threads_update σ); [done|done|done|exact Hp'|exact Hall|]. split; [exact Hlen|].
  exists (topic_messages_ (maps σ)), ms. split; [done|]. split; [done|].
  split; [by eapply covered_later; [apply join_le_l|..]|]. split; [done|].
  rewrite bool_decide_false by done. by apply Hw.
Qed.

Lemma respond_inv σ i v body k out :
  inv σ → threads σ !! i = Some (mkThread v (Respond body k) out) →
  inv (mkMachine (history σ) (maps σ) (released σ) (<[i := mkThread v k (out ++ [body])]> (threads σ))).
Proof.
  intros Hinv Hi.
  destruct (thread_at _ _ _ Hinv Hi) as (pend & D & Hc & Hall & Hs & t & ms & Ho & Hso & Hcv & Hl & Hb & m & -> & Hcov & Hfol & Hw).
  apply bool_decide_eq_false in Hb as Hip. cbn in Ho, Hs, Hw. constructor; [apply Hinv|apply Hinv|].
  exists pend, D. split; [by eapply (counted_other σ)|].
  eapply (threads_update σ); [done|done|done|done|exact Hall|]. split; [exact Hs|].
  exists t, (ms ++ [m]). split; [by rewrite fmap_app, <-Ho|].
  split; [|split; [by apply Forall_app_2; [|constructor]|split; [done|by rewrite bool_decide_false by done]]].
  apply StronglySorted_app. split; [|split; [done|by repeat constructor]].
  intros m1 m2 Hm1 ->%list_elem_of_singleton. rewrite Forall_forall in Hfol. by apply Hfol.
Qed.

Lemma newest_counter σ c : inv σ → counter c = true → newest (history σ c) = Z.of_nat (length (history σ c)) - 1.
Proof.
  intros Hinv Hc. pose proof (inv_released _ Hinv c). unfold newest. rewrite last_lookup.
  destruct (history σ c !! Init.Nat.pred (length (history σ c))) as [x|] eqn:Hx.
  - cbn. rewrite (inv_counter _ Hinv c _ x Hc Hx). lia.
  - apply lookup_ge_None in Hx. lia.
Qed.

Lemma fetch_add_inv σ i v c n k out :
  inv σ → threads σ !! i = Some (mkThread v (FetchAdd c n k) out) → Z.of_nat (length (history σ c)) < 2 ^ 64 →
  inv (mkMachine (append c (u64 (newest (history σ c) + n)) (history σ)) (maps σ) (released σ)
    (<[i := mkThread (<[c := length (history σ c)]> v) k out]> (threads σ))).
Proof.
  intros Hinv Hi Hlt. destruct (thread_at _ _ _ Hinv Hi) as (pend & D & _ & _ & _ & t & ms & _ & _ & _ & _ & _ & Hn & _).
  eapply update_inv; [done|done| |done|by intros κ (? & ? & ?)].
  intros Hc. rewrite Hn, newest_counter by done. rewrite u64_small; lia.
Qed.

Lemma memory_step_inv i pos σ σ' : inv σ → small σ' → step i pos σ = Some σ' → inv σ'.
Proof.
  intros Hinv Hsm. unfold step. destruct (threads σ !! i) as [[v k out]|] eqn:Hi; [|done].
  destruct k as [[]|c k|c n k|c n k|B f k|body k]; [done|..].
  - case_bool_decide; [|done]. destruct (history σ c !! pos) eqn:Hx; [|done]. intros [= <-]. by eapply load_inv.
  - intros [= <-]. apply fetch_add_inv; [done|done|]. specialize (Hsm c). cbn [history] in Hsm.
    rewrite length_append, decide_True in Hsm by done. lia.
  - intros [= <-]. destruct (thread_at _ _ _ Hinv Hi) as (? & ? & _ & _ & _ & ? & ? & _ & _ & _ & _ & _ & Hg & _).
    eapply update_inv; [done|done|congruence| |]; [symmetry; apply bool_decide_false; by intros ->|].
    by intros κ (? & ? & ?).
  - intros [= <-]. by apply locked_inv.
  - intros [= <-]. by apply respond_inv.
Qed.

Lemma step_small i pos σ σ' : step i pos σ = Some σ' → small σ' → small σ.
Proof.
  unfold step. destruct (threads σ !! i) as [[v k out]|]; [|done].
  intros Hstep Hsm c. destruct k; repeat case_match; try done; injection Hstep as <-; specialize (Hsm c);
    cbn [history] in Hsm; rewrite ?length_append in Hsm; lia.
Qed.

Lemma reaches_inv work σ : reaches (start work) σ → small σ → inv σ.
Proof.
  induction 1 as [|σ1 σ2 i pos _ IH Hstep]; intros Hsm; [apply memory_start_inv|].
  eapply memory_step_inv; [|done|done]. apply IH. by eapply step_small.
Qed.

(** ** One thread on the newest values

    When every load reads the newest value, the operations of one thread act on
    one record of current values. *)

Definition put_slot (x : slot) (n : Z) (h : Metrics.LatencyHistogram) : Metrics.LatencyHistogram :=
  match x with
  | count => h <| Metrics.h_count := n |> | sum_us => h <| Metrics.h_sum_us := n |>
  | bucket_lt_100us => h <| Metrics.bucket_lt_100us := n |> | bucket_lt_500us => h <| Metrics.bucket_lt_500us := n |>
  | bucket_lt_1ms => h <| Metrics.bucket_lt_1ms := n |> | bucket_lt_5ms => h <| Metrics.bucket_lt_5ms := n |>
  | bucket_lt_10ms => h <| Metrics.bucket_lt_10ms := n |> | bucket_lt_50ms => h <| Metrics.bucket_lt_50ms := n |>
  | bucket_lt_100ms => h <| Metrics.bucket_lt_100ms := n |> | bucket_inf => h <| Metrics.bucket_inf := n |>
  end.

Definition put (c : cell) (n : Z) (m : Metrics.Metrics) : Metrics.Metrics :=
  match c with
  | messages_published_total_ => m <| Metrics.messages_published_total_ := n |>
  | messages_delivered_total_ => m <| Metrics.messages_delivered_total_ := n |>
  | subscriptions_total_ => m <| Metrics.subscriptions_total_ := n |>
  | unsubscriptions_total_ => m <| Metrics.unsubscriptions_total_ := n |>
  | connections_total_ => m <| Metrics.connections_total_ := n |>
  | disconnections_total_ => m <| Metrics.disconnections_total_ := n |>
  | acks_total_ => m <| Metrics.acks_total_ := n |>
  | errors_total_ => m <| Metrics.errors_total_ := n |>
  | active_connections_ => m <| Metrics.active_connections_ := n |>
  | active_subscribers_ => m <| Metrics.active_subscribers_ := n |>
  | topic_count_ => m <| Metrics.topic_count_ := n |>
  | latency publish_latency_ x => m <| Metrics.publish_latency_ ::= put_slot x n |>
  | latency delivery_latency_ x => m <| Metrics.delivery_latency_ ::= put_slot x n |>
  end.

Definition topics_of (m : Metrics.Metrics) : topics :=
  mkTopics (Metrics.topic_messages_ m) (Metrics.topic_subscribers_ m).
Definition with_topics (t : topics) (m : Metrics.Metrics) : Metrics.Metrics :=
  m <| Metrics.topic_messages_ := topic_messages_ t |> <| Metrics.topic_subscribers_ := topic_subscribers_ t |>.

(** The values after the program, and the responses it makes. *)
Fixpoint solo {A} (p : code A) (m : Metrics.Metrics) : Metrics.Metrics * list bytes * A :=
  match p with
  | Done a => (m, [], a)
  | Load c k => solo (k (get c m)) m
  | FetchAdd c n k => solo k (put c (u64 (get c m + n)) m)
  | Store c n k => solo k (put c n m)
  | Locked f k => solo (k (snd (f (topics_of m)))) (with_topics (fst (f (topics_of m))) m)
  | Respond b k => let '(m, out, a) := solo k m in (m, b :: out, a)
  end.

(** The newest values of all cells. *)
Definition histogram_of (h : cell → list Z) (s : series) : Metrics.LatencyHistogram :=
  let v x := newest (h (latency s x)) in
  Metrics.mkHist (v count) (v sum_us) (v bucket_lt_100us) (v bucket_lt_500us) (v bucket_lt_1ms) (v bucket_lt_5ms)
    (v bucket_lt_10ms) (v bucket_lt_50ms) (v bucket_lt_100ms) (v bucket_inf).

Definition metrics_of (σ : machine) : Metrics.Metrics :=
  let v c := newest (history σ c) in
  Metrics.mkMetrics (v messages_published_total_) (v messages_delivered_total_) (v subscriptions_total_)
    (v unsubscriptions_total_) (v connections_total_) (v disconnections_total_) (v acks_total_) (v errors_total_)
    (v active_connections_) (v active_subscribers_) (v topic_count_)
    (histogram_of (history σ) publish_latency_) (histogram_of (history σ) delivery_latency_)
    (topic_messages_ (maps σ)) (topic_subscribers_ (maps σ)).

Lemma get_metrics_of σ c : get c (metrics_of σ) = newest (history σ c).
Proof. by destruct c as [| | | | | | | | | | |[] []]. Qed.

Lemma newest_app l x : newest (l ++ [x]) = x.
Proof. unfold newest. by rewrite last_snoc. Qed.

Lemma put_metrics_of σ c n r ths :
  metrics_of (mkMachine (append c n (history σ)) (maps σ) r ths) = put c n (metrics_of σ).
Proof. destruct c as [| | | | | | | | | | |[] []]; lazy -[newest app]; by rewrite newest_app. Qed.

(** Every thread and the lock have seen values that exist. *)
Definition fits (σ : machine) : Prop :=
  (∀ c, (released σ c < length (history σ c))%nat) ∧
  ∀ i th c, threads σ !! i = Some th → (seen th c < length (history σ c))%nat.

Lemma step_fits i pos σ σ' : fits σ → step i pos σ = Some σ' → fits σ'.
Proof.
  intros [Hr Ht]. unfold step. destruct (threads σ !! i) as [[v k out]|] eqn:Hi; [|done].
  assert (Hv : ∀ c, (v c < length (history σ c))%nat) by (intros c; apply (Ht _ _ c Hi)).
  assert (Hthreads : ∀ (h : cell → list Z) v' k' out', (∀ c, (length (history σ c) ≤ length (h c))%nat) →
    (∀ c, (v' c < length (h c))%nat) → ∀ j th c, <[i := mkThread v' k' out']> (threads σ) !! j = Some th →
      (seen th c < length (h c))%nat).
  { intros h v' k' out' Hh Hv' j th c. destruct (decide (j = i)) as [->|].
    - rewrite lookup_insert_eq. by intros [= <-].
    - rewrite lookup_insert_ne by done. intros Hj. specialize (Ht _ _ c Hj). specialize (Hh c). lia. }
  assert (Hup : ∀ c y c', (length (history σ c') ≤ length (append c y (history σ) c'))%nat ∧
    ((<[c := length (history σ c)]> v) c' < length (append c y (history σ) c'))%nat).
  { intros c y c'. rewrite length_append. destruct (decide (c' = c)) as [->|];
      [rewrite insert_view_eq|rewrite insert_view_ne by done; specialize (Hv c')]; lia. }
  destruct k as [[]|c k|c n k|c n k|B f k|body k]; [done|..].
  - case_bool_decide; [|done]. destruct (history σ c !! pos) eqn:Hx; [|done]. intros [= <-]. split; [done|].
    apply Hthreads; [done|]. intros c'. apply lookup_lt_Some in Hx.
    destruct (decide (c' = c)) as [->|]; [by rewrite insert_view_eq|by rewrite insert_view_ne].
  - intros [= <-]. split; [intros c'; specialize (Hr c'); destruct (Hup c (u64 (newest (history σ c) + n)) c'); cbn in *; lia|].
    apply Hthreads; intros c'; apply Hup.
  - intros [= <-]. split; [intros c'; specialize (Hr c'); destruct (Hup c n c'); cbn in *; lia|].
    apply Hthreads; intros c'; apply Hup.
  - intros [= <-]. assert (Hj : ∀ c, (join v (released σ) c < length (history σ c))%nat)
      by (intros c; specialize (Hv c); specialize (Hr c); unfold join; lia).
    split; [exact Hj|]. by apply Hthreads.
  - intros [= <-]. split; [done|]. by apply Hthreads.
Qed.

Lemma start_fits work : fits (start work).
Proof.
  split; [intros c; cbn; lia|]. intros i th c. unfold start; cbn [threads history]. rewrite lookup_fmap.
  destruct (work !! i); [|done]. cbn. intros [= <-]. cbn. lia.
Qed.

Lemma reaches_fits work σ : reaches (start work) σ → fits σ.
Proof. induction 1; [apply start_fits|by eapply step_fits]. Qed.

(** Steps of one thread in which every load reads the newest value: one of its
    runs, since a relaxed load may read an older one. *)
Definition newest_pos (i : nat) (σ : machine) : nat :=
  match threads σ !! i with
  | Some (mkThread _ (Load c _) _) => pred (length (history σ c))
  | _ => O
  end.
Inductive reads_newest (i : nat) : machine → machine → Prop :=
| reads_newest_here σ : reads_newest i σ σ
| reads_newest_step σ1 σ2 σ3 : step i (newest_pos i σ1) σ1 = Some σ2 → reads_newest i σ2 σ3 → reads_newest i σ1 σ3.

(** The sequential effect of a program, from a machine on. *)
Definition finishes (i : nat) (σ : machine) (p : code unit) (out : list bytes) : Prop :=
  ∃ σ' v, reads_newest i σ σ' ∧ threads σ' !! i = Some (mkThread v (Done tt) (out ++ (solo p (metrics_of σ)).1.2)) ∧
    metrics_of σ' = (solo p (metrics_of σ)).1.1.

Lemma finishes_step i σ h t r p p' v out out' :
  let σ' := mkMachine h t r (<[i := mkThread v p' out']> (threads σ)) in
  step i (newest_pos i σ) σ = Some σ' → fits σ → (fits σ' → threads σ' !! i = Some (mkThread v p' out') → finishes i σ' p' out') →
  (solo p (metrics_of σ)).1.1 = (solo p' (metrics_of σ')).1.1 →
  out ++ (solo p (metrics_of σ)).1.2 = out' ++ (solo p' (metrics_of σ')).1.2 → finishes i σ p out.
Proof.
  intros σ' Hstep Hf Hfin Em Eo.
  destruct Hfin as (σ1 & v1 & Ha & Ht & Hm); [by eapply step_fits|unfold σ'; cbn; by rewrite lookup_insert_eq|].
  exists σ1, v1. split; [by econstructor|]. by rewrite Em, Eo.
Qed.

Lemma runs_on_newest i σ v p out : fits σ → threads σ !! i = Some (mkThread v p out) → finishes i σ p out.
Proof.
  revert σ v out. induction p as [[]|c k IH|c n k IH|c n k IH|B f k IH|body k IH]; intros σ v out Hf Hi.
  - exists σ, v. split; [constructor|]. by rewrite app_nil_r.
  - pose proof (proj2 Hf _ _ c Hi) as Hlt. cbn in Hlt.
    destruct (lookup_lt_is_Some_2 (history σ c) (pred (length (history σ c)))) as [x Hx]; [lia|].
    assert (E : get c (metrics_of σ) = x) by (rewrite get_metrics_of; unfold newest; by rewrite last_lookup, Hx).
    eapply finishes_step; [|done|intros Hf' Hi'; by eapply IH|cbn [solo]; by rewrite E|cbn [solo]; by rewrite E].
    unfold step, newest_pos. rewrite Hi, bool_decide_true, Hx by lia. done.
  - eapply finishes_step; [unfold step; by rewrite Hi|done|intros Hf' Hi'; by eapply IH|cbn [solo]..];
      by rewrite put_metrics_of, get_metrics_of.
  - eapply finishes_step; [unfold step; by rewrite Hi|done|intros Hf' Hi'; by eapply IH|cbn [solo]..];
      by rewrite put_metrics_of.
  - assert (E : topics_of (metrics_of σ) = maps σ) by by destruct σ as [? [] ? ?].
    eapply finishes_step; [unfold step; by rewrite Hi|done|intros Hf' Hi'; by eapply IH|cbn [solo]; by rewrite E..].
  - eapply finishes_step; [unfold step; by rewrite Hi|done|intros Hf' Hi'; by eapply IH|cbn [solo]..];
      destruct (solo k (metrics_of σ)) as [[m out'] []] eqn:E; change (metrics_of (mkMachine _ _ _ _)) with (metrics_of σ);
      rewrite E; [done|]. by rewrite <-app_assoc.
Qed.

(** What a task does to the record of [Metrics], as [Broker] has it. *)
Definition effect (t : task) (m : Metrics.Metrics) : Metrics.Metrics * list bytes :=
  match t with
  | Subscribe topic s n =>
      (Metrics.setTopicCount n (Metrics.setActiveSubscribers s
         (Metrics.incrementTopicSubscribers topic (Metrics.incrementSubscriptions m))), [])
  | Unsubscribe topic s erased =>
      let m := Metrics.setActiveSubscribers s
        (Metrics.decrementTopicSubscribers topic (Metrics.incrementUnsubscriptions m)) in
      (match erased with Some n => Metrics.setTopicCount n m | None => m end, [])
  | Publish topic l =>
      (Metrics.recordPublishLatency l (Metrics.incrementDelivered
         (Metrics.incrementTopicMessages topic (Metrics.incrementPublished m))), [])
  | RemoveSession n s t =>
      (Metrics.setTopicCount t (Metrics.setActiveSubscribers s
         (Metrics.setActiveConnections n (Metrics.incrementDisconnections m))), [])
  | Accept n => (Metrics.setActiveConnections n (Metrics.incrementConnections m), [])
  | HandleAck => (Metrics.incrementAcks m, [])
  | Get => (m, [Metrics.body (Metrics.handleRequest (lit "GET") m)])
  end.

Fixpoint effects (ts : list task) (m : Metrics.Metrics) : Metrics.Metrics * list bytes :=
  match ts with
  | [] => (m, [])
  | t :: ts => let '(m, out) := effect t m in let '(m, out') := effects ts m in (m, out ++ out')
  end.

Lemma solo_bind {A B} (p : code A) (f : A → code B) m :
  solo (p ≫= f) m = (let '(m, out, a) := solo p m in let '(m, out', b) := solo (f a) m in (m, out ++ out', b)).
Proof.
  change (p ≫= f) with (code_bind p f). revert m. induction p; intros m; cbn [code_bind solo]; auto.
  - by destruct (solo _ m) as [[??]?].
  - rewrite IHp. destruct (solo p m) as [[m' out] x]. by destruct (solo (f x) m') as [[??]?].
Qed.

Lemma solo_record s l m :
  solo (recordLatency s l) m =
    ((if s is publish_latency_ then Metrics.recordPublishLatency l m else Metrics.recordDeliveryLatency l m), [], tt).
Proof.
  unfold recordLatency, Metrics.recordPublishLatency, Metrics.recordDeliveryLatency, Metrics.recordLatency.
  destruct m as [????????????? ? ?], s; repeat case_match; reflexivity.
Qed.

Lemma solo_export m : solo exportPrometheus m = (m, [], Metrics.exportPrometheus m).
Proof.
  destruct m as [??????????? [] [] ? ?]. unfold Metrics.exportPrometheus.
  lazy beta iota zeta delta [exportPrometheus exportHistogram mbind code_mbind code_bind load locked mret code_ret solo
    get slot_of topics_of fst snd]. cbn [Metrics.messages_published_total_].
  f_equal. rewrite <-!app_assoc. reflexivity.
Qed.

Lemma solo_perform t m : solo (perform t) m = (effect t m, tt).
Proof.
  destruct t as [topic s n|topic s e|topic l|n s t|n| |]; cbn [perform effect].
  - destruct m; reflexivity.
  - unfold unsubscribe, decrementTopicSubscribers, Metrics.decrementTopicSubscribers. destruct m; cbn -[Metrics.decrementTopicSubscribers].
    destruct e; repeat case_match; reflexivity.
  - rewrite <-(solo_record publish_latency_). destruct m; reflexivity.
  - destruct m; reflexivity.
  - destruct m; reflexivity.
  - destruct m; reflexivity.
  - unfold handleRequest. rewrite solo_bind, solo_export. reflexivity.
Qed.

Lemma solo_perform_all ts m : solo (perform_all ts) m = (effects ts m, tt).
Proof.
  revert m. induction ts as [|t ts IH]; intros m; [done|]. cbn [perform_all effects].
  rewrite solo_bind, solo_perform. destruct (effect t m) as [m' out]. rewrite IH. by destruct (effects ts m').
Qed.

(** ** Theorems *)

(** C13: Scrapes by one thread of the HTTP server, while the sessions count: every
    answer is the export of some numbers, and of two answers the later one has
    no counter, bucket or per-topic count below the earlier one's; its total of
    published messages covers all messages the earlier answer lists by topic.
    The atomics are relaxed; the lock of the per-topic maps carries the order.
    The counters have not wrapped around: fewer than [2^64] operations. *)
Theorem scrapes_monotone work σ i th :
  reaches (start work) σ → small σ → threads σ !! i = Some th →
  ∃ ms, sent th = Metrics.exportPrometheus <$> ms ∧ StronglySorted follows ms ∧
    ∀ m c, m ∈ ms → counter c = true → get c m ≤ newest (history σ c).
Proof.
  intros Hreach Hsm Hi. pose proof (reaches_inv _ _ Hreach Hsm) as Hinv.
  destruct (thread_at _ _ _ Hinv Hi) as (_ & _ & _ & _ & Hs & t & ms & Ho & Hso & Hcv & _).
  exists ms. split; [done|]. split; [done|]. intros m c Hm Hc. rewrite newest_counter by done.
  rewrite Forall_forall in Hcv. destruct (Hcv m Hm) as [Hget _]. specialize (Hget c Hc). specialize (Hs c). lia.
Qed.

(** From every state the threads reach there is a run of any one thread, the one
    in which each of its loads reads the newest value, that finishes the calls
    it is about to make with the effect of the functions of [Metrics] and the
    response of the HTTP server. In other runs its loads may read older values,
    as relaxed loads may. *)
Theorem tasks_refine_metrics work σ i v ts out :
  reaches (start work) σ → threads σ !! i = Some (mkThread v (perform_all ts) out) →
  ∃ σ' v', reads_newest i σ σ' ∧
    threads σ' !! i = Some (mkThread v' (Done tt) (out ++ (effects ts (metrics_of σ)).2)) ∧
    metrics_of σ' = (effects ts (metrics_of σ)).1.
Proof.
  intros Hreach Hi. pose proof (runs_on_newest _ _ _ _ _ (reaches_fits _ _ Hreach) Hi) as Hfin.
  unfold finishes in Hfin. by rewrite solo_perform_all in Hfin.
Qed.

(** *** The tasks are what the broker does *)

Section broker.
Context `{LmdbOps env txn} `{HashOrder}.
Implicit Types b : Broker.Broker env.

Lemma replay_metrics s t n : preserves Broker.metrics (Broker.replayMessages (env := env) s t n).
Proof. unfold Broker.replayMessages, Broker.send. repeat preserve_step. Qed.
Lemma replay_client_metrics s t c : preserves Broker.metrics (Broker.replayMessagesForClient (env := env) s t c).
Proof. unfold Broker.replayMessagesForClient, Broker.send. repeat preserve_step. Qed.
Lemma register_metrics c s : preserves Broker.metrics (Broker.registerClient (env := env) c s).
Proof. unfold Broker.registerClient. repeat preserve_step. Qed.
Lemma compaction_metrics : preserves Broker.metrics (Broker.runCompactionIfDue (env := env)).
Proof. unfold Broker.runCompactionIfDue. repeat preserve_step. Qed.
Lemma stop_metrics : preserves Broker.metrics (Broker.stop (env := env)).
Proof. unfold Broker.stop, Broker.stop_accepting, Broker.close_persistence. repeat preserve_step. Qed.

(** The metrics change as by one task, or not at all. *)
Definition reports {A} (m : act (Broker.Broker env) A) : Prop := ∀ b,
  ∃ ts, (length ts ≤ 1)%nat ∧ (Get ∉ ts) ∧ Broker.metrics (fst (m b)) = (effects ts (Broker.metrics b)).1.

Lemma reports_none {A} (m : act (Broker.Broker env) A) : preserves Broker.metrics m → reports m.
Proof. intros Hm b. exists []. split; [cbn; lia|]. split; [set_solver|]. apply Hm. Qed.

Lemma reports_after {A B} (m : act (Broker.Broker env) A) (k : A → act (Broker.Broker env) B) :
  preserves Broker.metrics m → (∀ a, reports (k a)) → reports (m ≫= k).
Proof.
  intros Hm Hk b. specialize (Hm b). unfold mbind, act_bind. destruct (m b) as [b' [a| |]]; cbn in Hm.
  - destruct (Hk a b') as (ts & Hl & Hg & E). exists ts. rewrite Hm in E. auto.
  - exists []. split; [cbn; lia|]. split; [set_solver|done].
  - exists []. split; [cbn; lia|]. split; [set_solver|done].
Qed.

Lemma reports_then {A B} (m : act (Broker.Broker env) A) (x : B) : reports m → reports (_ ← m; mret x).
Proof.
  intros Hm b. destruct (Hm b) as (ts & Hts). exists ts. unfold mbind, act_bind. by destruct (m b) as [b' []].
Qed.

Lemma reports_one {A} (m : act (Broker.Broker env) A) (t : Broker.Broker env → task) :
  (∀ b, t b ≠ Get ∧ Broker.metrics (fst (m b)) = (effect (t b) (Broker.metrics b)).1) → reports m.
Proof.
  intros Hm b. exists [t b]. destruct (Hm b) as [Ht E]. split; [done|]. split; [set_solver|].
  rewrite E. cbn. by destruct (effect (t b) (Broker.metrics b)).
Qed.

(** What a call of the broker does to the metrics is what one of the tasks does,
    or nothing. *)
Theorem broker_reports (o : Broker.op) b :
  ∃ ts, (length ts ≤ 1)%nat ∧ (Get ∉ ts) ∧
    Broker.metrics (fst (Broker.perform o b)) = (effects ts (Broker.metrics b)).1.
Proof.
  revert b. change (reports (Broker.perform o)). destruct o as [s|s t|s t|l t p|c n|c s|c|s t c|s| ]; cbn [Broker.perform].
  - apply reports_after; [done|]. intros n. destruct (_ <=? _); [by apply reports_none|].
    apply (reports_one _ (λ b, Accept (Z.of_nat (length (Broker.sessions_ b ++ [s]))))). done.
  - set (b' b := fst (Broker.subscribe_locked (env := env) s t b)).
    apply (reports_one _ (λ b, Subscribe t (Broker.countTotalSubscribers (b' b)) (Z.of_nat (size (Broker.topic_subscribers_ (b' b)))))).
    intros b. split; [done|]. apply (replay_metrics s t 0 (b' b)).
  - apply reports_after; [done|]. intros [subs|]; [|by apply reports_none].
    set (b1 b := b <| Broker.topic_subscribers_ ::= <[t := subs ∖ {[s]}]> |> : Broker.Broker env).
    set (b2 b := b1 b <| Broker.topic_subscribers_ ::= delete t |> : Broker.Broker env).
    apply (reports_one _ (λ b, Unsubscribe t (Broker.countTotalSubscribers (b1 b))
      (if bool_decide (subs ∖ {[s]} = ∅) then Some (Z.of_nat (size (Broker.topic_subscribers_ (b2 b)))) else None))).
    intros b. cbn zeta. by case_bool_decide.
  - apply reports_then. unfold Broker.publish. do 5 (apply reports_after; [done|intros ?]).
    apply reports_after; [case_match; [apply compaction_metrics|done]|intros ?]. do 4 (apply reports_after; [done|intros ?]).
    by apply (reports_one _ (λ _, Publish t l)).
  - by apply (reports_one _ (λ _, HandleAck)).
  - apply reports_none, register_metrics.
  - by apply reports_none.
  - apply reports_none, replay_client_metrics.
  - set (b' b := fst (Broker.removeSession (env := env) s b)).
    by apply (reports_one _ (λ b, RemoveSession (Z.of_nat (length (Broker.sessions_ (b' b))))
      (Broker.countTotalSubscribers (b' b)) (Z.of_nat (size (Broker.topic_subscribers_ (b' b)))))).
  - apply reports_none, stop_metrics.
Qed.
End broker.

(** *** Executions *)

Lemma run_reaches ls σ : reaches σ (default σ (run ls σ)).
Proof.
  assert (H : ∀ ls σ1 σ2, reaches σ σ1 → run ls σ1 = Some σ2 → reaches σ σ2).
  { clear. intros ls. induction ls as [|[i pos] ls IH]; intros σ1 σ2 Hr; cbn [run]; [by intros [= <-]|].
    destruct (step i pos σ1) as [σ'|] eqn:E; [|done]. apply IH. by econstructor. }
  destruct (run ls σ) as [σ'|] eqn:E; [by eapply H; [constructor|]|constructor].
Qed.

(** One session publishes while another thread exports. *)
Definition one_publish : machine := start (<[1%nat := [Publish (lit "t") 50]]> {[ 2%nat := [Get; Get] ]}).

(** The first total is loaded before the publish, the number of latencies after
    their count and before their bucket. *)
Definition torn_schedule : list (nat * nat) :=
  replicate 11 (2, 0)%nat ++ replicate 4 (1, 0)%nat ++ [(2, 1)]%nat ++ replicate 19 (2, 0)%nat ++ [(2, 0); (2, 0)]%nat.

(** An export can be inconsistent in itself: it lists a message of a topic while
    the total of messages is 0, and a latency that is in no bucket, the last of
    which Prometheus requires to equal the count. *)
Theorem scrape_can_tear :
  ∃ σ m, reaches one_publish σ ∧ sent <$> threads σ !! 2%nat = Some [Metrics.exportPrometheus m] ∧
    Metrics.messages_published_total_ m = 0 ∧ Metrics.topic_messages_ m !! lit "t" = Some 1 ∧
    Metrics.h_count (Metrics.publish_latency_ m) = 1 ∧
    Metrics.occurs (Metrics.bucket_line (lit "metricmq_publish_latency_seconds") (lit "+Inf") 0)
      (Metrics.exportPrometheus m).
Proof.
  exists (default one_publish (run torn_schedule one_publish)),
    (Metrics.new_metrics <| Metrics.publish_latency_ := Metrics.mkHist 1 0 0 0 0 0 0 0 0 0 |>
       <| Metrics.topic_messages_ := {[ lit "t" := 1 ]} |>).
  split; [apply run_reaches|]. split; [vm_compute; reflexivity|]. split; [done|]. split; [done|]. split; [done|].
  unfold Metrics.exportPrometheus. do 11 apply Metrics.occurs_app_r. apply Metrics.occurs_app_l.
  unfold Metrics.exportHistogram. do 16 apply Metrics.occurs_app_r. apply Metrics.occurs_app_l, Metrics.occurs_refl.
Qed.

(** The publish between two exports, the second of which sees it in part. *)
Definition between_schedule : list (nat * nat) :=
  replicate 33 (2, 0)%nat ++ replicate 6 (1, 0)%nat ++ [(2, 1)]%nat ++ replicate 32 (2, 0)%nat.
Definition scraped : machine := default one_publish (run between_schedule one_publish).
Definition scraper : thread := default (mkThread (λ _, O) (Done tt) []) (threads scraped !! 2%nat).

Lemma scrapes_monotone_witness :
  length (sent scraper) = 2%nat ∧
  ∃ ms, sent scraper = Metrics.exportPrometheus <$> ms ∧ StronglySorted follows ms ∧
    ∀ m c, m ∈ ms → counter c = true → get c m ≤ newest (history scraped c).
Proof.
  split; [vm_compute; reflexivity|].
  apply (scrapes_monotone (<[1%nat := [Publish (lit "t") 50]]> {[ 2%nat := [Get; Get] ]}) scraped 2 scraper).
  - apply run_reaches.
  - intros c. destruct c as [| | | | | | | | | | |[] []]; vm_compute; discriminate.
  - vm_compute. reflexivity.
Defined.

Lemma tasks_refine_metrics_witness :
  let σ := default one_publish (run (replicate 6 (1, 0)%nat) one_publish) in
  ∃ σ' v', reads_newest 2 σ σ' ∧
    threads σ' !! 2%nat = Some (mkThread v' (Done tt) ([] ++ (effects [Get; Get] (metrics_of σ)).2)) ∧
    metrics_of σ' = (effects [Get; Get] (metrics_of σ)).1.
Proof.
  apply (tasks_refine_metrics (<[1%nat := [Publish (lit "t") 50]]> {[ 2%nat := [Get; Get] ]}) _ 2 (λ _, O) [Get; Get] []).
  - apply run_reaches.
  - reflexivity.
Defined.
End Scrape.
