(* ===== verification/Session.v ===== *)
(** * Session: [src/session.cpp]

    One connection: protocol detection, the receive loop with its staging
    buffer, the handlers of both protocols and the cleanup at the end. The
    state is the session's own fields beside the broker and the key store it
    calls into. *)

From S2P Require Import Prelude Text BinaryProtocol RespParser Lmdb Storage Signing Keystore Metrics Broker.

Module Session.

Inductive ProtocolType := UNKNOWN | RESP | BINARY.

#[global] Instance ProtocolType_eq_dec : EqDecision ProtocolType.
Proof. solve_decision. Defined.

Definition MAX_RECV_BUFFER : Z := 16 * 1024 * 1024.
Definition SESSION_IDLE_TIMEOUT_S : Z := 300.

Record Session := mkSession {
  self : Broker.sid;             (* this *)
  protocol_type_ : ProtocolType;
  sequence_ : Z;
  client_id_ : bytes;
  recv_buffer_ : bytes;
  last_activity_ : Z;            (* seconds of the steady clock *)
}.
#[global] Instance Session_fields : Fields Session := λ s,
  mkSession (self s) (protocol_type_ s) (sequence_ s) (client_id_ s) (recv_buffer_ s) (last_activity_ s).

(** [Session(sock_fd, broker)] *)
Definition new_session (this : Broker.sid) (now : Z) : Session := mkSession this UNKNOWN 0 [] [] now.

Record State (env : Type) := mkState {
  me : Session;
  broker : Broker.Broker env;
  keystore : Keystore.TrustedKeyStore;
}.
Arguments mkState {env}.
Arguments me {env} _.
Arguments broker {env} _.
Arguments keystore {env} _.
#[global] Instance State_fields env : Fields (State env) := λ s, mkState (me s) (broker s) (keystore s).

(** What the clocks say during the handling of one frame: the time of day, and
    the duration of its publish. *)
Record clock := mkClock { wall : Z; latency : Z }.

(** ** Writing to the socket *)

(** The loop of [send] against the results of the [::send] calls; the bytes
    that reach the socket, and how the loop ends ([Diverge]: still blocked). *)
Fixpoint send_loop (results : list Z) (remaining : bytes) : bytes * outcome unit :=
  match remaining with
  | [] => ([], Ret tt)
  | _ :: _ =>
      match results with
      | [] => ([], Diverge)
      | sent :: results' =>
          if sent <? 0 then ([], Ret tt)
          else
            let n := Z.to_nat sent in
            let '(out, r) := send_loop results' (drop n remaining) in
            (take n remaining ++ out, r)
      end
  end.

(** ** Detection *)

Definition detectProtocol (buffer : bytes) : ProtocolType :=
  match buffer with
  | [] => UNKNOWN
  | c :: _ =>
      let first_byte := char_code c in
      if (first_byte =? 43) || (first_byte =? 45) || (first_byte =? 58) ||
         (first_byte =? 36) || (first_byte =? 42) then RESP
      else if first_byte =? BINARY_PROTOCOL_VERSION then BINARY
      else UNKNOWN
  end.

(** ** Topic scope of a key *)

Definition topic_ok (allowed topic : bytes) : bool :=
  if bool_decide (allowed = lit "*") || bool_decide (allowed = lit "#") then true
  else if (2 <=? zlen allowed) && bool_decide (last allowed = Some (char_of 42))
  then starts_with topic (take (length allowed - 1) allowed)
  else bool_decide (topic = allowed).

Section handlers.
Context `{LmdbOps env txn} `{HashOrder} `{Sodium}.

Abbreviation action A := (act (State env) A).

Definition on_broker {A} (m : act (Broker.Broker env) A) : action A :=
  on_part broker (λ b s, s <| broker := b |>) m.

Definition update_me (f : Session → Session) : action unit := modify (λ s, s <| me ::= f |>).

(** The call of [send] on the session's own socket. *)
Definition send (data : bytes) : action unit :=
  this ← gets (λ s, self (me s)); on_broker (Broker.send this data).

Definition sendBinary (frame : BinaryFrame) : action unit := send (serialize frame).
Definition sendResp (value : Resp.RespValue) : action unit := send (Resp.serialize value).

(** [keystore.verify_with_key(...)] *)
Definition verify_with_key (now kid : Z) (message signature : bytes) : action bool := λ s,
  let '(ks, valid) := Keystore.verify_with_key now (keystore s) kid message signature in
  (s <| keystore := ks |>, Ret valid).

(** [++sequence_] *)
Definition next_sequence : action Z :=
  _ ← update_me (λ m, m <| sequence_ ::= λ n, u64 (n + 1) |>);
  gets (λ s, sequence_ (me s)).

(** ** Binary frames *)

Definition handleSubscribe (frame : BinaryFrame) : action unit :=
  this ← gets (λ s, self (me s));
  _ ← match find_first [Storage.NUL] (topic frame) with
      | Some sep =>
          let client := take sep (topic frame) in
          let t := drop (sep + 1) (topic frame) in
          _ ← update_me (λ m, m <| client_id_ := client |>);
          _ ← on_broker (Broker.registerClient client this);
          _ ← on_broker (Broker.subscribe this t);
          on_broker (Broker.replayMessagesForClient this t client)
      | None => on_broker (Broker.subscribe this (topic frame))
      end;
  sendBinary (frame_ack (sequence frame)).

Definition handlePublish (clk : clock) (frame : BinaryFrame) : action unit :=
  if starts_with (topic frame) (lit "secure/") then
    sendBinary (frame_error (lit "Topic '" ++ topic frame ++
      lit "' requires signed publish (CMD_SIGNED_PUBLISH)"))
  else
    seq ← next_sequence;
    let serialized := serialize (frame_message (topic frame) (payload frame) seq) in
    _ ← on_broker (Broker.publish (latency clk) (topic frame) serialized);
    sendBinary (frame_ack (sequence frame)).

Definition handleSignedPublish (clk : clock) (frame : BinaryFrame) : action unit :=
  let message_to_verify := topic frame ++ payload frame in
  valid ← verify_with_key (wall clk) (key_id frame) message_to_verify (signature frame);
  if negb valid then sendBinary (frame_error (lit "Invalid signature or unknown key"))
  else
    key_info ← gets (λ s, Keystore.get_key_info (keystore s) (key_id frame));
    let authorized :=
      match key_info with
      | Some k =>
          if bool_decide (Keystore.allowed_topics k = []) then true
          else topic_ok (Keystore.allowed_topics k) (topic frame)
      | None => true
      end in
    if negb authorized then
      sendBinary (frame_error (lit "Key not authorized for topic '" ++ topic frame ++ lit "'"))
    else
      seq ← next_sequence;
      let serialized :=
        serialize (frame_signed_message (topic frame) (payload frame) (signature frame) (key_id frame) seq) in
      _ ← on_broker (Broker.publish (latency clk) (topic frame) serialized);
      sendBinary (frame_ack (sequence frame)).

Definition handleBinaryFrame (clk : clock) (frame : BinaryFrame) : action unit :=
  match command frame with
  | CMD_SUBSCRIBE => handleSubscribe frame
  | CMD_UNSUBSCRIBE =>
      this ← gets (λ s, self (me s));
      _ ← on_broker (Broker.unsubscribe this (topic frame));
      sendBinary (frame_ack (sequence frame))
  | CMD_PUBLISH => handlePublish clk frame
  | CMD_PING => sendBinary frame_pong
  | CMD_ACK =>
      client ← gets (λ s, client_id_ (me s));
      if bool_decide (client = []) then mret tt else on_broker (Broker.handleAck client (sequence frame))
  | CMD_SIGNED_PUBLISH => handleSignedPublish clk frame
  | CMD_SIGNED_MESSAGE => mret tt
  | _ => sendBinary (frame_error (lit "Unknown command"))
  end.

(** ** RESP commands *)

(** The confirmation of one topic. *)
Definition confirmation (kind : bytes) (topic : bytes) (n : Z) : Resp.RespValue :=
  Resp.array [Resp.bulkString kind; Resp.bulkString topic; Resp.integer n].

Definition handleCommand (clk : clock) (cmdv : Resp.RespValue) : action unit :=
  if negb (Resp.isArray cmdv) then sendResp (Resp.error (lit "ERR Protocol error: expected array"))
  else
    match Resp.asArray cmdv with
    | [] => sendResp (Resp.error (lit "ERR empty command"))
    | c0 :: args =>
        this ← gets (λ s, self (me s));
        let cmd := toupper <$> Resp.asString c0 in
        if bool_decide (cmd = lit "SUBSCRIBE") then
          for_each (imap (λ i v, (Z.of_nat (i + 1), Resp.asString v)) args) (λ '(i, t),
            _ ← on_broker (Broker.subscribe this t);
            sendResp (confirmation (lit "subscribe") t i))
        else if bool_decide (cmd = lit "UNSUBSCRIBE") then
          for_each (Resp.asString <$> args) (λ t,
            _ ← on_broker (Broker.unsubscribe this t);
            sendResp (confirmation (lit "unsubscribe") t 0))
        else if bool_decide (cmd = lit "PUBLISH") then
          match args with
          | [a1; a2] =>
              let t := Resp.asString a1 in
              let serialized := Resp.serialize (Resp.array
                [Resp.bulkString (lit "message"); Resp.bulkString t; Resp.bulkString (Resp.asString a2)]) in
              _ ← on_broker (Broker.publish (latency clk) t serialized);
              sendResp (Resp.integer 1)
          | _ => sendResp (Resp.error (lit "ERR wrong number of arguments for PUBLISH"))
          end
        else if bool_decide (cmd = lit "PING") then
          match args with
          | a1 :: _ => sendResp (Resp.bulkString (Resp.asString a1))
          | [] => sendResp (Resp.simpleString (lit "PONG"))
          end
        else if bool_decide (cmd = lit "ACK") then
          match args with
          | [a1] =>
              let seq := u64 (Resp.asInteger a1) in
              client ← gets (λ s, client_id_ (me s));
              _ ← (if bool_decide (client = []) then mret tt else on_broker (Broker.handleAck client seq));
              sendResp (Resp.simpleString (lit "OK"))
          | _ => sendResp (Resp.error (lit "ERR wrong number of arguments for ACK"))
          end
        else sendResp (Resp.error (lit "ERR unknown command '" ++ cmd ++ lit "'"))
    end.

(** ** The receive loop *)

(** [while (!recv_buffer_.empty()) { parse; erase; handle }]. Every round
    consumes at least one byte, so the length of the buffer is fuel enough
    ([session_run_safe]). *)
Fixpoint drain {V} (parse : bytes → outcome (option (V * nat))) (handle : nat → V → action unit)
    (fuel : nat) : action unit :=
  buffer ← gets (λ s, recv_buffer_ (me s));
  match buffer with
  | [] => mret tt
  | _ :: _ =>
      match fuel with
      | O => liftO Diverge
      | S f =>
          result ← liftO (parse buffer);
          match result with
          | None => mret tt
          | Some (v, consumed) =>
              _ ← update_me (λ m, m <| recv_buffer_ ::= drop consumed |>);
              _ ← handle f v;
              drain parse handle f
          end
      end
  end.

(** What [recv] reports, with the time it returns at, and the clocks of the
    frames it completes (numbered down). *)
Inductive recv_event :=
| RecvTimeout (now : Z)
| RecvError
| RecvClosed
| RecvData (now : Z) (clk : nat → clock) (data : bytes).

(** The body of the loop after [recv] returned data; [false] is [break]. *)
Definition on_data (now : Z) (clk : nat → clock) (data : bytes) : action bool :=
  _ ← update_me (λ m, m <| last_activity_ := now |>);
  size ← gets (λ s, zlen (recv_buffer_ (me s)));
  if MAX_RECV_BUFFER <? size + zlen data then
    _ ← sendBinary (frame_error (lit "Message too large — connection closed"));
    mret false
  else
    _ ← update_me (λ m, m <| recv_buffer_ ::= λ b, b ++ data |>);
    p ← gets (λ s, protocol_type_ (me s));
    _ ← (if bool_decide (p = UNKNOWN)
         then update_me (λ m, m <| protocol_type_ := detectProtocol (recv_buffer_ m) |>) else mret tt);
    p ← gets (λ s, protocol_type_ (me s));
    fuel ← gets (λ s, length (recv_buffer_ (me s)));
    _ ← match p with
        | UNKNOWN => mret tt
        | RESP => drain Resp.parse (λ i, handleCommand (clk i)) fuel
        | BINARY => drain BinaryProtocol.parse (λ i, handleBinaryFrame (clk i)) fuel
        end;
    mret true.

(** The loop; [true] when it was left, [false] when it waits for more. *)
Fixpoint run_loop (evs : list recv_event) : action bool :=
  match evs with
  | [] => mret false
  | RecvTimeout now :: evs' =>
      last ← gets (λ s, last_activity_ (me s));
      if SESSION_IDLE_TIMEOUT_S <=? now - last then mret true else run_loop evs'
  | RecvError :: _ => mret true
  | RecvClosed :: _ => mret true
  | RecvData now clk data :: evs' =>
      go_on ← on_data now clk data;
      if go_on : bool then run_loop evs' else mret true
  end.

(** After the loop and the [catch] clauses. *)
Definition cleanup : action unit :=
  client ← gets (λ s, client_id_ (me s));
  _ ← (if bool_decide (client = []) then mret tt else on_broker (Broker.unregisterClient client));
  this ← gets (λ s, self (me s));
  on_broker (Broker.removeSession this).

(** [run]: [true] when the thread has ended, the exceptions being caught. *)
Definition run (evs : list recv_event) : action bool := λ s,
  match run_loop evs s with
  | (s', Ret false) => (s', Ret false)
  | (s', Ret true) => (_ ← cleanup; mret true) s'
  | (s', Throw _) => (_ ← cleanup; mret true) s'
  | (s', Diverge) => (s', Diverge)
  end.
End handlers.

(** ** Safety of the handlers *)

Section safety.
Context `{LmdbLaws env txn} `{HashOrder} `{Sodium}.
Implicit Types s : State env.

(** The session is connected, and the broker's state is a sound one. *)
Definition sess_inv s : Prop :=
  Broker.broker_inv (broker s) ∧ self (me s) ∈ Broker.sessions_ (broker s).

(** The fields a handler does not touch. *)
Definition same_stage s s' : Prop :=
  self (me s') = self (me s) ∧ recv_buffer_ (me s') = recv_buffer_ (me s) ∧
  protocol_type_ (me s') = protocol_type_ (me s) ∧ last_activity_ (me s') = last_activity_ (me s).

(** The action, run by session [x], returns in a sound state with the staging
    buffer as it was. *)
Definition safe (x : Broker.sid) {A} (m : act (State env) A) : Prop :=
  ∀ s, sess_inv s → self (me s) = x → ∃ s' a, m s = (s', Ret a) ∧ sess_inv s' ∧ same_stage s s'.

#[local] Instance same_stage_refl : Reflexive same_stage.
Proof. by intros s. Qed.
#[local] Instance same_stage_trans : Transitive same_stage.
Proof. intros s1 s2 s3 (? & ? & ? & ?) (? & ? & ? & ?). unfold same_stage. naive_solver congruence. Qed.

Lemma safe_ret x {A} (a : A) : safe x (mret a).
Proof. intros s Hi _. by exists s, a. Qed.

Lemma safe_gets x {A B} (f : State env → A) (k : A → act (State env) B) :
  (∀ a, safe x (k a)) → safe x (gets f ≫= k).
Proof. intros Hk s Hi Hx. by apply (Hk (f s)). Qed.

(** [this] *)
Lemma safe_this x {B} (k : Broker.sid → act (State env) B) :
  safe x (k x) → safe x (gets (λ s, self (me s)) ≫= k).
Proof. intros Hk s Hi Hx. unfold mbind, act_bind, gets. rewrite Hx. by apply Hk. Qed.

Lemma safe_bind x {A B} (m : act (State env) A) (k : A → act (State env) B) :
  safe x m → (∀ a, safe x (k a)) → safe x (m ≫= k).
Proof.
  intros Hm Hk s Hi Hx. destruct (Hm s Hi Hx) as (s1 & a & E1 & Hi1 & Hs1).
  destruct (Hk a s1 Hi1) as (s2 & r & E2 & Hi2 & Hs2); [by destruct Hs1 as [-> _]|]. exists s2, r.
  unfold mbind, act_bind. rewrite E1, E2. split; [done|]. split; [done|]. by etrans.
Qed.

Lemma safe_for_each x {A} (l : list A) (f : A → act (State env) unit) :
  (∀ y, safe x (f y)) → safe x (for_each l f).
Proof. intros Hf. induction l; simpl; [apply safe_ret|by apply safe_bind]. Qed.

(** A call to the broker that a connected session may make. *)
Lemma safe_perform x o :
  (∀ b : Broker.Broker env, x ∈ Broker.sessions_ b → Broker.allowed b o) →
  (∀ y, o ≠ Broker.OpAccept y) → (∀ y, o ≠ Broker.OpRemove y) →
  safe x (on_broker (Broker.perform o)).
Proof.
  intros Ha Hna Hnr s [Hi Hs] Hx. rewrite Hx in Hs. specialize (Ha _ Hs).
  destruct (Broker.perform_inv _ o Hi Ha) as [Hr Hi'].
  pose proof (Broker.perform_sessions _ o Hi Ha Hna Hnr) as Hsess.
  unfold on_broker, on_part. destruct (Broker.perform o (broker s)) as [b' r]. cbn [fst snd] in *. subst r.
  eexists _, tt. split; [done|]. split; [|done]. split; [done|]. cbn. by rewrite Hsess, Hx.
Qed.

Lemma safe_publish x lat t p : safe x (on_broker (Broker.publish lat t p)).
Proof.
  intros s [Hi Hs] _. destruct (Broker.publish_inv lat t p (broker s) Hi) as (q & E & Hi' & _).
  unfold on_broker, on_part. rewrite E. eexists _, _. split; [done|]. by split.
Qed.

Lemma safe_subscribe x t : safe x (on_broker (Broker.subscribe x t)).
Proof. by apply (safe_perform x (Broker.OpSubscribe x t)). Qed.
Lemma safe_unsubscribe x t : safe x (on_broker (Broker.unsubscribe x t)).
Proof. by apply (safe_perform x (Broker.OpUnsubscribe x t)). Qed.
Lemma safe_registerClient x c : safe x (on_broker (Broker.registerClient c x)).
Proof. by apply (safe_perform x (Broker.OpRegister c x)). Qed.
Lemma safe_replayForClient x t c : safe x (on_broker (Broker.replayMessagesForClient x t c)).
Proof. by apply (safe_perform x (Broker.OpReplay x t c)). Qed.
Lemma safe_handleAck x c n : 0 ≤ n < 2 ^ 64 → safe x (on_broker (Broker.handleAck c n)).
Proof. intros Hn. by apply (safe_perform x (Broker.OpAck c n)). Qed.

Lemma safe_update_me x (f : Session → Session) :
  (∀ m, self (f m) = self m ∧ recv_buffer_ (f m) = recv_buffer_ m ∧ protocol_type_ (f m) = protocol_type_ m ∧
    last_activity_ (f m) = last_activity_ m) →
  safe x (update_me f).
Proof.
  intros Hf s [Hi Hs] _. eexists _, tt. split; [done|].
  destruct (Hf (me s)) as (H1' & H2' & H3' & H4'). split; [|done]. split; [done|]. simpl. by rewrite H1'.
Qed.

Lemma safe_next_sequence x : safe x next_sequence.
Proof.
  apply safe_bind; [by apply safe_update_me|]. intros _ s Hi _. by exists s, (sequence_ (me s)).
Qed.

Lemma safe_send x data : safe x (send data).
Proof.
  intros s [Hi Hs] _. eexists _, tt. split; [done|]. split; [|done]. split; [|done].
  by apply Broker.outbox_inv.
Qed.

Lemma safe_verify x now kid m sig : safe x (verify_with_key now kid m sig).
Proof.
  intros s Hi _. unfold verify_with_key. destruct (Keystore.verify_with_key _ _ _ _ _) as [ks v].
  eexists _, v. split; [done|]. by split.
Qed.

Create HintDb safe.
#[local] Hint Resolve safe_ret safe_publish safe_subscribe safe_unsubscribe safe_registerClient
  safe_replayForClient safe_handleAck safe_next_sequence safe_send safe_verify : safe.
#[local] Hint Extern 1 (safe _ (update_me _)) => by apply safe_update_me : safe.
#[local] Hint Extern 1 (safe _ (sendBinary _)) => apply safe_send : safe.
#[local] Hint Extern 1 (safe _ (sendResp _)) => apply safe_send : safe.

(** One step of a handler: a read, [this], a sequence, a loop or a branch. *)
Ltac safe_step :=
  lazymatch goal with
  | |- safe _ (gets (λ s, self (me s)) ≫= _) => apply safe_this
  | |- safe _ (gets _ ≫= _) => apply safe_gets; intros ?
  | |- safe _ (_ ≫= _) => apply safe_bind; [|intros ?]
  | |- safe _ (for_each _ _) => apply safe_for_each; intros ?
  | |- safe _ (match ?y with _ => _ end) => destruct y
  | |- safe _ _ => solve [eauto with safe]
  end.

Lemma handleBinaryFrame_safe x clk f : 0 ≤ sequence f < 2 ^ 64 → safe x (handleBinaryFrame clk f).
Proof.
  intros Hf. unfold handleBinaryFrame, handleSubscribe, handlePublish, handleSignedPublish.
  repeat safe_step.
Qed.

Lemma handleCommand_safe x clk v : safe x (handleCommand clk v).
Proof.
  unfold handleCommand. repeat first [safe_step | apply safe_handleAck, u64_range].
Qed.

(** ** The loops *)

(** A parser consumes at least one byte of the buffer, and no more than it has. *)
Definition reads_some {V} (parse : bytes → outcome (option (V * nat))) (P : V → Prop) : Prop :=
  ∀ buffer, ∃ r, parse buffer = Ret r ∧
    match r with Some (v, n) => (1 ≤ n ≤ length buffer)%nat ∧ P v | None => True end.

Lemma binary_reads : reads_some BinaryProtocol.parse (λ f, frame_wf f = true).
Proof.
  intros buffer. rewrite parse_is_ref. eexists. split; [done|].
  unfold parse_ref. destruct (frame_complete buffer) eqn:H'; [|done].
  destruct (frame_complete_bounds _ H') as (? & ? & ? & ? & ? & Hs).
  split; [|by apply frame_wf_spec, frame_ref_wf]. rewrite Hs in *. destruct (is_signed_command _); lia.
Qed.

Lemma resp_reads : reads_some Resp.parse (λ _, True).
Proof.
  intros buffer. destruct (Resp.parse_reads buffer) as (r & Hr & Hk). exists r. split; [done|].
  destruct r as [[v n]|]; [|done]. specialize (Hk v n eq_refl). split; [lia|done].
Qed.

Lemma drain_safe {V} (parse : bytes → outcome (option (V * nat))) P handle fuel s x :
  reads_some parse P → (∀ i v, P v → safe x (handle i v)) →
  sess_inv s → self (me s) = x → (length (recv_buffer_ (me s)) ≤ fuel)%nat →
  ∃ s', drain parse handle fuel s = (s', Ret tt) ∧ sess_inv s' ∧ self (me s') = x ∧
    protocol_type_ (me s') = protocol_type_ (me s) ∧ last_activity_ (me s') = last_activity_ (me s) ∧
    (length (recv_buffer_ (me s')) ≤ length (recv_buffer_ (me s)))%nat.
Proof.
  intros Hp Hh. revert s. induction fuel as [|fuel IH]; intros s Hi Hx Hlen; cbn [drain];
    unfold mbind, act_bind, gets, liftO; destruct (recv_buffer_ (me s)) as [|c rest] eqn:Eb;
    try (exists s; rewrite Eb; done); [simpl in Hlen; lia|].
  destruct (Hp (c :: rest)) as (r & -> & Hr). destruct r as [[v n]|]; [|exists s; by rewrite Eb].
  destruct Hr as [Hn HP]. unfold update_me, modify.
  set (s1 := s <| me ::= λ m, m <| recv_buffer_ ::= drop n |> |>).
  destruct (Hh fuel v HP s1) as (s2 & [] & E2 & Hi2 & Hx2 & Hb2 & Hpr2 & Hla2); [done|done|]. rewrite E2.
  assert (Hl2 : length (recv_buffer_ (me s2)) = (length (c :: rest) - n)%nat).
  { rewrite Hb2. simpl. rewrite Eb. by rewrite length_drop. }
  destruct (IH s2) as (s3 & E3 & Hi3 & Hx3 & Hpr3 & Hla3 & Hl3); [done|by rewrite Hx2|rewrite Hl2; lia|].
  exists s3. rewrite E3. do 3 (split; [done|]). split; [by rewrite Hpr3, Hpr2|].
  split; [by rewrite Hla3, Hla2|lia].
Qed.

Definition bounded s : Prop := zlen (recv_buffer_ (me s)) ≤ MAX_RECV_BUFFER.

(** The state once the data is staged and the protocol known. *)
Definition staged (now : Z) (data : bytes) s : State env :=
  s <| me ::= λ m, m <| last_activity_ := now |> <| recv_buffer_ := recv_buffer_ m ++ data |>
                     <| protocol_type_ := if bool_decide (protocol_type_ m = UNKNOWN)
                          then detectProtocol (recv_buffer_ m ++ data) else protocol_type_ m |> |>.

Definition drain_stage (clk : nat → clock) s : State env * outcome unit :=
  let fuel := length (recv_buffer_ (me s)) in
  match protocol_type_ (me s) with
  | UNKNOWN => (s, Ret tt)
  | RESP => drain Resp.parse (λ i, handleCommand (clk i)) fuel s
  | BINARY => drain BinaryProtocol.parse (λ i, handleBinaryFrame (clk i)) fuel s
  end.

Lemma on_data_eq now clk data s :
  on_data now clk data s =
    if MAX_RECV_BUFFER <? zlen (recv_buffer_ (me s)) + zlen data
    then (_ ← sendBinary (frame_error (lit "Message too large — connection closed")); mret false)
           (s <| me ::= λ m, m <| last_activity_ := now |> |>)
    else (_ ← (drain_stage clk : act (State env) unit); mret true) (staged now data s).
Proof.
  destruct s as [[this p n c b l] br ks].
  change (on_data now clk data (mkState (mkSession this p n c b l) br ks)) with
    ((if MAX_RECV_BUFFER <? zlen b + zlen data
     then (_ ← sendBinary (frame_error (lit "Message too large — connection closed")); mret false)
     else (_ ← update_me (λ m, m <| recv_buffer_ ::= λ b, b ++ data |>);
       p ← gets (λ s, protocol_type_ (me s));
       _ ← (if bool_decide (p = UNKNOWN)
         then update_me (λ m, m <| protocol_type_ := detectProtocol (recv_buffer_ m) |>) else mret tt);
       p ← gets (λ s, protocol_type_ (me s));
       fuel ← gets (λ s, length (recv_buffer_ (me s)));
       _ ← match p with
           | UNKNOWN => mret tt
           | RESP => drain Resp.parse (λ i, handleCommand (clk i)) fuel
           | BINARY => drain BinaryProtocol.parse (λ i, handleBinaryFrame (clk i)) fuel
           end;
       mret true)) (mkState (mkSession this p n c b now) br ks)).
  cbn [me recv_buffer_]. destruct (MAX_RECV_BUFFER <? _); [done|].
  unfold drain_stage, staged, mbind, act_bind, update_me, modify, gets. cbn [me protocol_type_ recv_buffer_ set_field].
  case_bool_decide; cbn [me protocol_type_ recv_buffer_ set_field mret act_ret].
  - by destruct (detectProtocol (b ++ data)).
  - by destruct p.
Qed.

Lemma drain_stage_safe clk s :
  sess_inv s →
  ∃ s', drain_stage clk s = (s', Ret tt) ∧ sess_inv s' ∧ self (me s') = self (me s) ∧
    protocol_type_ (me s') = protocol_type_ (me s) ∧ last_activity_ (me s') = last_activity_ (me s) ∧
    (length (recv_buffer_ (me s')) ≤ length (recv_buffer_ (me s)))%nat.
Proof.
  intros Hi. unfold drain_stage. destruct (protocol_type_ (me s)) eqn:Ep; [by exists s| |].
  - destruct (drain_safe Resp.parse _ (λ i, handleCommand (clk i)) (length (recv_buffer_ (me s))) s (self (me s))
      resp_reads) as (s2 & E2 & Hi2 & Hx2 & Hp2 & Hl); auto using handleCommand_safe.
    exists s2. by rewrite Hp2.
  - destruct (drain_safe BinaryProtocol.parse _ (λ i, handleBinaryFrame (clk i)) (length (recv_buffer_ (me s))) s
      (self (me s)) binary_reads) as (s2 & E2 & Hi2 & Hx2 & Hp2 & Hl); auto.
    { intros i f Hf%frame_wf_spec. apply handleBinaryFrame_safe, Hf. }
    exists s2. by rewrite Hp2.
Qed.

Lemma on_data_safe now clk data s :
  sess_inv s → bounded s →
  ∃ s' go, on_data now clk data s = (s', Ret go) ∧ sess_inv s' ∧ self (me s') = self (me s) ∧ bounded s'.
Proof.
  intros Hi Hb. rewrite on_data_eq. destruct (MAX_RECV_BUFFER <? _) eqn:E; reflect_bools.
  - destruct (safe_send (self (me s)) (serialize (frame_error (lit "Message too large — connection closed")))
      (s <| me ::= λ m, m <| last_activity_ := now |> |>)) as (s1 & [] & E1 & Hi1 & Hx1 & Hb1 & _); [done|done|].
    unfold sendBinary, mbind, act_bind. rewrite E1. exists s1, false. do 3 (split; [done|]).
    unfold bounded. by rewrite Hb1.
  - destruct (drain_stage_safe clk (staged now data s)) as (s2 & E2 & Hi2 & Hx2 & _ & _ & Hb2); [exact Hi|].
    unfold mbind, act_bind. rewrite E2. exists s2, true. do 3 (split; [done|]).
    unfold bounded, staged in *. simpl in Hb2. rewrite length_app in Hb2. lia.
Qed.

Lemma run_loop_safe evs s :
  sess_inv s → bounded s →
  ∃ s' left, run_loop evs s = (s', Ret left) ∧ sess_inv s' ∧ self (me s') = self (me s) ∧ bounded s'.
Proof.
  revert s. induction evs as [|ev evs IH]; intros s Hi Hb; cbn [run_loop]; [by exists s, false|].
  destruct ev as [now| | |now clk data]; [|by exists s, true..|].
  - unfold mbind, act_bind, gets. destruct (_ <=? _); [by exists s, true|by apply IH].
  - destruct (on_data_safe now clk data s Hi Hb) as (s1 & go & E1 & Hi1 & Hx1 & Hb1).
    unfold mbind, act_bind. rewrite E1. destruct go; [|by exists s1, true].
    destruct (IH s1 Hi1 Hb1) as (s2 & l & E2 & ? & Hx2 & ?). exists s2, l. by rewrite E2, Hx2.
Qed.

Lemma cleanup_safe s :
  sess_inv s →
  ∃ s', cleanup s = (s', Ret tt) ∧ Broker.broker_inv (broker s') ∧ me s' = me s ∧
    (self (me s) ∉ Broker.sessions_ (broker s')) ∧
    (∀ t, self (me s) ∉ Broker.subscribers (broker s') t).
Proof.
  intros [Hi Hs]. unfold cleanup.
  assert (Hun : ∃ b1, Broker.broker_inv b1 ∧ self (me s) ∈ Broker.sessions_ b1 ∧
    (if bool_decide (client_id_ (me s) = []) then mret tt
     else on_broker (Broker.unregisterClient (client_id_ (me s)))) s = (s <| broker := b1 |>, Ret tt)).
  { case_bool_decide; [exists (broker s); by destruct s|].
    destruct (Broker.perform_inv _ (Broker.OpUnregister (client_id_ (me s))) Hi I) as [_ Hi'].
    eexists. split; [exact Hi'|]. split; [exact Hs|done]. }
  destruct Hun as (b1 & Hi1 & Hs1 & E1).
  destruct (Broker.removeSession_inv b1 (self (me s)) Hi1 Hs1) as (E2 & Hi2 & _ & Hn & Hsub).
  unfold mbind, act_bind, gets. rewrite E1. unfold on_broker, on_part. cbn [me broker set_field].
  rewrite E2. eexists. split; [done|]. split; [exact Hi2|]. split; [done|]. split; [exact Hn|].
  intros t. cbn [broker]. rewrite Hsub. set_solver.
Qed.

(** ** Counted publishes *)

Definition counts s : gmap bytes Z := Broker.topic_counts (broker s).

Lemma on_broker_counts t {A} (m : act (Broker.Broker env) A) :
  preserves (λ b, Broker.topic_counts b !! t) m → preserves (λ s, counts s !! t) (on_broker m).
Proof. by apply preserves_on_part. Qed.

Lemma send_counts t data : preserves (λ s, counts s !! t) (send data).
Proof. by intros s. Qed.

Lemma counts_weaken t {A} (m : act (Broker.Broker env) A) :
  preserves Broker.topic_counts m → preserves (λ b, Broker.topic_counts b !! t) m.
Proof. intros Hm b. by rewrite Hm. Qed.

Lemma verify_counts t now kid m sig : preserves (λ s, counts s !! t) (verify_with_key now kid m sig).
Proof. intros s. unfold verify_with_key. by destruct (Keystore.verify_with_key _ _ _ _ _). Qed.

Ltac counts_step :=
  first [ preserve_step
        | apply send_counts | apply verify_counts
        | apply on_broker_counts, counts_weaken;
          first [apply Broker.subscribe_counts | apply Broker.unsubscribe_counts
                | apply Broker.registerClient_counts | apply Broker.handleAck_counts
                | apply Broker.replayMessagesForClient_counts] ].

(** What [handleSignedPublish] requires of the key store. *)
Definition authorized (ks : Keystore.TrustedKeyStore) (f : BinaryFrame) : Prop :=
  ∃ k, Keystore.get_key_info ks (key_id f) = Some k ∧ Keystore.enabled k = true ∧
    Signing.verify (topic f ++ payload f) (signature f) (Keystore.public_key k) = true ∧
    (Keystore.allowed_topics k = [] ∨ topic_ok (Keystore.allowed_topics k) (topic f) = true).

Lemma verify_with_key_key now ks kid m sig :
  let '(ks', ok) := Keystore.verify_with_key now ks kid m sig in
  (ok = true → ∃ k, Keystore.get_key_info ks kid = Some k ∧ Keystore.enabled k = true ∧
     Signing.verify m sig (Keystore.public_key k) = true ∧
     Keystore.get_key_info ks' kid = Some (Keystore.set_last_used now k)) ∧
  (ok = false → ks' = ks ∧ ¬ ∃ k, Keystore.get_key_info ks kid = Some k ∧ Keystore.enabled k = true ∧
     Signing.verify m sig (Keystore.public_key k) = true).
Proof.
  unfold Keystore.verify_with_key, Keystore.get_key_info.
  destruct (Keystore.keys_ ks !! kid) as [k|] eqn:E.
  2:{ split; [done|]. intros _. split; [done|]. by intros (k & ? & _). }
  destruct (Keystore.enabled k) eqn:He; simpl.
  2:{ split; [done|]. intros _. split; [done|]. intros (k' & [= <-] & ? & _). congruence. }
  destruct (Signing.verify m sig (Keystore.public_key k)) eqn:Ev.
  2:{ split; [done|]. intros _. split; [done|]. intros (k' & [= <-] & _ & ?). congruence. }
  split; [|done]. intros _. exists k. unfold Keystore.touch. rewrite E. simpl. by rewrite lookup_insert_eq.
Qed.

(** The scope test of the handler, on the key it reads after verification. *)
Definition scope_ok (key_info : option Keystore.TrustedKey) (t : bytes) : bool :=
  match key_info with
  | Some k => if bool_decide (Keystore.allowed_topics k = []) then true
              else topic_ok (Keystore.allowed_topics k) t
  | None => true
  end.

Lemma scope_ok_spec now k t :
  scope_ok (Some (Keystore.set_last_used now k)) t = true ↔
    Keystore.allowed_topics k = [] ∨ topic_ok (Keystore.allowed_topics k) t = true.
Proof. simpl. case_bool_decide; naive_solver. Qed.

(** The accepted end of [handleSignedPublish]. *)
Definition publish_signed (clk : clock) (f : BinaryFrame) : act (State env) unit :=
  seq ← next_sequence;
  _ ← on_broker (Broker.publish (latency clk) (topic f) (serialize
    (frame_signed_message (topic f) (payload f) (signature f) (key_id f) seq)));
  sendBinary (frame_ack (sequence f)).

Lemma handleSignedPublish_eq clk f s :
  handleSignedPublish clk f s =
    let '(ks, ok) := Keystore.verify_with_key (wall clk) (keystore s) (key_id f)
                       (topic f ++ payload f) (signature f) in
    (if negb ok then sendBinary (frame_error (lit "Invalid signature or unknown key"))
     else if negb (scope_ok (Keystore.get_key_info ks (key_id f)) (topic f))
     then sendBinary (frame_error (lit "Key not authorized for topic '" ++ topic f ++ lit "'"))
     else publish_signed clk f) (s <| keystore := ks |>).
Proof.
  unfold handleSignedPublish, verify_with_key, mbind at 1, act_bind at 1.
  by destruct (Keystore.verify_with_key _ _ _ _ _) as [ks []].
Qed.

(** It publishes exactly the authorized frames. *)
Lemma handleSignedPublish_cases clk f s :
  (authorized (keystore s) f ∧
   ∃ ks, handleSignedPublish clk f s = publish_signed clk f (s <| keystore := ks |>)) ∨
  (¬ authorized (keystore s) f ∧ ∃ ks msg, handleSignedPublish clk f s =
     sendBinary (frame_error msg) (s <| keystore := ks |>)).
Proof.
  rewrite handleSignedPublish_eq.
  pose proof (verify_with_key_key (wall clk) (keystore s) (key_id f) (topic f ++ payload f) (signature f)) as Hv.
  destruct (Keystore.verify_with_key _ _ _ _ _) as [ks ok]. destruct Hv as [Ht Hf]. destruct ok; cbn [negb].
  2:{ right. split; [|by eexists _, _]. destruct (Hf eq_refl) as [_ Hno]. intros (k & ? & ? & ? & _). eauto. }
  destruct (Ht eq_refl) as (k & Hk & He & Hver & Hk'). clear Ht Hf.
  rewrite Hk'. destruct (scope_ok _ _) eqn:Es; cbn [negb].
  - left. apply scope_ok_spec in Es. split; [by exists k|]. by eexists.
  - right. split; [|by eexists _, _]. intros (k' & Hk2 & _ & _ & Hs). simplify_eq.
    apply (scope_ok_spec (wall clk)) in Hs. congruence.
Qed.

(** ** Publishing and acknowledging *)

Definition publish_ack (clk : clock) (t : bytes) (data : Z → bytes) (n : Z) : act (State env) unit :=
  seq ← next_sequence;
  _ ← on_broker (Broker.publish (latency clk) t (data seq));
  sendBinary (frame_ack n).

(** Identify the call a hypothesis speaks of with the one of the goal. *)
Ltac same_run H :=
  match goal with
  | |- let '(_, _) := ?X in _ =>
      match type of H with
      | let '(_, _) := ?Y in _ => assert (X = Y) as -> by reflexivity; destruct Y as [? ?]
      end
  end.

(** What each session is sent by it. *)
Definition deliveries s (t d : bytes) (n : Z) (x : Broker.sid) : list bytes :=
  (if bool_decide (x ∈ Broker.subscribers (broker s) t) then [d] else []) ++
  (if bool_decide (x ∈ Broker.subscribers (broker s) (lit "#")) then [d] else []) ++
  (if bool_decide (x = self (me s)) then [serialize (frame_ack n)] else []).

Lemma publish_ack_eq clk t data n s :
  sess_inv s →
  publish_ack clk t data n s =
    (mkState (me s <| sequence_ := u64 (sequence_ (me s) + 1) |>)
       (fst (Broker.publish (latency clk) t (data (u64 (sequence_ (me s) + 1))) (broker s))
          <| Broker.outbox ::= Broker.push (self (me s)) (serialize (frame_ack n)) |>)
       (keystore s), Ret tt).
Proof.
  intros [Hi _]. set (d := data (u64 (sequence_ (me s) + 1))).
  destruct (Broker.publish_inv (latency clk) t d (broker s) Hi) as (q & E & _).
  unfold publish_ack, next_sequence, mbind, act_bind, update_me, modify, gets, on_broker, on_part.
  cbn [me broker sequence_ set_field]. fold d. rewrite E. by destruct s.
Qed.

Lemma publish_ack_spec clk t data n s :
  sess_inv s →
  let '(s', r) := publish_ack clk t data n s in
  r = Ret tt ∧
  (∀ x, Broker.sent (Broker.outbox (broker s')) x = Broker.sent (Broker.outbox (broker s)) x ++
     deliveries s t (data (u64 (sequence_ (me s) + 1))) n x) ∧
  Broker.getLastSequence (broker s') = u64 (Broker.getLastSequence (broker s) + 1).
Proof.
  intros Hs. rewrite publish_ack_eq by done. destruct Hs as [Hi _]. set (d := data (u64 (sequence_ (me s) + 1))).
  destruct (Broker.publish_inv (latency clk) t d (broker s) Hi) as (q & E & _). rewrite E.
  split; [done|]. split; [|done]. intros x. cbn [fst broker Broker.outbox set_field].
  rewrite Broker.sent_push. unfold deliveries. case_bool_decide as Hx.
  - subst x. rewrite Broker.published_sent. unfold Broker.subscribed. by rewrite <-!app_assoc.
  - rewrite Broker.published_sent. unfold Broker.subscribed. by rewrite app_nil_r.
Qed.

Lemma parse_serialize_frame f :
  frame_wf f = true → BinaryProtocol.parse (serialize f) = Ret (Some (f, length (serialize f))).
Proof.
  rewrite frame_wf_spec, parse_is_ref. intros Hf. rewrite <-(app_nil_r (serialize f)) at 1.
  by rewrite parse_ref_serialize.
Qed.

(** ** Chunks

    Handlers do not look at the staging buffer, so draining a prefix first and
    the rest later is draining all at once. *)

Definition with_buffer (b : bytes) s : State env := s <| me ::= λ m, m <| recv_buffer_ := b |> |>.

Lemma handleBinaryFrame_blind b clk f : commutes (with_buffer b) (handleBinaryFrame clk f).
Proof.
  unfold handleBinaryFrame, handleSubscribe, handlePublish, handleSignedPublish, next_sequence,
    update_me, sendBinary, send, on_broker.
  destruct (command f); repeat commute_step.
  intros s. unfold verify_with_key. simpl. by destruct (Keystore.verify_with_key _ _ _ _ _).
Qed.

Lemma handleCommand_blind b clk v : commutes (with_buffer b) (handleCommand clk v).
Proof. unfold handleCommand, sendResp, send, on_broker. repeat commute_step. Qed.

Lemma with_buffer_self s : with_buffer (recv_buffer_ (me s)) s = s.
Proof. by destruct s as [[] ? ?]. Qed.

(** A parser that is not misled by bytes that arrive later. *)
Definition stable {V} (parse : bytes → outcome (option (V * nat))) : Prop :=
  ∀ b r x, parse b = Ret (Some x) → parse (b ++ r) = Ret (Some x).

Lemma binary_stable : stable BinaryProtocol.parse.
Proof.
  intros b r [f n]. rewrite !parse_is_ref. intros [= Hp]. by rewrite (parse_ref_app _ r _ _ Hp).
Qed.

Lemma drain_nil {V} (parse : bytes → outcome (option (V * nat))) handle fuel s :
  recv_buffer_ (me s) = [] → drain parse handle fuel s = (s, Ret tt).
Proof. intros Hb. destruct fuel; cbn [drain]; unfold mbind, act_bind, gets; by rewrite Hb. Qed.

Lemma drain_none {V} (parse : bytes → outcome (option (V * nat))) handle fuel s :
  recv_buffer_ (me s) ≠ [] → parse (recv_buffer_ (me s)) = Ret None →
  drain parse handle (S fuel) s = (s, Ret tt).
Proof.
  intros Hb Hp. cbn [drain]. unfold mbind, act_bind, gets, liftO.
  destruct (recv_buffer_ (me s)); [done|by rewrite Hp].
Qed.

Lemma drain_next {V} (parse : bytes → outcome (option (V * nat))) handle fuel s v n s2 :
  recv_buffer_ (me s) ≠ [] → parse (recv_buffer_ (me s)) = Ret (Some (v, n)) →
  handle fuel v (with_buffer (drop n (recv_buffer_ (me s))) s) = (s2, Ret tt) →
  drain parse handle (S fuel) s = drain parse handle fuel s2.
Proof.
  intros Hb Hp Hh. cbn [drain]. unfold mbind, act_bind, gets, liftO, update_me, modify.
  destruct (recv_buffer_ (me s)) as [|c b] eqn:E; [done|]. rewrite Hp.
  replace (s <| me ::= _ |>) with (with_buffer (drop n (c :: b)) s); [by rewrite Hh|].
  unfold with_buffer. simpl. by rewrite E.
Qed.

Section drain_props.
Context {V : Type} (parse : bytes → outcome (option (V * nat))) (P : V → Prop)
  (handle : V → act (State env) unit) (x : Broker.sid).
Hypothesis Hr : reads_some parse P.
Hypothesis Hst : stable parse.
Hypothesis Hh : ∀ v, P v → safe x (handle v).
Hypothesis Hblind : ∀ b v, commutes (with_buffer b) (handle v).

Abbreviation drained := (drain parse (λ _, handle)).

(** A round: the buffer is empty, incomplete, or starts with a value that the
    handler takes. *)
Lemma drain_round s :
  sess_inv s → self (me s) = x →
  recv_buffer_ (me s) = [] ∨
  (recv_buffer_ (me s) ≠ [] ∧ parse (recv_buffer_ (me s)) = Ret None) ∨
  ∃ v n s2, recv_buffer_ (me s) ≠ [] ∧ parse (recv_buffer_ (me s)) = Ret (Some (v, n)) ∧
    (1 ≤ n ≤ length (recv_buffer_ (me s)))%nat ∧
    handle v (with_buffer (drop n (recv_buffer_ (me s))) s) = (s2, Ret tt) ∧
    sess_inv s2 ∧ self (me s2) = x ∧ recv_buffer_ (me s2) = drop n (recv_buffer_ (me s)).
Proof.
  intros Hi Hx. destruct (decide (recv_buffer_ (me s) = [])) as [|Hne]; [by left|right].
  destruct (Hr (recv_buffer_ (me s))) as (r & Hp & Hb). destruct r as [[v n]|]; [right|by left].
  destruct Hb as [Hn HP].
  destruct (Hh v HP (with_buffer (drop n (recv_buffer_ (me s))) s)) as (s2 & [] & E & Hi2 & Hx2 & Hb2 & _);
    [exact Hi|exact Hx|].
  exists v, n, s2. do 5 (split; [done|]). split; [by rewrite Hx2|]. by rewrite Hb2.
Qed.

Lemma drain_fuel f1 f2 s :
  sess_inv s → self (me s) = x →
  (length (recv_buffer_ (me s)) ≤ f1)%nat → (length (recv_buffer_ (me s)) ≤ f2)%nat →
  drained f1 s = drained f2 s.
Proof.
  revert f2 s. induction f1 as [|f1 IH]; intros f2 s Hi Hx H1' H2'.
  { rewrite !drain_nil; [done| |]; by destruct (recv_buffer_ (me s)); simpl in *; try lia. }
  destruct (drain_round s Hi Hx) as [Hb|[[Hb Hp]|(v & n & s2 & Hb & Hp & Hn & E & Hi2 & Hx2 & Hb2)]].
  { by rewrite !drain_nil. }
  all: destruct f2 as [|f2]; [by destruct (recv_buffer_ (me s)); simpl in *; try lia|].
  - by rewrite !drain_none.
  - rewrite (drain_next parse (λ _, handle) f1 s v n s2 Hb Hp E).
    rewrite (drain_next parse (λ _, handle) f2 s v n s2 Hb Hp E).
    apply IH; try done; rewrite Hb2, length_drop; lia.
Qed.

Lemma drain_app fuel fuel2 fuel3 s s1 d :
  sess_inv s → self (me s) = x → (length (recv_buffer_ (me s)) ≤ fuel)%nat →
  drained fuel s = (s1, Ret tt) →
  (length (recv_buffer_ (me s1) ++ d) ≤ fuel2)%nat → (length (recv_buffer_ (me s) ++ d) ≤ fuel3)%nat →
  drained fuel2 (with_buffer (recv_buffer_ (me s1) ++ d) s1) =
  drained fuel3 (with_buffer (recv_buffer_ (me s) ++ d) s).
Proof.
  revert fuel2 fuel3 s. induction fuel as [|fuel IH]; intros fuel2 fuel3 s Hi Hx Hlen Hd Hf2 Hf3.
  { rewrite drain_nil in Hd by (by destruct (recv_buffer_ (me s)); simpl in *; try lia).
    injection Hd as <-. by apply drain_fuel. }
  destruct (drain_round s Hi Hx) as [Hb|[[Hb Hp]|(v & n & s2 & Hb & Hp & Hn & E & Hi2 & Hx2 & Hb2)]].
  { rewrite drain_nil in Hd by done. injection Hd as <-. by apply drain_fuel. }
  { rewrite drain_none in Hd by done. injection Hd as <-. by apply drain_fuel. }
  rewrite (drain_next parse (λ _, handle) fuel s v n s2 Hb Hp E) in Hd.
  destruct fuel3 as [|fuel3]; [rewrite length_app in Hf3; lia|].
  rewrite (drain_next parse (λ _, handle) fuel3 _ v n (with_buffer (recv_buffer_ (me s2) ++ d) s2)).
  - rewrite length_app in *. apply IH; try done; rewrite ?length_app, Hb2, ?length_drop; lia.
  - cbn. by destruct (recv_buffer_ (me s)).
  - cbn. by apply Hst.
  - pose proof (Hblind (recv_buffer_ (me s2) ++ d) v (with_buffer (drop n (recv_buffer_ (me s))) s)) as Hc.
    rewrite E in Hc. cbn [fst snd] in Hc. etrans; [|exact Hc]. f_equal.
    rewrite Hb2, <-drop_app_le by lia. reflexivity.
Qed.
End drain_props.

Lemma detectProtocol_app b r : detectProtocol b ≠ UNKNOWN → detectProtocol (b ++ r) = detectProtocol b.
Proof. by destruct b. Qed.

(** Draining after each of two pieces, and after both. *)
Lemma drain_stage_app now clk d1 d2 s s1 :
  sess_inv s → drain_stage (λ _, clk) (staged now d1 s) = (s1, Ret tt) →
  protocol_type_ (me s1) = protocol_type_ (me (staged now d1 s)) →
  last_activity_ (me s1) = last_activity_ (me (staged now d1 s)) →
  drain_stage (λ _, clk) (staged now d2 s1) = drain_stage (λ _, clk) (staged now (d1 ++ d2) s).
Proof.
  intros Hi E Hp Ha. set (s0 := staged now d1 s) in *. assert (Hi0 : sess_inv s0) by exact Hi.
  destruct (decide (protocol_type_ (me s0) = UNKNOWN)) as [Hu|Hk].
  { unfold drain_stage in E. rewrite Hu in E. injection E as <-.
    f_equal. unfold staged, s0. destruct s as [[this p n c b l] br ks]. simpl in Hu |- *.
    case_bool_decide as Hpu; [|done]. rewrite Hu. simpl. by rewrite <-app_assoc. }
  assert (Hs1 : staged now d2 s1 = with_buffer (recv_buffer_ (me s1) ++ d2) s1).
  { destruct s1 as [[this p n c b l] br ks]. unfold staged, with_buffer. simpl in *.
    rewrite bool_decide_false by (by rewrite Hp). by rewrite Ha. }
  assert (Hs2 : staged now (d1 ++ d2) s = with_buffer (recv_buffer_ (me s0) ++ d2) s0).
  { unfold s0, staged, with_buffer in *. destruct s as [[this p n c b l] br ks]. simpl in *.
    rewrite <-app_assoc. do 2 f_equal. destruct (bool_decide (p = UNKNOWN)); [|done]. rewrite app_assoc. by apply detectProtocol_app. }
  rewrite Hs1, Hs2. unfold drain_stage in *.
  change (protocol_type_ (me (with_buffer (recv_buffer_ (me s1) ++ d2) s1))) with (protocol_type_ (me s1)).
  change (protocol_type_ (me (with_buffer (recv_buffer_ (me s0) ++ d2) s0))) with (protocol_type_ (me s0)).
  rewrite Hp. destruct (protocol_type_ (me s0)); [done|..].
  - eapply (drain_app Resp.parse (λ _, True) (handleCommand clk) (self (me s0)));
      [exact resp_reads|exact Resp.parse_app|auto using handleCommand_safe|auto using handleCommand_blind|
       done|done| |exact E|done|done]. done.
  - eapply (drain_app BinaryProtocol.parse _ (handleBinaryFrame clk) (self (me s0)));
      [exact binary_reads|exact binary_stable| |auto using handleBinaryFrame_blind|
       done|done| |exact E|done|done]; [|done].
    intros f Hf%frame_wf_spec. apply handleBinaryFrame_safe, Hf.
Qed.

(** ** What a publish delivers *)

(** An unsigned binary publish to an ordinary topic: every subscriber of the
    topic, and every subscriber of ["#"], is sent one frame, which parses to
    the MESSAGE with the same topic and payload; the publisher is sent the ACK
    of its own frame; the broker's counter moves by one. The number in the
    MESSAGE is the publishing session's own count, not the broker's. *)
Lemma binary_publish_delivered clk f s :
  sess_inv s → frame_wf f = true → command f = CMD_PUBLISH →
  starts_with (topic f) (lit "secure/") = false →
  let m := frame_message (topic f) (payload f) (u64 (sequence_ (me s) + 1)) in
  let '(s', r) := handleBinaryFrame clk f s in
  r = Ret tt ∧
  BinaryProtocol.parse (serialize m) = Ret (Some (m, length (serialize m))) ∧
  (∀ x, Broker.sent (Broker.outbox (broker s')) x = Broker.sent (Broker.outbox (broker s)) x ++
     deliveries s (topic f) (serialize m) (sequence f) x) ∧
  Broker.getLastSequence (broker s') = u64 (Broker.getLastSequence (broker s) + 1).
Proof.
  intros Hi Hf Hc Hs m.
  pose proof (publish_ack_spec clk (topic f)
    (λ seq, serialize (frame_message (topic f) (payload f) seq)) (sequence f) s Hi) as Hspec.
  unfold handleBinaryFrame, handlePublish. rewrite Hc, Hs.
  change (_ ≫= _) with (publish_ack clk (topic f)
    (λ seq, serialize (frame_message (topic f) (payload f) seq)) (sequence f)).
  destruct (publish_ack _ _ _ _ s) as [s' r]. destruct Hspec as (-> & Hsent & Hseq).
  split; [done|]. split; [|by split].
  apply parse_serialize_frame. apply frame_wf_spec in Hf. apply frame_wf_spec.
  destruct Hf. pose proof (u64_range (sequence_ (me s) + 1)). by split.
Qed.

(** A signed publish made with a registered key is accepted: when the key under
    the frame's identifier is enabled, holds the public half of the signer's
    pair and has the topic in its scope, the frame is relayed to the
    subscribers as a SIGNED_MESSAGE that parses back with the same topic,
    payload, signature and key, and the publisher is acknowledged. *)
Lemma signed_publish_accepted `{!SodiumLaws} clk s seed k kid t p n :
  sess_inv s → 0 ≤ kid < 2 ^ 32 → 0 ≤ n < 2 ^ 64 → zlen t ≤ MAX_TOPIC_LEN → zlen p ≤ MAX_PAYLOAD_LEN →
  Keystore.get_key_info (keystore s) kid = Some k → Keystore.enabled k = true →
  Keystore.public_key k = Signing.kp_public_key (Signing.generate_keypair_from_seed seed) →
  Keystore.allowed_topics k = [] ∨ topic_ok (Keystore.allowed_topics k) t = true →
  let sig := Signing.sign (t ++ p) (Signing.kp_secret_key (Signing.generate_keypair_from_seed seed)) in
  let m := frame_signed_message t p sig kid (u64 (sequence_ (me s) + 1)) in
  let '(s', r) := handleBinaryFrame clk (frame_signed_publish t p sig kid n) s in
  r = Ret tt ∧
  BinaryProtocol.parse (serialize m) = Ret (Some (m, length (serialize m))) ∧
  (∀ x, Broker.sent (Broker.outbox (broker s')) x = Broker.sent (Broker.outbox (broker s)) x ++
     deliveries s t (serialize m) n x).
Proof.
  intros Hi Hkid Hn Ht Hp Hk He Hpk Hscope sig m. set (f := frame_signed_publish t p sig kid n).
  assert (Ha : authorized (keystore s) f).
  { exists k. do 2 (split; [done|]). split; [|done]. rewrite Hpk. apply Signing.own_signature_verifies. }
  change (handleBinaryFrame clk f s) with (handleSignedPublish clk f s).
  destruct (handleSignedPublish_cases clk f s) as [[_ (ks & E)]|[Hna _]]; [|done]. rewrite E.
  assert (Hi' : sess_inv (s <| keystore := ks |>)) by exact Hi.
  pose proof (publish_ack_spec clk t (λ seq, serialize (frame_signed_message t p sig kid seq)) n _ Hi') as Hspec.
  same_run Hspec. destruct Hspec as (-> & Hsent & _).
  split; [done|]. split; [|exact Hsent]. apply parse_serialize_frame, frame_wf_spec.
  pose proof (u64_range (sequence_ (me s) + 1)).
  assert (length sig = 64%nat) by apply signature_size. by split.
Qed.

(** ** One frame, from the socket to the handler *)

Lemma on_data_frame now clk f s :
  sess_inv s → recv_buffer_ (me s) = [] → protocol_type_ (me s) ≠ RESP →
  frame_wf f = true → zlen (serialize f) ≤ MAX_RECV_BUFFER →
  on_data now (λ _, clk) (serialize f) s =
    (fst (handleBinaryFrame clk f (with_buffer [] (staged now (serialize f) s))), Ret true).
Proof.
  intros Hi Hb Hp Hf Hlen. set (s1 := staged now (serialize f) s).
  assert (Hb1 : recv_buffer_ (me s1) = serialize f) by (simpl; by rewrite Hb).
  assert (Hp1 : protocol_type_ (me s1) = BINARY).
  { simpl. rewrite Hb. case_bool_decide; [|by destruct (protocol_type_ (me s))].
    apply frame_wf_spec in Hf. apply wf_version in Hf. rewrite app_nil_l, serialize_layout. unfold header.
    by rewrite Hf. }
  pose proof (parse_serialize_frame f Hf) as Hparse. rewrite <-Hb1 in Hparse at 1.
  assert (Hne : recv_buffer_ (me s1) ≠ []).
  { rewrite Hb1. intros E. rewrite E in *. destruct (binary_reads []) as (r & Hr & Hk).
    rewrite Hb1, Hr in Hparse. injection Hparse as ->. simpl in Hk. lia. }
  rewrite on_data_eq, (proj2 (Z.ltb_ge _ _)) by (rewrite Hb; simpl in *; lia). fold s1.
  unfold mbind, act_bind, drain_stage. rewrite Hp1, Hb1.
  destruct (length (serialize f)) as [|n] eqn:El; [by destruct (serialize f); [rewrite Hb1 in Hne|]|].
  assert (Hs : safe (self (me s)) (handleBinaryFrame clk f)).
  { apply handleBinaryFrame_safe. apply frame_wf_spec in Hf. apply Hf. }
  destruct (Hs (with_buffer [] s1)) as (s2 & [] & E & _ & _ & Hb2 & _); [exact Hi|done|].
  rewrite E. cbn [fst].
  rewrite (drain_next BinaryProtocol.parse (λ _, handleBinaryFrame clk) n s1 f (S n) s2 Hne Hparse).
  - by rewrite drain_nil.
  - rewrite Hb1, <-El, drop_ge by lia. exact E.
Qed.

(** The same for one RESP value. *)
Lemma on_data_value now clk v s :
  sess_inv s → recv_buffer_ (me s) = [] → protocol_type_ (me s) ≠ BINARY →
  Resp.resp_wf v = true → zlen (Resp.serialize v) ≤ MAX_RECV_BUFFER →
  on_data now (λ _, clk) (Resp.serialize v) s =
    (fst (handleCommand clk v (with_buffer [] (staged now (Resp.serialize v) s))), Ret true).
Proof.
  intros Hi Hb Hp Hv Hlen. set (s1 := staged now (Resp.serialize v) s).
  assert (Hb1 : recv_buffer_ (me s1) = Resp.serialize v) by (simpl; by rewrite Hb).
  assert (Hp1 : protocol_type_ (me s1) = RESP).
  { simpl. rewrite Hb. case_bool_decide; [|by destruct (protocol_type_ (me s))].
    by destruct v as [[] []]. }
  pose proof (Resp.parse_serialize_value v [] Hv) as Hparse. rewrite app_nil_r, <-Hb1 in Hparse at 1.
  assert (Hne : recv_buffer_ (me s1) ≠ []).
  { rewrite Hb1. by destruct v as [[] []]. }
  rewrite on_data_eq, (proj2 (Z.ltb_ge _ _)) by (rewrite Hb; simpl in *; lia). fold s1.
  unfold mbind, act_bind, drain_stage. rewrite Hp1, Hb1.
  destruct (length (Resp.serialize v)) as [|n] eqn:El; [by destruct (Resp.serialize v); [rewrite Hb1 in Hne|]|].
  destruct (handleCommand_safe (self (me s)) clk v (with_buffer [] s1)) as (s2 & [] & E & _ & _ & Hb2 & _);
    [exact Hi|done|]. rewrite E. cbn [fst].
  rewrite (drain_next Resp.parse (λ _, handleCommand clk) n s1 v (S n) s2 Hne Hparse).
  - by rewrite drain_nil.
  - rewrite Hb1, <-El, drop_ge by lia. exact E.
Qed.

(** ** Theorems *)

(** C2: A session's thread is safe on every input: whatever bytes arrive in
    whatever pieces, with timeouts and errors, it never hangs in a loop and no
    exception escapes; the broker's invariant is kept and the staging buffer
    never exceeds 16 MB. If the thread ends, the session has left the session
    list and every subscription, so no dangling pointer to it remains. *)
Theorem session_run_safe evs s :
  sess_inv s → bounded s →
  ∃ s' ended, run evs s = (s', Ret ended) ∧ Broker.broker_inv (broker s') ∧ bounded s' ∧
    (if ended : bool
     then (self (me s) ∉ Broker.sessions_ (broker s')) ∧
          ∀ t, self (me s) ∉ Broker.subscribers (broker s') t
     else sess_inv s').
Proof.
  intros Hi Hb. destruct (run_loop_safe evs s Hi Hb) as (s1 & l & E & Hi1 & Hx & Hb1).
  unfold run. rewrite E. destruct l; [|exists s1, false; by destruct Hi1].
  destruct (cleanup_safe s1 Hi1) as (s2 & E2 & Hi2 & Hm & Hn & Hsub).
  unfold mbind, act_bind. rewrite E2. exists s2, true. rewrite <-Hx. split; [done|].
  split; [done|]. unfold bounded. by rewrite Hm.
Qed.

(** C5: Secure topics are protected on the binary protocol: whatever frame is
    handled, a publish is counted on a topic under ["secure/"] only for a
    signed publish to that topic whose signature over topic and payload
    verifies under a registered, enabled key with that topic in its scope. This
    is one run of the handler with nobody else at the key store
    ([System.scope_check_races] is about the other case). *)
Theorem secure_topic_protected clk f s t :
  starts_with t (lit "secure/") = true →
  counts (fst (handleBinaryFrame clk f s)) !! t ≠ counts s !! t →
  command f = CMD_SIGNED_PUBLISH ∧ topic f = t ∧ authorized (keystore s) f.
Proof.
  intros Hsec Hne.
  destruct (decide (command f = CMD_SIGNED_PUBLISH)) as [Hc|Hc].
  - split; [done|]. unfold handleBinaryFrame in Hne. rewrite Hc in Hne.
    destruct (handleSignedPublish_cases clk f s) as [[Ha (ks & E)]|[_ (ks & msg & E)]]; rewrite E in Hne.
    + split; [|done]. destruct (decide (t = topic f)) as [->|Hd]; [done|exfalso]. apply Hne.
      match goal with |- counts (fst (?m ?s0)) !! t = _ =>
        assert (Hp : preserves (λ s, counts s !! t) m); [|exact (Hp s0)] end.
      unfold publish_signed, next_sequence, update_me. repeat first [counts_step | apply on_broker_counts, Broker.publish_counts, Hd].
    + exfalso. apply Hne. exact (send_counts t _ (s <| keystore := ks |>)).
  - exfalso. apply Hne. assert (Hp : preserves (λ s, counts s !! t) (handleBinaryFrame clk f)); [|exact (Hp s)].
    unfold handleBinaryFrame, handleSubscribe, handlePublish, next_sequence, update_me.
    destruct (decide (command f = CMD_PUBLISH)) as [Ep|Ep].
    + rewrite Ep. destruct (starts_with (topic f) (lit "secure/")) eqn:Es; [apply send_counts|].
      assert (t ≠ topic f) by congruence.
      repeat first [counts_step | by apply on_broker_counts, Broker.publish_counts].
    + destruct (command f); try done; repeat counts_step.
Qed.

(** C18: How the stream is cut into packets does not matter: two pieces of data that
    fit the staging buffer of 16 MB together with what is in it, received one
    after the other, leave exactly the state that
    receiving them at once leaves: the same frames are handled, in the same
    order, with the same replies and the same rest in the buffer. *)
Theorem chunking_irrelevant now clk d1 d2 s :
  sess_inv s → zlen (recv_buffer_ (me s)) + zlen d1 + zlen d2 ≤ MAX_RECV_BUFFER →
  (go ← on_data now (λ _, clk) d1; if go : bool then on_data now (λ _, clk) d2 else mret false) s =
  on_data now (λ _, clk) (d1 ++ d2) s.
Proof.
  intros Hi Hlen. set (s0 := staged now d1 s). assert (Hi0 : sess_inv s0) by exact Hi.
  destruct (drain_stage_safe (λ _, clk) s0 Hi0) as (s1 & E1 & Hi1 & Hx1 & Hp1 & Ha1 & Hl1).
  simpl in Hl1. rewrite length_app in Hl1.
  unfold mbind at 1, act_bind at 1. rewrite !on_data_eq, length_app.
  do 2 rewrite (proj2 (Z.ltb_ge _ _)) by lia. fold s0.
  unfold mbind at 1, act_bind at 1. rewrite E1. cbn iota. cbn [mret act_ret]. rewrite on_data_eq.
  rewrite (proj2 (Z.ltb_ge _ _)) by lia. unfold mbind, act_bind.
  rewrite (drain_stage_app now clk d1 d2 s s1); [done|done|exact E1|done..].
Qed.

(** What a session is sent by a RESP publish. *)
Definition resp_deliveries s (t d : bytes) (x : Broker.sid) : list bytes :=
  (if bool_decide (x ∈ Broker.subscribers (broker s) t) then [d] else []) ++
  (if bool_decide (x ∈ Broker.subscribers (broker s) (lit "#")) then [d] else []) ++
  (if bool_decide (x = self (me s)) then [Resp.serialize (Resp.integer 1)] else []).

(** A RESP [PUBLISH topic payload] is relayed to the subscribers of any topic,
    one under ["secure/"] too, as the array ["message", topic, payload]; the
    publisher is sent the integer 1. *)
Lemma resp_publish_eq clk t p s :
  sess_inv s →
  let v := Resp.makeArray [lit "message"; t; p] in
  handleCommand clk (Resp.makeArray [lit "PUBLISH"; t; p]) s =
    (mkState (me s)
       (fst (Broker.publish (latency clk) t (Resp.serialize v) (broker s))
          <| Broker.outbox ::= Broker.push (self (me s)) (Resp.serialize (Resp.integer 1)) |>)
       (keystore s), Ret tt).
Proof.
  intros [Hi _] v.
  destruct (Broker.publish_inv (latency clk) t (Resp.serialize v) (broker s) Hi) as (q & E & _).
  change (handleCommand clk (Resp.makeArray [lit "PUBLISH"; t; p]) s) with
    ((_ ← on_broker (Broker.publish (latency clk) t (Resp.serialize v)); sendResp (Resp.integer 1)) s).
  unfold mbind, act_bind, on_broker, on_part. rewrite E. by destruct s.
Qed.

Lemma resp_publish_delivered clk t p s :
  sess_inv s →
  let v := Resp.makeArray [lit "message"; t; p] in
  let '(s', r) := handleCommand clk (Resp.makeArray [lit "PUBLISH"; t; p]) s in
  r = Ret tt ∧
  (∀ x, Broker.sent (Broker.outbox (broker s')) x = Broker.sent (Broker.outbox (broker s)) x ++
     resp_deliveries s t (Resp.serialize v) x) ∧
  Broker.getLastSequence (broker s') = u64 (Broker.getLastSequence (broker s) + 1).
Proof.
  intros Hs v. rewrite resp_publish_eq by done. fold v. destruct Hs as [Hi _].
  destruct (Broker.publish_inv (latency clk) t (Resp.serialize v) (broker s) Hi) as (q & E & _). rewrite E.
  split; [done|]. split; [|done]. intros x. cbn [fst broker Broker.outbox set_field].
  rewrite Broker.sent_push. unfold resp_deliveries. case_bool_decide as Hx.
  - subst x. rewrite Broker.published_sent. unfold Broker.subscribed. by rewrite <-!app_assoc.
  - rewrite Broker.published_sent. unfold Broker.subscribed. by rewrite app_nil_r.
Qed.

(** The client identifier of the session and the ACK state of the broker. *)
Definition ack_view s := (client_id_ (me s), Broker.ack_state (broker s)).

Lemma on_broker_ack_view {A} (m : act (Broker.Broker env) A) :
  preserves Broker.ack_state m → preserves ack_view (on_broker m).
Proof.
  intros Hm s. specialize (Hm (broker s)). unfold on_broker, on_part, ack_view.
  destruct (m (broker s)) as [b r]. simpl in *. by rewrite Hm.
Qed.

Ltac ack_step :=
  first [ preserve_step
        | apply on_broker_ack_view;
          first [apply Broker.subscribe_ack_state | apply Broker.unsubscribe_ack_state
                | apply Broker.publish_ack_state]
        | by intros ? ].

(** No RESP command gives a session a client identifier, and without one an
    ACK is confirmed but not recorded: the ACK state of the broker is unchanged
    by every RESP command of such a session. *)
Theorem resp_acks_ignored clk v s :
  client_id_ (me s) = [] →
  let s' := fst (handleCommand clk v s) in
  client_id_ (me s') = [] ∧
  Broker.client_acks_ (broker s') = Broker.client_acks_ (broker s) ∧
  Broker.last_ack_seq_ (broker s') = Broker.last_ack_seq_ (broker s).
Proof.
  intros Hc. enough (Hg : ack_view (fst (handleCommand clk v s)) = ack_view s).
  { unfold ack_view, Broker.ack_state in Hg. injection Hg as Hg1 Hg2 Hg3. simpl. by rewrite Hg1. }
  unfold handleCommand. destruct (negb _); [done|]. destruct (Resp.asArray v) as [|c0 args]; [done|].
  unfold mbind at 1, act_bind at 1, gets at 1.
  repeat match goal with |- context [if bool_decide (_ = lit ?n) then _ else _] =>
    lazymatch n with "ACK"%string => fail | _ => destruct (bool_decide (_ = lit n)) end end;
    try solve [match goal with |- ack_view (fst (?m ?s0)) = _ =>
           assert (Hp : preserves ack_view m); [|exact (Hp s0)] end; repeat ack_step].
  destruct (bool_decide _); [|done]. destruct args as [|a1 [|]]; [done| |done].
  unfold mbind, act_bind, gets. by rewrite Hc.
Qed.

(** Protocol detection agrees with both encoders: whatever follows, bytes that
    start with a serialized frame are taken as binary and bytes that start
    with a serialized RESP value as RESP. *)
Theorem detect_sound r :
  (∀ f, version f = BINARY_PROTOCOL_VERSION → detectProtocol (serialize f ++ r) = BINARY) ∧
  (∀ v, detectProtocol (Resp.serialize v ++ r) = RESP).
Proof.
  split.
  - intros f Hv. rewrite serialize_layout. unfold header. rewrite Hv. done.
  - intros [[] []]; done.
Qed.

(** A binary session whose buffer starts with a wrong version byte is stuck:
    data that still fits is only staged, nothing is handled or answered. *)
Theorem bad_version_wedges now clk data s c rest :
  protocol_type_ (me s) = BINARY → recv_buffer_ (me s) = c :: rest →
  char_code c ≠ BINARY_PROTOCOL_VERSION →
  zlen (recv_buffer_ (me s)) + zlen data ≤ MAX_RECV_BUFFER →
  on_data now clk data s = (staged now data s, Ret true) ∧
  recv_buffer_ (me (staged now data s)) = c :: (rest ++ data).
Proof.
  intros Hp Hb Hc Hlen. assert (Hsb : recv_buffer_ (me (staged now data s)) = c :: rest ++ data).
  { simpl. by rewrite Hb. }
  split; [|done]. rewrite on_data_eq, (proj2 (Z.ltb_ge _ _)) by lia.
  assert (Hpr : protocol_type_ (me (staged now data s)) = BINARY).
  { simpl. by rewrite bool_decide_false by (by rewrite Hp). }
  unfold mbind, act_bind, drain_stage. rewrite Hpr, Hsb. cbn [length].
  rewrite drain_none; [done|by rewrite Hsb|]. rewrite Hsb, parse_is_ref. unfold parse_ref, frame_complete.
  rewrite (proj2 (Z.eqb_neq (field (c :: rest ++ data) 0 1) BINARY_PROTOCOL_VERSION)).
  - by rewrite andb_false_r.
  - unfold field. simpl. unfold be_decode. simpl. done.
Qed.
End safety.

(** ** The socket *)

(** [send] never reorders or repeats: whatever the kernel accepts per call, the
    bytes that reach the socket are a prefix of the data; and they are all of
    it when every call accepts something and none fails. *)
Theorem send_loop_prefix results data :
  fst (send_loop results data) `prefix_of` data ∧
  (Forall (λ n, 0 < n) results → zlen data ≤ zlen results →
    send_loop results data = (data, Ret tt)).
Proof.
  revert data. induction results as [|n results IH]; intros data.
  { destruct data as [|c data]; simpl; [done|]. split; [apply prefix_nil|]. simpl. lia. }
  destruct data as [|c data]; [done|]. cbn [send_loop].
  destruct (n <? 0) eqn:En; reflect_bools.
  { split; [apply prefix_nil|]. intros [Hn _]%Forall_cons. lia. }
  destruct (IH (drop (Z.to_nat n) (c :: data))) as [Hpre Hall].
  destruct (send_loop results (drop (Z.to_nat n) (c :: data))) as [out r]. cbn [fst] in *. split.
  - rewrite <-(take_drop (Z.to_nat n) (c :: data)) at 2. by apply prefix_app.
  - intros [Hn Hpos]%Forall_cons Hl. rewrite length_drop in Hall. simpl length in *.
    assert (Ha : (out, r) = (drop (Z.to_nat n) (c :: data), Ret tt)) by (apply Hall; [done|lia]).
    injection Ha as -> ->. by rewrite take_drop.
Qed.

(** ** Witnesses *)

#[local] Existing Instance Broker.ElementsOrder.
#[local] Existing Instance ToySodium.
#[local] Existing Instance ToySodiumLaws.

(** Session 1 of the broker of [Broker.demo], which subscribes to ["t"]. *)
Definition demo : State MemLmdb := mkState (new_session 1 0) Broker.demo Keystore.new_store.

Lemma session_demo_inv : sess_inv demo.
Proof.
  split; [exact Broker.demo_inv|]. apply (bool_decide_unpack (1 ∈ _)). vm_compute. exact I.
Qed.

Lemma demo_bounded : bounded demo.
Proof. vm_compute. discriminate. Qed.

Definition noon : clock := mkClock 43200 7.

Lemma session_run_safe_witness :
  ∃ s' ended, run [RecvData 1 (λ _, noon) (lit "*1"); RecvTimeout 400] demo = (s', Ret ended) ∧
    Broker.broker_inv (broker s').
Proof.
  destruct (session_run_safe [RecvData 1 (λ _, noon) (lit "*1"); RecvTimeout 400] demo session_demo_inv demo_bounded)
    as (s' & ended & E & Hi & _). exact (ex_intro _ s' (ex_intro _ ended (conj E Hi))).
Defined.

(** A key store with the key of the seed ["k"] for topics under ["secure/"]. *)
Definition one_key : Keystore.TrustedKeyStore :=
  fst (Keystore.register_key_auto 5 Keystore.new_store
    (Signing.kp_public_key (Signing.generate_keypair_from_seed (lit "k"))) (lit "dev") (lit "secure/*")).

Definition signed_demo : State MemLmdb := mkState (new_session 1 0) Broker.demo one_key.

Lemma signed_demo_inv : sess_inv signed_demo.
Proof.
  split; [exact Broker.demo_inv|]. apply (bool_decide_unpack (1 ∈ _)). vm_compute. exact I.
Qed.

Definition signed_frame : BinaryFrame :=
  frame_signed_publish (lit "secure/a") (lit "21")
    (Signing.sign (lit "secure/a" ++ lit "21")
       (Signing.kp_secret_key (Signing.generate_keypair_from_seed (lit "k")))) 1 9.

Lemma secure_topic_protected_witness : authorized (keystore signed_demo) signed_frame.
Proof.
  apply (secure_topic_protected noon signed_frame signed_demo (lit "secure/a")).
  - reflexivity.
  - apply (bool_decide_unpack (_ ≠ _)). vm_compute. exact I.
Defined.

Lemma chunking_irrelevant_witness :
  (go ← on_data 1 (λ _, noon) (lit "*1"); if go : bool then on_data 1 (λ _, noon) (lit "x") else mret false) demo =
  on_data 1 (λ _, noon) (lit "*1" ++ lit "x") demo.
Proof. apply (chunking_irrelevant 1 noon (lit "*1") (lit "x") demo session_demo_inv). vm_compute. discriminate. Defined.

Lemma resp_acks_ignored_witness :
  client_id_ (me (fst (handleCommand noon (Resp.makeArray [lit "ACK"; lit "5"]) demo))) = [].
Proof. apply (resp_acks_ignored noon (Resp.makeArray [lit "ACK"; lit "5"]) demo). reflexivity. Defined.

(** A binary session that has received a wrong byte. *)
Definition stuck : State MemLmdb :=
  mkState (new_session 1 0 <| protocol_type_ := BINARY |> <| recv_buffer_ := lit "x" |>)
    Broker.demo Keystore.new_store.

Lemma bad_version_wedges_witness :
  on_data 2 (λ _, noon) (serialize frame_ping) stuck = (staged 2 (serialize frame_ping) stuck, Ret true).
Proof.
  apply (bad_version_wedges 2 (λ _, noon) (serialize frame_ping) stuck (char_of 120) []).
  - reflexivity.
  - reflexivity.
  - vm_compute. discriminate.
  - vm_compute. discriminate.
Defined.

End Session.
