(* ===== verification/Programs.v ===== *)
(** * Programs: a session's work between its locks and its socket

    A thread is a sequence of steps: taking and releasing the broker's mutex,
    what it does to shared state in between, each access to shared state made
    without a lock, and the loop of [Session::send], which may wait for the
    peer. Other threads run between any two. The programs follow
    [src/broker.cpp] and [src/session.cpp] again, this time with the places
    where the locks are taken and released; run without interference they do
    to the broker, the key store and the session what the functions of
    [Session] do. *)

From S2P Require Import Prelude Text BinaryProtocol RespParser Lmdb Storage Signing Keystore Metrics Broker Session.

(** ** Programs over a state *)

Inductive prog (S A : Type) : Type :=
| Done (a : A)
| Atom {B : Type} (m : act S B) (k : B → prog S A)
| Lock (k : prog S A)                                   (* std::lock_guard lock(mutex_) *)
| Unlock (k : prog S A)                                 (* its destructor *)
| Write (to : Broker.sid) (data : bytes) (k : prog S A). (* the loop of Session::send *)
Arguments Done {S A} a.
Arguments Atom {S A B} m k.
Arguments Lock {S A} k.
Arguments Unlock {S A} k.
Arguments Write {S A} to data k.

Fixpoint pbind {S A B} (p : prog S A) (f : A → prog S B) : prog S B :=
  match p with
  | Done a => f a
  | Atom m k => Atom m (λ b, pbind (k b) f)
  | Lock k => Lock (pbind k f)
  | Unlock k => Unlock (pbind k f)
  | Write y d k => Write y d (pbind k f)
  end.

#[export] Instance prog_ret {S} : MRet (prog S) := λ A a, Done a.
#[export] Instance prog_bind {S} : MBind (prog S) := λ A B f p, pbind p f.

Definition atom {S A} (m : act S A) : prog S A := Atom m Done.
Definition lock {S} : prog S unit := Lock (Done tt).
Definition unlock {S} : prog S unit := Unlock (Done tt).
Definition write {S} (y : Broker.sid) (d : bytes) : prog S unit := Write y d (Done tt).

(** A critical section of the broker's mutex. *)
Definition critical {S A} (m : act S A) : prog S A :=
  _ ← lock; a ← atom m; _ ← unlock; mret a.

Fixpoint p_for_each {S A} (l : list A) (f : A → prog S unit) : prog S unit :=
  match l with
  | [] => mret tt
  | x :: l' => _ ← f x; p_for_each l' f
  end.

(** The program without interference, on a socket that takes everything. *)
Fixpoint exec {S A} (p : prog S A) : act S A :=
  match p with
  | Done a => mret a
  | Atom m k => b ← m; exec (k b)
  | Lock k | Unlock k | Write _ _ k => exec k
  end.

Lemma bind_ret_eq {S A B} (m : act S A) (k : A → act S B) s s' a : m s = (s', Ret a) → (m ≫= k) s = k a s'.
Proof. intros E. unfold mbind, act_bind. by rewrite E. Qed.

(** *** Programs that implement an action *)

Definition implements {S A} (p : prog S A) (m : act S A) : Prop := ∀ s, exec p s = m s.

Lemma exec_bind {S A B} (p : prog S A) (f : A → prog S B) s :
  exec (p ≫= f) s = (a ← exec p; exec (f a)) s.
Proof.
  revert s. induction p as [a|C m k IH|k IH|k IH|y d k IH]; intros s; [done| |apply IH..].
  change ((b ← m; exec (k b ≫= f)) s = (a ← (b ← m; exec (k b)); exec (f a)) s).
  unfold mbind, act_bind. destruct (m s) as [s' []]; [|done..]. apply IH.
Qed.

Lemma implements_bind {S A B} (p : prog S A) (f : A → prog S B) (m : act S A) (g : A → act S B) :
  implements p m → (∀ a, implements (f a) (g a)) → implements (p ≫= f) (m ≫= g).
Proof.
  intros Hp Hf s. rewrite exec_bind. unfold mbind, act_bind. rewrite Hp.
  destruct (m s) as [s' []]; [|done..]. apply Hf.
Qed.

Lemma implements_ret {S A} (a : A) : implements (mret a : prog S A) (mret a).
Proof. done. Qed.

Lemma implements_atom {S A} (m : act S A) : implements (atom m) m.
Proof. intros s. unfold atom. cbn [exec]. unfold mbind, act_bind. by destruct (m s) as [s' []]. Qed.

Lemma implements_critical {S A} (m : act S A) : implements (critical m) m.
Proof. intros s. change (exec (atom m) s = m s). apply implements_atom. Qed.

Lemma exec_writes {S} (l : list Broker.sid) d (s : S) : exec (p_for_each l (λ y, write y d)) s = (s, Ret tt).
Proof. induction l as [|y l IH]; [done|exact IH]. Qed.

Lemma implements_for_each {S A} (l : list A) (f : A → prog S unit) (g : A → act S unit) :
  (∀ x, implements (f x) (g x)) → implements (p_for_each l f) (for_each l g).
Proof. intros Hf. induction l; [done|]. by apply implements_bind. Qed.

Ltac implements_step :=
  lazymatch goal with
  | |- implements (_ ≫= _) (_ ≫= _) => apply implements_bind; [|intros ?]
  | |- implements (p_for_each _ _) (for_each _ _) => apply implements_for_each; intros ?
  | |- implements (atom _) _ => apply implements_atom
  | |- implements (critical _) _ => apply implements_critical
  | |- implements (mret _) _ => apply implements_ret
  | |- implements (match ?y with _ => _ end) (match ?y with _ => _ end) => destruct y
  end.

(** ** The broker's methods *)

Module Programs.

Section programs.
Context `{LmdbOps env txn} `{HashOrder} `{Sodium}.

Abbreviation program A := (prog (Session.State env) A).

Definition on_broker {A} (m : act (Broker.Broker env) A) : program A := atom (Session.on_broker m).
Definition this : program Broker.sid := atom (gets (λ s, Session.self (Session.me s))).
Definition update_me (f : Session.Session → Session.Session) : program unit := atom (Session.update_me f).

(** [broker_->method()] where the whole method holds the mutex. *)
Definition locked {A} (m : act (Broker.Broker env) A) : program A := critical (Session.on_broker m).

(** [Session::send] on the session's own socket: the call is recorded, and then
    the loop runs. *)
Definition send (data : bytes) : program unit :=
  _ ← atom (Session.send data); x ← this; write x data.
Definition sendBinary (frame : BinaryFrame) : program unit := send (serialize frame).
Definition sendResp (value : Resp.RespValue) : program unit := send (Resp.serialize value).

(** What a crash of the process looks like: it cannot be caught. *)
Definition null_dereference : string := "null pointer dereference".

(** [persistence_->load_range(from, to)], the pointer being read again. *)
Definition load_range (from to : Z) : act (Broker.Broker env) (list Storage.stored) :=
  p ← gets Broker.persistence_;
  match p with
  | None => liftO (Throw null_dereference)
  | Some e => liftO (Storage.load_range e from to)
  end.

(** [publish] holds the mutex over the loops of its sends. Between them
    nothing else changes what the mutex guards, so the rest of its work is one
    step; the counters of the metrics, which it updates after the sends, are
    updated before them here. *)
Definition publish (latency_us : Z) (topic payload : bytes) : program Z :=
  _ ← lock;
  seq ← on_broker (Broker.publish latency_us topic payload);
  targets ← on_broker (gets (λ b, hash_order (Broker.subscribers b topic) ++ hash_order (Broker.subscribers b (lit "#"))));
  _ ← p_for_each targets (λ y, write y payload);
  _ ← unlock;
  mret seq.

(** [session->send(payload)] in a replay: on the session's own thread, without
    the lock. *)
Definition resend (session : Broker.sid) (payload : bytes) : program unit :=
  _ ← on_broker (Broker.send session payload); write session payload.

(** The test [if (persistence_)], the load and every [send] run without the lock. *)
Definition replayMessages (session : Broker.sid) (topic : bytes) (from_seq : Z) : program unit :=
  p ← on_broker (gets (λ b, bool_decide (is_Some (Broker.persistence_ b))));
  if negb p then mret tt
  else
    messages ← on_broker (load_range from_seq (u64 (from_seq + Broker.MAX_STORED_MESSAGES)));
    p_for_each messages (λ '(seq, msg_topic, msg_payload),
      if bool_decide (msg_topic = topic) then resend session msg_payload else mret tt).

Definition subscribe (session : Broker.sid) (topic : bytes) : program unit :=
  _ ← locked (Broker.subscribe_locked session topic);
  replayMessages session topic 0.

(** [getLastAck] and [isAcked] take the lock for themselves. *)
Definition replayMessagesForClient (session : Broker.sid) (topic client_id : bytes) : program unit :=
  last_ack ← locked (gets (λ b, Broker.getLastAck b client_id));
  p ← on_broker (gets (λ b, bool_decide (is_Some (Broker.persistence_ b))));
  if negb p then mret tt
  else
    messages ← on_broker (load_range (u64 (last_ack + 1)) (u64 (last_ack + Broker.MAX_STORED_MESSAGES)));
    p_for_each messages (λ '(seq, msg_topic, msg_payload),
      if bool_decide (msg_topic = topic) then
        acked ← locked (gets (λ b, Broker.isAcked b client_id seq));
        if negb acked then resend session msg_payload else mret tt
      else mret tt).

(** ** The handlers *)

Definition next_sequence : program Z := atom Session.next_sequence.

Definition handleSubscribe (frame : BinaryFrame) : program unit :=
  x ← this;
  _ ← match find_first [Storage.NUL] (topic frame) with
      | Some sep =>
          let client := take sep (topic frame) in
          let t := drop (sep + 1) (topic frame) in
          _ ← update_me (λ m, m <| Session.client_id_ := client |>);
          _ ← locked (Broker.registerClient client x);
          _ ← subscribe x t;
          replayMessagesForClient x t client
      | None => subscribe x (topic frame)
      end;
  sendBinary (frame_ack (sequence frame)).

Definition handlePublish (clk : Session.clock) (frame : BinaryFrame) : program unit :=
  if starts_with (topic frame) (lit "secure/") then
    sendBinary (frame_error (lit "Topic '" ++ topic frame ++
      lit "' requires signed publish (CMD_SIGNED_PUBLISH)"))
  else
    seq ← next_sequence;
    let serialized := serialize (frame_message (topic frame) (payload frame) seq) in
    _ ← publish (Session.latency clk) (topic frame) serialized;
    sendBinary (frame_ack (sequence frame)).

(** [verify_with_key] takes the lock of the key store to copy the key, and again
    to stamp it when the signature is good; [get_key_info] takes it a third
    time. *)
Definition verify_with_key (now kid : Z) (message signature : bytes) : program bool :=
  pk ← atom (gets (λ s : Session.State env, Keystore.get_key (Session.keystore s) kid));
  match pk with
  | None => mret false
  | Some pk =>
      if Signing.verify message signature pk
      then _ ← atom (modify (λ s : Session.State env, s <| Session.keystore ::= λ ks, Keystore.touch now ks kid |>)); mret true
      else mret false
  end.

Definition handleSignedPublish (clk : Session.clock) (frame : BinaryFrame) : program unit :=
  let message_to_verify := topic frame ++ payload frame in
  valid ← verify_with_key (Session.wall clk) (key_id frame) message_to_verify (signature frame);
  if negb valid then sendBinary (frame_error (lit "Invalid signature or unknown key"))
  else
    key_info ← atom (gets (λ s : Session.State env, Keystore.get_key_info (Session.keystore s) (key_id frame)));
    let authorized :=
      match key_info with
      | Some k =>
          if bool_decide (Keystore.allowed_topics k = []) then true
          else Session.topic_ok (Keystore.allowed_topics k) (topic frame)
      | None => true
      end in
    if negb authorized then
      sendBinary (frame_error (lit "Key not authorized for topic '" ++ topic frame ++ lit "'"))
    else
      seq ← next_sequence;
      let serialized :=
        serialize (frame_signed_message (topic frame) (payload frame) (signature frame) (key_id frame) seq) in
      _ ← publish (Session.latency clk) (topic frame) serialized;
      sendBinary (frame_ack (sequence frame)).

Definition handleBinaryFrame (clk : Session.clock) (frame : BinaryFrame) : program unit :=
  match command frame with
  | CMD_SUBSCRIBE => handleSubscribe frame
  | CMD_UNSUBSCRIBE =>
      x ← this;
      _ ← locked (Broker.unsubscribe x (topic frame));
      sendBinary (frame_ack (sequence frame))
  | CMD_PUBLISH => handlePublish clk frame
  | CMD_PING => sendBinary frame_pong
  | CMD_ACK =>
      client ← atom (gets (λ s : Session.State env, Session.client_id_ (Session.me s)));
      if bool_decide (client = []) then mret tt else locked (Broker.handleAck client (sequence frame))
  | CMD_SIGNED_PUBLISH => handleSignedPublish clk frame
  | CMD_SIGNED_MESSAGE => mret tt
  | _ => sendBinary (frame_error (lit "Unknown command"))
  end.

Definition handleCommand (clk : Session.clock) (cmdv : Resp.RespValue) : program unit :=
  if negb (Resp.isArray cmdv) then sendResp (Resp.error (lit "ERR Protocol error: expected array"))
  else
    match Resp.asArray cmdv with
    | [] => sendResp (Resp.error (lit "ERR empty command"))
    | c0 :: args =>
        x ← this;
        let cmd := toupper <$> Resp.asString c0 in
        if bool_decide (cmd = lit "SUBSCRIBE") then
          p_for_each (imap (λ i v, (Z.of_nat (i + 1), Resp.asString v)) args) (λ '(i, t),
            _ ← subscribe x t;
            sendResp (Session.confirmation (lit "subscribe") t i))
        else if bool_decide (cmd = lit "UNSUBSCRIBE") then
          p_for_each (Resp.asString <$> args) (λ t,
            _ ← locked (Broker.unsubscribe x t);
            sendResp (Session.confirmation (lit "unsubscribe") t 0))
        else if bool_decide (cmd = lit "PUBLISH") then
          match args with
          | [a1; a2] =>
              let t := Resp.asString a1 in
              let serialized := Resp.serialize (Resp.array
                [Resp.bulkString (lit "message"); Resp.bulkString t; Resp.bulkString (Resp.asString a2)]) in
              _ ← publish (Session.latency clk) t serialized;
              sendResp (Resp.integer 1)
          | _ => sendResp (Resp.error (lit "ERR wrong number of arguments for PUBLISH"))
          end
        else if bool_decide (cmd = lit "PING") then
          match args with
          | a1 :: _ => sendResp (Resp.bulkString (Resp.asString a1))
          | [] => sendResp (Resp.simpleString (lit "PONG"))
          end
        else if bool_decide (cmd = lit "ACK") then
          match args with
          | [a1] =>
              let seq := u64 (Resp.asInteger a1) in
              client ← atom (gets (λ s : Session.State env, Session.client_id_ (Session.me s)));
              _ ← (if bool_decide (client = []) then mret tt else locked (Broker.handleAck client seq));
              sendResp (Resp.simpleString (lit "OK"))
          | _ => sendResp (Resp.error (lit "ERR wrong number of arguments for ACK"))
          end
        else sendResp (Resp.error (lit "ERR unknown command '" ++ cmd ++ lit "'"))
    end.

(** ** The receive loop *)

Fixpoint drain {V} (parse : bytes → outcome (option (V * nat))) (handle : nat → V → program unit)
    (fuel : nat) : program unit :=
  buffer ← atom (gets (λ s : Session.State env, Session.recv_buffer_ (Session.me s)));
  match buffer with
  | [] => mret tt
  | _ :: _ =>
      match fuel with
      | O => atom (liftO Diverge)
      | S f =>
          result ← atom (liftO (parse buffer));
          match result with
          | None => mret tt
          | Some (v, consumed) =>
              _ ← update_me (λ m, m <| Session.recv_buffer_ ::= drop consumed |>);
              _ ← handle f v;
              drain parse handle f
          end
      end
  end.

Definition on_data (now : Z) (clk : nat → Session.clock) (data : bytes) : program bool :=
  _ ← update_me (λ m, m <| Session.last_activity_ := now |>);
  size ← atom (gets (λ s : Session.State env, zlen (Session.recv_buffer_ (Session.me s))));
  if Session.MAX_RECV_BUFFER <? size + zlen data then
    _ ← sendBinary (frame_error (lit "Message too large — connection closed"));
    mret false
  else
    _ ← update_me (λ m, m <| Session.recv_buffer_ ::= λ b, b ++ data |>);
    p ← atom (gets (λ s : Session.State env, Session.protocol_type_ (Session.me s)));
    _ ← (if bool_decide (p = Session.UNKNOWN)
         then update_me (λ m, m <| Session.protocol_type_ := Session.detectProtocol (Session.recv_buffer_ m) |>)
         else mret tt);
    p ← atom (gets (λ s : Session.State env, Session.protocol_type_ (Session.me s)));
    fuel ← atom (gets (λ s : Session.State env, length (Session.recv_buffer_ (Session.me s))));
    _ ← match p with
        | Session.UNKNOWN => mret tt
        | Session.RESP => drain Resp.parse (λ i, handleCommand (clk i)) fuel
        | Session.BINARY => drain BinaryProtocol.parse (λ i, handleBinaryFrame (clk i)) fuel
        end;
    mret true.

Definition cleanup : program unit :=
  client ← atom (gets (λ s : Session.State env, Session.client_id_ (Session.me s)));
  _ ← (if bool_decide (client = []) then mret tt else locked (Broker.unregisterClient client));
  x ← this;
  locked (Broker.removeSession x).
End programs.

(** ** Without interference *)

Section alone.
Context `{LmdbOps env txn} `{HashOrder} `{Sodium}.

Lemma on_broker_bind {A B} (m : act (Broker.Broker env) A) (k : A → act (Broker.Broker env) B) s :
  Session.on_broker (m ≫= k) s = (a ← Session.on_broker m; Session.on_broker (k a)) s.
Proof.
  unfold Session.on_broker, on_part, mbind, act_bind. destruct (m (Session.broker s)) as [b []]; [|done..].
  cbn. by destruct (k a b).
Qed.

Lemma on_broker_ret {A} (a : A) (s : Session.State env) : Session.on_broker (mret a) s = (s, Ret a).
Proof. by destruct s. Qed.

Lemma implements_on_broker {A B} (p : prog (Session.State env) B) (m : act (Broker.Broker env) A) k :
  implements p (a ← Session.on_broker m; Session.on_broker (k a)) → implements p (Session.on_broker (m ≫= k)).
Proof. intros Hp s. by rewrite on_broker_bind. Qed.

Lemma implements_broker_ret {A} (a : A) : implements (mret a) (Session.on_broker (env := env) (mret a)).
Proof. intros s. by rewrite on_broker_ret. Qed.

Lemma implements_broker_for_each {A} (l : list A) (f : A → prog (Session.State env) unit) g :
  (∀ x, implements (f x) (Session.on_broker (g x))) →
  implements (p_for_each l f) (Session.on_broker (for_each l g)).
Proof.
  intros Hf. induction l as [|x l IH]; [apply implements_broker_ret|].
  apply implements_on_broker. by apply implements_bind.
Qed.

Lemma on_broker_gets {A} (f : Broker.Broker env → A) (s : Session.State env) :
  Session.on_broker (gets f) s = (s, Ret (f (Session.broker s))).
Proof. by destruct s. Qed.
Lemma on_broker_liftO {A} (m : outcome A) (s : Session.State env) :
  Session.on_broker (liftO m) s = (s, m).
Proof. by destruct s. Qed.

(** The test of the pointer and the load through it, in one go or in two. *)
Lemma implements_load (P : list Storage.stored → prog (Session.State env) unit) M from to :
  (∀ l, implements (P l) (Session.on_broker (M l))) →
  implements
    (p ← on_broker (gets (λ b, bool_decide (is_Some (Broker.persistence_ b))));
     if negb p then mret tt else messages ← on_broker (load_range from to); P messages)
    (Session.on_broker (p ← gets Broker.persistence_;
       match p with
       | None => mret tt
       | Some e => messages ← liftO (Storage.load_range e from to); M messages
       end)).
Proof.
  intros HP s. rewrite exec_bind, on_broker_bind.
  rewrite (bind_ret_eq _ _ s s (bool_decide (is_Some (Broker.persistence_ (Session.broker s)))))
    by (etrans; [apply implements_atom|apply on_broker_gets]).
  rewrite (bind_ret_eq _ _ s s (Broker.persistence_ (Session.broker s))) by apply on_broker_gets.
  destruct (Broker.persistence_ (Session.broker s)) as [e|] eqn:Hp.
  2: { rewrite bool_decide_false by (by intros [? ?]). by rewrite on_broker_ret. }
  rewrite bool_decide_true by (by eexists). cbn [negb]. rewrite exec_bind, on_broker_bind.
  assert (E : exec (on_broker (load_range from to)) s = (s, Storage.load_range e from to)).
  { etrans; [apply implements_atom|]. unfold load_range. rewrite on_broker_bind.
    rewrite (bind_ret_eq _ _ s s (Some e)) by (rewrite on_broker_gets; by rewrite Hp). apply on_broker_liftO. }
  unfold mbind, act_bind. rewrite E, on_broker_liftO. destruct (Storage.load_range e from to); [apply HP|done..].
Qed.

Lemma locked_implements {A} (m : act (Broker.Broker env) A) : implements (locked m) (Session.on_broker m).
Proof. apply implements_critical. Qed.

Lemma resend_implements x d : implements (resend x d) (Session.on_broker (Broker.send (env := env) x d)).
Proof. intros s. by destruct s. Qed.

Lemma send_implements d : implements (send d) (Session.send (env := env) d).
Proof. intros s. by destruct s. Qed.

Lemma publish_implements l t d : implements (publish l t d) (Session.on_broker (Broker.publish l t d)).
Proof.
  intros s. change (exec (publish l t d) s) with
    (exec (seq ← on_broker (Broker.publish l t d);
           targets ← on_broker (gets (λ b, hash_order (Broker.subscribers b t) ++ hash_order (Broker.subscribers b (lit "#"))));
           _ ← p_for_each targets (λ y, write y d); _ ← unlock; mret seq) s).
  rewrite exec_bind. unfold mbind at 1, act_bind at 1.
  assert (E : exec (on_broker (Broker.publish l t d)) s = Session.on_broker (Broker.publish l t d) s) by apply implements_atom.
  rewrite E. clear E.
  destruct (Session.on_broker (Broker.publish l t d) s) as [s' [seq| |]]; [|done..].
  rewrite exec_bind. erewrite (bind_ret_eq _ _ s'); [|etrans; [apply implements_atom|apply on_broker_gets]].
  rewrite exec_bind. by erewrite (bind_ret_eq _ _ s'); [|apply exec_writes].
Qed.

Lemma verify_implements now kid msg sig : implements (verify_with_key now kid msg sig) (Session.verify_with_key (env := env) now kid msg sig).
Proof.
  intros s. unfold verify_with_key. rewrite exec_bind. unfold Session.verify_with_key, Keystore.verify_with_key.
  rewrite (bind_ret_eq _ _ s s (Keystore.get_key (Session.keystore s) kid)) by done. unfold Keystore.get_key. destruct s as [m b ks]. cbn.
  destruct (Keystore.keys_ ks !! kid) as [k|]; [|done]. destruct (Keystore.enabled k); [|done]. cbn.
  by destruct (Signing.verify msg sig (Keystore.public_key k)).
Qed.

Lemma replayMessages_implements x t from :
  implements (replayMessages x t from) (Session.on_broker (Broker.replayMessages x t from)).
Proof.
  apply implements_load. intros l. apply implements_broker_for_each. intros [[seq mt] mp].
  destruct (bool_decide _); [apply resend_implements|apply implements_broker_ret].
Qed.

Lemma subscribe_implements x t : implements (subscribe x t) (Session.on_broker (Broker.subscribe x t)).
Proof.
  apply implements_on_broker, implements_bind; [apply implements_critical|]. intros _. apply replayMessages_implements.
Qed.

Lemma replayForClient_implements x t c :
  implements (replayMessagesForClient x t c) (Session.on_broker (Broker.replayMessagesForClient x t c)).
Proof.
  apply implements_on_broker, implements_bind; [apply implements_critical|]. intros last. apply implements_load.
  intros l. apply implements_broker_for_each. intros [[seq mt] mp] s.
  rewrite on_broker_bind, (bind_ret_eq _ _ s s _ (on_broker_gets _ _)).
  destruct (bool_decide _); cbn [andb]; [|by rewrite on_broker_ret].
  rewrite exec_bind, (bind_ret_eq _ _ s s (Broker.isAcked (Session.broker s) c seq))
    by (etrans; [apply implements_critical|apply on_broker_gets]).
  destruct (Broker.isAcked _ _ _); cbn [negb]; [by rewrite on_broker_ret|apply resend_implements].
Qed.

Ltac implements_broker :=
  lazymatch goal with
  | |- implements (subscribe _ _) _ => apply subscribe_implements
  | |- implements (replayMessagesForClient _ _ _) _ => apply replayForClient_implements
  | |- implements (on_broker ?m) _ => exact (implements_atom (Session.on_broker m))
  | |- implements (update_me ?f) _ => exact (implements_atom (Session.update_me f))
  | |- implements (locked _) _ => apply locked_implements
  | |- implements (publish _ _ _) _ => apply publish_implements
  | |- implements (verify_with_key _ _ _ _) _ => apply verify_implements
  | |- implements (sendBinary _) _ => apply send_implements
  | |- implements (sendResp _) _ => apply send_implements
  | |- implements next_sequence _ => exact (implements_atom Session.next_sequence)
  | |- implements this _ => apply implements_atom
  | |- _ => implements_step
  end.

Lemma handleBinaryFrame_implements clk f :
  implements (handleBinaryFrame clk f) (Session.handleBinaryFrame clk f).
Proof.
  unfold handleBinaryFrame, Session.handleBinaryFrame, handleSubscribe, Session.handleSubscribe, handlePublish,
    Session.handlePublish, handleSignedPublish, Session.handleSignedPublish.
  repeat implements_broker.
Qed.

Lemma handleCommand_implements clk v : implements (handleCommand clk v) (Session.handleCommand clk v).
Proof. unfold handleCommand, Session.handleCommand. repeat implements_broker. Qed.

Lemma drain_implements {V} (parse : bytes → outcome (option (V * nat))) p (m : nat → V → act (Session.State env) unit) fuel :
  (∀ i v, implements (p i v) (m i v)) → implements (drain parse p fuel) (Session.drain parse m fuel).
Proof. intros Hp. induction fuel as [|f IH]; cbn [drain Session.drain]; repeat first [implements_broker | apply Hp | apply IH]. Qed.

(** Run without interference, the steps of a thread that has received data do
    what the function [Session.on_data] does, and those of a thread that ends
    what [Session.cleanup] does: every theorem on those functions is one about a broker
    that serves one request at a time. *)
Theorem alone_is_sequential now clk data s :
  exec (on_data now clk data) s = Session.on_data now clk data s ∧
  exec cleanup s = Session.cleanup s.
Proof.
  split.
  - apply (λ H : implements _ _, H s). unfold on_data, Session.on_data.
    repeat first [ implements_broker | apply drain_implements; intros; apply handleCommand_implements
                 | apply drain_implements; intros; apply handleBinaryFrame_implements ].
  - apply (λ H : implements _ _, H s). unfold cleanup, Session.cleanup. repeat implements_broker.
Qed.
End alone.
End Programs.
