(* ===== verification/System.v ===== *)
(** * System: the broker's threads together

    One thread per session and the accept loop, on the shared broker and key
    store, interleaved at the granularity of [Programs]: a thread that wants
    the broker's mutex waits until its owner releases it, and a thread in
    [Session::send] waits until the kernel takes bytes for the peer, some or
    all of them, or reports an error. Labels choose which thread moves and what
    the sockets report; [step] is executable. *)

From S2P Require Import Prelude Text BinaryProtocol RespParser AckSet Lmdb Storage Signing Keystore Metrics Broker Session Programs.

Module System.

(** ** State *)

(** The session's thread waits in [recv], handles what it received, or is past
    the loop of [run]. *)
Inductive task (env : Type) :=
| Idle
| Busy (p : prog (Session.State env) bool)
| Leaving (p : prog (Session.State env) unit).
Arguments Idle {env}.
Arguments Busy {env} p.
Arguments Leaving {env} p.

Record thread (env : Type) := mkThread { session : Session.Session; doing : task env }.
Arguments mkThread {env} _ _.
Arguments session {env} _.
Arguments doing {env} _.

(** Where the accept loop is, with the session it made and the time. *)
Inductive acceptor :=
| Selecting
| Checking (s : Broker.sid) (now : Z)     (* the test of the connection limit *)
| Pushing (s : Broker.sid) (now : Z)      (* sessions_.push_back, under the lock *)
| Counting (s : Broker.sid) (now : Z)     (* active_connections_++ *)
| Spawning (s : Broker.sid) (now : Z)     (* std::thread(...).detach() *)
| Measuring                               (* incrementConnections *)
| Gauging.                                (* setActiveConnections, under the lock *)

Record sys (env : Type) := mkSys {
  broker : Broker.Broker env;
  keystore : Keystore.TrustedKeyStore;
  threads : gmap Broker.sid (thread env);
  accepting : acceptor;
  owner : option Broker.sid;            (* the session whose thread holds mutex_ *)
  wires : gmap Broker.sid bytes;        (* what the kernel has taken for each peer *)
}.
Arguments mkSys {env} _ _ _ _ _ _.
Arguments broker {env} _.
Arguments keystore {env} _.
Arguments threads {env} _.
Arguments accepting {env} _.
Arguments owner {env} _.
Arguments wires {env} _.

Inductive label :=
| Connect (s : Broker.sid) (now : Z)      (* accept returned a socket *)
| Accept                                  (* the accept loop takes a step *)
| Receive (x : Broker.sid) (ev : Session.recv_event)
| Run (x : Broker.sid)                    (* the thread of a session takes a step *)
| Send (x : Broker.sid) (r : Z)           (* ::send returns r to that thread *)
| BrokenPipe (x : Broker.sid)             (* ::send raises SIGPIPE, which nothing handles *)
| Keys (c : Keystore.call)                (* a call to the key store from outside *)
| Stop                                    (* Broker::stop before its sleep *)
| ResetPersistence.                       (* persistence_.reset() in Broker::stop *)

Inductive result (env : Type) :=
| Next (σ : sys env)
| Blocked                                 (* the label is not enabled *)
| Crash.
Arguments Next {env} σ.
Arguments Blocked {env}.
Arguments Crash {env}.

(** What a step of a program comes to. *)
Inductive moved (env A : Type) :=
| Moved (s : Session.State env) (o : option Broker.sid) (p : prog (Session.State env) A)
| Threw (s : Session.State env) (msg : string)
| Waits.
Arguments Moved {env A} s o p.
Arguments Threw {env A} s msg.
Arguments Waits {env A}.

Section steps.
Context `{LmdbOps env txn} `{HashOrder} `{Sodium}.
Implicit Types σ : sys env.

Definition set_thread σ (x : Broker.sid) (th : thread env) : sys env :=
  mkSys (broker σ) (keystore σ) (<[x := th]> (threads σ)) (accepting σ) (owner σ) (wires σ).

(** The state a step of the thread of [x] sees. *)
Definition view σ (th : thread env) : Session.State env := Session.mkState (session th) (broker σ) (keystore σ).

(** The shared state and the thread's own session after a step. *)
Definition store σ (x : Broker.sid) (s : Session.State env) (o : option Broker.sid) (t : task env) : sys env :=
  mkSys (Session.broker s) (Session.keystore s) (<[x := mkThread (Session.me s) t]> (threads σ)) (accepting σ) o (wires σ).

(** A step of the program of [x], when [o] holds the mutex. *)
Definition advance {A} (x : Broker.sid) (p : prog (Session.State env) A) (s : Session.State env)
    (o : option Broker.sid) : moved env A :=
  match p with
  | Done _ => Waits
  | Atom m k =>
      match m s with
      | (s', Ret b) => Moved s' o (k b)
      | (s', Throw msg) => Threw s' msg
      | (_, Diverge) => Waits
      end
  | Lock k => match o with None => Moved s (Some x) k | Some _ => Waits end
  | Unlock k => Moved s None k
  | Write _ [] k => Moved s o k
  | Write _ (_ :: _) _ => Waits
  end.

(** An exception ends the loop of [run], and releases the mutex; an access
    violation ends the process. *)
Definition release (x : Broker.sid) (o : option Broker.sid) : option Broker.sid :=
  if bool_decide (o = Some x) then None else o.

Definition caught (msg : string) (σ : sys env) : result env :=
  if bool_decide (msg = Programs.null_dereference) then Crash else Next σ.

Definition run_thread (x : Broker.sid) σ : result env :=
  match threads σ !! x with
  | None => Blocked
  | Some th =>
      match doing th with
      | Idle => Blocked
      | Busy (Done go_on) =>
          Next (set_thread σ x (mkThread (session th) (if go_on : bool then Idle else Leaving Programs.cleanup)))
      | Busy p =>
          match advance x p (view σ th) (owner σ) with
          | Moved s o p' => Next (store σ x s o (Busy p'))
          | Threw s msg => caught msg (store σ x s (release x (owner σ)) (Leaving Programs.cleanup))
          | Waits => Blocked
          end
      | Leaving (Done _) =>
          Next (mkSys (broker σ) (keystore σ) (delete x (threads σ)) (accepting σ) (owner σ) (wires σ))
      | Leaving p =>
          match advance x p (view σ th) (owner σ) with
          | Moved s o p' => Next (store σ x s o (Leaving p'))
          | Threw _ _ => Crash
          | Waits => Blocked
          end
      end
  end.

(** One turn of the loop of [Session::send]: the peer, the bytes the kernel
    took, and what is left to do; an error ends the loop. *)
Definition send_turn {A} (r : Z) (p : prog (Session.State env) A)
    : option (Broker.sid * bytes * prog (Session.State env) A) :=
  match p with
  | Write y ((_ :: _) as d) k =>
      if r <? 0 then Some (y, [], k)
      else if r <=? zlen d then Some (y, take (Z.to_nat r) d, Write y (drop (Z.to_nat r) d) k)
      else None
  | _ => None
  end.

Definition send_task (r : Z) (t : task env) : option (Broker.sid * bytes * task env) :=
  match t with
  | Idle => None
  | Busy p => (λ '(y, d, p'), (y, d, Busy p')) <$> send_turn r p
  | Leaving p => (λ '(y, d, p'), (y, d, Leaving p')) <$> send_turn r p
  end.

Definition send_thread (x : Broker.sid) (r : Z) σ : result env :=
  match threads σ !! x with
  | None => Blocked
  | Some th =>
      match send_task r (doing th) with
      | Some (y, d, t) =>
          Next (mkSys (broker σ) (keystore σ) (<[x := mkThread (session th) t]> (threads σ)) (accepting σ) (owner σ)
                  (<[y := default [] (wires σ !! y) ++ d]> (wires σ)))
      | None => Blocked
      end
  end.

(** The peer whose socket the thread is writing to, and whether its next step
    takes the mutex. *)
Definition writes_to {A} (p : prog (Session.State env) A) : option Broker.sid :=
  match p with Write y (_ :: _) _ => Some y | _ => None end.
Definition locks {A} (p : prog (Session.State env) A) : bool := match p with Lock _ => true | _ => false end.

Definition sending_to (t : task env) : option Broker.sid :=
  match t with Idle => None | Busy p => writes_to p | Leaving p => writes_to p end.
Definition wants_lock (t : task env) : bool :=
  match t with Idle => false | Busy p => locks p | Leaving p => locks p end.

(** What [recv] returns to a waiting thread. *)
Definition receive (x : Broker.sid) (ev : Session.recv_event) σ : result env :=
  match threads σ !! x with
  | Some (mkThread m Idle) =>
      let t := match ev with
               | Session.RecvTimeout now =>
                   if Session.SESSION_IDLE_TIMEOUT_S <=? now - Session.last_activity_ m
                   then Leaving Programs.cleanup else Idle
               | Session.RecvError | Session.RecvClosed => Leaving Programs.cleanup
               | Session.RecvData now clk data => Busy (Programs.on_data now clk data)
               end in
      Next (set_thread σ x (mkThread m t))
  | _ => Blocked
  end.

Definition with_broker σ (b : Broker.Broker env) (a : acceptor) : sys env :=
  mkSys b (keystore σ) (threads σ) a (owner σ) (wires σ).

(** A critical section of the accept loop; nothing in it waits. *)
Definition when_free σ (r : result env) : result env := match owner σ with None => r | Some _ => Blocked end.

(** The body of the accept loop, one access at a time. *)
Definition accept_step σ : result env :=
  let b := broker σ in
  match accepting σ with
  | Selecting => Blocked
  | Checking s now =>
      Next (with_broker σ b (if Broker.MAX_CONNECTIONS <=? Broker.active_connections_ b then Selecting else Pushing s now))
  | Pushing s now => when_free σ (Next (with_broker σ (b <| Broker.sessions_ ::= λ l, l ++ [s] |>) (Counting s now)))
  | Counting s now => Next (with_broker σ (b <| Broker.active_connections_ ::= λ n, u64 (n + 1) |>) (Spawning s now))
  | Spawning s now =>
      Next (mkSys b (keystore σ) (<[s := mkThread (Session.new_session s now) Idle]> (threads σ)) Measuring (owner σ) (wires σ))
  | Measuring => Next (with_broker σ (b <| Broker.metrics ::= Metrics.incrementConnections |>) Gauging)
  | Gauging =>
      when_free σ (Next (with_broker σ
        (b <| Broker.metrics ::= Metrics.setActiveConnections (zlen (Broker.sessions_ b)) |>) Selecting))
  end.

(** A new [Session] is at an address no live one has. *)
Definition fresh (s : Broker.sid) σ : bool :=
  bool_decide (threads σ !! s = None) && bool_decide (s ∉ Broker.sessions_ (broker σ)).

Definition step (l : label) σ : result env :=
  match l with
  | Connect s now =>
      match accepting σ with
      | Selecting =>
          if Broker.shutdown_requested_ (broker σ) || negb (fresh s σ) then Blocked
          else Next (with_broker σ (broker σ) (Checking s now))
      | _ => Blocked
      end
  | Accept => accept_step σ
  | Receive x ev => receive x ev σ
  | Run x => run_thread x σ
  | Send x r => send_thread x r σ
  | BrokenPipe x =>
      match threads σ !! x with
      | Some th => match sending_to (doing th) with Some _ => Crash | None => Blocked end
      | None => Blocked
      end
  | Keys c => Next (mkSys (broker σ) (Keystore.apply_call (keystore σ) c) (threads σ) (accepting σ) (owner σ) (wires σ))
  | Stop => Next (with_broker σ (fst (Broker.stop_accepting (broker σ))) (accepting σ))
  | ResetPersistence =>
      if Broker.shutdown_requested_ (broker σ)
      then Next (with_broker σ (fst (Broker.close_persistence (broker σ))) (accepting σ)) else Blocked
  end.

Definition storage_open (l : label) : bool := match l with ResetPersistence => false | _ => true end.

Definition is_next (r : result env) : bool := match r with Next _ => true | _ => false end.

(** A schedule. *)
Fixpoint steps (ls : list label) σ : result env :=
  match ls with
  | [] => Next σ
  | l :: ls' => match step l σ with Next σ' => steps ls' σ' | r => r end
  end.

Lemma steps_app ls ls' σ σ' : steps ls σ = Next σ' → steps (ls ++ ls') σ = steps ls' σ'.
Proof.
  revert σ. induction ls as [|l ls IH]; intros σ E; [by injection E as <-|]. cbn [steps app] in *.
  destruct (step l σ) as [σ1| |]; [by apply IH|done..].
Qed.

Definition start (e : env) : sys env := mkSys (Broker.new_broker e) Keystore.new_store ∅ Selecting None ∅.

(** States reachable before the storage is closed. *)
Inductive reachable (e : env) : sys env → Prop :=
| reach_start : reachable e (start e)
| reach_step σ l σ' : reachable e σ → l ≠ ResetPersistence → step l σ = Next σ' → reachable e σ'.
End steps.

(** ** The connection counters aside

    Between the steps of the accept loop the two counters of connections lag
    behind the list of sessions; [settled] is the broker with both caught up. *)

Section invariant.
Context `{LmdbLaws env txn} `{HashOrder} `{Sodium}.
Implicit Types σ : sys env.
Implicit Types b : Broker.Broker env.

Definition settle (n : Z) b : Broker.Broker env :=
  b <| Broker.active_connections_ := n |> <| Broker.metrics ::= Metrics.setActiveConnections n |>.
Definition settled b : Broker.Broker env := settle (zlen (Broker.sessions_ b)) b.

Definition conc_inv b : Prop := Broker.broker_inv (settled b) ∧ is_Some (Broker.persistence_ b).

(** What the steps of a handler leave to the others: the sessions and the
    counters of connections. *)
Definition same_conns b b' : Prop :=
  Broker.sessions_ b' = Broker.sessions_ b ∧
  Broker.active_connections_ b' = Broker.active_connections_ b ∧
  Metrics.active_connections_ (Broker.metrics b') = Metrics.active_connections_ (Broker.metrics b).

(** What the mutex guards. *)
Definition guarded b b' : Prop :=
  Broker.persistence_ b' = Broker.persistence_ b ∧ Broker.sessions_ b' = Broker.sessions_ b ∧
  Broker.topic_subscribers_ b' = Broker.topic_subscribers_ b ∧ Broker.client_acks_ b' = Broker.client_acks_ b ∧
  Broker.last_ack_seq_ b' = Broker.last_ack_seq_ b ∧ Broker.client_sessions_ b' = Broker.client_sessions_ b ∧
  Broker.current_sequence_ b' = Broker.current_sequence_ b ∧ Broker.publish_count_ b' = Broker.publish_count_ b.

#[local] Instance guarded_refl : Reflexive guarded.
Proof. by intros b. Qed.
#[local] Instance guarded_trans : Transitive guarded.
Proof. intros b1 b2 b3 (?&?&?&?&?&?&?&?) (?&?&?&?&?&?&?&?). repeat split; congruence. Qed.

(** An action that neither reads nor writes the counters. *)
Definition conn_free {A} (m : act (Broker.Broker env) A) : Prop :=
  (∀ n, commutes (settle n) m) ∧
  preserves (λ b, (Broker.active_connections_ b, Metrics.active_connections_ (Broker.metrics b))) m.

Lemma subscribe_locked_free x t : conn_free (Broker.subscribe_locked x t).
Proof.
  split; [intros n|]; unfold Broker.subscribe_locked, Broker.update_metrics.
  - repeat commute_step.
  - repeat preserve_step.
Qed.

Lemma unsubscribe_free x t : conn_free (Broker.unsubscribe x t).
Proof.
  split; [intros n|]; unfold Broker.unsubscribe, Broker.update_metrics.
  - repeat commute_step. unfold settle, Metrics.decrementTopicSubscribers. cbn. by repeat case_match.
  - repeat preserve_step. cbn. by autorewrite with metrics.
Qed.

Lemma publish_free l t p : conn_free (Broker.publish l t p).
Proof.
  split; [intros n|]; unfold Broker.publish, Broker.runCompactionIfDue, Broker.update_metrics.
  - repeat commute_step.
  - repeat preserve_step.
Qed.

Lemma handleAck_free c n : conn_free (Broker.handleAck c n).
Proof.
  split; [intros k|]; unfold Broker.handleAck, Broker.update_metrics.
  - repeat commute_step.
  - repeat preserve_step.
Qed.

Lemma registerClient_free c x : conn_free (Broker.registerClient c x).
Proof.
  split; [intros n|]; unfold Broker.registerClient.
  - repeat commute_step.
  - repeat preserve_step.
Qed.

Lemma unregisterClient_free c : conn_free (Broker.unregisterClient c).
Proof. split; [intros n|]; unfold Broker.unregisterClient; [repeat commute_step|repeat preserve_step]. Qed.

Lemma send_free x d : conn_free (Broker.send x d).
Proof. split; [intros n|]; unfold Broker.send; [repeat commute_step|repeat preserve_step]. Qed.

(** A step of session [x] on the broker: it returns, keeps the invariant and
    leaves the connections alone. *)
Definition broker_step (x : Broker.sid) {A} (m : act (Broker.Broker env) A) : Prop :=
  ∀ b, conc_inv b → x ∈ Broker.sessions_ b →
  ∃ b' a, m b = (b', Ret a) ∧ conc_inv b' ∧ same_conns b b'.

Lemma free_step x {A} (m : act (Broker.Broker env) A) :
  conn_free m →
  (∀ b, Broker.broker_inv b → x ∈ Broker.sessions_ b → is_Some (Broker.persistence_ b) →
    ∃ b' a, m b = (b', Ret a) ∧ Broker.broker_inv b' ∧ Broker.sessions_ b' = Broker.sessions_ b ∧
      is_Some (Broker.persistence_ b')) →
  broker_step x m.
Proof.
  intros [Hc Hp] Hm b [Hi Hs] Hx. specialize (Hc (zlen (Broker.sessions_ b)) b). specialize (Hp b).
  destruct (Hm (settled b) Hi Hx Hs) as (b1 & a & E & Hi1 & Hs1 & Hp1).
  unfold settled in E. rewrite Hc in E. destruct (m b) as [b' r]. cbn [fst snd] in *.
  injection E as <- ->. exists b', a. split; [done|]. injection Hp as Ha Hg. split; [|done].
  split; [|done]. change (Broker.sessions_ b' = Broker.sessions_ b) in Hs1. unfold settled. by rewrite Hs1.
Qed.

Lemma subscribe_locked_step x t : broker_step x (Broker.subscribe_locked x t).
Proof.
  apply free_step; [apply subscribe_locked_free|]. intros b Hi Hx Hs.
  destruct (Broker.subscribe_locked_inv b x t Hi Hx) as (E & Hi' & _). eexists _, tt. split; [exact E|]. done.
Qed.

Lemma unsubscribe_step x t : broker_step x (Broker.unsubscribe x t).
Proof.
  apply free_step; [apply unsubscribe_free|]. intros b Hi Hx Hs.
  destruct (Broker.unsubscribe_inv b x t Hi) as (E & Hi' & _ & Hse & _). eexists _, tt. split; [exact E|].
  split; [done|]. split; [done|]. assert (Hp : preserves Broker.persistence_ (Broker.unsubscribe (env := env) x t)).
  { unfold Broker.unsubscribe, Broker.update_metrics. repeat preserve_step. }
  by rewrite (Hp b).
Qed.

Lemma publish_persistence l t p b :
  is_Some (Broker.persistence_ b) → is_Some (Broker.persistence_ (fst (Broker.publish l t p b))).
Proof.
  intros [e He]. unfold Broker.publish, mbind, act_bind, gets, modify. cbn.
  destruct (_ =? 0); cbn; [|rewrite He; by eexists].
  unfold Broker.runCompactionIfDue, mbind, act_bind, gets, modify, liftO, mret, act_ret. cbn. rewrite He. cbn.
  repeat case_match; simplify_eq; cbn; rewrite ?He; by eexists.
Qed.

Lemma publish_step x l t p : broker_step x (Broker.publish l t p).
Proof.
  apply free_step; [apply publish_free|]. intros b Hi Hx Hs.
  destruct (Broker.publish_inv l t p b Hi) as (q & E & Hi' & _). eexists _, _. split; [exact E|].
  split; [done|]. split; [done|]. pose proof (publish_persistence l t p b Hs) as Hp. by rewrite E in Hp.
Qed.

Lemma handleAck_step x c n : 0 ≤ n < 2 ^ 64 → broker_step x (Broker.handleAck c n).
Proof.
  intros Hn. apply free_step; [apply handleAck_free|]. intros b Hi Hx [e He].
  destruct (Broker.handleAck_inv b c n Hi Hn) as (E & Hi' & _ & _ & Hp). eexists _, tt. split; [exact E|].
  split; [done|]. split; [done|]. rewrite Hp, He. by eexists.
Qed.

Lemma registerClient_step x c : broker_step x (Broker.registerClient c x).
Proof.
  apply free_step; [apply registerClient_free|]. intros b Hi Hx Hs.
  destruct (Broker.registerClient_inv b c x Hi) as (acks & E & Hi' & _ & _ & Hse & Hp & _).
  eexists _, tt. split; [exact E|]. split; [done|]. split; [done|]. by rewrite Hp.
Qed.

Lemma unregisterClient_step x c : broker_step x (Broker.unregisterClient c).
Proof.
  apply free_step; [apply unregisterClient_free|]. intros b Hi Hx Hs.
  destruct (Broker.perform_inv b (Broker.OpUnregister c) Hi I) as [_ Hi']. by eexists _, tt.
Qed.

Lemma send_step x y d : broker_step x (Broker.send y d).
Proof.
  apply free_step; [apply send_free|]. intros b Hi Hx Hs. eexists _, tt. split; [done|].
  split; [by apply Broker.outbox_inv|done].
Qed.

Lemma gets_step x {A} (f : Broker.Broker env → A) : broker_step x (gets f).
Proof. intros b Hi Hx. by exists b, (f b). Qed.

Lemma load_range_step x from to : broker_step x (Programs.load_range from to).
Proof.
  intros b [Hi [e He]] Hx. unfold Programs.load_range, mbind, act_bind, gets. rewrite He.
  destruct (Storage.load_range_returns e from to) as (l & Hl & _); [by apply (Broker.bi_store _ Hi)|].
  unfold liftO. rewrite Hl. exists b, l. split; [done|]. split; [|done]. split; [done|]. by eexists.
Qed.

(** ** Programs that are safe among others

    A thread may count on the invariant and on its own session being listed
    whenever one of its steps runs; in between anything else may change, except
    that while it holds the mutex ([h] is then the list of sessions it found)
    the sessions stay. Without the mutex it leaves alone what the mutex guards;
    it takes the mutex only when it does not hold it, and writes to its own
    socket, or to that of a session it found listed. *)
Fixpoint wp (x : Broker.sid) {A} (h : option (list Broker.sid)) (p : prog (Session.State env) A)
    (Q : option (list Broker.sid) → Session.Session → A → Prop) (m : Session.Session) : Prop :=
  match p with
  | Done a => Q h m a
  | Atom f k =>
      ∀ b ks, conc_inv b → x ∈ Broker.sessions_ b → (∀ L, h = Some L → Broker.sessions_ b = L) →
      ∃ s r, f (Session.mkState m b ks) = (s, Ret r) ∧ conc_inv (Session.broker s) ∧
        same_conns b (Session.broker s) ∧ (h = None → guarded b (Session.broker s)) ∧ wp x h (k r) Q (Session.me s)
  | Lock k => h = None ∧ ∀ L, x ∈ L → wp x (Some L) k Q m
  | Unlock k => is_Some h ∧ wp x None k Q m
  | Write y _ k => (y = x ∨ ∃ L, h = Some L ∧ y ∈ L) ∧ wp x h k Q m
  end.

Lemma wp_bind x {A B} h (p : prog (Session.State env) A) (f : A → prog (Session.State env) B) Q m :
  wp x h p (λ h' m' a, wp x h' (f a) Q m') m → wp x h (p ≫= f) Q m.
Proof.
  revert h m. induction p as [a|C g k IH|k IH|k IH|y d k IH]; intros h m Hp; [exact Hp|..].
  - change (wp x h (Atom g (λ c, k c ≫= f)) Q m). intros b ks Hi Hx Hh.
    destruct (Hp b ks Hi Hx Hh) as (s & r & E & Hi' & Hc & Hg & Hk). exists s, r. auto 6.
  - destruct Hp as [Hh Hp]. split; [done|]. intros L HL. by apply IH, Hp.
  - destruct Hp as [Hh Hp]. split; [done|]. by apply IH.
  - destruct Hp as [Hh Hp]. split; [done|]. by apply IH.
Qed.

Lemma wp_mono x {A} h (p : prog (Session.State env) A) (Q Q' : option (list Broker.sid) → Session.Session → A → Prop) m :
  (∀ h' m' a, Q h' m' a → Q' h' m' a) → wp x h p Q m → wp x h p Q' m.
Proof.
  intros HQ. revert h m. induction p as [a|C g k IH|k IH|k IH|y d k IH]; intros h m Hp; [by apply HQ|..].
  - intros b ks Hi Hx Hh. destruct (Hp b ks Hi Hx Hh) as (s & r & E & Hi' & Hc & Hg & Hk). exists s, r. auto 6.
  - destruct Hp as [Hh Hp]. split; [done|]. intros L HL. by apply IH, Hp.
  - destruct Hp as [Hh Hp]. split; [done|]. by apply IH.
  - destruct Hp as [Hh Hp]. split; [done|]. by apply IH.
Qed.

(** A broker step leaves the thread's own session as it is. *)
Lemma wp_on_broker x {A} h (f : act (Broker.Broker env) A) (Q : option (list Broker.sid) → Session.Session → A → Prop) m :
  broker_step x f → (h = None → ∀ b, guarded b (fst (f b))) → (∀ a, Q h m a) → wp x h (Programs.on_broker f) Q m.
Proof.
  intros Hf Hg HQ b ks Hi Hx _. destruct (Hf b Hi Hx) as (b' & a & E & Hi' & Hc).
  eexists (Session.mkState m b' ks), a. unfold Session.on_broker, on_part. cbn. rewrite E. split; [done|]. split; [done|].
  split; [done|]. split; [|apply HQ]. intros Hn. specialize (Hg Hn b). by rewrite E in Hg.
Qed.

Lemma wp_writes x h (l : list Broker.sid) d (Q : option (list Broker.sid) → Session.Session → unit → Prop) m :
  (∀ y, y ∈ l → y = x ∨ ∃ L, h = Some L ∧ y ∈ L) → Q h m tt → wp x h (p_for_each l (λ y, write y d)) Q m.
Proof.
  intros Hl HQ. induction l as [|y l IH]; [exact HQ|]. split; [apply Hl; by left|].
  apply IH. intros z Hz. apply Hl. by right.
Qed.

(** *** Handlers *)

(** The fields of the session a handler does not touch. *)
Definition same_private (m m' : Session.Session) : Prop :=
  Session.self m' = Session.self m ∧ Session.recv_buffer_ m' = Session.recv_buffer_ m.

#[local] Instance same_private_refl : Reflexive same_private.
Proof. by intros m. Qed.
#[local] Instance same_private_trans : Transitive same_private.
Proof. intros m1 m2 m3 [? ?] [? ?]. split; congruence. Qed.

Definition psafe (x : Broker.sid) {A} (p : prog (Session.State env) A) : Prop :=
  ∀ m, Session.self m = x → wp x None p (λ h m' _, h = None ∧ same_private m m') m.

Lemma psafe_ret x {A} (a : A) : psafe x (mret a).
Proof. by intros m Hm. Qed.

Lemma psafe_bind x {A B} (p : prog (Session.State env) A) (f : A → prog (Session.State env) B) :
  psafe x p → (∀ a, psafe x (f a)) → psafe x (p ≫= f).
Proof.
  intros Hp Hf m Hm. apply wp_bind. eapply wp_mono; [|by apply Hp]. intros h m1 a [-> Hm1].
  eapply wp_mono; [|apply Hf; destruct Hm1; congruence]. intros h m2 r [-> Hm2]. split; [done|].
  exact (transitivity Hm1 Hm2).
Qed.

Lemma psafe_for_each x {A} (l : list A) (f : A → prog (Session.State env) unit) :
  (∀ y, psafe x (f y)) → psafe x (p_for_each l f).
Proof. intros Hf. induction l; [apply psafe_ret|]. by apply psafe_bind. Qed.

Lemma psafe_on_broker x {A} (f : act (Broker.Broker env) A) :
  broker_step x f → (∀ b, guarded b (fst (f b))) → psafe x (Programs.on_broker f).
Proof. intros Hf Hg m Hm. by apply wp_on_broker. Qed.

Lemma psafe_locked x {A} (f : act (Broker.Broker env) A) : broker_step x f → psafe x (Programs.locked f).
Proof.
  intros Hf m Hm. split; [done|]. intros L HL. change (wp x (Some L) (a ← Programs.on_broker f; _ ← unlock; mret a)
    (λ h m' _, h = None ∧ same_private m m') m). apply wp_bind, wp_on_broker; [done..|].
  intros a. split; [by eexists|]. by split.
Qed.

(** The sessions that [publish] writes to are those it found listed. *)
Lemma psafe_publish x l t d : psafe x (Programs.publish l t d).
Proof.
  intros m Hm. split; [done|]. intros L HL. apply wp_bind, wp_on_broker; [apply publish_step|done|]. intros seq.
  intros b ks Hi Hx Hb. specialize (Hb L eq_refl). eexists _, _. split; [done|]. split; [done|]. split; [done|].
  split; [done|]. cbn [Session.me Session.broker]. apply wp_bind, wp_writes; [|by split].
  intros y Hy. right. exists L. split; [done|]. rewrite <-Hb.
  assert (Hs : ∃ t', y ∈ Broker.subscribers b t').
  { apply elem_of_app in Hy as [Hy|Hy]; rewrite hash_order_perm, elem_of_elements in Hy; by eexists. }
  destruct Hs as [t' Hs]. by apply (Broker.bi_live _ (proj1 Hi) t').
Qed.

Lemma psafe_gets x {A} (f : Session.State env → A) : psafe x (atom (gets f)).
Proof. intros m Hm b ks Hi Hx _. by eexists _, _. Qed.

Lemma psafe_this x {B} (k : Broker.sid → prog (Session.State env) B) : psafe x (k x) → psafe x (Programs.this ≫= k).
Proof.
  intros Hk m Hm b ks Hi Hx _. eexists _, _. split; [done|]. split; [done|]. split; [done|]. split; [done|].
  cbn. rewrite Hm. by apply Hk.
Qed.

Lemma psafe_update_me x f :
  (∀ m, same_private m (f m)) → psafe x (Programs.update_me (env := env) f).
Proof.
  intros Hf m Hm b ks Hi Hx _. eexists _, tt. split; [done|]. split; [done|]. split; [done|]. split; [done|].
  split; [done|]. apply Hf.
Qed.

Lemma psafe_next_sequence x : psafe x (Programs.next_sequence (env := env)).
Proof. intros m Hm b ks Hi Hx _. by eexists _, _. Qed.

(** A step that changes nothing but the key store. *)
Lemma psafe_keystore x (f : Keystore.TrustedKeyStore → Keystore.TrustedKeyStore) :
  psafe x (atom (modify (λ s : Session.State env, s <| Session.keystore ::= f |>))).
Proof. intros m Hm b ks Hi Hx _. by eexists _, _. Qed.

(** A write to the session's own socket. *)
Lemma psafe_write x d : psafe x (write x d).
Proof. intros m Hm. split; [by left|]. by split. Qed.

Lemma psafe_reply x data : psafe x (Programs.send (env := env) data).
Proof.
  apply psafe_bind; [|intros _; apply psafe_this, psafe_write].
  intros m Hm b ks Hi Hx _. destruct (send_step x (Session.self m) data b Hi Hx) as (b' & [] & E & Hi' & Hc).
  injection E as <-. eexists (Session.mkState m _ ks), tt. split; [done|]. split; [exact Hi'|]. split; [exact Hc|]. by split.
Qed.

Lemma psafe_resend x data : psafe x (Programs.resend x data).
Proof. apply psafe_bind; [|intros _; apply psafe_write]. by apply psafe_on_broker; [apply send_step|]. Qed.

Lemma load_range_guarded from to b : guarded b (fst (Programs.load_range (env := env) from to b)).
Proof. unfold Programs.load_range, mbind, act_bind, gets. by destruct (Broker.persistence_ b). Qed.

Create HintDb psafe.
#[local] Hint Resolve subscribe_locked_step unsubscribe_step publish_step handleAck_step registerClient_step
  unregisterClient_step gets_step load_range_step load_range_guarded psafe_ret psafe_gets psafe_next_sequence
  psafe_keystore psafe_publish psafe_resend : psafe.

Ltac psafe_step :=
  lazymatch goal with
  | |- psafe _ (Programs.this ≫= _) => apply psafe_this
  | |- psafe _ (_ ≫= _) => apply psafe_bind; [|intros ?]
  | |- psafe _ (p_for_each _ _) => apply psafe_for_each; intros ?
  | |- psafe _ (Programs.locked _) => apply psafe_locked; solve [eauto with psafe]
  | |- psafe _ (Programs.on_broker _) => apply psafe_on_broker; solve [eauto with psafe | done]
  | |- psafe _ (Programs.update_me _) => by apply psafe_update_me
  | |- psafe _ (Programs.sendBinary _) => apply psafe_reply
  | |- psafe _ (Programs.sendResp _) => apply psafe_reply
  | |- psafe _ (match ?y with _ => _ end) => destruct y
  | |- psafe _ _ => solve [eauto with psafe]
  end.

Lemma subscribe_psafe x t : psafe x (Programs.subscribe x t).
Proof. unfold Programs.subscribe, Programs.replayMessages. repeat psafe_step. Qed.

Lemma replayForClient_psafe x t c : psafe x (Programs.replayMessagesForClient x t c).
Proof. unfold Programs.replayMessagesForClient. repeat psafe_step. Qed.

#[local] Hint Resolve subscribe_psafe replayForClient_psafe : psafe.

Lemma handleBinaryFrame_psafe x clk f : 0 ≤ sequence f < 2 ^ 64 → psafe x (Programs.handleBinaryFrame clk f).
Proof.
  intros Hf. unfold Programs.handleBinaryFrame, Programs.handleSubscribe, Programs.handlePublish, Programs.handleSignedPublish,
    Programs.verify_with_key.
  repeat psafe_step.
Qed.

Lemma handleCommand_psafe x clk v : psafe x (Programs.handleCommand clk v).
Proof.
  unfold Programs.handleCommand.
  repeat first [psafe_step | apply psafe_locked, handleAck_step, u64_range].
Qed.

(** *** The receive loop *)

Definition bounded (m : Session.Session) : Prop := zlen (Session.recv_buffer_ m) ≤ Session.MAX_RECV_BUFFER.

Lemma drain_wp {V} (parse : bytes → outcome (option (V * nat))) P handle fuel x m :
  Session.reads_some parse P → (∀ i v, P v → psafe x (handle i v)) →
  Session.self m = x → (length (Session.recv_buffer_ m) ≤ fuel)%nat →
  wp x None (Programs.drain parse handle fuel)
    (λ h m' _, h = None ∧ Session.self m' = x ∧ (length (Session.recv_buffer_ m') ≤ length (Session.recv_buffer_ m))%nat) m.
Proof.
  intros Hp Hh. revert m. induction fuel as [|fuel IH]; intros m Hx Hlen; cbn [Programs.drain];
    intros b ks Hi Hs _; eexists _, _; do 4 (split; [done|]); cbn;
    destruct (Session.recv_buffer_ m) as [|c rest] eqn:Eb; try (by split; [|split; [|rewrite Eb]]); [simpl in Hlen; lia|].
  destruct (Hp (c :: rest)) as (r & Er & Hr).
  intros b1 ks1 Hi1 Hs1 _. eexists _, r. split; [unfold liftO; by rewrite Er|]. do 3 (split; [done|]).
  destruct r as [[v n]|]; cbn; [|by split; [|split; [|rewrite Eb]]]. destruct Hr as [Hn HP].
  intros b2 ks2 Hi2 Hs2 _. eexists _, tt. do 4 (split; [done|]). cbn.
  apply wp_bind. eapply wp_mono; [|by apply (Hh fuel v HP)]. intros h m3 _ [-> [Hx3 Hb3]]. cbn in Hx3, Hb3.
  assert (Hl3 : length (Session.recv_buffer_ m3) = (length (c :: rest) - n)%nat) by (by rewrite Hb3, Eb, length_drop).
  eapply wp_mono; [|apply IH; [congruence|simpl in *; lia]].
  intros h m4 _ (-> & Hx4 & Hb4). split; [done|]. split; [done|]. simpl in *. lia.
Qed.

(** What holds of the session between two pieces of data. *)
Definition at_rest (x : Broker.sid) (m : Session.Session) : Prop := Session.self m = x ∧ bounded m.

(** A read of the session itself, and a change of it. *)
Lemma wp_own_gets x {A B} h (f : Session.Session → A) (k : A → prog (Session.State env) B) Q m :
  wp x h (k (f m)) Q m → wp x h (atom (gets (λ s : Session.State env, f (Session.me s))) ≫= k) Q m.
Proof. intros Hk b ks Hi Hx _. by eexists _, _. Qed.

Lemma wp_own_update x {B} h f (k : unit → prog (Session.State env) B) Q m :
  wp x h (k tt) Q (f m) → wp x h (Programs.update_me f ≫= k) Q m.
Proof. intros Hk b ks Hi Hx _. by eexists _, _. Qed.

Lemma drain_stage_wp x clk m :
  Session.self m = x →
  wp x None (match Session.protocol_type_ m with
        | Session.UNKNOWN => mret tt
        | Session.RESP =>
            Programs.drain Resp.parse (λ i, Programs.handleCommand (clk i)) (length (Session.recv_buffer_ m))
        | Session.BINARY =>
            Programs.drain BinaryProtocol.parse (λ i, Programs.handleBinaryFrame (clk i)) (length (Session.recv_buffer_ m))
        end)
    (λ h m' _, h = None ∧ Session.self m' = x ∧ (length (Session.recv_buffer_ m') ≤ length (Session.recv_buffer_ m))%nat) m.
Proof.
  intros Hx. destruct (Session.protocol_type_ m); [done| |].
  - eapply drain_wp; [apply Session.resp_reads| |done|done]. intros i v _. apply handleCommand_psafe.
  - eapply drain_wp; [apply Session.binary_reads| |done|done].
    intros i f Hf%frame_wf_spec. apply handleBinaryFrame_psafe, Hf.
Qed.

Lemma on_data_wp x now clk data m :
  at_rest x m → wp x None (Programs.on_data now clk data) (λ h m' _, h = None ∧ at_rest x m') m.
Proof.
  intros [Hx Hb]. apply wp_own_update.
  apply (wp_own_gets x None (λ m, zlen (Session.recv_buffer_ m))). cbn beta.
  destruct (Session.MAX_RECV_BUFFER <? _) eqn:E; reflect_bools.
  { apply wp_bind. eapply wp_mono; [|by apply psafe_reply]. intros h m' _ (-> & Hx' & Hb'). split; [done|].
    split; [exact (eq_trans Hx' Hx)|]. unfold bounded. by rewrite Hb'. }
  apply wp_own_update, (wp_own_gets x None Session.protocol_type_). cbn beta.
  set (m1 := _ <| Session.recv_buffer_ ::= _ |>).
  assert (Hk : ∀ m2, Session.self m2 = x → Session.recv_buffer_ m2 = Session.recv_buffer_ m1 → wp x None
    (p ← atom (gets (λ s : Session.State env, Session.protocol_type_ (Session.me s)));
     fuel ← atom (gets (λ s : Session.State env, length (Session.recv_buffer_ (Session.me s))));
     _ ← match p with
         | Session.UNKNOWN => mret tt
         | Session.RESP => Programs.drain Resp.parse (λ i, Programs.handleCommand (clk i)) fuel
         | Session.BINARY => Programs.drain BinaryProtocol.parse (λ i, Programs.handleBinaryFrame (clk i)) fuel
         end;
     mret true) (λ h m' _, h = None ∧ at_rest x m') m2).
  { intros m2 Hx2 Hb2.
    apply (wp_own_gets x None Session.protocol_type_), (wp_own_gets x None (λ m, length (Session.recv_buffer_ m))).
    apply wp_bind. eapply wp_mono; [|by apply drain_stage_wp]. intros h m3 _ (-> & Hx3 & Hb3). split; [done|].
    split; [done|]. unfold bounded. rewrite Hb2 in Hb3. unfold m1 in Hb3. cbn in E, Hb3. rewrite length_app in Hb3. lia. }
  destruct (bool_decide _); [apply wp_own_update; by apply Hk|by apply Hk].
Qed.

(** *** Leaving *)

(** What [removeSession] does to the connections. *)
Definition removed (x : Broker.sid) b b' : Prop :=
  Broker.sessions_ b' = filter (λ y, y ≠ x) (Broker.sessions_ b) ∧
  Broker.active_connections_ b' = u64 (Broker.active_connections_ b - 1) ∧
  Metrics.active_connections_ (Broker.metrics b') = zlen (Broker.sessions_ b').

(** The steps after the loop: the last one takes the session off the list,
    under the mutex, which is then released. *)
Fixpoint leaves (x : Broker.sid) (h : option (list Broker.sid)) (p : prog (Session.State env) unit)
    (m : Session.Session) : Prop :=
  match p with
  | Done _ | Write _ _ _ => False
  | Lock k => h = None ∧ ∀ L, x ∈ L → leaves x (Some L) k m
  | Unlock k => is_Some h ∧ leaves x None k m
  | Atom f k =>
      ∀ b ks, conc_inv b → x ∈ Broker.sessions_ b →
      ∃ s r, f (Session.mkState m b ks) = (s, Ret r) ∧ conc_inv (Session.broker s) ∧ Session.me s = m ∧
        ((same_conns b (Session.broker s) ∧ (h = None → guarded b (Session.broker s)) ∧ leaves x h (k r) m) ∨
         (is_Some h ∧ removed x b (Session.broker s) ∧ k r = Unlock (Done tt)))
  end.

Lemma removeSession_step x b :
  conc_inv b → x ∈ Broker.sessions_ b →
  Broker.removeSession x b = (fst (Broker.removeSession x b), Ret tt) ∧
  conc_inv (fst (Broker.removeSession x b)) ∧ removed x b (fst (Broker.removeSession x b)).
Proof.
  intros [Hi Hs] Hx. split; [done|]. destruct (Broker.removeSession_inv (settled b) x Hi Hx) as (_ & Hi' & _).
  split; [split; [|done]|done].
  assert (E : settled (fst (Broker.removeSession x b)) = fst (Broker.removeSession x (settled b))); [|by rewrite E].
  assert (Hc : u64 (zlen (Broker.sessions_ b) - 1) = zlen (filter (λ y, y ≠ x) (Broker.sessions_ b)))
    by exact (Broker.bi_conn _ Hi').
  unfold Broker.removeSession, Broker.update_metrics, mbind, act_bind, modify, settled, settle. cbn. by rewrite Hc.
Qed.

Lemma cleanup_leaves x m : Session.self m = x → leaves x None Programs.cleanup m.
Proof.
  intros Hx. assert (Hrm : leaves x None (x ← Programs.this; Programs.locked (Broker.removeSession x)) m).
  { intros b ks Hi Hs. eexists _, _. do 3 (split; [done|]). left. split; [done|]. split; [done|]. cbn. rewrite Hx.
    split; [done|]. intros L HL b1 ks1 Hi1 Hs1. destruct (removeSession_step x b1 Hi1 Hs1) as (E & Hi2 & Hr).
    eexists _, tt. split; [done|]. split; [exact Hi2|]. split; [done|]. right. by split; [eexists|split]. }
  intros b ks Hi Hs. eexists _, _. do 3 (split; [done|]). left. split; [done|]. split; [done|]. cbn.
  destruct (bool_decide (Session.client_id_ m = [])); [exact Hrm|].
  split; [done|]. intros L HL b1 ks1 Hi1 Hs1.
  destruct (unregisterClient_step x (Session.client_id_ m) b1 Hi1 Hs1) as (b2 & [] & E & Hi2 & Hc).
  injection E as <-. eexists (Session.mkState m _ ks1), tt. split; [done|]. split; [exact Hi2|]. split; [done|]. left.
  split; [exact Hc|]. split; [done|]. split; [by eexists|exact Hrm].
Qed.

(** ** The invariant of the system *)

(** The session on the list whose thread is not started, and the one the accept
    loop works for. *)
Definition pending (a : acceptor) : option Broker.sid :=
  match a with Counting s _ | Spawning s _ => Some s | _ => None end.
Definition chosen (a : acceptor) : option Broker.sid :=
  match a with Checking s _ | Pushing s _ | Counting s _ | Spawning s _ => Some s | _ => None end.
Definition uncounted (a : acceptor) : Z := match a with Counting _ _ => 1 | _ => 0 end.
Definition ungauged (a : acceptor) : bool :=
  match a with Selecting | Checking _ _ | Pushing _ _ => false | _ => true end.

(** A thread past [removeSession] is off the list. *)
Definition past (p : prog (Session.State env) unit) : bool :=
  match p with Done _ | Unlock (Done _) => true | _ => false end.
Definition present (t : task env) : bool := match t with Leaving p => negb (past p) | _ => true end.

(** [h]: what the thread holds. *)
Definition thread_ok (h : option (list Broker.sid)) (x : Broker.sid) (th : thread env) : Prop :=
  match doing th with
  | Idle => h = None ∧ at_rest x (session th)
  | Busy p => wp x h p (λ h m _, h = None ∧ at_rest x m) (session th)
  | Leaving (Done _) => h = None
  | Leaving (Unlock (Done _)) => is_Some h
  | Leaving p => leaves x h p (session th)
  end.

Definition held (o : option Broker.sid) b (x : Broker.sid) : option (list Broker.sid) :=
  if bool_decide (o = Some x) then Some (Broker.sessions_ b) else None.

Lemma held_self x b : held (Some x) b x = Some (Broker.sessions_ b).
Proof. unfold held. by rewrite bool_decide_true. Qed.
Lemma held_none o b x : o ≠ Some x → held o b x = None.
Proof. intros ?. unfold held. by rewrite bool_decide_false. Qed.
Lemma held_some o b x : is_Some (held o b x) → o = Some x.
Proof. unfold held. case_bool_decide; [done|]. by intros [? ?]. Qed.

Record sys_inv σ : Prop := {
  si_broker : conc_inv (broker σ);
  si_count : Broker.active_connections_ (broker σ) = zlen (Broker.sessions_ (broker σ)) - uncounted (accepting σ);
  si_gauge : ungauged (accepting σ) = false →
    Metrics.active_connections_ (Broker.metrics (broker σ)) = zlen (Broker.sessions_ (broker σ));
  si_listed x : x ∈ Broker.sessions_ (broker σ) ↔
    (∃ th, threads σ !! x = Some th ∧ present (doing th) = true) ∨ pending (accepting σ) = Some x;
  si_thread x th : threads σ !! x = Some th → thread_ok (held (owner σ) (broker σ) x) x th;
  si_owner x : owner σ = Some x → is_Some (threads σ !! x);
  si_chosen x : chosen (accepting σ) = Some x → threads σ !! x = None;
  si_room s now : accepting σ = Pushing s now → zlen (Broker.sessions_ (broker σ)) < Broker.MAX_CONNECTIONS;
}.

Lemma start_inv e : Storage.store_wf (env_view e) → sys_inv (start e).
Proof.
  intros He. split; try done.
  - split; [exact (Broker.new_broker_inv e He)|by eexists].
  - intros x. cbn. split; [by intros ?%elem_of_nil|]. intros [(th & Ht & _)|?]; [by rewrite lookup_empty in Ht|done].
Qed.

(** The mutex passes between [x] and nobody. *)
Definition passes (x : Broker.sid) (o o' : option Broker.sid) : Prop := ∀ y, y ≠ x → o' = Some y ↔ o = Some y.

Lemma passes_held x o o' b b' y :
  passes x o o' → Broker.sessions_ b' = Broker.sessions_ b → y ≠ x → held o' b' y = held o b y.
Proof.
  intros Ho Hs Hy. unfold held. rewrite Hs. by rewrite (bool_decide_ext _ _ (Ho y Hy)).
Qed.

(** A step of a thread that leaves the connections alone. *)
Lemma thread_step_inv σ x th th' b ks o w :
  sys_inv σ → threads σ !! x = Some th → present (doing th) = true → present (doing th') = true →
  conc_inv b → same_conns (broker σ) b → passes x (owner σ) o → thread_ok (held o b x) x th' →
  sys_inv (mkSys b ks (<[x := th']> (threads σ)) (accepting σ) o w).
Proof.
  intros [] Ht Hp Hp' Hb (Hs & Ha & Hg) Ho Hok. split; cbn; rewrite ?Hs, ?Ha, ?Hg; try done.
  - intros y. rewrite si_listed0. destruct (decide (x = y)) as [<-|Hne]; [|by rewrite lookup_insert_ne].
    rewrite lookup_insert_eq, Ht. naive_solver.
  - intros y th1. rewrite lookup_insert_Some. intros [[<- <-]|[Hne ?]]; [done|].
    rewrite (passes_held x (owner σ) o (broker σ) b) by done. by apply si_thread0.
  - intros y Hy. destruct (decide (x = y)) as [<-|Hne]; [rewrite lookup_insert_eq; by eexists|].
    rewrite lookup_insert_ne by done. apply si_owner0. by apply Ho.
  - intros y Hy. specialize (si_chosen0 y Hy). rewrite lookup_insert_ne; [done|]. intros <-. congruence.
Qed.

Lemma passes_same x o : passes x o o.
Proof. by intros y. Qed.

(** A thread of the system finds its session on the list. *)
Lemma thread_listed σ x th :
  sys_inv σ → threads σ !! x = Some th → present (doing th) = true → x ∈ Broker.sessions_ (broker σ).
Proof. intros Hi Ht Hp. apply (si_listed _ Hi). left. by exists th. Qed.

Lemma set_thread_inv σ x th th' :
  sys_inv σ → threads σ !! x = Some th → present (doing th) = true → present (doing th') = true →
  thread_ok (held (owner σ) (broker σ) x) x th' → sys_inv (set_thread σ x th').
Proof. intros Hi Ht Hp Hp' Hok. by apply (thread_step_inv σ x th th'); try done; apply si_broker. Qed.

Lemma thread_leave_inv σ x th th' b ks w :
  sys_inv σ → threads σ !! x = Some th → present (doing th) = true → present (doing th') = false →
  conc_inv b → removed x (broker σ) b → owner σ = Some x → thread_ok (Some (Broker.sessions_ b)) x th' →
  sys_inv (mkSys b ks (<[x := th']> (threads σ)) (accepting σ) (owner σ) w).
Proof.
  intros Hi Ht Hp Hp' Hb (Hs & Ha & Hg) Ho Hok. pose proof (thread_listed σ x th Hi Ht Hp) as Hx.
  destruct Hi. assert (Hn : NoDup (Broker.sessions_ (broker σ))) by apply (Broker.bi_nodup _ (proj1 si_broker0)).
  assert (Hcap : zlen (Broker.sessions_ (broker σ)) ≤ Broker.MAX_CONNECTIONS) by apply (Broker.bi_cap _ (proj1 si_broker0)).
  pose proof (length_filter_ne _ x Hn Hx) as Hlen.
  assert (Hpx : pending (accepting σ) ≠ Some x).
  { intros E. assert (Hc : chosen (accepting σ) = Some x) by (by destruct (accepting σ)).
    specialize (si_chosen0 x Hc). congruence. }
  assert (Hroom : uncounted (accepting σ) = 1 → (2 ≤ length (Broker.sessions_ (broker σ)))%nat).
  { intros Hu. destruct (accepting σ) as [| | |s now| | |] eqn:Ea; try done.
    assert (Hsl : s ∈ Broker.sessions_ (broker σ)) by (apply si_listed0; by right).
    assert (Hne : s ≠ x) by (intros ->; by apply Hpx).
    assert (s ∈ filter (λ y, y ≠ x) (Broker.sessions_ (broker σ))) by (by apply list_elem_of_filter).
    destruct (filter _ _); [by apply elem_of_nil in H3|simpl in Hlen; lia]. }
  split; cbn; rewrite ?Hs; try done.
  - rewrite Ha, si_count0. assert (uncounted (accepting σ) = 1 ∨ uncounted (accepting σ) = 0) as [Hu|Hu]
      by (destruct (accepting σ); auto); unfold Broker.MAX_CONNECTIONS in *; rewrite u64_small; lia.
  - intros _. by rewrite Hg, Hs.
  - intros y. rewrite list_elem_of_filter, si_listed0. destruct (decide (x = y)) as [<-|Hne].
    + rewrite lookup_insert_eq. split; [by intros [? _]|].
      intros [(th1 & [= <-] & ?)|?]; [congruence|done].
    + rewrite lookup_insert_ne by done. split; [by intros [_ ?]|by intros ?].
  - intros y th1. rewrite Ho, lookup_insert_Some. intros [[<- <-]|[Hne Hy]]; [by rewrite held_self|].
    apply si_thread0 in Hy. rewrite Ho in Hy. by rewrite held_none in * by congruence.
  - intros y. rewrite Ho. intros [= <-]. rewrite lookup_insert_eq. by eexists.
  - intros y Hy. specialize (si_chosen0 y Hy). rewrite lookup_insert_ne; [done|]. intros <-. congruence.
  - intros s now E. specialize (si_room0 s now E). lia.
Qed.

(** *** The steps of a thread *)

(** A step of the program of [x] that changes neither the broker nor the
    session: it takes the mutex, releases it, or writes. *)
Lemma passes_lock x : passes x None (Some x).
Proof. intros y Hy. split; [congruence|done]. Qed.
Lemma passes_unlock x o : o = Some x → passes x o None.
Proof. intros -> y Hy. split; [done|congruence]. Qed.

Lemma leaves_ok x h p m : leaves x h p m → thread_ok h x (mkThread m (Leaving p)) ∧ present (Leaving p) = true.
Proof. destruct p as [| | |[]|]; cbn; try done; by intros [_ []]. Qed.

Lemma leaving_cases x h p m :
  thread_ok h x (mkThread m (Leaving p)) →
  (∃ u, p = Done u ∧ h = None) ∨ (∃ u, p = Unlock (Done u) ∧ is_Some h) ∨ (leaves x h p m ∧ present (Leaving p) = true).
Proof.
  intros Hok. destruct p as [u|C f k|k|k|y d k]; [left; by eexists|by right; right| by right; right| |by right; right].
  destruct k as [u| | | |]; [right; left; by eexists|by right; right..].
Qed.

(** What a step of a program comes to, in a state that satisfies the invariant. *)
Lemma busy_step σ x m p :
  sys_inv σ → threads σ !! x = Some (mkThread m (Busy p)) →
  (∃ go, p = Done go) ∨
  (∃ s o p', advance x p (view σ (mkThread m (Busy p))) (owner σ) = Moved s o p' ∧ sys_inv (store σ x s o (Busy p')) ∧
     (owner σ ≠ Some x → guarded (broker σ) (Session.broker s))) ∨
  (∃ y d k, p = Write y d k ∧ d ≠ [] ∧ y ∈ Broker.sessions_ (broker σ) ∧
     ∀ d' w, sys_inv (mkSys (broker σ) (keystore σ) (<[x := mkThread m (Busy (Write y d' k))]> (threads σ)) (accepting σ) (owner σ) w) ∧
             sys_inv (mkSys (broker σ) (keystore σ) (<[x := mkThread m (Busy k)]> (threads σ)) (accepting σ) (owner σ) w)) ∨
  (∃ k z, p = Lock k ∧ owner σ = Some z ∧ z ≠ x).
Proof.
  intros Hi Ht. pose proof (si_thread _ Hi _ _ Ht) as Hok. pose proof (si_broker _ Hi) as Hb.
  pose proof (thread_listed σ x _ Hi Ht eq_refl) as Hx. unfold thread_ok in Hok. cbn [doing session] in Hok.
  assert (Hown : ∀ p' o w, passes x (owner σ) o → wp x (held o (broker σ) x) p' (λ h m _, h = None ∧ at_rest x m) m →
    sys_inv (mkSys (broker σ) (keystore σ) (<[x := mkThread m (Busy p')]> (threads σ)) (accepting σ) o w)).
  { intros p' o w Ho Hp'. by apply (thread_step_inv σ x _ _ _ _ _ _ Hi Ht). }
  destruct p as [go|C f k|k|k|y d k]; cbn [wp] in Hok.
  - left. by eexists.
  - right. left. destruct (Hok (broker σ) (keystore σ) Hb Hx) as (s & r & E & Hb' & Hc & Hg & Hk).
    { intros L. unfold held. case_bool_decide; by intros [= <-]. }
    exists s, (owner σ), (k r). split; [unfold advance, view; cbn [session]; by rewrite E|]. split.
    + apply (thread_step_inv σ x _ _ _ _ _ _ Hi Ht); try done.
      assert (Hh : held (owner σ) (Session.broker s) x = held (owner σ) (broker σ) x); [|unfold thread_ok; cbn; by rewrite Hh].
      destruct Hc as [Hs _]. unfold held. by rewrite Hs.
    + intros Ho. apply Hg. by apply held_none.
  - destruct Hok as [Hh Hk]. destruct (owner σ) as [z|] eqn:Eo.
    + do 3 right. exists k, z. split; [done|]. split; [done|]. intros ->. by rewrite held_self in Hh.
    + right. left. exists (view σ (mkThread m (Busy (Lock k)))), (Some x), k. cbn [advance]. split; [done|].
      split; [|done]. apply Hown; [apply passes_lock|]. rewrite held_self. by apply Hk.
  - destruct Hok as [Hh Hk]. apply held_some in Hh. right. left.
    exists (view σ (mkThread m (Busy (Unlock k)))), None, k. split; [done|]. split; [|done].
    apply Hown; [by apply passes_unlock|]. by rewrite held_none.
  - destruct Hok as [Hy Hk].
    assert (Hy' : y ∈ Broker.sessions_ (broker σ)).
    { destruct Hy as [->|(L & HL & Hy)]; [done|]. unfold held in HL. case_bool_decide; by simplify_eq. }
    destruct d as [|c d].
    + right. left. exists (view σ (mkThread m (Busy (Write y [] k)))), (owner σ), k. split; [done|]. split; [|done].
      apply Hown; [apply passes_same|done].
    + do 2 right. left. exists y, (c :: d), k. split; [done|]. split; [done|]. split; [done|]. intros d' w.
      split; (apply Hown; [apply passes_same|done]).
Qed.

Lemma leaving_step σ x m p :
  sys_inv σ → threads σ !! x = Some (mkThread m (Leaving p)) →
  (∃ u, p = Done u ∧ owner σ ≠ Some x) ∨
  (∃ s o p', advance x p (view σ (mkThread m (Leaving p))) (owner σ) = Moved s o p' ∧ sys_inv (store σ x s o (Leaving p')) ∧
     (owner σ ≠ Some x → guarded (broker σ) (Session.broker s))) ∨
  (∃ k z, p = Lock k ∧ owner σ = Some z ∧ z ≠ x).
Proof.
  intros Hi Ht. pose proof (si_thread _ Hi _ _ Ht) as Hok. pose proof (si_broker _ Hi) as Hb.
  destruct (leaving_cases _ _ _ _ Hok) as [(u & -> & Hh)|[(u & -> & Hh)|[Hl Hp]]]; clear Hok.
  - left. exists u. split; [done|]. intros E. by rewrite E, held_self in Hh.
  - apply held_some in Hh. right. left. exists (view σ (mkThread m (Leaving (Unlock (Done u))))), None, (Done u).
    split; [done|]. split; [|done]. destruct Hi. split; cbn; try done.
    + intros y. rewrite si_listed0. destruct (decide (x = y)) as [<-|Hne]; [|by rewrite lookup_insert_ne].
      rewrite lookup_insert_eq, Ht. naive_solver.
    + intros y th1. rewrite lookup_insert_Some. intros [[<- <-]|[Hne Hy]]; [done|].
      apply si_thread0 in Hy. by rewrite Hh, held_none in Hy by congruence.
    + intros y Hy. specialize (si_chosen0 y Hy). rewrite lookup_insert_ne; [done|]. intros <-. congruence.
  - pose proof (thread_listed σ x _ Hi Ht Hp) as Hx.
    assert (Hown : ∀ p' o, passes x (owner σ) o → leaves x (held o (broker σ) x) p' m →
      sys_inv (store σ x (view σ (mkThread m (Leaving p))) o (Leaving p'))).
    { intros p' o Ho Hp'. destruct (leaves_ok _ _ _ _ Hp') as [? ?]. by apply (thread_step_inv σ x _ _ _ _ _ _ Hi Ht). }
    destruct p as [u|C f k|k|k|y d k]; cbn [leaves] in Hl; [done|..|done].
    + right. left. destruct (Hl (broker σ) (keystore σ) Hb Hx) as (s & r & E & Hb' & Hm & Hcase).
      exists s, (owner σ), (k r). split; [unfold advance, view; cbn [session]; by rewrite E|].
      destruct Hcase as [(Hc & Hg & Hk)|(Hh & Hr & Hk)].
      * split; [|intros Ho; by apply Hg, held_none]. unfold store. rewrite Hm.
        assert (Hh : held (owner σ) (Session.broker s) x = held (owner σ) (broker σ) x)
          by (unfold held; by rewrite (proj1 Hc)).
        rewrite <-Hh in Hk. destruct (leaves_ok _ _ _ _ Hk) as [? ?].
        apply (thread_step_inv σ x _ _ _ _ _ _ Hi Ht); done.
      * apply held_some in Hh. split; [|done]. unfold store. rewrite Hm, Hk.
        apply (thread_leave_inv σ x _ _ _ _ _ Hi Ht); try done. by eexists.
    + destruct Hl as [Hh Hk]. destruct (owner σ) as [z|] eqn:Eo.
      * right. right. exists k, z. split; [done|]. split; [done|]. intros ->. by rewrite held_self in Hh.
      * right. left. eexists _, (Some x), k. split; [done|]. split; [|done].
        apply Hown; [apply passes_lock|]. rewrite held_self. by apply Hk.
    + destruct Hl as [Hh Hk]. apply held_some in Hh. right. left. eexists _, None, k. split; [done|]. split; [|done].
      apply Hown; [by apply passes_unlock|]. by rewrite held_none.
Qed.

Lemma run_done σ x m go_on :
  sys_inv σ → threads σ !! x = Some (mkThread m (Busy (Done go_on))) →
  sys_inv (set_thread σ x (mkThread m (if go_on : bool then Idle else Leaving Programs.cleanup))) ∧ owner σ ≠ Some x.
Proof.
  intros Hi Ht. pose proof (si_thread _ Hi _ _ Ht) as [Hh [Hx Hb]]. split.
  - apply (set_thread_inv σ x _ _ Hi Ht); [done|by destruct go_on|]. rewrite Hh.
    destruct go_on; [by split|]. by apply leaves_ok, cleanup_leaves.
  - intros E. by rewrite E, held_self in Hh.
Qed.

Lemma run_gone σ x m u :
  sys_inv σ → threads σ !! x = Some (mkThread m (Leaving (Done u))) →
  sys_inv (mkSys (broker σ) (keystore σ) (delete x (threads σ)) (accepting σ) (owner σ) (wires σ)).
Proof.
  intros Hi Ht. pose proof (si_thread _ Hi _ _ Ht) as Hh. cbn in Hh. destruct Hi. split; cbn; try done.
  - intros y. rewrite si_listed0. destruct (decide (x = y)) as [<-|Hne]; [|by rewrite lookup_delete_ne].
    rewrite lookup_delete_eq, Ht. split; (intros [(th & E & Hp)|?]; [|by right]); [|done].
    injection E as <-. done.
  - intros y th. rewrite lookup_delete_Some. intros [_ ?]. by apply si_thread0.
  - intros y Hy. rewrite lookup_delete_ne by (intros <-; by rewrite Hy, held_self in Hh). by apply si_owner0.
  - intros y Hy. rewrite lookup_delete_None. right. by apply si_chosen0.
Qed.

(** A thread that is not in [recv] moves, or waits for a peer or for the owner
    of the mutex. *)
Lemma run_thread_inv σ x th :
  sys_inv σ → threads σ !! x = Some th → doing th ≠ Idle →
  (∃ σ', run_thread x σ = Next σ' ∧ sys_inv σ' ∧ (owner σ ≠ Some x → guarded (broker σ) (broker σ') ∧ (owner σ ≠ None → owner σ' = owner σ)) ∧
     ∀ y, y ≠ x → threads σ' !! y = threads σ !! y) ∨
  (run_thread x σ = Blocked ∧ ∃ y, sending_to (doing th) = Some y ∧ y ∈ Broker.sessions_ (broker σ)) ∨
  (run_thread x σ = Blocked ∧ wants_lock (doing th) = true ∧ ∃ z, owner σ = Some z ∧ z ≠ x).
Proof.
  intros Hi Ht Hd. unfold run_thread. rewrite Ht. destruct th as [m [|p|p]]; cbn [doing session] in *; [done|..].
  - destruct (busy_step σ x m p Hi Ht) as [(go & ->)|[(s & o & p' & E & Hi' & Hg)|[(y & d & k & -> & Hd' & Hy & _)|(k & z & -> & Ho & Hz)]]].
    + left. destruct (run_done σ x m go Hi Ht) as [Hi' Ho]. eexists. split; [done|]. split; [exact Hi'|].
      split; [done|]. intros y Hy. by apply lookup_insert_ne.
    + left. assert (Hp : ∀ go, p ≠ Done go) by (by intros go ->). eexists (store σ x s o (Busy p')).
      split; [destruct p; [by destruct (Hp a)|by rewrite E..]|]. split; [done|]. split; [|intros y Hy; by apply lookup_insert_ne].
      intros Ho. split; [by apply Hg|]. destruct p as [a|C f k|k|k|y [|c d] k]; cbn [advance] in E; [done|..|done].
      * intros _. repeat case_match; simplify_eq. done.
      * by destruct (owner σ).
      * pose proof (si_thread _ Hi _ _ Ht) as [Hh _]. by apply held_some in Hh.
      * intros _. by injection E as <- <- <-.
    + right. left. destruct d as [|c d]; [done|]. split; [done|]. by exists y.
    + right. right. cbn [advance]. rewrite Ho. split; [done|]. split; [done|]. by exists z.
  - destruct (leaving_step σ x m p Hi Ht) as [(u & -> & Ho)|[(s & o & p' & E & Hi' & Hg)|(k & z & -> & Ho & Hz)]].
    + left. eexists. split; [done|]. split; [by eapply run_gone|]. split; [done|]. intros y Hy. by apply lookup_delete_ne.
    + left. eexists (store σ x s o (Leaving p')).
      split; [destruct p; [done|by rewrite E..]|]. split; [done|]. split; [|intros y Hy; by apply lookup_insert_ne].
      intros Ho. split; [by apply Hg|]. pose proof (si_thread _ Hi _ _ Ht) as Hok.
      destruct p as [a|C f k|k|k|y [|c d] k]; cbn [advance] in E; [done|..|done].
      * intros _. repeat case_match; simplify_eq. done.
      * by destruct (owner σ).
      * destruct (leaving_cases _ _ _ _ Hok) as [(? & ? & _)|[(? & _ & Hh)|[[Hh _] _]]]; [done|by apply held_some in Hh..].
      * by destruct (leaving_cases _ _ _ _ Hok) as [(? & ? & _)|[(? & ? & _)|[[] _]]].
    + right. right. cbn [advance]. rewrite Ho. split; [done|]. split; [done|]. by exists z.
Qed.

Lemma run_thread_cases σ x :
  run_thread x σ = Blocked ∨ ∃ th, threads σ !! x = Some th ∧ doing th ≠ Idle.
Proof.
  unfold run_thread. destruct (threads σ !! x) as [[m [|p|p]]|]; [by left| | |by left]; right; by eexists.
Qed.

Lemma send_turn_cases {A} r (p p' : prog (Session.State env) A) y d :
  send_turn r p = Some (y, d, p') → ∃ e k, p = Write y e k ∧ e ≠ [] ∧ (p' = k ∨ ∃ e', p' = Write y e' k).
Proof.
  destruct p as [| | | |z [|c e] k]; cbn; try done. destruct (r <? 0); [intros [= <- <- <-]|].
  - eexists _, _. split; [done|]. split; [done|]. by left.
  - destruct (r <=? _); [|done]. intros [= <- <- <-]. eexists _, _. split; [done|]. split; [done|]. right. by eexists.
Qed.

Lemma send_thread_inv σ x r σ' :
  sys_inv σ → send_thread x r σ = Next σ' →
  sys_inv σ' ∧ broker σ' = broker σ ∧ owner σ' = owner σ ∧ ∀ y, y ≠ x → threads σ' !! y = threads σ !! y.
Proof.
  intros Hi. unfold send_thread. destruct (threads σ !! x) as [[m t]|] eqn:Ht; [|done]. cbn [doing session].
  destruct (send_task r t) as [[[y d] t']|] eqn:E; [|done]. intros [= <-].
  split; [|split; [done|]; split; [done|]; intros z Hz; by apply lookup_insert_ne].
  destruct t as [|p|p]; cbn [send_task] in E; [done|..]; destruct (send_turn r p) as [[[y' d'] p']|] eqn:Es; try done;
    injection E as -> -> <-; destruct (send_turn_cases _ _ _ _ _ Es) as (e & k & -> & He & Hp').
  - destruct (busy_step σ x m _ Hi Ht) as [(go & [=])|[(s & o & p2 & Ea & _)|[(y2 & d2 & k2 & [= <- <- <-] & _ & _ & Hw)|(k2 & z & [=] & _)]]].
    + by destruct e.
    + destruct (Hw [] (<[y := default [] (wires σ !! y) ++ d]> (wires σ))) as [_ ?].
      destruct Hp' as [->|[e' ->]]; [done|]. by destruct (Hw e' (<[y := default [] (wires σ !! y) ++ d]> (wires σ))).
  - pose proof (si_thread _ Hi _ _ Ht) as Hok.
    by destruct (leaving_cases _ _ _ _ Hok) as [(? & ? & _)|[(? & ? & _)|[[] _]]].
Qed.

Lemma receive_inv σ x ev σ' :
  sys_inv σ → receive x ev σ = Next σ' →
  sys_inv σ' ∧ broker σ' = broker σ ∧ owner σ' = owner σ ∧ owner σ ≠ Some x ∧
  (∀ y, y ≠ x → threads σ' !! y = threads σ !! y).
Proof.
  intros Hi. unfold receive. destruct (threads σ !! x) as [[m [| |]]|] eqn:Ht; try done. intros [= <-].
  pose proof (si_thread _ Hi _ _ Ht) as [Hh [Hx Hb]].
  assert (Hl : thread_ok None x (mkThread m (Leaving Programs.cleanup))) by (by apply leaves_ok, cleanup_leaves).
  split.
  - apply (set_thread_inv σ x _ _ Hi Ht); [done|by destruct ev; try case_match|]. rewrite Hh.
    destruct ev as [now| | |now clk data]; [case_match; [done|by repeat split]|done|done|]. by apply on_data_wp.
  - split; [done|]. split; [done|]. split; [intros E; by rewrite E, held_self in Hh|].
    intros y Hy. by apply lookup_insert_ne.
Qed.

(** *** The steps of the accept loop *)

Lemma push_conc b s :
  conc_inv b → s ∉ Broker.sessions_ b → zlen (Broker.sessions_ b) < Broker.MAX_CONNECTIONS →
  conc_inv (b <| Broker.sessions_ ::= λ l, l ++ [s] |>).
Proof.
  intros [[] Hs] Hn Hroom. split; [|done]. split; try done.
  - intros t x Hx. apply elem_of_app. left. by eapply bi_live.
  - cbn. apply NoDup_app. split; [done|]. split; [|apply NoDup_singleton]. set_solver.
  - cbn. rewrite length_app. simpl. lia.
Qed.

Lemma metric_conc b : conc_inv b → conc_inv (b <| Broker.metrics ::= Metrics.incrementConnections |>).
Proof. intros [[] Hs]. split; [|done]. by split. Qed.

(** A step of the accept loop; while a session holds the mutex, it does not
    touch what the mutex guards. *)
Lemma accept_step_inv σ σ' : sys_inv σ → accept_step σ = Next σ' → sys_inv σ'.
Proof.
  intros Hi E. pose proof Hi as []. unfold accept_step in E.
  destruct (accepting σ) as [|s now|s now|s now|s now| |] eqn:Ea; [done|..]; unfold when_free in E.
  - injection E as <-. destruct (Broker.MAX_CONNECTIONS <=? _) eqn:Em; reflect_bools; split; cbn in *; try done.
    intros _ _ _. lia.
  - destruct (owner σ) eqn:Eo; [done|]. injection E as <-.
    assert (Hn : s ∉ Broker.sessions_ (broker σ)).
    { intros [(th & Ht & _)|?]%si_listed0; [|done]. by rewrite (si_chosen0 s eq_refl) in Ht. }
    split; cbn in *; try done.
    + apply push_conc; eauto.
    + rewrite length_app. simpl. lia.
    + intros x. rewrite elem_of_app, si_listed0, list_elem_of_singleton. naive_solver.
    + intros x th Ht. rewrite Eo. by apply si_thread0.
    + by rewrite Eo.
  - injection E as <-. split; cbn in *; try done. rewrite si_count0. rewrite u64_small; [lia|].
    pose proof (Broker.bi_cap _ (proj1 si_broker0)) as Hc. cbn in Hc.
    assert (Hs : s ∈ Broker.sessions_ (broker σ)) by (apply si_listed0; by right).
    unfold Broker.MAX_CONNECTIONS in Hc. destruct (Broker.sessions_ (broker σ)); [by apply elem_of_nil in Hs|simpl in *; lia].
  - injection E as <-. pose proof (si_chosen0 s eq_refl) as Hs. split; cbn in *; try done.
    + intros x. rewrite si_listed0. destruct (decide (s = x)) as [<-|Hne].
      * rewrite lookup_insert_eq. split; [intros _; left; by eexists|by right].
      * rewrite lookup_insert_ne by done. naive_solver.
    + intros x th. rewrite lookup_insert_Some. intros [[<- <-]|[_ ?]]; [|by apply si_thread0].
      rewrite held_none by (intros Eo; apply si_owner0 in Eo as [? ?]; congruence).
      split; [done|]. split; [done|]. by vm_compute.
    + intros x Hx%si_owner0. destruct (decide (s = x)) as [<-|Hne]; [by rewrite lookup_insert_eq; eexists|].
      by rewrite lookup_insert_ne.
  - injection E as <-. split; cbn in *; try done. by apply metric_conc.
  - destruct (owner σ) eqn:Eo; [done|]. injection E as <-. split; cbn in *; try done; rewrite ?Eo; done.
Qed.


Lemma step_inv σ l σ' : sys_inv σ → l ≠ ResetPersistence → step l σ = Next σ' → sys_inv σ'.
Proof.
  intros Hi Hl E. destruct l as [s now| |x ev|x|x r|x|c| |]; cbn [step] in E.
  - destruct (accepting σ) eqn:Ea; try done. destruct (_ || _) eqn:Ef; [done|]. injection E as <-.
    reflect_bools. destruct Hi. rewrite Ea in *. split; cbn; try done. intros x [= <-].
    unfold fresh in *. by reflect_bools.
  - by eapply accept_step_inv.
  - by eapply receive_inv.
  - destruct (run_thread_cases σ x) as [Hb|(th & Ht & Hd)]; [congruence|].
    destruct (run_thread_inv σ x th Hi Ht Hd) as [(σ1 & E1 & Hi1 & _)|[[? _]|[? _]]]; congruence.
  - by eapply send_thread_inv.
  - repeat case_match; done.
  - injection E as <-. by destruct Hi.
  - injection E as <-. destruct Hi as [[[] ?]]. unfold Broker.stop_accepting, mbind, act_bind, gets, modify. cbn.
    destruct (Broker.server_fd_ (broker σ) =? -1); cbn; split; try done; (split; [by split|done]).
  - done.
Qed.

(** No step ends the process, but for a write to a connection that is gone. *)
Lemma step_no_crash σ l : sys_inv σ → l ≠ ResetPersistence → step l σ = Crash → ∃ x, l = BrokenPipe x.
Proof.
  intros Hi Hl. destruct l as [s now| |x ev|x|x r|x|c| |]; cbn [step]; try done.
  - destruct (accepting σ); try done. by destruct (_ || _).
  - unfold accept_step, when_free. destruct (accepting σ); try done; by destruct (owner σ).
  - unfold receive. by destruct (threads σ !! x) as [[m []]|].
  - destruct (run_thread_cases σ x) as [Hb|(th & Ht & Hd)]; [by rewrite Hb|].
    destruct (run_thread_inv σ x th Hi Ht Hd) as [(σ1 & -> & _)|[[-> _]|[-> _]]]; done.
  - unfold send_thread. repeat case_match; done.
  - intros _. by exists x.
Qed.

Lemma reachable_inv e σ : Storage.store_wf (env_view e) → reachable e σ → sys_inv σ.
Proof. intros He. induction 1 as [|σ l σ' _ IH Hl E]; [by apply start_inv|by eapply step_inv]. Qed.

(** With the accept loop at [select], both counters are exact. *)
Lemma settled_id σ : sys_inv σ → accepting σ = Selecting → settled (broker σ) = broker σ.
Proof.
  intros Hi Ha. pose proof (si_count _ Hi) as Hc. pose proof (si_gauge _ Hi) as Hg. rewrite Ha in Hc, Hg.
  specialize (Hg eq_refl). cbn in Hc. rewrite Z.sub_0_r in Hc. unfold settled, settle.
  destruct (broker σ) as [? ? ? ? ? ? ? ? ? ? ? [] ?]. cbn in *. by subst.
Qed.

(** ** Mutual exclusion *)



(** ** Running one thread *)

(** A thread that runs with nothing in its way: its own steps, and writes that
    the kernel takes. *)
Definition goes (z : Broker.sid) (l : label) : bool :=
  match l with Run x => x =? z | Send x r => (x =? z) && (0 <? r) | _ => false end.

Definition only_goes (z : Broker.sid) (ls : list label) : Prop := forallb (goes z) ls = true.

Lemma only_goes_app z l1 l2 : only_goes z l1 → only_goes z l2 → only_goes z (l1 ++ l2).
Proof. unfold only_goes. rewrite forallb_app. by intros -> ->. Qed.

(** [Busy] and [Leaving]: how a thread carries its program. *)
Inductive carrier : ∀ {A}, (prog (Session.State env) A → task env) → Prop :=
| carries_busy : carrier Busy
| carries_leaving : carrier Leaving.

Lemma run_moved {A} (w : prog (Session.State env) A → task env) σ x m p s o p' :
  carrier w → threads σ !! x = Some (mkThread m (w p)) →
  advance x p (view σ (mkThread m (w p))) (owner σ) = Moved s o p' → step (Run x) σ = Next (store σ x s o (w p')).
Proof.
  intros Hw Ht E. cbn [step]. unfold run_thread. rewrite Ht. cbn [doing].
  destruct Hw; destruct p; try done; by rewrite E.
Qed.

Lemma run_send {A} (w : prog (Session.State env) A → task env) σ x m y c d k :
  carrier w → threads σ !! x = Some (mkThread m (w (Write y (c :: d) k))) →
  ∃ σ', steps [Send x (zlen (c :: d)); Run x] σ = Next σ' ∧ threads σ' = <[x := mkThread m (w k)]> (threads σ) ∧
    broker σ' = broker σ ∧ owner σ' = owner σ ∧ accepting σ' = accepting σ.
Proof.
  intros Hw Ht. cbn [steps step]. unfold send_thread. rewrite Ht. cbn [doing session].
  assert (Es : send_turn (zlen (c :: d)) (Write y (c :: d) k) = Some (y, c :: d, Write y [] k)).
  { unfold send_turn. rewrite (proj2 (Z.ltb_ge _ _)), Z.leb_refl by lia. by rewrite Nat2Z.id, firstn_all, drop_all. }
  assert (Et : send_task (zlen (c :: d)) (w (Write y (c :: d) k)) = Some (y, c :: d, w (Write y [] k))).
  { destruct Hw; unfold send_task; by rewrite Es. }
  rewrite Et. clear Es Et. cbv iota beta. unfold run_thread. cbn [threads]. rewrite lookup_insert_eq. cbn [doing].
  destruct Hw; (eexists; split; [done|]); cbn; by rewrite insert_insert_eq.
Qed.

Lemma carrier_done {A} (w : prog (Session.State env) A → task env) σ x m a :
  carrier w → sys_inv σ → threads σ !! x = Some (mkThread m (w (Done a))) → owner σ ≠ Some x.
Proof.
  intros Hw Hi Ht. destruct Hw.
  - by apply (run_done σ x m a Hi Ht).
  - destruct (leaving_step σ x m _ Hi Ht) as [(u & _ & Ho)|[(? & ? & ? & [=] & _)|(? & ? & [=] & _)]]. done.
Qed.

(** The next step of a thread that is not waiting for the mutex. *)
Lemma carrier_step {A} (w : prog (Session.State env) A → task env) σ x m p :
  carrier w → sys_inv σ → threads σ !! x = Some (mkThread m (w p)) → (∀ z, owner σ = Some z → z = x) →
  (∃ a, p = Done a) ∨ (∃ y c d k, p = Write y (c :: d) k) ∨
  ∃ s o p', advance x p (view σ (mkThread m (w p))) (owner σ) = Moved s o p' ∧ sys_inv (store σ x s o (w p')).
Proof.
  intros Hw Hi Ht Ho. destruct Hw.
  - destruct (busy_step σ x m p Hi Ht) as [(go & ->)|[(s & o & p' & E & Hi' & _)|[(y & d & k & -> & Hd & _)|(k & z & -> & Hz & Hne)]]].
    + left. by eexists.
    + right. right. by exists s, o, p'.
    + right. left. destruct d as [|c d]; [done|]. by eexists _, _, _, _.
    + by destruct Hne; apply Ho.
  - destruct (leaving_step σ x m p Hi Ht) as [(u & -> & _)|[(s & o & p' & E & Hi' & _)|(k & z & -> & Hz & Hne)]].
    + left. by eexists.
    + right. right. by exists s, o, p'.
    + by destruct Hne; apply Ho.
Qed.

(** What the rest of the system sees of a thread that runs. *)
Definition apart (x : Broker.sid) σ σ' : Prop :=
  sys_inv σ' ∧ accepting σ' = accepting σ ∧ ∀ y, y ≠ x → threads σ' !! y = threads σ !! y.

Lemma apart_trans x σ1 σ2 σ3 : apart x σ1 σ2 → apart x σ2 σ3 → apart x σ1 σ3.
Proof. intros (_ & Ha & Ht) (Hi & Ha' & Ht'). split; [done|]. split; [congruence|]. intros y Hy. by rewrite Ht', Ht. Qed.

(** What is left of a program after its first step, and who holds the mutex
    then. *)
Definition child {A} (p' p : prog (Session.State env) A) : Prop :=
  match p with
  | Done _ => False
  | Atom _ k => ∃ c, p' = k c
  | Lock k | Unlock k | Write _ _ k => p' = k
  end.

Definition owner_after {A} (x : Broker.sid) (p : prog (Session.State env) A) (o : option Broker.sid) : option Broker.sid :=
  match p with Lock _ => Some x | Unlock _ => None | _ => o end.

Lemma go_step {A} (w : prog (Session.State env) A → task env) σ x m p :
  carrier w → sys_inv σ → threads σ !! x = Some (mkThread m (w p)) → (∀ z, owner σ = Some z → z = x) →
  (∃ a, p = Done a) ∨
  ∃ ls σ' m' p', only_goes x ls ∧ steps ls σ = Next σ' ∧ apart x σ σ' ∧
    threads σ' !! x = Some (mkThread m' (w p')) ∧ child p' p ∧ owner σ' = owner_after x p (owner σ).
Proof.
  intros Hw Hi Ht Ho. destruct (carrier_step w σ x m p Hw Hi Ht Ho) as [?|[(y & c & d & k & ->)|(s & o & p' & E & Hi')]];
    [by left|right..].
  - destruct (run_send w σ x m y c d k Hw Ht) as (σ1 & Hs & Ht1 & Hb1 & Ho1 & Ha1).
    exists [Send x (zlen (c :: d)); Run x], σ1, m, k. split; [unfold only_goes; cbn [forallb goes]; by rewrite Z.eqb_refl|].
    split; [done|]. split; [|by rewrite Ht1, lookup_insert_eq].
    split; [|split; [done|]; intros y' Hy; rewrite Ht1; by apply lookup_insert_ne].
    cbn [steps] in Hs. destruct (step (Send x _) σ) as [σ2| |] eqn:E1; try done.
    destruct (step (Run x) σ2) as [σ3| |] eqn:E2; try done. injection Hs as <-.
    eapply step_inv; [eapply step_inv; [exact Hi| |exact E1]; done| |exact E2]. done.
  - pose proof (run_moved w σ x m p s o p' Hw Ht E) as Hr. exists [Run x], (store σ x s o (w p')), (Session.me s), p'.
    split; [unfold only_goes; cbn; by rewrite Z.eqb_refl|]. cbn [steps]. rewrite Hr. split; [done|].
    split; [split; [done|]; split; [done|]; intros y Hy; by apply lookup_insert_ne|].
    split; [apply lookup_insert_eq|]. clear Hr Hi'. destruct p as [a|C f k|k|k|y [|c d] k]; cbn [advance] in E; try done.
    + destruct (f _) as [s1 [r| |]]; try done. injection E as -> <- <-. split; [by exists r|done].
    + destruct (owner σ); [done|]. by injection E as <- <- <-.
    + by injection E as <- <- <-.
    + by injection E as <- <- <-.
Qed.

(** The thread that holds the mutex releases it, if its writes are taken. *)
Lemma owner_releases {A} (w : prog (Session.State env) A → task env) p : carrier w → ∀ σ x m,
  sys_inv σ → threads σ !! x = Some (mkThread m (w p)) → owner σ = Some x →
  ∃ ls σ', only_goes x ls ∧ steps ls σ = Next σ' ∧ apart x σ σ' ∧ owner σ' = None.
Proof.
  intros Hw. induction p as [a|C f k IH|k IH|k IH|y d k IH]; intros σ x m Hi Ht Ho.
  1: by destruct (carrier_done w σ x m a Hw Hi Ht).
  all: assert (Hself : ∀ z, owner σ = Some z → z = x) by (intros z; congruence).
  all: destruct (go_step w σ x m _ Hw Hi Ht Hself) as [(? & [=])|(ls & σ1 & m1 & p1 & Hls & Hst & Hap & Ht1 & Hc & Ho1)].
  all: cbn [child owner_after] in Hc, Ho1.
  3: by exists ls, σ1.
  all: assert (IH' : ∃ ls' σ', only_goes x ls' ∧ steps ls' σ1 = Next σ' ∧ apart x σ1 σ' ∧ owner σ' = None)
    by (first [subst p1; eapply IH|destruct Hc as [r ->]; eapply (IH r)]; [apply Hap|exact Ht1|congruence]).
  all: destruct IH' as (ls' & σ' & Hls' & Hst' & Hap' & Ho'); exists (ls ++ ls'), σ'.
  all: split; [by apply only_goes_app|]; split; [by rewrite (steps_app _ _ _ _ Hst)|]; split; [by eapply apart_trans|done].
Qed.

(** A thread that nobody stands in the way of finishes what it is doing. *)
Lemma thread_finishes {A} (w : prog (Session.State env) A → task env) p : carrier w → ∀ σ x m,
  sys_inv σ → threads σ !! x = Some (mkThread m (w p)) → (∀ z, owner σ = Some z → z = x) →
  ∃ ls σ' m' a, only_goes x ls ∧ steps ls σ = Next σ' ∧ apart x σ σ' ∧ threads σ' !! x = Some (mkThread m' (w (Done a))) ∧
    owner σ' = None.
Proof.
  intros Hw. induction p as [a|C f k IH|k IH|k IH|y d k IH]; intros σ x m Hi Ht Ho.
  { exists [], σ, m, a. split; [done|]. split; [done|]. split; [done|]. split; [done|].
    pose proof (carrier_done w σ x m a Hw Hi Ht) as Hn. destruct (owner σ) as [z|]; [|done].
    by rewrite (Ho z eq_refl) in Hn. }
  all: destruct (go_step w σ x m _ Hw Hi Ht Ho) as [(? & [=])|(ls & σ1 & m1 & p1 & Hls & Hst & Hap & Ht1 & Hc & Ho1)].
  all: cbn [child owner_after] in Hc, Ho1.
  all: assert (Hself : ∀ z, owner σ1 = Some z → z = x) by (rewrite Ho1; first [done|by intros z [= <-]]).
  all: assert (IH' : ∃ ls' σ' m' a, only_goes x ls' ∧ steps ls' σ1 = Next σ' ∧ apart x σ1 σ' ∧
    threads σ' !! x = Some (mkThread m' (w (Done a))) ∧ owner σ' = None)
    by (first [subst p1; eapply IH|destruct Hc as [r ->]; eapply (IH r)]; [apply Hap|exact Ht1|done]).
  all: destruct IH' as (ls' & σ' & m' & a & Hls' & Hst' & Hap' & Hd); exists (ls ++ ls'), σ', m', a.
  all: split; [by apply only_goes_app|]; split; [by rewrite (steps_app _ _ _ _ Hst)|]; split; [by eapply apart_trans|done].
Qed.

(** First the owner of the mutex, if it is another thread, then [x]. *)
Lemma mutex_freed σ x :
  sys_inv σ → ∃ ls σ', (∀ z, owner σ = Some z → only_goes z ls) ∧ steps ls σ = Next σ' ∧ sys_inv σ' ∧
    accepting σ' = accepting σ ∧ threads σ' !! x = threads σ !! x ∧ (∀ z, owner σ' = Some z → z = x).
Proof.
  intros Hi. destruct (owner σ) as [z|] eqn:Ho; [|exists [], σ; by rewrite Ho].
  destruct (decide (z = x)) as [->|Hne]; [exists [], σ; rewrite Ho; by split_and!; try naive_solver|].
  destruct (si_owner _ Hi z Ho) as [[m t] Ht].
  assert (Hr : ∃ ls σ', only_goes z ls ∧ steps ls σ = Next σ' ∧ apart z σ σ' ∧ owner σ' = None).
  { destruct t as [|p|p]; [|by apply (owner_releases Busy p carries_busy σ z m)
                           |by apply (owner_releases Leaving p carries_leaving σ z m)].
    pose proof (si_thread _ Hi _ _ Ht) as [Hh _]. by rewrite Ho, held_self in Hh. }
  destruct Hr as (ls & σ' & Hls & Hst & (Hi' & Ha & Hth) & Ho'). exists ls, σ'.
  split; [by intros ? [= <-]|]. split; [done|]. split; [done|]. split; [done|]. split; [by apply Hth|]. by rewrite Ho'.
Qed.

(** The end of a thread. *)
Lemma leaving_ends p σ x m :
  sys_inv σ → threads σ !! x = Some (mkThread m (Leaving p)) → (∀ z, owner σ = Some z → z = x) →
  ∃ ls σ', only_goes x ls ∧ steps ls σ = Next σ' ∧ apart x σ σ' ∧ threads σ' !! x = None.
Proof.
  intros Hi Ht Ho. destruct (thread_finishes Leaving p carries_leaving σ x m Hi Ht Ho)
    as (ls & σ1 & m1 & [] & Hls & Hst & Hap & Ht1 & _). pose proof (run_gone σ1 x m1 tt (proj1 Hap) Ht1) as Hi2.
  assert (E : step (Run x) σ1 = Next (mkSys (broker σ1) (keystore σ1) (delete x (threads σ1)) (accepting σ1) (owner σ1) (wires σ1)))
    by (cbn [step]; unfold run_thread; by rewrite Ht1).
  exists (ls ++ [Run x]). eexists. rewrite (steps_app _ _ _ _ Hst). cbn [steps]. rewrite E.
  split; [apply only_goes_app; [done|unfold only_goes; cbn; by rewrite Z.eqb_refl]|]. split; [done|].
  split; [|apply lookup_delete_eq]. eapply apart_trans; [exact Hap|]. split; [exact Hi2|]. split; [done|].
  intros y Hy. by apply lookup_delete_ne.
Qed.

Lemma busy_ends p σ x m :
  sys_inv σ → threads σ !! x = Some (mkThread m (Busy p)) → (∀ z, owner σ = Some z → z = x) →
  ∃ ls σ', only_goes x ls ∧ steps ls σ = Next σ' ∧
    (threads σ' !! x = None ∨ ∃ m', threads σ' !! x = Some (mkThread m' Idle)).
Proof.
  intros Hi Ht Ho. destruct (thread_finishes Busy p carries_busy σ x m Hi Ht Ho)
    as (ls & σ1 & m1 & go & Hls & Hst & Hap & Ht1 & Ho1). destruct (run_done σ1 x m1 go (proj1 Hap) Ht1) as [Hi2 _].
  set (σ2 := set_thread σ1 x _) in Hi2.
  assert (E : steps (ls ++ [Run x]) σ = Next σ2).
  { rewrite (steps_app _ _ _ _ Hst). cbn [steps step]. unfold run_thread. by rewrite Ht1. }
  assert (Hgo : only_goes x (ls ++ [Run x])) by (apply only_goes_app; [done|unfold only_goes; cbn; by rewrite Z.eqb_refl]).
  destruct go.
  - exists (ls ++ [Run x]), σ2. split; [done|]. split; [done|]. right. exists m1. apply lookup_insert_eq.
  - destruct (leaving_ends Programs.cleanup σ2 x m1 Hi2) as (ls' & σ' & Hls' & Hst' & _ & Hd);
      [apply lookup_insert_eq|change (owner σ2) with (owner σ1); by rewrite Ho1|].
    exists ((ls ++ [Run x]) ++ ls'), σ'. split; [by apply only_goes_app|]. rewrite (steps_app _ _ _ _ E). by split; [|left].
Qed.

(** ** Theorems *)

(** C3: The threads of the broker do not disturb each other. In every state that
    any interleaving of sessions, accept loop and key administration reaches
    before the storage is closed, with writes to sockets that wait, are taken
    in part or fail: the broker's invariant holds up to the connection
    counters, which lag by at most the connection being accepted and are exact
    when the accept loop waits; subscribers are live sessions with a thread or
    about to get one; and no step ends the process but a write that raises
    SIGPIPE. A thread that is not in [recv] can take its next step, or is
    writing to the socket of a session that is still there, or waits for the
    mutex, whose owner is then another thread that can take its next step or is
    writing to such a socket: there is no deadlock, and nobody uses a session
    that is gone. *)
Theorem concurrent_safe e σ :
  Storage.store_wf (env_view e) → reachable e σ →
  let moves x := ∃ σ', step (Run x) σ = Next σ' in
  let writes th := ∃ y, sending_to (doing th) = Some y ∧ y ∈ Broker.sessions_ (broker σ) in
  Broker.broker_inv (settled (broker σ)) ∧
  (accepting σ = Selecting → Broker.broker_inv (broker σ)) ∧
  zlen (Broker.sessions_ (broker σ)) - 1 ≤ Broker.active_connections_ (broker σ) ≤ zlen (Broker.sessions_ (broker σ)) ∧
  (∀ t s, s ∈ Broker.subscribers (broker σ) t → is_Some (threads σ !! s) ∨ pending (accepting σ) = Some s) ∧
  (∀ l, l ≠ ResetPersistence → step l σ = Crash → ∃ x, l = BrokenPipe x) ∧
  (∀ x th, threads σ !! x = Some th → doing th ≠ Idle →
     moves x ∨ writes th ∨
     (wants_lock (doing th) = true ∧
      ∃ z thz, owner σ = Some z ∧ z ≠ x ∧ threads σ !! z = Some thz ∧ (moves z ∨ writes thz))).
Proof.
  intros He Hr moves writes. pose proof (reachable_inv e σ He Hr) as Hi. pose proof (si_broker _ Hi) as [Hb _].
  split; [done|]. split; [intros Ha; by rewrite <-(settled_id σ Hi Ha)|]. split; [|split; [|split]].
  - rewrite (si_count _ Hi). destruct (accepting σ); cbn; lia.
  - intros t s Hs. apply (Broker.bi_live _ Hb t s), (si_listed _ Hi) in Hs as [(th & Ht & _)|?]; [left; by eexists|by right].
  - intros l. by apply step_no_crash.
  - assert (Hcase : ∀ x th, threads σ !! x = Some th → doing th ≠ Idle →
      moves x ∨ writes th ∨ (wants_lock (doing th) = true ∧ ∃ z, owner σ = Some z ∧ z ≠ x)).
    { intros x th Ht Hd. destruct (run_thread_inv σ x th Hi Ht Hd) as [(σ' & E & _)|[[_ ?]|[_ ?]]];
        [left; by exists σ'|by right; left|by right; right]. }
    intros x th Ht Hd. destruct (Hcase x th Ht Hd) as [?|[?|[Hl (z & Hz & Hne)]]]; [by left|by right; left|].
    right. right. split; [done|]. destruct (si_owner _ Hi z Hz) as [thz Htz]. exists z, thz. split; [done|]. split; [done|].
    split; [done|]. pose proof (si_thread _ Hi _ _ Htz) as Hok. rewrite Hz, held_self in Hok.
    destruct (Hcase z thz Htz) as [?|[?|[_ (z' & Hz' & Hne')]]]; [|by left|by right|congruence].
    intros Hidle. unfold thread_ok in Hok. rewrite Hidle in Hok. by destruct Hok.
Qed.


(** C14: No request is left hanging by the broker itself: from every reachable
    state, whatever the threads have done before, a thread that has received
    data or is ending reaches the next [recv], or its end, by its own steps
    after those with which the owner of the mutex, if it is another thread,
    releases it; no other thread is needed, and of the sockets only that the
    writes of the two are taken. *)
Theorem requests_finish e σ x th :
  Storage.store_wf (env_view e) → reachable e σ → threads σ !! x = Some th →
  ∃ ls ls' σ', (∀ z, owner σ = Some z → only_goes z ls) ∧ only_goes x ls' ∧ steps (ls ++ ls') σ = Next σ' ∧
    (threads σ' !! x = None ∨ ∃ m, threads σ' !! x = Some (mkThread m Idle)).
Proof.
  intros He Hr Ht. pose proof (reachable_inv e σ He Hr) as Hi.
  destruct (mutex_freed σ x Hi) as (ls & σ1 & Hls & Hst & Hi1 & _ & Ht1 & Ho1). rewrite Ht in Ht1.
  enough (∃ ls' σ', only_goes x ls' ∧ steps ls' σ1 = Next σ' ∧
    (threads σ' !! x = None ∨ ∃ m, threads σ' !! x = Some (mkThread m Idle))) as (ls' & σ' & Hls' & Hst' & Hend).
  { exists ls, ls', σ'. by rewrite (steps_app _ _ _ _ Hst). }
  destruct th as [m [|p|p]].
  - exists [], σ1. split; [done|]. split; [done|]. right. by exists m.
  - by eapply busy_ends.
  - destruct (leaving_ends p σ1 x m Hi1 Ht1 Ho1) as (ls' & σ' & ? & ? & _ & ?). exists ls', σ'. auto.
Qed.

(** C15: Zombie connections are reclaimed: when [recv] times out on a session that
    has been silent for five minutes, its thread ends by its own steps, after
    those with which the owner of the mutex, if there is one, releases it; of
    the sockets only the writes of that owner have to be taken. Nothing of the
    session is left in the broker, whatever the other threads have done
    before. *)
Theorem idle_session_reclaimed e σ x m now :
  Storage.store_wf (env_view e) → reachable e σ → threads σ !! x = Some (mkThread m Idle) →
  Session.SESSION_IDLE_TIMEOUT_S ≤ now - Session.last_activity_ m →
  ∃ ls ls' σ', (∀ z, owner σ = Some z → only_goes z ls) ∧ only_goes x ls' ∧
    steps (Receive x (Session.RecvTimeout now) :: ls ++ ls') σ = Next σ' ∧
    threads σ' !! x = None ∧ (x ∉ Broker.sessions_ (broker σ')) ∧
    (∀ t, x ∉ Broker.subscribers (broker σ') t).
Proof.
  intros He Hr Ht Hnow. pose proof (reachable_inv e σ He Hr) as Hi.
  set (σ1 := set_thread σ x (mkThread m (Leaving Programs.cleanup))).
  assert (E : step (Receive x (Session.RecvTimeout now)) σ = Next σ1).
  { cbn [step]. unfold receive. rewrite Ht. by rewrite (proj2 (Z.leb_le _ _) Hnow). }
  assert (Hi1 : sys_inv σ1) by (eapply step_inv; [exact Hi| |exact E]; discriminate).
  destruct (mutex_freed σ1 x Hi1) as (ls & σ2 & Hls & Hst & Hi2 & Ha2 & Ht2 & Ho2).
  assert (Hx : threads σ2 !! x = Some (mkThread m (Leaving Programs.cleanup))) by (rewrite Ht2; apply lookup_insert_eq).
  destruct (leaving_ends Programs.cleanup σ2 x m Hi2 Hx Ho2) as (ls' & σ' & Hls' & Hst' & (Hi' & Ha & _) & Hd).
  exists ls, ls', σ'. split; [exact Hls|]. split; [done|]. cbn [steps]. rewrite E, (steps_app _ _ _ _ Hst). split; [done|].
  split; [done|].
  assert (Hout : x ∉ Broker.sessions_ (broker σ')).
  { rewrite (si_listed _ Hi'), Ha, Ha2, Hd. intros [(th & ? & _)|Hp]; [done|]. cbn in Hp.
    assert (Hc : chosen (accepting σ) = Some x) by (by destruct (accepting σ)).
    by rewrite (si_chosen _ Hi x Hc) in Ht. }
  split; [done|]. intros t Hs. by apply Hout, (Broker.bi_live _ (proj1 (si_broker _ Hi')) t).
Qed.
End invariant.

Lemma steps_reachable `{LmdbOps env txn} `{HashOrder} `{Sodium} (e : env) ls σ σ' :
  reachable e σ → forallb storage_open ls = true → steps ls σ = Next σ' → reachable e σ'.
Proof.
  revert σ. induction ls as [|l ls IH]; intros σ Hr Hn E; [by injection E as <-|].
  cbn [forallb] in Hn. apply andb_true_iff in Hn as [Hl Hn]. cbn [steps] in E. destruct (step l σ) as [σ1| |] eqn:E1; try done.
  apply (IH σ1); [|done|done]. eapply reach_step; [done| |done]. by intros ->.
Qed.

(** ** Following one thread

    The labels of a thread that takes [n] steps, and where they lead: the state
    the thread sees, the owner of the mutex and what is left to do. *)

Definition runs (x : Broker.sid) (n : nat) : list label := replicate n (Run x).

Lemma runs_open x n : forallb storage_open (runs x n) = true.
Proof. by induction n. Qed.

Section follow.
Context `{LmdbLaws env txn} `{HashOrder} `{Sodium}.
Implicit Types σ : sys env.

Abbreviation point := (Session.State env * option Broker.sid * prog (Session.State env) bool)%type.

Definition at_point σ (x : Broker.sid) (q : point) : sys env := let '(s, o, p) := q in store σ x s o (Busy p).

Definition follows σ (x : Broker.sid) (q : point) (n : nat) (q' : point) : Prop :=
  steps (runs x n) (at_point σ x q) = Next (at_point σ x q').

Lemma follow_step σ x s o p s' o' p' n q :
  advance x p s o = Moved s' o' p' → follows σ x (s', o', p') n q → follows σ x (s, o, p) (S n) q.
Proof.
  intros E Hn. unfold follows in *. cbn [runs replicate steps].
  rewrite (run_moved Busy (at_point σ x (s, o, p)) x (Session.me s) p s' o' p' carries_busy (lookup_insert_eq _ _ _)).
  - rewrite <-Hn. cbn [at_point]. unfold store. cbn. by rewrite insert_insert_eq.
  - rewrite <-E. by destruct s.
Qed.

Lemma follow_atom σ x s o {C} (f : act (Session.State env) C) k s' c n q :
  f s = (s', Ret c) → follows σ x (s', o, k c) n q → follows σ x (s, o, Atom f k) (S n) q.
Proof. intros E. apply follow_step. cbn [advance]. by rewrite E. Qed.

Lemma follow_lock σ x s k n q : follows σ x (s, Some x, k) n q → follows σ x (s, None, Lock k) (S n) q.
Proof. by apply follow_step. Qed.

Lemma follow_unlock σ x s o k n q : follows σ x (s, None, k) n q → follows σ x (s, o, Unlock k) (S n) q.
Proof. by apply follow_step. Qed.

Lemma on_broker_returns {C} (f : act (Broker.Broker env) C) s b r :
  f (Session.broker s) = (b, r) → Session.on_broker f s = (Session.mkState (Session.me s) b (Session.keystore s), r).
Proof. intros E. unfold Session.on_broker, on_part. by rewrite E. Qed.

Lemma follow_refl σ x q : follows σ x q 0 q.
Proof. done. Qed.

Lemma follow_trans σ x q1 n1 q2 n2 q3 : follows σ x q1 n1 q2 → follows σ x q2 n2 q3 → follows σ x q1 (n1 + n2) q3.
Proof.
  unfold follows, runs. intros E1 E2. rewrite replicate_add. by rewrite (steps_app _ _ _ _ E1).
Qed.

(** What [on_data] does around the handler of a frame. *)
Definition then_drain (clk : Session.clock) (fuel : nat) (p : prog (Session.State env) unit) : prog (Session.State env) bool :=
  _ ← (_ ← p; Programs.drain BinaryProtocol.parse (λ _, Programs.handleBinaryFrame clk) fuel); mret true.

(** A session that waits between frames of a binary connection. *)
Definition waiting σ (x : Broker.sid) (m : Session.Session) : Prop :=
  threads σ !! x = Some (mkThread m Idle) ∧ Session.recv_buffer_ m = [] ∧ Session.protocol_type_ m ≠ Session.RESP.

(** The frame that arrives is parsed and its handler comes to run. *)
Lemma follow_on_data σ x m b ks o now clk f :
  Session.recv_buffer_ m = [] → Session.protocol_type_ m ≠ Session.RESP →
  frame_wf f = true → zlen (serialize f) ≤ Session.MAX_RECV_BUFFER →
  ∃ n fuel m', Session.self m' = Session.self m ∧ Session.sequence_ m' = Session.sequence_ m ∧
    follows σ x (Session.mkState m b ks, o, Programs.on_data now (λ _, clk) (serialize f)) n
      (Session.mkState m' b ks, o, then_drain clk fuel (Programs.handleBinaryFrame clk f)).
Proof.
  intros Hb Hp Hf Hl. pose proof (Session.parse_serialize_frame f Hf) as Hparse.
  destruct m as [self prot seq cid buf la]. cbn in Hb, Hp. subst buf.
  assert (Hne : ∃ c d, serialize f = c :: d ∧ Session.detectProtocol (c :: d) = Session.BINARY).
  { apply frame_wf_spec, wf_version in Hf. rewrite serialize_layout. unfold header. rewrite Hf. by eexists _, _. }
  destruct Hne as (c & d & El & Hdet). rewrite El in *.
  assert (Hfit : (Session.MAX_RECV_BUFFER <? zlen (@nil char) + zlen (c :: d)) = false) by (apply Z.ltb_ge; exact Hl).
  exists (match prot with Session.UNKNOWN => 10%nat | _ => 9%nat end), (length d).
  exists (Session.mkSession self Session.BINARY seq cid [] now). split; [done|]. split; [done|].
  destruct prot; [|done|].
  all: do 2 (eapply follow_atom; [done|]); cbv beta; cbn [Session.me Session.recv_buffer_ set_field]; rewrite Hfit.
  - do 3 (eapply follow_atom; [done|]). cbn -[Session.detectProtocol Programs.drain]. rewrite Hdet.
    do 3 (eapply follow_atom; [done|]). cbn -[BinaryProtocol.parse]. eapply follow_atom; [unfold liftO; by rewrite Hparse|].
    eapply follow_atom; [done|]. cbn. by rewrite drop_all.
  - do 2 (eapply follow_atom; [done|]). cbn -[Session.detectProtocol Programs.drain].
    do 3 (eapply follow_atom; [done|]). cbn -[BinaryProtocol.parse]. eapply follow_atom; [unfold liftO; by rewrite Hparse|].
    eapply follow_atom; [done|]. cbn. by rewrite drop_all.
Qed.

Lemma frame_arrives σ x m now clk f :
  waiting σ x m → frame_wf f = true → zlen (serialize f) ≤ Session.MAX_RECV_BUFFER →
  ∃ n fuel m', Session.self m' = Session.self m ∧ Session.sequence_ m' = Session.sequence_ m ∧
    steps (Receive x (Session.RecvData now (λ _, clk) (serialize f)) :: runs x n) σ =
      Next (at_point σ x (Session.mkState m' (broker σ) (keystore σ), owner σ,
              then_drain clk fuel (Programs.handleBinaryFrame clk f))).
Proof.
  intros (Ht & Hb & Hp) Hf Hl.
  destruct (follow_on_data σ x m (broker σ) (keystore σ) (owner σ) now clk f Hb Hp Hf Hl) as (n & fuel & m' & Hs & Hq & E).
  exists n, fuel, m'. split; [done|]. split; [done|]. cbn [steps step]. unfold receive. by rewrite Ht.
Qed.

(** The session that waits is one of the broker's. *)
Lemma waiting_listed σ x m :
  sys_inv σ → waiting σ x m → Session.self m = x ∧ x ∈ Broker.sessions_ (broker σ).
Proof.
  intros Hi (Ht & _). pose proof (si_thread _ Hi _ _ Ht) as [_ [Hx _]]. split; [done|].
  apply (si_listed _ Hi). left. by eexists.
Qed.

(** The load through a pointer that has been reset. *)
Lemma load_after_reset σ x s o from to k :
  steps [Stop; ResetPersistence; Run x]
    (at_point σ x (s, o, Atom (Session.on_broker (Programs.load_range from to)) k)) = Crash.
Proof.
  cbn [steps step at_point]. unfold run_thread, Broker.stop_accepting, mbind, act_bind, gets, modify.
  cbn. destruct (Broker.server_fd_ (Session.broker s) =? -1); cbn; by rewrite lookup_insert_eq.
Qed.

(** A subscriber that has tested the pointer and is about to use it. *)
Lemma follow_subscribe σ x m b ks clk fuel f :
  conc_inv b → Session.self m = x → x ∈ Broker.sessions_ b → command f = CMD_SUBSCRIBE →
  find_first [Storage.NUL] (topic f) = None →
  ∃ b' k, follows σ x (Session.mkState m b ks, None, then_drain clk fuel (Programs.handleBinaryFrame clk f)) 5
    (Session.mkState m b' ks, None,
     Atom (Session.on_broker (Programs.load_range 0 (u64 Broker.MAX_STORED_MESSAGES))) k).
Proof.
  intros Hb Hx Hin Hc Hnul. unfold then_drain, Programs.handleBinaryFrame, Programs.handleSubscribe. rewrite Hc, Hnul.
  destruct (subscribe_locked_step x (topic f) b Hb Hin) as (b' & [] & E & [_ [e He]] & _).
  exists b'. eexists. eapply follow_atom; [done|]. cbn [Session.me]. rewrite Hx. eapply follow_lock.
  eapply follow_atom; [by apply on_broker_returns|]. eapply follow_unlock.
  eapply follow_atom; [done|]. cbn [Session.broker set_field]. rewrite He. apply follow_refl.
Qed.

(** A signed frame whose key is known and whose signature is good. *)
Definition well_signed (ks : Keystore.TrustedKeyStore) (f : BinaryFrame) (k : Keystore.TrustedKey) : Prop :=
  Keystore.keys_ ks !! key_id f = Some k ∧ Keystore.enabled k = true ∧
  Signing.verify (topic f ++ payload f) (signature f) (Keystore.public_key k) = true.

(** What is left when the signature has been verified. *)
Lemma follow_signed σ x m b ks o clk fuel f k :
  command f = CMD_SIGNED_PUBLISH → well_signed ks f k →
  ∃ p, follows σ x (Session.mkState m b ks, o, then_drain clk fuel (Programs.handleBinaryFrame clk f)) 2
    (Session.mkState m b (Keystore.touch (Session.wall clk) ks (key_id f)), o, p) ∧
    (∀ ks' k', Keystore.keys_ ks' !! key_id f = Some k' → Keystore.allowed_topics k' ≠ [] →
       Session.topic_ok (Keystore.allowed_topics k') (topic f) = false →
       ∃ p', follows σ x (Session.mkState m b ks', o, p) 2
         (Session.mkState m (fst (Broker.send (Session.self m)
            (serialize (frame_error (lit "Key not authorized for topic '" ++ topic f ++ lit "'"))) b)) ks', o, p')) ∧
    (∀ ks' b' q, Keystore.keys_ ks' !! key_id f = None → o = None →
       let relayed := serialize (frame_signed_message (topic f) (payload f) (signature f) (key_id f)
                                   (u64 (Session.sequence_ m + 1))) in
       Broker.publish (Session.latency clk) (topic f) relayed b = (b', Ret q) →
       ∃ m' o' p', follows σ x (Session.mkState m b ks', o, p) 4 (Session.mkState m' b' ks', o', p')).
Proof.
  intros Hc (Hk & Hen & Hv). unfold then_drain, Programs.handleBinaryFrame, Programs.handleSignedPublish, Programs.verify_with_key.
  rewrite Hc. eexists. split; [|split].
  - eapply follow_atom; [done|]. unfold Keystore.get_key. cbn [Session.keystore]. rewrite Hk, Hen. cbn [negb]. rewrite Hv.
    eapply follow_atom; [done|]. apply follow_refl.
  - intros ks' k' Hk' Hne Hout. eexists. eapply follow_atom; [done|]. unfold Keystore.get_key_info.
    cbn [Session.keystore]. rewrite Hk', bool_decide_false, Hout by done. cbn [negb].
    eapply follow_atom; [done|]. apply follow_refl.
  - cbv zeta. intros ks' b' q Hk' -> E. do 3 eexists. eapply follow_atom; [done|]. unfold Keystore.get_key_info.
    cbn [Session.keystore]. rewrite Hk'. cbn [negb]. eapply follow_atom; [done|]. eapply follow_lock.
    eapply follow_atom; [|apply follow_refl]. by apply on_broker_returns.
Qed.

(** *** Theorems *)

(** C35: Closing the storage is not synchronised with the sessions. From every
    state the broker can reach, whatever binary session waits between frames
    and whatever topic a client then subscribes to on it while nobody holds
    the mutex: there is a point at which its thread has tested the pointer to
    the storage, and at which it goes on if nothing comes between; if
    [Broker::stop] resets the pointer there, the thread's next step
    dereferences null and the process crashes in its graceful shutdown. *)
Theorem stop_race_crashes e σ x m now clk f :
  Storage.store_wf (env_view e) → reachable e σ → waiting σ x m → owner σ = None →
  command f = CMD_SUBSCRIBE → find_first [Storage.NUL] (topic f) = None →
  frame_wf f = true → zlen (serialize f) ≤ Session.MAX_RECV_BUFFER →
  ∃ n, let received := Receive x (Session.RecvData now (λ _, clk) (serialize f)) :: runs x n in
    (∃ σ', steps (received ++ [Run x]) σ = Next σ') ∧
    steps (received ++ [Stop; ResetPersistence; Run x]) σ = Crash.
Proof.
  intros He Hr Hw Ho Hc Hnul Hf Hl. pose proof (reachable_inv e σ He Hr) as Hi.
  destruct (waiting_listed σ x m Hi Hw) as [Hself Hin].
  destruct (frame_arrives σ x m now clk f Hw Hf Hl) as (n & fuel & m' & Hs & _ & E). rewrite Ho in E.
  destruct (follow_subscribe σ x m' (broker σ) (keystore σ) clk fuel f (si_broker _ Hi)) as (b' & k & E'); [congruence|done..|].
  exists (n + 5)%nat. cbv zeta. set (received := Receive x _ :: _).
  assert (Hrec : steps received σ = Next (at_point σ x (Session.mkState m' b' (keystore σ), None,
    Atom (Session.on_broker (Programs.load_range 0 (u64 Broker.MAX_STORED_MESSAGES))) k))).
  { subst received. unfold runs. rewrite replicate_add, app_comm_cons, (steps_app _ _ _ _ E). exact E'. }
  split; [|rewrite (steps_app _ _ _ _ Hrec); apply load_after_reset].
  assert (Hi' : sys_inv (at_point σ x (Session.mkState m' b' (keystore σ), None,
    Atom (Session.on_broker (Programs.load_range 0 (u64 Broker.MAX_STORED_MESSAGES))) k))).
  { apply (reachable_inv e); [done|]. eapply steps_reachable; [exact Hr| |exact Hrec].
    apply runs_open. }
  destruct (carrier_step Busy _ x m' _ carries_busy Hi' (lookup_insert_eq _ _ _)) as [(? & [=])|[(? & ? & ? & ? & [=])|(s & o & p' & Ea & _)]];
    [done|].
  eexists. rewrite (steps_app _ _ _ _ Hrec). cbn [steps].
  by rewrite (run_moved Busy _ x m' _ s o p' carries_busy (lookup_insert_eq _ _ _) Ea).
Qed.

(** C36: The scope of a key is read in a critical section of its own, after the
    one in which the signature was verified. From every state the broker can
    reach, for every enabled key with a restricted scope, and every frame that
    key signed for a topic outside it, received while nobody holds the mutex:
    left alone, the session answers the error and the broker publishes
    nothing; if the key is removed from the store after the verification, the
    broker publishes the message on the topic the key was never allowed. *)
Theorem scope_check_races e σ x m now clk f k :
  Storage.store_wf (env_view e) → reachable e σ → waiting σ x m → owner σ = None →
  command f = CMD_SIGNED_PUBLISH → frame_wf f = true → zlen (serialize f) ≤ Session.MAX_RECV_BUFFER →
  well_signed (keystore σ) f k → Keystore.allowed_topics k ≠ [] →
  Session.topic_ok (Keystore.allowed_topics k) (topic f) = false →
  let refused := serialize (frame_error (lit "Key not authorized for topic '" ++ topic f ++ lit "'")) in
  let relayed := serialize (frame_signed_message (topic f) (payload f) (signature f) (key_id f)
                              (u64 (Session.sequence_ m + 1))) in
  ∃ n, let received := Receive x (Session.RecvData now (λ _, clk) (serialize f)) :: runs x n in
    (∃ σ', steps (received ++ runs x 2) σ = Next σ' ∧ broker σ' = fst (Broker.send x refused (broker σ))) ∧
    (∃ σ' q, steps (received ++ Keys (Keystore.Remove (key_id f)) :: runs x 4) σ = Next σ' ∧
       Broker.publish (Session.latency clk) (topic f) relayed (broker σ) = (broker σ', Ret q)).
Proof.
  intros He Hr Hw Ho Hc Hf Hl Hk Hne Hout refused relayed. pose proof (reachable_inv e σ He Hr) as Hi.
  destruct (waiting_listed σ x m Hi Hw) as [Hself Hin].
  destruct (frame_arrives σ x m now clk f Hw Hf Hl) as (n & fuel & m' & Hs & Hq & E).
  destruct (follow_signed σ x m' (broker σ) (keystore σ) (owner σ) clk fuel f k Hc Hk) as (p & E2 & Halone & Hraced).
  exists (n + 2)%nat. cbv zeta. set (received := Receive x _ :: _).
  assert (Hrec : steps received σ = Next (at_point σ x (Session.mkState m' (broker σ)
    (Keystore.touch (Session.wall clk) (keystore σ) (key_id f)), owner σ, p))).
  { subst received. unfold runs. rewrite replicate_add, app_comm_cons, (steps_app _ _ _ _ E). exact E2. }
  split.
  - destruct (Halone (Keystore.touch (Session.wall clk) (keystore σ) (key_id f)) (Keystore.set_last_used (Session.wall clk) k))
      as (p' & E3); [|done..|].
    { unfold Keystore.touch. rewrite (proj1 Hk). cbn. apply lookup_insert_eq. }
    eexists. rewrite (steps_app _ _ _ _ Hrec). split; [exact E3|]. cbn. by rewrite Hs, Hself.
  - destruct (publish_step x (Session.latency clk) (topic f) relayed (broker σ) (si_broker _ Hi) Hin) as (b' & q & Ep & _).
    destruct (Hraced (fst (Keystore.remove_key (Keystore.touch (Session.wall clk) (keystore σ) (key_id f)) (key_id f))) b' q)
      as (m'' & o' & p' & E3); [cbn; apply lookup_delete_eq|done|by rewrite Hq|].
    eexists _, q. rewrite (steps_app _ _ _ _ Hrec). cbn [steps step]. split; [exact E3|exact Ep].
Qed.
End follow.

(** ** Executions *)

(** The labels of a client that connects. *)
Definition connect (s : Broker.sid) : list label := Connect s 0 :: replicate 6 Accept.
Definition data_of (f : BinaryFrame) : Session.recv_event :=
  Session.RecvData 1 (λ _, Session.noon) (serialize f).

#[local] Existing Instance Broker.ElementsOrder.
#[local] Existing Instance ToySodium.

Definition empty_system : sys MemLmdb := start ∅.

Definition after (ls : list label) : sys MemLmdb :=
  match steps ls empty_system with Next σ => σ | _ => empty_system end.

Lemma after_steps ls : is_next (steps ls empty_system) = true → steps ls empty_system = Next (after ls).
Proof. unfold after. by destruct (steps ls empty_system). Qed.

Lemma after_reachable ls :
  forallb storage_open ls = true → is_next (steps ls empty_system) = true → reachable (∅ : MemLmdb) (after ls).
Proof. intros Ho Hn. apply (steps_reachable _ ls empty_system); [constructor|done|by apply after_steps]. Qed.

Lemma empty_wf : Storage.store_wf (env_view (∅ : MemLmdb)).
Proof. apply (Broker.bi_store _ Broker.empty_broker_inv). reflexivity. Qed.

(** One session has subscribed and does not read; another publishes, and holds
    the mutex while it writes to the first; the first asks for more, and a third
    client connects. *)
Definition subscribed : list label :=
  connect 1 ++ [Receive 1 (data_of (frame_subscribe (lit "t") 1))] ++ runs 1 18 ++ [Send 1 16] ++ runs 1 3.
Definition stalled : list label :=
  subscribed ++ connect 2 ++ [Receive 2 (data_of (frame_publish (lit "t") (lit "21") 1))] ++ runs 2 14.
Definition others : list label :=
  [Receive 1 (data_of (frame_subscribe (lit "u") 2))] ++ runs 1 10 ++ [Connect 3 2; Accept].

Lemma stalled_reachable : reachable (∅ : MemLmdb) (after stalled).
Proof. apply after_reachable; vm_compute; reflexivity. Qed.

Lemma crowded_reachable : reachable (∅ : MemLmdb) (after (stalled ++ others)).
Proof. apply after_reachable; vm_compute; reflexivity. Qed.

(** A session that has connected and sent nothing. *)
Lemma waiting_reachable : reachable (∅ : MemLmdb) (after (connect 1)).
Proof. apply after_reachable; vm_compute; reflexivity. Qed.

(** A device whose key is for topics under ["sensors/"], and a frame it signs for
    ["secure/a"]. *)
Definition device : Signing.KeyPair := Signing.generate_keypair_from_seed (lit "k").
Definition device_key : Keystore.TrustedKey :=
  Keystore.mkKey (Signing.kp_public_key device) 1 (lit "dev") (lit "sensors/*") true 5 0.
Definition out_of_scope : BinaryFrame :=
  frame_signed_publish (lit "secure/a") (lit "21")
    (Signing.sign (lit "secure/a" ++ lit "21") (Signing.kp_secret_key device)) 1 9.
Definition registered : list label :=
  Keys (Keystore.RegisterAuto 5 (Signing.kp_public_key device) (lit "dev") (lit "sensors/*")) :: connect 1.

Lemma registered_reachable : reachable (∅ : MemLmdb) (after registered).
Proof. apply after_reachable; vm_compute; reflexivity. Qed.

(** ** Witnesses *)

Lemma concurrent_safe_witness : Broker.broker_inv (broker (after stalled)).
Proof.
  destruct (concurrent_safe ∅ (after stalled) empty_wf stalled_reachable) as (_ & Hb & _).
  apply Hb. vm_compute. reflexivity.
Defined.


Lemma idle_session_reclaimed_witness :
  ∃ ls ls' σ', only_goes 1 ls' ∧
    steps (Receive 1 (Session.RecvTimeout 301) :: ls ++ ls') (after stalled) = Next σ' ∧ threads σ' !! 1 = None.
Proof.
  destruct (idle_session_reclaimed ∅ (after stalled) 1 (Session.mkSession 1 Session.BINARY 0 [] [] 1) 301 empty_wf
    stalled_reachable) as (ls & ls' & σ' & _ & Hg & E & Hd & _).
  - vm_compute. reflexivity.
  - vm_compute. discriminate.
  - exact (ex_intro _ ls (ex_intro _ ls' (ex_intro _ σ' (conj Hg (conj E Hd))))).
Defined.

Lemma requests_finish_witness :
  ∃ ls ls' σ', only_goes 1 ls' ∧ steps (ls ++ ls') (after (stalled ++ others)) = Next σ' ∧
    (threads σ' !! 1 = None ∨ ∃ m, threads σ' !! 1 = Some (mkThread m Idle)).
Proof.
  destruct (threads (after (stalled ++ others)) !! 1) as [th|] eqn:Ht.
  - destruct (requests_finish ∅ (after (stalled ++ others)) 1 th empty_wf crowded_reachable Ht)
      as (ls & ls' & σ' & _ & Hg & E & Hd).
    exact (ex_intro _ ls (ex_intro _ ls' (ex_intro _ σ' (conj Hg (conj E Hd))))).
  - exfalso. assert (Hs : bool_decide (threads (after (stalled ++ others)) !! 1 = None) = true);
      [|vm_compute in Hs; discriminate]. by apply bool_decide_true.
Defined.

Lemma first_waits ls :
  threads (after ls) !! 1 = Some (mkThread (Session.new_session 1 0) Idle) →
  waiting (after ls) 1 (Session.new_session 1 0).
Proof. intros E. split; [exact E|]. split; [reflexivity|discriminate]. Qed.

Lemma stop_race_crashes_witness :
  ∃ n, steps (Receive 1 (Session.RecvData 1 (λ _, Session.noon) (serialize (frame_subscribe (lit "t") 1))) ::
    runs 1 n ++ [Stop; ResetPersistence; Run 1]) (after (connect 1)) = Crash.
Proof.
  assert (Hw : waiting (after (connect 1)) 1 (Session.new_session 1 0)) by (apply first_waits; vm_compute; reflexivity).
  destruct (stop_race_crashes ∅ (after (connect 1)) 1 (Session.new_session 1 0) 1 Session.noon
    (frame_subscribe (lit "t") 1) empty_wf waiting_reachable Hw) as (n & _ & E).
  1-4: vm_compute; reflexivity.
  - vm_compute. discriminate.
  - exists n. exact E.
Defined.

Lemma scope_check_races_witness :
  ∃ n σ' q, steps (Receive 1 (Session.RecvData 1 (λ _, Session.noon) (serialize out_of_scope)) ::
      runs 1 n ++ Keys (Keystore.Remove 1) :: runs 1 4) (after registered) = Next σ' ∧
    Broker.publish (Session.latency Session.noon) (lit "secure/a")
      (serialize (frame_signed_message (lit "secure/a") (lit "21") (signature out_of_scope) 1 1))
      (broker (after registered)) = (broker σ', Ret q).
Proof.
  assert (Hw : waiting (after registered) 1 (Session.new_session 1 0)) by (apply first_waits; vm_compute; reflexivity).
  assert (Hk : well_signed (keystore (after registered)) out_of_scope device_key)
    by (split; [vm_compute; reflexivity|split; vm_compute; reflexivity]).
  destruct (scope_check_races ∅ (after registered) 1 (Session.new_session 1 0) 1 Session.noon out_of_scope device_key
    empty_wf registered_reachable Hw) as (n & _ & σ' & q & E & Hp); [..|exact Hk| | |].
  1-3: vm_compute; reflexivity.
  - vm_compute. discriminate.
  - vm_compute. discriminate.
  - vm_compute. reflexivity.
  - exists n, σ', q. split; [exact E|exact Hp].
Defined.

End System.
