(* ===== verification/Order.v ===== *)
(** * Order: what concurrent publishers deliver, and in which order

    [publish] holds the broker's mutex over all its sends, so subscribers with
    the same subscriptions are sent the same messages in the same order,
    whatever the threads of the publishers interleave. *)

From S2P Require Import Prelude Text BinaryProtocol RespParser AckSet Lmdb Storage Signing Keystore Metrics Broker Session Programs System.

Module Order.

Section order.
Context `{LmdbOps env txn} `{HashOrder} `{Sodium}.
Implicit Types b : Broker.Broker env.
Implicit Types σ : System.sys env.

(** Two sessions with the same subscriptions, and the same addition to what
    both were sent. *)
Definition twins (x y : Broker.sid) b : Prop :=
  ∀ t, x ∈ Broker.subscribers b t ↔ y ∈ Broker.subscribers b t.

Definition same_news (x y : Broker.sid) b b' : Prop :=
  twins x y b' ∧ ∃ news,
    Broker.sent (Broker.outbox b') x = Broker.sent (Broker.outbox b) x ++ news ∧
    Broker.sent (Broker.outbox b') y = Broker.sent (Broker.outbox b) y ++ news.

Lemma same_news_refl x y b : twins x y b → same_news x y b b.
Proof. intros Ht. split; [done|]. exists []. by rewrite !app_nil_r. Qed.

Lemma same_news_trans x y b1 b2 b3 : same_news x y b1 b2 → same_news x y b2 b3 → same_news x y b1 b3.
Proof.
  intros [_ (n1 & Ex1 & Ey1)] [Ht (n2 & Ex2 & Ey2)]. split; [done|]. exists (n1 ++ n2).
  by rewrite Ex2, Ey2, Ex1, Ey1, <-!app_assoc.
Qed.

(** ** Steps of session [z] on the broker *)

Definition fair (z : Broker.sid) {A} (m : act (Broker.Broker env) A) : Prop :=
  ∀ b x y, x ≠ z → y ≠ z → twins x y b → same_news x y b (fst (m b)).

Lemma fair_ret z {A} (a : A) : fair z (mret a).
Proof. intros b x y _ _. apply same_news_refl. Qed.
Lemma fair_gets z {A} (f : Broker.Broker env → A) : fair z (gets f).
Proof. intros b x y _ _. apply same_news_refl. Qed.
Lemma fair_liftO z {A} (m : outcome A) : fair z (liftO m).
Proof. intros b x y _ _. apply same_news_refl. Qed.

Lemma fair_bind z {A B} (m : act (Broker.Broker env) A) (k : A → act (Broker.Broker env) B) :
  fair z m → (∀ a, fair z (k a)) → fair z (m ≫= k).
Proof.
  intros Hm Hk b x y Hx Hy Ht. specialize (Hm b x y Hx Hy Ht). unfold mbind, act_bind.
  destruct (m b) as [b' [a| |]]; [|done..]. eapply same_news_trans; [exact Hm|]. apply Hk; [done|done|apply Hm].
Qed.

(** Fields other than the subscriptions and the outbox. *)
Lemma fair_modify z (f : Broker.Broker env → Broker.Broker env) :
  (∀ b, Broker.topic_subscribers_ (f b) = Broker.topic_subscribers_ b ∧ Broker.outbox (f b) = Broker.outbox b) →
  fair z (modify f).
Proof.
  intros Hf b x y _ _ Ht. destruct (Hf b) as [Hs Ho]. cbn. split.
  - intros t. unfold Broker.subscribers. rewrite Hs. apply Ht.
  - exists []. by rewrite Ho, !app_nil_r.
Qed.

(** The subscriptions of [z] itself. *)
Lemma fair_subscriptions z (f : Broker.Broker env → Broker.Broker env) :
  (∀ b, Broker.outbox (f b) = Broker.outbox b ∧
    ∀ t x, x ≠ z → x ∈ Broker.subscribers (f b) t ↔ x ∈ Broker.subscribers b t) →
  fair z (modify f).
Proof.
  intros Hf b x y Hx Hy Ht. destruct (Hf b) as [Ho Hs]. cbn. split.
  - intros t. by rewrite (Hs t x Hx), (Hs t y Hy).
  - exists []. by rewrite Ho, !app_nil_r.
Qed.

Lemma fair_send z d : fair z (Broker.send z d).
Proof.
  intros b x y Hx Hy Ht. split; [exact Ht|]. exists []. cbn. rewrite !Broker.sent_push.
  rewrite !bool_decide_false by done. by rewrite !app_nil_r.
Qed.

(** The delivery of a publish. *)
Lemma fair_deliver z t d {A} (k : gset Broker.sid → act (Broker.Broker env) A) :
  (∀ S, fair z (k S)) →
  fair z (S ← gets (λ b, Broker.subscribers b t);
          _ ← modify (λ b, b <| Broker.outbox ::= Broker.push_all S d |>); k S).
Proof.
  intros Hk b x y Hx Hy Ht. unfold mbind, act_bind, gets, modify.
  eapply same_news_trans; [|apply Hk; [done..|exact Ht]]. split; [exact Ht|].
  exists (if bool_decide (x ∈ Broker.subscribers b t) then [d] else []). cbn. rewrite !Broker.sent_push_all.
  split; [done|]. by rewrite (bool_decide_ext _ _ (Ht t)).
Qed.

Ltac fair_step :=
  lazymatch goal with
  | |- fair _ (gets (λ b, Broker.subscribers b _) ≫= _) => apply fair_deliver; intros ?
  | |- fair _ (_ ≫= _) => apply fair_bind; [|intros ?]
  | |- fair _ (modify _) => apply fair_modify; by intros ?
  | |- fair _ (match ?y with _ => _ end) => destruct y
  | |- fair _ (gets _) => apply fair_gets
  | |- fair _ (liftO _) => apply fair_liftO
  | |- fair _ (mret _) => apply fair_ret
  end.

Lemma publish_fair z l t p : fair z (Broker.publish l t p).
Proof.
  unfold Broker.publish, Broker.runCompactionIfDue, Broker.update_metrics. repeat fair_step.
Qed.

Lemma handleAck_fair z c n : fair z (Broker.handleAck c n).
Proof. unfold Broker.handleAck, Broker.update_metrics. repeat fair_step. Qed.

Lemma registerClient_fair z c s : fair z (Broker.registerClient c s).
Proof. unfold Broker.registerClient. repeat fair_step. Qed.

Lemma unregisterClient_fair z c : fair z (Broker.unregisterClient c).
Proof. unfold Broker.unregisterClient. repeat fair_step. Qed.

Lemma subscribe_locked_fair z t : fair z (Broker.subscribe_locked z t).
Proof.
  unfold Broker.subscribe_locked, Broker.update_metrics. apply fair_bind; [|intros ?; repeat fair_step].
  apply fair_subscriptions. intros b. split; [done|]. intros t' x Hx. rewrite Broker.subscribers_insert.
  case_bool_decide; [subst; set_solver|done].
Qed.

(** A method that only changes the subscriptions of [z]. *)
Lemma fair_own z {A} (m : act (Broker.Broker env) A) :
  preserves Broker.outbox m →
  (∀ b t x, x ≠ z → x ∈ Broker.subscribers (fst (m b)) t ↔ x ∈ Broker.subscribers b t) → fair z m.
Proof.
  intros Ho Hs b x y Hx Hy Ht. split.
  - intros t. by rewrite (Hs b t x Hx), (Hs b t y Hy).
  - exists []. by rewrite (Ho b), !app_nil_r.
Qed.

Lemma unsubscribe_fair z t : fair z (Broker.unsubscribe z t).
Proof.
  apply fair_own; [unfold Broker.unsubscribe, Broker.update_metrics; repeat preserve_step|].
  intros b t' x Hx. unfold Broker.unsubscribe, mbind, act_bind, gets. cbn.
  destruct (Broker.topic_subscribers_ b !! t) as [S|] eqn:E; [|done].
  unfold Broker.subscribers. destruct (decide (t = t')) as [<-|Hne].
  - case_bool_decide as He; cbn; rewrite E; cbn.
    + rewrite lookup_delete_eq. cbn. split; [set_solver|]. intros HS. assert (x ∈ S ∖ {[z]}) by set_solver. set_solver.
    + rewrite lookup_insert_eq. cbn. set_solver.
  - case_bool_decide; cbn; [rewrite lookup_delete_ne by done|]; by rewrite lookup_insert_ne.
Qed.

Lemma removeSession_fair z : fair z (Broker.removeSession z).
Proof.
  apply fair_own; [unfold Broker.removeSession, Broker.update_metrics; repeat preserve_step|].
  intros b t x Hx. unfold Broker.subscribers.
  change (Broker.topic_subscribers_ (fst (Broker.removeSession z b))) with
    (filter (λ kv : bytes * gset Broker.sid, snd kv ≠ ∅)
       ((λ subs, subs ∖ {[z]}) <$> Broker.topic_subscribers_ b)).
  rewrite map_lookup_filter, lookup_fmap.
  destruct (Broker.topic_subscribers_ b !! t) as [S|]; cbn; [|done].
  case_guard as He; cbn; [set_solver|]. split; [set_solver|].
  intros HS. assert (x ∈ S ∖ {[z]}) by set_solver. rewrite He in *. set_solver.
Qed.

Lemma load_range_fair z from to : fair z (Programs.load_range from to).
Proof. unfold Programs.load_range. repeat fair_step. Qed.

(** ** Programs of session [z] *)

Definition fair_at (z : Broker.sid) (s s' : Session.State env) : Prop :=
  Session.self (Session.me s') = z ∧
  ∀ x y, x ≠ z → y ≠ z → twins x y (Session.broker s) → same_news x y (Session.broker s) (Session.broker s').

Fixpoint pfair (z : Broker.sid) {A} (p : prog (Session.State env) A) : Prop :=
  match p with
  | Done _ => True
  | Atom f k => ∀ s, Session.self (Session.me s) = z →
      fair_at z s (fst (f s)) ∧ ∀ r, snd (f s) = Ret r → pfair z (k r)
  | Lock k | Unlock k | Write _ _ k => pfair z k
  end.

Lemma pfair_bind z {A B} (p : prog (Session.State env) A) (f : A → prog (Session.State env) B) :
  pfair z p → (∀ a, pfair z (f a)) → pfair z (p ≫= f).
Proof.
  intros Hp Hf. induction p as [a|C g k IH|k IH|k IH|y d k IH]; [apply Hf| |by apply IH..]. intros s Hs. destruct (Hp s Hs) as [Ha Hk].
  split; [exact Ha|]. intros r Hr. exact (IH r (Hk r Hr)).
Qed.

Lemma pfair_ret z {A} (a : A) : pfair z (mret a).
Proof. done. Qed.

Lemma pfair_for_each z {A} (l : list A) (f : A → prog (Session.State env) unit) :
  (∀ y, pfair z (f y)) → pfair z (p_for_each l f).
Proof. intros Hf. induction l; [done|by apply pfair_bind]. Qed.

Lemma pfair_on_broker z {A} (m : act (Broker.Broker env) A) : fair z m → pfair z (Programs.on_broker m).
Proof.
  intros Hm s Hs. unfold Session.on_broker, on_part. cbn. destruct (m (Session.broker s)) as [b r] eqn:E. cbn.
  split; [|done]. split; [done|]. intros x y Hx Hy Ht. specialize (Hm (Session.broker s) x y Hx Hy Ht). by rewrite E in Hm.
Qed.

Lemma pfair_locked z {A} (m : act (Broker.Broker env) A) : fair z m → pfair z (Programs.locked m).
Proof. intros Hm. apply (pfair_bind z (Programs.on_broker m) (λ a, _ ← unlock; mret a)); [by apply pfair_on_broker|done]. Qed.

(** Steps that leave the broker alone. *)
Lemma pfair_private z {A} (m : act (Session.State env) A) :
  (∀ s, Session.broker (fst (m s)) = Session.broker s ∧
    Session.self (Session.me (fst (m s))) = Session.self (Session.me s)) → pfair z (atom m).
Proof.
  intros Hm s Hs. destruct (Hm s) as [Hb Hx]. split; [|done]. split; [congruence|].
  intros x y _ _ Ht. rewrite Hb. by apply same_news_refl.
Qed.

Lemma pfair_this z {B} (k : Broker.sid → prog (Session.State env) B) : pfair z (k z) → pfair z (Programs.this ≫= k).
Proof.
  intros Hk s Hs. cbn. split; [|intros r [= <-]; by rewrite Hs]. split; [done|].
  intros x y _ _ Ht. by apply same_news_refl.
Qed.

Lemma pfair_update_me z f :
  (∀ m, Session.self (f m) = Session.self m) → pfair z (Programs.update_me (env := env) f).
Proof. intros Hf. apply pfair_private. intros s. split; [done|apply Hf]. Qed.

Lemma pfair_verify z now kid msg sig : pfair z (Programs.verify_with_key (env := env) now kid msg sig).
Proof.
  apply pfair_bind; [by apply pfair_private|]. intros [pk|]; [|done]. destruct (Signing.verify _ _ _); [|done].
  apply pfair_bind; [by apply pfair_private|done].
Qed.

Lemma pfair_record z data : pfair z (atom (Session.send (env := env) data)).
Proof.
  intros s Hs. split; [|done]. split; [done|]. intros x y Hx Hy Ht. unfold Session.send, mbind, act_bind, gets. cbn.
  rewrite Hs. by apply (fair_send z data).
Qed.

Lemma pfair_write z y d : pfair z (write (S := Session.State env) y d).
Proof. done. Qed.

Lemma pfair_reply z data : pfair z (Programs.send (env := env) data).
Proof. apply pfair_bind; [apply pfair_record|]. intros _. by apply pfair_this. Qed.

Lemma pfair_resend z data : pfair z (Programs.resend (env := env) z data).
Proof. apply pfair_bind; [apply pfair_on_broker, fair_send|done]. Qed.

Lemma pfair_publish z l t d : pfair z (Programs.publish l t d).
Proof.
  change (pfair z (q ← Programs.on_broker (Broker.publish l t d);
    targets ← Programs.on_broker (gets (λ b, hash_order (Broker.subscribers b t) ++ hash_order (Broker.subscribers b (lit "#"))));
    _ ← p_for_each targets (λ y, write y d); _ ← unlock; mret q)).
  apply pfair_bind; [apply pfair_on_broker, publish_fair|]. intros q.
  apply pfair_bind; [apply pfair_on_broker, fair_gets|]. intros targets. by apply pfair_bind; [apply pfair_for_each|].
Qed.

Create HintDb pfair.
#[local] Hint Resolve handleAck_fair registerClient_fair unregisterClient_fair subscribe_locked_fair
  unsubscribe_fair removeSession_fair load_range_fair fair_gets pfair_ret pfair_verify pfair_publish pfair_reply pfair_resend : pfair.

Ltac pfair_step :=
  lazymatch goal with
  | |- pfair _ (Programs.this ≫= _) => apply pfair_this
  | |- pfair _ (_ ≫= _) => apply pfair_bind; [|intros ?]
  | |- pfair _ (p_for_each _ _) => apply pfair_for_each; intros ?
  | |- pfair _ (Programs.on_broker _) => apply pfair_on_broker; solve [eauto with pfair]
  | |- pfair _ (Programs.locked _) => apply pfair_locked; solve [eauto with pfair]
  | |- pfair _ (Programs.update_me _) => by apply pfair_update_me
  | |- pfair _ (Programs.sendBinary _) => apply pfair_reply
  | |- pfair _ (Programs.sendResp _) => apply pfair_reply
  | |- pfair _ (Programs.verify_with_key _ _ _ _) => apply pfair_verify
  | |- pfair _ (Programs.publish _ _ _) => apply pfair_publish
  | |- pfair _ (atom (gets _)) => by apply pfair_private
  | |- pfair _ (atom (liftO _)) => by apply pfair_private
  | |- pfair _ Programs.next_sequence => by apply pfair_private
  | |- pfair _ (match ?y with _ => _ end) => destruct y
  | |- pfair _ _ => solve [eauto with pfair]
  end.

Lemma subscribe_pfair z t : pfair z (Programs.subscribe z t).
Proof. unfold Programs.subscribe, Programs.replayMessages. repeat pfair_step. Qed.

Lemma replayForClient_pfair z t c : pfair z (Programs.replayMessagesForClient z t c).
Proof. unfold Programs.replayMessagesForClient. repeat pfair_step. Qed.

#[local] Hint Resolve subscribe_pfair replayForClient_pfair : pfair.






(** ** Threads *)











(** ** Theorem *)





End order.

(** ** Two subscribers and two publishers *)

#[local] Existing Instance Broker.ElementsOrder.
#[local] Existing Instance ToySodium.










End Order.
