(* ===== verification/Firmware.v ===== *)
(** * Firmware: the device sketches

    [wokwi/metricmq-esp32-demo/sketch.ino] (Module [Esp32]),
    [metricmq-wokwi-esp8266/sketch.ino] (Module [Esp8266]) and
    [metricmq-platformio-test/src/main.cpp] (Module [PlatformIO]): the bytes
    they put on the wire, and [setup] and [loop] as functions from what the
    radio, the clock and the sensor report to the trace of their effects. Lines
    on the serial console are left out. *)

From S2P Require Import Prelude Text BinaryProtocol RespParser Lmdb Storage Signing Streams Keystore Metrics Broker Session.

(** ** Arduino *)

Inductive effect :=
| PinWrite (pin : Z) (high : bool)       (* digitalWrite *)
| Delay (ms : Z)
| PinOutput (pin : Z)                    (* pinMode *)
| SensorSetup (pin : Z)                  (* dht.setup *)
| WiFiBegin
| WiFiReconnect
| ClientConnect
| ClientWrite (data : bytes)             (* client.write, client.print *)
| Restart                                (* ESP.restart *)
| MqBegin                                (* begin and setCallback *)
| MqSubscribe (topic : bytes)
| MqPublish (topic payload : bytes)
| MqLoop.

(** A JSON member ["name": value]. *)
Definition member (name : string) (value : bytes) : bytes := QUOTE ++ lit name ++ QUOTE ++ lit ":" ++ value.
Definition quoted (value : bytes) : bytes := QUOTE ++ value ++ QUOTE.

(** [for (i < 3) { on; delay(200); off; delay(200); }] *)
Definition blink3 (pin : Z) (lit_level : bool) : list effect :=
  concat (replicate 3 [PinWrite pin lit_level; Delay 200; PinWrite pin (negb lit_level); Delay 200]).

(** [while (WiFi.status() != WL_CONNECTED && attempts < 20) { delay(500); attempts++; }]:
    [status i] is the [i]-th poll; the number of polls made that failed. *)
Fixpoint await_wifi (left attempts : nat) (status : nat → bool) : nat :=
  match left with
  | O => attempts
  | S l => if status attempts then attempts else await_wifi l (S attempts) status
  end.

Module Esp32.

Definition DHT_PIN : Z := 4.
Definition LED_PUBLISH : Z := 2.
Definition LED_CONNECT : Z := 15.
Definition PUBLISH_INTERVAL : Z := 10000.
Definition RECONNECT_INTERVAL : Z := 5000.
Definition CMD_PUBLISH : Z := 3.
Definition TOPIC : bytes := lit "sensors/wokwi/dht22".

Record globals := mkGlobals {
  connected : bool;
  clientId : bytes;
  lastPublish : Z;
  lastReconnect : Z;
}.
#[global] Instance globals_fields : Fields globals := λ g,
  mkGlobals (connected g) (clientId g) (lastPublish g) (lastReconnect g).

(** What the hardware reports during one [loop]; the two texts are
    [String(value, 1)] of the readings, [uptime_ms] the second [millis()]. *)
Record input := mkInput {
  wifi_connected : bool;
  client_connected : bool;
  now_ms : Z;
  connect_ok : bool;
  dht_status : Z;
  temperature : bytes;
  humidity : bytes;
  uptime_ms : Z;
  still_connected : bool;
  written : Z;                           (* the result of client.write *)
}.

(** *** The frame *)

(** A store into [uint8_t buffer\[512\]] at [pos], the length of what is there. *)
Definition store (buffer data : bytes) : outcome bytes :=
  if Nat.leb (length buffer + length data) 512 then Ret (buffer ++ data)
  else Throw "write past the end of buffer".

Definition frame_bytes (topic payload : bytes) : outcome bytes :=
  let! buffer := store [] [char_of BINARY_PROTOCOL_VERSION] in
  let! buffer := store buffer [char_of CMD_PUBLISH] in
  let topic_len := u16 (zlen topic) in
  let! buffer := store buffer [char_of (Z.land (Z.shiftr topic_len 8) 0xFF)] in
  let! buffer := store buffer [char_of (Z.land topic_len 0xFF)] in
  let! buffer := store buffer (take (Z.to_nat topic_len) topic) in
  let payload_len := u32 (zlen payload) in
  let! buffer := store buffer [char_of (Z.land (Z.shiftr payload_len 24) 0xFF)] in
  let! buffer := store buffer [char_of (Z.land (Z.shiftr payload_len 16) 0xFF)] in
  let! buffer := store buffer [char_of (Z.land (Z.shiftr payload_len 8) 0xFF)] in
  let! buffer := store buffer [char_of (Z.land payload_len 0xFF)] in
  store buffer (take (Z.to_nat payload_len) payload).

Definition sendBinaryPublish (i : input) (topic payload : bytes) : outcome (list effect * bool) :=
  if negb (still_connected i) then Ret ([], false)
  else
    let! buffer := frame_bytes topic payload in
    Ret ([ClientWrite buffer], written i =? zlen buffer).

Definition json (g : globals) (i : input) : bytes :=
  lit "{" ++ member "temperature" (temperature i) ++ lit "," ++ member "humidity" (humidity i) ++ lit "," ++
  member "client_id" (quoted (clientId g)) ++ lit "," ++ member "uptime" (to_string (uptime_ms i / 1000)) ++ lit "}".

Definition publishSensorData (g : globals) (i : input) : outcome (list effect) :=
  if negb (dht_status i =? 0) then Ret []
  else
    let! r := sendBinaryPublish i TOPIC (json g i) in
    Ret (fst r ++ if snd r : bool then [PinWrite LED_PUBLISH true; Delay 100; PinWrite LED_PUBLISH false] else []).

Definition connectToBroker (g : globals) (i : input) : globals * list effect :=
  if connect_ok i then (g <| connected := true |>, [ClientConnect; PinWrite LED_CONNECT true])
  else (g, [ClientConnect]).

Definition loop (g : globals) (i : input) : globals * outcome (list effect) :=
  if negb (wifi_connected i) then (g, Ret [WiFiReconnect; Delay 5000])
  else if negb (client_connected i) then
    let g := g <| connected := false |> in
    if RECONNECT_INTERVAL <=? u32 (now_ms i - lastReconnect g) then
      let '(g, e) := connectToBroker (g <| lastReconnect := now_ms i |>) i in
      (g, Ret (PinWrite LED_CONNECT false :: e))
    else (g, Ret [PinWrite LED_CONNECT false])
  else
    let led := if connected g then [PinWrite LED_CONNECT true] else [] in
    if PUBLISH_INTERVAL <=? u32 (now_ms i - lastPublish g) then
      let g := g <| lastPublish := now_ms i |> in
      (g, let! e := publishSensorData g i in Ret (led ++ e ++ [Delay 100]))
    else (g, Ret (led ++ [Delay 100])).

(** [chipid] is [ESP.getEfuseMac()]; [status i] the [i]-th poll of the radio in
    the loop and [up] the poll after it. *)
Definition setup (chipid : Z) (status : nat → bool) (up : bool) : globals * list effect :=
  let attempts := await_wifi 20 0 status in
  (mkGlobals false (lit "wokwi_esp32_" ++ hex_string (u32 chipid)) 0 0,
   [Delay 500; PinOutput LED_PUBLISH; PinOutput LED_CONNECT; PinWrite LED_PUBLISH false;
    PinWrite LED_CONNECT false; SensorSetup DHT_PIN; WiFiBegin] ++ replicate attempts (Delay 500) ++
   (if up then blink3 LED_CONNECT true else [])).
End Esp32.

Module Esp8266.

Definition DHT_PIN : Z := 2.
Definition LED_BUILTIN : Z := 2.

Record input := mkInput {
  now_ms : Z;
  connected_at_publish : bool;
  dht_status : Z;
  temperature : bytes;
  humidity : bytes;
  uptime_ms : Z;
  chip_id : Z;
  stamp_ms : Z;                          (* millis() after the publish *)
  connected_at_end : bool;
}.

Definition makePublish (topic payload : bytes) : bytes :=
  let cmd := lit "*3" ++ Resp.crlf ++ lit "$7" ++ Resp.crlf ++ lit "PUBLISH" ++ Resp.crlf ++ lit "$" in
  let cmd := cmd ++ to_string (zlen topic) in
  let cmd := cmd ++ Resp.crlf in
  let cmd := cmd ++ topic in
  let cmd := cmd ++ Resp.crlf ++ lit "$" in
  let cmd := cmd ++ to_string (zlen payload) in
  let cmd := cmd ++ Resp.crlf in
  let cmd := cmd ++ payload in
  cmd ++ Resp.crlf.

Definition makeSubscribe (topic : bytes) : bytes :=
  let cmd := lit "*2" ++ Resp.crlf ++ lit "$9" ++ Resp.crlf ++ lit "SUBSCRIBE" ++ Resp.crlf ++ lit "$" in
  let cmd := cmd ++ to_string (zlen topic) in
  let cmd := cmd ++ Resp.crlf in
  let cmd := cmd ++ topic in
  cmd ++ Resp.crlf.

Definition sendRESP (command : bytes) : list effect := [ClientWrite command].

Definition json (i : input) : bytes :=
  lit "{" ++ member "temperature" (temperature i) ++ lit "," ++ member "humidity" (humidity i) ++ lit "," ++
  member "uptime" (to_string (uptime_ms i / 1000)) ++ lit "," ++
  member "chip_id" (quoted (hex_string (chip_id i))) ++ lit "}".

Definition TOPIC : bytes := lit "sensors/esp8266/dht22".

Definition publishSensorData (i : input) : list effect :=
  if negb (dht_status i =? 0) then []
  else sendRESP (makePublish TOPIC (json i)) ++ [PinWrite LED_BUILTIN true; Delay 200; PinWrite LED_BUILTIN false].

(** On the function's [static lastPublish]; lines that arrive are only printed. *)
Definition loop (lastPublish : Z) (i : input) : Z * list effect :=
  let '(last, e) :=
    if 10000 <? u32 (now_ms i - lastPublish) then
      if connected_at_publish i then (stamp_ms i, publishSensorData i) else (lastPublish, [])
    else (lastPublish, []) in
  (last, e ++ if connected_at_end i then [Delay 100] else [PinWrite LED_BUILTIN true; Delay 5000; Restart]).

(** [polls] is how often the radio was not yet connected. *)
Definition setup (polls : nat) (connect_ok : bool) : list effect :=
  [Delay 1000; PinOutput LED_BUILTIN; PinWrite LED_BUILTIN true; SensorSetup DHT_PIN; WiFiBegin] ++ replicate polls (Delay 500) ++ [ClientConnect] ++
  (if connect_ok then PinWrite LED_BUILTIN false :: sendRESP (makeSubscribe (lit "esp8266/commands")) else []).
End Esp8266.

Module PlatformIO.

Definition LED_PIN : Z := 2.
Definition PUBLISH_INTERVAL : Z := 10000.

(** The library [MetricMQ.h] is not part of the repository: its answers are
    inputs, its calls effects. [temperature] is the text of the rough estimate. *)
Record input := mkInput {
  wifi_connected : bool;
  mq_connected : bool;
  mq_connect : bool;
  now_ms : Z;
  uptime_ms : Z;
  free_heap : Z;
  chip_id : Z;
  rssi : Z;
  temperature : bytes;
  mq_publish : bool;
}.

Definition json (i : input) : bytes :=
  lit "{" ++ member "uptime" (to_string (uptime_ms i / 1000)) ++ lit "," ++
  member "free_heap" (to_string (free_heap i)) ++ lit "," ++
  member "chip_id" (quoted (hex_string (chip_id i))) ++ lit "," ++
  member "wifi_rssi" (to_string (rssi i)) ++ lit "," ++ member "temperature" (temperature i) ++ lit "}".

Definition publishData (i : input) : list effect :=
  MqPublish (lit "sensors/esp8266") (json i) ::
  (if mq_publish i then [PinWrite LED_PIN true; Delay 100; PinWrite LED_PIN false] else []).

Definition loop (lastPublish : Z) (i : input) : Z * list effect :=
  if negb (wifi_connected i) then (lastPublish, [WiFiReconnect; Delay 5000])
  else if negb (mq_connected i) then
    (lastPublish, ClientConnect ::
       if mq_connect i then [PinWrite LED_PIN false; MqSubscribe (lit "esp8266/commands")]
       else [PinWrite LED_PIN true; Delay 5000])
  else if PUBLISH_INTERVAL <=? u32 (now_ms i - lastPublish) then
    (now_ms i, publishData i ++ [MqLoop; Delay 100])
  else (lastPublish, [MqLoop; Delay 100]).

Definition setup (status : nat → bool) (up : bool) : list effect :=
  let attempts := await_wifi 20 0 status in
  [Delay 500; PinOutput LED_PIN; PinWrite LED_PIN true; WiFiBegin] ++ replicate attempts (Delay 500) ++
  (if up then blink3 LED_PIN false else []) ++ [MqBegin].
End PlatformIO.

(** ** The publish interval

    The clock [millis()] wraps every 49.7 days; the interval is computed
    modulo [2^32]. *)

(** The messages among the effects. *)
Definition message_of (e : effect) : option bytes :=
  match e with ClientWrite d => Some d | MqPublish _ p => Some p | _ => None end.
Definition messages (l : list effect) : list bytes := omap message_of l.

Lemma messages_app l1 l2 : messages (l1 ++ l2) = messages l1 ++ messages l2.
Proof. apply omap_app. Qed.

Section rate.
Context {G I : Type} (last : G → Z) (now stamp : I → Z) (step : G → I → G * list bytes).

(** A round keeps the time of the last publish and sends nothing, or comes at
    least ten seconds after it on the wrapping clock. *)
Definition rate_limited : Prop := ∀ g i,
  (last (fst (step g i)) = last g ∧ snd (step g i) = []) ∨
  (last (fst (step g i)) = stamp i ∧ 10000 ≤ u32 (now i - last g)).

(** Rounds with the real times, in milliseconds since the start, of the test
    and of the stamp. *)
Definition timed (r : Z * Z * I) : Prop := let '(t, t', i) := r in now i = u32 t ∧ stamp i = u32 t' ∧ t ≤ t'.
Fixpoint in_time (start : Z) (l : list (Z * Z * I)) : Prop :=
  match l with
  | [] => True
  | r :: l' => timed r ∧ start ≤ fst (fst r) ∧ in_time (snd (fst r)) l'
  end.

(** The real times at which something is sent. *)
Fixpoint publish_times (g : G) (l : list (Z * Z * I)) : list (Z * Z) :=
  match l with
  | [] => []
  | (w, i) :: l' =>
      let '(g', out) := step g i in
      match out with [] => [] | _ => [w] end ++ publish_times g' l'
  end.

Lemma u32_interval t l : l ≤ t → 10000 ≤ u32 (u32 t - u32 l) → l + 10000 ≤ t.
Proof.
  intros Hl. unfold u32. rewrite <-Zminus_mod. intros H.
  destruct (decide (t - l < 2 ^ 32)); [rewrite Z.mod_small in H by lia|]; lia.
Qed.

Lemma in_time_weaken a b l : a ≤ b → in_time b l → in_time a l.
Proof. destruct l; [done|]. simpl. intros ? (? & ? & ?). repeat split; [done|lia|done]. Qed.

Lemma publish_times_spaced g l start p :
  rate_limited → last g = u32 p → p ≤ start → in_time start l →
  Forall (λ w, p + 10000 ≤ fst w) (publish_times g l) ∧
  StronglySorted (λ a b, snd a + 10000 ≤ fst b) (publish_times g l).
Proof.
  intros Hr. revert g start p. induction l as [|[[t t'] i] l IH]; intros g start p Hp Hle Ht.
  { split; constructor. }
  destruct Ht as ((Hn & Hs & Htt) & Hst & Hl). simpl in Hst, Hl. cbn [publish_times].
  pose proof (Hr g i) as Hstep. destruct (step g i) as [g' out]. simpl in Hstep.
  destruct Hstep as [[Hg ->]|[Hg Hint]].
  - apply (IH g' t' p); [congruence|lia|done].
  - assert (p + 10000 ≤ t) by (apply u32_interval; [lia|congruence]).
    destruct (IH g' t' t') as [HF HS]; [congruence|lia|done|].
    assert (HF' : Forall (λ w, p + 10000 ≤ fst w) (publish_times g' l)).
    { eapply Forall_impl; [exact HF|]. simpl. lia. }
    destruct out; simpl; [by split|]. split; [by constructor|by constructor].
Qed.
End rate.

Definition esp32_step (g : Esp32.globals) (i : Esp32.input) : Esp32.globals * list bytes :=
  let '(g', r) := Esp32.loop g i in (g', match r with Ret e => messages e | _ => [] end).
Definition esp8266_step (last : Z) (i : Esp8266.input) : Z * list bytes :=
  let '(last', e) := Esp8266.loop last i in (last', messages e).
Definition platformio_step (last : Z) (i : PlatformIO.input) : Z * list bytes :=
  let '(last', e) := PlatformIO.loop last i in (last', messages e).

Lemma esp32_limited : rate_limited Esp32.lastPublish Esp32.now_ms Esp32.now_ms esp32_step.
Proof.
  intros g i. unfold esp32_step, Esp32.loop. destruct (Esp32.wifi_connected i); [|by left].
  destruct (Esp32.client_connected i); cbn [negb].
  - destruct (Esp32.PUBLISH_INTERVAL <=? _) eqn:E; [right; reflect_bools; by split|left].
    split; [done|]. by destruct (Esp32.connected g).
  - destruct (Esp32.RECONNECT_INTERVAL <=? _); [|by left].
    unfold Esp32.connectToBroker. left. by destruct (Esp32.connect_ok i).
Qed.

Lemma esp8266_limited : rate_limited id Esp8266.now_ms Esp8266.stamp_ms esp8266_step.
Proof.
  intros g i. unfold esp8266_step, Esp8266.loop, id. destruct (10000 <? _) eqn:E; reflect_bools.
  - destruct (Esp8266.connected_at_publish i); [right; split; [done|lia]|left].
    by destruct (Esp8266.connected_at_end i).
  - left. by destruct (Esp8266.connected_at_end i).
Qed.

Lemma platformio_limited : rate_limited id PlatformIO.now_ms PlatformIO.now_ms platformio_step.
Proof.
  intros g i. unfold platformio_step, PlatformIO.loop, id. destruct (PlatformIO.wifi_connected i); [|by left].
  destruct (PlatformIO.mq_connected i); cbn [negb].
  - destruct (PlatformIO.PUBLISH_INTERVAL <=? _) eqn:E; [right; reflect_bools; by split|by left].
  - left. by destruct (PlatformIO.mq_connect i).
Qed.

(** ** The ESP32 frame *)

Lemma store_store {B} a b c (k : bytes → outcome B) :
  (let! x := Esp32.store a b in let! y := Esp32.store x c in k y) = (let! y := Esp32.store a (b ++ c) in k y).
Proof.
  unfold Esp32.store. rewrite length_app.
  destruct (Nat.leb (length a + length b) 512) eqn:E1; reflect_bools; cbn [obind].
  - rewrite length_app, <-app_assoc, Nat.add_assoc. done.
  - zbranch. done.
Qed.

Lemma store_last a b c : (let! x := Esp32.store a b in Esp32.store x c) = Esp32.store a (b ++ c).
Proof.
  unfold Esp32.store. rewrite length_app.
  destruct (Nat.leb (length a + length b) 512) eqn:E1; reflect_bools; cbn [obind].
  - rewrite length_app, <-app_assoc, Nat.add_assoc. done.
  - zbranch. done.
Qed.

(** What the frame is, and that it fits the buffer. *)
Lemma frame_bytes_layout t p :
  zlen t < 2 ^ 16 → zlen p < 2 ^ 32 →
  Esp32.frame_bytes t p =
    if Nat.leb (8 + length t + length p) 512
    then Ret ([char_of 1; char_of 3] ++ be_encode 2 (zlen t) ++ t ++ be_encode 4 (zlen p) ++ p)
    else Throw "write past the end of buffer".
Proof.
  intros Ht Hp. unfold Esp32.frame_bytes. rewrite !store_store, store_last.
  rewrite u16_small, u32_small, !Nat2Z.id, !firstn_all by lia.
  rewrite <-(app_nil_l (be_encode 2 _)), <-(app_nil_l (be_encode 4 _)), <-writeUint16_be, <-writeUint32_be.
  unfold writeUint16, writeUint32, Esp32.store.
  rewrite !length_app. simpl length. rewrite <-!app_assoc.
  replace (0 + _)%nat with (8 + length t + length p)%nat by lia. done.
Qed.

(** The header the broker reads is shifted: the sketch writes no sequence
    number, so the broker takes the seventh and eighth characters of the topic
    for the length of the topic. *)
Lemma frame_bytes_rejected t p f rest :
  (8 ≤ length t)%nat → zlen t < 2 ^ 16 → zlen p < 2 ^ 32 →
  (∀ c, t !! 6%nat = Some c → 2 ≤ char_code c) →
  Esp32.frame_bytes t p = Ret f → BinaryProtocol.parse (f ++ rest) = Ret None.
Proof.
  intros H8 Ht Hp Hc. rewrite frame_bytes_layout by done. destruct (Nat.leb _ _); [|done].
  intros [= <-]. rewrite parse_is_ref. f_equal.
  do 8 (destruct t as [|? t]; [simpl in H8; lia|]). specialize (Hc _ eq_refl).
  unfold parse_ref, frame_complete.
  match goal with |- context [field ?b 10 2 <=? _] => set (buf := b) end.
  assert (Hfield : MAX_TOPIC_LEN < field buf 10 2).
  { unfold buf, field, be_decode. cbn [be_encode app drop take fold_left].
    rewrite take_0. cbn [fold_left]. pose proof (char_code_range a6). unfold MAX_TOPIC_LEN. lia. }
  rewrite (proj2 (Z.leb_gt _ _) Hfield). by rewrite andb_false_r.
Qed.

Lemma frame_bytes_head t p f : Esp32.frame_bytes t p = Ret f → ∃ f', f = char_of 1 :: f'.
Proof.
  unfold Esp32.frame_bytes. rewrite !store_store, store_last. unfold Esp32.store.
  destruct (Nat.leb _ _); [|done]. intros [= <-]. by eexists.
Qed.

Lemma json_length g i k :
  (length (Esp32.temperature i) ≤ 40)%nat → (length (Esp32.humidity i) ≤ 40)%nat →
  0 ≤ Esp32.uptime_ms i < 2 ^ 32 → (length (Esp32.clientId g) ≤ k)%nat →
  (length (Esp32.json g i) ≤ 140 + k)%nat.
Proof.
  intros Ht Hh Hu Hc.
  assert (length (to_string (Esp32.uptime_ms i / 1000)) ≤ 7)%nat.
  { apply to_string_length; [|lia]. split; [apply Z.div_pos; lia|apply Z.div_lt_upper_bound; lia]. }
  unfold Esp32.json, member, quoted. rewrite !length_app. cbn [length lit map String.list_ascii_of_string]. simpl. lia.
Qed.

Lemma loop_returns g i :
  (length (Esp32.json g i) ≤ 480)%nat → ∃ e, snd (Esp32.loop g i) = Ret e.
Proof.
  intros Hj. unfold Esp32.loop. destruct (Esp32.wifi_connected i); [|by eexists].
  destruct (Esp32.client_connected i); cbn [negb].
  2: { unfold Esp32.connectToBroker. destruct (_ <=? _); [|by eexists].
       destruct (Esp32.connect_ok i); by eexists. }
  destruct (Esp32.PUBLISH_INTERVAL <=? _); [|by eexists].
  unfold Esp32.publishSensorData, Esp32.sendBinaryPublish. cbn [snd].
  destruct (Esp32.dht_status i =? 0); [|by eexists].
  destruct (Esp32.still_connected i); [|by eexists]. cbn [negb].
  change (Esp32.json (g <| Esp32.lastPublish := _ |>) i) with (Esp32.json g i).
  rewrite frame_bytes_layout; [|done|lia].
  rewrite (proj2 (Nat.leb_le _ _)); [by eexists|].
  change (length Esp32.TOPIC) with 19%nat. lia.
Qed.

Ltac no_write He := exfalso; cbn [app] in He; repeat (apply elem_of_cons in He as [He|He]; [discriminate He|]); by apply not_elem_of_nil in He.
Ltac some_write He :=
  repeat (apply elem_of_cons in He as [He|He]; [first [discriminate He | rewrite He; apply list_elem_of_here]|]);
  by apply not_elem_of_nil in He.

(** What a round writes is the frame of its reading. *)
Lemma loop_frame g i g' e f :
  Esp32.loop g i = (g', Ret e) → ClientWrite f ∈ e → Esp32.frame_bytes Esp32.TOPIC (Esp32.json g i) = Ret f.
Proof.
  unfold Esp32.loop, Esp32.connectToBroker. intros E He.
  destruct (Esp32.wifi_connected i); [|injection E as <- <-; no_write He].
  destruct (Esp32.client_connected i); cbn [negb] in E.
  2: { destruct (_ <=? _), (Esp32.connect_ok i); injection E as <- <-; no_write He. }
  destruct (Esp32.PUBLISH_INTERVAL <=? _).
  2: { destruct (Esp32.connected g); injection E as <- <-; no_write He. }
  injection E as <- E. unfold Esp32.publishSensorData, Esp32.sendBinaryPublish in E.
  change (Esp32.json _ i) with (Esp32.json g i) in E.
  destruct (Esp32.dht_status i =? 0), (Esp32.still_connected i); cbn [negb obind fst snd] in E;
    try (destruct (Esp32.connected g); injection E as <-; no_write He).
  destruct (Esp32.frame_bytes Esp32.TOPIC (Esp32.json g i)) as [b| |]; try done. cbn [obind fst snd] in E.
  assert (Hf : ClientWrite f ∈ [ClientWrite b]); [|by apply list_elem_of_singleton in Hf as [= ->]].
  destruct (Esp32.connected g), (_ =? _); injection E as <-; cbn [app] in He; some_write He.
Qed.

(** ** Theorems *)

(** No sketch floods the broker: from the state [setup] leaves, over any rounds
    of [loop] in real time, through any wrap-arounds of the 32-bit clock, two
    messages of a device are always at least ten seconds apart. *)
Theorem devices_rate_limited :
  (∀ chipid status up l, in_time Esp32.now_ms Esp32.now_ms 0 l →
     StronglySorted (λ a b, snd a + 10000 ≤ fst b)
       (publish_times esp32_step (fst (Esp32.setup chipid status up)) l)) ∧
  (∀ l, in_time Esp8266.now_ms Esp8266.stamp_ms 0 l →
     StronglySorted (λ a b, snd a + 10000 ≤ fst b) (publish_times esp8266_step 0 l)) ∧
  (∀ l, in_time PlatformIO.now_ms PlatformIO.now_ms 0 l →
     StronglySorted (λ a b, snd a + 10000 ≤ fst b) (publish_times platformio_step 0 l)).
Proof.
  split; [|split].
  - intros chipid status up l Ht. by apply (publish_times_spaced _ _ _ _ _ l 0 0 esp32_limited).
  - intros l Ht. by apply (publish_times_spaced id _ _ _ 0 l 0 0 esp8266_limited).
  - intros l Ht. by apply (publish_times_spaced id _ _ _ 0 l 0 0 platformio_limited).
Qed.

(** The ESP8266 sketch writes by hand exactly what the library serializes. *)
Theorem esp8266_speaks_resp topic payload :
  Esp8266.makePublish topic payload = Resp.serialize (Resp.makeArray [lit "PUBLISH"; topic; payload]) ∧
  Esp8266.makeSubscribe topic = Resp.serialize (Resp.makeArray [lit "SUBSCRIBE"; topic]).
Proof.
  unfold Esp8266.makePublish, Esp8266.makeSubscribe. rewrite <-!app_assoc.
  split; cbn [Resp.makeArray Resp.array map Resp.serialize Resp.type Resp.bulkString Resp.asString Resp.value concat];
    rewrite app_nil_r; repeat (rewrite <-app_comm_cons || rewrite <-app_assoc); done.
Qed.

(** The texts of two readings of at most 40 characters leave the JSON of the
    ESP32 well inside the 512 bytes of the frame buffer: a round of [loop]
    never writes past its end. *)
Theorem esp32_never_overflows chipid status up g i :
  Esp32.clientId g = Esp32.clientId (fst (Esp32.setup chipid status up)) →
  (length (Esp32.temperature i) ≤ 40)%nat → (length (Esp32.humidity i) ≤ 40)%nat →
  0 ≤ Esp32.uptime_ms i < 2 ^ 32 →
  ∃ e, snd (Esp32.loop g i) = Ret e.
Proof.
  intros Hc Ht Hh Hu. apply loop_returns.
  assert (Hk : (length (Esp32.clientId g) ≤ 20)%nat).
  { rewrite Hc. cbn [Esp32.setup fst Esp32.clientId]. rewrite length_app.
    pose proof (hex_loop_length 8 (u32 chipid) []). unfold hex_string. simpl length in *. lia. }
  pose proof (json_length g i 20 Ht Hh Hu Hk). lia.
Qed.

Section lost.
Context `{LmdbLaws env txn} `{HashOrder} `{Sodium}.
Implicit Types s : Session.State env.

(** C37: No reading of the ESP32 sketch is ever published: its frames have no
    sequence field, so the broker reads a topic length above the limit, waits
    for more, and whatever the device sends after its first frame is staged
    without an answer; the broker's state does not change. This goes on until
    16 MB are staged, when the session answers an error and closes. *)
Theorem esp32_readings_lost now clk s g i g' e f rest :
  Esp32.loop g i = (g', Ret e) → ClientWrite f ∈ e → zlen (Esp32.json g i) < 2 ^ 32 →
  Session.recv_buffer_ (Session.me s) = [] → Session.protocol_type_ (Session.me s) ≠ Session.RESP →
  zlen (f ++ rest) ≤ Session.MAX_RECV_BUFFER →
  ∃ s', Session.on_data now clk (f ++ rest) s = (s', Ret true) ∧
    Session.recv_buffer_ (Session.me s') = f ++ rest ∧ Session.broker s' = Session.broker s.
Proof.
  intros Hl He Hj Hb Hp Hlen. pose proof (loop_frame g i g' e f Hl He) as Hf.
  exists (Session.staged now (f ++ rest) s).
  assert (Hsb : Session.recv_buffer_ (Session.me (Session.staged now (f ++ rest) s)) = f ++ rest).
  { simpl. by rewrite Hb. }
  split; [|done]. rewrite Session.on_data_eq, (proj2 (Z.ltb_ge _ _)) by (rewrite Hb; simpl; lia).
  assert (Hpr : Session.protocol_type_ (Session.me (Session.staged now (f ++ rest) s)) = Session.BINARY).
  { simpl. rewrite Hb. destruct (frame_bytes_head _ _ _ Hf) as (f' & ->).
    case_bool_decide; [done|]. by destruct (Session.protocol_type_ (Session.me s)). }
  unfold mbind, act_bind, Session.drain_stage. rewrite Hpr.
  destruct (frame_bytes_head _ _ _ Hf) as (f' & Hhead). rewrite Hsb, Hhead at 1. cbn [app length].
  rewrite Session.drain_none; [done|by rewrite Hsb, Hhead|].
  rewrite Hsb. apply (frame_bytes_rejected Esp32.TOPIC (Esp32.json g i)); [vm_compute; lia|done..| |done].
  intros c [= <-]. done.
Qed.
End lost.

(** ** Witnesses *)

(** A device that has booted and holds a connection, and a reading. *)
Definition booted : Esp32.globals := fst (Esp32.setup 0xA1B2C3 (λ _, true) true).
Definition reading : Esp32.input :=
  Esp32.mkInput true true 10000 true 0 (lit "21.5") (lit "40.2") 10000 true 0.

Lemma esp32_never_overflows_witness : ∃ e, snd (Esp32.loop booted reading) = Ret e.
Proof.
  apply (esp32_never_overflows 0xA1B2C3 (λ _, true) true booted reading); vm_compute; try done; lia.
Defined.

#[local] Existing Instance Broker.ElementsOrder.
#[local] Existing Instance ToySodium.

Definition reading_frame : bytes :=
  match Esp32.frame_bytes Esp32.TOPIC (Esp32.json booted reading) with Ret f => f | _ => [] end.

Lemma esp32_readings_lost_witness :
  ∃ s', Session.on_data 1 (λ _, Session.noon) (reading_frame ++ reading_frame) Session.demo = (s', Ret true) ∧
    Session.broker s' = Session.broker Session.demo.
Proof.
  destruct (esp32_readings_lost 1 (λ _, Session.noon) Session.demo booted reading
    (booted <| Esp32.lastPublish := 10000 |>) [ClientWrite reading_frame; Delay 100] reading_frame reading_frame)
    as (s' & E & _ & Hb).
  - reflexivity.
  - apply list_elem_of_here.
  - vm_compute. reflexivity.
  - reflexivity.
  - discriminate.
  - vm_compute. discriminate.
  - exact (ex_intro _ s' (conj E Hb)).
Defined.
