(* ===== verification/Clients.v ===== *)
(** * Clients: [src/pubsub.cpp], [src/binary_pubsub.cpp], [src/queue.cpp]

    Each method of the client library as a function from the object and from
    what [recv] returns to the object and the trace of its effects: the bytes
    handed to [::send] (whose result the code never looks at), the callbacks
    and the printed lines, in order. A receive loop is run over the list of
    packets [recv] returns before the connection is closed. *)

From S2P Require Import Prelude Text BinaryProtocol RespParser Signing.

Module Clients.

(** ** Effects *)

Record SignedMessageInfo := mkInfo {
  i_topic : bytes; i_payload : bytes; i_sequence : Z;
  i_is_signed : bool; i_key_id : Z; i_signature : bytes;
}.

Inductive reaction :=
| Wrote (data : bytes)                       (* [::send(sock_, data, size, 0)] *)
| Callback (topic payload : bytes)
| CallbackSigned (info : SignedMessageInfo)
| CallbackTask (payload : bytes)
| PrintedFrame (f : BinaryFrame)
| PrintedValue (v : Resp.RespValue)
| Confirmed                                  (* the line on subscription *)
| NotConnected                               (* the line when [sock_ == -1] *)
| NotConfigured                              (* the line when no signing key is set *)
| Rejected (reason : bytes)                  (* the line on a CMD_ERROR reply *)
| Closed.                                    (* the line when [recv] ends *)

(** A socket descriptor, [-1] when not connected. *)
Definition connected (sock : Z) : bool := negb (sock =? -1).

(** What a constructor leaves in [sock_], from the results of [socket] and
    [connect]. *)
Definition connect_client (socket connect : Z) : Z :=
  if socket =? -1 then -1 else if connect =? -1 then -1 else socket.

(** ** The receive loops *)

Section loops.
Context {V : Type} (parse : bytes → outcome (option (V * nat))) (react : V → list reaction).

(** [while (!recv_buffer.empty()) { parse; erase; react }]; a round consumes at
    least one byte, so the length of the buffer is fuel enough. *)
Fixpoint drain_buffer (fuel : nat) (buffer : bytes) : outcome (list reaction * bytes) :=
  match buffer with
  | [] => Ret ([], [])
  | _ :: _ =>
      match fuel with
      | O => Diverge
      | S f =>
          let! result := parse buffer in
          match result with
          | None => Ret ([], buffer)
          | Some (v, consumed) =>
              let! r := drain_buffer f (drop consumed buffer) in
              Ret (react v ++ fst r, snd r)
          end
      end
  end.

(** The packets [recv] returns until the connection is closed. *)
Fixpoint receive (packets : list bytes) (recv_buffer : bytes) : outcome (list reaction) :=
  match packets with
  | [] => Ret []
  | p :: packets' =>
      let recv_buffer := recv_buffer ++ p in
      let! r := drain_buffer (length recv_buffer) recv_buffer in
      let! rest := receive packets' (snd r) in
      Ret (fst r ++ rest)
  end.
End loops.

(** ** RESP clients: [pubsub.cpp] *)

(** [Publisher::send]; the reply is read and dropped. *)
Definition publisher_send (sock : Z) (topic payload : bytes) : list reaction :=
  if negb (connected sock) then [NotConnected]
  else [Wrote (Resp.serialize (Resp.makeArray [lit "PUBLISH"; topic; payload]))].

Definition on_resp (v : Resp.RespValue) : list reaction :=
  if Resp.isArray v then
    match Resp.asArray v with
    | a0 :: a1 :: a2 :: _ =>
        if bool_decide (Resp.asString a0 = lit "message")
        then [Callback (Resp.asString a1) (Resp.asString a2)] else []
    | _ => []
    end
  else [].

(** [Subscriber::subscribe] *)
Definition subscriber_subscribe (sock : Z) (topic : bytes) (packets : list bytes) : outcome (list reaction) :=
  if negb (connected sock) then Ret [NotConnected]
  else
    let! r := receive Resp.parse on_resp packets [] in
    Ret ([Wrote (Resp.serialize (Resp.makeArray [lit "SUBSCRIBE"; topic]))] ++ r ++ [Closed]).

(** [Subscriber::run] *)
Definition subscriber_run (sock : Z) (packets : list bytes) : outcome (list reaction) :=
  if negb (connected sock) then Ret [NotConnected]
  else
    let! r := receive Resp.parse (λ v, [PrintedValue v]) packets [] in
    Ret (r ++ [Closed]).

(** [Subscriber::sendAck] *)
Definition subscriber_sendAck (sock sequence : Z) : list reaction :=
  if negb (connected sock) then []
  else [Wrote (Resp.serialize (Resp.makeArray [lit "ACK"; to_string sequence]))].

(** ** Binary clients: [binary_pubsub.cpp] *)

Record BinaryPublisher := mkPublisher {
  sock_ : Z;
  sequence_ : Z;
  secret_key_ : bytes;
  signing_key_id_ : Z;
  signing_enabled_ : bool;
}.
#[global] Instance BinaryPublisher_fields : Fields BinaryPublisher := λ p,
  mkPublisher (sock_ p) (sequence_ p) (secret_key_ p) (signing_key_id_ p) (signing_enabled_ p).

(** The frame at the head of the reply [recv] gave ([[]] when [n <= 0]). *)
Definition read_reply (reply : bytes) : outcome (option BinaryFrame) :=
  match reply with
  | [] => Ret None
  | _ :: _ => let! result := BinaryProtocol.parse reply in Ret (fst <$> result)
  end.

(** [BinaryPublisher::send]: the reply is parsed and then ignored. *)
Definition binary_send (p : BinaryPublisher) (topic payload reply : bytes)
    : BinaryPublisher * outcome (list reaction) :=
  if negb (connected (sock_ p)) then (p, Ret [NotConnected])
  else
    let p := p <| sequence_ ::= λ n, u64 (n + 1) |> in
    let data := serialize (frame_publish topic payload (sequence_ p)) in
    (p, let! _ := read_reply reply in Ret [Wrote data]).

Definition setSigningKey (p : BinaryPublisher) (secret_key : bytes) (kid : Z) : BinaryPublisher :=
  p <| secret_key_ := secret_key |> <| signing_key_id_ := kid |> <| signing_enabled_ := true |>.

(** [BinaryPublisher::sendSigned] *)
Definition sendSigned `{Sodium} (p : BinaryPublisher) (topic payload reply : bytes)
    : BinaryPublisher * outcome (list reaction) :=
  if negb (connected (sock_ p)) then (p, Ret [NotConnected])
  else if negb (signing_enabled_ p) then (p, Ret [NotConfigured])
  else
    let message_to_sign := topic ++ payload in
    let signature := Signing.sign message_to_sign (secret_key_ p) in
    let p := p <| sequence_ ::= λ n, u64 (n + 1) |> in
    let data := serialize
      (frame_signed_publish topic payload signature (signing_key_id_ p) (sequence_ p)) in
    (p, let! r := read_reply reply in
        Ret (Wrote data ::
          match r with
          | Some f => if bool_decide (command f = CMD_ERROR) then [Rejected (BinaryProtocol.payload f)] else []
          | None => []
          end)).

Record BinarySubscriber := mkSubscriber {
  s_sock : Z;
  s_sequence : Z;
  client_id_ : bytes;
  auto_ack_ : bool;
}.
#[global] Instance BinarySubscriber_fields : Fields BinarySubscriber := λ s,
  mkSubscriber (s_sock s) (s_sequence s) (client_id_ s) (auto_ack_ s).

#[global] Instance BinarySubscriber_eq_dec : EqDecision BinarySubscriber.
Proof. solve_decision. Defined.

Definition new_subscriber (client_id : bytes) (socket connect : Z) : BinarySubscriber :=
  mkSubscriber (connect_client socket connect) 0 client_id true.

Definition setClientId (s : BinarySubscriber) (client_id : bytes) : BinarySubscriber :=
  s <| client_id_ := client_id |>.

(** [BinarySubscriber::sendAck] *)
Definition binary_sendAck (sock sequence : Z) : list reaction :=
  if negb (connected sock) then [] else [Wrote (serialize (frame_ack sequence))].

Definition is_message (f : BinaryFrame) : bool :=
  bool_decide (command f = CMD_MESSAGE) || bool_decide (command f = CMD_SIGNED_MESSAGE).

(** The topic field of a SUBSCRIBE, with the client identifier in front. *)
Definition subscribe_topic (client_id topic : bytes) : bytes :=
  if bool_decide (client_id = []) then topic else client_id ++ [char_of 0] ++ topic.

(** One frame in [BinarySubscriber::subscribe]. *)
Definition on_frame (sock : Z) (auto_ack : bool) (f : BinaryFrame) : list reaction :=
  if is_message f then
    Callback (topic f) (payload f) :: (if auto_ack then binary_sendAck sock (sequence f) else [])
  else if bool_decide (command f = CMD_ACK) then [Confirmed] else [].

(** One frame in [BinarySubscriber::subscribeSigned]. *)
Definition on_frame_signed (sock : Z) (auto_ack : bool) (f : BinaryFrame) : list reaction :=
  if is_message f then
    CallbackSigned (mkInfo (topic f) (payload f) (sequence f) (is_signed f) (key_id f)
      (if is_signed f then signature f else zero_signature)) ::
    (if auto_ack then binary_sendAck sock (sequence f) else [])
  else if bool_decide (command f = CMD_ACK) then [Confirmed] else [].

(** [BinarySubscriber::subscribe] and [BinarySubscriber::subscribeSigned]: the
    same but for what a frame leads to. *)
Definition subscribe_with (on : Z → bool → BinaryFrame → list reaction)
    (s : BinarySubscriber) (topic : bytes) (auto_ack : bool) (packets : list bytes)
    : BinarySubscriber * outcome (list reaction) :=
  if negb (connected (s_sock s)) then (s, Ret [NotConnected])
  else
    let s := s <| auto_ack_ := auto_ack |> <| s_sequence ::= λ n, u64 (n + 1) |> in
    let data := serialize (frame_subscribe (subscribe_topic (client_id_ s) topic) (s_sequence s)) in
    (s, let! r := receive BinaryProtocol.parse (on (s_sock s) (auto_ack_ s)) packets [] in
        Ret ([Wrote data] ++ r ++ [Closed])).

Definition binary_subscribe := subscribe_with on_frame.
Definition subscribeSigned := subscribe_with on_frame_signed.

(** [BinarySubscriber::run] *)
Definition binary_run (sock : Z) (packets : list bytes) : outcome (list reaction) :=
  if negb (connected sock) then Ret [NotConnected]
  else receive BinaryProtocol.parse (λ f, [PrintedFrame f]) packets [].

(** ** Queues: [queue.cpp], topics with the prefix ["q:"] *)

Definition queue_topic (queue_name : bytes) : bytes := lit "q:" ++ queue_name.

(** [QueueProducer::push], on the object's [sock_] and [sequence_]. *)
Definition queue_push (sock seq : Z) (queue_name payload reply : bytes) : Z * outcome (list reaction) :=
  if negb (connected sock) then (seq, Ret [NotConnected])
  else
    let seq := u64 (seq + 1) in
    let data := serialize (frame_publish (queue_topic queue_name) payload seq) in
    (seq, let! _ := read_reply reply in Ret [Wrote data]).

Definition on_queue_frame (f : BinaryFrame) : list reaction :=
  if bool_decide (command f = CMD_MESSAGE) then
    if bool_decide (take 2 (topic f) = lit "q:") then [CallbackTask (payload f)] else []
  else if bool_decide (command f = CMD_ACK) then [Confirmed] else [].

(** [QueueConsumer::pull] *)
Definition queue_pull (sock seq : Z) (queue_name : bytes) (packets : list bytes)
    : Z * outcome (list reaction) :=
  if negb (connected sock) then (seq, Ret [NotConnected])
  else
    let seq := u64 (seq + 1) in
    let data := serialize (frame_subscribe (queue_topic queue_name) seq) in
    (seq, let! r := receive BinaryProtocol.parse on_queue_frame packets [] in
          Ret ([Wrote data] ++ r ++ [Closed])).

(** [QueueConsumer::run] *)
Definition queue_run (sock : Z) (packets : list bytes) : outcome (list reaction) :=
  if negb (connected sock) then Ret [NotConnected]
  else receive BinaryProtocol.parse (λ f, [PrintedFrame f]) packets [].

(** ** What a protocol promises to a receive loop *)

Class Wire {V} (parse : bytes → outcome (option (V * nat))) (encode : V → bytes) (good : V → Prop) := {
  wire_reads b : ∃ r, parse b = Ret r ∧
    match r with Some (_, n) => (1 ≤ n ≤ length b)%nat | None => True end;
  wire_stable b r x : parse b = Ret (Some x) → parse (b ++ r) = Ret (Some x);
  wire_roundtrip v r : good v → parse (encode v ++ r) = Ret (Some (v, length (encode v)));
}.

#[global] Instance BinaryWire : Wire BinaryProtocol.parse serialize (λ f, frame_wf f = true).
Proof.
  split.
  - intros b. rewrite parse_is_ref. eexists. split; [done|].
    unfold parse_ref. destruct (frame_complete b) eqn:H; [|done].
    destruct (frame_complete_bounds _ H) as (? & ? & ? & ? & ? & Hs).
    rewrite Hs in *. destruct (is_signed_command _); lia.
  - intros b r [f n]. rewrite !parse_is_ref. intros [= Hp]. by rewrite (parse_ref_app _ r _ _ Hp).
  - intros f r Hf%frame_wf_spec. rewrite parse_is_ref. by rewrite parse_ref_serialize.
Qed.

#[global] Instance RespWire : Wire Resp.parse Resp.serialize (λ v, Resp.resp_wf v = true).
Proof.
  split.
  - intros b. destruct (Resp.parse_reads b) as (r & Hr & Hk). exists r. split; [done|].
    destruct r as [[v n]|]; [|done]. specialize (Hk v n eq_refl). lia.
  - intros b r x. apply Resp.parse_app.
  - intros v r. apply Resp.parse_serialize_value.
Qed.

Section stream.
Context {V : Type} {parse : bytes → outcome (option (V * nat))} {encode : V → bytes} {good : V → Prop}
  `{!Wire parse encode good} (react : V → list reaction).

Abbreviation drained b := (drain_buffer parse react (length b) b).

Lemma drain_buffer_fuel f1 f2 b :
  (length b ≤ f1)%nat → (length b ≤ f2)%nat → drain_buffer parse react f1 b = drain_buffer parse react f2 b.
Proof.
  revert f2 b. induction f1 as [|f1 IH]; intros f2 [|c b] H1 H2; simpl in H1, H2; try lia;
    try (destruct f2; done). destruct f2 as [|f2]; [lia|]. cbn [drain_buffer].
  destruct (wire_reads (c :: b)) as (r & -> & Hr). cbn [obind]. destruct r as [[v n]|]; [|done].
  rewrite (IH f2); [done|rewrite length_drop; simpl in *; lia..].
Qed.

Lemma drained_none b : parse b = Ret None → drained b = Ret ([], b).
Proof. intros Hp. destruct b as [|c b]; [done|]. cbn [drain_buffer length]. by rewrite Hp. Qed.

Lemma drained_some b v n :
  parse b = Ret (Some (v, n)) →
  drained b = (let! r := drained (drop n b) in Ret (react v ++ fst r, snd r)).
Proof.
  intros Hp. destruct (wire_reads b) as (r & Hr & Hb). rewrite Hp in Hr. injection Hr as <-.
  destruct b as [|c b]; [simpl in Hb; lia|]. cbn [drain_buffer length]. rewrite Hp. cbn [obind].
  rewrite (drain_buffer_fuel (length b) (length (drop n (c :: b)))); [done|rewrite length_drop; simpl in *; lia|lia].
Qed.

(** Draining always ends, with a rest that holds no complete value. *)
Definition settled (b : bytes) : Prop := b = [] ∨ parse b = Ret None.

Lemma drained_total b : ∃ out rest, drained b = Ret (out, rest) ∧ settled rest.
Proof.
  induction b as [b IH] using (induction_ltof1 _ (@length char)). unfold ltof in IH.
  destruct (wire_reads b) as (r & Hp & Hr). destruct r as [[v n]|].
  - rewrite (drained_some b v n Hp). destruct (IH (drop n b)) as (out & rest & -> & Hs);
      [rewrite length_drop; lia|]. cbn [obind fst snd]. eauto.
  - rewrite (drained_none b Hp). unfold settled. eauto.
Qed.

Lemma settled_drained b : settled b → drained b = Ret ([], b).
Proof. intros [->|Hp]; [done|by apply drained_none]. Qed.

Lemma drained_app b d o1 r1 o2 r2 :
  drained b = Ret (o1, r1) → drained (r1 ++ d) = Ret (o2, r2) → drained (b ++ d) = Ret (o1 ++ o2, r2).
Proof.
  revert o1 r1. induction b as [b IH] using (induction_ltof1 _ (@length char)). unfold ltof in IH.
  intros o1 r1 H1 H2. destruct (wire_reads b) as (r & Hp & Hr). destruct r as [[v n]|].
  - rewrite (drained_some b v n Hp) in H1.
    rewrite (drained_some (b ++ d) v n (wire_stable _ _ _ Hp)), drop_app_le by lia.
    destruct (drained (drop n b)) as [[o r']| |] eqn:Ed; cbn [obind fst snd] in H1; [|done..].
    injection H1 as <- <-.
    rewrite (IH (drop n b)) with (o1 := o) (r1 := r'); [|rewrite length_drop; lia|done|done].
    cbn [obind fst snd]. by rewrite app_assoc.
  - rewrite (drained_none b Hp) in H1. injection H1 as <- <-. done.
Qed.

Lemma receive_drained packets b :
  settled b → ∃ out rest, drained (b ++ concat packets) = Ret (out, rest) ∧
    receive parse react packets b = Ret out.
Proof.
  revert b. induction packets as [|p packets IH]; intros b Hb.
  { exists [], b. cbn [concat]. rewrite app_nil_r. split; [by apply settled_drained|done]. }
  destruct (drained_total (b ++ p)) as (o1 & r1 & E1 & Hs1).
  destruct (IH r1 Hs1) as (o2 & r2 & E2 & E3). exists (o1 ++ o2), r2.
  cbn [concat receive]. rewrite app_assoc, E1. cbn [obind fst snd]. rewrite E3. cbn [obind].
  split; [|done]. by eapply drained_app.
Qed.

Lemma drained_stream vs :
  Forall good vs → drained (concat (encode <$> vs)) = Ret (concat (react <$> vs), []).
Proof.
  induction 1 as [|v vs Hv _ IH]; [done|]. rewrite !fmap_cons. cbn [concat].
  rewrite (drained_some _ v (length (encode v)) (wire_roundtrip v _ Hv)), drop_app_length, IH. done.
Qed.

Lemma receive_stream vs packets :
  Forall good vs → concat packets = concat (encode <$> vs) →
  receive parse react packets [] = Ret (concat (react <$> vs)).
Proof.
  intros Hg Hc. destruct (receive_drained packets []) as (out & rest & E1 & E2); [by left|].
  rewrite app_nil_l, Hc, drained_stream in E1 by done. injection E1 as <- _. done.
Qed.

(** What follows bytes the parser gets no value from is never reacted to. *)
Lemma receive_stuck vs rest packets :
  Forall good vs → parse rest = Ret None → concat packets = concat (encode <$> vs) ++ rest →
  receive parse react packets [] = Ret (concat (react <$> vs)).
Proof.
  intros Hg Hn Hc. destruct (receive_drained packets []) as (out & rest' & E1 & E2); [by left|].
  rewrite app_nil_l, Hc, (drained_app _ rest _ [] [] rest (drained_stream vs Hg)) in E1.
  - injection E1 as <- _. by rewrite app_nil_r in E2.
  - by apply drained_none.
Qed.

(** More packets only add reactions. *)
Lemma receive_more packets more :
  ∃ out out', receive parse react packets [] = Ret out ∧ receive parse react (packets ++ more) [] = Ret (out ++ out').
Proof.
  enough (Hg : ∀ b, settled b → ∃ out out', receive parse react packets b = Ret out ∧
    receive parse react (packets ++ more) b = Ret (out ++ out')) by (apply Hg; by left).
  induction packets as [|p packets IH]; intros b Hb.
  - destruct (receive_drained more b Hb) as (out & _ & _ & E). by exists [], out.
  - cbn [app receive]. destruct (drained_total (b ++ p)) as (o1 & r1 & -> & Hs1). cbn [obind fst snd].
    destruct (IH r1 Hs1) as (out & out' & -> & ->). exists (o1 ++ out), out'. cbn [obind]. by rewrite app_assoc.
Qed.
End stream.

(** Reading always ends, whatever the other side sends. *)
Lemma receive_total {V prs} {enc : V → bytes} {good} `{!Wire prs enc good} (react : V → list reaction) packets :
  ∃ out, receive prs react packets [] = Ret out.
Proof. destruct (receive_drained react packets []) as (out & rest & _ & E); [by left|eauto]. Qed.

Lemma read_reply_total reply : ∃ r, read_reply reply = Ret r.
Proof.
  destruct reply as [|c b]; [by exists None|]. unfold read_reply.
  destruct (wire_reads (parse := BinaryProtocol.parse) (c :: b)) as (r & -> & _). cbn [obind]. eauto.
Qed.

Lemma subscribe_with_stream on s topic auto_ack frames packets :
  connected (s_sock s) = true →
  Forall (λ f, frame_wf f = true) frames → concat packets = concat (serialize <$> frames) →
  snd (subscribe_with on s topic auto_ack packets) =
    Ret ([Wrote (serialize (frame_subscribe (subscribe_topic (client_id_ s) topic) (u64 (s_sequence s + 1))))] ++
         concat (on (s_sock s) auto_ack <$> frames) ++ [Closed]).
Proof.
  intros Hc Hf Hp. unfold subscribe_with. rewrite Hc. cbn [negb snd].
  cbn [s_sock auto_ack_ client_id_ s_sequence set_field].
  by rewrite (receive_stream _ frames).
Qed.

(** The size of a RESP command of three words. *)
Lemma command_size a t d :
  zlen (Resp.serialize (Resp.makeArray [a; t; d])) =
    19 + zlen (to_string (zlen a)) + zlen a + zlen (to_string (zlen t)) + zlen t +
    zlen (to_string (zlen d)) + zlen d.
Proof.
  cbn [Resp.makeArray Resp.array map Resp.serialize Resp.type Resp.bulkString Resp.asString Resp.value concat].
  unfold Resp.crlf. change (to_string (zlen _)) with (lit "3") at 1.
  rewrite !length_cons, !length_app, !length_cons, !length_app. simpl length. lia.
Qed.

Lemma command_wf a t d :
  zlen (Resp.serialize (Resp.makeArray [a; t; d])) ≤ Resp.MAX_BULK_LEN →
  Resp.resp_wf (Resp.makeArray [a; t; d]) = true.
Proof.
  rewrite command_size. intros Hl. simpl.
  rewrite (proj2 (Z.leb_le (zlen a) _)), (proj2 (Z.leb_le (zlen t) _)), (proj2 (Z.leb_le (zlen d) _)) by lia. done.
Qed.

(** ** Theorems *)

(** A binary subscriber sees the messages: whatever packets a stream of
    well-formed frames is cut into, [subscribe] sends its request, reacts to
    every frame once and in order (callback, then ACK of the number in the
    frame), and ends when the connection does. *)
Theorem binary_subscriber_stream s topic auto_ack frames packets :
  connected (s_sock s) = true →
  Forall (λ f, frame_wf f = true) frames → concat packets = concat (serialize <$> frames) →
  snd (binary_subscribe s topic auto_ack packets) =
    Ret ([Wrote (serialize (frame_subscribe (subscribe_topic (client_id_ s) topic) (u64 (s_sequence s + 1))))] ++
         concat (on_frame (s_sock s) auto_ack <$> frames) ++ [Closed]).
Proof. apply subscribe_with_stream. Qed.

Lemma binary_subscriber_stream_witness :
  snd (binary_subscribe (new_subscriber (lit "me") 5 0) (lit "t") true
    [take 5 (serialize (frame_message (lit "t") (lit "x") 4)); drop 5 (serialize (frame_message (lit "t") (lit "x") 4))])
  = Ret [Wrote (serialize (frame_subscribe (lit "me" ++ [char_of 0] ++ lit "t") 1));
         Callback (lit "t") (lit "x"); Wrote (serialize (frame_ack 4)); Closed].
Proof.
  apply (binary_subscriber_stream (new_subscriber (lit "me") 5 0) (lit "t") true
    [frame_message (lit "t") (lit "x") 4]).
  - reflexivity.
  - repeat constructor.
  - vm_compute. reflexivity.
Defined.

(** The same for a RESP subscriber and a stream of RESP values. *)
Lemma resp_subscriber_stream sock topic values packets :
  connected sock = true →
  Forall (λ v, Resp.resp_wf v = true) values → concat packets = concat (Resp.serialize <$> values) →
  subscriber_subscribe sock topic packets =
    Ret ([Wrote (Resp.serialize (Resp.makeArray [lit "SUBSCRIBE"; topic]))] ++
         concat (on_resp <$> values) ++ [Closed]).
Proof.
  intros Hc Hf Hp. unfold subscriber_subscribe. rewrite Hc. cbn [negb].
  by rewrite (receive_stream _ values).
Qed.

(** The payloads a consumer's callback is handed. *)
Definition tasks (l : list reaction) : list bytes :=
  omap (λ r, match r with CallbackTask p => Some p | _ => None end) l.

Lemma tasks_app l1 l2 : tasks (l1 ++ l2) = tasks l1 ++ tasks l2.
Proof. apply omap_app. Qed.

(** A queue consumer is handed exactly the payloads of the MESSAGE frames whose
    topic has the queue prefix, each once and in order, whatever else the
    stream holds and however it is cut. *)
Theorem queue_stream sock seq name frames packets :
  connected sock = true →
  Forall (λ f, frame_wf f = true) frames → concat packets = concat (serialize <$> frames) →
  ∃ trace, snd (queue_pull sock seq name packets) = Ret trace ∧
    tasks trace = payload <$> filter (λ f, command f = CMD_MESSAGE ∧ starts_with (topic f) (lit "q:") = true) frames.
Proof.
  intros Hc Hf Hp. unfold queue_pull. rewrite Hc. cbn [negb snd]. rewrite (receive_stream _ frames) by done.
  eexists. split; [done|]. rewrite !tasks_app. rewrite app_nil_r. cbn [tasks omap list_omap app].
  clear. induction frames as [|f frames IH]; [done|].
  rewrite fmap_cons, filter_cons. cbn [concat]. rewrite tasks_app, IH.
  assert (Ht : starts_with (topic f) (lit "q:") = bool_decide (take 2 (topic f) = lit "q:"))
    by (symmetry; apply (starts_with_take _ (lit "q:"))).
  unfold on_queue_frame. rewrite <-Ht.
  destruct (decide (command f = CMD_MESSAGE)) as [E|E].
  - rewrite bool_decide_true by done. destruct (starts_with (topic f) (lit "q:")).
    + by rewrite decide_True.
    + rewrite decide_False; [done|by intros [_ ?]].
  - rewrite bool_decide_false by done. rewrite decide_False by (by intros [? _]).
    by destruct (bool_decide (command f = CMD_ACK)).
Qed.

Lemma queue_stream_witness :
  ∃ trace, snd (queue_pull 5 0 (lit "jobs")
      [serialize (frame_ack 1) ++ serialize (frame_message (queue_topic (lit "jobs")) (lit "x") 1)]) = Ret trace ∧
    tasks trace = [lit "x"].
Proof.
  apply (queue_stream 5 0 (lit "jobs") [frame_ack 1; frame_message (queue_topic (lit "jobs")) (lit "x") 1]).
  - reflexivity.
  - repeat constructor.
  - vm_compute. reflexivity.
Defined.

(** C38: No input makes a client hang in its parser or throw. The receive loop of
    either protocol handles whatever packets arrive, and what it did with them
    stands whatever arrives later, so a connection that stays open keeps being
    served; when it closes, every method that reads until then returns, and the
    methods that read one reply return on every reply. *)
Theorem clients_return `{Sodium} packets more topic payload reply :
  (∀ react : BinaryFrame → list reaction, ∃ out out',
     receive BinaryProtocol.parse react packets [] = Ret out ∧
     receive BinaryProtocol.parse react (packets ++ more) [] = Ret (out ++ out')) ∧
  (∀ react : Resp.RespValue → list reaction, ∃ out out',
     receive Resp.parse react packets [] = Ret out ∧
     receive Resp.parse react (packets ++ more) [] = Ret (out ++ out')) ∧
  (∀ sock, ∃ out, subscriber_subscribe sock topic packets = Ret out) ∧
  (∀ sock, ∃ out, subscriber_run sock packets = Ret out) ∧
  (∀ s auto_ack, ∃ out, snd (binary_subscribe s topic auto_ack packets) = Ret out) ∧
  (∀ s auto_ack, ∃ out, snd (subscribeSigned s topic auto_ack packets) = Ret out) ∧
  (∀ sock, ∃ out, binary_run sock packets = Ret out) ∧
  (∀ sock seq, ∃ out, snd (queue_pull sock seq topic packets) = Ret out) ∧
  (∀ sock, ∃ out, queue_run sock packets = Ret out) ∧
  (∀ p, ∃ out, snd (binary_send p topic payload reply) = Ret out) ∧
  (∀ p, ∃ out, snd (sendSigned p topic payload reply) = Ret out) ∧
  (∀ sock seq, ∃ out, snd (queue_push sock seq topic payload reply) = Ret out).
Proof.
  destruct (read_reply_total reply) as [r Hr].
  split; [intros react; apply (receive_more (parse := BinaryProtocol.parse))|].
  split; [intros react; apply (receive_more (parse := Resp.parse))|].
  repeat split; intros; unfold subscriber_subscribe, subscriber_run, binary_subscribe, subscribeSigned,
    subscribe_with, binary_run, queue_run, queue_pull, binary_send, sendSigned, queue_push;
    repeat match goal with |- context [if ?b then _ else _] => destruct b end; cbn [snd];
    try rewrite Hr; try match goal with |- context [receive ?p ?k packets []] =>
      destruct (receive_total k packets) as [out ->] end; cbn [obind]; eauto.
Qed.

End Clients.
