(* ===== verification/Calls.v ===== *)
(** * Calls: the client library as interactive programs

    [Clients] describes a method by the trace it leaves on given packets. Here
    the methods of [src/pubsub.cpp], [src/binary_pubsub.cpp] and
    [src/queue.cpp], with the constructors and destructors, are interaction
    trees: programs that ask the operating system for one thing at a time and
    may run forever. The trees are what the example programs are made of. *)

From ITree Require Import Core.ITreeDefinition.
From S2P Require Import Prelude Text BinaryProtocol RespParser Signing Clients.

#[export] Instance itree_ret {E} : MRet (itree E) := λ A a, go (RetF a).
#[export] Instance itree_bind {E} : MBind (itree E) := λ A B f t, ITree.bind t f.

(** ** Events *)

(** A name of a variable shared between threads. *)
Abbreviation var := bytes.

Variant callE : Type → Type :=
| Socket : callE Z                                       (* socket(AF_INET, SOCK_STREAM, 0) *)
| ConnectTo (sock address port : Z) : callE Z            (* connect *)
| Write (sock : Z) (data : bytes) : callE unit           (* ::send *)
| Recv (sock : Z) (size : nat) : callE bytes             (* recv; [[]] for a result of 0 or less *)
| CloseSocket (sock : Z) : callE unit                    (* close *)
| Print (text : bytes) : callE unit                      (* std::cout *)
| Report (text : bytes) : callE unit                     (* std::cerr *)
| Sleep (ms : Z) : callE unit                            (* std::this_thread::sleep_for *)
| GetChar : callE unit                                   (* std::cin.get() *)
| Now : callE Z                                          (* a clock *)
| Load (v : var) : callE Z                               (* an atomic variable is read *)
| Store (v : var) (z : Z) : callE unit                   (* ... written *)
| Increment (v : var) : callE Z                          (* ++v *)
| Spawn (body : nat) (captured : list Z) : callE nat     (* std::thread(lambda) *)
| Join (thread : nat) : callE unit                       (* thread.join() *)
| Exit (code : Z) : callE Empty_set                      (* exit(code), or the end of main *)
| Raise (what : string) : callE Empty_set.               (* an exception nobody catches *)

Abbreviation program A := (itree callE A).

Definition call {A} (e : callE A) : program A := ITree.trigger e.

Definition socket : program Z := call Socket.
Definition connect (sock address port : Z) : program Z := call (ConnectTo sock address port).
Definition write (sock : Z) (data : bytes) : program unit := call (Write sock data).
Definition recv (sock : Z) (size : nat) : program bytes := call (Recv sock size).
Definition close (sock : Z) : program unit := call (CloseSocket sock).
Definition print (text : bytes) : program unit := call (Print text).
Definition report (text : bytes) : program unit := call (Report text).
Definition sleep (ms : Z) : program unit := call (Sleep ms).
Definition getchar : program unit := call GetChar.
Definition exit_with {A} (code : Z) : program A := x ← call (Exit code); match x : Empty_set with end.
Definition raise {A} (what : string) : program A := x ← call (Raise what); match x : Empty_set with end.

(** The line of a text. *)
Definition ln (text : string) : bytes := lit text ++ [char_of 10].

(** An exception that is not caught, and a loop that does not end. *)
Definition of_outcome {A} (m : outcome A) : program A :=
  match m with Ret a => mret a | Throw what => raise what | Diverge => ITree.spin end.

(** [for (x : l) f(x)] *)
Fixpoint each {A} (l : list A) (f : A → program unit) : program unit :=
  match l with
  | [] => mret tt
  | x :: l' => _ ← f x; each l' f
  end.

(** A counting loop that passes an object on. *)
Fixpoint loop_with {A S} (l : list A) (f : S → A → program S) (s : S) : program S :=
  match l with
  | [] => mret s
  | x :: l' => s' ← f s x; loop_with l' f s'
  end.

(** [while (cond) body] *)
Definition while (cond : program bool) (body : program unit) : program unit :=
  ITree.iter (λ _ : unit, b ← cond; if b : bool then (_ ← body; mret (inl tt)) else mret (inr tt)) tt.

(** The numbers [first], ..., [last] of a counting loop. *)
Definition count_from (first : Z) (n : nat) : list Z := (λ i, first + Z.of_nat i) <$> seq 0 n.

(** ** Addresses *)

(** [htons(port)]: the port number taken to 16 bits. *)
Definition htons (port : Z) : Z := u16 port.

(** One number of a dotted address: one to three digits, no leading zero, at
    most 255. *)
Definition octet (s : bytes) : option Z :=
  if (1 <=? zlen s) && (zlen s <=? 3) && forallb is_digit s
  then
    let n := fold_left (λ n c, 10 * n + (char_code c - 48)) s 0 in
    if (n <=? 255) && negb (bool_decide (head s = Some (char_of 48)) && (1 <? zlen s)) then Some n else None
  else None.

(** The pieces of [s] between the dots. *)
Fixpoint split_dots (s : bytes) : list bytes :=
  match s with
  | [] => [[]]
  | c :: s' =>
      if bool_decide (c = char_of 46) then [] :: split_dots s'
      else match split_dots s' with
           | p :: ps => (c :: p) :: ps
           | [] => [[c]]
           end
  end.

(** [inet_pton(AF_INET, host, &addr.sin_addr)]: it stores nothing when it fails. *)
Definition inet_pton (host : bytes) : option Z :=
  match octet <$> split_dots host with
  | [Some a; Some b; Some c; Some d] => Some (a * 2 ^ 24 + b * 2 ^ 16 + c * 2 ^ 8 + d)
  | _ => None
  end.

(** [addr.sin_addr] of a [sockaddr_in addr{}] after the call, whose result no
    constructor looks at. *)
Definition sin_addr (host : bytes) : Z := default 0 (inet_pton host).

(** A name is not an address: every constructor connects to 0.0.0.0 instead. *)
Example dotted_address : sin_addr (lit "127.0.0.1") = 127 * 2 ^ 24 + 1.
Proof. reflexivity. Qed.
Example name_address : sin_addr (lit "localhost") = 0 ∧ sin_addr (lit "broker.example.com") = 0.
Proof. split; reflexivity. Qed.

(** ** Constructors and destructors *)

(** What the six constructors share; [connected] is the line of the [else]
    branch, which [Publisher] does not have. *)
Definition open_socket (who : string) (connected : program unit) (host : bytes) (port : Z) : program Z :=
  sock_ ← socket;
  if sock_ =? -1 then
    _ ← report (lit who ++ ln ": socket creation failed"); mret (-1)
  else
    r ← connect sock_ (sin_addr host) (htons port);
    if r =? -1 then
      _ ← report (lit who ++ ln ": connect failed");
      _ ← close sock_;
      mret (-1)
    else
      _ ← connected; mret sock_.

Definition new_Publisher (host : bytes) (port : Z) : program Z :=
  open_socket "Publisher" (mret tt) host port.
Definition new_Subscriber (host : bytes) (port : Z) : program Z :=
  open_socket "Subscriber"
    (print (lit "Subscriber CONNECTED successfully to " ++ host ++ lit ":" ++ to_string port ++ [char_of 10])) host port.
Definition new_BinaryPublisher (host : bytes) (port : Z) : program Clients.BinaryPublisher :=
  sock ← open_socket "BinaryPublisher" (print (ln "BinaryPublisher: CONNECTED (binary protocol)")) host port;
  mret (Clients.mkPublisher sock 0 (replicate 64 (char_of 0)) 0 false).
Definition new_BinarySubscriber (host : bytes) (port : Z) : program Clients.BinarySubscriber :=
  sock ← open_socket "BinarySubscriber" (print (ln "BinarySubscriber: CONNECTED (binary protocol)")) host port;
  mret (Clients.mkSubscriber sock 0 [] true).
Definition new_BinarySubscriber_id (client_id host : bytes) (port : Z) : program Clients.BinarySubscriber :=
  sock ← open_socket "BinarySubscriber"
    (print (lit "BinarySubscriber: CONNECTED (binary protocol, client: " ++ client_id ++ ln ")")) host port;
  mret (Clients.mkSubscriber sock 0 client_id true).
Definition new_QueueProducer (host : bytes) (port : Z) : program Z :=
  open_socket "QueueProducer" (print (ln "QueueProducer: CONNECTED (queue mode)")) host port.
Definition new_QueueConsumer (host : bytes) (port : Z) : program Z :=
  open_socket "QueueConsumer" (print (ln "QueueConsumer: CONNECTED (queue mode)")) host port.

(** The six destructors. *)
Definition close_socket (sock_ : Z) : program unit := if sock_ =? -1 then mret tt else close sock_.

(** ** The receive loops *)

(** [while (!recv_buffer.empty()) { parse; erase; handle }] *)
Definition drain_loop {V} (parse : bytes → outcome (option (V * nat))) (handle : V → program unit)
    : bytes → program bytes :=
  ITree.iter (λ recv_buffer,
    match recv_buffer with
    | [] => mret (inr [])
    | _ :: _ =>
        result ← of_outcome (parse recv_buffer);
        match result with
        | None => mret (inr recv_buffer)
        | Some (value, bytes_consumed) =>
            _ ← handle value;
            mret (inl (drop bytes_consumed recv_buffer))
        end
    end).

(** [while (true) { recv; append; drain }], left when [recv] returns 0 or less. *)
Definition receive_loop {V} (parse : bytes → outcome (option (V * nat))) (handle : V → program unit)
    (sock : Z) (closed : program unit) : program unit :=
  ITree.iter (λ recv_buffer,
    buffer ← recv sock 4096;
    match buffer with
    | [] => _ ← closed; mret (inr tt)
    | _ :: _ =>
        rest ← drain_loop parse handle (recv_buffer ++ buffer);
        mret (inl rest)
    end) [].

(** ** RESP clients *)

(** [Publisher::send] *)
Definition Publisher_send (sock_ : Z) (topic payload : bytes) : program unit :=
  if sock_ =? -1 then report (ln "Publisher: not connected")
  else
    _ ← write sock_ (Resp.serialize (Resp.makeArray [lit "PUBLISH"; topic; payload]));
    _ ← recv sock_ 1023;
    mret tt.

(** One value in [Subscriber::subscribe]. *)
Definition on_value (callback : bytes → bytes → program unit) (value : Resp.RespValue) : program unit :=
  if Resp.isArray value then
    match Resp.asArray value with
    | a0 :: a1 :: a2 :: _ =>
        if bool_decide (Resp.asString a0 = lit "message")
        then callback (Resp.asString a1) (Resp.asString a2) else mret tt
    | _ => mret tt
    end
  else mret tt.

(** [Subscriber::subscribe] *)
Definition Subscriber_subscribe (sock_ : Z) (topic : bytes) (callback : bytes → bytes → program unit)
    : program unit :=
  if sock_ =? -1 then report (ln "Subscriber: not connected")
  else
    _ ← write sock_ (Resp.serialize (Resp.makeArray [lit "SUBSCRIBE"; topic]));
    receive_loop Resp.parse (on_value callback) sock_ (report (ln "Subscriber: connection closed")).

(** [Subscriber::run] *)
Definition Subscriber_run (sock_ : Z) : program unit :=
  if sock_ =? -1 then report (ln "Subscriber: not connected")
  else
    _ ← print (ln "Subscriber running (blocking receive loop)...");
    receive_loop Resp.parse (λ value, print (lit "Raw RESP received: " ++ Resp.serialize value)) sock_
      (report (ln "Subscriber: connection closed")).

(** ** Binary clients *)

(** The reply is parsed and then ignored. *)
Definition read_ack (sock_ : Z) : program (option BinaryFrame) :=
  buffer ← recv sock_ 256;
  of_outcome (Clients.read_reply buffer).

(** [BinaryPublisher::send] *)
Definition BinaryPublisher_send (p : Clients.BinaryPublisher) (topic payload : bytes)
    : program Clients.BinaryPublisher :=
  if Clients.sock_ p =? -1 then _ ← report (ln "BinaryPublisher: not connected"); mret p
  else
    let p := p <| Clients.sequence_ ::= λ n, u64 (n + 1) |> in
    _ ← write (Clients.sock_ p) (serialize (frame_publish topic payload (Clients.sequence_ p)));
    _ ← read_ack (Clients.sock_ p);
    mret p.

(** [BinaryPublisher::sendSigned] *)
Definition BinaryPublisher_sendSigned `{Sodium} (p : Clients.BinaryPublisher) (topic payload : bytes)
    : program Clients.BinaryPublisher :=
  if Clients.sock_ p =? -1 then _ ← report (ln "BinaryPublisher: not connected"); mret p
  else if negb (Clients.signing_enabled_ p) then
    _ ← report (ln "BinaryPublisher: signing not configured (call setSigningKey first)"); mret p
  else
    let signature := Signing.sign (topic ++ payload) (Clients.secret_key_ p) in
    let p := p <| Clients.sequence_ ::= λ n, u64 (n + 1) |> in
    _ ← write (Clients.sock_ p)
          (serialize (frame_signed_publish topic payload signature (Clients.signing_key_id_ p) (Clients.sequence_ p)));
    result ← read_ack (Clients.sock_ p);
    _ ← match result with
        | Some f =>
            if bool_decide (command f = CMD_ERROR)
            then report (lit "BinaryPublisher: signed publish REJECTED: " ++ BinaryProtocol.payload f ++ [char_of 10])
            else mret tt
        | None => mret tt
        end;
    mret p.

(** [BinarySubscriber::sendAck] *)
Definition BinarySubscriber_sendAck (sock_ sequence : Z) : program unit :=
  if sock_ =? -1 then mret tt else write sock_ (serialize (frame_ack sequence)).

(** One frame in [BinarySubscriber::subscribe]. *)
Definition on_frame (s : Clients.BinarySubscriber) (topic : bytes) (callback : bytes → bytes → program unit)
    (f : BinaryFrame) : program unit :=
  if Clients.is_message f then
    _ ← callback (BinaryProtocol.topic f) (payload f);
    if Clients.auto_ack_ s then BinarySubscriber_sendAck (Clients.s_sock s) (sequence f) else mret tt
  else if bool_decide (command f = CMD_ACK) then
    _ ← print (lit "BinarySubscriber: Subscribed to '" ++ topic ++ lit "'");
    _ ← (if bool_decide (Clients.client_id_ s = []) then mret tt
         else print (lit " (client: " ++ Clients.client_id_ s ++ lit ")"));
    print [char_of 10]
  else mret tt.

(** One frame in [BinarySubscriber::subscribeSigned]. *)
Definition on_frame_signed (s : Clients.BinarySubscriber) (topic : bytes)
    (callback : Clients.SignedMessageInfo → program unit) (f : BinaryFrame) : program unit :=
  if Clients.is_message f then
    _ ← callback (Clients.mkInfo (BinaryProtocol.topic f) (payload f) (sequence f) (is_signed f) (key_id f)
          (if is_signed f then signature f else zero_signature));
    if Clients.auto_ack_ s then BinarySubscriber_sendAck (Clients.s_sock s) (sequence f) else mret tt
  else if bool_decide (command f = CMD_ACK) then
    print (lit "BinarySubscriber: Subscribed to '" ++ topic ++ ln "'")
  else mret tt.

(** The parts [subscribe] and [subscribeSigned] share. *)
Definition subscribe_loop (on : Clients.BinarySubscriber → BinaryFrame → program unit)
    (s : Clients.BinarySubscriber) (topic : bytes) (auto_ack : bool) : program Clients.BinarySubscriber :=
  if Clients.s_sock s =? -1 then _ ← report (ln "BinarySubscriber: not connected"); mret s
  else
    let s := s <| Clients.auto_ack_ := auto_ack |> <| Clients.s_sequence ::= λ n, u64 (n + 1) |> in
    _ ← write (Clients.s_sock s)
          (serialize (frame_subscribe (Clients.subscribe_topic (Clients.client_id_ s) topic) (Clients.s_sequence s)));
    _ ← receive_loop BinaryProtocol.parse (on s) (Clients.s_sock s)
          (report (ln "BinarySubscriber: connection closed"));
    mret s.

Definition BinarySubscriber_subscribe (s : Clients.BinarySubscriber) (topic : bytes)
    (callback : bytes → bytes → program unit) (auto_ack : bool) : program Clients.BinarySubscriber :=
  subscribe_loop (λ s, on_frame s topic callback) s topic auto_ack.
Definition BinarySubscriber_subscribeSigned (s : Clients.BinarySubscriber) (topic : bytes)
    (callback : Clients.SignedMessageInfo → program unit) (auto_ack : bool) : program Clients.BinarySubscriber :=
  subscribe_loop (λ s, on_frame_signed s topic callback) s topic auto_ack.

(** [BinarySubscriber::run] *)
Definition BinarySubscriber_run (s : Clients.BinarySubscriber) : program unit :=
  if Clients.s_sock s =? -1 then report (ln "BinarySubscriber: not connected")
  else
    _ ← print (ln "BinarySubscriber: running (debug mode)...");
    receive_loop BinaryProtocol.parse (λ f,
      print (lit "Frame received: cmd=" ++ to_string (command_byte (command f)) ++ lit " seq=" ++
             to_string (sequence f) ++ lit " topic=" ++ BinaryProtocol.topic f ++ lit " payload_size=" ++
             to_string (zlen (payload f)) ++ [char_of 10])) (Clients.s_sock s) (mret tt).

(** ** Queues *)

(** [QueueProducer::push], on [sock_] and [sequence_]. *)
Definition QueueProducer_push (sock_ sequence_ : Z) (queue_name payload : bytes) : program Z :=
  if sock_ =? -1 then _ ← report (ln "QueueProducer: not connected"); mret sequence_
  else
    let sequence_ := u64 (sequence_ + 1) in
    _ ← write sock_ (serialize (frame_publish (Clients.queue_topic queue_name) payload sequence_));
    _ ← read_ack sock_;
    mret sequence_.

(** One frame in [QueueConsumer::pull]. *)
Definition on_queue_frame (queue_name : bytes) (callback : bytes → program unit) (f : BinaryFrame) : program unit :=
  if bool_decide (command f = CMD_MESSAGE) then
    if bool_decide (take 2 (BinaryProtocol.topic f) = lit "q:") then callback (payload f) else mret tt
  else if bool_decide (command f = CMD_ACK) then
    print (lit "QueueConsumer: Pulled from '" ++ queue_name ++ ln "'")
  else mret tt.

(** [QueueConsumer::pull] *)
Definition QueueConsumer_pull (sock_ sequence_ : Z) (queue_name : bytes) (callback : bytes → program unit)
    : program unit :=
  if sock_ =? -1 then report (ln "QueueConsumer: not connected")
  else
    _ ← write sock_ (serialize (frame_subscribe (Clients.queue_topic queue_name) (u64 (sequence_ + 1))));
    receive_loop BinaryProtocol.parse (on_queue_frame queue_name callback) sock_
      (report (ln "QueueConsumer: connection closed")).

(** [QueueConsumer::run] *)
Definition QueueConsumer_run (sock_ : Z) : program unit :=
  if sock_ =? -1 then report (ln "QueueConsumer: not connected")
  else
    _ ← print (ln "QueueConsumer: running (debug mode)...");
    receive_loop BinaryProtocol.parse (λ f,
      print (lit "Queue task: " ++ BinaryProtocol.topic f ++ lit " = " ++ payload f ++ [char_of 10])) sock_ (mret tt).
