(* ===== verification/Refine.v ===== *)
(** * Refine: the programs of [Calls] do what [Clients] says

    [Clients] gives the effects of a method as a list, computed from what
    [recv] returns; [Calls] gives the method as a program that asks for one
    packet at a time. When the answers of [recv] are supplied from a list, the
    program is equivalent, up to silent steps, to performing the reactions of
    that list one after the other, and it ends with the object [Clients]
    computes. *)

From ITree Require Import ITree ITreeFacts Events.State Events.StateFacts.
From S2P Require Import Prelude Text BinaryProtocol RespParser Signing Clients Calls.

Module Refine.

(** ** Supplying packets *)

(** What [recv] on [sock] returns: the next packet, or nothing when the
    connection has been closed. Every other call is left as it is. *)
Definition pass {A} (e : callE A) (packets : list bytes) : program (list bytes * A) := x ← call e; mret (packets, x).

Definition feed (sock : Z) (A : Type) (e : callE A) (packets : list bytes) : program (list bytes * A) :=
  match e in callE A return program (list bytes * A) → program (list bytes * A) with
  | Recv s size => λ other, if s =? sock then mret (tail packets, default [] (head packets)) else other
  | _ => λ other, other
  end (pass e packets).

Definition fed {A} (sock : Z) (t : program A) (packets : list bytes) : program (list bytes * A) :=
  interp_state (feed sock) t packets.

Definition receives {A} (sock : Z) (e : callE A) : bool :=
  match e with Recv s _ => s =? sock | _ => false end.

Lemma fed_ret {A} sock (a : A) packets : fed sock (mret a) packets ≈ mret (packets, a).
Proof. unfold fed, mret, itree_ret. rewrite interp_state_ret. reflexivity. Qed.

Lemma fed_bind {A B} sock (t : program A) (k : A → program B) packets :
  fed sock (t ≫= k) packets ≈ (r ← fed sock t packets; fed sock (k r.2) r.1).
Proof. unfold fed, mbind, itree_bind. rewrite interp_state_bind. reflexivity. Qed.

Lemma fed_trigger {A} sock (e : callE A) packets : fed sock (call e) packets ≈ feed sock A e packets.
Proof. unfold fed, call. rewrite interp_state_trigger. reflexivity. Qed.

Lemma fed_call {A} sock (e : callE A) packets :
  receives sock e = false → fed sock (call e) packets ≈ pass e packets.
Proof.
  intros He. rewrite fed_trigger. destruct e; try reflexivity. cbn in He |- *. rewrite He. reflexivity.
Qed.

Lemma fed_report sock text packets : fed sock (report text) packets ≈ (_ ← report text; mret (packets, tt)).
Proof.
  unfold report. rewrite fed_call by reflexivity. apply eutt_clo_bind with (UU := eq); [reflexivity|]. intros [] [] _. reflexivity.
Qed.

Lemma fed_recv sock size packets :
  fed sock (recv sock size) packets ≈ mret (tail packets, default [] (head packets)).
Proof. unfold recv. rewrite fed_trigger. cbn. rewrite Z.eqb_refl. reflexivity. Qed.

(** Rewriting under a sequence. *)
#[local] Instance mbind_eutt {A B} :
  Proper (pointwise_relation A (eutt (@eq B)) ==> eutt (@eq A) ==> eutt (@eq B)) (mbind (M := itree callE)).
Proof. intros k1 k2 Hk t1 t2 Ht. unfold mbind, itree_bind. apply eutt_clo_bind with (UU := eq); [done|]. by intros u1 _ <-. Qed.

Lemma seq_ret {A B} (a : A) (k : A → program B) : (mret a ≫= k) ≈ k a.
Proof. unfold mret, mbind, itree_bind, itree_ret. rewrite bind_ret_l. reflexivity. Qed.

Lemma seq_seq {A B C} (t : program A) (k : A → program B) (h : B → program C) :
  ((t ≫= k) ≫= h) ≈ (x ← t; k x ≫= h).
Proof. unfold mbind, itree_bind. rewrite bind_bind. reflexivity. Qed.

Lemma seq_end {A} (t : program A) : (t ≫= λ x, mret x) ≈ t.
Proof. unfold mret, mbind, itree_bind, itree_ret. rewrite bind_ret_r. reflexivity. Qed.

(** ** Programs that leave the socket alone *)

Definition untouched {A} (sock : Z) (t : program A) : Prop :=
  ∀ packets, fed sock t packets ≈ (x ← t; mret (packets, x)).

Lemma untouched_call {A} sock (e : callE A) : receives sock e = false → untouched sock (call e).
Proof. intros He packets. by apply fed_call. Qed.

Lemma untouched_ret {A} sock (a : A) : untouched sock (mret a).
Proof. intros packets. by rewrite fed_ret, seq_ret. Qed.

Lemma untouched_bind {A B} sock (t : program A) (k : A → program B) :
  untouched sock t → (∀ a, untouched sock (k a)) → untouched sock (t ≫= k).
Proof.
  intros Ht Hk packets. rewrite fed_bind, (Ht packets), !seq_seq. setoid_rewrite seq_ret. cbn.
  apply mbind_eutt; [|reflexivity]. intros a. apply Hk.
Qed.

Lemma fed_untouched {A B} sock (t : program A) (k : A → program B) packets :
  untouched sock t → fed sock (t ≫= k) packets ≈ (x ← t; fed sock (k x) packets).
Proof. intros Ht. rewrite fed_bind, (Ht packets), seq_seq. by setoid_rewrite seq_ret. Qed.

(** ** The receive loops *)

Lemma iter_unfold {A B} (f : A → program (A + B)) a :
  ITree.iter f a ≈ (r ← f a; match r with inl a' => ITree.iter f a' | inr b => mret b end).
Proof.
  rewrite unfold_iter. unfold mbind, itree_bind. apply eutt_clo_bind with (UU := eq); [reflexivity|].
  intros u1 u2 ->. destruct u2; [apply tau_eutt|reflexivity].
Qed.

Lemma fed_iter {A B} sock (f : A → program (A + B)) a packets :
  fed sock (ITree.iter f a) packets ≈
  (r ← fed sock (f a) packets; match r.2 with inl a' => fed sock (ITree.iter f a') r.1 | inr b => mret (r.1, b) end).
Proof.
  assert (fed sock (ITree.iter f a) packets ≈ fed sock (f a ≫= λ r, match r with inl a' => ITree.iter f a' | inr b => mret b end) packets)
    as ->. { unfold fed. by rewrite iter_unfold. }
  rewrite fed_bind. apply mbind_eutt; [|reflexivity]. intros [ps [a'|b]]; cbn; [reflexivity|apply fed_ret].
Qed.

Lemma each_app {A} (l1 l2 : list A) f : each (l1 ++ l2) f ≈ (_ ← each l1 f; each l2 f).
Proof.
  induction l1 as [|x l1 IH]; cbn [each app]; [by rewrite seq_ret|]. rewrite seq_seq. by setoid_rewrite IH.
Qed.

Section loops.
Context {V : Type} {parse : bytes → outcome (option (V * nat))} {encode : V → bytes} {good : V → Prop}
  `{!Clients.Wire parse encode good}.

(** How each reaction is performed, and that a value is handled by performing
    the reactions to it. *)
Context (sock : Z) (react : V → list Clients.reaction) (perform : Clients.reaction → program unit) (on : V → program unit).
Context (on_performs : ∀ v, on v ≈ each (react v) perform) (on_untouched : ∀ v, untouched sock (on v)).

Abbreviation drained b := (Clients.drain_buffer parse react (length b) b).

Lemma fed_drain b packets out rest :
  drained b = Ret (out, rest) →
  fed sock (drain_loop parse on b) packets ≈ (_ ← each out perform; mret (packets, rest)).
Proof.
  revert out. induction b as [b IH] using (induction_ltof1 _ (@length char)). unfold ltof in IH. intros out Hd.
  unfold drain_loop. rewrite fed_iter. destruct b as [|c b].
  { injection Hd as <- <-. rewrite fed_ret. cbn [each]. rewrite !seq_ret. reflexivity. }
  destruct (Clients.wire_reads (c :: b)) as (r & Hp & Hr). rewrite Hp. cbn [of_outcome].
  rewrite fed_untouched by apply untouched_ret. rewrite seq_ret. destruct r as [[v n]|].
  - rewrite (Clients.drained_some react _ v n Hp) in Hd.
    destruct (Clients.drained_total react (drop n (c :: b))) as (out' & rest' & Hd' & _).
    rewrite Hd' in Hd. injection Hd as <- <-. rewrite fed_untouched by apply on_untouched. rewrite seq_seq.
    setoid_rewrite fed_ret. setoid_rewrite seq_ret. cbn.
    setoid_rewrite (IH (drop n (c :: b)) ltac:(rewrite length_drop; simpl in *; lia) out' Hd').
    rewrite (on_performs v), each_app, seq_seq. reflexivity.
  - rewrite (Clients.drained_none react _ Hp) in Hd. injection Hd as <- <-. rewrite fed_ret. cbn [each]. rewrite !seq_ret. reflexivity.
Qed.

(** The whole loop, up to the end of the connection. *)
Lemma fed_receive packets closed out :
  Forall (λ p, p ≠ []) packets → untouched sock closed →
  Clients.receive parse react packets [] = Ret out →
  fed sock (receive_loop parse on sock closed) packets ≈ (_ ← each out perform; _ ← closed; mret ([], tt)).
Proof.
  intros Hne Hc. unfold receive_loop. generalize ([] : bytes) as b. revert out.
  induction Hne as [|p packets Hp _ IH]; intros out b Hr; rewrite fed_iter, fed_bind, fed_recv, !seq_ret; cbn [fst snd tail head default].
  - injection Hr as <-. cbn [each]. rewrite fed_untouched by done. setoid_rewrite fed_ret.
    rewrite !seq_ret, seq_seq. setoid_rewrite seq_ret. reflexivity.
  - cbn [Clients.receive] in Hr. destruct (Clients.drained_total react (b ++ p)) as (o1 & rest & Hd & _).
    rewrite Hd in Hr. cbn [obind fst snd] in Hr.
    destruct (Clients.receive parse react packets rest) as [o2| |] eqn:E2; [|done..]. injection Hr as <-.
    destruct p as [|c p]; [done|]. cbn [from_option id]. rewrite fed_bind, (fed_drain _ _ _ _ Hd), !seq_seq.
    setoid_rewrite seq_ret. cbn [fst snd]. setoid_rewrite fed_ret. setoid_rewrite seq_ret. cbn [fst snd].
    setoid_rewrite (IH o2 rest E2). rewrite each_app, seq_seq. reflexivity.
Qed.
End loops.

(** ** The methods *)

(** What the object says on a line of its own. *)
Record voice := mkVoice { who : string; confirmed : program unit }.

(** How the reactions of an object are performed. *)
Definition perform (sock : Z) (v : voice) (callback : bytes → bytes → program unit)
    (signed : Clients.SignedMessageInfo → program unit) (task : bytes → program unit)
    (r : Clients.reaction) : program unit :=
  match r with
  | Clients.Wrote data => write sock data
  | Clients.Callback topic payload => callback topic payload
  | Clients.CallbackSigned info => signed info
  | Clients.CallbackTask payload => task payload
  | Clients.PrintedFrame f =>
      print (lit "Frame received: cmd=" ++ to_string (command_byte (command f)) ++ lit " seq=" ++
             to_string (sequence f) ++ lit " topic=" ++ BinaryProtocol.topic f ++ lit " payload_size=" ++
             to_string (zlen (payload f)) ++ [char_of 10])
  | Clients.PrintedValue value => print (lit "Raw RESP received: " ++ Resp.serialize value)
  | Clients.Confirmed => confirmed v
  | Clients.NotConnected => report (lit (who v) ++ ln ": not connected")
  | Clients.NotConfigured => report (ln "BinaryPublisher: signing not configured (call setSigningKey first)")
  | Clients.Rejected reason => report (lit "BinaryPublisher: signed publish REJECTED: " ++ reason ++ [char_of 10])
  | Clients.Closed => report (lit (who v) ++ ln ": connection closed")
  end.

Definition silent {A} (_ : A) : program unit := mret tt.

Lemma each_one {A} (x : A) f : each [x] f ≈ f x.
Proof.
  cbn [each]. rewrite <-(seq_end (f x)) at 2. apply mbind_eutt; [|reflexivity]. intros []. reflexivity.
Qed.

Lemma each_cons {A B} (x : A) l f (k : unit → program B) : (each (x :: l) f ≫= k) ≈ (_ ← f x; each l f ≫= k).
Proof. cbn [each]. apply seq_seq. Qed.

Ltac untouch := repeat first
  [ apply untouched_ret | apply untouched_call; reflexivity | apply untouched_bind; [|intros ?]
  | match goal with
    | |- untouched _ (if ?c then _ else _) => destruct c
    | |- untouched _ (match ?c with _ => _ end) => destruct c
    | H : context [untouched _ _] |- _ => apply H
    end ].

(** The line on subscription. *)
Definition subscribed_line (client_id topic : bytes) : program unit :=
  _ ← print (lit "BinarySubscriber: Subscribed to '" ++ topic ++ lit "'");
  _ ← (if bool_decide (client_id = []) then mret tt else print (lit " (client: " ++ client_id ++ lit ")"));
  print [char_of 10].

Definition subscriber_voice (client_id topic : bytes) : voice :=
  mkVoice "BinarySubscriber" (subscribed_line client_id topic).

Lemma on_frame_performs s topic callback f :
  on_frame s topic callback f ≈
    each (Clients.on_frame (Clients.s_sock s) (Clients.auto_ack_ s) f)
      (perform (Clients.s_sock s) (subscriber_voice (Clients.client_id_ s) topic) callback silent silent).
Proof.
  unfold on_frame, Clients.on_frame. destruct (Clients.is_message f).
  - cbn [each perform]. apply mbind_eutt; [|reflexivity]. intros _. destruct (Clients.auto_ack_ s); [|reflexivity].
    unfold BinarySubscriber_sendAck, Clients.binary_sendAck, Clients.connected.
    destruct (Clients.s_sock s =? -1); cbn [negb]; [reflexivity|]. by rewrite each_one.
  - case_bool_decide; [|reflexivity]. rewrite each_one. reflexivity.
Qed.

(** A method that writes its request and then listens until the connection is
    closed. *)
Lemma fed_listen {V} {parse : bytes → outcome (option (V * nat))} {encode good} `{!Clients.Wire parse encode good}
    sock react perf (on : V → program unit) data closed packets out :
  (∀ v, on v ≈ each (react v) perf) → (∀ v, untouched sock (on v)) → Forall (λ p, p ≠ []) packets →
  perf (Clients.Wrote data) = write sock data → perf Clients.Closed = report closed →
  Clients.receive parse react packets [] = Ret out →
  fed sock (_ ← write sock data; receive_loop parse on sock (report closed)) packets ≈
    (_ ← each ([Clients.Wrote data] ++ out ++ [Clients.Closed]) perf; mret ([], tt)).
Proof.
  intros Hon Hun Hne Hw Hcl Hr. rewrite fed_untouched by untouch. cbn [app]. rewrite each_cons, Hw.
  apply mbind_eutt; [|reflexivity]. intros _.
  rewrite (fed_receive sock react perf on Hon Hun _ _ out) by (untouch || done). rewrite each_app, seq_seq.
  apply mbind_eutt; [|reflexivity]. intros _. rewrite each_one, Hcl. reflexivity.
Qed.

(** [BinarySubscriber::subscribe] as a program that asks for one packet at
    a time is equivalent to the trace that the functional model computes from
    the packets: the same request, the same callbacks, each followed by its
    ACK, the same lines, in the same order, up to the end of the connection, and
    the same object afterwards. The callback may be any program that does not
    read from the subscriber's socket. *)
Theorem subscribe_fed s topic callback auto_ack packets s' out :
  (∀ t p, untouched (Clients.s_sock s) (callback t p)) → Forall (λ p, p ≠ []) packets →
  Clients.binary_subscribe s topic auto_ack packets = (s', Ret out) →
  fed (Clients.s_sock s) (BinarySubscriber_subscribe s topic callback auto_ack) packets ≈
    (_ ← each out (perform (Clients.s_sock s) (subscriber_voice (Clients.client_id_ s) topic) callback silent silent);
     mret (if Clients.connected (Clients.s_sock s) then [] else packets, s')).
Proof.
  intros Hcb Hne. unfold Clients.binary_subscribe, Clients.subscribe_with, BinarySubscriber_subscribe, subscribe_loop.
  unfold Clients.connected. destruct (Clients.s_sock s =? -1) eqn:Es; cbn [negb].
  { intros [= <- <-]. rewrite fed_untouched by untouch. rewrite each_one. setoid_rewrite fed_ret. reflexivity. }
  set (s1 := s <| Clients.auto_ack_ := auto_ack |> <| Clients.s_sequence ::= λ n, u64 (n + 1) |>).
  intros [= <- Hr]. change (Clients.s_sock s) with (Clients.s_sock s1) in *. change (Clients.client_id_ s) with (Clients.client_id_ s1).
  destruct (Clients.receive _ _ packets []) as [o| |] eqn:E; [|done..]. injection Hr as <-.
  rewrite <-seq_seq, fed_bind.
  rewrite (fed_listen _ (Clients.on_frame (Clients.s_sock s1) (Clients.auto_ack_ s1)) (perform (Clients.s_sock s1) (subscriber_voice (Clients.client_id_ s1) topic) callback silent silent)
    (on_frame s1 topic callback) _ (ln "BinarySubscriber: connection closed") packets o); try done.
  - rewrite seq_seq. apply mbind_eutt; [|reflexivity]. intros _. rewrite seq_ret. apply fed_ret.
  - intros f. apply on_frame_performs.
  - intros f. unfold on_frame, BinarySubscriber_sendAck. untouch.
Qed.

(** [BinarySubscriber::subscribeSigned] *)
Lemma on_frame_signed_performs s topic callback f :
  on_frame_signed s topic callback f ≈
    each (Clients.on_frame_signed (Clients.s_sock s) (Clients.auto_ack_ s) f)
      (perform (Clients.s_sock s)
         (mkVoice "BinarySubscriber" (print (lit "BinarySubscriber: Subscribed to '" ++ topic ++ ln "'")))
         (λ _ _, mret tt) callback silent).
Proof.
  unfold on_frame_signed, Clients.on_frame_signed. destruct (Clients.is_message f).
  - cbn [each perform]. apply mbind_eutt; [|reflexivity]. intros _. destruct (Clients.auto_ack_ s); [|reflexivity].
    unfold BinarySubscriber_sendAck, Clients.binary_sendAck, Clients.connected.
    destruct (Clients.s_sock s =? -1); cbn [negb]; [reflexivity|]. by rewrite each_one.
  - case_bool_decide; [|reflexivity]. rewrite each_one. reflexivity.
Qed.

(** [Subscriber::subscribe] *)
Lemma subscriber_fed sock topic callback packets out :
  (∀ t p, untouched sock (callback t p)) → Forall (λ p, p ≠ []) packets →
  Clients.subscriber_subscribe sock topic packets = Ret out →
  fed sock (Subscriber_subscribe sock topic callback) packets ≈
    (_ ← each out (perform sock (mkVoice "Subscriber" (mret tt)) callback silent silent);
     mret (if Clients.connected sock then [] else packets, tt)).
Proof.
  intros Hcb Hne. unfold Clients.subscriber_subscribe, Subscriber_subscribe, Clients.connected.
  destruct (sock =? -1) eqn:Es; cbn [negb].
  { intros [= <-]. rewrite each_one. apply fed_report. }
  intros Hr. destruct (Clients.receive _ _ packets []) as [o| |] eqn:E; [|done..]. injection Hr as <-.
  apply (fed_listen _ Clients.on_resp); try done.
  - intros v. unfold on_value, Clients.on_resp. destruct (Resp.isArray v); [|reflexivity].
    destruct (Resp.asArray v) as [|a0 [|a1 [|a2 l]]]; try reflexivity. case_bool_decide; [|reflexivity]. by rewrite each_one.
  - intros v. unfold on_value. untouch.
Qed.

(** [QueueConsumer::pull] *)
Lemma pull_fed sock seq queue callback packets seq' out :
  (∀ p, untouched sock (callback p)) → Forall (λ p, p ≠ []) packets →
  Clients.queue_pull sock seq queue packets = (seq', Ret out) →
  fed sock (QueueConsumer_pull sock seq queue callback) packets ≈
    (_ ← each out (perform sock
           (mkVoice "QueueConsumer" (print (lit "QueueConsumer: Pulled from '" ++ queue ++ ln "'")))
           (λ _ _, mret tt) silent callback);
     mret (if Clients.connected sock then [] else packets, tt)).
Proof.
  intros Hcb Hne. unfold Clients.queue_pull, QueueConsumer_pull, Clients.connected.
  destruct (sock =? -1) eqn:Es; cbn [negb].
  { intros [= <- <-]. rewrite each_one. apply fed_report. }
  intros [= <- Hr]. destruct (Clients.receive _ _ packets []) as [o| |] eqn:E; [|done..]. injection Hr as <-.
  apply (fed_listen _ Clients.on_queue_frame); try done.
  - intros f. unfold on_queue_frame, Clients.on_queue_frame. repeat case_bool_decide; try reflexivity; by rewrite each_one.
  - intros f. unfold on_queue_frame. untouch.
Qed.

(** *** Senders: one reply is read *)

Lemma fed_read_ack sock reply packets r :
  Clients.read_reply reply = Ret r → fed sock (read_ack sock) (reply :: packets) ≈ mret (packets, r).
Proof. intros E. unfold read_ack. rewrite fed_bind, fed_recv, seq_ret. cbn [fst snd tail head default from_option id]. rewrite E. apply fed_ret. Qed.

Abbreviation publishing sock :=
  (perform sock (mkVoice "BinaryPublisher" (mret tt)) (λ _ _, mret tt) silent silent).

Lemma send_fed p topic payload reply p' out :
  Clients.binary_send p topic payload reply = (p', Ret out) →
  fed (Clients.sock_ p) (BinaryPublisher_send p topic payload) [reply] ≈
    (_ ← each out (publishing (Clients.sock_ p)); mret (if Clients.connected (Clients.sock_ p) then [] else [reply], p')).
Proof.
  unfold Clients.binary_send, BinaryPublisher_send, Clients.connected. destruct (Clients.sock_ p =? -1); cbn [negb].
  { intros [= <- <-]. rewrite fed_untouched by untouch. rewrite each_one. setoid_rewrite fed_ret. reflexivity. }
  intros [= <- Hr]. destruct (Clients.read_reply reply) as [r| |] eqn:E; [|done..]. injection Hr as <-.
  rewrite fed_untouched by untouch. rewrite each_one. apply mbind_eutt; [|reflexivity]. intros _.
  rewrite fed_bind.
  change (Clients.sock_ (p <| Clients.sequence_ ::= λ n, u64 (n + 1) |>)) with (Clients.sock_ p). rewrite (fed_read_ack _ _ _ _ E), seq_ret. apply fed_ret.
Qed.

Lemma sendSigned_fed `{Sodium} p topic payload reply p' out :
  Clients.sendSigned p topic payload reply = (p', Ret out) →
  fed (Clients.sock_ p) (BinaryPublisher_sendSigned p topic payload) [reply] ≈
    (_ ← each out (publishing (Clients.sock_ p));
     mret (if Clients.connected (Clients.sock_ p) && Clients.signing_enabled_ p then [] else [reply], p')).
Proof.
  unfold Clients.sendSigned, BinaryPublisher_sendSigned, Clients.connected. destruct (Clients.sock_ p =? -1); cbn [negb].
  { intros [= <- <-]. rewrite fed_untouched by untouch. rewrite each_one. setoid_rewrite fed_ret. reflexivity. }
  destruct (Clients.signing_enabled_ p); cbn [negb andb].
  2: { intros [= <- <-]. rewrite fed_untouched by untouch. rewrite each_one. setoid_rewrite fed_ret. reflexivity. }
  intros [= <- Hr]. destruct (Clients.read_reply reply) as [r| |] eqn:E; [|done..]. injection Hr as <-.
  rewrite fed_untouched by untouch. rewrite each_cons. apply mbind_eutt; [|reflexivity]. intros _.
  rewrite fed_bind.
  change (Clients.sock_ (p <| Clients.sequence_ ::= λ n, u64 (n + 1) |>)) with (Clients.sock_ p). rewrite (fed_read_ack _ _ _ _ E), seq_ret. cbn [fst snd].
  rewrite fed_untouched by (destruct r; [case_bool_decide|]; untouch). setoid_rewrite fed_ret.
  apply mbind_eutt; [|destruct r; [case_bool_decide|]; try reflexivity; by rewrite each_one]. intros _. reflexivity.
Qed.

(** ** Witness *)

Definition subscriber : Clients.BinarySubscriber := Clients.mkSubscriber 3 0 (lit "c") true.
Definition message : bytes := serialize (frame_message (lit "t") (lit "hello") 7).

(** The confirmation and a message cut in two. *)
Definition packets : list bytes := [serialize (frame_ack 1) ++ take 5 message; drop 5 message].

Lemma subscribe_fed_witness :
  fed 3 (BinarySubscriber_subscribe subscriber (lit "t") (λ _ payload, print payload) true) packets ≈
    (_ ← each [Clients.Wrote (serialize (frame_subscribe (lit "c" ++ [char_of 0] ++ lit "t") 1)); Clients.Confirmed;
               Clients.Callback (lit "t") (lit "hello"); Clients.Wrote (serialize (frame_ack 7)); Clients.Closed]
           (perform 3 (subscriber_voice (lit "c") (lit "t")) (λ _ payload, print payload) silent silent);
     mret ([], Clients.mkSubscriber 3 1 (lit "c") true)).
Proof.
  apply (subscribe_fed subscriber).
  - intros t p. by apply untouched_call.
  - repeat constructor; vm_compute; discriminate.
  - vm_compute. reflexivity.
Defined.
End Refine.
