(* ===== verification/Network.v ===== *)
(** * Network: client programs and the broker together

    A process of threads, each a program of [Calls], beside the broker with its
    sessions. A connection is the session at the broker's end, the bytes the
    client has written and the broker has not read, and how much of what the
    broker has sent the client has read. The broker handles what one [recv] of
    a session returned as one step ([Programs.alone_is_sequential]), and its
    own writes are taken; between any two calls of the clients it may take any
    number of steps. A client that writes to a connection the broker has closed
    may be killed by SIGPIPE. *)

From ITree Require Import Core.ITreeDefinition.
From S2P Require Import Prelude Text BinaryProtocol RespParser Lmdb Storage Signing Keystore Metrics Broker Session Clients Calls.

Module Network.

(** ** Connections *)

(** The broker's end: not accepted yet, a session, or closed. *)
Inductive peer := Queued | Live (m : Session.Session) | Gone.

Record conn := mkConn {
  side : peer;
  to_broker : bytes;        (* written by the client, not read by the broker *)
  got : nat;                (* how many bytes the client has read *)
  client_open : bool;
}.
#[global] Instance conn_fields : Fields conn := λ c, mkConn (side c) (to_broker c) (got c) (client_open c).

Record world (env : Type) := mkWorld {
  broker : Broker.Broker env;
  keystore : Keystore.TrustedKeyStore;
  conns : gmap Z conn;      (* by the client's descriptor, which also names the session *)
  next_sock : Z;
  console : list bytes;     (* std::cout *)
  errors : list bytes;      (* std::cerr *)
  vars : gmap var Z;
}.
Arguments mkWorld {env}.
Arguments broker {env} _.
Arguments keystore {env} _.
Arguments conns {env} _.
Arguments next_sock {env} _.
Arguments console {env} _.
Arguments errors {env} _.
Arguments vars {env} _.
#[global] Instance world_fields env : Fields (world env) := λ w,
  mkWorld (broker w) (keystore w) (conns w) (next_sock w) (console w) (errors w) (vars w).

Section world.
Context {env : Type}.
Implicit Types w : world env.

(** What the broker has sent on a connection. *)
Definition stream w (x : Z) : bytes := concat (Broker.sent (Broker.outbox (broker w)) x).

Definition set_conn w (x : Z) (c : conn) : world env := w <| conns ::= <[x := c]> |>.

Definition value w (v : var) : Z := default 0 (vars w !! v).

(** ** Answers of the operating system *)

(** The port of [src/main.cpp]. *)
Definition broker_port : Z := 6379.

(** The broker listens on every local address: 127.0.0.0/8, and 0.0.0.0, which
    a connecting socket takes for the own machine. *)
Definition is_local (address : Z) : bool := (address =? 0) || (Z.shiftr address 24 =? 127).

Definition listens w (address port : Z) : bool :=
  negb (Broker.shutdown_requested_ (broker w)) && is_local address && (port =? broker_port).

Definition gone (p : peer) : bool := match p with Gone => true | _ => false end.

(** The bytes that [recv] finds. *)
Definition unread w (x : Z) (c : conn) : bytes := drop (got c) (stream w x).

(** What a call of a client does and answers; [None]: it blocks. The answers of
    [socket], [connect] and the clocks are those of the schedule ([-1] is a
    failure). *)
Definition handle (ans : Z) {A} (e : callE A) (w : world env) : option (world env * A) :=
  match e in callE A return option (world env * A) with
  | Socket =>
      if ans =? -1 then Some (w, -1) else Some (w <| next_sock ::= Z.succ |>, next_sock w)
  | ConnectTo sock address port =>
      if (ans =? -1) || negb (listens w address port) then Some (w, -1)
      else Some (set_conn w sock (mkConn Queued [] 0 true), 0)
  | Write sock data =>
      match conns w !! sock with
      | Some c =>
          if client_open c && negb (gone (side c))
          then Some (set_conn w sock (c <| to_broker ::= λ b, b ++ data |>), tt) else Some (w, tt)
      | None => Some (w, tt)
      end
  | Recv sock size =>
      match conns w !! sock with
      | Some c =>
          if negb (client_open c) then Some (w, [])
          else
            match take size (unread w sock c) with
            | [] => if gone (side c) then Some (w, []) else None
            | packet => Some (set_conn w sock (c <| got ::= λ n, (n + length packet)%nat |>), packet)
            end
      | None => Some (w, [])
      end
  | CloseSocket sock =>
      match conns w !! sock with
      | Some c => Some (set_conn w sock (c <| client_open := false |>), tt)
      | None => Some (w, tt)
      end
  | Print text => Some (w <| console ::= λ l, l ++ [text] |>, tt)
  | Report text => Some (w <| errors ::= λ l, l ++ [text] |>, tt)
  | Sleep _ => Some (w, tt)
  | GetChar => Some (w, tt)
  | Now => Some (w, ans)
  | Load v => Some (w, value w v)
  | Store v z => Some (w <| vars ::= <[v := z]> |>, tt)
  | Increment v => Some (w <| vars ::= <[v := value w v + 1]> |>, value w v + 1)
  | Spawn _ _ | Join _ | Exit _ | Raise _ => None
  end.

(** A write to a connection the broker has closed: the first ones are taken,
    until the kernel knows, and then one raises SIGPIPE; [-1] says that it
    does. *)
Definition broken_pipe (ans : Z) {A} (e : callE A) (w : world env) : bool :=
  match e with
  | Write sock _ =>
      match conns w !! sock with
      | Some c => client_open c && gone (side c) && (ans =? -1)
      | None => false
      end
  | _ => false
  end.
End world.

(** ** Steps *)

Inductive label :=
| App (thread : nat) (ans : Z)                                (* a thread of the process *)
| Accept (x : Z) (now : Z)                                    (* the accept loop *)
| Serve (x : Z) (now : Z) (clk : Session.clock)               (* a session reads *)
| Timeout (x : Z) (now : Z)                                   (* its recv times out *)
| Hangup (x : Z).                                             (* its recv returns 0 *)

(** [Killed]: by SIGPIPE, which none of the programs handles. *)
Inductive status := Running | Exited (code : Z) | Aborted (what : string) | Killed.

Record process (env : Type) := mkProcess {
  here : world env;
  threads : gmap nat (program unit);        (* 0 is the thread of main *)
  next_thread : nat;
  ended : status;
}.
Arguments mkProcess {env}.
Arguments here {env} _.
Arguments threads {env} _.
Arguments next_thread {env} _.
Arguments ended {env} _.

(** The lambdas the process starts threads with, by number, on the values they
    capture. *)
Definition text := nat → list Z → program unit.

Section steps.
Context `{LmdbOps env txn} `{HashOrder} `{Sodium}.
Implicit Types w : world env.

(** How much a session's [recv] reads at once. *)
Definition RECV_SIZE : nat := 4096.

(** One turn of [Session::run] on what [recv] reported. *)
Definition session_turn w (x : Z) (c : conn) (m : Session.Session) (ev : Session.recv_event) : option (world env) :=
  match Session.run [ev] (Session.mkState m (broker w) (keystore w)) with
  | (s, Ret over) =>
      Some (set_conn (w <| broker := Session.broker s |> <| keystore := Session.keystore s |>) x
              (c <| side := if over : bool then Gone else Live (Session.me s) |>))
  | _ => None
  end.

Definition broker_step (l : label) w : option (world env) :=
  match l with
  | Accept x now =>
      match conns w !! x with
      | Some (mkConn Queued _ _ _ as c) =>
          let b := fst (Broker.accept_client x (broker w)) in
          Some (set_conn (w <| broker := b |>) x
                  (c <| side := if bool_decide (x ∈ Broker.sessions_ b) then Live (Session.new_session x now) else Gone |>))
      | _ => None
      end
  | Serve x now clk =>
      match conns w !! x with
      | Some (mkConn (Live m) ((_ :: _) as data) _ _ as c) =>
          session_turn w x (c <| to_broker := drop RECV_SIZE data |>) m
            (Session.RecvData now (λ _, clk) (take RECV_SIZE data))
      | _ => None
      end
  | Timeout x now =>
      match conns w !! x with
      | Some (mkConn (Live m) [] _ _ as c) => session_turn w x c m (Session.RecvTimeout now)
      | _ => None
      end
  | Hangup x =>
      match conns w !! x with
      | Some (mkConn (Live m) [] _ false as c) => session_turn w x c m Session.RecvClosed
      | _ => None
      end
  | App _ _ => None
  end.

(** The end of the process, which closes its sockets. *)
Definition finish (st : status) (p : process env) : process env :=
  mkProcess (here p <| conns ::= fmap (λ c, c <| client_open := false |>) |>) ∅ (next_thread p) st.

(** A call of the thread [i]; the end of [main] is the end of the process. *)
Definition thread_step (txt : text) (i : nat) (ans : Z) (p : process env) : option (process env) :=
  match threads p !! i with
  | None => None
  | Some t =>
      let continue w t' := Some (mkProcess w (<[i := t']> (threads p)) (next_thread p) Running) in
      match observe t with
      | RetF _ =>
          if bool_decide (i = 0%nat) then Some (finish (Exited 0) p)
          else Some (mkProcess (here p) (delete i (threads p)) (next_thread p) Running)
      | TauF t' => continue (here p) t'
      | @VisF _ _ _ X e k =>
          match e in callE A return (A → program unit) → option (process env) with
          | Spawn body captured => λ k,
              let j := next_thread p in
              Some (mkProcess (here p) (<[j := txt body captured]> (<[i := k j]> (threads p))) (S j) Running)
          | Join j => λ k, if bool_decide (threads p !! j = None) then continue (here p) (k tt) else None
          | Exit code => λ _, Some (finish (Exited code) p)
          | Raise what => λ _, Some (finish (Aborted what) p)
          | e => λ k,
              if broken_pipe ans e (here p) then Some (finish Killed p)
              else
                match handle ans e (here p) with
                | Some (w, a) => continue w (k a)
                | None => None
                end
          end k
      end
  end.

Definition step (txt : text) (l : label) (p : process env) : option (process env) :=
  match l with
  | App i ans => thread_step txt i ans p
  | _ => (λ w, mkProcess w (threads p) (next_thread p) (ended p)) <$> broker_step l (here p)
  end.

Definition start (w : world env) (main : program unit) : process env :=
  mkProcess w {[ 0%nat := main ]} 1 Running.

(** Whatever the schedule. *)
Inductive reaches (txt : text) (w : world env) (main : program unit) : process env → Prop :=
| reaches_start : reaches txt w main (start w main)
| reaches_step p l p' : reaches txt w main p → step txt l p = Some p' → reaches txt w main p'.

(** ** A schedule to evaluate

    The broker first, then the threads in the order they were started, [main]
    last: whenever [main] sleeps, everything else has come to rest. *)
Definition candidates (p : process env) : list label :=
  concat ((λ xc, [Accept (fst xc) 0; Serve (fst xc) 0 (Session.mkClock 0 0); Hangup (fst xc)]) <$>
    map_to_list (conns (here p))) ++
  ((λ i, App i 0) <$> seq 1 (next_thread p)) ++ [App 0 0].

Definition eager_step (txt : text) (p : process env) : option (process env) :=
  fold_right (λ l r, match step txt l p with Some p' => Some p' | None => r end) None (candidates p).

Fixpoint eager (txt : text) (fuel : nat) (p : process env) : process env :=
  match fuel with
  | O => p
  | S f => match eager_step txt p with Some p' => eager txt f p' | None => p end
  end.

Lemma eager_step_some txt p p' : eager_step txt p = Some p' → ∃ l, step txt l p = Some p'.
Proof.
  unfold eager_step. induction (candidates p) as [|l ls IH]; [done|]. cbn [fold_right].
  destruct (step txt l p) as [q|] eqn:E; [intros [= <-]; eauto|done].
Qed.

Lemma eager_reaches txt w main n p : reaches txt w main p → reaches txt w main (eager txt n p).
Proof.
  revert p. induction n as [|n IH]; intros p Hp; [done|]. cbn [eager].
  destruct (eager_step txt p) as [p'|] eqn:E; [|done]. apply IH.
  destruct (eager_step_some txt p p' E) as [l Hl]. by eapply reaches_step.
Qed.
End steps.

(** A machine with a broker that has just been started on an empty database. *)
Definition fresh_world : world MemLmdb :=
  mkWorld (Broker.new_broker ∅) Keystore.new_store ∅ 3 [] [] ∅.

(** A program on such a machine, under the schedule above. *)
Definition run `{HashOrder} `{Sodium} (txt : text) (fuel : nat) (main : program unit) : process MemLmdb :=
  eager txt fuel (start fresh_world main).

Lemma run_reached `{HashOrder} `{Sodium} txt fuel main : reaches txt fresh_world main (run txt fuel main).
Proof. apply eager_reaches, reaches_start. Qed.

End Network.
