(* ===== verification/NetLogic.v ===== *)
(** * NetLogic: reasoning about client programs under every schedule

    Two judgements over the trees of [Calls]. [triple P t Q] is for a thread
    that runs beside the broker alone: an assertion holds before every call,
    and no step of the broker disturbs it. [rg] is for a thread beside the
    broker and one other thread, by rely and guarantee; it is indexed by a
    number of calls, since the thread may run forever. [duo] puts a first part
    that runs alone and two threads after it together. *)

From ITree Require Import Core.ITreeDefinition Eq.Shallow.
From S2P Require Import Prelude Text BinaryProtocol RespParser Lmdb Storage Signing Keystore Metrics Broker Session Clients Calls Network.

Module NetLogic.
Import Network.

Section logic.
Context `{LmdbOps env txn} `{HashOrder} `{Sodium}.
Implicit Types w : world env.
Implicit Types P : world env → Prop.

(** Calls that concern only the calling thread and the world. *)
Definition local {A} (e : callE A) : bool :=
  match e with Spawn _ _ | Join _ | Exit _ | Raise _ => false | _ => true end.

(** What may be on the console, and how the process may end. *)
Context (printable : list bytes → Prop) (ends : status → Prop).

(** No step of the broker disturbs the assertion, and what is on the console
    while it holds is allowed. *)
Definition stable P : Prop :=
  (∀ l w w', broker_step l w = Some w' → P w → P w') ∧ (∀ w, P w → printable (console w)).

Lemma broker_step_client l w w' : broker_step l w = Some w' → console w' = console w ∧ vars w' = vars w.
Proof.
  destruct l as [i ans|x now|x now clk|x now|x]; cbn [broker_step]; [done|..];
    destruct (conns w !! x) as [[[|m|] [|c b] g []]|]; try done; try (by intros [= <-]);
    unfold session_turn; destruct (Session.run _ _) as [s [over| |]]; try done; by intros [= <-].
Qed.

(** ** A thread beside the broker *)

Inductive triple {A} : (world env → Prop) → program A → (A → world env → Prop) → Prop :=
| triple_done P t Q r : observe t = RetF r → (∀ w, P w → Q r w) → triple P t Q
| triple_tau P t Q t' : observe t = TauF t' → triple P t' Q → triple P t Q
| triple_vis P t Q X (e : callE X) k (R : X → world env → Prop) :
    observe t = VisF e k → local e = true → (∀ a, stable (R a)) →
    (∀ ans w w' a, P w → handle ans e w = Some (w', a) → R a w') →
    (∀ a, triple (R a) (k a) Q) → triple P t Q
| triple_absurd P t Q : (∀ w, ¬ P w) → triple P t Q.

Lemma triple_observe {A} P (t t' : program A) Q : observe t' = observe t → triple P t Q → triple P t' Q.
Proof.
  intros E Ht. destruct Ht as [P t Q r Er HQ|P t Q u Et Hu|P t Q X e k R Ee Hl Hs Hh Hk|P t Q Hn].
  - eapply triple_done; [by rewrite E|done].
  - eapply triple_tau; [by rewrite E|done].
  - eapply triple_vis; [by rewrite E|done..].
  - by apply triple_absurd.
Qed.

Lemma triple_pre {A} P P' (t : program A) Q : (∀ w, P' w → P w) → triple P t Q → triple P' t Q.
Proof.
  intros HP Ht. destruct Ht as [P t Q r Er HQ|P t Q u Et Hu|P t Q X e k R Ee Hl Hs Hh Hk|P t Q Hn].
  - eapply triple_done; eauto.
  - (* the tail keeps the assertion of the head *)
    revert P' HP. induction Hu as [P u Q r Er HQ|P u Q u' Eu Hu IH|P u Q X e k R Ee Hl Hs Hh Hk _|P u Q Hn] in t, Et |- *;
      intros P' HP; eapply triple_tau; try exact Et.
    + eapply triple_done; eauto.
    + by eapply IH.
    + eapply triple_vis; eauto.
    + apply triple_absurd. naive_solver.
  - eapply triple_vis; eauto.
  - apply triple_absurd. naive_solver.
Qed.

Lemma triple_post {A} P (t : program A) Q Q' : (∀ r w, Q r w → Q' r w) → triple P t Q → triple P t Q'.
Proof.
  intros HQ. induction 1; [eapply triple_done|eapply triple_tau|eapply triple_vis|apply triple_absurd]; eauto.
Qed.

Lemma triple_ret {A} P (a : A) (Q : A → world env → Prop) : (∀ w, P w → Q a w) → triple P (mret a) Q.
Proof. by eapply triple_done. Qed.

Lemma triple_bind {A B} P (t : program A) (k : A → program B) Q R :
  triple P t Q → (∀ r, triple (Q r) (k r) R) → triple P (t ≫= k) R.
Proof.
  intros Ht Hk. induction Ht as [P t Q r Er HQ|P t Q u Et Hu IH|P t Q X e h S Ee Hl Hs Hh _ IH|P t Q Hn].
  - apply (triple_observe _ (k r)); [unfold mbind, itree_bind; by rewrite observe_bind, Er|].
    eapply triple_pre; [|apply Hk]. auto.
  - eapply triple_tau; [unfold mbind, itree_bind; by rewrite observe_bind, Et|]. by apply IH.
  - eapply triple_vis; [unfold mbind, itree_bind; by rewrite observe_bind, Ee|done..|]. intros a. by apply IH.
  - by apply triple_absurd.
Qed.

Lemma triple_call {A} P (e : callE A) Q :
  local e = true → (∀ a, stable (Q a)) →
  (∀ ans w w' a, P w → handle ans e w = Some (w', a) → Q a w') → triple P (call e) Q.
Proof. intros Hl Hs Hh. eapply triple_vis; [done..|]. intros a. by apply triple_ret. Qed.

(** A call that answers nothing and keeps the assertion. *)
Lemma triple_skip (e : callE unit) P :
  local e = true → stable P →
  (∀ ans w w', P w → handle ans e w = Some (w', tt) → P w') → triple P (call e) (λ _, P).
Proof. intros Hl Hs Hh. apply triple_call; [done..|]. by intros ans w w' []; eauto. Qed.

(** ** A thread beside another one *)

Inductive role := Main | Child.

(** What each of the two threads may do to the world. *)
Context (guarantee : role → world env → world env → Prop) (Inv : world env → Prop).

Definition other (ρ : role) : role := match ρ with Main => Child | Child => Main end.

(** Neither the broker nor the other thread disturbs the assertion. *)
Definition stab (ρ : role) P : Prop :=
  (∀ l w w', broker_step l w = Some w' → Inv w → P w → P w') ∧
  (∀ w w', guarantee (other ρ) w w' → Inv w → Inv w' → P w → P w').

(** Of the calls that concern the pool, [join] and some ends are allowed. *)
Definition joins {A X} (e : callE X) (F : program A → Prop) : (X → program A) → Prop :=
  match e in callE X return (X → program A) → Prop with
  | Join _ => λ k, F (k tt)
  | Exit code => λ _, ends (Exited code)
  | Raise what => λ _, ends (Aborted what)
  | _ => λ _, False
  end.

Fixpoint rg (ρ : role) (n : nat) {A} P (t : program A) (Q : A → world env → Prop) : Prop :=
  match n with
  | O => True
  | S n =>
      match observe t with
      | RetF r => ∀ w, Inv w → P w → Q r w
      | TauF t' => rg ρ n P t' Q
      | @VisF _ _ _ X e k =>
          if local e then
            ∃ R, (∀ a, stab ρ (R a)) ∧
              (∀ ans w w' a, Inv w → P w → handle ans e w = Some (w', a) →
                 Inv w' ∧ guarantee ρ w w' ∧ R a w') ∧
              ∀ a, rg ρ n (R a) (k a) Q
          else ∀ w, Inv w → P w → joins e (λ t', rg ρ n P t' Q) k
      end
  end.

Lemma joins_mono {A X} (e : callE X) (F G : program A → Prop) k :
  (∀ t, F t → G t) → joins e F k → joins e G k.
Proof. intros HFG. destruct e; try done. apply HFG. Qed.

Lemma rg_observe {A} ρ n P (t t' : program A) Q : observe t' = observe t → rg ρ n P t Q → rg ρ n P t' Q.
Proof. destruct n; [done|]. cbn [rg]. by intros ->. Qed.

Lemma rg_fewer {A} ρ n P (t : program A) Q : rg ρ (S n) P t Q → rg ρ n P t Q.
Proof.
  revert P t. induction n as [|n IH]; intros P t Ht; [done|].
  change (match observe t with
          | RetF r => ∀ w, Inv w → P w → Q r w
          | TauF t' => rg ρ (S n) P t' Q
          | @VisF _ _ _ X e k =>
              if local e then
                ∃ R, (∀ a, stab ρ (R a)) ∧
                  (∀ ans w w' a, Inv w → P w → handle ans e w = Some (w', a) → Inv w' ∧ guarantee ρ w w' ∧ R a w') ∧
                  ∀ a, rg ρ (S n) (R a) (k a) Q
              else ∀ w, Inv w → P w → joins e (λ t', rg ρ (S n) P t' Q) k
          end) in Ht.
  cbn [rg]. destruct (observe t) as [r|u|X e k]; [done|by apply IH|]. destruct (local e).
  - destruct Ht as (R & Hs & Hh & Hk). exists R. split; [done|]. split; [done|]. intros a. by apply IH.
  - intros w Hi HP. generalize (Ht w Hi HP). apply joins_mono. intros u. apply IH.
Qed.

Lemma rg_pre {A} ρ n P P' (t : program A) Q :
  (∀ w, Inv w → P' w → P w) → rg ρ n P t Q → rg ρ n P' t Q.
Proof.
  intros HP. revert t. induction n as [|n IH]; [done|]. intros t. cbn [rg].
  destruct (observe t) as [r|u|X e k]; [auto|by apply IH|]. destruct (local e).
  - intros (R & Hs & Hh & Hk). exists R. split; [done|]. split; [|done]. intros ans w w' a Hi HP'. apply Hh; auto.
  - intros Ht w Hi HP'. generalize (Ht w Hi (HP w Hi HP')). apply joins_mono. intros u. apply IH.
Qed.

Lemma rg_ret {A} ρ n P (a : A) (Q : A → world env → Prop) : (∀ w, Inv w → P w → Q a w) → rg ρ n P (mret a) Q.
Proof. by destruct n. Qed.

Lemma rg_post {A} ρ n P (t : program A) Q Q' :
  (∀ r w, Inv w → Q r w → Q' r w) → rg ρ n P t Q → rg ρ n P t Q'.
Proof.
  intros HQ. revert P t. induction n as [|n IH]; [done|]. intros P t. cbn [rg].
  destruct (observe t) as [r|u|X e k]; [eauto|by apply IH|]. destruct (local e).
  - intros (R & Hs & Hh & Hk). exists R. split; [done|]. split; [done|]. intros a. by apply IH.
  - intros Ht w Hi HP. generalize (Ht w Hi HP). apply joins_mono. intros u. apply IH.
Qed.

(** A value at the head of a sequence. *)
Lemma rg_ret_bind {A B} ρ n P (a : A) (k : A → program B) Q : rg ρ n P (k a) Q → rg ρ n P (mret a ≫= k) Q.
Proof. by apply rg_observe. Qed.

(** A point that is never reached. *)
Lemma rg_absurd {A} ρ n P (t : program A) Q : (∀ w, Inv w → ¬ P w) → rg ρ n P t Q.
Proof.
  intros HP. revert P HP t. induction n as [|n IH]; [done|]. intros P HP t. cbn [rg].
  destruct (observe t) as [r|u|X e k]; [by intros w Hi ?%HP|by apply IH|]. destruct (local e).
  - exists (λ _ _, False). split; [by split|]. split; [by intros ans w w' a Hi ?%HP|]. intros a. apply IH. tauto.
  - by intros w Hi ?%HP.
Qed.

Lemma joins_bind {A B X} (e : callE X) (k : X → program A) (f : A → program B) (F : program A → Prop) G :
  (∀ t, F t → G (ITree.bind t f)) → joins e F k → joins e G (λ x, ITree.bind (k x) f).
Proof. intros HFG. destruct e; try done. apply HFG. Qed.

Lemma rg_bind {A B} ρ n P (t : program A) (k : A → program B) Q R :
  rg ρ n P t Q → (∀ r, rg ρ n (Q r) (k r) R) → rg ρ n P (t ≫= k) R.
Proof.
  revert P t. induction n as [|n IH]; [done|]. intros P t Ht Hk.
  assert (Hk' : ∀ r, rg ρ n (Q r) (k r) R) by (intros r; by apply rg_fewer).
  pose proof (observe_bind t k) as E. destruct (observe t) as [r|u|X e h] eqn:Et.
  - apply (rg_observe _ _ _ (k r)); [exact E|]. cbn [rg] in Ht. rewrite Et in Ht.
    eapply rg_pre; [|apply Hk]. auto.
  - cbn [rg] in *. rewrite Et in Ht. unfold mbind, itree_bind. rewrite E. cbn. by apply IH.
  - cbn [rg] in *. rewrite Et in Ht. unfold mbind, itree_bind. rewrite E. cbn. destruct (local e).
    + destruct Ht as (S & Hs & Hh & Ht). exists S. split; [done|]. split; [done|]. intros a. by apply IH.
    + intros w Hi HP. generalize (Ht w Hi HP). apply joins_bind. intros u Hu. by apply IH.
Qed.

Lemma rg_call {A} ρ n P (e : callE A) Q :
  local e = true → (∀ a, stab ρ (Q a)) →
  (∀ ans w w' a, Inv w → P w → handle ans e w = Some (w', a) → Inv w' ∧ guarantee ρ w w' ∧ Q a w') →
  rg ρ n P (call e) Q.
Proof.
  intros Hl Hs Hh. destruct n as [|n]; [done|]. cbn [rg call ITree.trigger observe _observe]. rewrite Hl.
  exists Q. split; [done|]. split; [done|]. intros a. by apply rg_ret.
Qed.

Lemma rg_join ρ n P j : rg ρ n P (call (Join j)) (λ _, P).
Proof. destruct n as [|n]; [done|]. intros w _ _. by apply (rg_ret ρ n P tt). Qed.

(** A loop keeps the assertion of its head. *)
Lemma rg_iter {A B} ρ n (I : A → world env → Prop) (body : A → program (A + B)) Q a :
  (∀ n a, rg ρ n (I a) (body a) (λ r w, match r with inl a' => I a' w | inr b => Q b w end)) →
  rg ρ n (I a) (ITree.iter body a) Q.
Proof.
  intros Hb. revert a. induction n as [|n IH]; intros a; [done|].
  apply (rg_observe _ _ _ (body a ≫= λ r, match r with inl a' => go (TauF (ITree.iter body a')) | inr b => mret b end));
    [done|]. eapply rg_bind; [apply Hb|]. intros [a'|b]; [apply IH|by apply rg_ret].
Qed.

(** The constructors of the client library, for an assertion that their calls keep. *)
Definition opening {A} (e : callE A) : bool :=
  match e with Socket | ConnectTo _ _ _ | CloseSocket _ | Report _ => true | _ => false end.

Lemma rg_open ρ n P who connected h p :
  (∀ A (e : callE A), opening e = true → rg ρ n P (call e) (λ _, P)) → rg ρ n P connected (λ _, P) →
  rg ρ n P (open_socket who connected h p) (λ _, P).
Proof.
  intros Hcall Hc. eapply rg_bind; [by apply Hcall|]. intros sock. destruct (sock =? -1).
  - eapply rg_bind; [by apply Hcall|]. intros ?. by apply rg_ret.
  - eapply rg_bind; [by apply Hcall|]. intros r. destruct (r =? -1).
    + eapply rg_bind; [by apply Hcall|]. intros ?. eapply rg_bind; [by apply Hcall|]. intros ?. by apply rg_ret.
    + eapply rg_bind; [done|]. intros ?. by apply rg_ret.
Qed.

Lemma rg_each {A} ρ n P (l : list A) f :
  (∀ x, rg ρ n P (f x) (λ _, P)) → rg ρ n P (each l f) (λ _, P).
Proof. intros Hf. induction l as [|x l IH]; [by apply rg_ret|]. eapply rg_bind; [apply Hf|done]. Qed.

(** ** Two threads *)

Context (txt : text).

Definition thread_ok (ρ : role) (t : program unit) (w : world env) : Prop :=
  ∀ n, ∃ P, stab ρ P ∧ P w ∧ rg ρ n P t (λ _ _, ρ = Main → ends (Exited 0)).

(** The threads of the second part by number: [main] and the one it started. *)
Definition role_of (i : nat) : role := match i with O => Main | _ => Child end.

Definition threads_ok (ths : gmap nat (program unit)) (w : world env) : Prop :=
  ∀ i t, ths !! i = Some t → (i ≤ 1)%nat ∧ thread_ok (role_of i) t w.

(** Two threads at most, or the process is over. *)
Inductive pool_inv : process env → Prop :=
| pool_both w ths n : Inv w → threads_ok ths w → pool_inv (mkProcess w ths n Running)
| pool_over w n st : ends st ∨ st = Killed → printable (console w) → pool_inv (mkProcess w ∅ n st).

Context (Inv_stable : ∀ l w w', broker_step l w = Some w' → Inv w → Inv w').
Context (Inv_printable : ∀ w, Inv w → printable (console w)).

Lemma thread_ok_observe ρ t t' w : observe t' = observe t → thread_ok ρ t w → thread_ok ρ t' w.
Proof.
  intros E Ht n. destruct (Ht n) as (P & Hs & HP & Hrg). exists P. split; [done|]. split; [done|]. by eapply rg_observe.
Qed.

Lemma thread_ok_broker ρ t l w w' : broker_step l w = Some w' → Inv w → thread_ok ρ t w → thread_ok ρ t w'.
Proof. intros E Hi Ht n. destruct (Ht n) as (P & Hs & HP & Hrg). exists P. split; [done|]. split; [by eapply (proj1 Hs)|done]. Qed.

Lemma thread_ok_other ρ t w w' :
  guarantee (other ρ) w w' → Inv w → Inv w' → thread_ok ρ t w → thread_ok ρ t w'.
Proof. intros E Hi Hi' Ht n. destruct (Ht n) as (P & Hs & HP & Hrg). exists P. split; [done|]. split; [by eapply (proj2 Hs)|done]. Qed.

Lemma thread_step_local w ths n i ans t X (e : callE X) k :
  ths !! i = Some t → observe t = VisF e k → local e = true →
  thread_step txt i ans (mkProcess w ths n Running) =
    if broken_pipe ans e w then Some (finish Killed (mkProcess w ths n Running))
    else
      match handle ans e w with
      | Some (w', a) => Some (mkProcess w' (<[i := k a]> ths) n Running)
      | None => None
      end.
Proof. intros Ht E Hl. unfold thread_step. cbn [threads here]. rewrite Ht, E. by destruct e. Qed.

(** One call of a thread, and what the others still know. *)
Lemma ok_local ρ t w X (e : callE X) k ans w' a :
  Inv w → thread_ok ρ t w → observe t = VisF e k → local e = true → handle ans e w = Some (w', a) →
  Inv w' ∧ guarantee ρ w w' ∧ thread_ok ρ (k a) w'.
Proof.
  intros Hi Ht E Hl Hh.
  assert (Hn : ∀ n, ∃ R, stab ρ R ∧ Inv w' ∧ guarantee ρ w w' ∧ R w' ∧ rg ρ n R (k a) (λ _ _, ρ = Main → ends (Exited 0))).
  { intros n. destruct (Ht (S n)) as (P & Hs & HP & Hrg). cbn [rg] in Hrg. rewrite E, Hl in Hrg.
    destruct Hrg as (R & Hst & Hstep & Hk). exists (R a). destruct (Hstep _ _ _ _ Hi HP Hh) as (? & ? & ?). auto. }
  destruct (Hn O) as (_ & _ & Hi' & Hg & _). split; [done|]. split; [done|]. intros n.
  destruct (Hn n) as (R & Hs & _ & _ & HR & Hrg). by exists R.
Qed.

Lemma threads_ok_insert ths i t w w' :
  (i ≤ 1)%nat → guarantee (role_of i) w w' → Inv w → Inv w' →
  threads_ok ths w → thread_ok (role_of i) t w' → threads_ok (<[i := t]> ths) w'.
Proof.
  intros Hi Hg Hw Hw' Hths Ht j u. rewrite lookup_insert_Some. intros [[<- <-]|[Hne Hu]]; [done|].
  destruct (Hths j u Hu) as [Hj Hok]. split; [done|]. apply (thread_ok_other _ _ w w'); [|done..].
  destruct i as [|[|]], j as [|[|]]; try lia; done.
Qed.

Lemma threads_ok_same ths i t w :
  (i ≤ 1)%nat → threads_ok ths w → thread_ok (role_of i) t w → threads_ok (<[i := t]> ths) w.
Proof. intros Hi Hths Ht j u. rewrite lookup_insert_Some. intros [[<- <-]|[_ Hu]]; [done|by apply Hths]. Qed.

(** A call that concerns the pool. *)
Lemma ok_pool ρ t w X (e : callE X) k :
  Inv w → thread_ok ρ t w → observe t = VisF e k → local e = false →
  (∃ j (E : X = unit), e = eq_rect_r callE (Join j) E ∧ ∀ u, thread_ok ρ (k u) w) ∨
  (∃ code (E : X = Empty_set), e = eq_rect_r callE (Exit code) E ∧ ends (Exited code)) ∨
  (∃ what (E : X = Empty_set), e = eq_rect_r callE (Raise what) E ∧ ends (Aborted what)).
Proof.
  intros Hi Ht E Hl.
  assert (Hn : ∀ n, ∃ P, stab ρ P ∧ P w ∧ joins e (λ t', rg ρ n P t' (λ _ _, ρ = Main → ends (Exited 0))) k).
  { intros n. destruct (Ht (S n)) as (P & Hs & HP & Hrg). cbn [rg] in Hrg. rewrite E, Hl in Hrg.
    specialize (Hrg w Hi HP). by exists P. }
  destruct e; try done.
  - destruct (Hn O) as (? & _ & _ & []).
  - left. exists thread, eq_refl. split; [done|]. intros [] n. destruct (Hn n) as (P & Hs & HP & Hrg). by exists P.
  - right; left. exists code, eq_refl. split; [done|]. by destruct (Hn O) as (? & _ & _ & ?).
  - right; right. exists what, eq_refl. split; [done|]. by destruct (Hn O) as (? & _ & _ & ?).
Qed.

Lemma both_step w ths n i ans p' :
  Inv w → threads_ok ths w → thread_step txt i ans (mkProcess w ths n Running) = Some p' → pool_inv p'.
Proof.
  intros Hw Hths Hst. destruct (ths !! i) as [t|] eqn:Ei; [|unfold thread_step in Hst; cbn [threads here next_thread] in Hst; by rewrite Ei in Hst].
  destruct (Hths i t Ei) as [Hi Ht]. destruct (observe t) as [r|u|X e k] eqn:Et.
  - unfold thread_step in Hst. cbn [threads here next_thread] in Hst. rewrite Ei, Et in Hst. case_bool_decide as Hz; injection Hst as <-.
    + subst i. apply pool_over; [left|exact (Inv_printable w Hw)]. destruct (Ht 1%nat) as (P & _ & HP & Hrg).
      cbn [rg] in Hrg. rewrite Et in Hrg. by apply (Hrg w).
    + apply pool_both; [done|]. intros j u. rewrite lookup_delete_Some. intros [_ Hu]. by apply Hths.
  - unfold thread_step in Hst. cbn [threads here next_thread] in Hst. rewrite Ei, Et in Hst. injection Hst as <-.
    apply pool_both; [done|]. apply threads_ok_same; [done..|]. intros m. destruct (Ht (S m)) as (P & Hs & HP & Hrg).
    cbn [rg] in Hrg. rewrite Et in Hrg. by exists P.
  - destruct (local e) eqn:El.
    + rewrite (thread_step_local _ _ _ _ _ _ _ _ _ Ei Et El) in Hst.
      destruct (broken_pipe ans e w); [injection Hst as <-; apply pool_over; [by right|exact (Inv_printable w Hw)]|].
      destruct (handle ans e w) as [[w' a]|] eqn:Eh; [|done]. injection Hst as <-.
      destruct (ok_local _ _ _ _ _ _ _ _ _ Hw Ht Et El Eh) as (Hw' & Hg & Ha).
      apply pool_both; [done|]. by eapply threads_ok_insert.
    + destruct (ok_pool _ _ _ _ _ _ Hw Ht Et El) as [(j & -> & -> & Hk)|[(code & -> & -> & Hc)|(what & -> & -> & Hc)]];
        unfold thread_step in Hst; cbn [threads here next_thread] in Hst; rewrite Ei, Et in Hst; cbn in Hst.
      * case_bool_decide; [|done]. injection Hst as <-. apply pool_both; [done|]. by apply threads_ok_same.
      * injection Hst as <-. apply pool_over; [by left|exact (Inv_printable w Hw)].
      * injection Hst as <-. apply pool_over; [by left|exact (Inv_printable w Hw)].
Qed.

Lemma pool_broker l w w' ths n st :
  pool_inv (mkProcess w ths n st) → broker_step l w = Some w' → pool_inv (mkProcess w' ths n st).
Proof.
  intros Hp Hb. inversion Hp as [? ? ? Hw Hths|? ? ? Hc Hpr]; subst.
  - apply pool_both; [by eapply Inv_stable|]. intros i t Ht. destruct (Hths i t Ht) as [Hi Hok].
    split; [done|]. by eapply thread_ok_broker.
  - apply pool_over; [done|]. by rewrite (proj1 (broker_step_client l w w' Hb)).
Qed.

Lemma pool_step i ans p p' : pool_inv p → thread_step txt i ans p = Some p' → pool_inv p'.
Proof.
  intros [w ths n Hw Hths|w n st Hc Hpr] Hst; [by eapply both_step|]. unfold thread_step in Hst. cbn [threads] in Hst.
  by rewrite lookup_empty in Hst.
Qed.

Lemma pool_outcome p :
  pool_inv p → printable (console (here p)) ∧ (ended p = Running ∨ ended p = Killed ∨ ends (ended p)).
Proof. intros [w ths n Hw _|w n st [Hc|Hc] Hpr]; cbn; auto. Qed.
End logic.

(** ** A phase in which the other thread does nothing

    What a thread establishes while the variables say that the other one waits
    is an assertion rather than an invariant, and ends with the phase. *)

Section phase.
Context `{LmdbOps env txn} `{HashOrder} `{Sodium}.
Implicit Types w : world env.

(** Calls that leave the variables alone. *)
Definition reads {A} (e : callE A) : bool :=
  local e && match e with Store _ _ | Increment _ => false | _ => true end.

Lemma reads_vars {A} ans (e : callE A) w w' a : reads e = true → handle ans e w = Some (w', a) → vars w' = vars w.
Proof. destruct e; try done; intros _; cbn [handle]; intros E; repeat case_match; simplify_eq; done. Qed.

Fixpoint no_writes {A} (n : nat) (t : program A) : Prop :=
  match n with
  | O => True
  | S n =>
      match observe t with
      | RetF _ => True
      | TauF t' => no_writes n t'
      | VisF e k => reads e = true ∧ ∀ a, no_writes n (k a)
      end
  end.

Lemma no_writes_ret {A} n (a : A) : no_writes n (mret a).
Proof. by destruct n. Qed.

Lemma no_writes_call {A} n (e : callE A) : reads e = true → no_writes n (call e).
Proof. intros He. destruct n as [|n]; [done|]. split; [done|]. intros a. by apply no_writes_ret. Qed.

Lemma no_writes_fewer {A} n (t : program A) : no_writes (S n) t → no_writes n t.
Proof.
  revert t. induction n as [|n IH]; [done|]. intros t Ht.
  change (match observe t with
          | RetF _ => True | TauF t' => no_writes (S n) t' | VisF e k => reads e = true ∧ ∀ a, no_writes (S n) (k a) end) in Ht.
  cbn [no_writes]. destruct (observe t) as [r|u|X e k]; [done|by apply IH|].
  destruct Ht as [He Hk]. split; [done|]. intros a. by apply IH.
Qed.

Lemma no_writes_bind {A B} n (t : program A) (k : A → program B) :
  no_writes n t → (∀ a, no_writes n (k a)) → no_writes n (t ≫= k).
Proof.
  revert t. induction n as [|n IH]; [done|]. intros t Ht Hk. pose proof (observe_bind t k) as E.
  assert (Hk' : ∀ a, no_writes n (k a)) by (intros a; by apply no_writes_fewer).
  specialize (Hk). cbn [no_writes] in *. unfold mbind, itree_bind. rewrite E. destruct (observe t) as [r|u|X e h]; cbn.
  - apply Hk.
  - by apply IH.
  - destruct Ht as [He Hh]. split; [done|]. intros a. by apply IH.
Qed.

Lemma no_writes_open n who connected h p : no_writes n connected → no_writes n (open_socket who connected h p).
Proof.
  intros Hc. apply no_writes_bind; [by apply no_writes_call|]. intros sock. destruct (sock =? -1).
  - apply no_writes_bind; [by apply no_writes_call|]. intros ?. apply no_writes_ret.
  - apply no_writes_bind; [by apply no_writes_call|]. intros r. destruct (r =? -1).
    + apply no_writes_bind; [by apply no_writes_call|]. intros ?. apply no_writes_bind; [by apply no_writes_call|].
      intros ?. apply no_writes_ret.
    + apply no_writes_bind; [done|]. intros ?. apply no_writes_ret.
Qed.

(** The phase: while [K] holds of the variables the other thread changes
    nothing, and this one changes no variable. *)
Context (ends : status → Prop) (guarantee : role → world env → world env → Prop) (Inv : world env → Prop) (ρ : role).
Context (K : gmap var Z → Prop).
Context (others_wait : ∀ w w', guarantee (other ρ) w w' → K (vars w) → w' = w).
Context (own_steps : ∀ w w', K (vars w) → vars w' = vars w → guarantee ρ w w').

Lemma rg_of_triple {A} printable n P (t : program A) Q :
  (∀ w, printable (console w) → K (vars w) → Inv w) → triple printable P t Q → (∀ m, no_writes m t) →
  rg ends guarantee Inv ρ n (λ w, P w ∧ K (vars w)) t (λ r w, Q r w ∧ K (vars w)).
Proof.
  intros HI Ht. revert n. induction Ht as [P t Q r Er HQ|P t Q u Et Hu IH|P t Q X e k R Ee Hl Hs Hh _ IH|P t Q Hn];
    intros n Hw; [| | |by apply rg_absurd; intros w _ [?%Hn _]]; (destruct n as [|n]; [done|]); cbn [rg].
  - rewrite Er. intros w _ [HP HK]. auto.
  - rewrite Et. apply IH. intros m. specialize (Hw (S m)). cbn [no_writes] in Hw. by rewrite Et in Hw.
  - rewrite Ee, Hl. assert (He : reads e = true) by (specialize (Hw 1%nat); cbn [no_writes] in Hw; rewrite Ee in Hw; apply Hw).
    exists (λ a w, R a w ∧ K (vars w)). split; [|split].
    + intros a. split; [|by intros w w' Hg _ _ [HR HK]; rewrite (others_wait w w' Hg HK)].
      intros l w w' E _ [HR HK]. split; [by eapply (proj1 (Hs a))|]. by rewrite (proj2 (broker_step_client l w w' E)).
    + intros ans w w' a _ [HP HK] E. pose proof (reads_vars ans e w w' a He E) as Ev.
      pose proof (Hh ans w w' a HP E) as HR. rewrite Ev. split; [apply HI; [by apply (proj2 (Hs a))|by rewrite Ev]|auto].
    + intros a. apply IH. intros m. specialize (Hw (S m)). cbn [no_writes] in Hw. rewrite Ee in Hw. apply Hw.
Qed.

Lemma rg_framed {A} g1 (I1 : world env → Prop) n P (t : program A) Q :
  (∀ w, I1 w → K (vars w) → Inv w) → (∀ l w w', broker_step l w = Some w' → I1 w → I1 w') →
  (∀ w w', g1 ρ w w' → vars w' = vars w) →
  rg ends g1 I1 ρ n P t Q →
  rg ends guarantee Inv ρ n (λ w, I1 w ∧ P w ∧ K (vars w)) t (λ r w, Q r w ∧ K (vars w)).
Proof.
  intros HI Hst Hg1. revert P t. induction n as [|n IH]; [done|]. intros P t. cbn [rg].
  destruct (observe t) as [r|u|X e k]; [|apply IH|destruct (local e)].
  - intros HQ w _ (Hi & HP & HK). auto.
  - intros (R & Hs & Hh & Hk). exists (λ a w, I1 w ∧ R a w ∧ K (vars w)). split; [|split].
    + intros a. split; [|by intros w w' Hg _ _ (Hi & HR & HK); rewrite (others_wait w w' Hg HK)].
      intros l w w' E _ (Hi & HR & HK). split; [by eapply Hst|]. split; [by eapply (proj1 (Hs a))|].
      by rewrite (proj2 (broker_step_client l w w' E)).
    + intros ans w w' a _ (Hi & HP & HK) E. destruct (Hh ans w w' a Hi HP E) as (Hi' & Hg & HR).
      pose proof (Hg1 w w' Hg) as Ev. assert (K (vars w')) by by rewrite Ev. auto.
    + intros a. by apply IH.
  - intros Hj w _ (Hi & HP & HK). generalize (Hj w Hi HP). apply joins_mono. intros u. apply IH.
Qed.
End phase.

(** ** A first part alone, and two threads after it *)

Section duo.
Context `{LmdbOps env txn} `{HashOrder} `{Sodium}.
Implicit Types w : world env.
Context (printable : list bytes → Prop) (ends : status → Prop) (txt : text).

(** The program may start one thread after its first part; what that part
    returns says which connection the assertions are about. *)
Context {A} (first : program A) (spawns : A → option (nat * list Z)) (rest : A → nat → program unit).
Context (guarantee : A → role → world env → world env → Prop) (Inv : A → world env → Prop).
Context (start_ok : A → world env → Prop).

Abbreviation stable := (stable printable).
Abbreviation triple := (triple printable).
Abbreviation thread_ok r := (thread_ok ends (guarantee r) (Inv r)).
Abbreviation pool_inv r := (pool_inv printable ends (guarantee r) (Inv r)).

Definition second (r : A) : program unit :=
  match spawns r with
  | Some (body, captured) => j ← call (Spawn body captured); rest r j
  | None => rest r 0%nat
  end.
Definition duo : program unit := first ≫= second.

Definition duo_starts : Prop := ∀ r w, start_ok r w →
  Inv r w ∧
  match spawns r with
  | Some (body, captured) => thread_ok r Child (txt body captured) w ∧ thread_ok r Main (rest r 1%nat) w
  | None => thread_ok r Main (rest r 0%nat) w
  end.

Inductive duo_inv : process env → Prop :=
| duo_alone w t P :
    stable P → P w → triple P t start_ok →
    duo_inv (mkProcess w {[0%nat := ITree.bind t second]} 1 Running)
| duo_second r p : pool_inv r p → duo_inv p
| duo_killed w n : printable (console w) → duo_inv (mkProcess w ∅ n Killed).

Context (Inv_stable : ∀ r l w w', broker_step l w = Some w' → Inv r w → Inv r w').
Context (Inv_printable : ∀ r w, Inv r w → printable (console w)).
Context (starts : duo_starts).

(** The end of the first part is the start of the second. *)
Lemma second_step w r t ans p' :
  start_ok r w → observe t = RetF r →
  thread_step txt 0 ans (mkProcess w {[0%nat := ITree.bind t second]} 1 Running) = Some p' → duo_inv p'.
Proof.
  intros Hr Et Hst. destruct (starts r w Hr) as [Hw Hth]. apply (duo_second r). pose proof (observe_bind t second) as Eb. rewrite Et in Eb.
  remember (second r) as u eqn:Eu. unfold second in Eu. destruct (spawns r) as [[body captured]|]; subst u.
  - destruct Hth as [Hc Hm]. unfold thread_step in Hst. cbn [threads here next_thread] in Hst.
    rewrite lookup_singleton_eq, Eb in Hst. cbn in Hst. injection Hst as <-. apply pool_both; [done|].
    intros i u. rewrite !lookup_insert_Some. intros [[<- <-]|[_ [[<- <-]|[Hne Hu]]]];
      [split; [lia|exact Hc]|split; [lia|by apply (thread_ok_observe _ _ _ Main (rest r 1))]|]. by apply lookup_singleton_Some in Hu as [<- _].
  - apply (both_step _ _ _ _ txt (Inv_printable r) w {[0%nat := ITree.bind t second]} 1 0 ans); [done| |done]. intros i u Hu.
    apply lookup_singleton_Some in Hu as [<- <-]. split; [lia|]. by eapply thread_ok_observe.
Qed.

(** The steps of the first part. *)
Lemma alone_step w t P ans p' :
  stable P → P w → triple P t start_ok →
  thread_step txt 0 ans (mkProcess w {[0%nat := ITree.bind t second]} 1 Running) = Some p' → duo_inv p'.
Proof.
  intros Hs HP Ht Hst. pose proof (observe_bind t second) as Eb.
  inversion Ht as [? ? ? r Et HQ|? ? ? u Et Hu|? ? ? X e k R Ee Hl HR Hh Hk|? ? ? Hn]; subst.
  - eapply second_step; [|done..]. by apply HQ.
  - rewrite Et in Eb. unfold thread_step in Hst. cbn [threads here next_thread] in Hst.
    rewrite lookup_singleton_eq, Eb in Hst. injection Hst as <-. cbn. rewrite insert_singleton_eq. by eapply duo_alone.
  - rewrite Ee in Eb.
    rewrite (thread_step_local txt w _ 1 0 ans _ X e _ (lookup_singleton_eq _ _) Eb Hl) in Hst.
    destruct (broken_pipe ans e w); [injection Hst as <-; apply duo_killed; exact (proj2 Hs w HP)|].
    destruct (handle ans e w) as [[w' a]|] eqn:Eh; [|done]. injection Hst as <-. rewrite insert_singleton_eq.
    eapply duo_alone; [apply HR| |apply Hk]. by eapply Hh.
  - by destruct (Hn w).
Qed.

Lemma duo_step l p p' : duo_inv p → step txt l p = Some p' → duo_inv p'.
Proof.
  intros Hp Hst. destruct l as [i ans|x now|x now clk|x now|x]; unfold step in Hst.
  2-5: destruct (broker_step _ (here p)) as [w'|] eqn:Eb; [|done]; injection Hst as <-;
    destruct Hp as [w t P Hs HP Ht|r [w ths n st] Hp|w n Hp]; [eapply duo_alone; [done| |done]; by eapply (proj1 Hs)|
      eapply duo_second, pool_broker; [apply Inv_stable|done..]|
      apply duo_killed; cbn [here] in Eb; by rewrite (proj1 (broker_step_client _ w w' Eb))].
  destruct Hp as [w t P Hs HP Ht|r p Hp|w n Hp]; [|eapply duo_second, pool_step; [apply Inv_printable|done..]|
    unfold thread_step in Hst; cbn [threads] in Hst; by rewrite lookup_empty in Hst].
  destruct i as [|i]; [by eapply alone_step|]. unfold thread_step in Hst. cbn [threads] in Hst.
  by rewrite lookup_singleton_ne in Hst.
Qed.

(** Under every schedule, what is printed is allowed, and so is the way the
    process ends. *)
Lemma duo_adequate w P p :
  stable P → P w → triple P first start_ok → reaches txt w duo p →
  printable (console (here p)) ∧ (ended p = Running ∨ ended p = Killed ∨ ends (ended p)).
Proof.
  intros Hs HP Ht Hr. assert (Hi : duo_inv p).
  { induction Hr as [|p l p' _ IH Hst]; [by eapply duo_alone|by eapply duo_step]. }
  destruct Hi as [w' t P' Hs' HP' Ht'|r p' Hp|w' n Hp]; cbn; [split; [by apply (proj2 Hs')|by left]| |by auto].
  eapply pool_outcome; [apply Inv_printable|done].
Qed.
End duo.

End NetLogic.
