(* ===== verification/Late.v ===== *)
(** * Late: what a subscriber that comes after the messages hears

    A process whose first part publishes to a topic and waits for every reply,
    and then subscribes: under every schedule the broker sends the subscriber
    the answer to its request and nothing else. The section is about any
    client program of that shape; [ExactlyOnce] and [Examples] apply it to
    the programs of the repository. *)

From ITree Require Import Core.ITreeDefinition.
From S2P Require Import Prelude Text BinaryProtocol RespParser Lmdb Storage Signing Keystore Metrics Broker Session Programs Clients Calls Network NetLogic.

Module Late.
Import Network NetLogic.

Section late.
Context `{LmdbLaws env txn} `{HashOrder} `{Sodium}.
Implicit Types w : world env.
Implicit Types b : Broker.Broker env.

(** The topic, and the topics whose messages are stored; none of them is a
    proper prefix of it. *)
Context (T : bytes) (stored : bytes → Prop).
Context (T_stored : stored T) (T_plain : Storage.NUL ∉ T) (T_prefix : ∀ t r, stored t → T = t ++ r → r = []).

(** The protocol the process does not speak. *)
Context (foreign : Session.ProtocolType) (foreign_known : foreign ≠ Session.UNKNOWN).

(** ** Requests *)

Definition store_ok b : Prop :=
  ∃ e, Broker.persistence_ b = Some e ∧ Broker.records_by_sessions (env_view e) stored.

(** The session of [x] is connected and between two requests. *)
Definition between (x : Z) b (m : Session.Session) : Prop :=
  Session.self m = x ∧ x ∈ Broker.sessions_ b ∧ Session.recv_buffer_ m = [] ∧ Session.protocol_type_ m ≠ foreign.

(** The bytes [d] from the client of [x] make the broker answer [reply] and
    stay as it was otherwise. *)
Definition answered (x : Z) (d reply : bytes) (b b' : Broker.Broker env) : Prop :=
  Broker.broker_inv b' ∧ store_ok b' ∧ Broker.sessions_ b' = Broker.sessions_ b ∧
  Broker.sent (Broker.outbox b') x = Broker.sent (Broker.outbox b) x ++ [reply] ∧
  Broker.shutdown_requested_ b' = Broker.shutdown_requested_ b.

(** A request that publishes: it may reach others, not who is unsubscribed. *)
Definition publishes (d reply : bytes) : Prop := ∀ x now clk m b ks,
  Broker.broker_inv b → store_ok b → between x b m → (∀ t, x ∉ Broker.subscribers b t) →
  ∃ m' b' ks', Session.on_data now (λ _, clk) d (Session.mkState m b ks) = (Session.mkState m' b' ks', Ret true) ∧
    answered x d reply b b' ∧ between x b' m' ∧
    (∀ t, Broker.subscribers b' t = Broker.subscribers b t) ∧
    ∀ y, y ∉ Broker.sessions_ b → Broker.sent (Broker.outbox b') y = Broker.sent (Broker.outbox b) y.

(** A request that subscribes to [T]. *)
Definition subscribes (d reply : bytes) : Prop := ∀ x now clk m b ks,
  Broker.broker_inv b → store_ok b → between x b m →
  ∃ m' b' ks', Session.on_data now (λ _, clk) d (Session.mkState m b ks) = (Session.mkState m' b' ks', Ret true) ∧
    answered x d reply b b' ∧ between x b' m' ∧
    ∀ y, y ≠ x → Broker.sent (Broker.outbox b') y = Broker.sent (Broker.outbox b) y.

Lemma publish_keeps_store lat p b :
  Broker.broker_inv b → store_ok b → head p ≠ Some Storage.NUL →
  store_ok (fst (Broker.publish lat T p b)).
Proof.
  intros Hi (e & He & Hrec) Hp. destruct (Broker.publish_store b e lat T p Hi He) as (e' & E & Hk & _).
  exists e'. rewrite E. split; [done|]. intros n v Hn.
  assert (Hv : env_view (Storage.save e (u64 (Broker.current_sequence_ b + 1)) T p) !! Storage.msg_key n = Some v)
    by (destruct (Hk (Storage.msg_key n)) as [<-|[_ ?]]; [done|congruence]). clear Hk Hn.
  destruct (Storage.save_cases_wf e (u64 (Broker.current_sequence_ b + 1)) T p) as [[Ev|Ev] _];
    [by apply (Broker.bi_store _ Hi)|rewrite Ev in Hv; by apply (Hrec n)|]. rewrite Ev in Hv.
  unfold Storage.m_save in Hv. rewrite lookup_insert_ne in Hv by (apply not_eq_sym, Storage.msg_key_not_last).
  apply lookup_insert_Some in Hv as [[_ <-]|[_ Hl]]; [|by apply (Hrec n)]. by exists T, p.
Qed.

(** What the handler of a request did, in terms of the broker it was called on
    and the one it left. *)
Lemma answered_push x d reply b b' :
  Broker.broker_inv b' → store_ok b' → Broker.sessions_ b' = Broker.sessions_ b →
  Broker.sent (Broker.outbox b') x = Broker.sent (Broker.outbox b) x →
  Broker.shutdown_requested_ b' = Broker.shutdown_requested_ b →
  answered x d reply b (b' <| Broker.outbox ::= Broker.push x reply |>).
Proof.
  intros Hi Hs Hse Ho Hd. split; [by apply Broker.outbox_inv|]. split; [exact Hs|]. split; [exact Hse|].
  split; [|exact Hd]. cbn. rewrite Broker.sent_push, bool_decide_true by done. by rewrite Ho.
Qed.

(** The broker after a publish, as far as an unsubscribed session sees it. *)
Lemma publish_unheard lat p b :
  Broker.broker_inv b → store_ok b → head p ≠ Some Storage.NUL →
  let b' := fst (Broker.publish lat T p b) in
  Broker.broker_inv b' ∧ store_ok b' ∧ Broker.sessions_ b' = Broker.sessions_ b ∧
  Broker.shutdown_requested_ b' = Broker.shutdown_requested_ b ∧
  (∀ t, Broker.subscribers b' t = Broker.subscribers b t) ∧
  ∀ y, (∀ t, y ∉ Broker.subscribers b t) → Broker.sent (Broker.outbox b') y = Broker.sent (Broker.outbox b) y.
Proof.
  intros Hi Hs Hp b'. pose proof (publish_keeps_store lat p b Hi Hs Hp) as Hs'.
  destruct (Broker.publish_inv lat T p b Hi) as (q & E & Hi' & _). unfold b'. rewrite E in *. cbn [fst] in *.
  do 5 (split; [done|]). intros y Hy. rewrite Broker.published_sent. unfold Broker.subscribed.
  by rewrite !bool_decide_false, !app_nil_r.
Qed.

Lemma unsubscribed b y : Broker.broker_inv b → y ∉ Broker.sessions_ b → ∀ t, y ∉ Broker.subscribers b t.
Proof. intros Hi Hy t Ht. by apply Hy, (Broker.bi_live _ Hi t). Qed.

(** A change of the broker that sends nothing. *)
Definition unsent (b b' : Broker.Broker env) : Prop :=
  Broker.broker_inv b' ∧ store_ok b' ∧ Broker.sessions_ b' = Broker.sessions_ b ∧
  Broker.outbox b' = Broker.outbox b ∧ Broker.shutdown_requested_ b' = Broker.shutdown_requested_ b.

Lemma unsent_refl b : Broker.broker_inv b → store_ok b → unsent b b.
Proof. by split. Qed.

Lemma unsent_trans b1 b2 b3 : unsent b1 b2 → unsent b2 b3 → unsent b1 b3.
Proof. intros (_ & _ & H1' & H2' & H3') (? & ? & ? & ? & ?). split; [done|]. split; [done|]. repeat split; congruence. Qed.

Lemma subscribe_unsent x b :
  Broker.broker_inv b → store_ok b → x ∈ Broker.sessions_ b →
  ∃ b', Broker.subscribe x T b = (b', Ret tt) ∧ unsent b b'.
Proof.
  intros Hi (e & He & Hrec) Hx. destruct (Broker.subscribe_locked_inv b x T Hi Hx) as (E & Hi' & _ & Ho & Hp).
  eexists. rewrite (Broker.subscribe_silent b e x T stored) by done. split; [exact E|]. split; [done|].
  split; [exists e; by rewrite Hp|]. done.
Qed.

Lemma registerClient_unsent c x b :
  Broker.broker_inv b → store_ok b → ∃ b', Broker.registerClient c x b = (b', Ret tt) ∧ unsent b b'.
Proof.
  intros Hi (e & He & Hrec). destruct (Broker.registerClient_inv b c x Hi) as (acks & E & Hi' & _ & _ & Hse & Hp & _).
  eexists. split; [exact E|]. split; [done|]. split; [exists e; by rewrite Hp|]. split; [done|].
  assert (Hk : preserves (λ b, (Broker.outbox b, Broker.shutdown_requested_ b)) (Broker.registerClient (env := env) c x)).
  { unfold Broker.registerClient. repeat preserve_step. }
  specialize (Hk b). by injection Hk.
Qed.

Lemma replay_unsent c x b :
  Broker.broker_inv b → store_ok b → Broker.replayMessagesForClient x T c b = (b, Ret tt).
Proof. intros Hi (e & He & Hrec). by apply (Broker.replayForClient_silent b e x T c stored). Qed.

Lemma on_broker_eq {A} (f : act (Broker.Broker env) A) m b ks b' a :
  f b = (b', Ret a) → Session.on_broker f (Session.mkState m b ks) = (Session.mkState m b' ks, Ret a).
Proof. intros E. unfold Session.on_broker, on_part. cbn. by rewrite E. Qed.

Section binary.
Context (speaks : foreign = Session.RESP).

(** The session once it has read a frame. *)
Definition on_frame_read (now : Z) (f : BinaryFrame) (s : Session.State env) : Session.State env :=
  Session.with_buffer [] (Session.staged now (serialize f) s).

Lemma frame_read x now clk f m b ks :
  Broker.broker_inv b → between x b m → frame_wf f = true → zlen (serialize f) ≤ Session.MAX_RECV_BUFFER →
  let s := Session.mkState m b ks in
  Session.on_data now (λ _, clk) (serialize f) s =
    (fst (Session.handleBinaryFrame clk f (on_frame_read now f s)), Ret true) ∧
  Session.sess_inv (on_frame_read now f s) ∧ between x b (Session.me (on_frame_read now f s)).
Proof.
  intros Hi (Hx & Hin & Hbuf & Hp) Hf Hl s. rewrite speaks in Hp.
  assert (Hs : Session.sess_inv s) by (split; [done|by rewrite <-Hx in Hin]).
  split; [by apply Session.on_data_frame|]. split; [exact Hs|]. split; [exact Hx|]. split; [exact Hin|].
  split; [done|]. rewrite speaks. cbn. rewrite Hbuf. case_bool_decide; [|done].
  apply frame_wf_spec, wf_version in Hf. rewrite app_nil_l, serialize_layout. unfold header. by rewrite Hf.
Qed.

Lemma serialize_head f : head (serialize f) = Some (char_of (version f)).
Proof. by rewrite serialize_layout. Qed.

Lemma binary_publishes p n :
  zlen T ≤ MAX_TOPIC_LEN → 16 + zlen T + zlen p ≤ Session.MAX_RECV_BUFFER → 0 ≤ n < 2 ^ 64 →
  starts_with T (lit "secure/") = false →
  publishes (serialize (frame_publish T p n)) (serialize (frame_ack n)).
Proof.
  intros HT Hlen Hn Hsec x now clk m b ks Hi Hst Hbt Hun. set (f := frame_publish T p n).
  assert (Hf : frame_wf f = true).
  { apply frame_wf_spec. split; try done. unfold MAX_PAYLOAD_LEN, Session.MAX_RECV_BUFFER in *. cbn. lia. }
  destruct (frame_read x now clk f m b ks Hi Hbt Hf) as (E & Hs0 & Hb0).
  { rewrite length_serialize by by apply frame_wf_spec. change (16 + zlen T + zlen p + 0 ≤ Session.MAX_RECV_BUFFER). lia. }
  set (s0 := on_frame_read now f (Session.mkState m b ks)) in *.
  assert (Eh : Session.handleBinaryFrame clk f s0 = Session.publish_ack clk T
    (λ seq, serialize (frame_message T p seq)) n s0).
  { unfold Session.handleBinaryFrame, Session.handlePublish. cbn [command topic f frame_publish]. by rewrite Hsec. }
  rewrite Eh, Session.publish_ack_eq in E by done. cbn [fst] in E.
  destruct Hb0 as (Hx & Hin & Hbuf & Hp). rewrite Hx in E.
  destruct (publish_unheard (Session.latency clk)
    (serialize (frame_message T p (u64 (Session.sequence_ (Session.me s0) + 1)))) b Hi Hst)
    as (Hi' & Hst' & Hse & Hsd & Hsub & Hq); [by rewrite serialize_head|].
  eexists _, _, _. split; [exact E|]. split; [|split; [|split]].
  - apply answered_push; [done..|by apply Hq|done].
  - split; [exact Hx|]. split; [rewrite <-Hse in Hin; exact Hin|done].
  - exact Hsub.
  - intros y Hy. cbn. rewrite Broker.sent_push, bool_decide_false by (intros ->; done).
    apply Hq. by apply unsubscribed.
Qed.

(** What [handleSubscribe] does for either form of the topic. *)
Lemma handleSubscribe_unsent c n s :
  Session.sess_inv s → store_ok (Session.broker s) → (Storage.NUL ∉ c) →
  let x := Session.self (Session.me s) in
  ∃ b' m', Session.handleSubscribe (frame_subscribe (Clients.subscribe_topic c T) n) s =
    (Session.mkState m' (b' <| Broker.outbox ::= Broker.push x (serialize (frame_ack n)) |>) (Session.keystore s), Ret tt) ∧
    unsent (Session.broker s) b' ∧ Session.self m' = x ∧ Session.recv_buffer_ m' = Session.recv_buffer_ (Session.me s) ∧
    Session.protocol_type_ m' = Session.protocol_type_ (Session.me s).
Proof.
  intros [Hi Hx] Hs Hc x. destruct s as [m b ks]. cbn in Hi, Hx, Hs, x |- *. unfold Clients.subscribe_topic.
  case_bool_decide as Hnil.
  - destruct (subscribe_unsent x b Hi Hs Hx) as (b' & E & Hq). exists b', m. split; [|done].
    unfold Session.handleSubscribe. cbn [topic frame_subscribe]. rewrite find_first_char_None by done.
    erewrite bind_ret_eq by done. erewrite bind_ret_eq by (by apply on_broker_eq). done.
  - destruct (registerClient_unsent c x b Hi Hs) as (b1 & E1 & Hq1).
    destruct (subscribe_unsent x b1) as (b2 & E2 & Hq2); [apply Hq1..|by rewrite (proj1 (proj2 (proj2 Hq1)))|].
    pose proof (replay_unsent c x b2 (proj1 Hq2) (proj1 (proj2 Hq2))) as E3.
    exists b2, (m <| Session.client_id_ := c |>). split; [|split; [by eapply unsent_trans|done]].
    unfold Session.handleSubscribe. cbn [topic frame_subscribe]. change (c ++ [char_of 0] ++ T) with (c ++ Storage.NUL :: T).
    rewrite find_first_char_app by done. rewrite take_app_length, drop_app_add' by done.
    erewrite bind_ret_eq by done.
    rewrite (bind_ret_eq _ _ _ (Session.mkState (m <| Session.client_id_ := c |>) b2 ks) tt); [done|].
    erewrite bind_ret_eq by done.
    erewrite bind_ret_eq by (by apply on_broker_eq). erewrite bind_ret_eq by (by apply on_broker_eq).
    by apply on_broker_eq.
Qed.

Lemma binary_subscribes c n :
  zlen (Clients.subscribe_topic c T) ≤ MAX_TOPIC_LEN → (Storage.NUL ∉ c) → 0 ≤ n < 2 ^ 64 →
  subscribes (serialize (frame_subscribe (Clients.subscribe_topic c T) n)) (serialize (frame_ack n)).
Proof.
  intros HT Hc Hn x now clk m b ks Hi Hst Hbt. set (f := frame_subscribe (Clients.subscribe_topic c T) n).
  assert (Hf : frame_wf f = true) by (apply frame_wf_spec; by split).
  destruct (frame_read x now clk f m b ks Hi Hbt Hf) as (E & Hs0 & Hb0).
  { rewrite length_serialize by by apply frame_wf_spec.
    change (16 + zlen (Clients.subscribe_topic c T) + 0 + 0 ≤ Session.MAX_RECV_BUFFER).
    unfold MAX_TOPIC_LEN, Session.MAX_RECV_BUFFER in *. lia. }
  set (s0 := on_frame_read now f (Session.mkState m b ks)) in *. destruct Hb0 as (Hx & Hin & Hbuf & Hp).
  destruct (handleSubscribe_unsent c n s0 Hs0 Hst Hc) as (b' & m' & Eh & Hq & Hx' & Hbuf' & Hp').
  fold f in Eh. change (Session.handleBinaryFrame clk f s0) with (Session.handleSubscribe f s0) in E.
  rewrite Eh in E. cbn [fst] in E. rewrite Hx in *. destruct Hq as (Hi' & Hst' & Hse & Ho & Hsd).
  change (Session.broker s0) with b in *. eexists _, _, _. split; [exact E|]. split; [|split].
  - apply answered_push; [done..|by rewrite Ho|done].
  - split; [done|]. split; [rewrite <-Hse in Hin; exact Hin|]. split; congruence.
  - intros y Hy. cbn. rewrite Broker.sent_push, bool_decide_false by done. by rewrite Ho.
Qed.
End binary.

Section resp.
Context (speaks : foreign = Session.BINARY).

Definition on_value_read (now : Z) (v : Resp.RespValue) (s : Session.State env) : Session.State env :=
  Session.with_buffer [] (Session.staged now (Resp.serialize v) s).

Lemma value_read x now clk v m b ks :
  Broker.broker_inv b → between x b m → Resp.resp_wf v = true → zlen (Resp.serialize v) ≤ Session.MAX_RECV_BUFFER →
  let s := Session.mkState m b ks in
  Session.on_data now (λ _, clk) (Resp.serialize v) s =
    (fst (Session.handleCommand clk v (on_value_read now v s)), Ret true) ∧
  Session.sess_inv (on_value_read now v s) ∧ between x b (Session.me (on_value_read now v s)).
Proof.
  intros Hi (Hx & Hin & Hbuf & Hp) Hv Hl s. rewrite speaks in Hp.
  assert (Hs : Session.sess_inv s) by (split; [done|by rewrite <-Hx in Hin]).
  split; [by apply Session.on_data_value|]. split; [exact Hs|]. split; [exact Hx|]. split; [exact Hin|].
  split; [done|]. rewrite speaks. cbn. rewrite Hbuf. case_bool_decide; [|done]. by destruct v as [[] []].
Qed.

Lemma resp_publishes p :
  zlen (Resp.serialize (Resp.makeArray [lit "PUBLISH"; T; p])) ≤ Session.MAX_RECV_BUFFER →
  publishes (Resp.serialize (Resp.makeArray [lit "PUBLISH"; T; p])) (Resp.serialize (Resp.integer 1)).
Proof.
  intros Hlen x now clk m b ks Hi Hst Hbt Hun. set (v := Resp.makeArray [lit "PUBLISH"; T; p]).
  assert (Hv : Resp.resp_wf v = true) by (apply Clients.command_wf; exact Hlen).
  destruct (value_read x now clk v m b ks Hi Hbt Hv Hlen) as (E & Hs0 & Hb0).
  set (s0 := on_value_read now v (Session.mkState m b ks)) in *. unfold v in E.
  rewrite Session.resp_publish_eq in E by done. cbn [fst] in E.
  destruct Hb0 as (Hx & Hin & Hbuf & Hp). rewrite Hx in E.
  destruct (publish_unheard (Session.latency clk) (Resp.serialize (Resp.makeArray [lit "message"; T; p])) b Hi Hst)
    as (Hi' & Hst' & Hse & Hsd & Hsub & Hq); [done|].
  eexists _, _, _. split; [exact E|]. split; [|split; [|split]].
  - apply answered_push; [done..|by apply Hq|done].
  - split; [exact Hx|]. split; [rewrite <-Hse in Hin; exact Hin|done].
  - exact Hsub.
  - intros y Hy. cbn. rewrite Broker.sent_push, bool_decide_false by (intros ->; done).
    apply Hq. by apply unsubscribed.
Qed.

Lemma resp_subscribes :
  Resp.resp_wf (Resp.makeArray [lit "SUBSCRIBE"; T]) = true →
  zlen (Resp.serialize (Resp.makeArray [lit "SUBSCRIBE"; T])) ≤ Session.MAX_RECV_BUFFER →
  subscribes (Resp.serialize (Resp.makeArray [lit "SUBSCRIBE"; T]))
    (Resp.serialize (Session.confirmation (lit "subscribe") T 1)).
Proof.
  intros Hv Hlen x now clk m b ks Hi Hst Hbt. set (v := Resp.makeArray [lit "SUBSCRIBE"; T]).
  destruct (value_read x now clk v m b ks Hi Hbt Hv Hlen) as (E & Hs0 & Hb0).
  set (s0 := on_value_read now v (Session.mkState m b ks)) in *. destruct Hb0 as (Hx & Hin & Hbuf & Hp).
  destruct (subscribe_unsent x b Hi Hst Hin) as (b' & Es & Hi' & Hst' & Hse & Ho & Hsd).
  assert (Eh : Session.handleCommand clk v s0 = (Session.mkState (Session.me s0)
    (b' <| Broker.outbox ::= Broker.push x (Resp.serialize (Session.confirmation (lit "subscribe") T 1)) |>) ks, Ret tt)).
  { change (Session.handleCommand clk v s0) with
      ((this ← gets (λ s, Session.self (Session.me s));
        for_each [(1, T)] (λ '(i, t), _ ← Session.on_broker (Broker.subscribe this t);
          Session.sendResp (Session.confirmation (lit "subscribe") t i))) s0).
    erewrite bind_ret_eq by done. rewrite Hx. cbn [for_each].
    rewrite (bind_ret_eq _ _ _ (Session.mkState (Session.me s0)
      (b' <| Broker.outbox ::= Broker.push x (Resp.serialize (Session.confirmation (lit "subscribe") T 1)) |>) ks) tt); [done|].
    erewrite bind_ret_eq by (by apply on_broker_eq). unfold Session.sendResp, Session.send.
    erewrite bind_ret_eq by done. by rewrite <-Hx. }
  rewrite Eh in E. cbn [fst] in E. eexists _, _, _. split; [exact E|]. split; [|split].
  - apply answered_push; [done..|by rewrite Ho|done].
  - split; [done|]. split; [rewrite <-Hse in Hin; exact Hin|done].
  - intros y Hy. cbn. rewrite Broker.sent_push, bool_decide_false by done. by rewrite Ho.
Qed.
End resp.

(** ** The world *)

(** Descriptors not given out yet are unknown to the broker, and every session
    is between two requests. *)
Record base w : Prop := {
  ba_inv : Broker.broker_inv (broker w);
  ba_store : store_ok (broker w);
  ba_sock : 0 ≤ next_sock w;
  ba_none : conns w !! (-1) = None;
  ba_fresh x : next_sock w ≤ x →
    conns w !! x = None ∧ (x ∉ Broker.sessions_ (broker w)) ∧ Broker.sent (Broker.outbox (broker w)) x = [];
  ba_conn x c : conns w !! x = Some c →
    match side c with Live m => between x (broker w) m | _ => x ∉ Broker.sessions_ (broker w) end;
}.

(** A connection whose broker's end may have moved. *)
Definition same_client (c c' : conn) : Prop :=
  to_broker c' = to_broker c ∧ got c' = got c ∧ client_open c' = client_open c ∧
  (gone (side c) = true → gone (side c') = true).

(** A step of the broker that sends nothing. *)
Definition quiet_step w w' : Prop :=
  base w' ∧ Broker.outbox (broker w') = Broker.outbox (broker w) ∧
  (∀ t y, y ∈ Broker.subscribers (broker w') t → y ∈ Broker.subscribers (broker w) t) ∧
  (∀ y c', conns w' !! y = Some c' → ∃ c, conns w !! y = Some c ∧ same_client c c') ∧
  next_sock w' = next_sock w ∧ console w' = console w ∧ vars w' = vars w ∧
  (∀ y, conns w !! y = None → conns w' !! y = None ∧
     (y ∉ Broker.sessions_ (broker w) → y ∉ Broker.sessions_ (broker w'))).

(** The broker after the end of a session. *)
Lemma cleanup_eq m b ks :
  Session.cleanup (Session.mkState m b ks) =
    (Session.mkState m (fst (Broker.removeSession (Session.self m)
       (if bool_decide (Session.client_id_ m = []) then b
        else b <| Broker.client_sessions_ ::= delete (Session.client_id_ m) |>))) ks, Ret tt).
Proof. unfold Session.cleanup, mbind, act_bind, gets. cbn [Session.me]. by destruct (bool_decide _). Qed.

(** Connection [x] gets the end [p], on the broker [b']. *)
Lemma base_update w x c p b' ks' d :
  base w → conns w !! x = Some c → Broker.broker_inv b' → store_ok b' →
  (∀ y, y ≠ x → (y ∈ Broker.sessions_ b' ↔ y ∈ Broker.sessions_ (broker w))) →
  (∀ y, next_sock w ≤ y → Broker.sent (Broker.outbox b') y = []) →
  match p with Live m => between x b' m | _ => x ∉ Broker.sessions_ b' end →
  base (set_conn (w <| broker := b' |> <| keystore := ks' |>) x (c <| to_broker := d |> <| side := p |>)).
Proof.
  intros Hb Hc Hi Hs Hse Ho Hp. assert (Hx : x < next_sock w).
  { destruct (Z.le_gt_cases (next_sock w) x) as [Hle|]; [|lia]. destruct (ba_fresh _ Hb x Hle) as [? _]. congruence. }
  split; [done|done|exact (ba_sock _ Hb)|..]; cbn.
  - rewrite lookup_insert_ne; [apply (ba_none _ Hb)|]. intros ->. by rewrite (ba_none _ Hb) in Hc.
  - intros y Hy. destruct (ba_fresh _ Hb y Hy) as (Hn & Hns & _). rewrite lookup_insert_ne by lia.
    split; [done|]. split; [by rewrite Hse by lia|by apply Ho].
  - intros y c'. rewrite lookup_insert_Some. intros [[<- <-]|[Hne Hc']]; [exact Hp|].
    pose proof (ba_conn _ Hb y c' Hc') as Hy. destruct (side c') as [|m|]; [by rewrite Hse| |by rewrite Hse].
    destruct Hy as (? & ? & ? & ?). split; [done|]. split; [by apply Hse|done].
Qed.

Lemma quiet_update w x c p b' ks' :
  base w → conns w !! x = Some c → Broker.broker_inv b' → store_ok b' →
  (∀ y, y ≠ x → (y ∈ Broker.sessions_ b' ↔ y ∈ Broker.sessions_ (broker w))) →
  Broker.outbox b' = Broker.outbox (broker w) →
  (∀ t y, y ∈ Broker.subscribers b' t → y ∈ Broker.subscribers (broker w) t) →
  match p with Live m => between x b' m | _ => x ∉ Broker.sessions_ b' end →
  (gone (side c) = true → gone p = true) →
  quiet_step w (set_conn (w <| broker := b' |> <| keystore := ks' |>) x (c <| side := p |>)).
Proof.
  intros Hb Hc Hi Hs Hse Ho Hsub Hp Hg. split.
  { change (c <| side := p |>) with (c <| to_broker := to_broker c |> <| side := p |>).
    apply base_update; try done. intros y Hy. rewrite Ho. by apply (ba_fresh _ Hb). }
  split; [done|]. split; [done|]. split; [|split; [done|split; [done|split; [done|]]]].
  - cbn. intros y c'. rewrite lookup_insert_Some. intros [[<- <-]|[_ Hy]]; [by exists c|by exists c'].
  - cbn. intros y Hy. assert (y ≠ x) by congruence. rewrite lookup_insert_ne by done. by rewrite Hse.
Qed.

(** The session of [x] ends. *)
Lemma removed_step w x c m ks' :
  base w → conns w !! x = Some c → side c = Live m →
  let b := if bool_decide (Session.client_id_ m = []) then broker w
           else broker w <| Broker.client_sessions_ ::= delete (Session.client_id_ m) |> in
  quiet_step w (set_conn (w <| broker := fst (Broker.removeSession x b) |> <| keystore := ks' |>) x (c <| side := Gone |>)).
Proof.
  intros Hb Hc Hm b. pose proof (ba_conn _ Hb x c Hc) as Hbt. rewrite Hm in Hbt. destruct Hbt as (_ & Hin & _).
  assert (Hi0 : Broker.broker_inv b) by (unfold b; case_bool_decide; destruct (ba_inv _ Hb); by split).
  assert (Hin0 : x ∈ Broker.sessions_ b) by (unfold b; by case_bool_decide).
  assert (Hkeep : Broker.persistence_ b = Broker.persistence_ (broker w) ∧ Broker.outbox b = Broker.outbox (broker w) ∧
    Broker.sessions_ b = Broker.sessions_ (broker w) ∧
    ∀ t, Broker.subscribers b t = Broker.subscribers (broker w) t) by (unfold b; by case_bool_decide).
  destruct Hkeep as (Hpe & Hou & Hse & Hsu).
  destruct (Broker.removeSession_inv b x Hi0 Hin0) as (_ & Hi' & Ho & Hn & Hsub).
  apply quiet_update; [done|done|done| | |by rewrite Ho| |done|done].
  - destruct (ba_store _ Hb) as (e & He & Hr). exists e. split; [|done]. change (Broker.persistence_ b = Some e). by rewrite Hpe.
  - intros y Hy. change (y ∈ filter (λ s, s ≠ x) (Broker.sessions_ b) ↔ y ∈ Broker.sessions_ (broker w)).
    rewrite list_elem_of_filter, Hse. naive_solver.
  - intros t y. rewrite Hsub, <-Hsu. set_solver.
Qed.

(** A session that is not read from. *)
Lemma idle_turn w x c m ev w' :
  base w → conns w !! x = Some c → side c = Live m →
  ev = Session.RecvClosed ∨ (∃ now, ev = Session.RecvTimeout now) →
  session_turn w x c m ev = Some w' → quiet_step w w'.
Proof.
  intros Hb Hc Hm Hev. pose proof (ba_conn _ Hb x c Hc) as Hbt. rewrite Hm in Hbt.
  assert (Hstay : quiet_step w (set_conn (w <| broker := broker w |> <| keystore := keystore w |>) x (c <| side := Live m |>))).
  { apply quiet_update; [done|done|apply Hb|apply Hb|done|done|done|done|by rewrite Hm]. }
  pose proof (removed_step w x c m (keystore w) Hb Hc Hm) as Hgo. destruct Hbt as (Hx & _).
  assert (Hover : Session.run [ev] (Session.mkState m (broker w) (keystore w)) =
      (Session.mkState m (broker w) (keystore w), Ret false) ∨
    Session.run [ev] (Session.mkState m (broker w) (keystore w)) =
      ((_ ← Session.cleanup; mret true) (Session.mkState m (broker w) (keystore w)))).
  { destruct Hev as [->|[now ->]]; [by right|]. unfold Session.run. cbn [Session.run_loop].
    erewrite bind_ret_eq by done. destruct (_ <=? _); [by right|by left]. }
  unfold session_turn. destruct Hover as [E|E]; rewrite E.
  - by intros [= <-].
  - rewrite (bind_ret_eq _ _ _ _ _ (cleanup_eq m (broker w) (keystore w))). cbn [Session.broker Session.keystore].
    rewrite Hx. by intros [= <-].
Qed.

Lemma accepted_step w x c now :
  base w → conns w !! x = Some c → side c = Queued →
  let b := fst (Broker.accept_client x (broker w)) in
  quiet_step w (set_conn (w <| broker := b |>) x
    (c <| side := if bool_decide (x ∈ Broker.sessions_ b) then Live (Session.new_session x now) else Gone |>)).
Proof.
  intros Hb Hc Hq b. pose proof (ba_conn _ Hb x c Hc) as Hbt. rewrite Hq in Hbt.
  destruct (Broker.accept_client_inv (broker w) x (ba_inv _ Hb) Hbt) as (_ & Hi & Hse). fold b in Hi, Hse.
  assert (Hkeep : preserves (λ b, (Broker.persistence_ b, Broker.outbox b, Broker.topic_subscribers_ b))
    (Broker.accept_client (env := env) x)).
  { unfold Broker.accept_client, Broker.update_metrics. repeat preserve_step. }
  specialize (Hkeep (broker w)). fold b in Hkeep. injection Hkeep as Hpe Hou Hto.
  change (w <| broker := b |>) with (w <| broker := b |> <| keystore := keystore w |>).
  apply quiet_update; try done.
  - destruct (ba_store _ Hb) as (e & He & Hr). exists e. split; [|done]. by rewrite Hpe.
  - intros y Hy. rewrite Hse. destruct (_ <=? _); [done|]. rewrite elem_of_app, list_elem_of_singleton. naive_solver.
  - intros t y. unfold Broker.subscribers. by rewrite Hto.
  - case_bool_decide; [|done]. by split.
  - by rewrite Hq.
Qed.

(** A step of the broker is a quiet one, or it reads what a client has written. *)
Lemma broker_cases w l w' :
  base w → broker_step l w = Some w' →
  quiet_step w w' ∨
  ∃ x now clk c m, l = Serve x now clk ∧ conns w !! x = Some c ∧ side c = Live m ∧ to_broker c ≠ [].
Proof.
  intros Hb. destruct l as [i ans|x now|x now clk|x now|x]; cbn [broker_step]; [done|..];
    destruct (conns w !! x) as [[sd q g o]|] eqn:Ex; try done; destruct sd as [|m|]; try done.
  - intros [= <-]. left. by apply (accepted_step w x (mkConn Queued q g o) now).
  - destruct q as [|a q]; [done|]. intros _. right. by exists x, now, clk, (mkConn (Live m) (a :: q) g o), m.
  - destruct q; [|done]. intros E. left. eapply idle_turn; [done|exact Ex|done| |exact E]. eauto.
  - destruct q; [|done]. destruct o; [done|]. intros E. left. eapply idle_turn; [done|exact Ex|done| |exact E]. by left.
Qed.

Lemma serve_eq w x c m d now clk m' b' ks' :
  conns w !! x = Some c → side c = Live m → to_broker c = d → d ≠ [] → (length d ≤ RECV_SIZE)%nat →
  Session.on_data now (λ _, clk) d (Session.mkState m (broker w) (keystore w)) = (Session.mkState m' b' ks', Ret true) →
  broker_step (Serve x now clk) w =
    Some (set_conn (w <| broker := b' |> <| keystore := ks' |>) x (c <| to_broker := [] |> <| side := Live m' |>)).
Proof.
  intros Hc Hm Hd Hne Hl E. destruct c as [sd q g o]. cbn in Hm, Hd. subst sd q. cbn [broker_step]. rewrite Hc.
  destruct d as [|a d]; [done|]. unfold session_turn. rewrite take_ge, drop_ge by done.
  unfold Session.run. cbn [Session.run_loop]. rewrite (bind_ret_eq _ _ _ _ _ E). done.
Qed.

(** ** The first part: publishing *)

(** The line that must not appear. *)
Context (forbidden : bytes).
Definition printable (l : list bytes) : Prop := forbidden ∉ l.

(** Nothing is on its way to the broker, and none of the connections subscribes. *)
Definition resting w : Prop :=
  base w ∧ printable (console w) ∧
  (∀ x c, conns w !! x = Some c → gone (side c) = true ∨ to_broker c = []) ∧
  (∀ x c, conns w !! x = Some c → ∀ t, x ∉ Broker.subscribers (broker w) t).

(** The client of [x] has read all that was sent to it. *)
Definition calm (x : Z) w : Prop :=
  resting w ∧ ∀ c, conns w !! x = Some c → client_open c = true ∧ got c = length (stream w x).

(** Nothing was ever sent to it. *)
Definition new_conn (x : Z) w : Prop :=
  resting w ∧ ∀ c, conns w !! x = Some c →
    client_open c = true ∧ got c = 0%nat ∧ Broker.sent (Broker.outbox (broker w)) x = [].

(** A request of [x] is on its way, or its answer is there, or the session is gone. *)
Definition awaiting (x : Z) (d reply : bytes) w : Prop :=
  base w ∧ printable (console w) ∧
  (∀ y c, conns w !! y = Some c → ∀ t, y ∉ Broker.subscribers (broker w) t) ∧
  (∀ y c, conns w !! y = Some c → y ≠ x → gone (side c) = true ∨ to_broker c = []) ∧
  ∀ c, conns w !! x = Some c → client_open c = true ∧ (
    (gone (side c) = false ∧ to_broker c = d ∧ got c = length (stream w x)) ∨
    ((gone (side c) = true ∨ to_broker c = []) ∧
      ((gone (side c) = true ∧ got c = length (stream w x)) ∨
       ∃ read, stream w x = read ++ reply ∧ got c = length read))).

Lemma quiet_resting w w' : quiet_step w w' → resting w → resting w'.
Proof.
  intros (Hb & Ho & Hsub & Hco & Hn & Hc & Hv & Hnone) (_ & Hp & Hpend & Hun). split; [done|].
  split; [by rewrite Hc|]. split; intros y c' Hy; destruct (Hco y c' Hy) as (c & Hcy & Hto & _ & _ & Hg).
  - rewrite Hto. destruct (Hpend y c Hcy); [left|right]; auto.
  - intros t Ht. by eapply Hun, Hsub.
Qed.

Lemma quiet_stream w w' x : quiet_step w w' → stream w' x = stream w x.
Proof. intros (_ & Ho & _). unfold stream. by rewrite Ho. Qed.

Lemma resting_quiet l w w' : broker_step l w = Some w' → resting w → quiet_step w w'.
Proof.
  intros E (Hb & _ & Hpend & _). destruct (broker_cases w l w' Hb E) as [Hq|(x & now & clk & c & m & _ & Hc & Hm & Hne)]; [done|].
  destruct (Hpend x c Hc) as [Hg|?]; [by rewrite Hm in Hg|done].
Qed.

Abbreviation stable := (stable (env := env) printable).

Lemma resting_stable : stable resting.
Proof. split; [|by intros w (_ & ? & _)]. intros l w w' E Hr. by eapply quiet_resting; [eapply resting_quiet|]. Qed.

Lemma calm_stable x : stable (calm x).
Proof.
  split; [|by intros w [(_ & ? & _) _]]. intros l w w' E [Hr Hg]. pose proof (resting_quiet l w w' E Hr) as Hq.
  split; [by eapply quiet_resting|]. intros c' Hc'. pose proof Hq as (_ & _ & _ & Hco & _).
  destruct (Hco x c' Hc') as (c & Hc & _ & Hgot & Hop & _). rewrite Hgot, Hop, (quiet_stream w w' x Hq). auto.
Qed.

Lemma new_conn_stable x : stable (new_conn x).
Proof.
  split; [|by intros w [(_ & ? & _) _]]. intros l w w' E [Hr Hg]. pose proof (resting_quiet l w w' E Hr) as Hq.
  split; [by eapply quiet_resting|]. intros c' Hc'. pose proof Hq as (_ & Ho & _ & Hco & _).
  destruct (Hco x c' Hc') as (c & Hc & _ & Hgot & Hop & _). rewrite Hgot, Hop, Ho. auto.
Qed.

Lemma new_calm x w : new_conn x w → calm x w.
Proof. intros [Hr Hn]. split; [done|]. intros c Hc. destruct (Hn c Hc) as (? & -> & Hs). unfold stream. by rewrite Hs. Qed.

(** The broker answers a publish. *)
Lemma awaiting_stable x d reply :
  d ≠ [] → (length d ≤ RECV_SIZE)%nat → publishes d reply → stable (awaiting x d reply).
Proof.
  intros Hne Hlen Hpub. split; [|by intros w (_ & ? & _)].
  intros l w w' E (Hb & Hp & Hun & Hoth & Hx).
  destruct (broker_cases w l w' Hb E) as [Hq|(y & now & clk & c & m & -> & Hc & Hm & Hpend)].
  - pose proof Hq as (Hb' & Ho & Hsub & Hco & Hn & Hcon & _). split; [done|]. split; [by rewrite Hcon|].
    split; [|split]; [intros y c' Hy; destruct (Hco y c' Hy) as (c & Hcy & Hto & Hgot & _ & Hg)..|].
    + intros t Ht. by eapply Hun, Hsub.
    + intros Hyx. rewrite Hto. destruct (Hoth y c Hcy Hyx); [left|right]; auto.
    + intros c' Hc'. destruct (Hco x c' Hc') as (c & Hcx & Hto & Hgot & Hop & Hg).
      rewrite Hto, Hgot, Hop, (quiet_stream w w' x Hq). destruct (Hx c Hcx) as [Hopen Hcase].
      split; [done|]. destruct Hcase as [(Hng & Hd & Hgc)|[Hidle Hrep]].
      * destruct (gone (side c')) eqn:Eg; [right; auto|by left].
      * right. split; [destruct Hidle; [left|right]; auto|]. destruct Hrep as [[? ?]|?]; [left|right]; auto.
  - destruct (decide (y = x)) as [->|Hyx]; [|destruct (Hoth y c Hc Hyx) as [Hg|?]; [by rewrite Hm in Hg|done]].
    pose proof (ba_conn _ Hb x c Hc) as Hbt. rewrite Hm in Hbt.
    destruct (Hx c Hc) as [Hopen [(Hng & Hd & Hgc)|[[Hg|?] _]]]; [|by rewrite Hm in Hg|done].
    destruct (Hpub x now clk m (broker w) (keystore w) (ba_inv _ Hb) (ba_store _ Hb) Hbt (Hun x c Hc))
      as (m' & b' & ks' & Eo & (Hi' & Hst' & Hse & Hsent & _) & Hbt' & Hsub & Hfar).
    rewrite (serve_eq w x c m d now clk m' b' ks' Hc Hm Hd Hne Hlen Eo) in E. injection E as <-.
    assert (Hstr : concat (Broker.sent (Broker.outbox b') x) = stream w x ++ reply).
    { unfold stream. by rewrite Hsent, concat_app; cbn; rewrite app_nil_r. }
    split; [apply base_update; try done; [by intros y _; rewrite Hse|]|split; [done|split; [|split]]].
    + intros y Hy. destruct (ba_fresh _ Hb y Hy) as (_ & Hny & Hs0). by rewrite Hfar.
    + cbn. intros y c'. rewrite lookup_insert_Some. intros [[<- _]|[_ Hy]] t; rewrite Hsub; eauto.
    + cbn. intros y c'. rewrite lookup_insert_Some. intros [[<- _]|[_ Hy]]; [done|eauto].
    + cbn. intros c'. rewrite lookup_insert_eq. intros [= <-]. split; [done|]. right. cbn. split; [by right|]. right.
      exists (stream w x). split; [exact Hstr|done].
Qed.

(** An assertion that does not look at the console, the variables and the
    error output. *)
Definition blind (P : world env → Prop) : Prop := ∀ w w',
  broker w' = broker w → conns w' = conns w → next_sock w' = next_sock w → printable (console w') → P w → P w'.

Lemma resting_blind : blind resting.
Proof.
  intros w w' Eb Ec En Hp (Hb & _ & Hpend & Hun). unfold resting. rewrite Eb, Ec. split; [|done].
  destruct Hb. split; rewrite ?Eb, ?Ec, ?En; done.
Qed.

Lemma calm_blind x : blind (calm x).
Proof.
  intros w w' Eb Ec En Hp [Hr Hg]. split; [by apply (resting_blind w)|]. unfold stream. by rewrite Eb, Ec.
Qed.

Lemma new_conn_blind x : blind (new_conn x).
Proof. intros w w' Eb Ec En Hp [Hr Hg]. split; [by apply (resting_blind w)|]. by rewrite Eb, Ec. Qed.

Lemma printable_app l t : t ≠ forbidden → printable l → printable (l ++ [t]).
Proof. intros Ht Hl. unfold printable. rewrite elem_of_app, list_elem_of_singleton. naive_solver. Qed.

Abbreviation triple := (triple (env := env) printable).

Lemma triple_print P t : stable P → blind P → t ≠ forbidden → triple P (print t) (λ _, P).
Proof.
  intros Hs Hbl Ht. apply triple_skip; [done|done|]. intros ans w w' HP [= <-]. apply (Hbl w); try done.
  cbn. apply printable_app; [done|]. by apply Hs.
Qed.

(** Calls that leave broker, connections and console alone. *)
Lemma triple_report P t : stable P → blind P → triple P (report t) (λ _, P).
Proof. intros Hs Hbl. apply triple_skip; [done|done|]. intros ans w w' HP [= <-]. apply (Hbl w); try done. exact (proj2 Hs w HP). Qed.
Lemma triple_sleep P ms : stable P → triple P (sleep ms) (λ _, P).
Proof. intros Hs. apply triple_skip; [done|done|]. by intros ans w w' HP [= <-]. Qed.
Lemma triple_store P v z : stable P → blind P → triple P (call (Store v z)) (λ _, P).
Proof. intros Hs Hbl. apply triple_skip; [done|done|]. intros ans w w' HP [= <-]. apply (Hbl w); try done. exact (proj2 Hs w HP). Qed.

(** A client's own change of its connection. *)
Lemma base_client w x c c' : base w → conns w !! x = Some c → side c' = side c → base (set_conn w x c').
Proof.
  intros Hb Hc Hs. assert (Hx : x < next_sock w).
  { destruct (Z.le_gt_cases (next_sock w) x) as [Hle|]; [|lia]. destruct (ba_fresh _ Hb x Hle) as [? _]. congruence. }
  split; [apply Hb|apply Hb|apply Hb|..]; cbn.
  - rewrite lookup_insert_ne; [apply (ba_none _ Hb)|]. intros ->. by rewrite (ba_none _ Hb) in Hc.
  - intros y Hy. rewrite lookup_insert_ne by lia. by apply (ba_fresh _ Hb).
  - intros y c1. rewrite lookup_insert_Some. intros [[<- <-]|[_ Hy]]; [rewrite Hs; by apply (ba_conn _ Hb)|].
    by apply (ba_conn _ Hb).
Qed.

(** A request and its answer. *)
Lemma triple_request x d reply :
  d ≠ [] → (length d ≤ RECV_SIZE)%nat → publishes d reply → triple (calm x) (write x d) (λ _, awaiting x d reply).
Proof.
  intros Hne Hlen Hpub. apply triple_call; [done|by intros []; apply awaiting_stable|].
  intros ans w w' [] [(Hb & Hp & Hpend & Hun) Hg]. cbn [handle]. destruct (conns w !! x) as [c|] eqn:Ex.
  - destruct (Hg c eq_refl) as [Hop Hgot]. rewrite Hop. destruct (gone (side c)) eqn:Eg; intros [= <-].
    + do 3 (split; [done|]). split; [eauto|]. intros c'. rewrite Ex. intros [= <-].
      split; [done|]. right. split; [by left|]. by left.
    + assert (Ht : to_broker c = []) by (destruct (Hpend x c Ex); [congruence|done]).
      split; [by eapply base_client|]. split; [done|]. split; [|split]; cbn.
      * intros y c'. rewrite lookup_insert_Some. intros [[<- _]|[_ Hy]]; eauto.
      * intros y c'. rewrite lookup_insert_Some. intros [[<- _]|[_ Hy]]; eauto.
      * intros c'. rewrite lookup_insert_eq. intros [= <-]. cbn. split; [done|]. left. by rewrite Ht.
  - intros [= <-]. do 3 (split; [done|]). split; [eauto|]. intros c'. by rewrite Ex.
Qed.

Lemma triple_answer x d reply size :
  reply ≠ [] → (length reply ≤ size)%nat → triple (awaiting x d reply) (recv x size) (λ _, calm x).
Proof.
  intros Hne Hlen. apply triple_call; [done|intros _; apply calm_stable|].
  intros ans w w' a (Hb & Hp & Hun & Hoth & Hx). cbn [handle].
  assert (Hrest : ∀ c, conns w !! x = Some c → gone (side c) = true ∨ to_broker c = [] → resting w).
  { intros c Hc Hi. split; [done|]. split; [done|]. split; [|done]. intros y c' Hy.
    destruct (decide (y = x)) as [->|]; [|by eapply Hoth]. by rewrite Hc in Hy; injection Hy as <-. }
  destruct (conns w !! x) as [c|] eqn:Ex.
  - destruct (Hx c eq_refl) as [Hop Hcase]. rewrite Hop. cbn [negb]. unfold unread.
    destruct Hcase as [(Hg & _ & Hgot)|[Hi [[Hg Hgot]|(read & Hst & Hgot)]]].
    + by rewrite Hgot, drop_all, take_nil, Hg.
    + rewrite Hgot, drop_all, take_nil, Hg. intros [= <- <-]. split; [by eapply Hrest|]. intros c'. rewrite Ex. by intros [= <-].
    + rewrite Hst, Hgot, drop_app_length, take_ge by done. destruct reply as [|r0 rs]; [done|]. intros [= <- <-].
      destruct (Hrest c eq_refl Hi) as (_ & _ & Hpend & _). split.
      * split; [by eapply base_client|]. split; [done|]. cbn. split; intros y c'; rewrite lookup_insert_Some;
          (intros [[<- <-]|[_ Hy]]; [|by eauto]); [exact Hi|by eapply Hun].
      * cbn. intros c'. rewrite lookup_insert_eq. intros [= <-]. split; [done|].
        change (stream _ x) with (stream w x). rewrite Hst, length_app, Hgot. done.
  - intros [= <- <-]. split; [|intros c'; by rewrite Ex]. split; [done|]. split; [done|]. split; [|done].
    intros y c' Hy. eapply Hoth; [done|]. congruence.
Qed.

(** *** Connecting *)

(** A descriptor that has just been given out, or none. *)
Definition opened (sock : Z) w : Prop :=
  resting w ∧ (sock = -1 ∨ 0 ≤ sock < next_sock w ∧ conns w !! sock = None ∧
    (sock ∉ Broker.sessions_ (broker w)) ∧ Broker.sent (Broker.outbox (broker w)) sock = []).

Lemma opened_stable sock : stable (opened sock).
Proof.
  split; [|by intros w [(_ & ? & _) _]]. intros l w w' E [Hr Hs]. pose proof (resting_quiet l w w' E Hr) as Hq.
  split; [by eapply quiet_resting|]. destruct Hq as (_ & Ho & _ & _ & Hn & _ & _ & Hnone).
  destruct Hs as [?|(Hrange & Hc & Hse & Hse0)]; [by left|right]. destruct (Hnone sock Hc) as [Hc' Hse'].
  rewrite Hn, Ho. auto.
Qed.

Lemma opened_blind sock : blind (opened sock).
Proof. intros w w' Eb Ec En Hp [Hr Hs]. split; [by apply (resting_blind w)|]. by rewrite Eb, Ec, En. Qed.

Lemma triple_socket : triple resting socket opened.
Proof.
  apply triple_call; [done|apply opened_stable|]. intros ans w w' a Hr. cbn [handle].
  destruct (ans =? -1); intros [= <- <-]; [split; [done|by left]|]. pose proof Hr as (Hb & Hp & Hpend & Hun).
  destruct (ba_fresh _ Hb (next_sock w)) as (Hc & Hns & Hs0); [lia|]. pose proof (ba_sock _ Hb) as Hz. split.
  - split; [|done]. destruct Hb. split; try done; cbn; [lia|]. intros x Hx. apply ba_fresh0. lia.
  - right. cbn. split; [lia|done].
Qed.

Lemma triple_connect sock address port :
  sock ≠ -1 → triple (opened sock) (connect sock address port) (λ r w, if r =? -1 then opened sock w else new_conn sock w).
Proof.
  intros Hne. apply triple_call; [done| |].
  { intros r. destruct (r =? -1); [apply opened_stable|apply new_conn_stable]. }
  intros ans w w' r [Hr Hs]. cbn [handle]. destruct (_ || _); intros [= <- <-]; [by split|].
  destruct Hs as [?|(Hrange & Hc & Hns & Hs0)]; [done|]. destruct Hr as (Hb & Hp & Hpend & Hun).
  split; [split; [|split; [done|split]]|]; cbn.
  - pose proof (ba_sock _ Hb). destruct Hb. split; try done; cbn.
    + by rewrite lookup_insert_ne by lia.
    + intros x Hx. rewrite lookup_insert_ne by lia. by apply ba_fresh0.
    + intros x c. rewrite lookup_insert_Some. intros [[<- <-]|[_ Hx]]; [done|by apply ba_conn0].
  - intros x c. rewrite lookup_insert_Some. intros [[_ <-]|[_ Hx]]; [by right|eauto].
  - intros x c. rewrite lookup_insert_Some. intros [[<- _]|[_ Hx]]; [|eauto]. apply unsubscribed; [apply Hb|done].
  - intros c. rewrite lookup_insert_eq. by intros [= <-].
Qed.

Lemma no_conn w : resting w → new_conn (-1) w.
Proof. intros Hr. split; [done|]. intros c. by rewrite (ba_none _ (proj1 Hr)). Qed.

Lemma triple_open who connected host port :
  (∀ x, triple (new_conn x) connected (λ _, new_conn x)) → triple resting (open_socket who connected host port) new_conn.
Proof.
  intros Hc. eapply triple_bind; [apply triple_socket|]. intros sock. destruct (sock =? -1) eqn:E1.
  - eapply triple_bind; [apply triple_report; [apply opened_stable|apply opened_blind]|]. intros ?.
    apply triple_ret. intros w [Hr _]. by apply no_conn.
  - apply Z.eqb_neq in E1. eapply triple_bind; [by apply triple_connect|]. intros r. cbn beta. destruct (r =? -1).
    + eapply triple_bind; [apply triple_report; [apply opened_stable|apply opened_blind]|]. intros ?.
      eapply triple_bind; [|intros ?; apply triple_ret, no_conn].
      apply triple_call; [done|intros ?; apply resting_stable|]. intros ans w w' a [Hr Hs]. cbn [handle].
      destruct Hs as [?|(_ & Hn & _)]; [done|]. rewrite Hn. by intros [= <- _].
    + eapply triple_bind; [apply Hc|]. intros ?. by apply triple_ret.
Qed.

(** An answer that is parsed and ignored. *)
Lemma triple_outcome {A} P (m : outcome A) : is_ret m = true → triple P (of_outcome m) (λ _, P).
Proof. destruct m; [|done..]. intros _. by apply triple_ret. Qed.

(** A loop, and one that passes on an object. *)
Lemma triple_each {A} P (l : list A) f :
  (∀ x, x ∈ l → triple P (f x) (λ _, P)) → triple P (each l f) (λ _, P).
Proof.
  induction l as [|x l IH]; intros Hf; [by apply triple_ret|].
  eapply triple_bind; [apply Hf; by left|]. intros ?. apply IH. intros y Hy. apply Hf. by right.
Qed.

Lemma triple_loop {A S} (I : S → world env → Prop) (l : list A) f s :
  (∀ s x, x ∈ l → triple (I s) (f s x) I) → triple (I s) (loop_with l f s) I.
Proof.
  revert s. induction l as [|x l IH]; intros s Hf; [by apply triple_ret|].
  eapply triple_bind; [apply Hf; by left|]. intros s'. apply IH. intros s2 y Hy. apply Hf. by right.
Qed.

(** *** Publishing over the binary protocol *)

Definition published_by (sock : Z) (p : Clients.BinaryPublisher) w : Prop := Clients.sock_ p = sock ∧ calm sock w.

Lemma published_by_stable sock p : stable (published_by sock p).
Proof.
  destruct (calm_stable sock) as [Hc Hp]. split; [|by intros w [_ ?]; apply Hp].
  intros l w w' E [? ?]. split; [done|]. by eapply Hc.
Qed.
Lemma published_by_blind sock p : blind (published_by sock p).
Proof. intros w w' Eb Ec En Hp [? ?]. split; [done|]. by apply (calm_blind sock w). Qed.

Lemma serialize_nonempty f : serialize f ≠ [].
Proof. by rewrite serialize_layout. Qed.

Lemma triple_BinaryPublisher_send sock p payload :
  foreign = Session.RESP → zlen T ≤ MAX_TOPIC_LEN → 16 + zlen T + zlen payload ≤ 4096 →
  starts_with T (lit "secure/") = false →
  triple (published_by sock p) (BinaryPublisher_send p T payload) (published_by sock).
Proof.
  intros Hsp HT Hlen Hsec. unfold BinaryPublisher_send. destruct (Clients.sock_ p =? -1).
  { apply (triple_bind _ _ _ _ (λ _, published_by sock p)); [|intros ?; by apply triple_ret].
    apply triple_report; [apply published_by_stable|apply published_by_blind]. }
  set (p' := p <| Clients.sequence_ ::= λ n, u64 (n + 1) |>). set (f := frame_publish T payload (Clients.sequence_ p')).
  assert (Hn : 0 ≤ Clients.sequence_ p' < 2 ^ 64) by apply u64_range.
  assert (Hf : FrameWf f) by (split; try done; unfold MAX_PAYLOAD_LEN; cbn; lia).
  eapply (triple_pre _ (λ w, Clients.sock_ p = sock ∧ calm (Clients.sock_ p) w)); [by intros w [<- ?]|].
  destruct (decide (Clients.sock_ p = sock)) as [<-|Hne]; [|apply triple_absurd; by intros w [? _]].
  eapply (triple_pre _ (calm (Clients.sock_ p))); [by intros w [_ ?]|].
  eapply triple_bind; [apply (triple_request _ _ (serialize (frame_ack (Clients.sequence_ p'))))|].
  - apply serialize_nonempty.
  - apply Nat2Z.inj_le. rewrite length_serialize by done. change (16 + zlen T + zlen payload + 0 ≤ 4096). lia.
  - apply binary_publishes; try done. unfold Session.MAX_RECV_BUFFER. lia.
  - intros ?. eapply (triple_bind _ _ _ _ (λ _, calm (Clients.sock_ p))); [|intros ?; by apply triple_ret].
    unfold read_ack.
    eapply triple_bind; [apply triple_answer; [apply serialize_nonempty|]|].
    + apply Nat2Z.inj_le. rewrite length_serialize; [by vm_compute|]. by split.
    + intros reply. apply triple_outcome. by destruct (Clients.read_reply_total reply) as [? ->].
Qed.

(** *** Publishing over RESP *)

Lemma triple_Publisher_send sock payload :
  foreign = Session.BINARY → zlen (Resp.serialize (Resp.makeArray [lit "PUBLISH"; T; payload])) ≤ 4096 →
  triple (calm sock) (Publisher_send sock T payload) (λ _, calm sock).
Proof.
  intros Hsp Hlen. unfold Publisher_send. destruct (sock =? -1).
  { apply triple_report; [apply calm_stable|apply calm_blind]. }
  eapply triple_bind; [apply (triple_request _ _ (Resp.serialize (Resp.integer 1)))|].
  - done.
  - by apply Nat2Z.inj_le.
  - apply resp_publishes; [done|]. unfold Session.MAX_RECV_BUFFER. lia.
  - intros ?. eapply triple_bind; [apply triple_answer; [done|]|intros ?; by apply triple_ret].
    apply Nat2Z.inj_le. by vm_compute.
Qed.

(** ** The second part: subscribing *)

Section second.
(** The subscriber's socket, its request with the broker's answer, the counter
    of its callback, and which of the two threads it is. *)
Context (x : Z) (q reply : bytes) (v : var) (subscriber : role) (ends : status → Prop).
Context (q_nonempty : q ≠ []) (q_short : (length q ≤ RECV_SIZE)%nat) (q_subscribes : subscribes q reply)
  (reply_nonempty : reply ≠ []) (reply_short : (length reply ≤ 4096)%nat).

Definition told w : list bytes := Broker.sent (Broker.outbox (broker w)) x.

(** Nobody publishes, the subscriber is sent nothing but the answer, and the
    counter stays where it is. *)
Definition Inv w : Prop :=
  base w ∧ printable (console w) ∧ value w v = 0 ∧
  (∀ y c, conns w !! y = Some c → y ≠ x → gone (side c) = true ∨ to_broker c = []) ∧
  ∀ c, conns w !! x = Some c →
    (told w = [] ∨ told w = [reply]) ∧
    (gone (side c) = true ∨ to_broker c = [] ∨ to_broker c = q ∧ told w = []).

(** The other thread leaves the subscriber's connection alone, but for closing it. *)
Definition bystander w w' : Prop :=
  broker w' = broker w ∧
  ∀ c', conns w' !! x = Some c' → ∃ c, conns w !! x = Some c ∧ to_broker c' = to_broker c ∧ got c' = got c ∧ side c' = side c.

Definition guarantee (ρ : role) w w' : Prop :=
  vars w' = vars w ∧ match ρ, subscriber with Main, Main | Child, Child => True | _, _ => bystander w w' end.

Lemma Inv_stable l w w' : broker_step l w = Some w' → Inv w → Inv w'.
Proof.
  intros E (Hb & Hp & Hv & Hoth & Hx).
  destruct (broker_cases w l w' Hb E) as [Hq|(y & now & clk & c & m & -> & Hc & Hm & Hpend)].
  - destruct Hq as (Hb' & Ho & _ & Hco & _ & Hcon & Hva & _). split; [done|]. split; [by rewrite Hcon|].
    split; [unfold value; by rewrite Hva|]. unfold told. rewrite Ho.
    split; [intros y c' Hy Hyx|intros c' Hc']; [destruct (Hco y c' Hy) as (c & Hcy & Hto & _ & _ & Hg)|
      destruct (Hco x c' Hc') as (c & Hcx & Hto & _ & _ & Hg)]; rewrite Hto.
    + destruct (Hoth y c Hcy Hyx); [left|right]; auto.
    + destruct (Hx c Hcx) as [Ht [?|[?|?]]]; (split; [done|]); auto.
  - destruct (decide (y = x)) as [->|Hyx]; [|destruct (Hoth y c Hc Hyx) as [Hg|?]; [by rewrite Hm in Hg|done]].
    pose proof (ba_conn _ Hb x c Hc) as Hbt. rewrite Hm in Hbt.
    destruct (Hx c Hc) as [_ [Hg|[?|[Hd Ht]]]]; [by rewrite Hm in Hg|done|].
    destruct (q_subscribes x now clk m (broker w) (keystore w) (ba_inv _ Hb) (ba_store _ Hb) Hbt)
      as (m' & b' & ks' & Eo & (Hi' & Hst' & Hse & Hsent & _) & Hbt' & Hfar).
    rewrite (serve_eq w x c m q now clk m' b' ks' Hc Hm Hd q_nonempty q_short Eo) in E. injection E as <-.
    unfold told in Ht. rewrite Ht in Hsent.
    assert (Hxn : ∀ y, next_sock w ≤ y → y ≠ x) by (intros y Hy ->; destruct (ba_fresh _ Hb x Hy); congruence).
    split; [apply base_update; try done; [by intros y _; rewrite Hse|]|split; [done|split; [done|split]]].
    + intros y Hy. rewrite Hfar by by apply Hxn. by apply (ba_fresh _ Hb).
    + cbn. intros y c'. rewrite lookup_insert_Some. intros [[<- _]|[_ Hy]]; [done|eauto].
    + cbn. intros c'. rewrite lookup_insert_eq. intros [= <-]. split; [by right|]. cbn. auto.
Qed.

Lemma Inv_printable w : Inv w → printable (console w).
Proof. by intros (_ & ? & _). Qed.

Abbreviation stab := (stab (env := env) guarantee Inv).
Abbreviation rg := (rg (env := env) ends guarantee Inv).

(** *** Calls of either thread *)

(** An assertion about broker and connections alone. *)
Definition shy (P : world env → Prop) : Prop := ∀ w w', broker w' = broker w → conns w' = conns w → P w → P w'.

Lemma guarantee_same ρ w w' :
  broker w' = broker w → conns w' = conns w → vars w' = vars w → guarantee ρ w w'.
Proof.
  intros Eb Ec Ev. split; [done|]. assert (bystander w w') by (split; [done|]; intros c'; rewrite Ec; intros Hc; by exists c').
  by repeat case_match.
Qed.

Lemma Inv_same w w' :
  broker w' = broker w → conns w' = conns w → next_sock w' = next_sock w → printable (console w') → value w' v = 0 →
  Inv w → Inv w'.
Proof.
  intros Eb Ec En Hp Hv (Hb & _ & _ & Hoth & Hx). unfold Inv, told. rewrite Eb, Ec.
  split; [destruct Hb; split; rewrite ?Eb, ?Ec, ?En; done|]. done.
Qed.

Lemma rg_print ρ n P t : stab ρ P → shy P → t ≠ forbidden → rg ρ n P (print t) (λ _, P).
Proof.
  intros Hs Hshy Ht. apply rg_call; [done|by intros []|]. intros ans w w' a Hi HP [= <- _]. split.
  - pose proof Hi as (_ & Hp & Hv & _). apply (Inv_same w); try done. by apply printable_app.
  - split; [by apply guarantee_same|by apply (Hshy w)].
Qed.

(** A call that only looks, or writes to the error output. *)
Lemma rg_look {A} ρ n P (e : callE A) (Q : A → Prop) :
  local e = true → stab ρ P → shy P →
  (∀ ans w w' a, Inv w → handle ans e w = Some (w', a) →
     Q a ∧ broker w' = broker w ∧ conns w' = conns w ∧ next_sock w' = next_sock w ∧ console w' = console w ∧
     vars w' = vars w) →
  rg ρ n P (call e) (λ a w, Q a ∧ P w).
Proof.
  intros Hl Hs Hshy Hh. apply rg_call; [done| |].
  { intros a. destruct Hs as [H1' H2']. split; intros; destruct_and!; (split; [done|]); eauto. }
  intros ans w w' a Hi HP E. destruct (Hh ans w w' a Hi E) as (HQ & Eb & Ec & En & Econ & Ev).
  pose proof Hi as (_ & Hp & Hv & _). split; [apply (Inv_same w); try done; [by rewrite Econ|unfold value; by rewrite Ev]|].
  split; [by apply guarantee_same|]. split; [done|by apply (Hshy w)].
Qed.

Lemma stab_true ρ : stab ρ (λ _, True).
Proof. by split. Qed.
Lemma shy_true : shy (λ _, True).
Proof. done. Qed.

Lemma rg_report ρ n P t : stab ρ P → shy P → rg ρ n P (report t) (λ _, P).
Proof.
  intros Hs Hshy. apply rg_call; [done|by intros []|]. intros ans w w' a Hi HP [= <- _]. split.
  - pose proof Hi as (_ & Hp & Hv & _). by apply (Inv_same w).
  - split; [by apply guarantee_same|by apply (Hshy w)].
Qed.

Lemma rg_sleep ρ n P ms : stab ρ P → rg ρ n P (sleep ms) (λ _, P).
Proof.
  intros Hs. apply rg_call; [done|by intros []|]. intros ans w w' a Hi HP [= <- _]. split; [done|].
  split; [by apply guarantee_same|done].
Qed.

(** The counter is at zero. *)
Lemma rg_load ρ n : rg ρ n (λ _, True) (call (Load v)) (λ a _, a = 0).
Proof.
  apply rg_call; [done|by split|]. intros ans w w' a Hi _ [= <- <-]. split; [done|].
  split; [by apply guarantee_same|]. by destruct Hi as (_ & _ & ? & _).
Qed.

Lemma rg_load_bind {A} ρ n (k : Z → program A) Q :
  rg ρ n (λ _, True) (k 0) Q → rg ρ n (λ _, True) (call (Load v) ≫= k) Q.
Proof.
  intros Hk. eapply rg_bind; [apply rg_load|]. intros a.
  destruct (decide (a = 0)) as [->|]; [by eapply rg_pre; [|apply Hk]|by apply rg_absurd].
Qed.

(** A line of a thread that asserts nothing, and what comes after it. *)
Lemma rg_print_bind {A} ρ n t (k : unit → program A) Q :
  t ≠ forbidden → (∀ u, rg ρ n (λ _, True) (k u) Q) → rg ρ n (λ _, True) (print t ≫= k) Q.
Proof. intros Ht Hk. eapply rg_bind; [by apply rg_print; [apply stab_true|apply shy_true|]|done]. Qed.

Lemma rg_close ρ n sock : rg ρ n (λ _, True) (call (CloseSocket sock)) (λ _ _, True).
Proof.
  apply rg_call; [done|by split|]. intros ans w w' a Hi _. cbn [handle]. destruct (conns w !! sock) as [c|] eqn:Ec;
    intros [= <- _]; [|by split; [|split; [by apply guarantee_same|]]].
  set (w' := set_conn w sock (c <| client_open := false |>)).
  assert (Hco : ∀ y c', conns w' !! y = Some c' →
    ∃ c0, conns w !! y = Some c0 ∧ to_broker c' = to_broker c0 ∧ got c' = got c0 ∧ side c' = side c0).
  { cbn. intros y c'. rewrite lookup_insert_Some. intros [[<- <-]|[_ Hy]]; [by exists c|by exists c']. }
  destruct Hi as (Hb & Hp & Hv & Hoth & Hx). split; [|split; [|done]].
  - split; [by eapply base_client|]. split; [done|]. split; [done|].
    split; [intros y c' Hy Hyx|intros c' Hc']; [destruct (Hco y c' Hy) as (c0 & Hcy & -> & _ & ->)|
      destruct (Hco x c' Hc') as (c0 & Hcx & -> & _ & ->)]; eauto.
  - split; [done|]. assert (bystander w w') by (split; [done|]; apply Hco). by repeat case_match.
Qed.

Lemma rg_close_socket ρ n sock : rg ρ n (λ _, True) (close_socket sock) (λ _ _, True).
Proof. unfold close_socket. destruct (sock =? -1); [by apply rg_ret|apply rg_close]. Qed.

(** *** The subscriber *)

(** Before its request. *)
Definition unheard w : Prop := ∀ c, conns w !! x = Some c →
  told w = [] ∧ (gone (side c) = true ∨ to_broker c = []) ∧ got c = 0%nat.

(** After it: the answer has been read or it has not. *)
Definition listening w : Prop := ∀ c, conns w !! x = Some c → got c = 0%nat ∨ got c = length reply.

Lemma other_bystander w w' : guarantee (other subscriber) w w' → bystander w w'.
Proof. intros [_ Hg]. by destruct subscriber. Qed.

Lemma unheard_stab : stab subscriber unheard.
Proof.
  split.
  - intros l w w' E Hi Hu. pose proof Hi as (Hb & _ & _ & Hoth & Hx).
    destruct (broker_cases w l w' Hb E) as [(_ & Ho & _ & Hco & _)|(y & now & clk & c & m & -> & Hc & Hm & Hpend)].
    + intros c' Hc'. destruct (Hco x c' Hc') as (c & Hc & Hto & Hgot & _ & Hg). destruct (Hu c Hc) as (Ht & Hto' & Hg').
      unfold told. rewrite Ho, Hto, Hgot. split; [done|]. split; [destruct Hto'; auto|done].
    + destruct (decide (y = x)) as [->|Hyx].
      * destruct (Hu c Hc) as (_ & [Hg|?] & _); [by rewrite Hm in Hg|done].
      * destruct (Hoth y c Hc Hyx) as [Hg|?]; [by rewrite Hm in Hg|done].
  - intros w w' [Eb Hco]%other_bystander _ _ Hu c' Hc'. destruct (Hco c' Hc') as (c & Hc & -> & -> & ->).
    unfold told. rewrite Eb. by apply Hu.
Qed.

Lemma got_kept l w w' c' :
  base w → broker_step l w = Some w' → conns w' !! x = Some c' → ∃ c, conns w !! x = Some c ∧ got c' = got c.
Proof.
  intros Hb E Hc'. destruct l as [i ans|y now|y now clk|y now|y]; cbn [broker_step] in E; [done|..];
    destruct (conns w !! y) as [[sd d g o]|] eqn:Ey; try done; destruct sd as [|m|], d, o; try done;
    unfold session_turn in E; try (destruct (Session.run _ _) as [s [over| |]]; [|done..]);
    injection E as <-; cbn in Hc'; apply lookup_insert_Some in Hc' as [[<- <-]|[_ Hx]]; eauto.
Qed.

Lemma listening_stab : stab subscriber listening.
Proof.
  split.
  - intros l w w' E (Hb & _) Hl c' Hc'. destruct (got_kept l w w' c' Hb E Hc') as (c & Hc & ->). by apply Hl.
  - intros w w' [Eb Hco]%other_bystander _ _ Hl c' Hc'. destruct (Hco c' Hc') as (c & Hc & _ & -> & _). by apply Hl.
Qed.

Lemma unheard_shy : shy unheard.
Proof. intros w w' Eb Ec Hu. unfold unheard, told. by rewrite Eb, Ec. Qed.
Lemma listening_shy : shy listening.
Proof. intros w w' _ Ec Hl. unfold listening. by rewrite Ec. Qed.

Lemma guarantee_own w w' : vars w' = vars w → guarantee subscriber w w'.
Proof. intros Hv. split; [done|]. by destruct subscriber. Qed.

(** A change of the subscriber's connection at its own end. *)
Lemma Inv_conn w c c' :
  Inv w → conns w !! x = Some c → side c' = side c →
  to_broker c' = to_broker c ∨ to_broker c' = q ∧ told w = [] →
  Inv (set_conn w x c').
Proof.
  intros (Hb & Hp & Hv & Hoth & Hx) Hc Hs Hto. split; [by eapply base_client|]. split; [done|]. split; [done|]. split.
  - intros y cy. cbn. rewrite lookup_insert_Some. intros [[<- _]|[_ Hy]]; [done|eauto].
  - intros cx. cbn. rewrite lookup_insert_eq. intros [= <-]. destruct (Hx c Hc) as [Ht Hs']. split; [done|].
    rewrite Hs. destruct Hto as [->|[-> ?]]; [done|auto].
Qed.

(** The request. *)
Lemma rg_subscribe_write n : rg subscriber n unheard (write x q) (λ _, listening).
Proof.
  apply rg_call; [done|intros ?; apply listening_stab|]. intros ans w w' a Hi Hu. cbn [handle].
  destruct (conns w !! x) as [c|] eqn:Ec.
  2: { intros [= <- _]. split; [done|]. split; [by apply guarantee_own|]. intros c. by rewrite Ec. }
  destruct (Hu c Ec) as (Ht & Hto & Hg). destruct (client_open c && negb (gone (side c))) eqn:Eo; intros [= <- _].
  - apply andb_true_iff in Eo as [_ Eg%negb_true_iff]. destruct Hto as [?|Hto]; [congruence|].
    split; [apply (Inv_conn w c); try done; right; cbn; by rewrite Hto|]. split; [by apply guarantee_own|].
    intros c'. cbn. rewrite lookup_insert_eq. intros [= <-]. by left.
  - split; [done|]. split; [by apply guarantee_own|]. intros c'. rewrite Ec. intros [= <-]. by left.
Qed.

(** What [recv] returns: the answer, once, or nothing. *)
Lemma rg_recv n : rg subscriber n listening (recv x 4096) (λ a w, (a = [] ∨ a = reply) ∧ listening w).
Proof.
  apply rg_call; [done| |].
  { intros a. destruct listening_stab as [H1' H2']. split; intros; destruct_and!; (split; [done|]); eauto. }
  intros ans w w' a Hi Hl. cbn [handle]. pose proof Hi as (_ & _ & _ & _ & Hx).
  destruct (conns w !! x) as [c|] eqn:Ec; [|by intros [= <- <-]; split; [|split; [by apply guarantee_own|auto]]].
  destruct (negb (client_open c)); [by intros [= <- <-]; split; [|split; [by apply guarantee_own|auto]]|].
  assert (Hu : take 4096 (unread w x c) = [] ∨ take 4096 (unread w x c) = reply ∧ got c = 0%nat).
  { unfold unread, stream. fold (told w). destruct (Hx c eq_refl) as [[->| ->] _]; [left; cbn [concat]; by rewrite drop_nil|].
    cbn [concat]. rewrite app_nil_r. destruct (Hl c Ec) as [->| ->]; [right|left; by rewrite drop_all].
    split; [|done]. rewrite drop_0. by apply take_ge. }
  destruct Hu as [->|[-> Hg]].
  - destruct (gone (side c)); [|done]. by intros [= <- <-]; split; [|split; [by apply guarantee_own|auto]].
  - destruct reply as [|c0 r0] eqn:Er; [done|]. rewrite <-Er. intros [= <- <-].
    split; [apply (Inv_conn w c); auto|]. split; [by apply guarantee_own|]. split; [auto|].
    intros c'. cbn. rewrite lookup_insert_eq. intros [= <-]. right. cbn. rewrite Hg. by rewrite Er.
Qed.

(** A receive loop that hears the answer and goes on waiting. *)
Lemma receive_silent {V} n (parse : bytes → outcome (option (V * nat))) handle closed :
  (∀ n, rg subscriber n listening (drain_loop parse handle reply) (λ rest w, rest = [] ∧ listening w)) →
  (∀ n, rg subscriber n (λ _, True) closed (λ _ _, True)) →
  rg subscriber n listening (receive_loop parse handle x closed) (λ _ _, True).
Proof.
  intros Hd Hc. apply (rg_pre _ _ _ _ _ (λ w, ([] : bytes) = [] ∧ listening w)); [done|].
  apply (rg_iter _ _ _ _ _ (λ (buf : bytes) w, buf = [] ∧ listening w)). intros n' buf.
  destruct buf as [|c0 b0]; [|by apply rg_absurd; intros w _ []].
  eapply rg_pre; [|eapply rg_bind; [apply rg_recv|]]; [by intros w _ []|]. intros [|c1 b1].
  - eapply rg_pre; [|eapply rg_bind; [apply Hc|]]; [done|]. intros ?. by apply rg_ret.
  - destruct (decide (c1 :: b1 = reply)) as [->|Hne]; [|apply rg_absurd; by intros w _ [[?|?] _]].
    eapply rg_pre; [|eapply rg_bind; [apply Hd|]]; [by intros w _ []|]. intros rest. by apply rg_ret.
Qed.

(** The answer is one value, and the buffer is empty after it. *)
Lemma drain_one {V} n P (parse : bytes → outcome (option (V * nat))) handle value :
  parse reply = Ret (Some (value, length reply)) →
  (∀ n, rg subscriber n P (handle value) (λ _, P)) →
  rg subscriber n P (drain_loop parse handle reply) (λ rest w, rest = [] ∧ P w).
Proof.
  intros Ep Hh. apply (rg_pre _ _ _ _ _ (λ w, (reply = reply ∨ reply = []) ∧ P w)); [auto|].
  apply (rg_iter _ _ _ _ _ (λ buf w, (buf = reply ∨ buf = []) ∧ P w)). intros n' [|c0 b0]; [by apply rg_ret; intros w _ []|].
  destruct (decide (c0 :: b0 = reply)) as [Er|]; [|apply rg_absurd; by intros w _ [[]]].
  rewrite Er, Ep. apply rg_ret_bind. eapply rg_pre; [|eapply rg_bind; [apply Hh|]]; [by intros w _ []|].
  intros ?. rewrite drop_all. apply rg_ret. auto.
Qed.

Lemma rg_closed n t : rg subscriber n (λ _, True) (report t) (λ _ _, True).
Proof. apply rg_report; [apply stab_true|apply shy_true]. Qed.

(** [BinarySubscriber::subscribe]: the callback is not called. *)
Lemma rg_BinarySubscriber_subscribe n s callback ack :
  Clients.s_sock s = x →
  q = serialize (frame_subscribe (Clients.subscribe_topic (Clients.client_id_ s) T) (u64 (Clients.s_sequence s + 1))) →
  reply = serialize (frame_ack (u64 (Clients.s_sequence s + 1))) →
  (forbidden ∉ [lit "BinarySubscriber: Subscribed to '" ++ T ++ lit "'";
     lit " (client: " ++ Clients.client_id_ s ++ lit ")"; [char_of 10]]) →
  rg subscriber n unheard (BinarySubscriber_subscribe s T callback ack) (λ _ _, True).
Proof.
  intros Hx Hq Hr Hf. unfold BinarySubscriber_subscribe, subscribe_loop. rewrite Hx.
  repeat setoid_rewrite not_elem_of_cons in Hf. destruct Hf as (Hf1 & Hf2 & Hf3 & _). destruct (x =? -1).
  { eapply rg_bind; [|by intros ?; apply rg_ret]. eapply rg_pre; [|apply rg_closed]. done. }
  set (s' := s <| Clients.auto_ack_ := ack |> <| Clients.s_sequence ::= λ n, u64 (n + 1) |>).
  change (serialize _) with (serialize (frame_subscribe (Clients.subscribe_topic (Clients.client_id_ s) T)
    (u64 (Clients.s_sequence s + 1)))). rewrite <-Hq.
  assert (Hx' : Clients.s_sock s' = x) by exact Hx. rewrite !Hx'. eapply rg_bind; [apply rg_subscribe_write|]. intros ?.
  eapply rg_bind; [apply receive_silent|by intros ?; apply rg_ret]; [|intros ?; apply rg_closed].
  intros n'. eapply (drain_one _ _ _ _ (frame_ack (u64 (Clients.s_sequence s + 1)))).
  - rewrite Hr. apply Session.parse_serialize_frame, frame_wf_spec. pose proof (u64_range (Clients.s_sequence s + 1)). by split.
  - intros n2. unfold on_frame. cbn [Clients.is_message frame_ack command]. rewrite bool_decide_true by done.
    eapply rg_bind; [apply rg_print; [apply listening_stab|apply listening_shy|done]|].
    intros ?. eapply (rg_bind _ _ _ _ _ _ _ _ (λ _, listening));
      [|intros ?; apply rg_print; [apply listening_stab|apply listening_shy|done]].
    case_bool_decide; [by apply rg_ret|apply rg_print; [apply listening_stab|apply listening_shy|done]].
Qed.

(** [Subscriber::subscribe] *)
Lemma rg_Subscriber_subscribe n callback :
  q = Resp.serialize (Resp.makeArray [lit "SUBSCRIBE"; T]) →
  reply = Resp.serialize (Session.confirmation (lit "subscribe") T 1) →
  Resp.resp_wf (Session.confirmation (lit "subscribe") T 1) = true →
  rg subscriber n unheard (Subscriber_subscribe x T callback) (λ _ _, True).
Proof.
  intros Hq Hr Hwf. unfold Subscriber_subscribe. destruct (x =? -1).
  { eapply rg_pre; [|apply rg_closed]. done. }
  rewrite <-Hq. eapply rg_bind; [apply rg_subscribe_write|]. intros ?.
  apply receive_silent; [|intros ?; apply rg_closed].
  intros n'. eapply (drain_one _ _ _ _ (Session.confirmation (lit "subscribe") T 1)).
  - rewrite Hr. pose proof (Resp.parse_serialize_value _ [] Hwf) as E. by rewrite app_nil_r in E.
  - intros n2. by apply rg_ret.
Qed.

(** *** The other thread *)

(** A loop that waits for the counter. *)
Lemma rg_wait ρ n (go_on : Z → bool) ms :
  go_on 0 = true →
  rg ρ n (λ _, True) (while (c ← call (Load v); mret (go_on c)) (sleep ms)) (λ _ _, False).
Proof.
  intros H0'. apply (rg_iter _ _ _ _ _ (λ _ _, True)). intros n' [].
  apply (rg_bind _ _ _ _ _ _ _ _ (λ (more : bool) _, more = true)).
  - eapply rg_bind; [apply rg_load|]. intros c. apply rg_ret. by intros w _ ->.
  - intros []; [|by apply rg_absurd]. eapply rg_pre; [|eapply rg_bind; [apply rg_sleep, stab_true|]]; [done|].
    intros ?. by apply rg_ret.
Qed.

(** ** From the first part to the second *)

Definition ready w : Prop := new_conn x w ∧ value w v = 0.

Lemma ready_starts w : ready w → Inv w ∧ unheard w.
Proof.
  intros [[(Hb & Hp & Hto & _) Hn] Hv]. split.
  - split; [done|]. split; [done|]. split; [done|]. split; [by intros y c Hy _; apply (Hto y)|].
    intros c Hc. destruct (Hn c Hc) as (_ & _ & Hs). split; [by left|]. destruct (Hto x c Hc); auto.
  - intros c Hc. destruct (Hn c Hc) as (_ & Hg & Hs). split; [done|]. split; [by apply (Hto x)|done].
Qed.
End second.

Lemma ready_stable x v : stable (ready x v).
Proof.
  destruct (new_conn_stable x) as [Hs Hp]. split; [|by intros w [? _]; apply Hp].
  intros l w w' E [Hn Hv]. split; [by eapply Hs|].
  destruct (resting_quiet l w w' E (proj1 Hn)) as (_ & _ & _ & _ & _ & _ & Ev & _). unfold value. by rewrite Ev.
Qed.

(** The counter is set to zero before the thread starts. *)
Lemma triple_ready x v : triple (new_conn x) (call (Store v 0)) (λ _, ready x v).
Proof.
  apply triple_call; [done|intros ?; apply ready_stable|]. intros ans w w' a Hn [= <- _].
  split; [apply (new_conn_blind x w); try done; apply (proj2 (new_conn_stable x) w Hn)|]. unfold value. cbn. by rewrite lookup_insert_eq.
Qed.

(** Facts about the variables. *)
Definition resting_with (F : gmap var Z → Prop) w : Prop := resting w ∧ F (vars w).

Lemma resting_with_stable F : stable (resting_with F).
Proof.
  destruct resting_stable as [Hs Hp]. split; [|by intros w [? _]; apply Hp].
  intros l w w' E [Hr HF]. split; [by eapply Hs|]. by rewrite (proj2 (broker_step_client l w w' E)).
Qed.

Lemma triple_store_with (F F' : gmap var Z → Prop) v z :
  (∀ m, F m → F' (<[v := z]> m)) → triple (resting_with F) (call (Store v z)) (λ _, resting_with F').
Proof.
  intros HF. apply triple_call; [done|intros ?; apply resting_with_stable|]. intros ans w w' a [Hr Hw] [= <- _].
  split; [|by apply HF]. apply (resting_blind w); try done. apply (proj2 resting_stable w Hr).
Qed.

(** The constructors. *)
Lemma triple_new_BinaryPublisher h p :
  ln "BinaryPublisher: CONNECTED (binary protocol)" ≠ forbidden →
  triple resting (new_BinaryPublisher h p) (λ pub, published_by (Clients.sock_ pub) pub).
Proof.
  intros Hf. eapply triple_bind.
  - apply triple_open. intros x. apply triple_print; [apply new_conn_stable|apply new_conn_blind|done].
  - intros sock. apply triple_ret. intros w Hn. split; [done|]. by apply new_calm.
Qed.

Lemma triple_new_BinarySubscriber_id c h p :
  lit "BinarySubscriber: CONNECTED (binary protocol, client: " ++ c ++ ln ")" ≠ forbidden →
  triple resting (new_BinarySubscriber_id c h p) (λ sub, new_conn (Clients.s_sock sub)).
Proof.
  intros Hf. eapply triple_bind.
  - apply triple_open. intros x. apply triple_print; [apply new_conn_stable|apply new_conn_blind|done].
  - intros sock. by apply triple_ret.
Qed.

(** ** Programs that subscribe too late *)

Section programs.
Context {A} (first : program A) (sock : A → Z) (rest : A → nat → program unit).
Context (v : var) (ends : status → Prop) (txt : text).
Context (first_ready : triple resting first (λ r, ready (sock r) v)).

(** A thread subscribes over the binary protocol under the name [c], and
    [main] goes on beside it. *)
Section thread.
Context (c : bytes) (body : nat) (callback : bytes → bytes → program unit).
Context (speaks : foreign = Session.RESP).
Context (topic_short : zlen (Clients.subscribe_topic c T) ≤ MAX_TOPIC_LEN) (c_plain : Storage.NUL ∉ c).
Context (body_subscribes : ∀ x, txt body [x] =
  (_ ← BinarySubscriber_subscribe (Clients.mkSubscriber x 0 c true) T callback true; mret tt)).
Context (unforbidden : forbidden ∉
  [lit "BinarySubscriber: Subscribed to '" ++ T ++ lit "'"; lit " (client: " ++ c ++ lit ")"; [char_of 10]]).

Definition request : bytes := serialize (frame_subscribe (Clients.subscribe_topic c T) 1).
Definition answer : bytes := serialize (frame_ack 1).

Abbreviation thread_inv r := (Inv (sock r) request answer v).

Lemma request_short : (length request ≤ RECV_SIZE)%nat.
Proof.
  apply Nat2Z.inj_le. unfold request. rewrite length_serialize.
  - unfold MAX_TOPIC_LEN in topic_short. change (16 + zlen (Clients.subscribe_topic c T) + 0 + 0 ≤ 4096). lia.
  - by split.
Qed.

Lemma answer_short : (length answer ≤ 4096)%nat.
Proof. apply Nat.leb_le. by vm_compute. Qed.

Lemma request_subscribes : subscribes request answer.
Proof. by apply binary_subscribes. Qed.

Lemma thread_is_silent w p :
  (∀ r n, rg ends (guarantee (sock r) Child) (thread_inv r) Main n (λ _, True) (rest r 1%nat)
     (λ _ _, ends (Exited 0))) →
  resting w → reaches txt w (duo first (λ r, Some (body, [sock r])) rest) p →
  (forbidden ∉ console (here p)) ∧ (ended p = Running ∨ ended p = Killed ∨ ends (ended p)).
Proof.
  intros Hmain Hw Hp. revert Hp. apply (duo_adequate (env := env) printable ends txt first _ rest
    (λ r, guarantee (sock r) Child) (λ r, thread_inv r) (λ r, ready (sock r) v)) with (P := resting).
  - intros r. apply Inv_stable; [apply serialize_nonempty|apply request_short|apply request_subscribes].
  - intros r w'. apply Inv_printable.
  - intros r w' Hr. destruct (ready_starts (sock r) request answer v w' Hr) as [Hi Hu]. split; [done|]. split.
    + intros n. exists (unheard (sock r)). split; [apply unheard_stab|]. split; [done|]. rewrite body_subscribes.
      eapply rg_bind; [|intros ?; by apply rg_ret]. apply rg_BinarySubscriber_subscribe; try done.
      * apply request_subscribes.
      * apply answer_short.
    + intros n. exists (λ _, True). split; [apply stab_true|]. split; [done|].
      eapply rg_post; [|apply Hmain]. done.
  - apply resting_stable.
  - done.
  - exact first_ready.
Qed.
End thread.

(** [main] itself subscribes over RESP, and goes on when the broker has closed
    the connection. *)
Section alone.
Context (callback : bytes → bytes → program unit) (after : A → program unit).
Context (speaks : foreign = Session.BINARY).
Abbreviation command := (Resp.makeArray [lit "SUBSCRIBE"; T]).
Abbreviation confirmed := (Session.confirmation (lit "subscribe") T 1).
Abbreviation alone_inv r := (Inv (sock r) (Resp.serialize command) (Resp.serialize confirmed) v).

Context (command_wf : Resp.resp_wf command = true) (command_short : zlen (Resp.serialize command) ≤ 4096).
Context (confirmed_wf : Resp.resp_wf confirmed = true) (confirmed_short : zlen (Resp.serialize confirmed) ≤ 4096).

Lemma command_subscribes : subscribes (Resp.serialize command) (Resp.serialize confirmed).
Proof. apply resp_subscribes; try done. unfold Session.MAX_RECV_BUFFER. lia. Qed.

Lemma alone_is_silent w p :
  (∀ r n, rg ends (guarantee (sock r) Main) (alone_inv r) Main n (λ _, True) (after r)
     (λ _ _, ends (Exited 0))) →
  resting w →
  reaches txt w (duo first (λ _, None) (λ r _, _ ← Subscriber_subscribe (sock r) T callback; after r)) p →
  (forbidden ∉ console (here p)) ∧ (ended p = Running ∨ ended p = Killed ∨ ends (ended p)).
Proof.
  intros Hmain Hw Hp. revert Hp.
  apply (duo_adequate (env := env) printable ends txt first _ _
    (λ r, guarantee (sock r) Main) (λ r, alone_inv r) (λ r, ready (sock r) v)) with (P := resting).
  - intros r. apply Inv_stable; [done|by apply Nat2Z.inj_le|apply command_subscribes].
  - intros r w'. apply Inv_printable.
  - intros r w' Hr. destruct (ready_starts (sock r) (Resp.serialize command) (Resp.serialize confirmed) v w' Hr) as [Hi Hu].
    split; [done|]. intros n. exists (unheard (sock r)). split; [apply unheard_stab|]. split; [done|].
    eapply rg_bind; [apply rg_Subscriber_subscribe; try done; [apply command_subscribes|by apply Nat2Z.inj_le]|].
    intros ?. eapply rg_post; [|apply Hmain]. done.
  - apply resting_stable.
  - done.
  - exact first_ready.
Qed.
End alone.
End programs.
End late.

(** Both protocols can be the [foreign] one. *)
Lemma RESP_known : Session.RESP ≠ Session.UNKNOWN.
Proof. done. Qed.
Lemma BINARY_known : Session.BINARY ≠ Session.UNKNOWN.
Proof. done. Qed.

(** A database with one topic. *)
Lemma eq_prefix (t : bytes) : ∀ t' r, t = t' → t = t' ++ r → r = [].
Proof. intros t' r <- E. apply (f_equal length) in E. rewrite length_app in E. destruct r; [done|cbn in E; lia]. Qed.

(** A machine that has just been started is such a world. *)
Lemma fresh_resting (stored : bytes → Prop) foreign forbidden : resting stored foreign forbidden fresh_world.
Proof.
  split; [|split; [by apply not_elem_of_nil|by split; intros x c; cbn; rewrite lookup_empty]]. split.
  - apply Broker.empty_broker_inv.
  - exists ∅. split; [done|]. by intros n v [=]%(eq_trans (eq_sym (lookup_empty (M := gmap bytes) (A := bytes) (Storage.msg_key n)))).

  - done.
  - done.
  - intros x _. split; [by apply lookup_empty|]. split; [by apply not_elem_of_nil|by vm_compute].
  - intros x c. cbn. by rewrite lookup_empty.
Qed.
End Late.
