(* ===== verification/ExactlyOnce.v ===== *)
(** * ExactlyOnce: [examples/exactly_once_test.cpp]

    The five tests as programs of [Calls]; a lambda given to [std::thread] is
    an entry of [lambdas], and what it captures by reference is a shared
    variable or the socket of the captured object. Nothing in [main] throws, so
    its handler is left out. Tests 2 and 4 publish before they subscribe: no
    schedule lets the former end or the latter pass. Tests 1, 3 and 5 subscribe
    first, and pass in an evaluated run. *)

From ITree Require Import Core.ITreeDefinition.
From S2P Require Import Prelude Text BinaryProtocol RespParser Lmdb Storage Signing Keystore Metrics Broker Session Programs Clients Calls Network NetLogic Late.

Module ExactlyOnce.
Import Network.

(** ** The program *)

Definition load (v : var) : program Z := call (Load v).
Definition store (v : var) (z : Z) : program unit := call (Store v z).
Definition increment (v : var) : program Z := call (Increment v).

Definition host : bytes := lit "127.0.0.1".
Definition port : Z := 6379.

Definition passed (text : string) : program unit := print (lit "✅ PASSED: " ++ ln text).

(** [if (v == expected) PASSED else FAILED: Expected ..., got v] *)
Definition verdict (v : var) (expected : Z) (good : string) (after : string) : program unit :=
  c ← load v;
  if c =? expected then passed good
  else
    c ← load v;
    print (lit "❌ FAILED: Expected " ++ to_string expected ++ lit ", got " ++ to_string c ++ ln after).

(** The objects that the lambdas capture by reference: a subscriber's socket. *)
Definition captured_subscriber (client_id : string) (sock : Z) : Clients.BinarySubscriber :=
  Clients.mkSubscriber sock 0 (lit client_id) true.

Definition publish_numbered (topic prefix : string) (pause : program unit)
    (pub : Clients.BinaryPublisher) (i : Z) : program Clients.BinaryPublisher :=
  pub ← BinaryPublisher_send pub (lit topic) (lit prefix ++ to_string i);
  _ ← pause;
  mret pub.

(** *** Test 1 *)

Definition received_count : var := lit "received_count".

Definition thread1 (sock : Z) : program unit :=
  _ ← BinarySubscriber_subscribe (captured_subscriber "test-client-1" sock) (lit "test/ack") (λ topic payload,
        _ ← increment received_count;
        print (lit "Received: " ++ payload ++ [char_of 10])) true;
  mret tt.

Definition test1_basic_ack_flow : program unit :=
  _ ← print ([char_of 10] ++ ln "=== Test 1: Basic ACK Flow ===");
  sub ← new_BinarySubscriber_id (lit "test-client-1") host port;
  _ ← store received_count 0;
  _ ← call (Spawn 1 [Clients.s_sock sub]);
  _ ← sleep 500;
  pub ← new_BinaryPublisher host port;
  pub ← loop_with (count_from 0 10) (publish_numbered "test/ack" "Message " (sleep 100)) pub;
  _ ← sleep 1000;
  c ← load received_count;
  _ ← print (lit "Test 1 Result: Received " ++ to_string c ++ ln " messages (expected 10)");
  _ ← verdict received_count 10 "All messages received" "";
  _ ← close_socket (Clients.sock_ pub);
  close_socket (Clients.s_sock sub).

(** *** Test 2 *)

Definition count : var := lit "count".
Definition count2 : var := lit "count2".

Definition callback2 (topic payload : bytes) : program unit :=
  _ ← increment count;
  _ ← print (lit "  [1st connection] " ++ payload ++ [char_of 10]);
  c ← load count;
  if c =? 25 then
    _ ← print (ln "Disconnecting after 25 messages...");
    sleep 100
  else mret tt.

Definition thread2 (sock : Z) : program unit :=
  _ ← BinarySubscriber_subscribe (captured_subscriber "test-client-2" sock) (lit "test/reconnect") callback2 true;
  mret tt.

Definition thread2' (sock : Z) : program unit :=
  _ ← BinarySubscriber_subscribe (captured_subscriber "test-client-2" sock) (lit "test/reconnect") (λ topic payload,
        _ ← increment count2;
        print (lit "  [2nd connection] " ++ payload ++ [char_of 10])) true;
  mret tt.

Definition second_line : bytes := [char_of 10] ++ ln "Second connection (should receive remaining 25)...".

(** Up to the start of the first thread. *)
Definition test2_publish : program (Clients.BinaryPublisher * Clients.BinarySubscriber) :=
  _ ← print ([char_of 10] ++ ln "=== Test 2: No Duplicates on Reconnect ===");
  pub ← new_BinaryPublisher host port;
  _ ← print (ln "Publishing 50 messages...");
  pub ← loop_with (count_from 0 50) (publish_numbered "test/reconnect" "Msg-" (mret tt)) pub;
  _ ← sleep 500;
  _ ← print ([char_of 10] ++ ln "First connection (receive 25)...");
  sub ← new_BinarySubscriber_id (lit "test-client-2") host port;
  _ ← store count 0;
  mret (pub, sub).

Definition test2_reconnect (pub : Clients.BinaryPublisher) (sub : Clients.BinarySubscriber) (sub_thread : nat) : program unit :=
  _ ← while (c ← load count; mret (c <? 25)) (sleep 100);
  _ ← call (Join sub_thread);
  _ ← close_socket (Clients.s_sock sub);
  _ ← sleep 1000;
  _ ← print second_line;
  sub2 ← new_BinarySubscriber_id (lit "test-client-2") host port;
  _ ← store count2 0;
  _ ← call (Spawn 3 [Clients.s_sock sub2]);
  _ ← sleep 3000;
  c ← load count2;
  _ ← print (lit "Test 2 Result: Second connection received " ++ to_string c ++ ln " messages (expected 25)");
  _ ← verdict count2 25 "No duplicates, received exactly remaining 25" " (duplicates!)";
  _ ← close_socket (Clients.s_sock sub2);
  close_socket (Clients.sock_ pub).

Definition test2_no_duplicates_on_reconnect : program unit :=
  r ← test2_publish;
  sub_thread ← call (Spawn 2 [Clients.s_sock r.2]);
  test2_reconnect r.1 r.2 sub_thread.

(** *** Test 3 *)

Definition count_A : var := lit "count_A".
Definition count_B : var := lit "count_B".

Definition thread3 (client_id label : string) (v : var) (sock : Z) : program unit :=
  _ ← BinarySubscriber_subscribe (captured_subscriber client_id sock) (lit "test/multi") (λ topic payload,
        _ ← increment v;
        print (lit label ++ payload ++ [char_of 10])) true;
  mret tt.

Definition test3_multiple_clients : program unit :=
  _ ← print ([char_of 10] ++ ln "=== Test 3: Multiple Clients with Independent ACK Tracking ===");
  sub1 ← new_BinarySubscriber_id (lit "client-A") host port;
  sub2 ← new_BinarySubscriber_id (lit "client-B") host port;
  _ ← store count_A 0;
  _ ← store count_B 0;
  _ ← call (Spawn 4 [Clients.s_sock sub1]);
  _ ← call (Spawn 5 [Clients.s_sock sub2]);
  _ ← sleep 500;
  pub ← new_BinaryPublisher host port;
  pub ← loop_with (count_from 0 20) (publish_numbered "test/multi" "Multi-" (sleep 50)) pub;
  _ ← sleep 2000;
  _ ← print (ln "Test 3 Result:");
  a ← load count_A;
  _ ← print (lit "  Client A received: " ++ to_string a ++ ln " (expected 20)");
  b ← load count_B;
  _ ← print (lit "  Client B received: " ++ to_string b ++ ln " (expected 20)");
  a ← load count_A;
  good ← (if a =? 20 then b ← load count_B; mret (b =? 20) else mret false);
  _ ← (if good : bool then passed "Both clients received all messages" else print (ln "❌ FAILED"));
  _ ← close_socket (Clients.sock_ pub);
  _ ← close_socket (Clients.s_sock sub2);
  close_socket (Clients.s_sock sub1).

(** *** Test 4 *)

Definition count4 : var := lit "test4.count".

Definition callback4 (topic payload : bytes) : program unit := _ ← increment count4; mret tt.

Definition thread4 (sock : Z) : program unit :=
  _ ← BinarySubscriber_subscribe (captured_subscriber "test-client-seq" sock) (lit "test/sequential") callback4 true;
  mret tt.

(** Up to the start of the thread. *)
Definition test4_publish : program (Clients.BinaryPublisher * Clients.BinarySubscriber) :=
  _ ← print ([char_of 10] ++ ln "=== Test 4: Sequential ACK Tracking ===");
  pub ← new_BinaryPublisher host port;
  _ ← print (ln "Publishing 100 messages...");
  pub ← loop_with (count_from 0 100) (publish_numbered "test/sequential" "Seq-" (mret tt)) pub;
  _ ← sleep 500;
  sub ← new_BinarySubscriber_id (lit "test-client-seq") host port;
  _ ← store count4 0;
  mret (pub, sub).

Definition test4_wait (pub : Clients.BinaryPublisher) (sub : Clients.BinarySubscriber) : program unit :=
  _ ← sleep 3000;
  c ← load count4;
  _ ← print (lit "Test 4 Result: Received " ++ to_string c ++ ln " messages (expected 100)");
  _ ← verdict count4 100 "All messages delivered and ACK'd" "";
  _ ← close_socket (Clients.s_sock sub);
  close_socket (Clients.sock_ pub).

Definition test4_sequential_ack_tracking : program unit :=
  r ← test4_publish;
  _ ← call (Spawn 6 [Clients.s_sock r.2]);
  test4_wait r.1 r.2.

(** *** Test 5 *)

Definition count5 : var := lit "test5.count".

Definition thread5 (sock : Z) : program unit :=
  _ ← BinarySubscriber_subscribe (captured_subscriber "test-client-wildcard" sock) (lit "#") (λ topic payload,
        _ ← increment count5;
        print (lit "  Wildcard: " ++ topic ++ lit " -> " ++ payload ++ [char_of 10])) true;
  mret tt.

Definition test5_wildcard_with_ack : program unit :=
  _ ← print ([char_of 10] ++ ln "=== Test 5: Wildcard Subscription with ACK ===");
  sub ← new_BinarySubscriber_id (lit "test-client-wildcard") host port;
  _ ← store count5 0;
  _ ← call (Spawn 7 [Clients.s_sock sub]);
  _ ← sleep 500;
  pub ← new_BinaryPublisher host port;
  pub ← BinaryPublisher_send pub (lit "sensors/temp") (lit "25.5");
  pub ← BinaryPublisher_send pub (lit "sensors/humidity") (lit "60%");
  pub ← BinaryPublisher_send pub (lit "alerts/critical") (lit "High temp!");
  pub ← BinaryPublisher_send pub (lit "status/ok") (lit "All good");
  _ ← sleep 2000;
  c ← load count5;
  _ ← print (lit "Test 5 Result: Received " ++ to_string c ++ ln " messages (expected 4)");
  _ ← verdict count5 4 "Wildcard subscription works with ACK" "";
  _ ← close_socket (Clients.sock_ pub);
  close_socket (Clients.s_sock sub).

(** *** All of them *)

(** The lambdas by number. *)
Definition lambdas : Network.text := λ body captured,
  match body, captured with
  | 1%nat, [sock] => thread1 sock
  | 2%nat, [sock] => thread2 sock
  | 3%nat, [sock] => thread2' sock
  | 4%nat, [sock] => thread3 "client-A" "  Client A: " count_A sock
  | 5%nat, [sock] => thread3 "client-B" "  Client B: " count_B sock
  | 6%nat, [sock] => thread4 sock
  | 7%nat, [sock] => thread5 sock
  | _, _ => mret tt
  end.

Definition main : program unit :=
  _ ← each [lit "╔════════════════════════════════════════════╗"; lit "║   MetricMQ Exactly-Once Delivery Tests   ║";
            lit "╚════════════════════════════════════════════╝"] (λ line, print (line ++ [char_of 10]));
  _ ← print ([char_of 10] ++ ln "⚠️  Make sure broker is running: ./metricmq-broker.exe");
  _ ← print (lit "Press Enter to start tests...");
  _ ← getchar;
  _ ← test1_basic_ack_flow;
  _ ← sleep 2000;
  _ ← test2_no_duplicates_on_reconnect;
  _ ← sleep 2000;
  _ ← test3_multiple_clients;
  _ ← sleep 2000;
  _ ← test4_sequential_ack_tracking;
  _ ← sleep 2000;
  _ ← test5_wildcard_with_ack;
  _ ← each [[char_of 10] ++ lit "╔════════════════════════════════════════════╗";
            lit "║          All Tests Completed!             ║";
            lit "╚════════════════════════════════════════════╝"] (λ line, print (line ++ [char_of 10]));
  _ ← print ([char_of 10] ++ lit "Press Enter to exit...");
  _ ← getchar;
  mret tt.

(** ** Subscribing too late *)

Section late.
Context `{LmdbLaws env txn} `{HashOrder} `{Sodium}.
Implicit Types w : world env.

(** What is in the database: no topic there is a proper prefix of [T]. *)
Context (stored : bytes → Prop) (T : string).
Context (T_stored : stored (lit T)) (T_prefix : ∀ t r, stored t → lit T = t ++ r → r = []).
Context (T_short : zlen (lit T) ≤ MAX_TOPIC_LEN) (T_plain : Storage.NUL ∉ lit T).
Context (T_insecure : starts_with (lit T) (lit "secure/") = false).
Context (forbidden : bytes).

Abbreviation triple := (NetLogic.triple (env := env) (Late.printable forbidden)).
Abbreviation resting := (Late.resting (env := env) stored Session.RESP forbidden).
Abbreviation published_by := (Late.published_by (env := env) stored Session.RESP forbidden).

(** The loops of the tests. *)
Lemma triple_publish_all sock pub (prefix : string) l :
  forallb (λ i, zlen (lit prefix ++ to_string i) <=? 1000) l = true →
  triple (published_by sock pub) (loop_with l (publish_numbered T prefix (mret tt)) pub) (published_by sock).
Proof.
  intros Hl. apply Late.triple_loop. intros p i Hi.
  eapply NetLogic.triple_bind; [apply (Late.triple_BinaryPublisher_send (lit T) stored); try done|].
  - rewrite forallb_forall in Hl. specialize (Hl i (proj1 (list_elem_of_In _ _) Hi)). apply Z.leb_le in Hl.
    unfold MAX_TOPIC_LEN in T_short. lia.
  - intros p'. apply (NetLogic.triple_bind _ _ _ _ (λ _, published_by sock p')); [by apply NetLogic.triple_ret|].
    intros ?. by apply NetLogic.triple_ret.
Qed.


(** The steps of the parts before the threads. *)
Lemma at_rest sock pub w : published_by sock pub w → resting w.
Proof. by intros (_ & ? & _). Qed.
End late.

Ltac prints := apply Late.triple_print;
  [first [eapply Late.resting_stable|eapply Late.published_by_stable]; eauto
  |first [apply Late.resting_blind|apply Late.published_by_blind]|done].

(** *** Test 2 *)

Section test2.
Context `{LmdbLaws env txn} `{HashOrder} `{Sodium}.
Context (stored : bytes → Prop) (T_stored : stored (lit "test/reconnect")).
Context (T_prefix : ∀ t r, stored t → lit "test/reconnect" = t ++ r → r = []).

Abbreviation T := (lit "test/reconnect").

Lemma test2_plain : Storage.NUL ∉ T.
Proof. by apply (bool_decide_unpack _). Qed.

Lemma test2_ready :
  NetLogic.triple (env := env) (Late.printable second_line) (Late.resting stored Session.RESP second_line) test2_publish
    (λ r, Late.ready stored Session.RESP second_line (Clients.s_sock r.2) count).
Proof.
  pose proof test2_plain. pose proof Late.RESP_known.
  eapply NetLogic.triple_bind; [prints|]. intros ?.
  eapply NetLogic.triple_bind; [by eapply Late.triple_new_BinaryPublisher|]. intros pub.
  eapply NetLogic.triple_bind; [prints|]. intros ?.
  eapply NetLogic.triple_bind; [by apply triple_publish_all|]. intros pub'.
  eapply NetLogic.triple_bind; [eapply Late.triple_sleep, Late.published_by_stable; eauto|]. intros ?.
  eapply NetLogic.triple_bind; [prints|]. intros ?.
  eapply NetLogic.triple_bind; [eapply NetLogic.triple_pre; [apply at_rest|by eapply Late.triple_new_BinarySubscriber_id]|].
  intros sub. eapply NetLogic.triple_bind; [eapply Late.triple_ready; eauto|]. intros ?. by apply NetLogic.triple_ret.
Qed.

(** C22: [test2_no_duplicates_on_reconnect] publishes its fifty messages
    first, and no schedule of the broker and the two threads lets it get past
    the loop that waits for 25 of them: it never announces the second
    connection, and the process never ends of itself; it can only be killed
    by SIGPIPE, when the broker has closed a connection it writes to. It may
    start from any state in which the connections there are wait between
    requests, speak no RESP and subscribe to nothing, and the messages in the
    database were relayed by sessions on topics none of which is a proper
    prefix of the test's; LMDB may fail at any call. *)
Theorem test2_waits_forever (w : world env) p :
  Late.resting stored Session.RESP second_line w →
  reaches lambdas w test2_no_duplicates_on_reconnect p →
  (second_line ∉ console (here p)) ∧ (ended p = Running ∨ ended p = Killed).
Proof.
  intros Hw Hp. pose proof test2_plain. pose proof Late.RESP_known.
  destruct (Late.thread_is_silent T stored T_stored test2_plain T_prefix Session.RESP Late.RESP_known second_line
    test2_publish (λ r, Clients.s_sock r.2) (λ r j, test2_reconnect r.1 r.2 j) count (λ _, False) lambdas test2_ready
    (lit "test-client-2") 2 callback2) with w p as [? [?|[?|[]]]]; try solve [done | auto].
  - by apply (bool_decide_unpack _).
  - by apply (bool_decide_unpack _).
  - intros r n. eapply NetLogic.rg_bind; [by apply (Late.rg_wait _ _ _ _ _ _ count _ _ NetLogic.Main n (λ c, c <? 25))|].
    intros ?. apply NetLogic.rg_absurd. by intros w' _ [].
Qed.
End test2.

(** *** Test 4 *)

Section test4.
Context `{LmdbLaws env txn} `{HashOrder} `{Sodium}.
Context (stored : bytes → Prop) (T_stored : stored (lit "test/sequential")).
Context (T_prefix : ∀ t r, stored t → lit "test/sequential" = t ++ r → r = []).

Abbreviation T4 := (lit "test/sequential").
Definition passed_line : bytes := lit "✅ PASSED: " ++ ln "All messages delivered and ACK'd".

Lemma test4_plain : Storage.NUL ∉ T4.
Proof. by apply (bool_decide_unpack _). Qed.

Lemma test4_ready :
  NetLogic.triple (env := env) (Late.printable passed_line) (Late.resting stored Session.RESP passed_line) test4_publish
    (λ r, Late.ready stored Session.RESP passed_line (Clients.s_sock r.2) count4).
Proof.
  pose proof test4_plain. pose proof Late.RESP_known.
  eapply NetLogic.triple_bind; [prints|]. intros ?.
  eapply NetLogic.triple_bind; [by eapply Late.triple_new_BinaryPublisher|]. intros pub.
  eapply NetLogic.triple_bind; [prints|]. intros ?.
  eapply NetLogic.triple_bind; [by apply triple_publish_all|]. intros pub'.
  eapply NetLogic.triple_bind; [eapply Late.triple_sleep, Late.published_by_stable; eauto|]. intros ?.
  eapply NetLogic.triple_bind; [eapply NetLogic.triple_pre; [apply at_rest|by eapply Late.triple_new_BinarySubscriber_id]|].
  intros sub. eapply NetLogic.triple_bind; [eapply Late.triple_ready; eauto|]. intros ?. by apply NetLogic.triple_ret.
Qed.

(** What [main] does meanwhile: the counter it reads is zero. *)
Lemma test4_main (r : Clients.BinaryPublisher * Clients.BinarySubscriber) x q reply n :
  NetLogic.rg (env := env) (λ st, st = Exited 0) (Late.guarantee x NetLogic.Child)
    (Late.Inv stored Session.RESP passed_line x q reply count4) NetLogic.Main n (λ _, True) (test4_wait r.1 r.2)
    (λ _ _, Exited 0 = Exited 0).
Proof.
  eapply NetLogic.rg_bind; [apply Late.rg_sleep, Late.stab_true|]. intros ?. apply Late.rg_load_bind.
  apply Late.rg_print_bind; [done|]. intros ?. eapply NetLogic.rg_bind.
  - apply Late.rg_load_bind. cbn [Z.eqb]. apply Late.rg_load_bind.
    apply Late.rg_print; [apply Late.stab_true|apply Late.shy_true|done].
  - intros ?. eapply NetLogic.rg_bind; [apply Late.rg_close_socket|]. intros ?.
    eapply NetLogic.rg_post; [|apply Late.rg_close_socket]. done.
Qed.

(** [test4_sequential_ack_tracking] publishes a hundred messages before it
    subscribes, and no schedule makes it print that they were delivered; if it
    ends of itself, it ends with status 0 all the same. *)
Theorem test4_never_passes (w : world env) p :
  Late.resting stored Session.RESP passed_line w →
  reaches lambdas w test4_sequential_ack_tracking p →
  (passed_line ∉ console (here p)) ∧ (ended p = Running ∨ ended p = Killed ∨ ended p = Exited 0).
Proof.
  intros Hw Hp. pose proof test4_plain. pose proof Late.RESP_known.
  apply (Late.thread_is_silent T4 stored T_stored test4_plain T_prefix Session.RESP Late.RESP_known passed_line
    test4_publish (λ r, Clients.s_sock r.2) (λ r j, test4_wait r.1 r.2) count4 (λ st, st = Exited 0) lambdas test4_ready
    (lit "test-client-seq") 6 callback4) with w; try done.
  - by apply (bool_decide_unpack _).
  - by apply (bool_decide_unpack _).
  - intros r n. apply test4_main.
Qed.
End test4.

(** ** Runs *)

#[local] Existing Instance Broker.ElementsOrder.
#[local] Existing Instance ToySodium.

Lemma test2_waits_forever_witness :
  let p := run lambdas 700 test2_no_duplicates_on_reconnect in
  last (console (here p)) = Some [char_of 10] ∧ (second_line ∉ console (here p)) ∧ (ended p = Running ∨ ended p = Killed).
Proof.
  split; [vm_compute; reflexivity|].
  apply (test2_waits_forever (eq (lit "test/reconnect")) eq_refl (Late.eq_prefix _) fresh_world).
  - apply Late.fresh_resting.
  - apply run_reached.
Defined.

Lemma test4_never_passes_witness :
  let p := run lambdas 1500 test4_sequential_ack_tracking in
  (lit "❌ FAILED: Expected 100, got 0" ++ [char_of 10]) ∈ console (here p) ∧
  (passed_line ∉ console (here p)) ∧ (ended p = Running ∨ ended p = Killed ∨ ended p = Exited 0).
Proof.
  split; [apply (bool_decide_unpack _); vm_compute; exact I|].
  apply (test4_never_passes (eq (lit "test/sequential")) eq_refl (Late.eq_prefix _) fresh_world).
  - apply Late.fresh_resting.
  - apply run_reached.
Defined.

(** the tests that subscribe first pass on a broker that has just been
    started, when whatever can go on goes on while [main] sleeps: every message
    is received and acknowledged, by both clients of test 3, and through the
    wildcard of test 5. *)
Theorem live_subscribers_pass :
  let passes test line := let p := run lambdas 2000 test in
    ended p = Exited 0 ∧ (lit "✅ PASSED: " ++ ln line) ∈ console (here p) in
  passes test1_basic_ack_flow "All messages received"%string ∧
  passes test3_multiple_clients "Both clients received all messages"%string ∧
  passes test5_wildcard_with_ack "Wildcard subscription works with ACK"%string.
Proof.
  cbn zeta. repeat split; first [vm_compute; reflexivity|apply (bool_decide_unpack _); vm_compute; exact I].
Qed.

End ExactlyOnce.
