(* ===== verification/Examples.v ===== *)
(** * Examples: the small programs under [examples/]

    Publishers, subscribers, queue programs and tests of the repository as
    programs of [Calls], one definition per program. The theorems are about the
    two programs that print a verdict: over a raw socket, and of messages
    published before the subscription. *)

From ITree Require Import Core.ITreeDefinition.
From S2P Require Import Prelude Text BinaryProtocol RespParser Lmdb Storage Signing Keystore Metrics Broker Session Programs Clients Calls Network NetLogic Late.

Module Examples.
Import Network NetLogic.

Abbreviation host := (lit "127.0.0.1").
Abbreviation port := 6379.
Abbreviation nl := [char_of 10].

(** ** Publishers *)

(** [examples/pub_only.cpp] *)
Definition pub_only : program unit :=
  _ ← print (ln "=== Publisher Only Demo ===");
  _ ← print (ln "Sending messages on topic 'chat'..." ++ nl);
  pub ← new_Publisher host port;
  _ ← each (count_from 1 10) (λ i,
        let msg := lit "Message #" ++ to_string i ++ lit " from publisher" in
        _ ← Publisher_send pub (lit "chat") msg;
        _ ← print (lit "[SENT] chat: " ++ msg ++ nl);
        sleep 500);
  _ ← print (nl ++ ln "Done! Press Enter to exit...");
  _ ← getchar;
  close_socket pub.

(** [examples/binary_pub_only.cpp] *)
Definition binary_pub_only : program unit :=
  _ ← print (ln "=== Binary Protocol Publisher ===");
  _ ← print (ln "Sending messages on topic 'chat'..." ++ nl);
  pub ← new_BinaryPublisher host port;
  pub ← loop_with (count_from 1 10) (λ pub i,
        let msg := lit "Binary Message #" ++ to_string i in
        pub ← BinaryPublisher_send pub (lit "chat") msg;
        _ ← print (lit "[SENT] chat: " ++ msg ++ nl);
        _ ← sleep 500;
        mret pub) pub;
  _ ← print (nl ++ ln "Done! Press Enter to exit...");
  _ ← getchar;
  close_socket (Clients.sock_ pub).

(** [examples/push_only.cpp] *)
Definition push_only : program unit :=
  _ ← print (ln "=== Queue Producer (PUSH) ===");
  _ ← print (ln "Pushing tasks to queue 'tasks'..." ++ nl);
  producer ← new_QueueProducer host port;
  _ ← loop_with (count_from 1 10) (λ sequence_ i,
        let task := lit "task_" ++ to_string i in
        sequence_ ← QueueProducer_push producer sequence_ (lit "tasks") task;
        _ ← print (lit "[PUSHED] tasks: " ++ task ++ nl);
        _ ← sleep 500;
        mret sequence_) 0;
  _ ← print (nl ++ ln "Done! Press Enter to exit...");
  _ ← getchar;
  close_socket producer.

(** ** Subscribers *)

(** [examples/sub_only.cpp] *)
Definition sub_only : program unit :=
  _ ← print (ln "=== Subscriber Only Demo ===");
  _ ← print (ln "Listening on topic 'chat' (Ctrl+C to stop)..." ++ nl);
  sub ← new_Subscriber host port;
  _ ← Subscriber_subscribe sub (lit "chat") (λ topic payload,
        print (lit "[RECEIVED] " ++ topic ++ lit ": " ++ payload ++ nl));
  close_socket sub.

(** [examples/binary_sub_only.cpp] *)
Definition binary_sub_only : program unit :=
  _ ← print (ln "=== Binary Protocol Subscriber ===");
  _ ← print (ln "Listening on topic 'chat' (Ctrl+C to stop)..." ++ nl);
  sub ← new_BinarySubscriber host port;
  sub ← BinarySubscriber_subscribe sub (lit "chat") (λ topic payload,
        print (lit "[RECEIVED] " ++ topic ++ lit ": " ++ payload ++ nl)) true;
  close_socket (Clients.s_sock sub).

(** [examples/pull_only.cpp] *)
Definition pull_only : program unit :=
  _ ← print (ln "=== Queue Consumer (PULL) ===");
  _ ← print (ln "Pulling tasks from queue 'tasks' (Ctrl+C to stop)..." ++ nl);
  consumer ← new_QueueConsumer host port;
  _ ← QueueConsumer_pull consumer 0 (lit "tasks") (λ payload, print (lit "[PULLED] " ++ payload ++ nl));
  close_socket consumer.

(** [examples/pubsub_redis.cpp] *)
Definition pubsub_redis : program unit := print (ln "Example: pubsub_redis running...").

(** ** [examples/pubsub_raw_tcp.cpp] *)

(** The thread, which captures the subscriber. *)
Definition raw_tcp_thread (sub : Z) : program unit :=
  Subscriber_subscribe sub (lit "test") (λ topic payload,
    print (lit "Received [" ++ topic ++ lit "]: " ++ payload ++ nl)).

Definition raw_tcp_lambdas : text := λ body captured,
  match captured with [sub] => raw_tcp_thread sub | _ => mret tt end.

Definition raw_tcp_open : program Z :=
  _ ← print (ln "PUB/SUB Raw TCP Demo" ++ nl);
  new_Subscriber host port.

(** The destructor of a [std::thread] that was neither joined nor detached
    calls [std::terminate]. *)
Definition terminate : program unit := raise "terminate called without an active exception".

Definition raw_tcp_publish (sub : Z) : program unit :=
  _ ← sleep 500;
  pub ← new_Publisher host port;
  _ ← each (count_from 1 10) (λ i,
        let msg := lit "Hello #" ++ to_string i in
        _ ← Publisher_send pub (lit "test") msg;
        _ ← print (lit "Sent: " ++ msg ++ nl);
        sleep 300);
  _ ← print (nl ++ ln "Press Enter to stop...");
  _ ← getchar;
  _ ← close_socket pub;
  _ ← terminate;
  close_socket sub.

Definition pubsub_raw_tcp : program unit :=
  sub ← raw_tcp_open;
  _ ← call (Spawn 1 [sub]);
  raw_tcp_publish sub.

(** ** [examples/persistence_test.cpp] *)

Definition topic : bytes := lit "test/persistence".
Definition count : var := lit "count".
Definition success_line : bytes := nl ++ ln "✅ SUCCESS: Received all 5 messages from persistence!".

Definition persistence_callback (topic payload : bytes) : program unit :=
  _ ← call (Increment count);
  c ← call (Load count);
  _ ← print (lit "   Received [" ++ to_string c ++ lit "]: " ++ payload ++ nl);
  c ← call (Load count);
  if 5 <=? c then _ ← print success_line; exit_with 0 else mret tt.

Definition persistence_publish : program (Z * Z) :=
  _ ← print (ln "=== Persistence Test ===");
  _ ← print (ln "1. Publishing 5 messages to 'test/persistence' topic");
  pub ← new_Publisher (lit "localhost") 6379;
  _ ← each (count_from 1 5) (λ i,
        let msg := lit "Message " ++ to_string i in
        _ ← Publisher_send pub topic msg;
        _ ← print (lit "   Published: " ++ msg ++ nl);
        sleep 100);
  _ ← print (nl ++ ln "2. Subscribing to 'test/persistence' topic");
  _ ← print (ln "   Expected: Should receive all 5 messages (replayed from persistence)");
  sub ← new_Subscriber (lit "localhost") 6379;
  _ ← call (Store count 0);
  mret (pub, sub).

Definition persistence_report (pub sub : Z) : program unit :=
  _ ← sleep 3000;
  c ← call (Load count);
  if c <? 5 then
    c ← call (Load count);
    _ ← print (nl ++ lit "❌ FAILED: Only received " ++ to_string c ++ ln " out of 5 messages");
    _ ← close_socket sub;
    _ ← close_socket pub;
    exit_with 1
  else
    _ ← close_socket sub;
    close_socket pub.

Definition persistence_test : program unit :=
  r ← persistence_publish;
  _ ← Subscriber_subscribe r.2 topic persistence_callback;
  persistence_report r.1 r.2.

(** ** The demo that cannot end well *)

Section raw_tcp.
Context `{LmdbOps env txn} `{HashOrder} `{Sodium}.

(** Nothing is assumed of the world and nothing promised to the other thread. *)
Abbreviation rg := (rg (env := env) (λ st, ∃ what, st = Aborted what) (λ _ _ _, True) (λ _, True)).
Abbreviation triple := (triple (env := env) (λ _, True)).
Abbreviation anything := (λ _, True).

Lemma any_call {A} ρ n (e : callE A) : local e = true → rg ρ n anything (call e) (λ _, anything).
Proof. intros Hl. by apply rg_call. Qed.

Lemma any_bind {A B} ρ n (t : program A) (k : A → program B) Q :
  rg ρ n anything t (λ _, anything) → (∀ r, rg ρ n anything (k r) Q) → rg ρ n anything (t ≫= k) Q.
Proof. apply rg_bind. Qed.

Lemma any_outcome {A} ρ n (m : outcome A) : rg ρ n anything (of_outcome m) (λ _, anything).
Proof.
  destruct m as [a|what|].
  - by apply rg_ret.
  - destruct n as [|n]; [done|]. intros w _ _. by exists what.
  - induction n as [|n IH]; [done|]. exact IH.
Qed.

Lemma any_receive {V} ρ n (parse : bytes → outcome (option (V * nat))) on sock closed :
  (∀ n v, rg ρ n anything (on v) (λ _, anything)) → (∀ n, rg ρ n anything closed (λ _, anything)) →
  rg ρ n anything (receive_loop parse on sock closed) (λ _, anything).
Proof.
  intros Hon Hcl. apply (rg_iter _ _ _ _ _ (λ _, anything)). intros n1 buf. apply any_bind; [by apply any_call|].
  intros [|c d]; [apply any_bind; [apply Hcl|intros ?; by apply rg_ret]|]. apply any_bind; [|intros ?; by apply rg_ret].
  apply (rg_iter _ _ _ _ _ (λ _, anything)). intros n2 [|c1 d1]; [by apply rg_ret|].
  apply any_bind; [apply any_outcome|]. intros [[value m]|]; [|by apply rg_ret].
  apply any_bind; [apply Hon|]. intros ?. by apply rg_ret.
Qed.

Lemma alone_call {A} (e : callE A) : local e = true → triple anything (call e) (λ _, anything).
Proof. intros Hl. by apply triple_call. Qed.

Lemma alone_open who connected h p :
  triple anything connected (λ _, anything) → triple anything (open_socket who connected h p) (λ _, anything).
Proof.
  intros Hc. eapply triple_bind; [by apply alone_call|]. intros sock. destruct (sock =? -1).
  - eapply triple_bind; [by apply alone_call|]. intros ?. by apply triple_ret.
  - eapply triple_bind; [by apply alone_call|]. intros r. destruct (r =? -1).
    + eapply triple_bind; [by apply alone_call|]. intros ?. eapply triple_bind; [by apply alone_call|].
      intros ?. by apply triple_ret.
    + eapply triple_bind; [done|]. intros ?. by apply triple_ret.
Qed.

Lemma any_subscribe ρ n sock t callback :
  (∀ n t p, rg ρ n anything (callback t p) (λ _, anything)) →
  rg ρ n anything (Subscriber_subscribe sock t callback) (λ _, anything).
Proof.
  intros Hcb. unfold Subscriber_subscribe. destruct (sock =? -1); [by apply any_call|].
  apply any_bind; [by apply any_call|]. intros ?. apply any_receive; [|intros ?; by apply any_call].
  intros n' v. unfold on_value. destruct (Resp.isArray v); [|by apply rg_ret].
  destruct (Resp.asArray v) as [|a0 [|a1 [|a2 l]]]; try by apply rg_ret. case_bool_decide; [apply Hcb|by apply rg_ret].
Qed.

Lemma any_send ρ n sock t payload : rg ρ n anything (Publisher_send sock t payload) (λ _, anything).
Proof.
  unfold Publisher_send. destruct (sock =? -1); [by apply any_call|]. apply any_bind; [by apply any_call|].
  intros ?. apply any_bind; [by apply any_call|]. intros ?. by apply rg_ret.
Qed.

Lemma any_terminate ρ n Q : rg ρ n anything terminate Q.
Proof. destruct n as [|n]; [done|]. intros w _ _. by eexists. Qed.

Lemma raw_tcp_main n sub : rg Main n anything (raw_tcp_publish sub) (λ _ _, False).
Proof.
  apply any_bind; [by apply any_call|]. intros ?. apply any_bind; [apply rg_open; [intros A e He; apply any_call; by destruct e|by apply rg_ret]|]. intros pub.
  apply any_bind.
  { apply rg_each. intros i. apply any_bind; [apply any_send|]. intros ?. apply any_bind; [by apply any_call|].
    intros ?. by apply any_call. }
  intros ?. apply any_bind; [by apply any_call|]. intros ?. apply any_bind; [by apply any_call|]. intros ?.
  apply any_bind. { unfold close_socket. destruct (pub =? -1); [by apply rg_ret|by apply any_call]. }
  intros ?. apply (rg_bind _ _ _ _ _ _ _ _ (λ _ _, False)); [apply any_terminate|]. intros ?. apply rg_absurd. tauto.
Qed.

(** [pubsub_raw_tcp.cpp] never ends with status 0, whatever the broker
    and the schedule do and from whatever state it is started: at the end of
    [main] the [std::thread] has neither been joined nor detached, and the
    process is aborted. *)
Theorem raw_tcp_never_succeeds (w : world env) p :
  reaches raw_tcp_lambdas w pubsub_raw_tcp p → ended p = Running ∨ ended p = Killed ∨ ∃ what, ended p = Aborted what.
Proof.
  intros Hp. apply (duo_adequate (env := env) (λ _, True) (λ st, ∃ what, st = Aborted what) raw_tcp_lambdas
    raw_tcp_open (λ sub, Some (1%nat, [sub])) (λ sub _, raw_tcp_publish sub) (λ _ _ _ _, True) (λ _ _, True) (λ _ _, True))
    with (w := w) (P := λ _, True); try done.
  - intros sub w' _. split; [done|]. split; intros n; exists (λ _, True); (split; [done|]); (split; [done|]).
    + eapply rg_post; [|apply any_subscribe]; [done|]. intros n' t payload. by apply any_call.
    + eapply rg_post; [|apply raw_tcp_main]. by intros r w2 _ [].
  - eapply triple_bind; [by apply alone_call|]. intros ?. by apply alone_open, alone_call.
Qed.
End raw_tcp.

(** ** Persistence, as its test sees it *)

Section persistence.
Context `{LmdbLaws env txn} `{HashOrder} `{Sodium}.
Context (stored : bytes → Prop) (topic_stored : stored topic).
Context (topic_prefix : ∀ t r, stored t → topic = t ++ r → r = []).

Abbreviation triple := (NetLogic.triple (env := env) (Late.printable success_line)).
Abbreviation resting := (Late.resting (env := env) stored Session.BINARY success_line).
Abbreviation calm := (Late.calm (env := env) stored Session.BINARY success_line).

Lemma topic_plain : Storage.NUL ∉ topic.
Proof. by apply (bool_decide_unpack _). Qed.

Ltac prints := apply Late.triple_print;
  [first [eapply Late.resting_stable|eapply Late.calm_stable]; eauto
  |first [apply Late.resting_blind|apply Late.calm_blind]|done].

Lemma triple_new_Publisher h p : triple resting (new_Publisher h p) calm.
Proof.
  pose proof topic_plain. pose proof Late.BINARY_known.
  eapply triple_post; [|eapply Late.triple_open; eauto; intros x; by apply triple_ret].
  intros sock w. apply Late.new_calm.
Qed.

Lemma triple_publish_five sock :
  triple (calm sock) (each (count_from 1 5) (λ i,
        let msg := lit "Message " ++ to_string i in
        _ ← Publisher_send sock topic msg;
        _ ← print (lit "   Published: " ++ msg ++ nl);
        sleep 100)) (λ _, calm sock).
Proof.
  pose proof topic_plain. pose proof Late.BINARY_known. apply Late.triple_each. intros i Hi. cbn zeta.
  eapply triple_bind; [eapply Late.triple_Publisher_send; eauto|].
  - assert (Hl : forallb (λ i, zlen (Resp.serialize (Resp.makeArray [lit "PUBLISH"; topic; lit "Message " ++ to_string i])) <=? 4096)
      (count_from 1 5) = true) by by vm_compute.
    rewrite forallb_forall in Hl. by apply Z.leb_le, Hl, list_elem_of_In.
  - intros ?. eapply triple_bind; [prints|]. intros ?. eapply Late.triple_sleep, Late.calm_stable; eauto.
Qed.

Lemma persistence_ready :
  triple resting persistence_publish (λ r, Late.ready stored Session.BINARY success_line r.2 count).
Proof.
  pose proof topic_plain. pose proof Late.BINARY_known.
  eapply triple_bind; [prints|]. intros ?. eapply triple_bind; [prints|]. intros ?.
  eapply triple_bind; [apply triple_new_Publisher|]. intros pub.
  eapply triple_bind; [apply triple_publish_five|]. intros ?.
  eapply triple_bind; [prints|]. intros ?. eapply triple_bind; [prints|]. intros ?.
  eapply triple_bind; [eapply triple_pre; [|eapply Late.triple_open; eauto]|].
  - by intros w [? _].
  - intros x. apply Late.triple_print; [eapply Late.new_conn_stable; eauto|apply Late.new_conn_blind|done].
  - intros sub. eapply triple_bind; [eapply Late.triple_ready; eauto|]. intros ?. by apply triple_ret.
Qed.

(** [persistence_test.cpp] never reports the five messages it published
    before it subscribed, under any schedule and from any state in which no
    stored topic is a proper prefix of its own: it waits, or it ends with
    status 1, or SIGPIPE ends it. *)
Theorem persistence_test_never_succeeds (w : world env) txt p :
  resting w → reaches txt w persistence_test p →
  (success_line ∉ console (here p)) ∧ (ended p = Running ∨ ended p = Killed ∨ ended p = Exited 1).
Proof.
  intros Hw Hp.
  apply (Late.alone_is_silent topic stored topic_stored topic_plain topic_prefix Session.BINARY Late.BINARY_known success_line
    persistence_publish snd count (λ st, st = Exited 1) txt persistence_ready persistence_callback
    (λ r, persistence_report r.1 r.2)) with w; try done.
  intros r n. eapply rg_bind; [apply Late.rg_sleep, Late.stab_true|]. intros ?. apply Late.rg_load_bind.
  apply Late.rg_load_bind. apply Late.rg_print_bind; [done|]. intros ?.
  eapply rg_bind; [apply Late.rg_close_socket|]. intros ?. eapply rg_bind; [apply Late.rg_close_socket|]. intros ?.
  by destruct n.
Qed.
End persistence.

(** ** Runs *)

#[local] Existing Instance Broker.ElementsOrder.
#[local] Existing Instance ToySodium.

Lemma raw_tcp_never_succeeds_witness :
  let p := run raw_tcp_lambdas 1000 pubsub_raw_tcp in
  (lit "Received [test]: Hello #10" ++ nl) ∈ console (here p) ∧ ended p ≠ Running ∧
  (ended p = Running ∨ ended p = Killed ∨ ∃ what, ended p = Aborted what).
Proof.
  split; [apply (bool_decide_unpack _); vm_compute; exact I|]. split; [vm_compute; discriminate|].
  apply (raw_tcp_never_succeeds fresh_world). apply run_reached.
Defined.

(** The test waits; then the broker closes the connection, which has been
    silent for too long. *)
Definition waiting : process MemLmdb := run raw_tcp_lambdas 1000 persistence_test.
Definition timed_out : process MemLmdb :=
  eager raw_tcp_lambdas 100 (default waiting (step raw_tcp_lambdas (Timeout 4 (10 ^ 9)) waiting)).

Lemma timed_out_reached : reaches raw_tcp_lambdas fresh_world persistence_test timed_out.
Proof.
  apply eager_reaches. destruct (step _ _ waiting) as [p|] eqn:E; [|apply run_reached].
  eapply reaches_step; [|exact E]. apply run_reached.
Qed.

Lemma persistence_test_never_succeeds_witness :
  last (console (here timed_out)) = Some (nl ++ lit "❌ FAILED: Only received 0 out of 5 messages" ++ nl) ∧
  ended timed_out ≠ Running ∧
  (success_line ∉ console (here timed_out)) ∧ (ended timed_out = Running ∨ ended timed_out = Killed ∨ ended timed_out = Exited 1).
Proof.
  split; [vm_compute; reflexivity|]. split; [vm_compute; discriminate|].
  apply (persistence_test_never_succeeds (eq topic) eq_refl (Late.eq_prefix _) fresh_world raw_tcp_lambdas).
  - apply Late.fresh_resting.
  - exact timed_out_reached.
Defined.

End Examples.
