(* ===== verification/Tools.v ===== *)
(** * Tools: the programs beside the broker

    The size estimates of [benchmark/protocol_benchmark.cpp] (Module [Sizes]),
    and the programs of [examples/signed_publish_test.cpp] (Module [SignedTest])
    and [examples/crypto_demo.cpp] (Module [CryptoDemo]): what they print and
    their exit code, as functions of the randomness libsodium draws. *)

From S2P Require Import Prelude Text BinaryProtocol RespParser Signing Streams Keystore Lmdb Storage Metrics Broker Session Clients.
From Stdlib Require Import SpecFloat.

Module Sizes.

Definition calculateRespSize (topic payload : bytes) : Z :=
  let header := 4 in
  let header := header + 13 in
  let header := header + (1 + zlen (to_string (zlen topic)) + 2 + zlen topic + 2) in
  header + (1 + zlen (to_string (zlen payload)) + 2 + zlen payload + 2).

Definition calculateBinarySize (topic payload : bytes) : Z := 16 + zlen topic + zlen payload.

Record BenchmarkResult := mkResult {
  protocol_name : bytes;
  message_count : Z;
  payload_size : nat;
  avg_latency_us : spec_float;
  throughput_msg_per_sec : spec_float;
  wire_size_bytes : Z;
}.

Definition benchmarkMessageSize (protocol : bytes) (size : nat) : BenchmarkResult :=
  let topic := lit "benchmark" in
  let payload := replicate size (char_of 88) in
  let wire_size := if bool_decide (protocol = lit "RESP") then calculateRespSize topic payload
                   else calculateBinarySize topic payload in
  mkResult protocol 1 size (S754_zero false) (S754_zero false) wire_size.

(** The estimates of the benchmark are the exact sizes of what the publishers
    of the two protocols put on the wire, for every topic and payload; the
    binary frame is smaller, by eleven bytes and the digits of both lengths. *)
Theorem wire_sizes_exact topic payload seq :
  calculateRespSize topic payload =
    zlen (Resp.serialize (Resp.makeArray [lit "PUBLISH"; topic; payload])) ∧
  calculateBinarySize topic payload = zlen (serialize (frame_publish topic payload seq)) ∧
  calculateRespSize topic payload = calculateBinarySize topic payload + 11 +
    zlen (to_string (zlen topic)) + zlen (to_string (zlen payload)).
Proof.
  rewrite Clients.command_size, serialize_layout, !length_app, length_header.
  unfold calculateRespSize, calculateBinarySize. simpl length. lia.
Qed.
End Sizes.

Module SignedTest.

Definition topic : bytes := lit "sensors/temperature".
Definition payload : bytes :=
  lit "{" ++ QUOTE ++ lit "temp" ++ QUOTE ++ lit ":24.5," ++ QUOTE ++ lit "humidity" ++ QUOTE ++ lit ":62," ++
  QUOTE ++ lit "device" ++ QUOTE ++ lit ":" ++ QUOTE ++ lit "esp32-sensor-001" ++ QUOTE ++ lit "}".
Definition tampered_payload : bytes :=
  lit "{" ++ QUOTE ++ lit "temp" ++ QUOTE ++ lit ":99.9," ++ QUOTE ++ lit "hacked" ++ QUOTE ++ lit ":true}".

Definition intro_items (pk : bytes) (key_id : Z) (size : Z) : list insertion :=
  [Str (lit "[1/6] Crypto initialized" ++ NL);
   Str (lit "[2/6] Device keypair generated" ++ NL);
   Str (lit "      Public key: "); Str (take 32 (Signing.to_hex pk)); Str (lit "..." ++ NL);
   Str (lit "[3/6] Device registered with key_id="); Int key_id; Str NL;
   Str (lit "[4/6] Message signed" ++ NL);
   Str (lit "      Topic: "); Str topic; Str NL;
   Str (lit "      Payload: "); Str payload; Str NL;
   Str (lit "[5/6] Signed frame created ("); Int size; Str (lit " bytes)" ++ NL);
   Str (lit "      Frame breakdown:" ++ NL);
   Str (lit "        Header:    16 bytes" ++ NL);
   Str (lit "        Topic:     "); Int (zlen topic); Str (lit " bytes" ++ NL);
   Str (lit "        Payload:   "); Int (zlen payload); Str (lit " bytes" ++ NL);
   Str (lit "        Signature: 64 bytes" ++ NL);
   Str (lit "        Key ID:    4 bytes" ++ NL)].

Definition title : list insertion := [Str (lit "=== MetricMQ Signed Publish Test ===" ++ NL ++ NL)].

Definition verdict (bad : bool) : insertion := Str (if bad then lit "FAILED (bad!)" else lit "PASSED").

Definition verdicts (valid tampered_valid unknown_key disabled_key : bool) : list insertion :=
  [Str (lit "[6/6] Signature verification: "); Str (if valid then lit "PASSED" else lit "FAILED"); Str NL;
   Str (NL ++ lit "--- Additional Tests ---" ++ NL);
   Str (lit "Tamper detection: "); verdict tampered_valid; Str NL;
   Str (lit "Unknown key rejection: "); verdict unknown_key; Str NL;
   Str (lit "Disabled key rejection: "); verdict disabled_key; Str NL;
   Str (NL ++ lit "=== All Tests Passed ===" ++ NL)].

(** [assert]: a failed one aborts the process. *)
Definition assert_ (b : bool) : outcome unit := if b then Ret tt else Throw "abort".

(** The standard output and the exit code. *)
Definition main `{Sodium} (now : Z) (rnd : bytes) : outcome (bytes * Z) :=
  if negb (snd (Signing.init false)) then Ret (rendered title, 1)
  else
    let device_keypair := Signing.generate_keypair rnd in
    let '(ks, key_id) := Keystore.register_key_auto now Keystore.new_store
                           (Signing.kp_public_key device_keypair) (lit "esp32-sensor-001") (lit "sensors/*") in
    let signature := Signing.sign (topic ++ payload) (Signing.kp_secret_key device_keypair) in
    let serialized := serialize (frame_signed_publish topic payload signature key_id 1) in
    let intro := title ++ intro_items (Signing.kp_public_key device_keypair) key_id (zlen serialized) in
    let! parsed := parse serialized in
    match parsed with
    | None => Ret (rendered intro, 1)
    | Some (frame, _) =>
        let! _ := assert_ (bool_decide (command frame = CMD_SIGNED_PUBLISH)) in
        let! _ := assert_ (is_signed frame) in
        let! _ := assert_ (BinaryProtocol.key_id frame =? key_id) in
        let verify_message := BinaryProtocol.topic frame ++ BinaryProtocol.payload frame in
        let '(ks, valid) := Keystore.verify_with_key now ks (BinaryProtocol.key_id frame) verify_message
                              (BinaryProtocol.signature frame) in
        let tampered := BinaryProtocol.topic frame ++ tampered_payload in
        let '(ks, tampered_valid) := Keystore.verify_with_key now ks (BinaryProtocol.key_id frame) tampered
                                       (BinaryProtocol.signature frame) in
        let '(ks, unknown_key) := Keystore.verify_with_key now ks 999 verify_message
                                    (BinaryProtocol.signature frame) in
        let '(ks, _) := Keystore.set_enabled ks key_id false in
        let '(ks, disabled_key) := Keystore.verify_with_key now ks (BinaryProtocol.key_id frame) verify_message
                                     (BinaryProtocol.signature frame) in
        let '(ks, _) := Keystore.set_enabled ks key_id true in
        Ret (rendered (intro ++ verdicts valid tampered_valid unknown_key disabled_key), 0)
    end.

(** The store has [pk] under identifier 1, enabled or not, and nothing under 999. *)
Definition holds (ks : Keystore.TrustedKeyStore) (pk : bytes) (en : bool) : Prop :=
  (∃ k, Keystore.keys_ ks !! 1 = Some k ∧ Keystore.public_key k = pk ∧ Keystore.enabled k = en) ∧
  Keystore.keys_ ks !! 999 = None.

Lemma holds_insert k m n :
  m !! 999 = None → holds (Keystore.mkStore (<[1 := k]> m) n) (Keystore.public_key k) (Keystore.enabled k).
Proof.
  intros Hm. split; simpl; [|by rewrite lookup_insert_ne]. exists k. by rewrite lookup_insert_eq.
Qed.

Section store.
Context `{Sodium}.

Lemma holds_verify now ks pk msg sig :
  holds ks pk true →
  ∃ ks', Keystore.verify_with_key now ks 1 msg sig = (ks', Signing.verify msg sig pk) ∧ holds ks' pk true.
Proof.
  intros [(k & Hk & <- & He) Hu]. unfold Keystore.verify_with_key, Keystore.touch. rewrite Hk, He. cbn [negb].
  rewrite <-He.
  destruct (Signing.verify _ _ _); eexists; (split; [done|]); [|split; eauto].
  by apply (holds_insert (Keystore.set_last_used now k)).
Qed.

Lemma holds_unknown now ks pk en msg sig :
  holds ks pk en → Keystore.verify_with_key now ks 999 msg sig = (ks, false).
Proof. intros [_ Hu]. unfold Keystore.verify_with_key. by rewrite Hu. Qed.

Lemma holds_disabled now ks pk msg sig :
  holds ks pk false → Keystore.verify_with_key now ks 1 msg sig = (ks, false).
Proof. intros [(k & Hk & _ & He) _]. unfold Keystore.verify_with_key. by rewrite Hk, He. Qed.

Lemma holds_set ks pk en b :
  holds ks pk en → ∃ ks', Keystore.set_enabled ks 1 b = (ks', true) ∧ holds ks' pk b.
Proof.
  intros [(k & Hk & <- & He) Hu]. unfold Keystore.set_enabled. rewrite Hk. eexists. split; [done|].
  by apply (holds_insert (Keystore.with_enabled b k)).
Qed.
End store.

(** The demonstration does what it prints: it parses its own frame back, no
    assertion fails, the signature verifies, an unknown and a disabled key are
    rejected. The exit code and the last line do not depend on the outcome of
    the tamper test, which is what libsodium answers. *)
Theorem signed_test_passes `{SodiumLaws} now rnd :
  0 ≤ sodium_init →
  let keypair := Signing.generate_keypair rnd in
  let signature := Signing.sign (topic ++ payload) (Signing.kp_secret_key keypair) in
  main now rnd =
    Ret (rendered (title ++ intro_items (Signing.kp_public_key keypair) 1 158 ++
           verdicts true (Signing.verify (topic ++ tampered_payload) signature (Signing.kp_public_key keypair))
             false false), 0).
Proof.
  intros Hi keypair signature. unfold main, Signing.init. rewrite (proj2 (Z.ltb_ge _ _)) by done.
  cbn [snd negb]. fold keypair. cbn [Keystore.register_key_auto].
  change (Keystore.next_key_id_ Keystore.new_store) with 1. fold signature.
  assert (Hsig : length signature = 64%nat) by apply signature_size.
  set (f := frame_signed_publish topic payload signature 1 1).
  assert (Hwf : FrameWf f) by (by split).
  assert (Hlen : zlen (serialize f) = 158).
  { by rewrite (length_serialize f Hwf). }
  rewrite Hlen, <-(app_nil_r (serialize f)), parse_is_ref, parse_ref_serialize by done.
  cbn [obind]. unfold assert_.
  cbn [f frame_signed_publish command is_signed BinaryProtocol.key_id BinaryProtocol.topic
       BinaryProtocol.payload BinaryProtocol.signature obind].
  rewrite bool_decide_true by done. cbn [obind Z.eqb Pos.eqb].
  set (ks0 := Keystore.mkStore _ _).
  assert (Hk0 : holds ks0 (Signing.kp_public_key keypair) true).
  { by apply (holds_insert (Keystore.mkKey _ _ _ _ true _ _)). }
  destruct (holds_verify now ks0 _ (topic ++ payload) signature Hk0) as (ks1 & -> & Hk1).
  destruct (holds_verify now ks1 _ (topic ++ tampered_payload) signature Hk1) as (ks2 & -> & Hk2).
  rewrite (holds_unknown now ks2 _ _ _ _ Hk2).
  destruct (holds_set ks2 _ _ false Hk2) as (ks3 & -> & Hk3). rewrite (holds_disabled now ks3 _ _ _ Hk3).
  destruct (holds_set ks3 _ _ true Hk3) as (ks4 & -> & _).
  assert (Hv : Signing.verify (topic ++ payload) signature (Signing.kp_public_key keypair) = true)
    by apply Signing.random_key_verifies.
  by rewrite Hv, <-app_assoc.
Qed.
End SignedTest.

Module CryptoDemo.

Definition topic : bytes := lit "sensors/temperature".
Definition reading (temp : string) : bytes :=
  lit "{" ++ QUOTE ++ lit "device" ++ QUOTE ++ lit ":" ++ QUOTE ++ lit "esp32-001" ++ QUOTE ++ lit "," ++
  QUOTE ++ lit "temp" ++ QUOTE ++ lit ":" ++ lit temp ++ lit "," ++ QUOTE ++ lit "humidity" ++ QUOTE ++ lit ":65}".

Definition title : list insertion := [Str (lit "=== MetricMQ Ed25519 Signing Demo ===" ++ NL ++ NL)].

Definition main `{Sodium} (rnd : bytes) : bytes * Z :=
  if negb (snd (Signing.init false)) then (rendered title, 1)
  else
    let keypair := Signing.generate_keypair rnd in
    let payload := reading "23.5" in
    let message := topic ++ payload in
    let signature := Signing.sign message (Signing.kp_secret_key keypair) in
    let valid := Signing.verify message signature (Signing.kp_public_key keypair) in
    let tampered := topic ++ reading "99.9" in
    let tampered_valid := Signing.verify tampered signature (Signing.kp_public_key keypair) in
    (rendered (title ++
      [Str (lit "[OK] Crypto initialized" ++ NL);
       Str (lit "[OK] Generated key pair" ++ NL);
       Str (lit "    Public key: "); Str (take 16 (Signing.to_hex (Signing.kp_public_key keypair))); Str (lit "..." ++ NL);
       Str (NL ++ lit "[SIGN] topic:   "); Str topic; Str NL;
       Str (lit "       payload: "); Str payload; Str NL;
       Str (lit "       Signature: "); Str (take 32 (Signing.to_hex signature)); Str (lit "..." ++ NL);
       Str (NL ++ lit "[VERIFY] Result: "); Str (if valid then lit "VALID" else lit "INVALID"); Str NL;
       Str (NL ++ lit "[TAMPER TEST] Modified payload result: ");
       Str (if tampered_valid then lit "VALID (BAD!)" else lit "INVALID (GOOD!)"); Str NL;
       Str (NL ++ lit "[OK] Secret key securely wiped" ++ NL);
       Str (NL ++ lit "=== Demo Complete ===" ++ NL)]), 0).
End CryptoDemo.

(** ** Witnesses *)

#[local] Existing Instance ToySodium.
#[local] Existing Instance ToySodiumLaws.

Lemma signed_test_passes_witness : ∃ out, SignedTest.main 7 (lit "r") = Ret (out, 0).
Proof. exact (ex_intro _ _ (SignedTest.signed_test_passes 7 (lit "r") (Z.le_refl 0))). Defined.
