(* ===== verification/Benchmarks.v ===== *)
(** * Benchmarks: the programs under [benchmark/]

    [persistence_benchmark.cpp] as functions on the storage (Module
    [Persistence]); [latency_benchmark.cpp], [throughput_benchmark.cpp],
    [throughput.cpp] and [protocol_benchmark.cpp] as programs of [Calls] (Module
    [Latency]). How often Google Benchmark repeats a body is a parameter, as are
    the random numbers; what a body does, counts and prints is kept, with
    [double] as binary64 of [Floats]. *)

From ITree Require Import Core.ITreeDefinition.
From S2P Require Import Prelude Text BinaryProtocol RespParser Lmdb Storage Signing Keystore Metrics Floats Broker Session Programs Clients Calls Network NetLogic Late Tools.

Module Persistence.

(** What a benchmark reports: [SetItemsProcessed], [SetBytesProcessed]. *)
Record report := mkReport { items : Z; processed : Z }.

Section benchmarks.
Context `{LmdbOps env txn}.

(** [for (int i = 1; i <= n; i++) storage.save(i, topic, payload)] *)
Definition save_all (topic payload : bytes) (seqs : list Z) (e : env) : env :=
  fold_left (λ e seq, Storage.save e seq topic payload) seqs e.

Definition save_acks (client_id : bytes) (seqs : list Z) (e : env) : env :=
  fold_left (λ e seq, Storage.save_ack e client_id seq) seqs e.

Definition BM_LMDB_SequentialWrite (range : nat) (iterations : nat) (e : env) : env * report :=
  let payload := replicate range (char_of 120) in
  (save_all (lit "bench/topic") payload (count_from 1 iterations) e,
   mkReport (Z.of_nat iterations) (Z.of_nat iterations * zlen payload)).

(** The results of the reads, and how many items are reported. *)
Definition BM_LMDB_RandomRead (drawn : list Z) (e : env) : list (outcome (list Storage.stored)) * report :=
  let e := save_all (lit "topic") (lit "test_payload") (count_from 1 1000) e in
  ((λ seq, Storage.load_range e seq seq) <$> drawn, mkReport (zlen drawn) 0).

Definition BM_LMDB_RangeScan (range_size : Z) (iterations : nat) (e : env)
    : list (outcome (list Storage.stored)) * report :=
  let e := save_all (lit "topic") (lit "test") (count_from 1 (Z.to_nat 10000)) e in
  (replicate iterations (Storage.load_range e 1 range_size), mkReport (Z.of_nat iterations * range_size) 0).

Definition BM_LMDB_ACK_Write (iterations : nat) (e : env) : env * report :=
  (save_acks (lit "bench_client") (count_from 1 iterations) e, mkReport (Z.of_nat iterations) 0).

Definition BM_LMDB_ACK_Load (num_acks : nat) (iterations : nat) (e : env) : list (outcome (gset Z)) * report :=
  let e := save_acks (lit "bench_client") (count_from 1 num_acks) e in
  (replicate iterations (Storage.load_acks e (lit "bench_client")), mkReport (Z.of_nat iterations * Z.of_nat num_acks) 0).
End benchmarks.

(** ** What the read benchmarks read *)

Section reads.
Context `{LmdbLaws env txn}.
Implicit Types e : env.

(** Every record was saved with the topic and the payload. *)
Definition only (topic payload : bytes) (m : gmap bytes bytes) : Prop :=
  Storage.store_wf m ∧ ∀ n v, m !! Storage.msg_key n = Some v → v = Storage.msg_data topic payload.

Lemma save_all_only topic payload seqs e :
  only topic payload (env_view e) → only topic payload (env_view (save_all topic payload seqs e)).
Proof.
  revert e. induction seqs as [|seq seqs IH]; intros e [Hwf Ho]; [done|]. apply IH.
  destruct (Storage.save_cases_wf e seq topic payload Hwf) as [[->| ->] ?]; [by split|].
  split; [by apply Storage.m_save_wf|]. intros n v. unfold Storage.m_save.
  rewrite lookup_insert_ne by (apply not_eq_sym, Storage.msg_key_not_last).
  intros [[_ <-]|[_ Hl]]%lookup_insert_Some; [done|by apply (Ho n)].
Qed.

(** Records without a NUL are skipped. *)
Lemma only_reads_nothing topic payload e from to :
  (Storage.NUL ∉ topic) → (Storage.NUL ∉ payload) → only topic payload (env_view e) →
  Storage.load_range e from to = Ret [].
Proof.
  intros Ht Hp [Hwf Ho]. destruct (Storage.load_range_records e from to Hwf) as (l & Hl & Hx). rewrite Hl.
  destruct l as [|[[n t] p] l]; [done|]. destruct (Hx n t p ltac:(by left)) as (v & Hv & _ & Hd).
  rewrite (Ho n v Hv), Storage.decode_msg_data in Hd by done.
  by rewrite find_first_char_None in Hd.
Qed.

(** Every ACK of a series is taken by the engine. *)
Fixpoint acks_ok c seqs e : bool :=
  match seqs with
  | [] => true
  | n :: seqs => Storage.ack_ok e c n && acks_ok c seqs (Storage.save_ack e c n)
  end.

Lemma save_acks_view c seqs e :
  acks_ok c seqs e = true →
  ∀ k, is_Some (env_view (save_acks c seqs e) !! k) ↔ is_Some (env_view e !! k) ∨ ∃ n, n ∈ seqs ∧ k = Storage.ack_key c n.
Proof.
  revert e. induction seqs as [|n seqs IH]; intros e Hs k.
  { cbn. set_solver. }
  cbn [acks_ok] in Hs. apply andb_true_iff in Hs as [Hn Hs].
  cbn [save_acks fold_left]. unfold save_acks in IH. rewrite IH, Storage.save_ack_view, lookup_insert_is_Some' by done.
  set_solver.
Qed.

Lemma elem_of_count_from first n i : i ∈ count_from first n ↔ first ≤ i < first + Z.of_nat n.
Proof.
  unfold count_from. rewrite list_elem_of_fmap. split.
  - intros (j & -> & Hj%elem_of_seq). lia.
  - intros Hi. exists (Z.to_nat (i - first)). split; [lia|]. apply elem_of_seq. lia.
Qed.

(** The read benchmarks of [persistence_benchmark.cpp] read nothing: on a
    new database every [load_range] of [BM_LMDB_RandomRead] and of
    [BM_LMDB_RangeScan] returns the empty vector, for every drawn number and
    every range, while [range_size] items per iteration are reported. *)
Theorem read_benchmarks_read_nothing e drawn range_size iterations :
  env_view e = ∅ →
  Forall (λ result, result = Ret []) (BM_LMDB_RandomRead drawn e).1 ∧
  Forall (λ result, result = Ret []) (BM_LMDB_RangeScan range_size iterations e).1 ∧
  items (BM_LMDB_RangeScan range_size iterations e).2 = Z.of_nat iterations * range_size.
Proof.
  intros He. assert (Ho : ∀ t p, only t p (env_view e)).
  { intros t p. rewrite He. split; [apply Storage.store_wf_empty|]. intros n v. by rewrite lookup_empty. }
  split; [|split; [|done]].
  - apply Forall_fmap, Forall_true. intros seq. unfold compose. cbn beta.
    eapply only_reads_nothing; [..|by apply save_all_only]; by apply (bool_decide_unpack _).
  - apply Forall_replicate. eapply only_reads_nothing; [..|by apply save_all_only]; by apply (bool_decide_unpack _).
Qed.

(** What [BM_LMDB_ACK_Load] loads is what it reports: on a new database that
    takes every ACK and can be read, every [load_acks] returns exactly the
    numbers from 1 to [num_acks]. *)
Theorem ack_load_complete e num_acks iterations :
  env_view e = ∅ → Z.of_nat num_acks < 10 ^ 19 →
  acks_ok (lit "bench_client") (count_from 1 num_acks) e = true →
  Storage.readable (save_acks (lit "bench_client") (count_from 1 num_acks) e) = true →
  Forall (λ result, ∃ acks, result = Ret acks ∧ ∀ n, n ∈ acks ↔ 1 ≤ n ≤ Z.of_nat num_acks)
    (BM_LMDB_ACK_Load num_acks iterations e).1.
Proof.
  intros He Hnum Hok Hr. apply Forall_replicate. set (c := lit "bench_client").
  assert (Hc : Storage.COLON ∉ c) by by apply (bool_decide_unpack _).
  destruct (Storage.load_acks_view (save_acks c (count_from 1 num_acks) e) c Hr) as (acks & Hl & Hx).
  exists acks. split; [exact Hl|]. intros n. rewrite Hx. setoid_rewrite save_acks_view; [|done].
  rewrite He. setoid_rewrite elem_of_count_from. split.
  - intros (k & [[? Hk]|(i & Hi & ->)] & Hs); [by rewrite lookup_empty in Hk|].
    apply Storage.ack_seq_of_own in Hs as [_ ->]; [lia|done..|lia].
  - intros Hn. exists (Storage.ack_key c n). split; [right; exists n; split; [lia|done]|].
    apply Storage.ack_seq_of_key. lia.
Qed.
End reads.

Lemma read_benchmarks_read_nothing_witness :
  Forall (λ result, result = Ret []) (BM_LMDB_RangeScan 100 5 (∅ : MemLmdb)).1 ∧
  items (BM_LMDB_RangeScan 100 5 (∅ : MemLmdb)).2 = 500.
Proof.
  destruct (read_benchmarks_read_nothing (∅ : MemLmdb) [] 100 5) as (_ & H1 & H2); [reflexivity|]. exact (conj H1 H2).
Defined.

Lemma ack_load_complete_witness :
  Forall (λ result, ∃ acks, result = Ret acks ∧ ∀ n, n ∈ acks ↔ 1 ≤ n ≤ 10)
    (BM_LMDB_ACK_Load 10 3 (∅ : MemLmdb)).1.
Proof. apply (ack_load_complete (∅ : MemLmdb) 10 3); [reflexivity|vm_compute; reflexivity..]. Defined.

End Persistence.

Module Latency.
Import Network NetLogic Floats.

(** ** The programs *)

Abbreviation host := (lit "127.0.0.1").
Abbreviation port := 6379.

Definition load (v : var) : program Z := call (Load v).
Definition store (v : var) (z : Z) : program unit := call (Store v z).

(** [std::chrono::microseconds]; the argument of [Sleep] is in milliseconds. *)
Definition sleep_us (us : Z) : program unit := sleep (us / 1000).

(** [for (auto _ : state) { start; body; end; SetIterationTime(end - start) }];
    the times are left to the harness. *)
Definition timed {S} (iterations : nat) (body : S → program S) (s : S) : program S :=
  loop_with (seq 0 iterations) (λ s _, _ ← call Now; s ← body s; _ ← call Now; mret s) s.

(** [int initial = v.load(); while (v.load() == initial) sleep] *)
Definition await_change (v : var) : program unit :=
  initial ← load v;
  while (c ← load v; mret (c =? initial)) (sleep_us 1).

(** *** [latency_benchmark.cpp] *)

Definition BM_PublishLatency_NoSubscribers (range iterations : nat) : program unit :=
  pub ← new_BinaryPublisher host port;
  _ ← sleep 100;
  pub ← timed iterations (λ pub, BinaryPublisher_send pub (lit "bench/test") (replicate range (char_of 120))) pub;
  close_socket (Clients.sock_ pub).

Definition received_count : var := lit "received_count".
Definition ready : var := lit "ready".
Definition running : var := lit "running".

Definition EndToEnd_thread (max_iterations : Z) : program unit :=
  sub ← new_BinarySubscriber_id (lit "bench_subscriber") host port;
  sub ← BinarySubscriber_subscribe sub (lit "bench/e2e") (λ _ _, _ ← call (Increment received_count); mret tt) true;
  _ ← store ready 1;
  _ ← while (c ← load received_count; mret (c <? max_iterations)) (sleep_us 100);
  close_socket (Clients.s_sock sub).

(** [BM_EndToEndLatency], after the thread has been started. *)
Definition EndToEnd_measure (iterations : nat) (sub_thread : nat) : program unit :=
  _ ← while (c ← load ready; mret (c =? 0)) (sleep 10);
  _ ← sleep 100;
  pub ← new_BinaryPublisher host port;
  pub ← timed iterations (λ pub,
        pub ← BinaryPublisher_send pub (lit "bench/e2e") (lit "benchmark_message");
        _ ← await_change received_count;
        mret pub) pub;
  _ ← call (Join sub_thread);
  close_socket (Clients.sock_ pub).

Definition EndToEnd_start : program unit := _ ← store received_count 0; store ready 0.

Definition BM_EndToEndLatency (iterations : nat) : program unit :=
  _ ← EndToEnd_start;
  sub_thread ← call (Spawn 1 [Z.of_nat iterations]);
  EndToEnd_measure iterations sub_thread.

Definition ack_count : var := lit "ack_count".
Definition ack_callback (topic payload : bytes) : program unit := _ ← call (Increment ack_count); mret tt.

(** [BM_AckLatency], from the declaration of the subscriber on. *)
Definition AckLatency_body (iterations : nat) : program unit :=
  sub ← new_BinarySubscriber_id (lit "bench_ack") host port;
  sub ← BinarySubscriber_subscribe sub (lit "bench/ack") ack_callback true;
  _ ← sleep 100;
  pub ← new_BinaryPublisher host port;
  pub ← timed iterations (λ pub,
        pub ← BinaryPublisher_send pub (lit "bench/ack") (lit "test");
        _ ← await_change ack_count;
        mret pub) pub;
  _ ← close_socket (Clients.sock_ pub);
  close_socket (Clients.s_sock sub).

Definition BM_AckLatency (iterations : nat) : program unit :=
  _ ← store ack_count 0;
  AckLatency_body iterations.

Definition BM_SubscribeLatency (iterations : nat) : program unit :=
  _ ← timed iterations (λ i,
        sub ← new_BinarySubscriber_id (lit "bench_sub_" ++ to_string i) host port;
        sub ← BinarySubscriber_subscribe sub (lit "bench/subscribe") (λ _ _, mret tt) true;
        _ ← close_socket (Clients.s_sock sub);
        mret (i + 1)) 0;
  mret tt.

(** *** [throughput_benchmark.cpp] *)

(** The bytes reported. *)
Definition BM_SinglePublisher_Throughput (range iterations : nat) : program Z :=
  pub ← new_BinaryPublisher host port;
  _ ← sleep 100;
  let payload := replicate range (char_of 120) in
  r ← loop_with (seq 0 iterations) (λ r _,
        pub ← BinaryPublisher_send r.1 (lit "bench/throughput") payload;
        mret (pub, r.2 + zlen payload)) (pub, 0);
  _ ← close_socket (Clients.sock_ r.1);
  mret r.2.

Definition total_published : var := lit "total_published".

Definition MultiPublisher_thread (i : Z) : program unit :=
  pub ← new_BinaryPublisher host port;
  let payload := lit "benchmark_message_" ++ to_string i in
  pub ← ITree.iter (λ pub,
          go_on ← load running;
          if go_on =? 0 then mret (inr pub)
          else
            pub ← BinaryPublisher_send pub (lit "bench/multi") payload;
            _ ← call (Increment total_published);
            mret (inl pub)) pub;
  close_socket (Clients.sock_ pub).

(** [publishers], [total_msgs] *)
Definition BM_MultiPublisher_Throughput (num_publishers : nat) : program (Z * Z) :=
  _ ← store total_published 0;
  _ ← store running 1;
  threads ← loop_with (count_from 0 num_publishers) (λ ts i, t ← call (Spawn 2 [i]); mret (ts ++ [t])) [];
  _ ← sleep 1000;
  _ ← store running 0;
  _ ← each threads (λ t, call (Join t));
  total ← load total_published;
  mret (Z.of_nat num_publishers, total).

(** The subscriber threads of the last two benchmarks. *)
Definition counting_thread (client_id topic : bytes) (counter : var) : program unit :=
  sub ← new_BinarySubscriber_id client_id host port;
  sub ← BinarySubscriber_subscribe sub topic (λ _ _, _ ← call (Increment counter); mret tt) true;
  _ ← while (c ← load running; mret (negb (c =? 0))) (sleep 10);
  close_socket (Clients.s_sock sub).

(** [received] and the numerator of [loss_rate]. *)
Definition BM_SingleSubscriber_Throughput (iterations : nat) : program (Z * Z) :=
  _ ← store received_count 0;
  _ ← store running 1;
  sub_thread ← call (Spawn 3 []);
  _ ← sleep 100;
  pub ← new_BinaryPublisher host port;
  pub ← loop_with (seq 0 iterations) (λ pub _,
          BinaryPublisher_send pub (lit "bench/sub_throughput") (lit "test_message")) pub;
  _ ← sleep 100;
  _ ← store running 0;
  _ ← call (Join sub_thread);
  received ← load received_count;
  _ ← close_socket (Clients.sock_ pub);
  mret (received, Z.of_nat iterations - received).

Definition total_received : var := lit "total_received".

(** [expected_total] and [actual_total]. *)
Definition BM_FanOut_Throughput (num_subscribers iterations : nat) : program (Z * Z) :=
  _ ← store total_received 0;
  _ ← store running 1;
  threads ← loop_with (count_from 0 num_subscribers) (λ ts i, t ← call (Spawn 4 [i]); mret (ts ++ [t])) [];
  _ ← sleep 200;
  pub ← new_BinaryPublisher host port;
  r ← loop_with (seq 0 iterations) (λ r _,
        pub ← BinaryPublisher_send r.1 (lit "bench/fanout") (lit "message");
        mret (pub, r.2 + 1)) (pub, 0);
  _ ← sleep 100;
  _ ← store running 0;
  _ ← each threads (λ t, call (Join t));
  actual ← load total_received;
  _ ← close_socket (Clients.sock_ r.1);
  mret (r.2 * Z.of_nat num_subscribers, actual).

(** The lambdas by number. *)
Definition lambdas : text := λ body captured,
  match body, captured with
  | 1%nat, [max_iterations] => EndToEnd_thread max_iterations
  | 2%nat, [i] => MultiPublisher_thread i
  | 3%nat, [] => counting_thread (lit "bench_subscriber") (lit "bench/sub_throughput") received_count
  | 4%nat, [i] => counting_thread (lit "bench_sub_" ++ to_string i) (lit "bench/fanout") total_received
  | _, _ => mret tt
  end.

(** *** [throughput.cpp] *)

Definition DEFAULT_COUNT : Z := 100000.
Definition DEFAULT_PAYLOAD : Z := 256.

(** [try { v = std::stoull(arg); } catch (...) {}] *)
Definition argument (arg : option bytes) (otherwise : Z) : Z := default otherwise (arg ≫= stoull).

(** [argv[1]] and [argv[2]], when there; the time of the timed sends. The four
    lines of floating-point results are left out. *)
(** The lines after the measurement of [elapsed] nanoseconds. A conversion to
    [uint64_t] that is undefined, of an infinite rate, gives [undefined]. *)
Definition throughput_results (undefined count payload elapsed : Z) : program unit :=
  let elapsed_s := divide (double elapsed) (double (10 ^ 9)) in
  let msg_per_s := divide (double count) elapsed_s in
  let mb_per_s := divide (divide (times (double count) (double payload)) elapsed_s)
                    (times (double 1024) (double 1024)) in
  let us_per_msg := divide (times elapsed_s (double (10 ^ 6))) (double count) in
  _ ← print (ln "Results:");
  _ ← print (lit "  Elapsed       : " ++ general elapsed_s ++ ln " s");
  _ ← print (lit "  Throughput    : " ++ to_string (default undefined (to_uint64 msg_per_s)) ++ ln " msg/s");
  _ ← print (lit "  Bandwidth     : " ++ general mb_per_s ++ ln " MB/s");
  print (lit "  Avg latency   : " ++ general us_per_msg ++ ln " us/msg").

Definition throughput (undefined : Z) (arg1 arg2 : option bytes) : program unit :=
  let count := argument arg1 DEFAULT_COUNT in
  let payload := argument arg2 DEFAULT_PAYLOAD in
  let topic := lit "bench/throughput" in
  let msg := replicate (Z.to_nat payload) (char_of 120) in
  _ ← print (ln "MetricMQ Throughput Benchmark");
  _ ← print (lit "  Messages : " ++ to_string count ++ [char_of 10]);
  _ ← print (lit "  Payload  : " ++ to_string payload ++ ln " bytes");
  _ ← print (lit "  Topic    : " ++ topic ++ [char_of 10; char_of 10]);
  pub ← new_Publisher host port;
  _ ← each (count_from 0 (Z.to_nat 1000)) (λ _, Publisher_send pub topic msg);
  t0 ← call Now;
  _ ← ITree.iter (λ i, if i <? count then _ ← Publisher_send pub topic msg; mret (inl (i + 1)) else mret (inr tt)) 0;
  t1 ← call Now;
  _ ← throughput_results undefined count payload (t1 - t0);
  close_socket pub.

(** *** [protocol_benchmark.cpp] *)

Definition benchmarkThroughput (protocol : bytes) (num_messages : Z) (payload_size : nat)
    : program Sizes.BenchmarkResult :=
  let topic := lit "benchmark" in
  let payload := replicate payload_size (char_of 88) in
  _ ← print (lit "Benchmarking " ++ protocol ++ lit " throughput (" ++ to_string num_messages ++ lit " messages, " ++
             to_string (Z.of_nat payload_size) ++ ln "B payload)...");
  start ← call Now;
  _ ← (if bool_decide (protocol = lit "RESP") then
         pub ← new_Publisher host port;
         _ ← each (count_from 0 (Z.to_nat num_messages)) (λ _, Publisher_send pub topic payload);
         close_socket pub
       else
         pub ← new_BinaryPublisher host port;
         pub ← loop_with (count_from 0 (Z.to_nat num_messages)) (λ pub _, BinaryPublisher_send pub topic payload) pub;
         close_socket (Clients.sock_ pub));
  stop ← call Now;
  let duration_us := Z.quot (stop - start) 1000 in
  let avg_latency := divide (double duration_us) (double num_messages) in
  let throughput := divide (times (double num_messages) (double 1000000)) (double duration_us) in
  let wire_size := if bool_decide (protocol = lit "RESP") then Sizes.calculateRespSize topic payload
                   else Sizes.calculateBinarySize topic payload in
  mret (Sizes.mkResult protocol num_messages payload_size avg_latency throughput wire_size).

(** [%-ws] and [%ws] *)
Definition left_aligned (width : nat) (s : bytes) : bytes := s ++ replicate (width - length s) (char_of 32).
Definition right_aligned (width : nat) (s : bytes) : bytes := replicate (width - length s) (char_of 32) ++ s.

(** One row of the table. *)
Definition row (r : Sizes.BenchmarkResult) : bytes :=
  left_aligned 12 (Sizes.protocol_name r) ++ lit " | " ++
  right_aligned 5 (to_string (Sizes.message_count r)) ++ lit " | " ++
  right_aligned 4 (to_string (Z.of_nat (Sizes.payload_size r))) ++ lit "B   | " ++
  right_aligned 12 (fixed 2 (Sizes.avg_latency_us r)) ++ lit " | " ++
  right_aligned 18 (fixed 0 (Sizes.throughput_msg_per_sec r)) ++ lit " | " ++
  to_string (Sizes.wire_size_bytes r) ++ [char_of 10].

Definition printResults (results : list Sizes.BenchmarkResult) : program unit :=
  _ ← print ([char_of 10] ++ ln "=== Protocol Benchmark Results ===" ++ [char_of 10]);
  _ ← print (ln "Protocol     | Msgs  | Payload | Latency (μs) | Throughput (msg/s) | Wire Size (bytes)");
  _ ← print (ln "------------ | ----- | ------- | ------------ | ------------------ | -----------------");
  _ ← each results (λ r, print (row r));
  print [char_of 10].

(** The comparison of sizes, one line per payload. *)
Definition payload_sizes : list nat := [0; 8; 16; 32; 64; 128; 256; 512; 1024]%nat.

Definition size_line (size : nat) : bytes :=
  let resp_size := Sizes.wire_size_bytes (Sizes.benchmarkMessageSize (lit "RESP") size) in
  let binary_size := Sizes.wire_size_bytes (Sizes.benchmarkMessageSize (lit "Binary") size) in
  let overhead_percent := times (minus (divide (double resp_size) (double binary_size)) (double 1)) (double 100) in
  lit "Payload: " ++ to_string (Z.of_nat size) ++ lit "B -> RESP: " ++ to_string resp_size ++
  lit "B, Binary: " ++ to_string binary_size ++ lit "B (+" ++ general overhead_percent ++ ln "% overhead)".

(** The [try] block of [main]; nothing it calls throws. *)
Definition throughput_comparison : program (list Sizes.BenchmarkResult) :=
  r1 ← benchmarkThroughput (lit "RESP") 10000 64;
  _ ← sleep 100;
  r2 ← benchmarkThroughput (lit "Binary") 10000 64;
  _ ← sleep 100;
  r3 ← benchmarkThroughput (lit "RESP") 1000 (Z.to_nat 1024);
  _ ← sleep 100;
  r4 ← benchmarkThroughput (lit "Binary") 1000 (Z.to_nat 1024);
  mret [r1; r2; r3; r4].

(** [results[0]] and [results[1]] exist. *)
Definition summary (results : list Sizes.BenchmarkResult) : program unit :=
  match results with
  | resp_64 :: binary_64 :: _ =>
      let speedup := divide (Sizes.throughput_msg_per_sec binary_64) (Sizes.throughput_msg_per_sec resp_64) in
      _ ← print (ln "=== Summary ===");
      _ ← print (lit "Binary protocol is " ++ general speedup ++ ln "x faster for 64B messages");
      print (lit "Binary protocol reduces wire size by ~" ++
        general (times (minus (double 1) (divide (double (Sizes.wire_size_bytes binary_64))
                                                  (double (Sizes.wire_size_bytes resp_64)))) (double 100)) ++ ln "%")
  | _ => mret tt
  end.

Definition protocol_benchmark : program unit :=
  _ ← print (ln "=== MetricMQ Protocol Benchmark ===");
  _ ← print (ln "Comparing RESP vs Binary Protocol" ++ [char_of 10]);
  _ ← print (ln "--- Message Size Analysis ---");
  _ ← each payload_sizes (λ size, print (size_line size));
  _ ← print ([char_of 10] ++ ln "--- Throughput Benchmarks ---");
  _ ← print (ln "NOTE: Broker must be running on port 6379");
  _ ← print (ln "Press Enter to start benchmarks (or Ctrl+C to skip)...");
  _ ← getchar;
  _ ← sleep 500;
  results ← throughput_comparison;
  _ ← printResults results;
  summary results.

(** The comparison the program prints for its nine payloads. *)
Example size_lines : concat (size_line <$> take 3 payload_sizes) =
  ln "Payload: 0B -> RESP: 38B, Binary: 25B (+52% overhead)" ++
  ln "Payload: 8B -> RESP: 46B, Binary: 33B (+39.3939% overhead)" ++
  ln "Payload: 16B -> RESP: 55B, Binary: 41B (+34.1463% overhead)".
Proof. vm_compute. reflexivity. Qed.

(** ** What the latency benchmarks cannot measure *)

(** The value of a variable. *)
Definition var_of (m : gmap var Z) (v : var) : Z := default 0 (m !! v).

Section measured.
Context `{LmdbLaws env txn} `{HashOrder} `{Sodium}.
Implicit Types w : world env.
(** The variable that the callback counts in. *)
Context (v : var) (ends : status → Prop).

(** Nothing is counted, and no empty text is printed. *)
Definition uncounted w : Prop := value w v = 0 ∧ Late.printable [] (console w).

(** *** A thread that counts nothing *)

Section idle.
Context (guarantee : role → world env → world env → Prop) (ρ : role) (G : gmap var Z → Prop).
Abbreviation rg := (rg (env := env) ends guarantee uncounted ρ).
Abbreviation idle := (λ w : world env, G (vars w)).
Context (idle_stab : stab guarantee uncounted ρ idle).
Context (idle_steps : ∀ w w', G (vars w) → vars w' = vars w → guarantee ρ w w').

Definition harmless {A} (e : callE A) : bool :=
  reads e && match e with Print t => bool_decide (t ≠ []) | _ => true end.

Lemma harmless_call {A} n (e : callE A) : harmless e = true → rg n idle (call e) (λ _, idle).
Proof.
  intros [He Ht]%andb_true_iff. apply rg_call; [by destruct e|done|]. intros ans w w' a [Hv Hp] HG E.
  pose proof (reads_vars ans e w w' a He E) as Ev. split; [|by rewrite Ev; auto]. split; [unfold value; by rewrite Ev|].
  destruct e; try done; cbn [handle] in E; repeat case_match; simplify_eq; try done.
  apply Late.printable_app; [|done]. by apply bool_decide_eq_true in Ht.
Qed.

Lemma idle_bind {A B} n (t : program A) (k : A → program B) Q :
  rg n idle t (λ _, idle) → (∀ r, rg n idle (k r) Q) → rg n idle (t ≫= k) Q.
Proof. apply rg_bind. Qed.

Lemma idle_send n pub t payload : rg n idle (BinaryPublisher_send pub t payload) (λ _, idle).
Proof.
  unfold BinaryPublisher_send. destruct (Clients.sock_ pub =? -1).
  { apply idle_bind; [by apply harmless_call|]. intros ?. by apply rg_ret. }
  apply idle_bind; [by apply harmless_call|]. intros ?. apply idle_bind; [|intros ?; by apply rg_ret].
  apply idle_bind; [by apply harmless_call|]. intros reply.
  destruct (Clients.read_reply_total reply) as [parsed ->]. by apply rg_ret.
Qed.

Lemma idle_close n sock : rg n idle (close_socket sock) (λ _, idle).
Proof. unfold close_socket. destruct (sock =? -1); [by apply rg_ret|by apply harmless_call]. Qed.

Lemma idle_publisher n : rg n idle (new_BinaryPublisher host port) (λ _, idle).
Proof.
  apply idle_bind; [|intros ?; by apply rg_ret]. apply rg_open; [|by apply harmless_call].
  intros A e He. apply harmless_call. by destruct e.
Qed.

(** A loop that waits for a condition on a variable. *)
Lemma idle_while n x (go_on : Z → bool) ms :
  rg n idle (while (c ← load x; mret (go_on c)) (sleep ms)) (λ _, idle).
Proof.
  apply (rg_iter _ _ _ _ _ (λ _, idle)). intros n' []. apply idle_bind.
  { apply idle_bind; [by apply harmless_call|]. intros ?. by apply rg_ret. }
  intros []; [|by apply rg_ret]. apply idle_bind; [by apply harmless_call|]. intros ?. by apply rg_ret.
Qed.

(** The counter does not move. *)
Lemma idle_load n : rg n idle (load v) (λ c w, c = 0 ∧ G (vars w)).
Proof.
  apply rg_call; [done| |].
  { intros c. destruct idle_stab as [Hb Ho]. split; intros; destruct_and!; (split; [done|]); eauto. }
  intros ans w w' a Hi HG [= <- <-]. split; [done|]. split; [by apply idle_steps|]. split; [apply Hi|done].
Qed.

Lemma never_changes n : rg n idle (await_change v) (λ _ _, False).
Proof.
  eapply rg_bind; [apply idle_load|]. intros initial.
  destruct (decide (initial = 0)) as [->|]; [|apply rg_absurd; by intros w _ []].
  apply (rg_pre _ _ _ _ _ idle); [by intros w _ []|]. apply (rg_iter _ _ _ _ _ (λ _, idle)). intros n' [].
  apply (rg_bind _ _ _ _ _ _ _ _ (λ (more : bool) w, more = true ∧ G (vars w))).
  - eapply rg_bind; [apply idle_load|]. intros c. apply rg_ret. by intros w _ [-> ?].
  - intros []; [|apply rg_absurd; by intros w _ []]. eapply rg_pre; [|eapply idle_bind; [by apply harmless_call|]]; [by intros w _ []|].
    intros ?. by apply rg_ret.
Qed.

(** What both benchmarks do when they believe they are connected. *)
Lemma never_measures {A} n iterations t payload (k : Clients.BinaryPublisher → program A) Q :
  (0 < iterations)%nat →
  rg n idle (_ ← sleep 100;
             pub ← new_BinaryPublisher host port;
             pub ← timed iterations (λ pub,
                   pub ← BinaryPublisher_send pub t payload; _ ← await_change v; mret pub) pub;
             k pub) Q.
Proof.
  intros Hit. apply idle_bind; [by apply harmless_call|]. intros ?. apply idle_bind; [apply idle_publisher|].
  intros pub. apply (rg_bind _ _ _ _ _ _ _ _ (λ _ _, False)); [|intros ?; apply rg_absurd; tauto].
  destruct iterations as [|m]; [lia|]. unfold timed. cbn [seq loop_with].
  apply (rg_bind _ _ _ _ _ _ _ _ (λ _ _, False)); [|intros ?; apply rg_absurd; tauto].
  apply idle_bind; [by apply harmless_call|]. intros ?.
  apply (rg_bind _ _ _ _ _ _ _ _ (λ _ _, False)); [|intros ?; apply rg_absurd; tauto].
  apply idle_bind; [apply idle_send|]. intros ?. eapply rg_bind; [apply never_changes|].
  intros ?. apply rg_absurd. tauto.
Qed.
End idle.

(** *** A thread that subscribes while the other one waits *)

Section subscriber.
Context (stored : bytes → Prop) (T c : bytes) (callback : bytes → bytes → program unit).
Context (T_stored : stored T) (T_plain : Storage.NUL ∉ T) (T_prefix : ∀ t r, stored t → T = t ++ r → r = []).
Context (c_plain : Storage.NUL ∉ c) (topic_short : zlen (Clients.subscribe_topic c T) ≤ MAX_TOPIC_LEN).
Context (guarantee : role → world env → world env → Prop) (ρ : role) (K : gmap var Z → Prop).
Context (others_wait : ∀ w w', guarantee (other ρ) w w' → K (vars w) → w' = w).
Context (own_steps : ∀ w w', K (vars w) → vars w' = vars w → guarantee ρ w w').
Context (K_zero : ∀ w, K (vars w) → value w v = 0).

Abbreviation rg := (rg (env := env) ends guarantee uncounted ρ).
Abbreviation resting := (Late.resting (env := env) stored Session.RESP []).
Abbreviation new_conn := (Late.new_conn (env := env) stored Session.RESP []).

Definition client (sock : Z) : Clients.BinarySubscriber := Clients.mkSubscriber sock 0 c true.

Lemma rg_new_subscriber n :
  rg n (λ w, resting w ∧ K (vars w)) (new_BinarySubscriber_id c host port)
    (λ sub w, sub = client (Clients.s_sock sub) ∧ new_conn (Clients.s_sock sub) w ∧ K (vars w)).
Proof.
  pose proof Late.RESP_known. eapply rg_post; [|apply (rg_of_triple _ _ _ _ _ others_wait own_steps (Late.printable []) n resting _
    (λ sub w, sub = client (Clients.s_sock sub) ∧ new_conn (Clients.s_sock sub) w))].
  - intros sub w _ [[? ?] ?]. done.
  - intros w Hp HK. split; [by apply K_zero|done].
  - eapply triple_bind; [eapply Late.triple_open; eauto; intros x; apply Late.triple_print; [|apply Late.new_conn_blind|done]|].
    + eapply Late.new_conn_stable; eauto.
    + intros sock. by apply triple_ret.
  - intros m. apply no_writes_bind; [|intros ?; apply no_writes_ret]. by apply no_writes_open, no_writes_call.
Qed.

Abbreviation request := (serialize (frame_subscribe (Clients.subscribe_topic c T) 1)).
Abbreviation answer := (serialize (frame_ack 1)).
Abbreviation listening_inv x := (Late.Inv (env := env) stored Session.RESP [] x request answer v).

Lemma rg_subscribed n sub :
  rg n (λ w, sub = client (Clients.s_sock sub) ∧ new_conn (Clients.s_sock sub) w ∧ K (vars w))
    (BinarySubscriber_subscribe sub T callback true) (λ _ w, K (vars w)).
Proof.
  pose proof Late.RESP_known as Hknown. destruct (decide (sub = client (Clients.s_sock sub))) as [E|]; [|apply rg_absurd; by intros w _ []].
  set (x := Clients.s_sock sub) in *. clearbody x. subst sub.
  pose proof (Late.request_subscribes T stored T_plain T_prefix Session.RESP c eq_refl topic_short c_plain) as Hq.
  eapply rg_pre; [|eapply rg_post; [|eapply (rg_framed _ _ _ _ K others_wait own_steps _ (listening_inv x)); [| | |
    apply (Late.rg_BinarySubscriber_subscribe T stored Session.RESP [] x request answer v ρ)]]]; try done.
  - intros w _ (_ & Hn & HK). destruct (Late.ready_starts stored Session.RESP [] x request answer v w) as [Hi Hu]; [split; auto|].
    split; [exact Hi|]. split; [exact Hu|exact HK].
  - by intros r w _ [_ ?].
  - intros w (_ & ? & _) HK. split; auto.
  - eapply Late.Inv_stable; eauto. by eapply Late.request_short.
  - by intros w w' [? _].
  - apply Late.answer_short.
  - cbn [Clients.client_id_ client]. repeat (apply not_elem_of_cons; split; [done|]). apply not_elem_of_nil.
Qed.
End subscriber.
End measured.

(** *** [BM_AckLatency] *)

Lemma uncounted_stable `{LmdbOps env txn} `{HashOrder} `{Sodium} v l (w w' : world env) :
  broker_step l w = Some w' → uncounted v w → uncounted v w'.
Proof.
  intros E [Hv Hpr]. destruct (broker_step_client l w w' E) as [Ec Ev]. unfold uncounted, value. by rewrite Ec, Ev.
Qed.

Section ack_latency.
Context `{LmdbLaws env txn} `{HashOrder} `{Sodium}.
Abbreviation T := (lit "bench/ack").
Context (stored : bytes → Prop) (T_stored : stored T) (T_prefix : ∀ t r, stored t → T = t ++ r → r = []).
Abbreviation resting_with := (Late.resting_with (env := env) stored Session.RESP []).

(** There is one thread. *)
Definition alone (ρ : role) (w w' : world env) : Prop := ρ = Main.
Definition zero (m : gmap var Z) : Prop := var_of m ack_count = 0.

Lemma ack_plain : Storage.NUL ∉ T.
Proof. by apply (bool_decide_unpack _). Qed.

Lemma ack_never w iterations :
  (0 < iterations)%nat → resting_with zero w →
  thread_ok (λ _, False) alone (uncounted ack_count) Main (AckLatency_body iterations) w.
Proof.
  intros Hit Hw n. pose proof ack_plain. exists (resting_with zero). split; [|split; [done|]].
  - split; [|by intros w1 w2 ?]. intros l w1 w2 E _. by eapply (proj1 (Late.resting_with_stable T stored T_stored
      ack_plain T_prefix Session.RESP Late.RESP_known [] zero)).
  - eapply rg_bind; [by apply (rg_new_subscriber ack_count _ stored T (lit "bench_ack"))|]. intros sub.
    eapply rg_bind; [apply (rg_subscribed ack_count _ stored T (lit "bench_ack")); try done; by apply (bool_decide_unpack _)|].
    intros sub'. eapply rg_pre; [|by apply (never_measures ack_count _ alone Main (λ _, True))]. done.
Qed.

(** [BM_AckLatency] never measures anything: its [subscribe] blocks while it
    is connected, and when it has returned nobody is left to count the message
    the benchmark then publishes. Under every schedule, with at least one
    iteration, the benchmark goes on forever, unless SIGPIPE ends it. *)
Theorem ack_latency_never_ends (w : world env) iterations p :
  (0 < iterations)%nat → Late.resting stored Session.RESP [] w →
  reaches lambdas w (BM_AckLatency iterations) p → ended p = Running ∨ ended p = Killed.
Proof.
  intros Hit Hw Hp. pose proof ack_plain.
  destruct (duo_adequate (env := env) (Late.printable []) (λ _, False) lambdas (store ack_count 0) (λ _, None)
    (λ _ _, AckLatency_body iterations) (λ _, alone) (λ _, uncounted ack_count) (λ _, resting_with zero))
    with (w := w) (P := resting_with (λ _, True)) (p := p) as [_ [?|[?|[]]]]; try solve [done | auto].
  - intros _. apply uncounted_stable.
  - by intros _ w' [_ ?].
  - intros _ w' Hr. split; [split; apply Hr|]. by apply ack_never.
  - by eapply Late.resting_with_stable; eauto.
  - eapply Late.triple_store_with; eauto. intros m _. unfold zero, var_of. by rewrite lookup_insert_eq.
Qed.
End ack_latency.

(** *** [BM_EndToEndLatency] *)

Section end_to_end.
Context `{LmdbLaws env txn} `{HashOrder} `{Sodium}.
Abbreviation T2 := (lit "bench/e2e").
Context (stored : bytes → Prop) (T_stored : stored T2) (T_prefix : ∀ t r, stored t → T2 = t ++ r → r = []).
Abbreviation resting_with := (Late.resting_with (env := env) stored Session.RESP []).

(** [main] does nothing before the variable is set, and nobody resets it. *)
Definition takes_turns (ρ : role) (w w' : world env) : Prop :=
  (value w ready ≠ 0 → value w' ready ≠ 0) ∧ (ρ = Main → value w ready = 0 → w' = w).
Definition not_ready (m : gmap var Z) : Prop := var_of m received_count = 0 ∧ var_of m ready = 0.
Definition is_ready (m : gmap var Z) : Prop := var_of m ready ≠ 0.

Abbreviation rg := (rg (env := env) (λ _, False) takes_turns (uncounted received_count)).

Lemma e2e_plain : Storage.NUL ∉ T2.
Proof. by apply (bool_decide_unpack _). Qed.

Lemma is_ready_stab ρ : stab takes_turns (uncounted received_count) ρ (λ w : world env, is_ready (vars w)).
Proof.
  split; [|by intros w w' [Hg _] _ _; apply Hg].
  intros l w w' E _. by rewrite (proj2 (broker_step_client l w w' E)).
Qed.

Lemma is_ready_steps ρ (w w' : world env) : is_ready (vars w) → vars w' = vars w → takes_turns ρ w w'.
Proof. intros Hr Ev. unfold takes_turns, value. rewrite Ev. split; [done|]. by intros _ E%Hr. Qed.

Lemma not_ready_stab : stab takes_turns (uncounted received_count) Child (resting_with not_ready).
Proof.
  pose proof e2e_plain. split.
  - intros l w w' E _. by eapply (proj1 (Late.resting_with_stable T2 stored T_stored e2e_plain T_prefix Session.RESP Late.RESP_known
      [] not_ready)).
  - intros w w' [_ Hg] _ _ [Hr [Hc Hz]]. by rewrite (Hg eq_refl Hz).
Qed.

(** The subscriber's thread: by the time it says that it is ready, its
    connection is gone. *)
Lemma subscriber_thread n max_iterations :
  rg Child n (resting_with not_ready) (EndToEnd_thread max_iterations) (λ _ _, True).
Proof.
  pose proof e2e_plain.
  assert (Hwait : ∀ w w' : world env, takes_turns (other Child) w w' → not_ready (vars w) → w' = w)
    by (intros w w' [_ Hg] [_ ?]; by apply Hg).
  assert (Hown : ∀ w w' : world env, not_ready (vars w) → vars w' = vars w → takes_turns Child w w')
    by (intros w w' [_ Hz] Ev; unfold takes_turns, value; rewrite Ev; split; done).
  assert (Hzero : ∀ w : world env, not_ready (vars w) → value w received_count = 0) by by intros w [? _].
  assert (Hc : Storage.NUL ∉ lit "bench_subscriber") by by apply (bool_decide_unpack _).
  eapply rg_bind; [by eapply (rg_new_subscriber received_count _ stored T2 (lit "bench_subscriber")); eauto|]. intros sub.
  eapply rg_bind; [by eapply (rg_subscribed received_count _ stored T2 (lit "bench_subscriber")); eauto|]. intros sub'.
  pose proof (is_ready_stab Child) as Hst. pose proof (is_ready_steps Child) as Hsteps.
  apply (rg_bind _ _ _ _ _ _ _ _ (λ _ w, is_ready (vars w))).
  - apply rg_call; [done|done|]. intros ans w w' a [Hv Hp] [Hcount Hr] [= <- _]. split; [|split; [|unfold is_ready, var_of; cbn; by rewrite lookup_insert_eq]].
    + split; [|done]. unfold value. cbn. by rewrite lookup_insert_ne.
    + split; [done|]. by intros ?.
  - intros ?. apply (idle_bind received_count _ takes_turns Child is_ready); [by apply idle_while|].
    intros ?. eapply rg_post; [|by apply idle_close]. done.
Qed.

Lemma waits_for_ready n :
  rg Main n (λ _, True) (while (c ← load ready; mret (c =? 0)) (sleep 10)) (λ _ w, is_ready (vars w)).
Proof.
  apply (rg_iter _ _ _ _ _ (λ _ _, True)). intros n' [].
  apply (rg_bind _ _ _ _ _ _ _ _ (λ (more : bool) w, more = false → is_ready (vars w))).
  - apply (rg_bind _ _ _ _ _ _ _ _ (λ c w, c ≠ 0 → is_ready (vars w))).
    + apply rg_call; [done| |].
      * intros c. destruct (is_ready_stab Main) as [Hb Ho]. split; intros; eauto.
      * intros ans w w' a Hi _ [= <- <-]. split; [done|]. split; [split; done|done].
    + intros c. apply rg_ret. intros w _ Hc Hz. apply Hc. by apply Z.eqb_neq.
  - intros [|]; [|apply rg_ret; auto]. apply (rg_pre _ _ _ _ _ (λ _, True)); [done|].
    eapply (rg_bind _ _ _ _ _ _ _ _ (λ _ _, True)); [|intros ?; by apply rg_ret].
    apply rg_call; [done|done|]. intros ans w w' a Hi _ [= <- _]. split; [done|]. split; [split; done|done].
Qed.

(** [BM_EndToEndLatency] never measures anything: the subscriber's thread sets
    [ready] only after its blocking [subscribe] has returned, that is, when the
    connection is gone, and [main], which waits for it, then publishes to nobody
    and waits for a message forever, unless SIGPIPE ends it. *)
Theorem end_to_end_never_ends (w : world env) iterations p :
  (0 < iterations)%nat → Late.resting stored Session.RESP [] w →
  reaches lambdas w (BM_EndToEndLatency iterations) p → ended p = Running ∨ ended p = Killed.
Proof.
  intros Hit Hw Hp. pose proof e2e_plain.
  destruct (duo_adequate (env := env) (Late.printable []) (λ _, False) lambdas EndToEnd_start
    (λ _, Some (1%nat, [Z.of_nat iterations])) (λ _ j, EndToEnd_measure iterations j)
    (λ _, takes_turns) (λ _, uncounted received_count) (λ _, resting_with not_ready))
    with (w := w) (P := resting_with (λ _, True)) (p := p) as [_ [?|[?|[]]]]; try solve [done | auto].
  - intros _. apply uncounted_stable.
  - by intros _ w' [_ ?].
  - intros _ w' [Hr [Hc Hz]]. split; [split; [done|apply Hr]|]. split; intros n.
    + exists (resting_with not_ready). split; [apply not_ready_stab|]. split; [done|]. eapply rg_post; [|apply subscriber_thread]. done.
    + exists (λ _, True). split; [done|]. split; [done|]. eapply rg_bind; [apply waits_for_ready|]. intros ?.
      apply (never_measures received_count _ takes_turns Main is_ready); [apply is_ready_stab|apply is_ready_steps|done].
  - by eapply Late.resting_with_stable; eauto.
  - eapply (triple_bind _ _ _ _ (λ _, resting_with (λ m, var_of m received_count = 0))).
    + eapply Late.triple_store_with; eauto. intros m _. unfold var_of. by rewrite lookup_insert_eq.
    + intros ?. eapply Late.triple_store_with; eauto. intros m Hm. unfold not_ready, var_of.
      rewrite lookup_insert_eq, lookup_insert_ne by done. done.
Qed.
End end_to_end.

(** ** Witness *)

#[local] Existing Instance Broker.ElementsOrder.
#[local] Existing Instance ToySodium.

(** A benchmark that has come to rest, and what it does when the broker has
    closed its silent subscription, the connection 3. *)
Definition blocked (benchmark : program unit) : process MemLmdb := run lambdas 100 benchmark.
Definition unblocked (benchmark : program unit) : process MemLmdb :=
  eager lambdas 300 (default (blocked benchmark) (step lambdas (Timeout 3 (10 ^ 9)) (blocked benchmark))).

Lemma unblocked_reached benchmark : reaches lambdas fresh_world benchmark (unblocked benchmark).
Proof.
  apply eager_reaches. destruct (step _ _ (blocked benchmark)) as [p|] eqn:E; [|apply run_reached].
  eapply reaches_step; [|exact E]. apply run_reached.
Qed.

Definition publishing : bytes := ln "BinaryPublisher: CONNECTED (binary protocol)".

Lemma ack_latency_never_ends_witness :
  let p := unblocked (BM_AckLatency 100) in last (console (here p)) = Some publishing ∧ (ended p = Running ∨ ended p = Killed).
Proof.
  split; [vm_compute; reflexivity|].
  apply (ack_latency_never_ends (eq (lit "bench/ack")) eq_refl (Late.eq_prefix _) fresh_world 100).
  - lia.
  - apply Late.fresh_resting.
  - apply unblocked_reached.
Defined.

Lemma end_to_end_never_ends_witness :
  let p := unblocked (BM_EndToEndLatency 100) in value (here p) ready = 1 ∧ (ended p = Running ∨ ended p = Killed).
Proof.
  split; [vm_compute; reflexivity|].
  apply (end_to_end_never_ends (eq (lit "bench/e2e")) eq_refl (Late.eq_prefix _) fresh_world 100).
  - lia.
  - apply Late.fresh_resting.
  - apply unblocked_reached.
Defined.

(** Publishing without a subscriber works. *)
Example publish_latency_ends : ended (run lambdas 200 (BM_PublishLatency_NoSubscribers 10 5)) = Exited 0.
Proof. vm_compute. reflexivity. Qed.

End Latency.
