(* ===== verification/EndToEnd.v ===== *)
(** * EndToEnd: from a publisher's call to a subscriber's callback

    The client library, the session and the broker put together: what a
    publishing method writes to its socket is what the session of that socket
    receives, and what the broker has sent to another session is what the
    client at its other end reads. *)

From S2P Require Import Prelude Text BinaryProtocol RespParser Lmdb Storage Signing Keystore Metrics Broker Session Clients.

Module EndToEnd.

Section delivery.
Context `{LmdbLaws env txn} `{HashOrder} `{Sodium}.
Implicit Types s : Session.State env.

(** All that has been sent to session [x]. *)
Definition stream s (x : Broker.sid) : list bytes := Broker.sent (Broker.outbox (Session.broker s)) x.

(** The session is between frames of a binary connection. *)
Definition between_frames s : Prop :=
  Session.sess_inv s ∧ Session.recv_buffer_ (Session.me s) = [] ∧
  Session.protocol_type_ (Session.me s) ≠ Session.RESP.

(** How often a publish on [t] is sent to [x]: once for the topic and once for
    ["#"]. *)
Definition copies s (x : Broker.sid) (t : bytes) : nat :=
  (if bool_decide (x ∈ Broker.subscribers (Session.broker s) t) then 1 else 0) +
  (if bool_decide (x ∈ Broker.subscribers (Session.broker s) (lit "#")) then 1 else 0).

(** What was sent to [x] are the frames [prev]. *)
Definition carries s (x : Broker.sid) (prev : list BinaryFrame) : Prop :=
  stream s x = serialize <$> prev ∧ Forall (λ f, frame_wf f = true) prev.

Lemma copies_deliveries s x t d n :
  x ≠ Session.self (Session.me s) → Session.deliveries s t d n x = replicate (copies s x t) d.
Proof.
  intros Hx. unfold Session.deliveries, copies. rewrite (bool_decide_false (x = _)) by done.
  by do 2 case_bool_decide.
Qed.

Lemma copies_resp_deliveries s x t d :
  x ≠ Session.self (Session.me s) → Session.resp_deliveries s t d x = replicate (copies s x t) d.
Proof.
  intros Hx. unfold Session.resp_deliveries, copies. rewrite (bool_decide_false (x = _)) by done.
  by do 2 case_bool_decide.
Qed.


Lemma concat_replicate_one {A} (a : A) n : concat (replicate n [a]) = replicate n a.
Proof. induction n as [|n IH]; [done|]. cbn. by rewrite IH. Qed.




(** One frame received by a session between frames: the handler runs on the
    state in which only the session's clock and protocol have moved. *)
Lemma frame_received now clk f s :
  between_frames s → frame_wf f = true → zlen (serialize f) ≤ Session.MAX_RECV_BUFFER →
  ∃ s0, Session.on_data now (λ _, clk) (serialize f) s = (fst (Session.handleBinaryFrame clk f s0), Ret true) ∧
    Session.sess_inv s0 ∧ Session.broker s0 = Session.broker s ∧ Session.keystore s0 = Session.keystore s ∧
    Session.self (Session.me s0) = Session.self (Session.me s) ∧
    Session.sequence_ (Session.me s0) = Session.sequence_ (Session.me s).
Proof.
  intros (Hi & Hb & Hp) Hf Hl. eexists. split; [by apply Session.on_data_frame|].
  split; [exact Hi|done].
Qed.

Lemma deliveries_same s s0 t d n x :
  Session.broker s0 = Session.broker s → Session.self (Session.me s0) = Session.self (Session.me s) →
  Session.deliveries s0 t d n x = Session.deliveries s t d n x.
Proof. unfold Session.deliveries. by intros -> ->. Qed.

Lemma frame_publish_wf t d n :
  zlen t ≤ MAX_TOPIC_LEN → zlen d ≤ MAX_PAYLOAD_LEN → frame_wf (frame_publish t d (u64 n)) = true.
Proof. intros. apply frame_wf_spec. pose proof (u64_range n). by split. Qed.

Lemma frame_message_wf t d n :
  zlen t ≤ MAX_TOPIC_LEN → zlen d ≤ MAX_PAYLOAD_LEN → frame_wf (frame_message t d (u64 n)) = true.
Proof. intros. apply frame_wf_spec. pose proof (u64_range n). by split. Qed.

(** What a binary PUBLISH makes the broker send, to whom. *)
Lemma binary_published now clk t d n s :
  between_frames s → zlen t ≤ MAX_TOPIC_LEN → 16 + zlen t + zlen d ≤ Session.MAX_RECV_BUFFER →
  starts_with t (lit "secure/") = false →
  let k := u64 (Session.sequence_ (Session.me s) + 1) in
  ∃ s', Session.on_data now (λ _, clk) (serialize (frame_publish t d (u64 n))) s = (s', Ret true) ∧
    ∀ x, stream s' x = stream s x ++ Session.deliveries s t (serialize (frame_message t d k)) (u64 n) x.
Proof.
  intros Hb Ht Hd Hsec k. set (f := frame_publish t d (u64 n)).
  assert (Hpl : zlen d ≤ MAX_PAYLOAD_LEN) by (unfold MAX_PAYLOAD_LEN, Session.MAX_RECV_BUFFER in *; lia).
  assert (Hf : frame_wf f = true) by by apply frame_publish_wf.
  destruct (frame_received now clk f s Hb Hf) as (s0 & E & Hi0 & Hbr & _ & Hme & Hseq).
  { rewrite length_serialize by by apply frame_wf_spec.
    change (16 + zlen t + zlen d + 0 ≤ Session.MAX_RECV_BUFFER). lia. }
  pose proof (Session.binary_publish_delivered clk f s0 Hi0 Hf eq_refl Hsec) as Hdel.
  destruct (Session.handleBinaryFrame clk f s0) as [s' r]. destruct Hdel as (_ & _ & Hsent & _).
  cbn [fst] in E. exists s'. split; [exact E|]. intros x. unfold stream.
  by rewrite Hsent, Hbr, (deliveries_same s), Hseq by done.
Qed.


(** ** Theorems *)



(** The session is between commands of a RESP connection. *)
Definition between_commands s : Prop :=
  Session.sess_inv s ∧ Session.recv_buffer_ (Session.me s) = [] ∧
  Session.protocol_type_ (Session.me s) ≠ Session.BINARY.

(** What was sent to [x] are the RESP values [prev]. *)
Definition carries_values s (x : Broker.sid) (prev : list Resp.RespValue) : Prop :=
  stream s x = Resp.serialize <$> prev ∧ Forall (λ v, Resp.resp_wf v = true) prev.

(** What a RESP [PUBLISH] makes the broker send, to whom. *)
Lemma resp_published now clk t d s :
  between_commands s →
  zlen (Resp.serialize (Resp.makeArray [lit "PUBLISH"; t; d])) ≤ Session.MAX_RECV_BUFFER →
  let m := Resp.makeArray [lit "message"; t; d] in
  ∃ s', Session.on_data now (λ _, clk) (Resp.serialize (Resp.makeArray [lit "PUBLISH"; t; d])) s = (s', Ret true) ∧
    Resp.resp_wf m = true ∧
    ∀ x, stream s' x = stream s x ++ Session.resp_deliveries s t (Resp.serialize m) x.
Proof.
  intros (Hi & Hb & Hp) Hlen m. set (v := Resp.makeArray [lit "PUBLISH"; t; d]) in *.
  assert (Hv : Resp.resp_wf v = true) by (apply Clients.command_wf; exact Hlen).
  pose proof (Session.on_data_value now clk v s Hi Hb Hp Hv Hlen) as E.
  set (s0 := Session.with_buffer [] (Session.staged now (Resp.serialize v) s)) in E.
  pose proof (Session.resp_publish_delivered clk t d s0 Hi) as Hdel. cbv zeta in Hdel. fold v m in Hdel.
  destruct (Session.handleCommand clk v s0) as [s' r]. destruct Hdel as (_ & Hsent & _).
  exists s'. split; [exact E|]. split; [|exact Hsent]. apply Clients.command_wf.
  unfold Session.MAX_RECV_BUFFER, Resp.MAX_BULK_LEN, v in *. rewrite Clients.command_size in *. exact Hlen.
Qed.

(** C11: The same for the text protocol, and on every topic, also under
    ["secure/"]: what [Publisher::send] writes makes the broker relay topic and
    payload to every other session, once if it subscribes to the topic and once
    more if it subscribes to ["#"] (twice, then, on the topic ["#"] itself); a RESP
    client there that was sent well-formed RESP values before calls back with
    exactly them as often; the publisher's session is answered the integer 1. *)
Theorem resp_publish_reaches_callback now clk sock t d s x prev sub_sock :
  between_commands s →
  zlen (Resp.serialize (Resp.makeArray [lit "PUBLISH"; t; d])) ≤ Session.MAX_RECV_BUFFER →
  Clients.connected sock = true → Clients.connected sub_sock = true →
  x ≠ Session.self (Session.me s) → carries_values s x prev →
  ∃ data s',
    Clients.publisher_send sock t d = [Clients.Wrote data] ∧
    Session.on_data now (λ _, clk) data s = (s', Ret true) ∧
    last (stream s' (Session.self (Session.me s))) = Some (Resp.serialize (Resp.integer 1)) ∧
    ∀ packets, concat packets = concat (stream s' x) →
      Clients.subscriber_subscribe sub_sock t packets =
        Ret ([Clients.Wrote (Resp.serialize (Resp.makeArray [lit "SUBSCRIBE"; t]))] ++
             concat (Clients.on_resp <$> prev) ++ replicate (copies s x t) (Clients.Callback t d) ++ [Clients.Closed]).
Proof.
  intros Hb Hlen Hcp Hcs Hx [Hst Hprev].
  destruct (resp_published now clk t d s Hb Hlen) as (s' & E & Hm & Hsent). set (m := Resp.makeArray [lit "message"; t; d]) in *.
  eexists _, s'. split; [unfold Clients.publisher_send; by rewrite Hcp|]. split; [exact E|]. rewrite !Hsent. split.
  - unfold Session.resp_deliveries. rewrite (bool_decide_true (_ = _)) by done. by rewrite !app_assoc, last_snoc.
  - intros packets Hpk. rewrite (Clients.resp_subscriber_stream sub_sock t (prev ++ replicate (copies s x t) m) packets Hcs).
    + rewrite fmap_app, fmap_replicate, concat_app, <-!app_assoc. change (Clients.on_resp m) with [Clients.Callback t d].
      by rewrite concat_replicate_one.
    + apply Forall_app. split; [done|by apply Forall_replicate].
    + by rewrite Hpk, Hst, copies_resp_deliveries, fmap_app, fmap_replicate.
Qed.

(** Neither parser gets anything from bytes that start the other's way. *)
Lemma binary_deaf_to_resp t d rest :
  BinaryProtocol.parse (Resp.serialize (Resp.makeArray [lit "message"; t; d]) ++ rest) = Ret None.
Proof.
  rewrite parse_is_ref. unfold parse_ref, frame_complete. cbn [Resp.makeArray Resp.array Resp.serialize Resp.type app].
  set (l := _ ++ rest). rewrite (proj2 (Z.eqb_neq (field (char_of 42 :: l) 0 1) BINARY_PROTOCOL_VERSION)).
  - by rewrite andb_false_r.
  - unfold field, be_decode. by simpl.
Qed.

Lemma resp_deaf_to_binary f rest : frame_wf f = true → Resp.parse (serialize f ++ rest) = Ret None.
Proof.
  intros Hf%frame_wf_spec%wf_version. rewrite serialize_layout. unfold header. rewrite Hf. done.
Qed.

(** C12: The two protocols do not mix on a topic, or with ["#"]: a message is
    relayed in the publisher's encoding whatever its subscribers speak, and a
    subscriber of the other protocol is deaf from there on. After the RESP
    publish, a binary subscriber that was sent well-formed frames before
    reacts to those and to nothing else, whatever is sent to it later; after a
    binary publish the same happens to a RESP subscriber. *)
Theorem mixed_protocols_deafen now clk t d s x :
  x ≠ Session.self (Session.me s) → (0 < copies s x t)%nat →
  (∀ prev sub auto_ack,
     between_commands s → zlen (Resp.serialize (Resp.makeArray [lit "PUBLISH"; t; d])) ≤ Session.MAX_RECV_BUFFER →
     carries s x prev → Clients.connected (Clients.s_sock sub) = true →
     ∃ s', Session.on_data now (λ _, clk) (Resp.serialize (Resp.makeArray [lit "PUBLISH"; t; d])) s = (s', Ret true) ∧
       ∀ later packets, concat packets = concat (stream s' x) ++ later →
         snd (Clients.binary_subscribe sub t auto_ack packets) =
           Ret ([Clients.Wrote (serialize (frame_subscribe (Clients.subscribe_topic (Clients.client_id_ sub) t)
                   (u64 (Clients.s_sequence sub + 1))))] ++
                concat (Clients.on_frame (Clients.s_sock sub) auto_ack <$> prev) ++ [Clients.Closed])) ∧
  (∀ n prev sock,
     between_frames s → zlen t ≤ MAX_TOPIC_LEN → 16 + zlen t + zlen d ≤ Session.MAX_RECV_BUFFER →
     starts_with t (lit "secure/") = false → carries_values s x prev → Clients.connected sock = true →
     ∃ s', Session.on_data now (λ _, clk) (serialize (frame_publish t d (u64 n))) s = (s', Ret true) ∧
       ∀ later packets, concat packets = concat (stream s' x) ++ later →
         Clients.subscriber_subscribe sock t packets =
           Ret ([Clients.Wrote (Resp.serialize (Resp.makeArray [lit "SUBSCRIBE"; t]))] ++
                concat (Clients.on_resp <$> prev) ++ [Clients.Closed])).
Proof.
  intros Hx Hn. assert (∃ k, copies s x t = S k) as [c Hc] by (exists (pred (copies s x t)); lia). clear Hn. split.
  - intros prev sub auto_ack Hb Hlen [Hst Hprev] Hcs.
    destruct (resp_published now clk t d s Hb Hlen) as (s' & E & _ & Hsent). exists s'. split; [exact E|].
    intros later packets Hpk. unfold Clients.binary_subscribe, Clients.subscribe_with. rewrite Hcs. cbn [negb snd].
    rewrite Hsent, copies_resp_deliveries, Hc, Hst, concat_app in Hpk by done. cbn [replicate concat] in Hpk.
    rewrite <-!app_assoc in Hpk. erewrite (Clients.receive_stuck _ prev); [done|done| |exact Hpk]. apply binary_deaf_to_resp.
  - intros n prev sock Hb Ht Hd Hsec [Hst Hprev] Hcs. set (f := frame_publish t d (u64 n)).
    assert (Hpl : zlen d ≤ MAX_PAYLOAD_LEN) by (unfold MAX_PAYLOAD_LEN, Session.MAX_RECV_BUFFER in *; lia).
    destruct (binary_published now clk t d n s Hb Ht Hd Hsec) as (s' & E & Hsent). exists s'. split; [exact E|].
    intros later packets Hpk. unfold Clients.subscriber_subscribe. rewrite Hcs. cbn [negb].
    rewrite Hsent, copies_deliveries, Hc, Hst, concat_app in Hpk by done. cbn [replicate concat] in Hpk.
    rewrite <-!app_assoc in Hpk. erewrite (Clients.receive_stuck _ prev); [done|done| |exact Hpk].
    apply resp_deaf_to_binary. by apply frame_message_wf.
Qed.


End delivery.

(** ** Witnesses *)

#[local] Existing Instance Broker.ElementsOrder.
#[local] Existing Instance ToySodium.
#[local] Existing Instance ToySodiumLaws.

(** Session 1 subscribes to ["t"] and ["secure/a"], session 3 to ["t"] and to
    everything; session 2 publishes. *)
Definition two_sessions : list Broker.op :=
  [Broker.OpAccept 1; Broker.OpAccept 2; Broker.OpAccept 3; Broker.OpSubscribe 1 (lit "t");
   Broker.OpSubscribe 1 (lit "secure/a"); Broker.OpSubscribe 3 (lit "t"); Broker.OpSubscribe 3 (lit "#")].

Definition two : Session.State MemLmdb :=
  Session.mkState (Session.new_session 2 0)
    (Broker.perform_all two_sessions (Broker.new_broker (∅ : MemLmdb))) Session.one_key.

Lemma two_inv : Session.sess_inv two.
Proof.
  split.
  - apply Broker.perform_all_inv; [exact Broker.empty_broker_inv|].
    repeat split; first [apply (bool_decide_unpack (_ ∉ _)) | apply (bool_decide_unpack (_ ∈ _))]; by vm_compute.
  - apply (bool_decide_unpack (2 ∈ _)). vm_compute. exact I.
Qed.




Lemma mixed_protocols_deafen_witness :
  ∃ s', Session.on_data 1 (λ _, Session.noon) (Resp.serialize (Resp.makeArray [lit "PUBLISH"; lit "t"; lit "x"])) two = (s', Ret true) ∧
    snd (Clients.binary_subscribe (Clients.new_subscriber [] 5 0) (lit "t") true
      (stream s' 1 ++ [serialize (frame_message (lit "t") (lit "y") 2)])) =
      Ret [Clients.Wrote (serialize (frame_subscribe (lit "t") 1)); Clients.Closed].
Proof.
  destruct (mixed_protocols_deafen 1 Session.noon (lit "t") (lit "x") two 1) as [Hr _];
    [discriminate | vm_compute; lia |].
  destruct (Hr [] (Clients.new_subscriber [] 5 0) true) as (s' & E1 & E2);
    [split; [exact two_inv|done] | vm_compute; discriminate | by split | reflexivity |].
  exists s'. split; [exact E1|]. apply (E2 (serialize (frame_message (lit "t") (lit "y") 2))).
  by rewrite concat_app; cbn [concat]; rewrite app_nil_r.
Defined.


Lemma resp_publish_reaches_callback_witness :
  ∃ data s', Clients.publisher_send 6 (lit "secure/a") (lit "x") = [Clients.Wrote data] ∧
    Session.on_data 1 (λ _, Session.noon) data two = (s', Ret true) ∧
    Clients.subscriber_subscribe 5 (lit "secure/a") (stream s' 1) =
      Ret [Clients.Wrote (Resp.serialize (Resp.makeArray [lit "SUBSCRIBE"; lit "secure/a"]));
           Clients.Callback (lit "secure/a") (lit "x"); Clients.Closed].
Proof.
  destruct (resp_publish_reaches_callback 1 Session.noon 6 (lit "secure/a") (lit "x") two 1 [] 5)
    as (data & s' & E1 & E2 & _ & E3);
    [split; [exact two_inv|done] | vm_compute; discriminate | reflexivity | reflexivity
    | discriminate | by split | ].
  exists data, s'. split; [exact E1|]. split; [exact E2|]. exact (E3 (stream s' 1) eq_refl).
Defined.




End EndToEnd.
