(* ===== verification/Program.v ===== *)
(** * Program: [src/main.cpp], and two writers on one socket

    The process: start-up, the signal handler and the exit code (Module
    [Main]); and what [Session::send] puts on a socket when the session's own
    thread and a publisher's write to it at the same time (Module [Wire]). *)

From S2P Require Import Prelude Text Logger BinaryProtocol Lmdb Storage Signing Keystore Metrics Broker Session Programs.

Module Main.

Definition SIGINT : Z := 2.
Definition SIGTERM : Z := 15.

(** ** The signal handler *)

Record process (env : Type) := mkProcess {
  broker : Broker.Broker env;          (* *g_broker, once it is set *)
  g_broker : bool;                     (* g_broker is not null *)
  g_shutdown_requested : bool;
  out : bytes;                         (* the handler's part of stdout *)
  stopping : option bool;              (* a handler sleeps in stop, on the main thread or not *)
  selecting : bool;                    (* the loop of run is past its test *)
}.
Arguments mkProcess {env} _ _ _ _ _ _.
Arguments broker {env} _.
Arguments g_broker {env} _.
Arguments g_shutdown_requested {env} _.
Arguments out {env} _.
Arguments stopping {env} _.
Arguments selecting {env} _.

Inductive status (env : Type) :=
| Running (p : process env)
| Exited (code : Z) (p : process env).
Arguments Running {env} p.
Arguments Exited {env} code p.

Definition signal_name (signal : Z) : bytes :=
  if signal =? SIGINT then lit "SIGINT" else if signal =? SIGTERM then lit "SIGTERM" else lit "UNKNOWN".

Section process.
Context `{LmdbOps env txn} `{HashOrder} `{Sodium}.

(** Up to the sleep of [Broker::stop], on the thread the signal is delivered to. *)
Definition signal_handler (on_main : bool) (signal : Z) (p : process env) : status env :=
  let text := out p ++ [char_of 10; char_of 10] ++ lit "📛 Received signal " ++ signal_name signal ++ lit " (" ++
                to_string signal ++ lit ")" ++ [char_of 10] in
  if g_shutdown_requested p then
    Exited 1 (mkProcess (broker p) (g_broker p) true
                (text ++ lit "⚠️  Force quit (second signal)" ++ [char_of 10]) (stopping p) (selecting p))
  else if g_broker p then
    Running (mkProcess (fst (Broker.stop_accepting (broker p))) true true text (Some on_main) (selecting p))
  else Running (mkProcess (broker p) false true text (stopping p) (selecting p)).

(** ** [main] *)

(** What happens to the process: a signal is delivered, to the main thread or to
    another one; the handler wakes from its sleep; the loop of [run] tests the
    flag; [select] returns, and the pass of the loop is finished (the test made
    first, if it was not). A signal held back while its handler runs is
    delivered when that returns. *)
Inductive event :=
| Signal (on_main : bool) (signal : Z)
| Wake
| Enter
| Turn (ev : Broker.accept_event).

Definition with_broker (p : process env) (b : Broker.Broker env) : process env :=
  mkProcess b (g_broker p) (g_shutdown_requested p) (out p) (stopping p) (selecting p).
Definition at_select (selecting : bool) (p : process env) : process env :=
  mkProcess (broker p) (g_broker p) (g_shutdown_requested p) (out p) (stopping p) selecting.

(** The rest of [Broker::stop]. *)
Definition wake (p : process env) : process env :=
  match stopping p with
  | Some _ =>
      mkProcess (fst (Broker.close_persistence (broker p))) (g_broker p) (g_shutdown_requested p) (out p) None (selecting p)
  | None => p
  end.

(** The main thread is in the handler. *)
Definition interrupted (p : process env) : bool := match stopping p with Some true => true | _ => false end.

(** The body of the loop; [None]: it breaks. *)
Definition pass (ev : Broker.accept_event) (p : process env) : option (process env) :=
  match ev with
  | Broker.SelectError => None
  | Broker.SelectTimeout | Broker.AcceptFailed => Some (at_select false p)
  | Broker.Connected s => Some (at_select false (with_broker p (fst (Broker.accept_client s (broker p)))))
  end.

(** The accept loop of [broker.run()] and the handler; when the loop is left,
    [main] stops the metrics server and returns 0. The loop stands still while
    the handler runs on its thread. *)
Fixpoint serve (evs : list event) (p : process env) : status env :=
  match evs with
  | [] => Running p
  | Signal on_main s :: evs' =>
      match signal_handler on_main s p with
      | Running p' => serve evs' p'
      | r => r
      end
  | Wake :: evs' => serve evs' (wake p)
  | Enter :: evs' =>
      if interrupted p || selecting p then serve evs' p
      else if Broker.shutdown_requested_ (broker p) then Exited 0 p
      else serve evs' (at_select true p)
  | Turn ev :: evs' =>
      if interrupted p then serve evs' p
      else if negb (selecting p) && Broker.shutdown_requested_ (broker p) then Exited 0 p
      else match pass ev p with Some p' => serve evs' p' | None => Exited 0 p end
  end.

(** [e] is what opening the database gave; a metrics server that does not start
    is reported and ignored. *)
Definition main (e : env) (socket bind listen : Z) (evs : list event) : status env :=
  let p := mkProcess (Broker.new_broker e) false false [] None false in
  if negb (snd (Signing.init false)) then Exited 1 p
  else
    let p := mkProcess (broker p) true false [] None false in
    if (socket <? 0) || (bind <? 0) || (listen <? 0) then Exited 0 p
    else serve evs (with_broker p (broker p <| Broker.server_fd_ := socket |>)).

(** *** [main] with the parts it puts together

    [main] above starts when the broker has been constructed. Before that come
    the logger, the handlers, the metrics server and the storage; an exception
    that leaves [main], or a null pointer, ends the process. *)

(** Signals before [g_broker] is set. *)
Fixpoint early_signals (signals : list Z) (p : process env) : status env :=
  match signals with
  | [] => Running p
  | s :: signals => match signal_handler true s p with Running p => early_signals signals p | r => r end
  end.

Context `{Spdlog logger registry}.
Context (what_open what_taken : bytes) (ans : Logger.answers).
Abbreviation LOG := (Logger.LOG what_open what_taken ans).

(** [MetricsServer::start] as [main] calls it; [listening] is whether the port
    can be opened. *)
Definition start_metrics (listening : bool) : act Logger.State Metrics.MetricsServer :=
  let server := Metrics.new_MetricsServer 9091 in
  _ ← LOG info (lit "Starting metrics server on port 9091");
  match Metrics.start listening server with
  | Ret server => _ ← LOG info (lit "Metrics server started successfully on http://0.0.0.0:9091/metrics"); mret server
  | _ => _ ← LOG err (lit "Failed to start metrics server"); mret server
  end.

(** [Broker(6379)] *)
Definition construct_broker : act Logger.State (Broker.Broker env) :=
  _ ← LOG info (lit "Initializing MetricMQ Broker on port 6379");
  e ← liftO (Storage.open_storage (lit "metricmq.db"));
  let b := Broker.new_broker e in
  _ ← LOG info (lit "Restored sequence counter from persistence: " ++ to_string (Broker.current_sequence_ b));
  _ ← LOG debug (lit "Broker initialization complete");
  mret b.

(** [broker.run()] and the rest of [main]; [unset] stands for the broker that
    does not exist yet. *)
Definition program (unset : Broker.Broker env) (early : list Z) (listening : bool) (socket bind listen : Z)
    (evs : list event) : act Logger.State (status env * option Metrics.MetricsServer) :=
  _ ← Logger.init what_open what_taken ans (lit "logs/metricmq.log") debug;
  let p := mkProcess unset false false [] None false in
  if negb (snd (Signing.init false)) then mret (Exited 1 p, None)
  else
    match early_signals early p with
    | Exited code p => mret (Exited code p, None)
    | Running p =>
        server ← start_metrics listening;
        b ← construct_broker;
        let p := mkProcess b true (g_shutdown_requested p) (out p) None false in
        let r := if (socket <? 0) || (bind <? 0) || (listen <? 0) then Exited 0 p
                 else serve evs (with_broker p (b <| Broker.server_fd_ := socket |>)) in
        mret (r, Some (match r with Exited 0 _ => Metrics.stop server | _ => server end))
    end.
End process.

Definition is_signal (e : event) : bool := match e with Signal _ _ => true | _ => false end.
Definition signals (evs : list event) : nat := length (List.filter is_signal evs).

(** Passes of the loop, whole or begun. *)
Definition is_pass (e : event) : bool := match e with Enter | Turn _ => true | _ => false end.

(** ** Lemmas *)

Section lemmas.
Context `{LmdbOps env txn} `{HashOrder} `{Sodium}.
Implicit Types p : process env.

Lemma stop_accepting_keeps b :
  let b' := fst (Broker.stop_accepting (env := env) b) in
  Broker.shutdown_requested_ b' = true ∧ Broker.sessions_ b' = Broker.sessions_ b ∧
  Broker.persistence_ b' = Broker.persistence_ b.
Proof. unfold Broker.stop_accepting, mbind, act_bind, gets, modify. cbn. by destruct (Broker.server_fd_ b =? -1). Qed.

Lemma accept_keeps s b :
  let b' := fst (Broker.accept_client (env := env) s b) in
  Broker.shutdown_requested_ b' = Broker.shutdown_requested_ b ∧ Broker.persistence_ b' = Broker.persistence_ b.
Proof. unfold Broker.accept_client, mbind, act_bind, gets. cbn. by destruct (_ <=? _). Qed.

(** What a pass of the loop leaves alone. *)
Definition same_flags p q : Prop :=
  g_broker q = g_broker p ∧ g_shutdown_requested q = g_shutdown_requested p ∧ out q = out p ∧ stopping q = stopping p ∧
  Broker.shutdown_requested_ (broker q) = Broker.shutdown_requested_ (broker p) ∧
  Broker.persistence_ (broker q) = Broker.persistence_ (broker p).

Lemma pass_keeps ev p q : pass ev p = Some q → same_flags p q ∧ selecting q = false.
Proof.
  destruct ev as [| | |s]; cbn; [done|by intros [= <-]..|]. intros [= <-]. cbn.
  destruct (accept_keeps s (broker p)) as [? ?]. by repeat split.
Qed.

Lemma serve_passes evs p q :
  forallb is_pass evs = true → serve evs p = Running q → same_flags p q.
Proof.
  revert p. induction evs as [|ev evs IH]; intros p Hp; cbn [serve]; [by intros [= <-]|].
  cbn [forallb] in Hp. apply andb_true_iff in Hp as [He Hp]. destruct ev as [| | |ev]; [done..| |].
  - destruct (_ || _); [by apply IH|]. destruct (Broker.shutdown_requested_ _); [done|]. intros Hq%IH; done.
  - destruct (interrupted p); [by apply IH|]. destruct (_ && _); [done|]. destruct (pass ev p) as [p1|] eqn:E; [|done].
    apply pass_keeps in E as [(?&?&?&?&?&?) _]. intros (?&?&?&?&?&?)%IH; [|done]. repeat split; congruence.
Qed.

Lemma serve_app evs evs' p q : serve evs p = Running q → serve (evs ++ evs') p = serve evs' q.
Proof.
  revert p. induction evs as [|[om s| | |ev] evs IH]; intros p; cbn [serve app]; [by intros [= <-]|..].
  - destruct (signal_handler om s p); [apply IH|done].
  - apply IH.
  - destruct (_ || _); [apply IH|]. destruct (Broker.shutdown_requested_ _); [done|apply IH].
  - destruct (interrupted p); [apply IH|]. destruct (_ && _); [done|]. destruct (pass ev p); [apply IH|done].
Qed.

Lemma turns_pass evs : forallb is_pass (Turn <$> evs) = true.
Proof. by induction evs. Qed.

Lemma serve_code evs p code q :
  serve evs p = Exited code q →
  code = 0 ∨ (code = 1 ∧ ((if g_shutdown_requested p then 1 else 2) ≤ signals evs)%nat).
Proof.
  revert p. induction evs as [|[om s| | |ev] evs IH]; intros p; cbn [serve]; [done|..].
  - unfold signal_handler. destruct (g_shutdown_requested p); [intros [= <- _]; right; unfold signals; cbn; lia|].
    destruct (g_broker p); (intros [->|[-> Hs]]%IH; [by left|]; right; unfold signals in *; cbn in *; lia).
  - intros Hs%IH. unfold wake in Hs. by destruct (stopping p).
  - destruct (_ || _); [apply IH|]. destruct (Broker.shutdown_requested_ _); [intros [= <- _]; by left|].
    apply (IH (at_select true p)).
  - destruct (interrupted p); [apply IH|]. destruct (_ && _); [intros [= <- _]; by left|].
    destruct (pass ev p) as [p1|] eqn:E; [|intros [= <- _]; by left]. apply pass_keeps in E as [(_ & <- & _) _]. apply IH.
Qed.

(** Without signals the loop is that of [Broker.accept_loop]. *)
Lemma serve_turns evs p :
  Broker.shutdown_requested_ (broker p) = false → stopping p = None → selecting p = false →
  broker (match serve (Turn <$> evs) p with Running q => q | Exited _ q => q end) =
    fst (Broker.accept_loop evs (broker p)).
Proof.
  revert p. induction evs as [|ev evs IH]; intros p Hp Hst Hse; rewrite ?fmap_cons, ?fmap_nil; cbn [serve Broker.accept_loop].
  - unfold mbind, act_bind, gets. by rewrite Hp.
  - unfold interrupted. rewrite Hp, Hst, Hse. cbn [negb andb]. unfold mbind at 1, act_bind at 1, gets at 1. rewrite Hp.
    destruct ev as [| | |s]; cbn [pass]; [done|by apply (IH (at_select false p))..|].
    specialize (IH (at_select false (with_broker p (fst (Broker.accept_client s (broker p)))))).
    cbn [broker stopping selecting with_broker at_select] in IH. destruct (accept_keeps s (broker p)) as [Hf _].
    rewrite Hf in IH. rewrite (IH Hp Hst eq_refl).
    unfold mbind, act_bind. assert (E : snd (Broker.accept_client s (broker p)) = Ret tt).
    { unfold Broker.accept_client, mbind, act_bind, gets. cbn. by destruct (_ <=? _). }
    destruct (Broker.accept_client s (broker p)) as [b r]. cbn in *. by rewrite E.
Qed.

(** The loop when the flag is set and it may run: the pass it has begun, and no
    other. *)
Definition last_pass (ev : Broker.accept_event) p : process env :=
  if selecting p then default p (pass ev p) else p.

Lemma loop_ends ev ev' p :
  interrupted p = false → Broker.shutdown_requested_ (broker p) = true →
  serve [Turn ev; Turn ev'] p = Exited 0 (last_pass ev p).
Proof.
  intros Hi Hf. unfold last_pass. cbn [serve]. rewrite Hi, Hf. destruct (selecting p); [|done]. cbn [negb andb].
  destruct (pass ev p) as [p1|] eqn:E; [|done]. apply pass_keeps in E as [(_ & _ & _ & Hst & Hb & _) Hse].
  unfold interrupted in *. by rewrite Hst, Hse, Hb, Hi, Hf.
Qed.

Lemma last_pass_persistence ev p : Broker.persistence_ (broker (last_pass ev p)) = Broker.persistence_ (broker p).
Proof.
  unfold last_pass. destruct (selecting p); [|done]. destruct (pass ev p) as [q|] eqn:E; [|done].
  by apply pass_keeps in E as [(_ & _ & _ & _ & _ & ?) _].
Qed.

(** The process when the first signal has been handled up to the sleep. *)
Definition signalled (on_main : bool) (sig : Z) p : process env :=
  match signal_handler on_main sig p with Running q => q | Exited _ q => q end.

Lemma first_signal on_main sig p :
  g_broker p = true → g_shutdown_requested p = false →
  signal_handler on_main sig p = Running (signalled on_main sig p) ∧
  broker (signalled on_main sig p) = fst (Broker.stop_accepting (broker p)) ∧
  g_shutdown_requested (signalled on_main sig p) = true ∧ stopping (signalled on_main sig p) = Some on_main ∧
  selecting (signalled on_main sig p) = selecting p.
Proof. intros Hg Hs. unfold signalled, signal_handler. by rewrite Hs, Hg. Qed.

Lemma second_signal on_main sig rest p :
  g_shutdown_requested p = true → ∃ q, serve (Signal on_main sig :: rest) p = Exited 1 q ∧ broker q = broker p.
Proof. intros Hs. cbn [serve]. unfold signal_handler. rewrite Hs. by eexists. Qed.

(** Nothing but the handler runs while it is on the main thread. *)
Lemma loop_stands evs p : interrupted p = true → forallb is_pass evs = true → serve evs p = Running p.
Proof.
  intros Hi. induction evs as [|[| | |ev] evs IH]; cbn [forallb serve is_pass]; try done; rewrite Hi; exact IH.
Qed.
End lemmas.

(** ** Theorems *)

Section theorems.
Context `{LmdbOps env txn} `{HashOrder} `{Sodium}.

(** C24: How the main thread and the handler end the process. Whatever connections
    came before (admitted as [Broker.accept_loop] does), the first signal sets the
    flag and closes the listening socket, and then sleeps. If it wakes before
    anything else ends the process, the storage is closed and [main] returns 0
    at the end of the pass the loop has begun, in which a connection that was
    accepted is still admitted, or else at its next test. Until it wakes the
    loop stands still, if the handler interrupted it; if the handler runs on
    another thread, [main] returns 0 without waiting for it, with the storage
    as it was. A second signal ends the process at once with code 1, and before
    the handler has woken the storage is open then. *)
Theorem shutdown_live (p : process env) evs q on_main sig :
  g_broker p = true → g_shutdown_requested p = false → Broker.shutdown_requested_ (broker p) = false →
  stopping p = None → forallb is_pass evs = true → serve evs p = Running q →
  let after rest := serve (evs ++ Signal on_main sig :: rest) p in
  let stopped := signalled on_main sig q in
  (∀ ev ev', after [Wake; Turn ev; Turn ev'] = Exited 0 (last_pass ev (wake stopped)) ∧
     Broker.persistence_ (broker (last_pass ev (wake stopped))) = None) ∧
  (∀ ev ev', after (if on_main then [Turn ev; Turn ev'] else []) = Running stopped) ∧
  (on_main = false → ∀ ev ev', after [Turn ev; Turn ev'] = Exited 0 (last_pass ev stopped) ∧
     Broker.persistence_ (broker (last_pass ev stopped)) = Broker.persistence_ (broker q)) ∧
  (∀ om sig' rest, ∃ p', after (Signal om sig' :: rest) = Exited 1 p' ∧
     Broker.persistence_ (broker p') = Broker.persistence_ (broker q)) ∧
  (∀ om sig' rest, ∃ p', after (Wake :: Signal om sig' :: rest) = Exited 1 p' ∧
     Broker.persistence_ (broker p') = None) ∧
  Broker.sessions_ (broker stopped) = Broker.sessions_ (broker q) ∧
  (∀ turns, evs = Turn <$> turns → selecting p = false → broker q = fst (Broker.accept_loop turns (broker p))).
Proof.
  intros Hg Hs Hb Hst Hev Hq after stopped. destruct (serve_passes evs p q Hev Hq) as (Hg' & Hs' & _ & Hst' & Hb' & _).
  destruct (first_signal on_main sig q) as (E & Hbr & Hreq & Hstop & Hsel); [congruence..|]. fold stopped in E, Hbr, Hreq, Hstop, Hsel.
  destruct (stop_accepting_keeps (broker q)) as (Hf & Hss & Hpe). rewrite <-Hbr in Hf, Hss, Hpe.
  assert (Ha : ∀ rest, after rest = serve rest stopped).
  { intros rest. unfold after. rewrite (serve_app evs _ p q Hq). cbn [serve]. by rewrite E. }
  assert (Hw : stopping (wake stopped) = None ∧ g_shutdown_requested (wake stopped) = true ∧
    Broker.shutdown_requested_ (broker (wake stopped)) = true ∧ Broker.persistence_ (broker (wake stopped)) = None)
    by (unfold wake; by rewrite Hstop).
  destruct Hw as (Hw1 & Hw2 & Hw3 & Hw4). split; [|split; [|split; [|split; [|split; [|split]]]]]; try setoid_rewrite Ha.
  - intros ev ev'. cbn [serve]. rewrite <-Hw4. split; [|apply last_pass_persistence]. apply loop_ends; [|done].
    unfold interrupted. by rewrite Hw1.
  - intros ev ev'. destruct on_main; [|done]. apply loop_stands; [|done]. unfold interrupted. by rewrite Hstop.
  - intros -> ev ev'. rewrite <-Hpe. split; [|apply last_pass_persistence]. apply loop_ends; [|done].
    unfold interrupted. by rewrite Hstop.
  - intros om sig' rest. destruct (second_signal om sig' rest stopped Hreq) as (p' & Ep & Hp'). exists p'. by rewrite Hp'.
  - intros om sig' rest. change (serve (Wake :: ?l) ?a) with (serve l (wake a)).
    destruct (second_signal om sig' rest (wake stopped) Hw2) as (p' & Ep & Hp'). exists p'. by rewrite Hp'.
  - done.
  - intros turns -> Hsp. pose proof (serve_turns turns p Hb Hst Hsp) as Hl. by rewrite Hq in Hl.
Qed.

(** The exit code is 1 when libsodium does not start, and otherwise only when a
    second signal arrives before the loop has seen the first; it is 0 also when
    the broker's port cannot be opened, bound or listened on. *)
Theorem main_exit_code (e : env) socket bind listen evs :
  (sodium_init < 0 → ∃ p, main e socket bind listen evs = Exited 1 p) ∧
  (0 ≤ sodium_init → ∀ code p, main e socket bind listen evs = Exited code p →
     code = 0 ∨ (code = 1 ∧ (2 ≤ signals evs)%nat)) ∧
  (0 ≤ sodium_init → socket < 0 ∨ bind < 0 ∨ listen < 0 → ∃ p, main e socket bind listen evs = Exited 0 p).
Proof.
  unfold main, Signing.init. split; [|split].
  - intros Hi. zbranch. by eexists.
  - intros Hi. zbranch. cbn [snd negb]. intros code p. destruct (_ || _) eqn:E; [intros [= <- _]; by left|].
    intros Hs%serve_code. cbn [g_shutdown_requested with_broker] in Hs. done.
  - intros Hi Hf. zbranch. cbn [snd negb]. rewrite <-!Z.ltb_lt in Hf.
    destruct (socket <? 0), (bind <? 0), (listen <? 0); cbn; try by eexists. naive_solver.
Qed.

(** *** Start-up *)

Section startup.
Context `{SpdlogLaws logger registry} (what_open what_taken : bytes).
Abbreviation program_with ans := (program (env := env) what_open what_taken ans).

(** The process before [main]. *)
Abbreviation log_state := (@Logger.State logger registry).
Definition untouched (st : log_state) : Prop :=
  Logger.logger_ st = None ∧ registered (Logger.loggers st) (lit "metricmq") = false.

(** [m] finishes with [a], and there is a logger afterwards. *)
Definition logs {A} (m : act log_state A) (a : A) : Prop :=
  ∀ st, is_Some (Logger.logger_ st) → ∃ st', m st = (st', Ret a) ∧ is_Some (Logger.logger_ st').

Lemma logs_ret {A} (a : A) : logs (mret a) a.
Proof. intros st ?. by exists st. Qed.
Lemma logs_bind {A B} (m : act log_state A) (k : A → act log_state B) a b : logs m a → logs (k a) b → logs (m ≫= k) b.
Proof.
  intros Hm Hk st Hst. destruct (Hm st Hst) as (st1 & E & Hst1). destruct (Hk st1 Hst1) as (st2 & E' & ?).
  exists st2. by rewrite (bind_ret_eq _ _ _ _ _ E).
Qed.
Lemma logs_line ans lvl text : logs (Logger.LOG what_open what_taken ans lvl text) tt.
Proof. intros st [l Hl]. eexists. by rewrite (Logger.log_goes_on _ _ _ _ _ _ _ Hl). Qed.
Lemma logs_lift {A} (m : outcome A) a : m = Ret a → logs (liftO m) a.
Proof. intros -> st ?. by exists st. Qed.

Definition listening_server (listening : bool) : Metrics.MetricsServer :=
  if listening then Metrics.mkServer 9091 true true else Metrics.new_MetricsServer 9091.

Lemma start_metrics_logs ans listening : logs (start_metrics what_open what_taken ans listening) (listening_server listening).
Proof.
  unfold start_metrics. apply logs_bind with tt; [apply logs_line|].
  destruct listening; (apply logs_bind with tt; [apply logs_line|apply logs_ret]).
Qed.

Lemma construct_logs ans e :
  Storage.open_storage (lit "metricmq.db") = Ret e → logs (construct_broker what_open what_taken ans) (Broker.new_broker e).
Proof.
  intros He. unfold construct_broker. apply logs_bind with tt; [apply logs_line|]. apply logs_bind with e; [by apply logs_lift|].
  apply logs_bind with tt; [apply logs_line|]. apply logs_bind with tt; [apply logs_line|apply logs_ret].
Qed.

(** The process after a start-up that went well: [p] is what the early signals
    left. *)
Definition booted (e : env) (p : process env) socket bind listen evs : status env :=
  let p := mkProcess (Broker.new_broker e) true (g_shutdown_requested p) (out p) None false in
  if (socket <? 0) || (bind <? 0) || (listen <? 0) then Exited 0 p
  else serve evs (with_broker p (Broker.new_broker e <| Broker.server_fd_ := socket |>)).

Lemma program_booted st unset early listening socket bind listen evs e p :
  untouched st → 0 ≤ sodium_init → Storage.open_storage (lit "metricmq.db") = Ret e →
  early_signals early (mkProcess unset false false [] None false) = Running p →
  ∃ server, snd (program_with Logger.all_well unset early listening socket bind listen evs st) =
    Ret (booted e p socket bind listen evs, Some server).
Proof.
  intros [_ Hr] Hs He Hp. unfold program.
  destruct (Logger.init_first what_open what_taken st (lit "logs/metricmq.log") debug Hr) as (r & E & _).
  rewrite (bind_ret_eq _ _ _ _ _ E). unfold Signing.init. zbranch. cbn [snd negb]. rewrite Hp.
  match goal with |- context [snd ((?m ≫= ?k) ?s)] => set (s1 := s) end.
  destruct (start_metrics_logs Logger.all_well listening s1) as (s2 & E2 & Hs2); [by eexists|].
  destruct (construct_logs Logger.all_well e He s2 Hs2) as (s3 & E3 & _).
  rewrite (bind_ret_eq _ _ _ _ _ E2), (bind_ret_eq _ _ _ _ _ E3). by eexists.
Qed.

(** C25: What becomes of [main], by what the system grants it. With a log file and a
    database it is the process of [main]; a database that cannot be opened, or a
    log directory that cannot be created, ends it with an exception; and when
    only the log file cannot be opened, which [Logger::init] reports and
    survives, the first line that is logged follows a null pointer. *)
Theorem startup_outcomes (st : log_state) unset listening socket bind listen evs :
  untouched st → 0 ≤ sodium_init →
  (∀ e, Storage.open_storage (lit "metricmq.db") = Ret e →
    ∃ server, snd (program_with Logger.all_well unset [] listening socket bind listen evs st) =
      Ret (main e socket bind listen evs, Some server)) ∧
  (∀ what, Storage.open_storage (env := env) (lit "metricmq.db") = Throw what →
    snd (program_with Logger.all_well unset [] listening socket bind listen evs st) = Throw what) ∧
  snd (program_with (Logger.mkAnswers true false) unset [] listening socket bind listen evs st) = Throw "null pointer" ∧
  ∀ file_ok, snd (program_with (Logger.mkAnswers false file_ok) unset [] listening socket bind listen evs st) =
    Throw "std::filesystem::filesystem_error".
Proof.
  intros Hst Hs. split; [|split; [|split]].
  - intros e He. destruct (program_booted st unset [] listening socket bind listen evs e _ Hst Hs He eq_refl) as [server ->].
    exists server. unfold main, Signing.init, booted. zbranch. done.
  - intros what He. destruct Hst as [_ Hr]. unfold program.
    destruct (Logger.init_first what_open what_taken st (lit "logs/metricmq.log") debug Hr) as (r & E & _).
    rewrite (bind_ret_eq _ _ _ _ _ E). unfold Signing.init. zbranch. cbn [snd negb early_signals].
    match goal with |- context [snd ((?m ≫= ?k) ?s)] => set (s1 := s) end.
    destruct (start_metrics_logs Logger.all_well listening s1) as (s2 & E2 & Hs2); [by eexists|].
    rewrite (bind_ret_eq _ _ _ _ _ E2). unfold construct_broker.
    destruct (logs_line Logger.all_well info (lit "Initializing MetricMQ Broker on port 6379") s2 Hs2) as (s3 & E3 & _).
    unfold mbind, act_bind. rewrite E3, He. done.
  - unfold program, Logger.init. cbn [Logger.dirs_ok Logger.file_ok negb]. rewrite andb_false_r.
    unfold Signing.init. zbranch. unfold mbind at 1, act_bind at 1. cbn [snd negb early_signals].
    unfold start_metrics, mbind, act_bind. destruct Hst as [Hn _].
    by rewrite (proj1 (Logger.unopened_log_crashes what_open what_taken (Logger.failed what_open st) _ _ Hn)).
  - intros file_ok. unfold program, Logger.init. cbn [Logger.dirs_ok negb]. by rewrite andb_true_r.
Qed.

(** The loop does not look at the handler's flag. *)
Definition flagged (text : bytes) (p : process env) : process env :=
  mkProcess (broker p) (g_broker p) true text (stopping p) (selecting p).

Lemma serve_flagged text evs (p q : process env) :
  forallb is_pass evs = true → serve evs p = Running q → serve evs (flagged text p) = Running (flagged text q).
Proof.
  revert p. induction evs as [|ev evs IH]; intros p Hp; cbn [serve]; [by intros [= <-]|].
  cbn [forallb] in Hp. apply andb_true_iff in Hp as [He Hp]. destruct ev as [| | |ev]; [done..| |].
  - change (interrupted (flagged text p)) with (interrupted p). cbn [flagged selecting broker].
    destruct (_ || _); [by apply IH|]. destruct (Broker.shutdown_requested_ _); [done|]. by apply (IH (at_select true p)).
  - change (interrupted (flagged text p)) with (interrupted p). cbn [flagged selecting broker].
    destruct (interrupted p); [by apply IH|]. destruct (_ && _); [done|].
    destruct ev as [| | |s]; cbn [pass]; [done|by apply (IH (at_select false p))..|].
    by apply (IH (at_select false (with_broker p (fst (Broker.accept_client s (broker p)))))).
Qed.

(** C26: A signal that arrives before the broker is registered is lost: the handler
    finds no broker to stop, the process serves connections as if nothing had
    happened, and the next signal ends it at once, with code 1 and the storage
    open. *)
Theorem early_signal_lost (st : log_state) unset listening socket bind listen e sig om sig' evs q :
  untouched st → 0 ≤ sodium_init → Storage.open_storage (lit "metricmq.db") = Ret e →
  main e socket bind listen (Turn <$> evs) = Running q →
  (∃ server q', snd (program_with Logger.all_well unset [sig] listening socket bind listen (Turn <$> evs) st) =
      Ret (Running q', Some server) ∧ broker q' = broker q ∧ g_shutdown_requested q' = true) ∧
  ∃ server p', snd (program_with Logger.all_well unset [sig] listening socket bind listen ((Turn <$> evs) ++ [Signal om sig']) st) =
      Ret (Exited 1 p', Some server) ∧ Broker.persistence_ (broker p') = Some e.
Proof.
  intros Hst Hs He Hm. unfold main, Signing.init in Hm. rewrite (proj2 (Z.ltb_ge _ _)) in Hm by done. cbn [snd negb] in Hm.
  destruct ((socket <? 0) || (bind <? 0) || (listen <? 0)) eqn:Hsock; [done|].
  set (p0 := with_broker _ _) in Hm. eassert (Hearly : early_signals [sig] (mkProcess unset false false [] None false) = Running _) by done.
  destruct (program_booted st unset [sig] listening socket bind listen (Turn <$> evs) e _ Hst Hs He Hearly) as [server ->].
  destruct (program_booted st unset [sig] listening socket bind listen ((Turn <$> evs) ++ [Signal om sig']) e _ Hst Hs He Hearly) as [server' ->].
  unfold booted. rewrite Hsock. cbn [g_shutdown_requested out].
  match goal with |- context [mkProcess _ true true ?o None false] => set (text := o) end.
  change (with_broker (mkProcess _ true true text None false) _) with (flagged text p0).
  pose proof (serve_flagged text _ _ _ (turns_pass evs) Hm) as Hf.
  rewrite (serve_app (Turn <$> evs) [Signal om sig'] (flagged text p0) _ Hf), Hf. split.
  - by exists server, (flagged text q).
  - exists server'. eexists. split; [done|]. cbn. by destruct (serve_passes _ _ _ (turns_pass evs) Hm) as (_ & _ & _ & _ & _ & ->).
Qed.
End startup.
End theorems.

(** ** Witness *)

#[local] Existing Instance Broker.ElementsOrder.
#[local] Existing Instance ToySodium.

Definition serving : process MemLmdb := mkProcess Broker.demo true false [] None false.

(** A signal that interrupts [select], which reports it when the handler returns. *)
Lemma shutdown_live_witness :
  ∃ p', serve ([Turn (Broker.Connected 2); Enter] ++
      Signal true SIGTERM :: [Wake; Turn Broker.SelectError; Turn Broker.SelectError]) serving = Exited 0 p' ∧
    Broker.persistence_ (broker p') = None.
Proof.
  destruct (shutdown_live serving [Turn (Broker.Connected 2); Enter]
    (at_select true (with_broker serving (fst (Broker.accept_client 2 Broker.demo)))) true SIGTERM) as (Hw & _).
  1-6: vm_compute; reflexivity.
  eexists. exact (Hw Broker.SelectError Broker.SelectError).
Defined.

#[local] Existing Instance Logger.ToySpdlog.
#[local] Existing Instance Logger.ToySpdlogLaws.

(** A fresh process on an empty database. *)
Definition fresh_log : @Logger.State Logger.ToyLogger (list bytes) := Logger.mkState None [] [].
Abbreviation boot ans := (program (lit "open") (lit "taken") ans Broker.demo).

Lemma startup_outcomes_witness :
  (∃ e : MemLmdb, Storage.open_storage (lit "metricmq.db") = Ret e ∧
    ∃ server, snd (boot Logger.all_well [] true 3 0 0 [Turn Broker.SelectTimeout] fresh_log) =
      Ret (main e 3 0 0 [Turn Broker.SelectTimeout], Some server)) ∧
  snd (boot (Logger.mkAnswers true false) [] true 3 0 0 [Turn Broker.SelectTimeout] fresh_log) = Throw "null pointer".
Proof.
  destruct (startup_outcomes (lit "open") (lit "taken") fresh_log Broker.demo true 3 0 0 [Turn Broker.SelectTimeout])
    as (Hok & _ & Hnull & _).
  - done.
  - by vm_compute.
  - split; [|exact Hnull]. eexists. split; [vm_compute; reflexivity|]. apply Hok. vm_compute. reflexivity.
Defined.

Lemma early_signal_lost_witness :
  ∃ server p', snd (boot Logger.all_well [SIGTERM] true 3 0 0 ([Turn (Broker.Connected 2)] ++ [Signal true SIGTERM]) fresh_log) =
    Ret (Exited 1 p', Some server) ∧ is_Some (Broker.persistence_ (broker p')).
Proof.
  destruct (early_signal_lost (lit "open") (lit "taken") fresh_log Broker.demo true 3 0 0
    (∅ : MemLmdb) SIGTERM true SIGTERM [Broker.Connected 2]
    (match main (∅ : MemLmdb) 3 0 0 [Turn (Broker.Connected 2)] with Running q => q | Exited _ q => q end)) as (_ & server & p' & E & Hp).
  - done.
  - by vm_compute.
  - vm_compute. reflexivity.
  - vm_compute. reflexivity.
  - exists server, p'. split; [exact E|]. by eexists.
Defined.
End Main.

Module Wire.

(** A socket that several threads are writing to: what is on it, and what each
    of the running [send] loops has left. *)
Record wire := mkWire { on_wire : bytes; remaining : list bytes }.

(** One [::send] of loop [i]: the kernel takes the first [n] bytes. *)
Definition kernel_send (i n : nat) (w : wire) : wire :=
  match remaining w !! i with
  | Some r => mkWire (on_wire w ++ take n r) (<[i := drop n r]> (remaining w))
  | None => w
  end.

Definition kernel_sends (l : list (nat * nat)) (w : wire) : wire :=
  fold_left (λ w '(i, n), kernel_send i n w) l w.

(** One loop on its own is [Session.send_loop]. *)
Lemma kernel_sends_one results data o :
  Forall (λ n, 0 ≤ n) results →
  kernel_sends ((λ n, (0%nat, Z.to_nat n)) <$> results) (mkWire o [data]) =
    mkWire (o ++ fst (Session.send_loop results data))
      [drop (length (fst (Session.send_loop results data))) data].
Proof.
  intros Hr. revert o data. induction Hr as [|n results Hn Hr IH]; intros o data.
  - destruct data; cbn; by rewrite app_nil_r.
  - rewrite fmap_cons. cbn [kernel_sends fold_left kernel_send remaining lookup list_lookup on_wire].
    change (fold_left _ _ _) with (kernel_sends ((λ n, (0%nat, Z.to_nat n)) <$> results)
      (mkWire (o ++ take (Z.to_nat n) data) [drop (Z.to_nat n) data])). rewrite IH.
    destruct data as [|c data]; [destruct results; by rewrite take_nil, drop_nil, !app_nil_r|].
    cbn [Session.send_loop]. rewrite (proj2 (Z.ltb_ge n 0)) by done.
    destruct (decide (Z.to_nat n ≤ length (c :: data))%nat) as [Hle|Hgt].
    + destruct (Session.send_loop results (drop (Z.to_nat n) (c :: data))) as [out r]. cbn [fst].
      rewrite <-app_assoc, length_app, length_take, Nat.min_l, drop_drop by done. done.
    + rewrite drop_ge by lia. assert (E : Session.send_loop results [] = ([], Ret tt)) by (by destruct results).
      rewrite E. cbn [fst]. rewrite !app_nil_r, take_ge by lia. by rewrite (drop_ge (c :: data)).
Qed.

(** Whole writes keep messages whole: if every [::send] takes all that its loop
    has left, the socket carries the messages one after the other, in the order
    of the calls. *)
Lemma whole_sends l ms o :
  NoDup l → (∀ i, i ∈ l → (i < length ms)%nat) →
  on_wire (kernel_sends ((λ i, (i, length (default [] (ms !! i)))) <$> l) (mkWire o ms)) =
    o ++ concat ((λ i, default [] (ms !! i)) <$> l).
Proof.
  intros Hn. enough (Hg : ∀ rs o, (∀ i, i ∈ l → rs !! i = ms !! i) → (∀ i, i ∈ l → (i < length ms)%nat) →
    on_wire (kernel_sends ((λ i, (i, length (default [] (ms !! i)))) <$> l) (mkWire o rs)) =
    o ++ concat ((λ i, default [] (ms !! i)) <$> l)) by (intros; by apply Hg).
  induction Hn as [|i l Hi Hn IH]; intros rs o' Hrs Hlt; [by rewrite app_nil_r|].
  destruct (lookup_lt_is_Some_2 ms i (Hlt i ltac:(left))) as [m Hm].
  rewrite !fmap_cons. cbn [kernel_sends fold_left concat]. unfold kernel_send at 2. cbn [remaining on_wire].
  rewrite (Hrs i) by left. rewrite Hm. cbn [from_option]. unfold id. rewrite take_ge by done.
  etrans; [apply (IH (<[i := drop (length m) m]> rs) (o' ++ m))|by rewrite <-app_assoc].
  - intros j Hj. rewrite list_lookup_insert_ne by (intros ->; done). apply Hrs. by right.
  - intros j Hj. apply Hlt. by right.
Qed.

Definition pong_bytes : bytes := serialize frame_pong.
Definition message_bytes : bytes := serialize (frame_message (lit "t") (lit "21") 7).

(** Partial writes do not: [Session::send] takes no lock of its own, so a reply
    of the session's thread and a message from a publisher's thread can meet on
    one socket. Here the kernel takes the first three bytes of a pong, then the
    message, then the rest: the subscriber receives neither order of the two
    frames, and its parser finds no frame in what it got. *)
Theorem sends_can_tear :
  let w := kernel_sends [(0, 3); (1, length message_bytes); (0, length pong_bytes)]%nat
             (mkWire [] [pong_bytes; message_bytes]) in
  concat (remaining w) = [] ∧
  on_wire w ≠ pong_bytes ++ message_bytes ∧ on_wire w ≠ message_bytes ++ pong_bytes ∧
  parse (on_wire w) = Ret None.
Proof.
  split; [vm_compute; reflexivity|]. split; [vm_compute; discriminate|]. split; [vm_compute; discriminate|].
  vm_compute. reflexivity.
Qed.
End Wire.
